(* ===== verification/_CoqProject ===== *)
-Q . S2P
Prelude.v
Tables.v
Text.v
Store.v
Memory.v
Compression.v
Snapshot.v
S3Api.v
S3Keys.v
S3Store.v
S3Spec.v
S3Block.v
S3Snap.v
S3SnapSpec.v
S3Activity.v
S3Migrate.v
S3Open.v
Concrete.v
Cache.v
CachedStore.v
S3Theorems.v
SnapTheorems.v
FormatTheorems.v
CacheTheorems.v
Ready.v
WriteBuffer.v
WriteCache.v
WriteBack.v
WriteBackSpec.v
WriteBackWorker.v
WriteBackOps.v
WriteBackFlush.v
WriteBackRecover.v
Stack.v
WriteBackTheorems.v
Images.v
ImagesSpec.v
Value.v
ConcreteWire.v
Wire.v
WireSpec.v
Device.v
Config.v
DeviceTheorems.v
ConfigSpec.v
Load.v
LoadTheorems.v
Volume.v
Restart.v
Crash.v
ConfigTheorems.v
Portals.v
Float.v
Metrics.v
MetricsSpec.v
Sessions.v
MetricsTheorems.v
Admin.v
AdminOps.v
AdminTheorems.v
Transfer.v
TransferTheorems.v
Startup.v
Isolation.v
Main.v
MainTheorems.v
DaemonTheorems.v
Commands.v
Print.v
Client.v
ClientTheorems.v
Ctl.v
CtlTheorems.v
Perf.v
PerfTheorems.v
