(* ===== verification/Prelude.v ===== *)
(** * Verification of iscsi-s3

    iscsi-s3 is an iSCSI target whose disks are volumes of fixed-size chunks in
    an S3 bucket. A SCSI command reaches [S3BlockDevice] (src/src/device.rs),
    which turns block addresses into byte ranges of a [BlockStore]
    (src/src/store/mod.rs). The store of a volume is a stack, assembled by
    [open_volume] (src/src/volume.rs) from the validated configuration
    (src/src/config.rs): [WriteCachedStore] (src/src/write_cache.rs), a
    write-back cache with a worker thread, over [CachedStore] (src/src/cache.rs),
    a write-through cache on an LRU pool shared by all volumes, over
    [S3ChunkStore] (src/src/store/s3.rs). Chunks are stored compressed
    (src/src/compression.rs), either as one object per chunk (legacy) or as
    content-addressed objects behind per-chunk pointers (cow), which gives
    snapshots (src/src/snapshot.rs, src/src/storage_mode.rs). The admin socket
    (src/src/admin.rs) copies, seeds, exports, wipes, grows, snapshots and
    migrates volumes and reloads the configuration: one JSON request per line,
    one JSON reply per line, image bytes between them. The control client
    (src/src/bin/iscsi-s3-ctl.rs) turns commands into these requests, prints the
    replies, and attaches volumes with iscsiadm, at the portals the daemon
    (src/src/main.rs) announces.

    ** Method

    Rust functions are computations of the monad [M S E A] of this file: they
    pass a state, and end in [Ok], [Err], [Panic] or [OutOfFuel]. A method with
    a receiver is a computation on the receiver's record. [wp m Q R s] says that
    [m], started in [s], neither panics nor runs out of fuel, and what holds
    after [Ok] and after [Err]; all specifications are total in this sense.
    Integers are [Z] kept in range by the operations, with Rust's wrapping,
    saturating and checked arithmetic written out; slices panic out of range.

    Code outside the repository is a parameter with documented laws: the S3
    client ([S3Client], [S3Laws] in S3Api.v: strong consistency, ETags,
    conditional puts, paged listings, every request may fail), the compressors
    ([Codecs], [CodecLaws]), BLAKE3 ([Blake3], [Blake3Laws]; collisions are
    excluded per write by [admissible], or for the contents a volume is used
    with by [Stack.collision_free], not globally), serde_json on the documents
    ([Json], [JsonLaws], [StampJson]) and as the text of socket messages ([Wire],
    [WireLaws] in Value.v: a text is one line and reads back as its value), the
    bytesize crate ([Conf.ByteSize], [ByteSizeLaws], [ByteSizeText]), the figment
    crate ([Figment], [FigmentLaws] in Load.v: later layers win, tables are merged
    key by key), the prometheus crate ([Prometheus], [PrometheusLaws]), the machine
    the daemon is started on ([Platform] in Main.v), the machine the client runs
    on ([Host], [HostLaws] in Client.v: programs, device links, files).
    Concrete.v and ConcreteWire.v have concrete functions that meet the laws and
    a small volume in an in-memory bucket with scriptable faults. Floating point
    is the Standard Library's executable binary64 (Float.v).

    ** Files

    - Prelude.v, Tables.v, Text.v: the monad and its rules, byte strings, slices
      and the chunk loop; sums and minima over finite maps; strings.
    - Store.v: [StoreError], [check_range], the trait as the class [BlockStore]
      and its contract [BlockStoreLaws]: a linear array of bytes. Memory.v,
      S3Block.v (over S3Spec.v) and CachedStore.v are its instances. Ready.v:
      the interface [ReadyLaws] of the layers above, for stores that are
      healthy; every healthy contract store and the write-back cache provide it.
      Its writes keep every chunk in the set [allowed], which is how
      content-addressed volumes state that the hash has no collisions, and its
      operations keep the relation [akin], which is how a client knows that only
      chunk data moved in the bucket.
    - Compression.v, Snapshot.v, S3Keys.v: the chunk container, pointers and
      snapshot indices, key layout and capacity planning.
    - S3Api.v, S3Store.v, S3Snap.v: the S3 chunk store: requests, chunk access,
      the compare-and-swap loop, block I/O; snapshots, collection, migration,
      open. Proofs in S3Spec.v, S3SnapSpec.v, S3Activity.v (what may happen beside
      a snapshot), S3Migrate.v, S3Open.v.
    - Cache.v, CachedStore.v: the LRU pool and the write-through store.
    - WriteBuffer.v, WriteCache.v, WriteBack.v: buffer, dirty table, chunk files
      and recovery, and the operations of the write-back store with the worker
      thread as a program counter. Proofs in WriteBackSpec.v (state invariant),
      WriteBackWorker.v (one worker turn), WriteBackOps.v (reads, writes,
      eviction), WriteBackFlush.v (flush, growth, deletion, listing and the
      [ReadyLaws] instance), WriteBackRecover.v (recovery, and what a store that
      was stopped leaves behind). Stack.v: the stack of a volume.
    - Images.v, ImagesSpec.v: seeding, export, copy and wipe over trait objects.
    - Device.v: the SCSI device and its identity.
    - Config.v, ConfigSpec.v, Volume.v: configuration, validation, [open_volume].
      Load.v: defaults, decoding and the layers of [Config::load]. Restart.v:
      opening again over what a used volume left behind. Crash.v: the histories of
      a volume whose daemon dies again and again. Startup.v: opening
      several volumes of one bucket, one after the other. Isolation.v: what an
      operation on one volume leaves of the others, and the independent disks a
      daemon's volumes are compared with.
    - Float.v, Metrics.v, MetricsSpec.v, Sessions.v: the series and operations of
      src/src/metrics.rs and its table of live sessions. Perf.v: the analyser of
      src/src/perf.rs, its samples, floating-point scores and hysteresis.
    - Value.v: JSON values, the class [Serialize] and lookups in replies. Wire.v:
      the client's end of the socket (lines, uploads, downloads); WireSpec.v: its
      specification, and [conversation], two programs that each see only what the
      other has sent so far.
    - Admin.v, AdminOps.v: the admin state, where all volumes share one bucket
      and one cache; decoding of request lines, the request handlers with their
      JSON replies, and the framing of a connection ([handle_client]).
    - Transfer.v: client and daemon on one connection, and the simulation
      between a volume behind the admin socket and the volume on its own.
    - Portals.v: the portal addresses of src/src/main.rs. Main.v: [run], from the
      command line to the running server, with the builder of the vendored target
      library.
    - Commands.v: the commands of the control client and the requests they send.
      Print.v: the text it prints. Client.v: connecting, disconnecting and
      finding the device of a volume. Ctl.v: the program, command by command.
    - S3Theorems.v, SnapTheorems.v, FormatTheorems.v, CacheTheorems.v,
      WriteBackTheorems.v, DeviceTheorems.v, LoadTheorems.v, ConfigTheorems.v,
      MetricsTheorems.v, AdminTheorems.v, TransferTheorems.v, MainTheorems.v,
      DaemonTheorems.v, ClientTheorems.v, CtlTheorems.v, PerfTheorems.v: the
      properties (C1, C2, ...), their witnesses, and concrete runs that show
      observed flaws.

    ** What the theorems show

    - Every store implements the block-store contract, and caches are
      transparent: a write that fits succeeds and reads return the last written
      bytes (S3 store in both layouts, write-through cache, write-back cache in
      all modes, SCSI device). A write that fails leaves each chunk old or new.
    - The worker thread, interleaved arbitrarily with the foreground steps, never
      changes the volume and drains the queue; flush returns and empties the
      cache. From the configuration down to the bucket, in both layouts: what was
      written and flushed is what a restarted daemon serves, and in disk mode
      nothing that was written is lost when the daemon dies, any number of times,
      between two operations or worker turns or inside a write, an eviction, a
      flush or the replacement of a chunk file ([history] in Crash.v).
    - Snapshots stay restorable under writes, trims and further snapshots that may
      fail anywhere, and under collections and deletions of other snapshots while
      the service works; collection removes exactly the unreferenced objects; migration and its resumption preserve
      the volume; open never changes data and only grows.
    - Formats and keys round-trip and decoders are total; validation accepts
      exactly the configurations described; CHAP settings are never dropped;
      copies, images and device identity are as documented.
    - Every setting comes from the highest layer that has it, and a loaded
      configuration is valid. A start over a bucket with a sound part for every
      volume succeeds: the targets are the configured ones with their CHAP
      settings, and all volumes, sharing bucket and cache, show what the bucket
      held. From then on any mix of reads, writes and flushes to the volumes is
      answered as by separate disks. Reloading the unchanged file changes nothing.
    - The paged listing ends as an unbounded loop ([loops]), whatever the size of
      the pages. The daemon announces
      hosts with the port it listens on, the client connects to exactly these
      addresses and sets up CHAP before every login; waiting for the device of a
      volume ends.
    - Every request the client can send is decoded by the daemon as the request
      meant, and a destructive command sends nothing before the user agreed. An
      image uploaded with the client is what the volume holds afterwards, and a
      download writes exactly the volume's bytes to the client's output, through
      the client's code, the socket's framing, the handler and the volume; client
      and daemon do not wait for each other for ever.
    - No report to the metrics panics; session gauges equal the live sessions;
      the analyser's samples are exactly the reports of each window, its decision
      takes the highest score, and the exported gauge follows the last component
      that won two windows in a row.
    - Flaws found on the way are stated as theorems on concrete runs (a flush
      that fails loses writes, collection during a fault, stale chunks after a
      failed write, lost updates of absent chunks, resurrection of deleted
      chunks, stale flat copies, seeding over dirty chunks, overlapping
      prefixes, portals after a reload, a cache report without its figures), or
      for all states ([volume_wipe_never_succeeds]: a wipe fails after it has
      thrown away the write-back cache).

    ** Bounds and fuel

    Loops carry fuel computed from the input: [chunk_loop] one unit per byte
    range piece, eviction one per cached entry, the image loops one per chunk
    ([Image.pieces]), paged listings one per object. A wait of the write-back
    store runs worker turns: parking takes at most [WC.PARK_TURNS] turns and
    making room at most [WC.work] turns. The specifications exclude [OutOfFuel],
    so the fuel is proved to be enough.

    ** Granularity

    One foreground operation runs at a time per store (the SCSI device is behind
    a mutex). Critical sections of the mutexes, calls on the inner store and
    file-system sequences under the file lock are atomic; between them the
    write-back store passes [yield] points where the worker and time advance as
    a schedule says. Deletion and listing are specified for a quiet worker; with
    a running one they have the races shown by [worker_races]. A chunk access of
    the S3 store is one step (lock stripes); concurrent targets on one bucket
    appear through conditional puts. A request that times out is not cancelled by
    the code and may be carried out later; in the model it is carried out before
    the wait ends or never. The socket of a client or daemon is what has come so
    far; a program that needs more while the peer may still send waits, which is
    [OutOfFuel].

    ** Not modelled

    The vendored iSCSI protocol stack (only its builder is), the parsing of
    command lines by clap, the texts of JSON and TOML, log messages and messages
    on standard error, and the accept loops of the sockets are I/O or third-party
    code. The numbers of JSON values are integers. Lines are bytes: that a line is
    valid UTF-8 is not checked. Updates of the metrics are taken one at a time.
    Debug formatting of strings is taken without escapes, and whitespace as ASCII
    whitespace. A start is specified for write-back caches that are off or in
    memory, recovery from a directory for one volume at a time; a daemon that
    dies inside a start, a deletion or an admin request is not specified. Of the
    SCSI device a buffer that no vector can hold is a panic; that the allocator
    has no memory left is not modelled. With several
    volumes in use the requests are taken one after the other and the workers rest
    between them; the worker's interleavings are specified for one volume. Steps
    not taken: end-to-end statements for the snapshot requests of the admin
    socket. *)

From Stdlib Require Export ZArith Lia.
From coqutil Require Export Byte.
From coqutil Require Export Word.LittleEndianList.
From stdpp Require Export base numbers list gmap strings pretty sorting.
#[global] Open Scope Z_scope.
#[global] Set Default Goal Selector "!".

Abbreviation byte := Init.Byte.byte.
Abbreviation bytes := (list Init.Byte.byte).

#[global] Instance byte_eq_dec : EqDecision byte := Byte.byte_eq_dec.
#[global] Instance byte_countable : Countable byte.
Proof. refine (inj_countable' byte.unsigned byte.of_Z _). apply byte.of_Z_unsigned. Defined.

(** ** Machine integers

    [u64], [u32], [u8] and (64-bit) [usize] values are integers kept in range
    by the operations; each Rust arithmetic method is written out. *)
Module Int.
Definition u64_max : Z := 2 ^ 64 - 1.
Definition u32_max : Z := 2 ^ 32 - 1.
Definition is_u64 (x : Z) : Prop := 0 ≤ x ≤ u64_max.
Definition is_u32 (x : Z) : Prop := 0 ≤ x ≤ u32_max.

(** [u64::wrapping_add], [u64::wrapping_mul] *)
Definition wrapping_add64 (a b : Z) : Z := (a + b) mod 2 ^ 64.
Definition wrapping_mul64 (a b : Z) : Z := (a * b) mod 2 ^ 64.
(** [u64::saturating_sub], [u64::saturating_add], [u64::saturating_mul] *)
Definition saturating_sub (a b : Z) : Z := Z.max 0 (a - b).
Definition saturating_add64 (a b : Z) : Z := Z.min u64_max (a + b).
Definition saturating_mul64 (a b : Z) : Z := Z.min u64_max (a * b).
(** [u64::checked_add], [u64::checked_mul] *)
Definition checked_add64 (a b : Z) : option Z :=
  if a + b <=? u64_max then Some (a + b) else None.
Definition checked_mul64 (a b : Z) : option Z :=
  if a * b <=? u64_max then Some (a * b) else None.

Lemma checked_add64_spec a b :
  checked_add64 a b = if decide (a + b ≤ u64_max) then Some (a + b) else None.
Proof.
  unfold checked_add64.
  destruct (Z.leb_spec (a + b) u64_max); case_decide; auto; lia.
Qed.

Lemma checked_mul64_spec a b :
  checked_mul64 a b = if decide (a * b ≤ u64_max) then Some (a * b) else None.
Proof.
  unfold checked_mul64.
  destruct (Z.leb_spec (a * b) u64_max); case_decide; auto; lia.
Qed.
End Int.
Export Int.

(** ** Outcomes and the state/error monad

    A Rust function that may return [Err], panic, or loop is a computation of
    [M S E A]: it reads and updates a state [S] and ends in an [outcome].
    [OutOfFuel] is the model's own marker for a loop that was given too little
    fuel; every specification below excludes it, and excludes [Panic]. *)
Inductive outcome (E A : Type) : Type :=
| Ok (a : A)
| Err (e : E)
| Panic
| OutOfFuel.
Arguments Ok {E A} a.
Arguments Err {E A} e.
Arguments Panic {E A}.
Arguments OutOfFuel {E A}.

(** Pure fallible functions compose with the same notation. *)
#[global] Instance outcome_ret E : MRet (outcome E) := λ A a, Ok a.
#[global] Instance outcome_bind E : MBind (outcome E) := λ A B f r,
  match r with
  | Ok a => f a
  | Err e => Err e
  | Panic => Panic
  | OutOfFuel => OutOfFuel
  end.

Definition M (S E A : Type) : Type := S → outcome E A * S.

#[global] Instance M_ret S E : MRet (M S E) := λ A a s, (Ok a, s).
#[global] Instance M_bind S E : MBind (M S E) := λ A B f m s,
  match m s with
  | (Ok a, s') => f a s'
  | (Err e, s') => (Err e, s')
  | (Panic, s') => (Panic, s')
  | (OutOfFuel, s') => (OutOfFuel, s')
  end.

Section monad.
Context {S E : Type}.

(** [return Err(e)], a panic, and reading / updating the state. *)
Definition throw {A} (e : E) : M S E A := λ s, (Err e, s).
Definition panic {A} : M S E A := λ s, (Panic, s).
Definition get : M S E S := λ s, (Ok s, s).
Definition gets {A} (f : S → A) : M S E A := λ s, (Ok (f s), s).
Definition modify (f : S → S) : M S E unit := λ s, (Ok tt, f s).

(** Run a pure fallible function. *)
Definition lift {A} (r : outcome E A) : M S E A := λ s, (r, s).

(** [let _ = m;]: the result, [Ok] or [Err], is dropped. *)
Definition ignore {A} (m : M S E A) : M S E unit := λ s,
  match m s with
  | (Ok _, s') | (Err _, s') => (Ok tt, s')
  | (Panic, s') => (Panic, s')
  | (OutOfFuel, s') => (OutOfFuel, s')
  end.

(** [match m { Ok(a) => .., Err(e) => .. }]: the error becomes a value. *)
Definition attempt {A} (m : M S E A) : M S E (A + E) := λ s,
  match m s with
  | (Ok a, s') => (Ok (inl a), s')
  | (Err e, s') => (Ok (inr e), s')
  | (Panic, s') => (Panic, s')
  | (OutOfFuel, s') => (OutOfFuel, s')
  end.

(** [while cond { body }] over loop variables [st], with fuel. *)
Fixpoint while {St} (fuel : nat) (cond : St → bool) (body : St → M S E St)
    (st : St) : M S E St :=
  if cond st then
    match fuel with
    | O => λ s, (OutOfFuel, s)
    | Datatypes.S fuel => st' ← body st; while fuel cond body st'
    end
  else mret st.

(** The same loop without fuel, as a big-step relation: [loops st s r s'] when
    the loop started at [st] in state [s] ends with [r] in [s']. *)
Inductive loops {St} (cond : St → bool) (body : St → M S E St)
    : St → S → outcome E St → S → Prop :=
| loops_exit st s : cond st = false → loops cond body st s (Ok st) s
| loops_next st s st' s' r s'' :
    cond st = true → body st s = (Ok st', s') → loops cond body st' s' r s'' →
    loops cond body st s r s''
| loops_return st s e s' :
    cond st = true → body st s = (Err e, s') → loops cond body st s (Err e) s'.

(** [for x in l { body }] with an accumulator for the mutated locals. *)
Fixpoint for_each {X Acc} (l : list X) (body : X → Acc → M S E Acc) (acc : Acc)
    : M S E Acc :=
  match l with
  | [] => mret acc
  | x :: l => acc' ← body x acc; for_each l body acc'
  end.
End monad.

(** Changing the error type ([map_err]) and running a computation on a part of
    a larger state. *)
Definition map_err {S E E' A} (f : E → E') (m : M S E A) : M S E' A := λ s,
  match m s with
  | (Ok a, s') => (Ok a, s')
  | (Err e, s') => (Err (f e), s')
  | (Panic, s') => (Panic, s')
  | (OutOfFuel, s') => (OutOfFuel, s')
  end.

Definition zoom {S T E A} (proj : T → S) (upd : S → T → T) (m : M S E A)
    : M T E A := λ t, let '(r, s') := m (proj t) in (r, upd s' t).

(** ** Specifications

    [wp m Q R s]: started in [s], [m] neither panics nor runs out of fuel; if
    it returns [Ok a] the final state satisfies [Q a], if it returns [Err e]
    the final state satisfies [R e]. *)
Definition wp {S E A} (m : M S E A) (Q : A → S → Prop) (R : E → S → Prop)
    (s : S) : Prop :=
  match m s with
  | (Ok a, s') => Q a s'
  | (Err e, s') => R e s'
  | _ => False
  end.

Section wp_rules.
Context {S E : Type}.
Implicit Types (s : S) (R : E → S → Prop).

Lemma wp_mono {A} (m : M S E A) (Q Q' : A → S → Prop) R R' s :
  wp m Q R s → (∀ a s', Q a s' → Q' a s') → (∀ e s', R e s' → R' e s') →
  wp m Q' R' s.
Proof. unfold wp. destruct (m s) as [[] ?]; eauto. Qed.

Lemma wp_mret {A} (a : A) (Q : A → S → Prop) R s : Q a s → wp (mret a) Q R s.
Proof. done. Qed.

Lemma wp_throw {A} e (Q : A → S → Prop) R s : R e s → wp (throw e) Q R s.
Proof. done. Qed.

Lemma wp_gets {A} (f : S → A) (Q : A → S → Prop) R s : Q (f s) s → wp (gets f) Q R s.
Proof. done. Qed.

Lemma wp_modify f (Q : unit → S → Prop) R s : Q tt (f s) → wp (modify f) Q R s.
Proof. done. Qed.

Lemma wp_lift_ok {A} (a : A) (Q : A → S → Prop) R s : Q a s → wp (lift (Ok a)) Q R s.
Proof. done. Qed.

Lemma wp_lift {A} (r : outcome E A) (Q : A → S → Prop) R s :
  r ≠ Panic ∧ r ≠ OutOfFuel → (∀ a, r = Ok a → Q a s) → (∀ e, r = Err e → R e s) →
  wp (lift r) Q R s.
Proof. unfold wp, lift. destruct r; naive_solver. Qed.

Lemma wp_bind {A B} (m : M S E A) (f : A → M S E B) (Q : B → S → Prop) R s :
  wp m (λ a, wp (f a) Q R) R s → wp (m ≫= f) Q R s.
Proof.
  unfold wp, mbind, M_bind. destruct (m s) as [[] ?]; eauto.
Qed.

Lemma wp_ignore {A} (m : M S E A) (Q : unit → S → Prop) Q' R R' s :
  wp m Q' R' s → (∀ a s', Q' a s' → Q tt s') → (∀ e s', R' e s' → Q tt s') →
  wp (ignore m) Q R s.
Proof. unfold wp, ignore. destruct (m s) as [[] ?]; eauto. Qed.

Lemma wp_attempt {A} (m : M S E A) (Q : A + E → S → Prop) R s :
  wp m (λ a, Q (inl a)) (λ e, Q (inr e)) s → wp (attempt m) Q R s.
Proof. unfold wp, attempt. destruct (m s) as [[] ?]; eauto. Qed.

(** Invariant rule for loops; the measure bounds the fuel that is needed. *)
Lemma wp_while {St} (I : St → S → Prop) (measure : St → nat) R cond body :
  (∀ st s, I st s → cond st = true →
     wp (body st) (λ st' s', I st' s' ∧ (measure st' < measure st)%nat) R s) →
  ∀ fuel st s, I st s → (measure st < fuel)%nat →
  wp (while fuel cond body st) (λ st' s', I st' s' ∧ cond st' = false) R s.
Proof.
  intros Hbody fuel. induction fuel as [|fuel IH]; intros st s HI Hm; simpl.
  - lia.
  - destruct (cond st) eqn:Hc; [|by apply wp_mret].
    apply wp_bind. eapply wp_mono; [by apply Hbody| |done].
    intros st' s' [HI' Hlt]. apply IH; [done|lia].
Qed.

(** A loop whose fuel is enough ends as an unbounded loop, in one way only. *)
Lemma wp_loops {St} cond (body : St → M S E St) fuel st (Q : St → S → Prop) R s :
  wp (while fuel cond body st) Q R s →
  ∃ r s', while fuel cond body st s = (r, s') ∧ loops cond body st s r s'.
Proof.
  revert st s. induction fuel as [|fuel IH]; intros st s; simpl;
    destruct (cond st) eqn:Hc; unfold wp, mbind, M_bind; [done|..].
  1, 3: intros _; eexists _, _; split; [done|by apply loops_exit].
  destruct (body st s) as [[st'|e| |] s'] eqn:Hb; try done.
  - intros (r & s'' & Hr & Hl)%IH. exists r, s''. split; [done|by eapply loops_next].
  - intros _. eexists _, _. split; [done|by apply loops_return].
Qed.

Lemma loops_det {St} cond (body : St → M S E St) st s r s' :
  loops cond body st s r s' → ∀ r' s'', loops cond body st s r' s'' → r' = r ∧ s'' = s'.
Proof.
  induction 1 as [st s Hc|st s st1 s1 r s2 Hc Hb _ IH|st s e s1 Hc Hb];
    intros r' s'; inversion 1; simplify_eq; try congruence.
  1: done.
  all: match goal with H1 : ?m = (_, _), H2 : ?m = (_, _) |- _ =>
         rewrite H1 in H2; simplify_eq end; auto.
Qed.

(** Invariant rule for [for]: [I done todo acc s]. *)
Lemma wp_for_each {X Acc} (I : list X → list X → Acc → S → Prop) R
    (body : X → Acc → M S E Acc) :
  (∀ pre x post acc s, I pre (x :: post) acc s →
     wp (body x acc) (λ acc' s', I (pre ++ [x]) post acc' s') R s) →
  ∀ l acc s, I [] l acc s →
  wp (for_each l body acc) (λ acc' s', I l [] acc' s') R s.
Proof.
  intros Hbody l.
  enough (∀ pre acc s, I pre l acc s →
    wp (for_each l body acc) (λ acc' s', I (pre ++ l) [] acc' s') R s) as Hgen.
  { intros acc s. apply (Hgen []). }
  induction l as [|x l IH]; intros pre acc s HI; simpl.
  - apply wp_mret. by rewrite app_nil_r.
  - apply wp_bind. eapply wp_mono; [by apply Hbody| |done].
    intros acc' s' HI'. specialize (IH _ _ _ HI').
    by rewrite <-app_assoc in IH.
Qed.
End wp_rules.

Lemma wp_map_err {S E E' A} (f : E → E') (m : M S E A) (Q : A → S → Prop)
    (R : E' → S → Prop) s :
  wp m Q (λ e, R (f e)) s → wp (map_err f m) Q R s.
Proof. unfold wp, map_err. destruct (m s) as [[] ?]; eauto. Qed.

Lemma wp_zoom {S T E A} (proj : T → S) (upd : S → T → T) (m : M S E A)
    (Q : A → T → Prop) (R : E → T → Prop) t :
  wp m (λ a s, Q a (upd s t)) (λ e s, R e (upd s t)) (proj t) →
  wp (zoom proj upd m) Q R t.
Proof. unfold wp, zoom. destruct (m (proj t)) as [[] ?]; eauto. Qed.

(** [wp_step] peels one monadic construct off the goal. *)
Ltac wp_step :=
  lazymatch goal with
  | |- wp (mret _) _ _ _ => apply wp_mret
  | |- wp (throw _) _ _ _ => apply wp_throw
  | |- wp (gets _) _ _ _ => apply wp_gets
  | |- wp get _ _ _ => apply (wp_gets (λ s, s))
  | |- wp (modify _) _ _ _ => apply wp_modify
  | |- wp (lift (Ok _)) _ _ _ => apply wp_lift_ok
  | |- wp (_ ≫= _) _ _ _ => apply wp_bind
  | |- wp (map_err _ _) _ _ _ => apply wp_map_err
  | |- wp (zoom _ _ _) _ _ _ => apply wp_zoom
  | |- wp (attempt _) _ _ _ => apply wp_attempt
  end; cbv beta.
Ltac wp_steps := repeat wp_step.

(** ** Byte strings and slices *)
Definition Zlen {A} (l : list A) : Z := Z.of_nat (length l).

(** Byte [i] of [l]; positions outside [l] read as zero. *)
Definition nthb (l : bytes) (i : Z) : byte := nth (Z.to_nat i) l Byte.x00.

(** [vec![0u8; n]] *)
Definition zeros (n : Z) : bytes := replicate (Z.to_nat n) Byte.x00.

(** [n] bytes of [l] from position [a]; [l] with the bytes from [a] replaced. *)
Definition sub (l : bytes) (a n : Z) : bytes := take (Z.to_nat n) (drop (Z.to_nat a) l).
Definition splice (l : bytes) (a : Z) (src : bytes) : bytes :=
  take (Z.to_nat a) l ++ src ++ drop (Z.to_nat (a + Zlen src)) l.

(** [&l[a..b]]: panics unless [a <= b <= l.len()]. *)
Definition slice {E} (l : bytes) (a b : Z) : outcome E bytes :=
  if (0 <=? a) && (a <=? b) && (b <=? Zlen l) then Ok (sub l a (b - a)) else Panic.

(** [l[a..b].copy_from_slice(src)]: also panics when the lengths differ. *)
Definition copy_into {E} (l : bytes) (a b : Z) (src : bytes) : outcome E bytes :=
  if (0 <=? a) && (a <=? b) && (b <=? Zlen l) && (Zlen src =? b - a)
  then Ok (splice l a src) else Panic.

Section byte_lemmas.
Implicit Types (l src : bytes) (a b n i : Z).

Lemma Zlen_nonneg {A} (l : list A) : 0 ≤ Zlen l.
Proof. unfold Zlen. lia. Qed.
Lemma Zlen_nil {A} : Zlen (@nil A) = 0.
Proof. done. Qed.
Lemma Zlen_cons {A} (x : A) (l : list A) : Zlen (x :: l) = 1 + Zlen l.
Proof. unfold Zlen. simpl. lia. Qed.
Lemma Zlen_app {A} (l k : list A) : Zlen (l ++ k) = Zlen l + Zlen k.
Proof. unfold Zlen. rewrite length_app. lia. Qed.
Lemma Zlen_zeros n : 0 ≤ n → Zlen (zeros n) = n.
Proof. unfold Zlen, zeros. rewrite length_replicate. lia. Qed.

Lemma nthb_zeros n i : nthb (zeros n) i = Byte.x00.
Proof.
  unfold nthb, zeros. destruct (nth_in_or_default (Z.to_nat i)
    (replicate (Z.to_nat n) Byte.x00) Byte.x00) as [Hin|]; [|done].
  apply list_elem_of_In, elem_of_replicate in Hin. by destruct Hin.
Qed.

Lemma Zlen_sub l a n : 0 ≤ a → 0 ≤ n → a + n ≤ Zlen l → Zlen (sub l a n) = n.
Proof. unfold Zlen, sub. rewrite length_take, length_drop. lia. Qed.

Lemma nthb_lookup l i x : 0 ≤ i → l !! Z.to_nat i = Some x → nthb l i = x.
Proof. intros ? H. unfold nthb. by apply nth_lookup_Some. Qed.

Lemma nthb_lookup_total l i :
  0 ≤ i < Zlen l → l !! Z.to_nat i = Some (nthb l i).
Proof.
  unfold Zlen. intros ?. destruct (lookup_lt_is_Some_2 l (Z.to_nat i)) as [x Hx]; [lia|].
  rewrite Hx. f_equal. symmetry. apply nthb_lookup; [lia|done].
Qed.

Lemma nthb_overflow l i : Zlen l ≤ i → nthb l i = Byte.x00.
Proof. unfold Zlen, nthb. intros. apply nth_overflow. lia. Qed.

Lemma bytes_ext l src :
  Zlen l = Zlen src → (∀ i, 0 ≤ i < Zlen l → nthb l i = nthb src i) → l = src.
Proof.
  unfold Zlen. intros Hlen Heq. apply (list_eq_same_length _ _ (length l)); [lia|done|].
  intros i x y Hi Hx Hy.
  rewrite <-(nthb_lookup l (Z.of_nat i) x), <-(nthb_lookup src (Z.of_nat i) y);
    rewrite ?Nat2Z.id; [apply Heq; lia|lia|done|lia|done].
Qed.

Lemma nthb_sub l a n i :
  0 ≤ a → 0 ≤ i < n → nthb (sub l a n) i = nthb l (a + i).
Proof.
  intros Ha Hi. unfold nthb, sub.
  destruct (decide (a + i < Zlen l)) as [Hlt|Hge]; unfold Zlen in *.
  - apply nth_lookup_Some. rewrite lookup_take_lt by lia. rewrite lookup_drop.
    replace (Z.to_nat a + Z.to_nat i)%nat with (Z.to_nat (a + i)) by lia.
    apply nthb_lookup_total. unfold Zlen. lia.
  - rewrite !nth_overflow; [done|lia|].
    rewrite length_take, length_drop. lia.
Qed.

Lemma Zlen_splice l a src :
  0 ≤ a → a + Zlen src ≤ Zlen l → Zlen (splice l a src) = Zlen l.
Proof.
  unfold Zlen, splice. rewrite !length_app, length_take, length_drop. unfold Zlen. lia.
Qed.

Lemma nthb_app l src i :
  0 ≤ i → nthb (l ++ src) i = if decide (i < Zlen l) then nthb l i else nthb src (i - Zlen l).
Proof.
  intros Hi. unfold nthb, Zlen. case_decide.
  - rewrite app_nth1 by lia. done.
  - rewrite app_nth2 by lia. f_equal. lia.
Qed.

Lemma nthb_splice l a src i :
  0 ≤ a → 0 ≤ i → a + Zlen src ≤ Zlen l →
  nthb (splice l a src) i =
    if decide (a ≤ i < a + Zlen src) then nthb src (i - a) else nthb l i.
Proof.
  intros Ha Hi Hlen. pose proof (Zlen_nonneg src). unfold splice.
  assert (Zlen (take (Z.to_nat a) l) = a) as Hta.
  { unfold Zlen in *. rewrite length_take. lia. }
  rewrite nthb_app, Hta by lia. destruct (decide (i < a)).
  - rewrite decide_False by lia. change (take (Z.to_nat a) l) with (sub l 0 a).
    rewrite nthb_sub by lia. f_equal.
  - rewrite nthb_app by lia.
    destruct (decide (i - a < Zlen src)); [by rewrite decide_True by lia|].
    rewrite decide_False by lia. unfold nthb.
    destruct (decide (i < Zlen l)).
    + apply nth_lookup_Some. rewrite lookup_drop.
      replace (Z.to_nat (a + Zlen src) + Z.to_nat (i - a - Zlen src))%nat
        with (Z.to_nat i) by lia.
      apply nthb_lookup_total. lia.
    + unfold Zlen in *. rewrite !nth_overflow; [done|lia|rewrite length_drop; lia].
Qed.

Lemma slice_ok {E} l a b :
  0 ≤ a ≤ b → b ≤ Zlen l → slice (E:=E) l a b = Ok (sub l a (b - a)).
Proof.
  intros. unfold slice.
  by rewrite (proj2 (Z.leb_le 0 a)), (proj2 (Z.leb_le a b)), (proj2 (Z.leb_le b _)) by lia.
Qed.

Lemma copy_into_ok {E} l a b src :
  0 ≤ a ≤ b → b ≤ Zlen l → Zlen src = b - a →
  copy_into (E:=E) l a b src = Ok (splice l a src).
Proof.
  intros ?? Hs. unfold copy_into. rewrite Hs, Z.eqb_refl.
  by rewrite (proj2 (Z.leb_le 0 a)), (proj2 (Z.leb_le a b)), (proj2 (Z.leb_le b _)) by lia.
Qed.
End byte_lemmas.

Create HintDb zlen.
#[export] Hint Rewrite @Zlen_nil @Zlen_cons @Zlen_app : zlen.

Section slice_rules.
Context {S E : Type}.

Lemma wp_slice (l : bytes) a b (Q : bytes → S → Prop) (R : E → S → Prop) s :
  0 ≤ a ≤ b → b ≤ Zlen l → Q (sub l a (b - a)) s → wp (lift (slice l a b)) Q R s.
Proof. intros. by rewrite slice_ok. Qed.

Lemma wp_copy_into (l src : bytes) a b (Q : bytes → S → Prop) (R : E → S → Prop) s :
  0 ≤ a ≤ b → b ≤ Zlen l → Zlen src = b - a →
  Q (splice l a src) s → wp (lift (copy_into l a b src)) Q R s.
Proof. intros. by rewrite copy_into_ok. Qed.
End slice_rules.

(** ** Chunk decomposition

    Every store splits an I/O request at chunk boundaries with the loop
    [while done < len { abs = offset + done; idx = abs / chunk_size;
    within = abs % chunk_size; take = min(chunk_size - within, len - done);
    ..; done += take }]; [chunk_loop] is that loop with the body left open. *)
Definition piece_take (cs off len done : Z) : Z :=
  Z.min (cs - (off + done) mod cs) (len - done).

Definition chunk_loop {S E Acc} (cs off len : Z)
    (body : (* abs *) Z → (* chunk_idx *) Z → (* within *) Z → (* take *) Z →
            (* done *) Z → Acc → M S E Acc) (acc : Acc) : M S E Acc :=
  st ← while (Datatypes.S (Z.to_nat len))
    (λ '(done, _), done <? len)
    (λ '(done, acc),
      if cs =? 0 then panic (* division by zero *) else
      let abs := off + done in
      let chunk_idx := abs / cs in
      let within := abs mod cs in
      let take := Z.min (cs - within) (len - done) in
      acc' ← body abs chunk_idx within take done acc;
      mret (done + take, acc'))
    (0, acc);
  mret st.2.

Lemma piece_bounds cs off len done :
  0 < cs → 0 ≤ done < len →
  0 ≤ (off + done) mod cs < cs ∧
  0 < piece_take cs off len done ≤ len - done ∧
  (off + done) mod cs + piece_take cs off len done ≤ cs.
Proof.
  intros Hcs Hd. unfold piece_take.
  pose proof (Z.mod_pos_bound (off + done) cs Hcs). lia.
Qed.

Lemma piece_addr cs off len done j :
  0 < cs → 0 ≤ done < len → 0 ≤ j < piece_take cs off len done →
  (off + done + j) / cs = (off + done) / cs ∧
  (off + done + j) mod cs = (off + done) mod cs + j.
Proof.
  intros Hcs Hd Hj. destruct (piece_bounds cs off len done) as (?&?&?); [done..|].
  pose proof (Z.div_mod (off + done) cs ltac:(lia)) as Heq.
  split.
  - symmetry. apply Z.div_unique with ((off + done) mod cs + j); [lia|].
    rewrite Heq at 1. lia.
  - symmetry. apply Z.mod_unique with ((off + done) / cs); [lia|].
    rewrite Heq at 1. lia.
Qed.

(** The address of byte [i] of chunk [idx], and back. *)
Lemma addr_div cs idx w : 0 < cs → 0 ≤ w < cs → (idx * cs + w) / cs = idx.
Proof. intros. symmetry. apply Z.div_unique with w; lia. Qed.
Lemma addr_mod cs idx w : 0 < cs → 0 ≤ w < cs → (idx * cs + w) mod cs = w.
Proof. intros. symmetry. apply Z.mod_unique with idx; lia. Qed.

Lemma wp_chunk_loop {S E Acc} (I : Z → Acc → S → Prop) (R : E → S → Prop)
    cs off len body (acc : Acc) s :
  0 < cs → 0 ≤ len → I 0 acc s →
  (∀ done acc s, 0 ≤ done < len → I done acc s →
     wp (body (off + done) ((off + done) / cs) ((off + done) mod cs)
           (piece_take cs off len done) done acc)
        (λ acc' s', I (done + piece_take cs off len done) acc' s') R s) →
  wp (chunk_loop cs off len body acc) (λ acc' s', I len acc' s') R s.
Proof.
  intros Hcs Hlen HI Hbody. unfold chunk_loop. wp_step.
  eapply wp_mono; [eapply (wp_while
    (λ '(done, acc) s, 0 ≤ done ≤ len ∧ I done acc s)
    (λ '(done, _), Z.to_nat (len - done)) R)| |done].
  - intros [done acc'] s' [Hd HI'] Hc%Z.ltb_lt.
    rewrite (proj2 (Z.eqb_neq cs 0)) by lia. cbv zeta.
    destruct (piece_bounds cs off len done) as (?&?&?); [lia..|].
    wp_step. fold (piece_take cs off len done).
    eapply wp_mono; [apply Hbody; [lia|done]| |done].
    intros acc'' s'' HI''. wp_step. split; [split; [lia|done]|lia].
  - split; [lia|done].
  - lia.
  - intros [done acc'] s' [[Hd HI'] Hc%Z.ltb_ge]. simpl in *. wp_step. simpl.
    by replace len with done by lia.
Qed.

(** Progress of a read loop: the first [done] bytes of [buf] show [f] at [off]. *)
Definition filled (f : Z → byte) (off done : Z) (buf : bytes) : Prop :=
  ∀ i, 0 ≤ i < done → nthb buf i = f (off + i).

Lemma filled_splice f off done (buf src : bytes) :
  0 ≤ done → done + Zlen src ≤ Zlen buf → filled f off done buf →
  (∀ j, 0 ≤ j < Zlen src → nthb src j = f (off + done + j)) →
  filled f off (done + Zlen src) (splice buf done src).
Proof.
  intros Hd Hlen Hf Hsrc i Hi. rewrite nthb_splice by lia. case_decide.
  - rewrite Hsrc by lia. f_equal. lia.
  - apply Hf. lia.
Qed.

(** ** Sorted index lists ([sort_unstable], [dedup]) *)
Definition sort_unstable (l : list Z) : list Z := merge_sort Z.le l.

(** [Vec::dedup]: drop an element equal to the one kept before it. *)
Fixpoint dedup (l : list Z) : list Z :=
  match l with
  | [] => []
  | x :: l =>
      match dedup l with
      | [] => [x]
      | y :: k => if x =? y then y :: k else x :: y :: k
      end
  end.

Lemma sort_unstable_elem l x : x ∈ sort_unstable l ↔ x ∈ l.
Proof. unfold sort_unstable. by rewrite merge_sort_Permutation. Qed.

Lemma sort_unstable_sorted l : StronglySorted Z.le (sort_unstable l).
Proof. apply StronglySorted_merge_sort; apply _. Qed.

Lemma sorted_lt_of_le l : NoDup l → StronglySorted Z.le l → StronglySorted Z.lt l.
Proof.
  induction l as [|x l IH]; intros Hnd Hs; [constructor|].
  apply NoDup_cons in Hnd as [Hx Hnd]. apply StronglySorted_inv in Hs as [Hs Hall].
  constructor; [by apply IH|]. rewrite Forall_forall in *. intros y Hy.
  specialize (Hall y Hy). assert (x ≠ y) by (intros ->; done). lia.
Qed.

Lemma sort_unstable_NoDup l : NoDup l → StronglySorted Z.lt (sort_unstable l).
Proof.
  intros Hnd. apply sorted_lt_of_le; [|apply sort_unstable_sorted].
  unfold sort_unstable. by rewrite merge_sort_Permutation.
Qed.

Lemma dedup_elem l x : x ∈ dedup l ↔ x ∈ l.
Proof.
  induction l as [|y l IH]; simpl; [done|]. rewrite elem_of_cons, <-IH.
  destruct (dedup l) as [|z k]; [set_solver|].
  destruct (Z.eqb_spec y z) as [->|]; set_solver.
Qed.

Lemma dedup_sorted l : StronglySorted Z.le l → StronglySorted Z.lt (dedup l).
Proof.
  induction l as [|y l IH]; intros Hs; simpl; [constructor|].
  apply StronglySorted_inv in Hs as [Hs Hall]. specialize (IH Hs).
  assert (Forall (Z.le y) (dedup l)) as Hall'.
  { rewrite Forall_forall in *. intros x Hx. apply Hall. by apply dedup_elem. }
  destruct (dedup l) as [|z k]; [repeat constructor|].
  destruct (Z.eqb_spec y z) as [->|Hne]; [done|].
  apply StronglySorted_inv in IH as [IH Hzk]. inversion Hall'; subst.
  constructor; [by constructor|]. constructor; [lia|].
  rewrite Forall_forall in *. intros x Hx. specialize (Hzk x Hx). lia.
Qed.

Lemma sorted_lt_nodup l : StronglySorted Z.lt l → NoDup l.
Proof.
  induction 1 as [|x l Hs IH Hall]; constructor; [|done].
  rewrite Forall_forall in Hall. intros Hx%Hall. lia.
Qed.

Lemma sorted_keys {A} (m : gmap Z A) :
  StronglySorted Z.lt (sort_unstable (map_to_list m).*1) ∧
  ∀ k, k ∈ sort_unstable (map_to_list m).*1 ↔ is_Some (m !! k).
Proof.
  split; [apply sort_unstable_NoDup, NoDup_fst_map_to_list|].
  intros k. rewrite sort_unstable_elem, list_elem_of_fmap. split.
  - intros ([k' x] & -> & Hin%elem_of_map_to_list). by exists x.
  - intros [x Hx]. exists (k, x). split; [done|]. by apply elem_of_map_to_list.
Qed.
