(* ===== verification/Tables.v ===== *)
(** * Tables: totals and minima over hash maps

    [HashMap]s are [gmap]s. [map_sum] is the total of a measure of the values
    and [min_by_key] the key that [iter().min_by_key(..)] finds; the caches use
    both for their byte counters and their victims. *)
From S2P Require Import Prelude.
#[local] Open Scope Z_scope.

Section tables.
Context {K V : Type} `{Countable K}.
Implicit Types (m : gmap K V) (f : V → Z).

Definition map_sum f m : Z := map_fold (λ _ v n, n + f v) 0 m.

Lemma map_sum_empty f : map_sum f ∅ = 0.
Proof. apply map_fold_empty. Qed.

Lemma map_sum_insert f m k v : m !! k = None → map_sum f (<[k := v]> m) = map_sum f m + f v.
Proof. intros Hk. unfold map_sum. rewrite map_fold_insert_L; [done|lia|done]. Qed.

Lemma map_sum_delete f m k v : m !! k = Some v → map_sum f (delete k m) = map_sum f m - f v.
Proof.
  intros Hk. rewrite <-(insert_delete_id m k v) at 2 by done.
  rewrite map_sum_insert by apply lookup_delete_eq. lia.
Qed.

Lemma map_sum_nonneg f m : (∀ v, 0 ≤ f v) → 0 ≤ map_sum f m.
Proof.
  intros Hf. induction m as [|k v m Hk IH] using map_ind; [by rewrite map_sum_empty|].
  rewrite map_sum_insert by done. specialize (Hf v). lia.
Qed.

Lemma map_sum_const f m c :
  map_Forall (λ _ v, f v = c) m → map_sum f m = Z.of_nat (size m) * c.
Proof.
  induction m as [|k v m Hk IH] using map_ind; [by rewrite map_sum_empty, map_size_empty|].
  intros Hf. rewrite map_Forall_insert in Hf by done. destruct Hf as [Hv Hf].
  rewrite map_sum_insert, map_size_insert_None, IH by done. lia.
Qed.

(** [iter().min_by_key(|(_, v)| f(v)).map(|(k, _)| k)]: the first minimum. *)
Definition lower f (best kv : K * V) : K * V := if f kv.2 <? f best.2 then kv else best.
Definition min_by_key f (l : list (K * V)) : option K :=
  match l with [] => None | kv :: l => Some (foldl (lower f) kv l).1 end.

Lemma foldl_lower f kv l :
  foldl (lower f) kv l ∈ kv :: l ∧ ∀ kv', kv' ∈ kv :: l → f (foldl (lower f) kv l).2 ≤ f kv'.2.
Proof.
  revert kv. induction l as [|kv1 l IH]; intros kv; simpl; [set_solver by lia|].
  destruct (IH (lower f kv kv1)) as [Hin Hmin]. split.
  - unfold lower in *. case_match; set_solver.
  - intros kv' Hin'. assert (Hl : f (lower f kv kv1).2 ≤ f kv.2 ∧ f (lower f kv kv1).2 ≤ f kv1.2).
    { unfold lower. destruct (Z.ltb_spec (f kv1.2) (f kv.2)); lia. }
    rewrite !elem_of_cons in Hin'. destruct Hin' as [->|[->|Hin']].
    + specialize (Hmin (lower f kv kv1) ltac:(set_solver)). lia.
    + specialize (Hmin (lower f kv kv1) ltac:(set_solver)). lia.
    + apply Hmin. set_solver.
Qed.

Lemma min_by_key_Some f m k :
  min_by_key f (map_to_list m) = Some k →
  ∃ v, m !! k = Some v ∧ ∀ k' v', m !! k' = Some v' → f v ≤ f v'.
Proof.
  unfold min_by_key. destruct (map_to_list m) as [|kv l] eqn:Hl; [done|]. intros [= <-].
  destruct (foldl_lower f kv l) as [Hin Hmin]. rewrite <-Hl in Hin, Hmin.
  exists (foldl (lower f) kv l).2. split.
  - apply elem_of_map_to_list. by rewrite <-surjective_pairing.
  - intros k' v' Hk'. apply (Hmin (k', v')). by apply elem_of_map_to_list.
Qed.

Lemma min_by_key_None f m : min_by_key f (map_to_list m) = None → m = ∅.
Proof.
  unfold min_by_key. destruct (map_to_list m) as [|kv l] eqn:Hl; [|done].
  intros _. by apply map_to_list_empty_iff.
Qed.
End tables.

(** The chunks of a volume are few: their indices are below the chunk count. *)
Lemma index_count {V} (m : gmap Z V) n :
  0 ≤ n → map_Forall (λ k _, 0 ≤ k < n) m → Z.of_nat (size m) ≤ n.
Proof.
  intros Hn Hm. rewrite <-size_dom.
  assert (Hs : dom m ⊆ list_to_set (C := gset Z) (seqZ 0 n)).
  { intros k [v Hv]%elem_of_dom. rewrite elem_of_list_to_set, elem_of_seqZ.
    apply Hm in Hv. lia. }
  apply subseteq_size in Hs. rewrite size_list_to_set in Hs by apply NoDup_seqZ.
  rewrite length_seqZ in Hs. lia.
Qed.
