(* ===== verification/Text.v ===== *)
(** * Strings: the parts of Rust's [str] and formatting the sources use

    A [String]/[&str] is a byte string; positions and lengths count bytes.
    Slicing at a position inside a multi-byte character panics, as in Rust. *)
From S2P Require Import Prelude.
From Stdlib Require Import Ascii String.
#[local] Open Scope string_scope.
#[local] Open Scope list_scope.
#[local] Open Scope Z_scope.

Module Text.
Definition slash : ascii := "/"%char.

Definition str_len (s : string) : Z := Z.of_nat (String.length s).
Definition is_empty (s : string) : bool := match s with "" => true | _ => false end.

(** [s.starts_with(p)] and [s.strip_prefix(p)] *)
Fixpoint strip_prefix (p s : string) : option string :=
  match p, s with
  | "", _ => Some s
  | String a p, String b s => if Ascii.eqb a b then strip_prefix p s else None
  | String _ _, "" => None
  end.
Definition starts_with (p s : string) : bool :=
  match strip_prefix p s with Some _ => true | None => false end.

(** [s.contains(p)] *)
Fixpoint contains (p s : string) : bool :=
  starts_with p s || match s with "" => false | String _ s => contains p s end.

(** [s.ends_with(p)] *)
Fixpoint ends_with (p s : string) : bool :=
  String.eqb s p || match s with "" => false | String _ s => ends_with p s end.

Definition has_char (c : ascii) (s : string) : bool := contains (String c "") s.

(** The byte at position [i]. *)
Definition byte_at (s : string) (i : nat) : option ascii := String.get i s.

(** UTF-8: position [i] starts a character (or is the end). *)
Definition is_char_boundary (s : string) (i : nat) : bool :=
  match String.get i s with
  | None => Nat.eqb i (String.length s)
  | Some c => let n := Ascii.nat_of_ascii c in Nat.ltb n 128 || Nat.leb 192 n
  end.

(** [&s[a..b]] *)
Definition str_slice {E} (s : string) (a b : nat) : outcome E string :=
  if Nat.leb a b && Nat.leb b (String.length s)
     && is_char_boundary s a && is_char_boundary s b
  then Ok (String.substring a (b - a) s) else Panic.

(** [s.trim_matches('/')] *)
Fixpoint trim_start_char (c : ascii) (s : string) : string :=
  match s with
  | "" => ""
  | String d s' => if Ascii.eqb c d then trim_start_char c s' else s
  end.
Fixpoint trim_end_char (c : ascii) (s : string) : string :=
  match s with
  | "" => ""
  | String d s' =>
      match trim_end_char c s' with
      | "" => if Ascii.eqb c d then "" else String d ""
      | t => String d t
      end
  end.
Definition trim_matches (c : ascii) (s : string) : string :=
  trim_end_char c (trim_start_char c s).

(** [str::trim] on ASCII text. *)
Definition is_space (c : ascii) : bool :=
  let n := Ascii.nat_of_ascii c in (Nat.leb 9 n && Nat.leb n 13) || Nat.eqb n 32.
Fixpoint trim_start (s : string) : string :=
  match s with
  | "" => ""
  | String d s' => if is_space d then trim_start s' else s
  end.
Fixpoint trim_end (s : string) : string :=
  match s with
  | "" => ""
  | String d s' =>
      match trim_end s' with
      | "" => if is_space d then "" else String d ""
      | t => String d t
      end
  end.
Definition trim (s : string) : string := trim_end (trim_start s).

(** ** Hexadecimal *)
Definition hex_digit (up : bool) (d : Z) : ascii :=
  ascii_of_N (Z.to_N (if d <? 10 then 48 + d else (if up then 55 else 87) + d)).

(** The value of a hexadecimal digit, in either case. *)
Definition digit_val (c : ascii) : option Z :=
  let n := Z.of_N (N_of_ascii c) in
  if (48 <=? n) && (n <=? 57) then Some (n - 48)
  else if (97 <=? n) && (n <=? 102) then Some (n - 87)
  else if (65 <=? n) && (n <=? 70) then Some (n - 55)
  else None.

(** [format!("{z:0nx}")] (or [X]) for [z < 16^n]. *)
Fixpoint hex_fixed (up : bool) (n : nat) (z : Z) : string :=
  match n with
  | O => ""
  | S n => hex_fixed up n (z / 16) +:+ String (hex_digit up (z mod 16)) ""
  end.

(** [uN::from_str_radix(s, 16)]: an optional [+], at least one digit, no
    overflow past [max]. *)
Fixpoint parse_digits (max : Z) (v : Z) (s : string) : option Z :=
  match s with
  | "" => Some v
  | String c s =>
      d ← digit_val c;
      let v' := v * 16 + d in
      if v' <=? max then parse_digits max v' s else None
  end.
Definition from_str_radix16 (max : Z) (s : string) : option Z :=
  match s with
  | "" => None
  | String c s' =>
      if Ascii.eqb c "+"%char then
        match s' with "" => None | _ => parse_digits max 0 s' end
      else parse_digits max 0 s
  end.

(** [char::is_ascii_hexdigit], [char::is_ascii_alphanumeric] *)
Definition is_hexdigit (c : ascii) : bool :=
  match digit_val c with Some _ => true | None => false end.
Definition is_alphanumeric (c : ascii) : bool :=
  let n := Ascii.nat_of_ascii c in
  (Nat.leb 48 n && Nat.leb n 57) || (Nat.leb 65 n && Nat.leb n 90)
  || (Nat.leb 97 n && Nat.leb n 122).
Fixpoint all_chars (f : ascii → bool) (s : string) : bool :=
  match s with "" => true | String c s => f c && all_chars f s end.

(** Decimal [{}] of an integer, and the [{:?}] form of plain text. *)
Definition dec (z : Z) : string := pretty z.
Definition dquote : string := String (ascii_of_nat 34) "".
Definition quoted (s : string) : string := dquote +:+ s +:+ dquote.

(** [s.as_bytes()] *)
Definition as_bytes (s : string) : bytes := String.list_byte_of_string s.

(** ** Lemmas *)
Lemma str_app_assoc (s t u : string) : s +:+ t +:+ u = (s +:+ t) +:+ u.
Proof. induction s as [|c s IH]; [done|exact (f_equal (String c) IH)]. Qed.

Lemma digit_val_hex up d : 0 ≤ d < 16 → digit_val (hex_digit up d) = Some d.
Proof.
  intros Hd. assert (d = 0 ∨ d = 1 ∨ d = 2 ∨ d = 3 ∨ d = 4 ∨ d = 5 ∨ d = 6 ∨ d = 7 ∨
    d = 8 ∨ d = 9 ∨ d = 10 ∨ d = 11 ∨ d = 12 ∨ d = 13 ∨ d = 14 ∨ d = 15) as Hc by lia.
  destruct up; repeat destruct Hc as [->|Hc]; subst; vm_compute; done.
Qed.

Lemma hex_digit_not_plus up d : 0 ≤ d < 16 → Ascii.eqb (hex_digit up d) "+"%char = false.
Proof.
  intros Hd. apply Ascii.eqb_neq. intros Heq.
  pose proof (digit_val_hex up d Hd) as Hv. rewrite Heq in Hv. done.
Qed.

Lemma parse_digits_app max v s t :
  parse_digits max v (s +:+ t) = parse_digits max v s ≫= λ v', parse_digits max v' t.
Proof.
  revert v. induction s as [|c s IH]; intros v; simpl; [done|].
  destruct (digit_val c); simpl; [|done].
  destruct (v * 16 + z <=? max); [apply IH|done].
Qed.

Lemma hex_fixed_parse up n max v z :
  0 ≤ v → 0 ≤ z < 16 ^ Z.of_nat n → v * 16 ^ Z.of_nat n + z ≤ max →
  parse_digits max v (hex_fixed up n z) = Some (v * 16 ^ Z.of_nat n + z).
Proof.
  revert z. induction n as [|n IH]; intros z Hv Hz Hmax; cbn [hex_fixed].
  - simpl. f_equal. change (16 ^ Z.of_nat 0) with 1 in *. lia.
  - rewrite Nat2Z.inj_succ, Z.pow_succ_r in * by lia.
    pose proof (Z.div_mod z 16 ltac:(lia)). pose proof (Z.mod_pos_bound z 16 ltac:(lia)).
    rewrite parse_digits_app, IH; [|done|split; [apply Z.div_pos; lia|]|].
    + simpl. rewrite digit_val_hex by done. simpl.
      rewrite (proj2 (Z.leb_le _ max)) by lia. f_equal. lia.
    + apply Z.div_lt_upper_bound; lia.
    + lia.
Qed.

(** Reading back a formatted number. *)
Lemma hex_fixed_roundtrip up n max z :
  (0 < n)%nat → 0 ≤ z < 16 ^ Z.of_nat n → z ≤ max →
  from_str_radix16 max (hex_fixed up n z) = Some z.
Proof.
  intros Hn Hz Hmax. pose proof (hex_fixed_parse up n max 0 z ltac:(lia) Hz ltac:(lia)) as Hp.
  assert (∃ d s, 0 ≤ d < 16 ∧ hex_fixed up n z = String (hex_digit up d) s) as (d & s & Hd & Heq).
  { clear -Hn. revert z. induction n as [|n IH]; intros z; [lia|]. cbn [hex_fixed].
    destruct n as [|n].
    - exists (z mod 16), "". split; [apply Z.mod_pos_bound; lia|done].
    - destruct (IH ltac:(lia) (z / 16)) as (d & s & Hd & ->). by eexists d, _. }
  unfold from_str_radix16. rewrite Heq in *.
  by rewrite hex_digit_not_plus.
Qed.

Lemma hex_fixed_inj up n x y :
  (0 < n)%nat → 0 ≤ x < 16 ^ Z.of_nat n → 0 ≤ y < 16 ^ Z.of_nat n →
  hex_fixed up n x = hex_fixed up n y → x = y.
Proof.
  intros Hn Hx Hy Heq.
  pose proof (hex_fixed_roundtrip up n (Z.max x y) x Hn Hx ltac:(lia)) as H1.
  rewrite Heq, hex_fixed_roundtrip in H1 by (done || lia). by injection H1.
Qed.

Lemma hex_fixed_length up n z : String.length (hex_fixed up n z) = n.
Proof.
  revert z. induction n as [|n IH]; intros z; cbn [hex_fixed]; [done|].
  rewrite String.app_length, IH. simpl. lia.
Qed.

Lemma strip_prefix_app p s : strip_prefix p (p +:+ s) = Some s.
Proof. induction p as [|c p IH]; simpl; [done|]. by rewrite Ascii.eqb_refl. Qed.

Lemma strip_prefix_Some p s r : strip_prefix p s = Some r → s = p +:+ r.
Proof.
  revert s. induction p as [|c p IH]; intros [|d s]; simpl; try naive_solver.
  destruct (Ascii.eqb_spec c d) as [->|]; [|done]. intros ?%IH. by subst.
Qed.

Lemma ends_with_app p t : ends_with t (p +:+ t) = true.
Proof.
  induction p as [|c p IH].
  - change ("" +:+ t) with t. destruct t; simpl; rewrite ?Ascii.eqb_refl, ?String.eqb_refl; done.
  - change (String c p +:+ t) with (String c (p +:+ t)). cbn [ends_with]. by rewrite IH, orb_true_r.
Qed.

Lemma ends_with_inv t s : ends_with t s = true → ∃ p, s = p +:+ t.
Proof.
  induction s as [|c s IH]; cbn [ends_with].
  - rewrite orb_false_r. intros <-%String.eqb_eq. by exists "".
  - intros [<-%String.eqb_eq|Hs]%orb_true_iff; [by exists ""|].
    destruct (IH Hs) as [p ->]. by exists (String c p).
Qed.

Lemma str_length_app s t : String.length (s +:+ t) = (String.length s + String.length t)%nat.
Proof.
  induction s as [|c s IH]; [done|].
  change (String c s +:+ t) with (String c (s +:+ t)). simpl. by rewrite IH.
Qed.

(** Strings with equally long suffixes. *)
Lemma suffix_inj p q t u : String.length t = String.length u → p +:+ t = q +:+ u → t = u.
Proof.
  intros Hl. revert q. induction p as [|c p IH]; intros [|d q] Heq.
  - done.
  - apply (f_equal String.length) in Heq. rewrite !str_length_app in Heq. simpl in Heq. lia.
  - apply (f_equal String.length) in Heq. rewrite !str_length_app in Heq. simpl in Heq. lia.
  - apply (IH q). by injection Heq.
Qed.

Lemma starts_with_app p s : starts_with p (p +:+ s) = true.
Proof. unfold starts_with. by rewrite strip_prefix_app. Qed.

Lemma starts_with_inv p s : starts_with p s = true → ∃ r, s = p +:+ r.
Proof.
  unfold starts_with. destruct (strip_prefix p s) as [r|] eqn:Hs; [|done].
  intros _. exists r. by apply strip_prefix_Some.
Qed.

Lemma substring_0 m t : String.substring 0 (String.length m) (m +:+ t) = m.
Proof. induction m as [|c m IH]; simpl; [by destruct t|]. by rewrite IH. Qed.

Lemma substring_mid p m t :
  String.substring (String.length p) (String.length m) (p +:+ m +:+ t) = m.
Proof. induction p as [|c p IH]; [exact (substring_0 m t)|exact IH]. Qed.

Lemma substring_all s : String.substring 0 (String.length s) s = s.
Proof. induction s as [|c s IH]; simpl; [done|]. by rewrite IH. Qed.

Lemma all_chars_app f s t : all_chars f (s +:+ t) = all_chars f s && all_chars f t.
Proof. induction s as [|c s IH]; simpl; [done|]. by rewrite IH, andb_assoc. Qed.

Lemma all_chars_impl (f g : ascii → bool) s :
  (∀ c, f c = true → g c = true) → all_chars f s = true → all_chars g s = true.
Proof.
  intros Hfg. induction s as [|c s IH]; simpl; [done|].
  rewrite !andb_true_iff. naive_solver.
Qed.

Lemma has_char_false c s :
  all_chars (λ d, negb (Ascii.eqb c d)) s = true → has_char c s = false.
Proof.
  unfold has_char. induction s as [|d s IH]; simpl; [done|].
  rewrite andb_true_iff, negb_true_iff. intros [Hc Hs].
  unfold starts_with. simpl. rewrite Hc. simpl. by apply IH.
Qed.

Lemma all_chars_get f s i c : all_chars f s = true → String.get i s = Some c → f c = true.
Proof.
  revert i. induction s as [|d s IH]; intros i; simpl; [by destruct i|].
  rewrite andb_true_iff. intros [Hd Hs]. destruct i; simpl; [naive_solver|by apply IH].
Qed.

(** Hexadecimal text is ASCII and has no slash. *)
Lemma hexdigit_ascii c : is_hexdigit c = true →
  (Ascii.nat_of_ascii c < 128)%nat ∧ Ascii.eqb slash c = false.
Proof.
  destruct c as [[] [] [] [] [] [] [] []]; vm_compute; intros Hc; try done;
    (split; [lia|done]).
Qed.

Lemma hex_digit_hexdigit up d : 0 ≤ d < 16 → is_hexdigit (hex_digit up d) = true.
Proof. intros Hd. unfold is_hexdigit. by rewrite digit_val_hex. Qed.

Lemma hex_fixed_hexdigits up n z : all_chars is_hexdigit (hex_fixed up n z) = true.
Proof.
  revert z. induction n as [|n IH]; intros z; cbn [hex_fixed]; [done|].
  rewrite all_chars_app, IH. cbn [all_chars].
  rewrite hex_digit_hexdigit; [done|]. apply Z.mod_pos_bound. lia.
Qed.

Lemma hexdigits_no_slash s : all_chars is_hexdigit s = true → has_char slash s = false.
Proof.
  intros Hs. apply has_char_false. revert Hs. apply all_chars_impl.
  intros c [_ Hc]%hexdigit_ascii. by rewrite Hc.
Qed.

Lemma get_None s i : String.get i s = None → (String.length s ≤ i)%nat.
Proof.
  revert i. induction s as [|c s IH]; intros i; simpl; [lia|].
  destruct i; simpl; [done|]. intros ?%IH. lia.
Qed.

Lemma hexdigits_boundary s i :
  all_chars is_hexdigit s = true → (i ≤ String.length s)%nat → is_char_boundary s i = true.
Proof.
  intros Hs Hi. unfold is_char_boundary. destruct (String.get i s) as [c|] eqn:Hg.
  - destruct (hexdigit_ascii c) as [Hlt _]; [by eapply all_chars_get|].
    by rewrite (proj2 (Nat.ltb_lt _ _) Hlt).
  - apply get_None in Hg. apply Nat.eqb_eq. lia.
Qed.
End Text.
Export Text.
