(* ===== verification/Store.v ===== *)
(** * The block-store interface (src/src/store/mod.rs)

    [StoreError], the range check every store starts with, and the
    [BlockStore] trait: its operations as a class, and its contract as a second
    class that every implementation discharges and every client is proved
    against. *)
From S2P Require Import Prelude.

Inductive StoreError : Type :=
| OutOfRange (offset len capacity : Z)
| ShrinkRefused (current requested : Z)
| GeometryMismatch (msg : string)
| S3Error (msg : string)
| MetaError (msg : string)
| OtherError (msg : string).

#[global] Instance StoreError_eq_dec : EqDecision StoreError.
Proof. solve_decision. Defined.

Definition check_range (capacity offset len : Z) : outcome StoreError unit :=
  match checked_add64 offset len with
  | None => Err (OutOfRange offset len capacity)
  | Some e => if e >? capacity then Err (OutOfRange offset len capacity) else Ok tt
  end.

(** The trait's methods. A [&mut [u8]] buffer is passed in and returned. *)
Class BlockStore (S : Type) : Type := {
  read_at : Z → bytes → M S StoreError bytes;
  write_at : Z → bytes → M S StoreError unit;
  capacity : S → Z;
  set_capacity : Z → M S StoreError unit;
  flush : M S StoreError unit;
  block_size : S → Z;
  chunk_size : S → Z;
  present_chunks : M S StoreError (list Z);
  delete_chunk : Z → M S StoreError unit
}.

(** ** The contract

    A store is a linear array of bytes [content s] of length [capacity s].
    [invariant] is the representation invariant and [ready] says that no
    underlying I/O is going to fail; a store that is not ready may return any
    error. [admissible] is the side condition under which a write is
    guaranteed (content-addressed stores need the payload not to collide). *)
Record same_shape {S} `{BlockStore S} (s s' : S) : Prop := {
  same_block_size : block_size s' = block_size s;
  same_chunk_size : chunk_size s' = chunk_size s
}.

Class BlockStoreModel (S : Type) `{BlockStore S} : Type := {
  invariant : S → Prop;
  ready : S → Prop;
  content : S → Z → byte;
  admissible : S → Z → bytes → Prop
}.

Section contract.
Context {S : Type} `{BlockStoreModel S}.
Implicit Types s : S.

(** [s'] shows the same volume as [s]. *)
Record same_volume (s s' : S) : Prop := {
  sv_shape : same_shape s s';
  sv_capacity : capacity s' = capacity s;
  sv_content : ∀ i, 0 ≤ i → content s' i = content s i;
  sv_ready : ready s → ready s'
}.

(** What overwriting [data] at [off] makes of the byte at address [i]. *)
Definition patched (s : S) (off : Z) (data : bytes) (i : Z) : byte :=
  if decide (off ≤ i < off + Zlen data) then nthb data (i - off) else content s i.

Record written (s s' : S) (off : Z) (data : bytes) : Prop := {
  wr_shape : same_shape s s';
  wr_capacity : capacity s' = capacity s;
  wr_content : ∀ i, 0 ≤ i → content s' i = patched s off data i;
  wr_ready : ready s → ready s'
}.

Definition in_range (s : S) (off len : Z) : Prop := off + len ≤ capacity s.

(** The only error a ready store may return. *)
Definition range_error (s : S) (off len : Z) (e : StoreError) : Prop :=
  ¬ in_range s off len ∧ e = OutOfRange off len (capacity s).
End contract.

Class BlockStoreLaws (S : Type) `{BlockStoreModel S} : Prop := {
  law_geometry (s : S) : invariant s →
    0 < block_size s ≤ u32_max ∧ 0 < chunk_size s ≤ u64_max ∧ is_u64 (capacity s);
  (** Nothing is stored beyond the end of the volume. *)
  law_tail (s : S) (i : Z) : invariant s → capacity s ≤ i → content s i = Byte.x00;
  law_read (s : S) off buf : invariant s → 0 ≤ off →
    wp (read_at off buf)
      (λ buf' s', invariant s' ∧ same_volume s s' ∧ in_range s off (Zlen buf) ∧
         Zlen buf' = Zlen buf ∧
         ∀ i, 0 ≤ i < Zlen buf → nthb buf' i = content s (off + i))
      (λ e s', invariant s' ∧ same_volume s s' ∧
         (range_error s off (Zlen buf) e ∨ ¬ ready s)) s;
  law_write (s : S) off data : invariant s → 0 ≤ off → admissible s off data →
    wp (write_at off data)
      (λ _ s', invariant s' ∧ in_range s off (Zlen data) ∧ written s s' off data)
      (λ e s', (range_error s off (Zlen data) e ∧ invariant s' ∧ same_volume s s') ∨
               ¬ ready s) s;
  law_set_capacity (s : S) n : invariant s → is_u64 n →
    wp (set_capacity n)
      (λ _ s', invariant s' ∧ same_shape s s' ∧ capacity s' = n ∧ capacity s ≤ n ∧
         n mod block_size s = 0 ∧ (∀ i, 0 ≤ i → content s' i = content s i) ∧
         (ready s → ready s'))
      (λ e s', (invariant s' ∧ same_volume s s' ∧
                ((n mod block_size s ≠ 0) ∨ n < capacity s)) ∨ ¬ ready s) s;
  law_flush (s : S) : invariant s →
    wp flush (λ _ s', invariant s' ∧ same_volume s s') (λ _ _, ¬ ready s) s;
  law_present (s : S) : invariant s →
    wp present_chunks
      (λ l s', invariant s' ∧ same_volume s s' ∧ StronglySorted Z.lt l ∧
         Forall is_u64 l ∧
         ∀ i, 0 ≤ i → content s i ≠ Byte.x00 → i / chunk_size s ∈ l)
      (λ _ s', ¬ ready s) s;
  law_delete (s : S) idx : invariant s → is_u64 idx →
    wp (delete_chunk idx)
      (λ _ s', invariant s' ∧ same_shape s s' ∧ capacity s' = capacity s ∧
         (∀ i, 0 ≤ i → content s' i =
            if decide (i / chunk_size s = idx) then Byte.x00 else content s i) ∧
         (ready s → ready s'))
      (λ _ _, ¬ ready s) s
}.

(** Stores whose writes need no side condition. *)
Class AlwaysAdmissible (S : Type) `{BlockStoreModel S} : Prop :=
  always_admissible (s : S) off data : admissible s off data.

(** ** Facts about the range check *)
Lemma check_range_spec cap off len :
  0 ≤ off → is_u64 cap →
  check_range cap off len =
    if decide (off + len ≤ cap) then Ok tt else Err (OutOfRange off len cap).
Proof.
  unfold is_u64. intros Hoff Hcap. unfold check_range. rewrite checked_add64_spec.
  destruct (decide (off + len ≤ u64_max)).
  - destruct (Z.gtb_spec (off + len) cap); case_decide; auto; lia.
  - rewrite decide_False by lia. done.
Qed.

Section contract_lemmas.
Context {S : Type} `{BlockStoreModel S}.
Implicit Types s : S.

#[global] Instance same_shape_preorder : PreOrder (@same_shape S _).
Proof.
  split; [by constructor|]. intros ??? [] []. constructor; congruence.
Qed.

#[global] Instance same_volume_preorder : PreOrder (@same_volume S _ _).
Proof.
  split; [by constructor|]. intros ??? [] [].
  constructor; [by etrans|congruence| |auto].
  intros i Hi. rewrite sv_content1, sv_content0 by done. done.
Qed.

Lemma patched_outside s off data i :
  ¬ (off ≤ i < off + Zlen data) → patched s off data i = content s i.
Proof. intros. unfold patched. by rewrite decide_False. Qed.

Lemma patched_inside s off data i :
  off ≤ i < off + Zlen data → patched s off data i = nthb data (i - off).
Proof. intros. unfold patched. by rewrite decide_True. Qed.
End contract_lemmas.

(** ** Ready stores

    What a client that is given a ready store can rely on: the operations
    return, and fail only on the documented errors. *)
Lemma wp_ok {S E A} (m : M S E A) Q s :
  wp m Q (λ _ _, False) s → ∃ a s', m s = (Ok a, s') ∧ Q a s'.
Proof. unfold wp. destruct (m s) as [[a|e| |] s']; naive_solver. Qed.

Section ready_store.
Context {S : Type} `{BlockStoreLaws S}.
Implicit Types s : S.

Lemma ready_read s off buf :
  invariant s → ready s → 0 ≤ off → in_range s off (Zlen buf) →
  wp (read_at off buf)
    (λ buf' s', invariant s' ∧ same_volume s s' ∧ Zlen buf' = Zlen buf ∧
       ∀ i, 0 ≤ i < Zlen buf → nthb buf' i = content s (off + i))
    (λ _ _, False) s.
Proof.
  intros Hi Hr Hoff Hin. eapply wp_mono; [by apply law_read|naive_solver|].
  intros e s' (_ & _ & [[Hn _]|Hn]); done.
Qed.

Lemma ready_write s off data :
  invariant s → ready s → 0 ≤ off → admissible s off data → in_range s off (Zlen data) →
  wp (write_at off data) (λ _ s', invariant s' ∧ written s s' off data) (λ _ _, False) s.
Proof.
  intros Hi Hr Hoff Had Hin. eapply wp_mono; [by apply law_write|naive_solver|].
  intros e s' [[[Hn _] _]|Hn]; done.
Qed.

(** What is written is what is read, anywhere in the volume. *)
Lemma write_then_read s off data off' n :
  invariant s → ready s → 0 ≤ off → admissible s off data → in_range s off (Zlen data) →
  0 ≤ off' → 0 ≤ n → in_range s off' n →
  ∃ s1 s2 buf, write_at off data s = (Ok tt, s1) ∧ read_at off' (zeros n) s1 = (Ok buf, s2) ∧
    Zlen buf = n ∧ ∀ i, 0 ≤ i < n → nthb buf i = patched s off data (off' + i).
Proof.
  intros Hi Hr Hoff Had Hin Hoff' Hn Hin'.
  destruct (wp_ok _ _ _ (ready_write s off data Hi Hr Hoff Had Hin)) as ([] & s1 & Hw & Hi1 & Hwr).
  assert (Hz : Zlen (zeros n) = n) by (by apply Zlen_zeros).
  destruct (wp_ok _ _ _ (ready_read s1 off' (zeros n) Hi1 (wr_ready _ _ _ _ Hwr Hr) Hoff'
    ltac:(unfold in_range; rewrite Hz, (wr_capacity _ _ _ _ Hwr); exact Hin')))
    as (buf & s2 & Hrd & _ & _ & Hl & Hb).
  rewrite Hz in *. exists s1, s2, buf. split; [done|]. split; [done|]. split; [done|].
  intros i Hi'. rewrite Hb by done. apply (wr_content _ _ _ _ Hwr). lia.
Qed.
End ready_store.
