(* ===== verification/Memory.v ===== *)
(** * The in-memory store (src/src/store/memory.rs)

    A sparse map of whole chunks; missing chunks read as zeros. *)
From S2P Require Import Prelude Store.

Record MemoryStore : Type := {
  mem_capacity : Z;
  mem_chunks : gmap Z bytes;
  mem_block_size : Z;
  mem_chunk_size : Z
}.

Module Memory.
Definition with_capacity (n : Z) (s : MemoryStore) : MemoryStore :=
  {| mem_capacity := n; mem_chunks := mem_chunks s;
     mem_block_size := mem_block_size s; mem_chunk_size := mem_chunk_size s |}.
Definition with_chunks (m : gmap Z bytes) (s : MemoryStore) : MemoryStore :=
  {| mem_capacity := mem_capacity s; mem_chunks := m;
     mem_block_size := mem_block_size s; mem_chunk_size := mem_chunk_size s |}.

Definition new (cap bsz csz : Z) : outcome StoreError MemoryStore :=
  if (bsz =? 0) || (csz =? 0) || negb (csz mod bsz =? 0) then
    Err (GeometryMismatch "invalid block_size/chunk_size")
  else if (cap =? 0) || negb (cap mod bsz =? 0) then
    Err (GeometryMismatch "capacity must be multiple of block_size")
  else Ok {| mem_capacity := cap; mem_chunks := ∅;
             mem_block_size := bsz; mem_chunk_size := csz |}.

(** One iteration of the copy loop of [read_at]. *)
Definition read_piece (s : MemoryStore) (within take done : Z) (idx : Z)
    (buf : bytes) : M MemoryStore StoreError bytes :=
  match mem_chunks s !! idx with
  | Some chunk =>
      src ← lift (slice chunk within (within + take));
      lift (copy_into buf done (done + take) src)
  | None => mret buf
  end.

Definition read_at (offset : Z) (buf : bytes) : M MemoryStore StoreError bytes :=
  s ← get;
  _ ← lift (check_range (mem_capacity s) offset (Zlen buf));
  chunk_loop (mem_chunk_size s) offset (Zlen buf)
    (λ _ idx within take done buf, read_piece s within take done idx buf)
    (zeros (Zlen buf)).

(** One iteration of [write_at]: [entry(idx).or_insert_with(zeros)], then the
    copy into the chunk. *)
Definition write_piece (data : bytes) (within take done idx : Z)
    : M MemoryStore StoreError unit :=
  s ← get;
  let chunk := default (zeros (mem_chunk_size s)) (mem_chunks s !! idx) in
  src ← lift (slice data done (done + take));
  chunk' ← lift (copy_into chunk within (within + take) src);
  modify (λ s, with_chunks (<[idx := chunk']> (mem_chunks s)) s).

Definition write_at (offset : Z) (data : bytes) : M MemoryStore StoreError unit :=
  s ← get;
  _ ← lift (check_range (mem_capacity s) offset (Zlen data));
  chunk_loop (mem_chunk_size s) offset (Zlen data)
    (λ _ idx within take done _, write_piece data within take done idx) tt.

Definition set_capacity (n : Z) : M MemoryStore StoreError unit :=
  s ← get;
  if mem_block_size s =? 0 then panic (* remainder by zero *) else
  if negb (n mod mem_block_size s =? 0) then
    throw (GeometryMismatch "capacity must be multiple of block_size")
  else if n <? mem_capacity s then throw (ShrinkRefused (mem_capacity s) n)
  else modify (with_capacity n).

Definition flush : M MemoryStore StoreError unit := mret tt.

(** [keys().copied().collect()] then [sort_unstable]. *)
Definition present_chunks : M MemoryStore StoreError (list Z) :=
  gets (λ s, sort_unstable (map_to_list (mem_chunks s)).*1).

Definition delete_chunk (idx : Z) : M MemoryStore StoreError unit :=
  modify (λ s, with_chunks (delete idx (mem_chunks s)) s).

#[global] Instance memory_block_store : BlockStore MemoryStore := {
  Store.read_at := read_at;
  Store.write_at := write_at;
  Store.capacity := mem_capacity;
  Store.set_capacity := set_capacity;
  Store.flush := flush;
  Store.block_size := mem_block_size;
  Store.chunk_size := mem_chunk_size;
  Store.present_chunks := present_chunks;
  Store.delete_chunk := delete_chunk
}.

(** ** Representation *)
Definition chunk_ok (s : MemoryStore) (idx : Z) (c : bytes) : Prop :=
  is_u64 idx ∧ Zlen c = mem_chunk_size s ∧
  ∀ w, 0 ≤ w < mem_chunk_size s → mem_capacity s ≤ idx * mem_chunk_size s + w →
    nthb c w = Byte.x00.

Record mem_invariant (s : MemoryStore) : Prop := {
  mi_block : 0 < mem_block_size s ≤ u32_max;
  mi_chunk : 0 < mem_chunk_size s ≤ u64_max;
  mi_cap : is_u64 (mem_capacity s);
  mi_chunks : map_Forall (chunk_ok s) (mem_chunks s)
}.

Definition mem_content (s : MemoryStore) (i : Z) : byte :=
  match mem_chunks s !! (i / mem_chunk_size s) with
  | Some c => nthb c (i mod mem_chunk_size s)
  | None => Byte.x00
  end.

#[global] Instance memory_model : BlockStoreModel MemoryStore := {
  invariant := mem_invariant;
  ready := λ _, True;
  content := mem_content;
  admissible := λ _ _ _, True
}.
#[global] Instance memory_admissible : AlwaysAdmissible MemoryStore.
Proof. intros ???. exact I. Qed.

(** ** Proofs of the contract *)
Lemma mem_content_idx s idx w :
  0 < mem_chunk_size s → 0 ≤ w < mem_chunk_size s →
  mem_content s (idx * mem_chunk_size s + w) =
    nthb (default (zeros (mem_chunk_size s)) (mem_chunks s !! idx)) w.
Proof.
  intros. unfold mem_content. rewrite addr_div, addr_mod by lia.
  destruct (mem_chunks s !! idx); simpl; [done|]. by rewrite nthb_zeros.
Qed.

Lemma read_piece_spec s off len done buf :
  mem_invariant s → 0 ≤ off → 0 ≤ done < len → Zlen buf = len →
  filled (mem_content s) off done buf →
  (∀ i, done ≤ i → nthb buf i = Byte.x00) →
  let cs := mem_chunk_size s in
  let take := piece_take cs off len done in
  wp (read_piece s ((off + done) mod cs) take done ((off + done) / cs) buf)
    (λ buf' s', s' = s ∧ Zlen buf' = len ∧
       filled (mem_content s) off (done + take) buf' ∧
       (∀ i, done + take ≤ i → nthb buf' i = Byte.x00))
    (λ _ _, False) s.
Proof.
  intros [] Hoff Hd Hlen Hf Hz cs tk.
  fold cs in mi_chunk0.
  destruct (piece_bounds cs off len done) as (Hw&Ht&Hwt); [lia..|].
  fold tk in Ht, Hwt.
  unfold read_piece. destruct (mem_chunks s !! _) as [c|] eqn:Hc.
  - destruct (mi_chunks0 _ _ Hc) as (_ & Hcl & _). fold cs in Hcl.
    wp_step. apply wp_slice; [lia|lia|].
    set (src := sub c _ _).
    assert (Zlen src = tk) as Hsl by (unfold src; rewrite Zlen_sub; lia).
    apply wp_copy_into; [lia|lia|lia|].
    split; [done|]. rewrite Zlen_splice by lia. split; [done|].
    rewrite <-Hsl at 1. split.
    + apply filled_splice; [lia|lia|done|]. intros j Hj.
      destruct (piece_addr cs off len done j) as [Hq Hr]; [lia|lia|fold tk; lia|].
      unfold mem_content. fold cs. rewrite Hq, Hr. fold cs in Hc. rewrite Hc.
      unfold src. apply nthb_sub; lia.
    + intros i Hi. rewrite nthb_splice by lia. rewrite decide_False by lia. apply Hz. lia.
  - wp_step. split; [done|]. split; [done|]. split; [|intros; apply Hz; lia].
    intros i Hi. destruct (decide (i < done)); [apply Hf; lia|].
    rewrite Hz by lia. destruct (piece_addr cs off len done (i - done)) as [Hq _];
      [lia|lia|fold tk; lia|].
    unfold mem_content. fold cs. replace (off + done + (i - done)) with (off + i) in Hq by lia.
    rewrite Hq. fold cs in Hc. by rewrite Hc.
Qed.

Lemma mem_read_spec s off buf :
  mem_invariant s → 0 ≤ off →
  wp (read_at off buf)
    (λ buf' s', s' = s ∧ off + Zlen buf ≤ mem_capacity s ∧ Zlen buf' = Zlen buf ∧
       filled (mem_content s) off (Zlen buf) buf')
    (λ e s', s' = s ∧ ¬ off + Zlen buf ≤ mem_capacity s ∧
       e = OutOfRange off (Zlen buf) (mem_capacity s)) s.
Proof.
  intros Hinv Hoff. pose proof (mi_cap _ Hinv). pose proof (mi_chunk _ Hinv).
  unfold read_at. wp_steps. rewrite check_range_spec by done. case_decide; [|done].
  wp_steps. pose proof (Zlen_nonneg buf). eapply wp_mono; [apply (wp_chunk_loop (λ done b s', s' = s ∧ Zlen b = Zlen buf ∧
      filled (mem_content s) off done b ∧ ∀ i, done ≤ i → nthb b i = Byte.x00)
      (λ _ _, False))| |done].
  - lia.
  - lia.
  - split; [done|]. rewrite Zlen_zeros by lia. split; [done|].
    split; [intros i ?; lia|intros; apply nthb_zeros].
  - intros done b s' Hd (-> & Hl & Hf & Hz). by apply read_piece_spec.
  - intros b s' (-> & Hl & Hf & _). done.
Qed.

(** Writing one piece updates exactly its bytes. *)
Lemma write_piece_spec s off data done :
  mem_invariant s → 0 ≤ off → 0 ≤ done < Zlen data → off + Zlen data ≤ mem_capacity s →
  let cs := mem_chunk_size s in
  let take := piece_take cs off (Zlen data) done in
  wp (write_piece data ((off + done) mod cs) take done ((off + done) / cs))
    (λ _ s', mem_invariant s' ∧ mem_capacity s' = mem_capacity s ∧
       same_shape s s' ∧
       ∀ i, 0 ≤ i → mem_content s' i =
         if decide (off + done ≤ i < off + done + take)
         then nthb data (i - off) else mem_content s i)
    (λ _ _, False) s.
Proof.
  intros Hinv Hoff Hd Hcap cs tk. destruct Hinv.
  destruct (piece_bounds cs off (Zlen data) done) as (Hw&Ht&Hwt); [lia..|].
  fold tk in Ht, Hwt.
  set (idx := (off + done) / cs) in *. set (within := (off + done) mod cs) in *.
  assert (Hdm : off + done = idx * cs + within)
    by (pose proof (Z.div_mod (off + done) cs ltac:(lia)); unfold idx, within; lia).
  assert (is_u64 idx).
  { unfold is_u64 in *. split; [apply Z.div_pos; lia|].
    transitivity (off + done); [|lia]. apply Z.div_le_upper_bound; [lia|].
    nia. }
  unfold write_piece. wp_steps. fold cs.
  set (c := default _ _).
  assert (Hcl : Zlen c = cs).
  { unfold c. destruct (mem_chunks s !! idx) eqn:Hc; simpl; [|apply Zlen_zeros; lia].
    by destruct (mi_chunks0 _ _ Hc) as (_&?&_). }
  apply wp_slice; [lia|lia|]. set (src := sub data _ _).
  assert (Zlen src = tk) as Hsl by (unfold src; rewrite Zlen_sub; lia).
  wp_step. apply wp_copy_into; [lia|lia|lia|]. wp_step.
  set (c' := splice c within src).
  assert (Hc'l : Zlen c' = cs) by (unfold c'; rewrite Zlen_splice; lia).
  split; [|split; [done|split; [done|]]].
  - constructor; [done..|]. apply map_Forall_insert_2.
    + split; [done|]. split; [done|]. intros w Hw' Hge. simpl in *. fold cs in Hw', Hge.
      unfold c'. rewrite nthb_splice by lia. rewrite decide_False by lia.
      unfold c. destruct (mem_chunks s !! idx) eqn:Hc; simpl; [|apply nthb_zeros].
      apply (mi_chunks0 _ _ Hc); done.
    + eapply map_Forall_impl; [done|]. intros k x (?&?&?). done.
  - intros i Hi. unfold mem_content at 1. simpl. fold cs.
    rewrite lookup_insert. destruct (decide (idx = i / cs)) as [Heq|Hne].
    + assert (i = idx * cs + i mod cs)
        by (pose proof (Z.div_mod i cs ltac:(lia)); lia).
      pose proof (Z.mod_pos_bound i cs ltac:(lia)).
      unfold c'. rewrite nthb_splice by lia.
      destruct (decide (off + done ≤ i < off + done + tk)).
      * rewrite decide_True by lia. unfold src. rewrite nthb_sub by lia. f_equal. lia.
      * rewrite decide_False by lia. unfold c, cs. rewrite <-mem_content_idx by (fold cs; lia).
        f_equal. fold cs. lia.
    + rewrite decide_False; [done|]. intros Hr. apply Hne.
      destruct (piece_addr cs off (Zlen data) done (i - (off + done))) as [Hq _];
        [lia|lia|fold tk; lia|].
      unfold idx. rewrite <-Hq. f_equal. lia.
Qed.

Lemma mem_write_spec s off data :
  mem_invariant s → 0 ≤ off →
  wp (write_at off data)
    (λ _ s', mem_invariant s' ∧ off + Zlen data ≤ mem_capacity s ∧ written s s' off data)
    (λ e s', s' = s ∧ ¬ off + Zlen data ≤ mem_capacity s ∧
       e = OutOfRange off (Zlen data) (mem_capacity s)) s.
Proof.
  intros Hinv Hoff. pose proof (mi_cap _ Hinv). pose proof (mi_chunk _ Hinv).
  pose proof (Zlen_nonneg data).
  unfold write_at. wp_steps. rewrite check_range_spec by done. case_decide; [|done].
  wp_steps.
  eapply wp_mono; [apply (wp_chunk_loop (λ done _ s', mem_invariant s' ∧
      mem_capacity s' = mem_capacity s ∧ same_shape s s' ∧
      ∀ i, 0 ≤ i → mem_content s' i =
        if decide (off ≤ i < off + done) then nthb data (i - off) else mem_content s i)
      (λ _ _, False))| |done].
  - lia.
  - lia.
  - split; [done|]. split; [done|]. split; [done|]. intros i _. by rewrite decide_False by lia.
  - intros done [] s' Hd (Hi' & Hc' & Hs' & Hf). pose proof (same_chunk_size _ _ Hs') as Hcs.
    simpl in Hcs. rewrite <-Hcs.
    destruct (piece_bounds (mem_chunk_size s') off (Zlen data) done) as (_&?&_); [lia..|].
    eapply wp_mono; [apply write_piece_spec; [done|lia..]| |done].
    simpl. intros _ s'' (? & -> & ? & Hf'').
    split; [done|]. split; [done|]. split; [by etrans|]. intros i Hi. rewrite Hf'', Hf by done.
    repeat case_decide; try done; lia.
  - intros _ s' (? & ? & ? & Hf). split; [done|]. split; [done|]. by constructor.
Qed.

Lemma mem_set_capacity_spec s n :
  mem_invariant s → is_u64 n →
  wp (set_capacity n)
    (λ _ s', mem_invariant s' ∧ s' = with_capacity n s ∧ mem_capacity s ≤ n ∧
       n mod mem_block_size s = 0)
    (λ _ s', s' = s ∧ (n mod mem_block_size s ≠ 0 ∨ n < mem_capacity s)) s.
Proof.
  intros [] Hn. unfold set_capacity. wp_steps.
  rewrite (proj2 (Z.eqb_neq (mem_block_size s) 0)) by lia.
  destruct (Z.eqb_spec (n mod mem_block_size s) 0); simpl; [|wp_step; auto].
  destruct (Z.ltb_spec n (mem_capacity s)); wp_step; [auto|].
  split; [|done]. constructor; [done..|].
  eapply map_Forall_impl; [done|]. intros k c (?&?&Hz). split; [done|]. split; [done|].
  simpl. intros w Hw Hge. apply Hz; [done|lia].
Qed.

#[global] Instance memory_laws : BlockStoreLaws MemoryStore.
Proof.
  constructor; simpl.
  - intros s []. done.
  - intros s i [] Hi. unfold mem_content.
    destruct (mem_chunks s !! _) as [c|] eqn:Hc; [|done].
    destruct (mi_chunks0 _ _ Hc) as (_ & _ & Hz). unfold is_u64 in *.
    pose proof (Z.mod_pos_bound i (mem_chunk_size s) ltac:(lia)).
    pose proof (Z.div_mod i (mem_chunk_size s) ltac:(lia)). apply Hz; lia.
  - intros s off buf Hinv Hoff. eapply wp_mono; [by apply mem_read_spec| |].
    + intros b s' (-> & ? & ? & Hf). split; [done|]. split; [reflexivity|]. done.
    + intros e s' (-> & ? & ->). split; [done|]. split; [reflexivity|]. left. done.
  - intros s off data Hinv Hoff _. eapply wp_mono; [by apply mem_write_spec|done|].
    intros e s' (-> & ? & ->). left. split; [done|]. split; [done|reflexivity].
  - intros s n Hinv Hn. eapply wp_mono; [by apply mem_set_capacity_spec| |].
    + intros _ s' (? & -> & ? & ?). done.
    + intros e s' (-> & ?). left. split; [done|]. by split.
  - intros s Hinv. split; [done|reflexivity].
  - intros s Hinv. destruct (sorted_keys (mem_chunks s)) as [Hs Hin].
    split; [done|]. split; [reflexivity|]. split; [done|]. split.
    + rewrite Forall_forall. intros k [c Hc]%Hin. by apply (mi_chunks _ Hinv k c).
    + intros i Hi Hne. apply Hin. unfold mem_content in Hne.
      destruct (mem_chunks s !! _); [by eexists|done].
  - intros s idx [] Hidx. unfold delete_chunk. split; [|split; [done|split; [done|split; [|done]]]].
    + constructor; [done..|]. apply map_Forall_delete.
      eapply map_Forall_impl; [done|]. intros k c (?&?&?). done.
    + intros i Hi. unfold mem_content. simpl. case_decide.
      * subst. by rewrite lookup_delete_eq.
      * by rewrite lookup_delete_ne by congruence.
Qed.

Lemma new_spec cap bsz csz :
  is_u64 cap → 0 ≤ bsz ≤ u32_max → 0 ≤ csz ≤ u64_max →
  match new cap bsz csz with
  | Ok s => mem_invariant s ∧ mem_capacity s = cap ∧ ∀ i, mem_content s i = Byte.x00
  | Err e => bsz = 0 ∨ csz = 0 ∨ cap = 0 ∨ csz mod bsz ≠ 0 ∨ cap mod bsz ≠ 0
  | _ => False
  end.
Proof.
  intros Hc Hb Hs. unfold new.
  destruct (Z.eqb_spec bsz 0); simpl; [auto|].
  destruct (Z.eqb_spec csz 0); simpl; [auto|].
  destruct (Z.eqb_spec (csz mod bsz) 0); simpl; [|auto].
  destruct (Z.eqb_spec cap 0); simpl; [auto|].
  destruct (Z.eqb_spec (cap mod bsz) 0); simpl; [|auto].
  split; [|done]. constructor; simpl; [lia|lia|done|]. apply map_Forall_empty.
Qed.
End Memory.
