(* ===== verification/Compression.v ===== *)
(** * Chunk payload compression (src/src/compression.rs)

    The [ISC3] container around a compressed chunk. The compressors are
    third-party crates: the class [Codecs] names the calls the source makes and
    [CodecLaws] the documented round trips. *)
From S2P Require Import Prelude Text Store.
#[local] Open Scope string_scope.
#[local] Open Scope list_scope.
#[local] Open Scope Z_scope.

Inductive Compression : Type := CompNone | Lz4 | Zstd | Deflate.
#[global] Instance Compression_eq_dec : EqDecision Compression.
Proof. solve_decision. Defined.

(** lz4_flex, zstd and flate2, as called by [compress] and [decompress]; a
    right injection is the text of the crate's error. *)
Class Codecs : Type := {
  lz4_compress : bytes → bytes;
  lz4_decompress : bytes → bytes + string;
  zstd_compress : bytes → bytes + string;
  zstd_decompress : bytes → Z → bytes + string;
  DeflateEncoder : Type;
  deflate_write_all : bytes → DeflateEncoder + string;
  deflate_finish : DeflateEncoder → bytes + string;
  deflate_read_to_end : bytes → bytes + string
}.

Class CodecLaws `{Codecs} : Prop := {
  lz4_roundtrip d : lz4_decompress (lz4_compress d) = inl d;
  zstd_roundtrip d c n : zstd_compress d = inl c → Zlen d ≤ n →
    zstd_decompress c n = inl d;
  deflate_roundtrip d enc c : deflate_write_all d = inl enc → deflate_finish enc = inl c →
    deflate_read_to_end c = inl d
}.

Module Comp.
Definition MAGIC : bytes := as_bytes "ISC3".
Definition HEADER_LEN : Z := 10.

Definition as_str (c : Compression) : string :=
  match c with
  | CompNone => "none" | Lz4 => "lz4" | Zstd => "zstd" | Deflate => "deflate"
  end.

Definition wire_id (c : Compression) : option byte :=
  match c with
  | CompNone => None
  | Lz4 => Some Byte.x01 | Zstd => Some Byte.x02 | Deflate => Some Byte.x03
  end.

Definition from_wire_id (id : byte) : outcome StoreError Compression :=
  match byte.unsigned id with
  | 1 => Ok Lz4 | 2 => Ok Zstd | 3 => Ok Deflate
  | n => Err (OtherError ("unknown compression wire id " +:+ dec n))
  end.

(** [u32::to_be_bytes], [u64::to_be_bytes] and back. *)
Definition to_be_bytes (n : nat) (z : Z) : bytes := rev (le_split n z).
Definition from_be_bytes (b : bytes) : Z := le_combine (rev b).
#[global] Arguments to_be_bytes : simpl never.
#[global] Arguments from_be_bytes : simpl never.

Section codec.
Context `{Codecs}.

Definition compress (algo : Compression) (data : bytes) : outcome StoreError bytes :=
  match algo with
  | CompNone => Ok data
  | Lz4 => Ok (lz4_compress data)
  | Zstd =>
      match zstd_compress data with
      | inl c => Ok c
      | inr e => Err (OtherError ("zstd compress: " +:+ e))
      end
  | Deflate =>
      match deflate_write_all data with
      | inr e => Err (OtherError ("deflate compress: " +:+ e))
      | inl enc =>
          match deflate_finish enc with
          | inl c => Ok c
          | inr e => Err (OtherError ("deflate finish: " +:+ e))
          end
      end
  end.

Definition decompress (algo : Compression) (data : bytes) (expected_len : Z)
    : outcome StoreError bytes :=
  match algo with
  | CompNone => Ok data
  | Lz4 =>
      match lz4_decompress data with
      | inl p => Ok p
      | inr e => Err (OtherError ("lz4 decompress: " +:+ e))
      end
  | Zstd =>
      match zstd_decompress data expected_len with
      | inl p => Ok p
      | inr e => Err (OtherError ("zstd decompress: " +:+ e))
      end
  | Deflate =>
      match deflate_read_to_end data with
      | inl p => Ok p
      | inr e => Err (OtherError ("deflate decompress: " +:+ e))
      end
  end.

Definition encode_chunk (algo : Compression) (plaintext : bytes)
    : outcome StoreError bytes :=
  match wire_id algo with
  | None => Ok plaintext
  | Some id =>
      compressed ← compress algo plaintext;
      Ok (MAGIC ++ [id] ++ [Byte.x00] ++
          to_be_bytes 4 (Zlen plaintext mod 2 ^ 32) ++ compressed)
  end.

Definition decode_chunk (algo : Compression) (stored : bytes) (expected_len : Z)
    : outcome StoreError bytes :=
  match algo with
  | CompNone =>
      if negb (Zlen stored =? expected_len) then
        Err (S3Error ("uncompressed chunk length " +:+ dec (Zlen stored)
                      +:+ ", expected " +:+ dec expected_len))
      else Ok stored
  | _ =>
      if (Zlen stored <? HEADER_LEN) || negb (bool_decide (take 4 stored = MAGIC)) then
        Err (S3Error "compressed chunk missing ISC3 header (geometry/compression mismatch?)")
      else
        wire_algo ← from_wire_id (nthb stored 4);
        if negb (bool_decide (wire_algo = algo)) then
          Err (S3Error ("chunk compression " +:+ quoted (as_str wire_algo)
                        +:+ " != volume " +:+ quoted (as_str algo)))
        else
          let uncomp_len := from_be_bytes (sub stored 6 4) in
          if negb (uncomp_len =? expected_len) then
            Err (S3Error ("compressed chunk declares length " +:+ dec uncomp_len
                          +:+ ", expected " +:+ dec expected_len))
          else
            plain ← decompress algo (drop (Z.to_nat HEADER_LEN) stored) expected_len;
            if negb (Zlen plain =? expected_len) then
              Err (S3Error ("decompressed length " +:+ dec (Zlen plain)
                            +:+ ", expected " +:+ dec expected_len))
            else Ok plain
  end.

(** ** Lemmas *)
Lemma be_roundtrip n z : 0 ≤ z < 2 ^ (Z.of_nat n * 8) → from_be_bytes (to_be_bytes n z) = z.
Proof.
  intros Hz. unfold from_be_bytes, to_be_bytes.
  by rewrite rev_involutive, le_combine_split, Z.mod_small.
Qed.

Lemma length_to_be_bytes n z : length (to_be_bytes n z) = n.
Proof. unfold to_be_bytes. by rewrite length_rev, length_le_split. Qed.

Lemma to_be_bytes_of b : to_be_bytes (length b) (from_be_bytes b) = b.
Proof.
  unfold to_be_bytes, from_be_bytes.
  rewrite <-(length_rev b), split_le_combine. apply rev_involutive.
Qed.

Lemma decode_chunk_length algo stored n p :
  decode_chunk algo stored n = Ok p → Zlen p = n.
Proof.
  unfold decode_chunk, mbind, outcome_bind. intros Hd.
  destruct algo; repeat case_match; simplify_eq/=; try done;
    match goal with H : negb (_ =? _) = false |- _ =>
      apply negb_false_iff, Z.eqb_eq in H end; done.
Qed.

Lemma decode_chunk_safe algo stored n :
  decode_chunk algo stored n ≠ Panic ∧ decode_chunk algo stored n ≠ OutOfFuel.
Proof.
  unfold decode_chunk, decompress, from_wire_id, mbind, outcome_bind.
  split; destruct algo; repeat case_match; simplify_eq/=; done.
Qed.

Lemma encode_chunk_safe algo p :
  encode_chunk algo p ≠ Panic ∧ encode_chunk algo p ≠ OutOfFuel.
Proof.
  unfold encode_chunk, compress, mbind, outcome_bind.
  split; destruct algo; repeat case_match; simplify_eq/=; done.
Qed.

Lemma from_wire_id_wire_id algo id : wire_id algo = Some id → from_wire_id id = Ok algo.
Proof. by destruct algo; simpl; intros; simplify_eq. Qed.

(** The container's fields, read back. *)
Lemma container_fields id len c :
  let stored := MAGIC ++ [id] ++ [Byte.x00] ++ to_be_bytes 4 len ++ c in
  HEADER_LEN ≤ Zlen stored ∧ take 4 stored = MAGIC ∧ nthb stored 4 = id ∧
  sub stored 6 4 = to_be_bytes 4 len ∧ drop (Z.to_nat HEADER_LEN) stored = c.
Proof.
  intros stored. pose proof (length_to_be_bytes 4 len) as Hl. subst stored.
  destruct (to_be_bytes 4 len) as [|b0 [|b1 [|b2 [|b3 [|]]]]]; simplify_eq/=.
  split; [unfold HEADER_LEN, Zlen; simpl; lia|]. repeat split; exact eq_refl.
Qed.

Lemma decompress_compress `{!CodecLaws} algo p c n :
  compress algo p = Ok c → Zlen p ≤ n → decompress algo c n = Ok p.
Proof.
  unfold compress, decompress. intros Hc Hn.
  destruct algo; repeat case_match; simplify_eq/=; try done.
  - rewrite lz4_roundtrip in *. by simplify_eq.
  - rewrite lz4_roundtrip in *. by simplify_eq.
  - erewrite zstd_roundtrip in * by done. by simplify_eq.
  - erewrite zstd_roundtrip in * by done. by simplify_eq.
  - erewrite deflate_roundtrip in * by done. by simplify_eq.
  - erewrite deflate_roundtrip in * by done. by simplify_eq.
Qed.

(** Decoding an encoded chunk, whatever its length: the header keeps the low
    32 bits of the length. *)
Lemma decode_encode_chunk_gen `{!CodecLaws} algo p stored n :
  encode_chunk algo p = Ok stored → Zlen p = n →
  decode_chunk algo stored n =
    if decide (algo = CompNone ∨ n < 2 ^ 32) then Ok p
    else Err (S3Error ("compressed chunk declares length " +:+ dec (n mod 2 ^ 32)
                       +:+ ", expected " +:+ dec n)).
Proof.
  intros He <-. pose proof (Zlen_nonneg p) as Hp.
  unfold encode_chunk, mbind, outcome_bind in He. destruct (wire_id algo) as [id|] eqn:Hid.
  - destruct (compress algo p) as [c| | |] eqn:Hc; try done.
    assert (Hst : MAGIC ++ [id] ++ [Byte.x00] ++ to_be_bytes 4 (Zlen p mod 2 ^ 32) ++ c = stored)
      by congruence.
    pose proof (container_fields id (Zlen p mod 2 ^ 32) c) as Hf.
    cbv zeta in Hf. destruct Hf as (Hh & Hm & Hi & Hs & Hd).
    rewrite Hst in Hh, Hm, Hi, Hs, Hd. clear Hst.
    pose proof (Z.mod_pos_bound (Zlen p) (2 ^ 32) ltac:(lia)) as Hmod.
    assert (decode_chunk algo stored (Zlen p) =
      if negb (Zlen p mod 2 ^ 32 =? Zlen p) then
        Err (S3Error ("compressed chunk declares length " +:+ dec (Zlen p mod 2 ^ 32)
                       +:+ ", expected " +:+ dec (Zlen p)))
      else Ok p) as ->.
    { unfold decode_chunk, mbind, outcome_bind. destruct algo; [done|..];
      rewrite (proj2 (Z.ltb_ge _ _) Hh), Hm, Hi, (from_wire_id_wire_id _ _ Hid), Hs,
        be_roundtrip, Hd, (decompress_compress _ p) by (done || lia); simpl;
      rewrite ?bool_decide_eq_true_2 by done; simpl; rewrite Z.eqb_refl; done. }
    destruct (decide (Zlen p < 2 ^ 32)).
    + rewrite Z.mod_small, Z.eqb_refl by lia. rewrite decide_True by auto. done.
    + rewrite (proj2 (Z.eqb_neq _ _)) by lia. rewrite decide_False; [done|].
      intros [->|]; done.
  - destruct algo; try done. injection He as <-. rewrite decide_True by auto.
    unfold decode_chunk. by rewrite Z.eqb_refl.
Qed.
End codec.
End Comp.
