(* ===== verification/Snapshot.v ===== *)
(** * Snapshot codecs and storage modes
    (src/src/snapshot.rs, src/src/storage_mode.rs)

    COW pointers, object names, the [chunks.bin] index and the manifest. BLAKE3
    is a third-party function: the class [Blake3]. *)
From S2P Require Import Prelude Text Store Compression.
#[local] Open Scope string_scope.
#[local] Open Scope list_scope.
#[local] Open Scope Z_scope.

Inductive StorageMode : Type := Legacy | Cow.
#[global] Instance StorageMode_eq_dec : EqDecision StorageMode.
Proof. solve_decision. Defined.

Inductive SnapshotState : Type := Creating | Ready | Deleting.
#[global] Instance SnapshotState_eq_dec : EqDecision SnapshotState.
Proof. solve_decision. Defined.

Record SnapshotManifest : Type := {
  sm_id : string;
  sm_created_at_unix : Z;
  sm_parent : option string;
  sm_source_volume : string;
  sm_capacity_bytes : Z;
  sm_chunk_size : Z;
  sm_block_size : Z;
  sm_compression : Compression;
  sm_chunk_count : Z;
  sm_chunks_object : string;
  sm_hash_algo : string;
  sm_state : SnapshotState;
  sm_format_version : Z
}.

Record ChunkRef : Type := { cr_index : Z; cr_hash : bytes }.

Class Blake3 : Type := blake3 : bytes → bytes.
Class Blake3Laws `{Blake3} : Prop := blake3_length body : length (blake3 body) = 32%nat.

Module Snap.
Definition mode_str (m : StorageMode) : string :=
  match m with Legacy => "legacy" | Cow => "cow" end.
Definition supports_snapshots (m : StorageMode) : bool :=
  match m with Cow => true | Legacy => false end.

Definition SNAP_MAGIC : bytes := as_bytes "ISC3SNAP".
Definition SNAP_INDEX_VERSION : Z := 1.
Definition HASH_LEN : nat := 32.
Definition PTR_MAGIC : bytes := as_bytes "ISCP".
Definition PTR_ALGO_BLAKE3 : byte := Byte.x01.
Definition PTR_LEN : nat := 4 + 1 + HASH_LEN.

(** A [[u8; HASH_LEN]]. *)
Definition is_hash (h : bytes) : Prop := length h = HASH_LEN.
Definition ref_ok (r : ChunkRef) : Prop := is_u64 (cr_index r) ∧ is_hash (cr_hash r).

(** [now]: the seconds since the epoch, 0 when the clock is before it. *)
Definition new_creating (now : Z) (id source_volume : string)
    (capacity_bytes chunk_size block_size : Z) (compression : Compression)
    : SnapshotManifest :=
  {| sm_id := id; sm_created_at_unix := now; sm_parent := None;
     sm_source_volume := source_volume; sm_capacity_bytes := capacity_bytes;
     sm_chunk_size := chunk_size; sm_block_size := block_size;
     sm_compression := compression; sm_chunk_count := 0;
     sm_chunks_object := "chunks.bin"; sm_hash_algo := "blake3";
     sm_state := Creating; sm_format_version := 1 |}.

Definition encode_pointer (hash : bytes) : bytes := PTR_MAGIC ++ [PTR_ALGO_BLAKE3] ++ hash.

Definition decode_pointer (b : bytes) : outcome StoreError bytes :=
  if negb (Nat.eqb (length b) PTR_LEN) then
    Err (OtherError ("invalid cow pointer length " +:+ dec (Zlen b)))
  else if negb (bool_decide (sub b 0 4 = PTR_MAGIC)) then
    Err (OtherError "invalid cow pointer magic")
  else if negb (bool_decide (nthb b 4 = PTR_ALGO_BLAKE3)) then
    Err (OtherError ("unsupported pointer hash algo " +:+ dec (byte.unsigned (nthb b 4))))
  else Ok (drop 5 b).

Definition hash_object_bytes `{Blake3} (body : bytes) : bytes := blake3 body.

Fixpoint hash_hex (hash : bytes) : string :=
  match hash with
  | [] => ""
  | b :: hash => hex_fixed false 2 (byte.unsigned b) +:+ hash_hex hash
  end.

Definition shard_object_name (name : string) : string :=
  if Nat.ltb (String.length name) 4 then name
  else String.substring 0 2 name +:+ "/" +:+ String.substring 2 2 name +:+ "/"
       +:+ String.substring 4 (String.length name - 4) name.

Definition object_relpath (hash : bytes) : string := shard_object_name (hash_hex hash).

Definition split_sharded_name (rel : string) : option (string * string * string) :=
  if Nat.ltb (String.length rel) 6
     || negb (bool_decide (byte_at rel 2 = Some slash))
     || negb (bool_decide (byte_at rel 5 = Some slash)) then None
  else
    let rest := String.substring 6 (String.length rel - 6) rel in
    if has_char slash rest then None
    else Some (String.substring 0 2 rel, String.substring 3 2 rel, rest).

(** The loop of [parse_hash_hex]: two digits per byte. *)
Fixpoint parse_hash_pairs (s : string) (i n : nat) : outcome StoreError bytes :=
  match n with
  | O => Ok []
  | S n =>
      p ← str_slice s (2 * i) (2 * i + 2);
      match from_str_radix16 255 p with
      | None => Err (OtherError "invalid blake3 hex: invalid digit found in string")
      | Some v => rest ← parse_hash_pairs s (i + 1) n; Ok (byte.of_Z v :: rest)
      end
  end.
Definition parse_hash_hex (s : string) : outcome StoreError bytes :=
  if negb (Nat.eqb (String.length s) (HASH_LEN * 2)) then
    Err (OtherError ("invalid blake3 hex length " +:+ dec (str_len s)))
  else parse_hash_pairs s 0 HASH_LEN.

(** [.ok()] turns an error into [None]; a panic stays a panic. *)
Definition hash_from_object_relpath (rel : string) : outcome StoreError (option bytes) :=
  match split_sharded_name rel with
  | None => Ok None
  | Some (a, b, rest) =>
      match parse_hash_hex (a +:+ b +:+ rest) with
      | Ok h => Ok (Some h)
      | Err _ => Ok None
      | Panic => Panic
      | OutOfFuel => OutOfFuel
      end
  end.

(** [chunks.bin]: magic, version, count, then one record per chunk. *)
Definition ref_bytes (r : ChunkRef) : bytes :=
  Comp.to_be_bytes 8 (cr_index r) ++ cr_hash r.
Definition write_chunks_bin (refs : list ChunkRef) : bytes :=
  SNAP_MAGIC ++ Comp.to_be_bytes 4 SNAP_INDEX_VERSION ++
  Comp.to_be_bytes 8 (Zlen refs) ++ concat (map ref_bytes refs).

(** [Read::read_exact] on a cursor: the state is what is left to read. *)
Definition read_exact (what : string) (n : nat) : M bytes StoreError bytes := λ r,
  if Nat.leb n (length r) then (Ok (take n r), drop n r)
  else (Err (OtherError (what +:+ ": failed to fill whole buffer")), []).

Fixpoint read_refs (n : nat) : M bytes StoreError (list ChunkRef) :=
  match n with
  | O => mret []
  | S n =>
      idx_buf ← read_exact "read chunk index" 8;
      hash ← read_exact "read chunk hash" HASH_LEN;
      rest ← read_refs n;
      mret ({| cr_index := Comp.from_be_bytes idx_buf; cr_hash := hash |} :: rest)
  end.

(** [Vec::with_capacity(count)] panics when the 40-byte records would exceed
    [isize::MAX] bytes. *)
Definition vec_capacity_ok (count : Z) : bool := count * 40 <=? 2 ^ 63 - 1.

Definition read_chunks_bin : M bytes StoreError (list ChunkRef) :=
  magic ← read_exact "read chunks.bin magic" 8;
  if negb (bool_decide (magic = SNAP_MAGIC)) then
    throw (OtherError "bad chunks.bin magic")
  else
    ver ← read_exact "read chunks.bin version" 4;
    let version := Comp.from_be_bytes ver in
    if negb (version =? SNAP_INDEX_VERSION) then
      throw (OtherError ("unsupported chunks.bin version " +:+ dec version))
    else
      count_buf ← read_exact "read chunks.bin count" 8;
      let count := Comp.from_be_bytes count_buf in
      if negb (vec_capacity_ok count) then panic
      else read_refs (Z.to_nat count).

Definition require_cow (mode : StorageMode) (volume : string) : outcome string unit :=
  if supports_snapshots mode then Ok tt
  else Err ("volume " +:+ volume +:+ " uses storage=" +:+ mode_str mode +:+
            "; set storage=" +:+ quoted "cow" +:+ " (and migrate) to use snapshots").

(** ** Pointer round trip *)
Lemma decode_encode_pointer h : is_hash h → decode_pointer (encode_pointer h) = Ok h.
Proof.
  unfold is_hash, decode_pointer, encode_pointer. intros Hl.
  rewrite !length_app, Hl. simpl. by rewrite drop_0.
Qed.

Lemma decode_pointer_hash b h : decode_pointer b = Ok h → is_hash h ∧ b = encode_pointer h.
Proof.
  unfold decode_pointer. repeat case_match; intros; simplify_eq.
  repeat match goal with H : negb _ = false |- _ => apply negb_false_iff in H end.
  repeat match goal with H : bool_decide _ = true |- _ => apply bool_decide_eq_true_1 in H end.
  rename select (Nat.eqb _ _ = true) into Hl. apply Nat.eqb_eq in Hl.
  rename select (sub b 0 4 = _) into Hm. rename select (nthb b 4 = _) into Ha.
  unfold PTR_LEN, HASH_LEN in Hl. unfold is_hash. rewrite length_drop.
  split; [rewrite Hl; done|].
  destruct b as [|b0 [|b1 [|b2 [|b3 [|b4 b]]]]]; try done.
  unfold nthb in Ha. simpl in Ha. subst.
  unfold sub in Hm. simpl in Hm. unfold encode_pointer. rewrite <-Hm. done.
Qed.

Lemma decode_pointer_safe b : decode_pointer b ≠ Panic ∧ decode_pointer b ≠ OutOfFuel.
Proof. unfold decode_pointer. split; repeat case_match; done. Qed.

Lemma encode_pointer_inj h h' : encode_pointer h = encode_pointer h' → h = h'.
Proof. unfold encode_pointer. by intros ?%app_inv_head%app_inv_head. Qed.

(** ** [chunks.bin] round trip *)
Lemma read_exact_app what n (a b : bytes) :
  length a = n → read_exact what n (a ++ b) = (Ok a, b).
Proof.
  intros <-. unfold read_exact. rewrite length_app, (proj2 (Nat.leb_le _ _)) by lia.
  by rewrite take_app_length, drop_app_length.
Qed.

Lemma read_refs_app refs tail :
  Forall ref_ok refs →
  read_refs (length refs) (concat (map ref_bytes refs) ++ tail) = (Ok refs, tail).
Proof.
  induction 1 as [|r refs [Hi Hh] Hrs IH]; [done|].
  cbn [length map concat read_refs].
  unfold mbind, M_bind.
  change (ref_bytes r) with (Comp.to_be_bytes 8 (cr_index r) ++ cr_hash r).
  rewrite <-!app_assoc.
  rewrite read_exact_app by apply Comp.length_to_be_bytes.
  rewrite read_exact_app by done. rewrite IH. unfold mret, M_ret.
  rewrite Comp.be_roundtrip by (unfold is_u64, u64_max in *; simpl; lia).
  by destruct r.
Qed.

Lemma read_write_chunks_bin refs tail :
  Forall ref_ok refs → vec_capacity_ok (Zlen refs) = true →
  read_chunks_bin (write_chunks_bin refs ++ tail) = (Ok refs, tail).
Proof.
  intros Hok Hcap. unfold read_chunks_bin, write_chunks_bin, mbind, M_bind.
  rewrite <-!app_assoc. rewrite read_exact_app by done.
  rewrite bool_decide_eq_true_2 by done. change (negb true) with false. cbv beta iota.
  rewrite read_exact_app by apply Comp.length_to_be_bytes.
  rewrite Comp.be_roundtrip by (unfold SNAP_INDEX_VERSION; simpl; lia).
  rewrite Z.eqb_refl. change (negb true) with false. cbv beta iota.
  rewrite read_exact_app by apply Comp.length_to_be_bytes.
  assert (0 ≤ Zlen refs < 2 ^ 64).
  { pose proof (Zlen_nonneg refs). unfold vec_capacity_ok in Hcap. apply Z.leb_le in Hcap. lia. }
  rewrite Comp.be_roundtrip by (simpl; lia). rewrite Hcap. change (negb true) with false. cbv beta iota.
  unfold Zlen. rewrite Nat2Z.id. by apply read_refs_app.
Qed.

(** ** Object names *)
Lemma hash_hex_hexdigits h : all_chars is_hexdigit (hash_hex h) = true.
Proof.
  induction h as [|b h IH]; cbn [hash_hex]; [done|].
  by rewrite all_chars_app, IH, hex_fixed_hexdigits.
Qed.

Lemma hash_hex_length h : String.length (hash_hex h) = (2 * length h)%nat.
Proof.
  induction h as [|b h IH]; cbn [hash_hex length]; [done|].
  rewrite String.app_length, IH, hex_fixed_length. lia.
Qed.

Lemma hash_hex_app h k : hash_hex (h ++ k) = hash_hex h +:+ hash_hex k.
Proof.
  induction h as [|b h IH]; [done|]. cbn [hash_hex app].
  by rewrite IH, str_app_assoc.
Qed.

Lemma parse_hash_pairs_hex pre h :
  parse_hash_pairs (hash_hex (pre ++ h)) (length pre) (length h) = Ok h.
Proof.
  revert pre. induction h as [|b h IH]; intros pre; [done|]. cbn [length parse_hash_pairs].
  assert (str_slice (E:=StoreError) (hash_hex (pre ++ b :: h))
    (2 * length pre) (2 * length pre + 2) = Ok (hex_fixed false 2 (byte.unsigned b))) as ->.
  { unfold str_slice. pose proof (hash_hex_length (pre ++ b :: h)) as Hl.
    rewrite length_app in Hl. cbn [length] in Hl.
    rewrite !(proj2 (Nat.leb_le _ _)), !hexdigits_boundary by (apply hash_hex_hexdigits || lia).
    simpl andb. cbv iota. f_equal. rewrite hash_hex_app. cbn [hash_hex].
    rewrite <-(hash_hex_length pre).
    replace (_ + 2 - _)%nat with (String.length (hex_fixed false 2 (byte.unsigned b)))
      by (rewrite hex_fixed_length; lia).
    apply substring_mid. }
  unfold mbind, outcome_bind.
  pose proof (byte.unsigned_range b). rewrite hex_fixed_roundtrip; [|lia|simpl; lia|lia].
  replace (length pre + 1)%nat with (length (pre ++ [b])) by (rewrite length_app; done).
  replace (pre ++ b :: h) with ((pre ++ [b]) ++ h) by (by rewrite <-app_assoc).
  by rewrite IH, byte.of_Z_unsigned.
Qed.

Lemma parse_hash_hex_hex h : is_hash h → parse_hash_hex (hash_hex h) = Ok h.
Proof.
  unfold is_hash. intros Hl. unfold parse_hash_hex.
  rewrite hash_hex_length, Hl. simpl negb. cbv iota. rewrite <-Hl.
  apply (parse_hash_pairs_hex []).
Qed.

(** Two directory levels in front of the rest of the name, and back. *)
Definition sharded (a0 a1 b0 b1 : Ascii.ascii) (r : string) : string :=
  String a0 (String a1 (String slash (String b0 (String b1 (String slash r))))).

Lemma shard_object_name_eq a0 a1 b0 b1 r :
  shard_object_name (String a0 (String a1 (String b0 (String b1 r)))) = sharded a0 a1 b0 b1 r.
Proof.
  unfold shard_object_name, sharded. simpl. rewrite Nat.sub_0_r, substring_all.
  by destruct r.
Qed.

Lemma split_sharded_name_eq a0 a1 b0 b1 r :
  has_char slash r = false →
  split_sharded_name (sharded a0 a1 b0 b1 r) =
    Some (String a0 (String a1 ""), String b0 (String b1 ""), r).
Proof.
  intros Hr. unfold split_sharded_name, sharded. cbn -[has_char].
  by rewrite Nat.sub_0_r, substring_all, Hr.
Qed.

Definition hi (b : byte) : Ascii.ascii := hex_digit false ((byte.unsigned b / 16) mod 16).
Definition lo (b : byte) : Ascii.ascii := hex_digit false (byte.unsigned b mod 16).

Lemma object_relpath_cons x y h :
  object_relpath (x :: y :: h) = sharded (hi x) (lo x) (hi y) (lo y) (hash_hex h).
Proof. exact (shard_object_name_eq (hi x) (lo x) (hi y) (lo y) (hash_hex h)). Qed.

Lemma hash_from_object_relpath_object h :
  is_hash h → hash_from_object_relpath (object_relpath h) = Ok (Some h).
Proof.
  intros Hh. destruct h as [|x [|y h]]; try done. rewrite object_relpath_cons.
  unfold hash_from_object_relpath. rewrite split_sharded_name_eq
    by apply hexdigits_no_slash, hash_hex_hexdigits.
  change (String (hi x) (String (lo x) "") +:+ String (hi y) (String (lo y) "") +:+ hash_hex h)
    with (hash_hex (x :: y :: h)).
  by rewrite parse_hash_hex_hex.
Qed.

Lemma object_relpath_inj h k :
  is_hash h → is_hash k → object_relpath h = object_relpath k → h = k.
Proof.
  intros Hh Hk Heq. pose proof (hash_from_object_relpath_object h Hh) as H1.
  rewrite Heq, hash_from_object_relpath_object in H1 by done. by injection H1.
Qed.
End Snap.
