(* ===== verification/S3Api.v ===== *)
(** * The S3 service

    The AWS SDK client and the bucket behind it are not part of the sources:
    [S3Client] names the calls the sources make and [S3Laws] what the S3
    documentation promises about them (strongly consistent reads, conditional
    puts, paginated listings). [MemS3] is a bucket that satisfies them and lists
    two objects per page; it is only used to evaluate examples. *)
From S2P Require Import Prelude Text Store.
#[local] Open Scope string_scope.
#[local] Open Scope list_scope.
#[local] Open Scope Z_scope.

(** An SDK error: whether it is the modelled [NoSuchKey] service error, and its
    display text. *)
Record SdkError : Type := { sdk_no_such_key : bool; sdk_msg : string }.

Record ListedObject : Type := { lo_key : option string; lo_size : option Z }.
Record ListPage : Type := {
  lp_contents : list ListedObject;
  lp_is_truncated : option bool;
  lp_next_continuation_token : option string
}.

Class S3Client (B : Type) : Type := {
  (** GetObject: the ETag and the collected body (or the text of a stream error). *)
  s3_get_object : string → M B SdkError (option string * (bytes + string));
  (** PutObject: key, body, content type, If-Match. *)
  s3_put_object : string → bytes → option string → option string → M B SdkError unit;
  s3_delete_object : string → M B SdkError unit;
  (** ListObjectsV2: prefix and continuation token. *)
  s3_list_objects_v2 : string → option string → M B SdkError ListPage;
  (** Whether the caller's wait for the last task ran into its timeout. *)
  s3_timed_out : B → bool;
  (** More than the number of objects below a prefix (loop fuel only). *)
  s3_page_bound : B → string → nat
}.

(** The texts the sources look for in an error. *)
Definition text_not_found (msg : string) : bool :=
  contains "NoSuchKey" msg || contains "404" msg || contains "Not Found" msg.
Definition text_precondition_failed (msg : string) : bool :=
  contains "PreconditionFailed" msg || contains "412" msg
  || contains "At least one of the pre-conditions" msg.
Definition sdk_not_found (e : SdkError) : bool := sdk_no_such_key e || text_not_found (sdk_msg e).

Abbreviation object_map := (gmap string (bytes * option string)).

(** The entry a listing shows for a stored object. *)
Definition listed (kv : string * (bytes * option string)) : ListedObject :=
  {| lo_key := Some kv.1; lo_size := Some (Zlen kv.2.1) |}.

(** The objects whose key starts with [p]. *)
Definition under_prefix (p : string) (o : object_map) : list (string * (bytes * option string)) :=
  filter (λ kv, starts_with p kv.1 = true) (map_to_list o).

Definition if_match_holds (o : object_map) (k : string) (im : option string) : Prop :=
  match im with
  | None => True
  | Some t => ∃ body, o !! k = Some (body, Some t)
  end.

Class S3Laws (B : Type) `{S3Client B} : Type := {
  (** The bucket's contents, and: no call is going to fail. *)
  objects : B → object_map;
  healthy : B → Prop;
  (** What is left of a listing at a continuation token. *)
  listing : object_map → string → option string → list ListedObject;
  get_law k b :
    wp (s3_get_object k)
      (λ r b', objects b' = objects b ∧ (healthy b → healthy b' ∧ s3_timed_out b' = false) ∧
         match r with
         | (etag, inl body) => objects b !! k = Some (body, etag)
         | (_, inr _) => ¬ healthy b
         end)
      (λ e b', objects b' = objects b ∧ (healthy b → healthy b' ∧ s3_timed_out b' = false) ∧
         if sdk_not_found e then objects b !! k = None else ¬ healthy b) b;
  put_law k body ct im b :
    wp (s3_put_object k body ct im)
      (λ _ b', (healthy b → healthy b' ∧ s3_timed_out b' = false) ∧
         if_match_holds (objects b) k im ∧
         ∃ etag, objects b' = <[k := (body, etag)]> (objects b))
      (λ e b', (healthy b → healthy b' ∧ s3_timed_out b' = false) ∧
         (objects b' = objects b ∨
          ∃ etag, objects b' = <[k := (body, etag)]> (objects b)) ∧
         (¬ healthy b ∨
          ¬ if_match_holds (objects b) k im ∧ text_precondition_failed (sdk_msg e) = true ∧
          objects b' = objects b)) b;
  delete_law k b :
    wp (s3_delete_object k)
      (λ _ b', (healthy b → healthy b' ∧ s3_timed_out b' = false) ∧
         objects b' = delete k (objects b))
      (λ e b', ¬ healthy b ∧
         (objects b' = objects b ∨ objects b' = delete k (objects b))) b;
  list_law p tok b :
    wp (s3_list_objects_v2 p tok)
      (λ pg b', objects b' = objects b ∧ (healthy b → healthy b' ∧ s3_timed_out b' = false) ∧
         if default false (lp_is_truncated pg) then
           (* a page is cut when it is full, and the token names the rest *)
           lp_contents pg ≠ [] ∧
           ∃ t, lp_next_continuation_token pg = Some t ∧
             listing (objects b) p tok = lp_contents pg ++ listing (objects b) p (Some t)
         else listing (objects b) p tok = lp_contents pg)
      (λ e b', objects b' = objects b ∧ ¬ healthy b) b;
  listing_all o p : listing o p None ≡ₚ map listed (under_prefix p o);
  page_bound_law p b : (S (length (under_prefix p (objects b))) < s3_page_bound b p)%nat
}.

(** ** A concrete bucket *)
Module MemS3.
(** [ms_faults]: for each coming call, whether it fails; exhausted, calls succeed. *)
Record bucket : Type := {
  ms_objects : object_map;
  ms_clock : Z;
  ms_faults : list bool
}.
Definition empty_bucket : bucket := {| ms_objects := ∅; ms_clock := 0; ms_faults := [] |}.
Definition with_faults (fs : list bool) (b : bucket) : bucket :=
  {| ms_objects := ms_objects b; ms_clock := ms_clock b; ms_faults := fs |}.

Definition unavailable : SdkError := {| sdk_no_such_key := false; sdk_msg := "ServiceUnavailable" |}.
Definition no_such_key : SdkError := {| sdk_no_such_key := true; sdk_msg := "NoSuchKey" |}.
Definition precondition : SdkError := {| sdk_no_such_key := false; sdk_msg := "PreconditionFailed" |}.

Definition faulty {A} (m : M bucket SdkError A) : M bucket SdkError A := λ b,
  match ms_faults b with
  | true :: fs => (Err unavailable, with_faults fs b)
  | _ :: fs => m (with_faults fs b)
  | [] => m b
  end.

Definition get_object (k : string) : M bucket SdkError (option string * (bytes + string)) :=
  faulty (λ b, match ms_objects b !! k with
               | Some (body, etag) => (Ok (etag, inl body), b)
               | None => (Err no_such_key, b)
               end).

Definition put_object (k : string) (body : bytes) (ct im : option string)
    : M bucket SdkError unit :=
  faulty (λ b,
    let ok := match im with
              | None => true
              | Some t => bool_decide ((snd <$> ms_objects b !! k) = Some (Some t))
              end in
    if ok then
      (Ok tt, {| ms_objects := <[k := (body, Some (dec (ms_clock b)))]> (ms_objects b);
                 ms_clock := ms_clock b + 1; ms_faults := ms_faults b |})
    else (Err precondition, b)).

Definition delete_object (k : string) : M bucket SdkError unit :=
  faulty (λ b, (Ok tt, {| ms_objects := delete k (ms_objects b);
                          ms_clock := ms_clock b; ms_faults := ms_faults b |})).

(** A token is as long as the number of entries before the page. *)
Definition PAGE : nat := 2.
Definition rest_of (o : object_map) (p : string) (tok : option string) : list ListedObject :=
  drop (from_option String.length 0%nat tok) (map listed (under_prefix p o)).
Fixpoint token (n : nat) : string := match n with O => "" | S n => "t" +:+ token n end.
Lemma token_length n : String.length (token n) = n.
Proof. induction n as [|n IH]; [done|]. exact (f_equal S IH). Qed.

Definition list_objects (p : string) (tok : option string) : M bucket SdkError ListPage :=
  faulty (λ b,
    let l := rest_of (ms_objects b) p tok in
    let more := bool_decide (PAGE < length l)%nat in
    (Ok {| lp_contents := take PAGE l;
           lp_is_truncated := Some more;
           lp_next_continuation_token :=
             if more then Some (token (from_option String.length 0%nat tok + PAGE)) else None |}, b)).

#[global] Instance client : S3Client bucket := {
  s3_get_object := get_object;
  s3_put_object := put_object;
  s3_delete_object := delete_object;
  s3_list_objects_v2 := list_objects;
  s3_timed_out := λ _, false;
  s3_page_bound := λ b p, (2 + length (under_prefix p (ms_objects b)))%nat
}.

Definition no_faults (b : bucket) : Prop := Forall (λ f, f = false) (ms_faults b).

Lemma wp_faulty {A} (m : M bucket SdkError A) Q R b :
  (¬ no_faults b → ∀ fs, R unavailable (with_faults fs b)) →
  (∀ b', ms_objects b' = ms_objects b → ms_clock b' = ms_clock b →
     (no_faults b → no_faults b') → wp m Q R b') →
  wp (faulty m) Q R b.
Proof.
  intros Hbad Hgood. unfold wp, faulty.
  destruct (ms_faults b) as [|[] fs] eqn:Hf.
  - by apply (Hgood b).
  - apply Hbad. unfold no_faults. rewrite Hf. by inversion 1.
  - apply Hgood; [done|done|]. unfold no_faults. rewrite Hf. by inversion 1.
Qed.

#[global] Instance laws : S3Laws bucket.
Proof.
  refine {| objects := ms_objects; healthy := no_faults;
            listing := rest_of |}; simpl.
  - intros k b. apply wp_faulty; [by intros|]. intros b' Ho _ Hn. unfold wp. rewrite Ho.
    destruct (ms_objects b !! k) as [[body etag]|]; rewrite Ho; naive_solver.
  - intros k body ct im b. apply wp_faulty; [intros ? fs; split; [done|]; split; by left|].
    intros b' Ho Hc Hn. unfold wp. rewrite !Ho.
    assert (if_match_holds (ms_objects b) k im ↔
      (match im with None => true
       | Some t => bool_decide ((snd <$> ms_objects b !! k) = Some (Some t)) end) = true) as Him.
    { destruct im as [t|]; simpl; [|done]. rewrite bool_decide_eq_true.
      destruct (ms_objects b !! k) as [[]|]; naive_solver. }
    destruct (match im with None => true | Some t => _ end); simpl.
    + split; [naive_solver|]. split; [by apply Him|]. by eexists.
    + split; [naive_solver|]. split; [by left|]. right. split; [|done].
      by intros ?%Him.
  - intros k b. apply wp_faulty; [intros ? fs; split; [done|by left]|]. intros b' Ho Hc Hn. unfold wp. simpl.
    rewrite Ho. naive_solver.
  - intros p tok b. apply wp_faulty; [by intros|]. intros b' Ho Hc Hn. unfold wp. cbv zeta. rewrite Ho.
    cbn [lp_is_truncated lp_contents lp_next_continuation_token default].
    split; [done|]. split; [naive_solver|]. case_bool_decide as Hm; [|rewrite take_ge by (unfold PAGE in *; lia); done].
    split.
    + intros Hnil. apply (f_equal length) in Hnil. rewrite length_take in Hnil. unfold PAGE in *. cbn [length] in Hnil. lia.
    + eexists. split; [done|]. unfold rest_of at 1 3. cbn [from_option]. rewrite token_length.
      rewrite <- drop_drop. fold (rest_of (ms_objects b) p tok). by rewrite take_drop.
  - done.
  - intros. lia.
Defined.
End MemS3.
