(* ===== verification/S3Keys.v ===== *)
(** * Object keys and volume metadata of the S3 store
    (src/src/store/s3.rs, first part)

    The layout of a volume's objects in the bucket: key formats, parsing of
    listed chunk keys, [VolumeMeta] and the grow-only capacity plan. *)
From S2P Require Import Prelude Text Store Compression Snapshot.
From Stdlib Require Import Ascii String.
#[local] Open Scope string_scope.
#[local] Open Scope list_scope.
#[local] Open Scope Z_scope.

Record VolumeMeta : Type := {
  vm_version : Z;
  vm_capacity_bytes : Z;
  vm_chunk_size : Z;
  vm_block_size : Z;
  vm_compression : Compression;
  vm_storage : StorageMode
}.
#[global] Instance VolumeMeta_eq_dec : EqDecision VolumeMeta.
Proof. solve_decision. Defined.

(** [VolumeLabels]: the names metrics and messages use. *)
Record VolumeLabels : Type := { vl_volume : string; vl_iqn : string }.

(** The handle: configuration plus the two cells that change ([storage] and
    [capacity]). Client, runtime, metrics and lock stripes are not part of it. *)
Record S3ChunkStore : Type := {
  st_prefix : string;
  st_block_size : Z;
  st_chunk_size : Z;
  st_compression : Compression;
  st_storage : StorageMode;
  st_capacity : Z;
  st_labels : VolumeLabels
}.

Module Keys.
Definition META_VERSION : Z := 1.

(** ** Keys *)
Definition shard_chunk_index (index : Z) : string :=
  let hex := hex_fixed false 16 index in
  String.substring 14 2 hex +:+ "/" +:+ String.substring 12 2 hex +:+ "/"
  +:+ String.substring 0 12 hex.

Definition split_legacy_shard (rel : string) : option (string * string * string) :=
  if negb (Nat.eqb (String.length rel) (2 + 1 + 2 + 1 + 12))
     || negb (bool_decide (byte_at rel 2 = Some slash))
     || negb (bool_decide (byte_at rel 5 = Some slash)) then None
  else Some (String.substring 0 2 rel, String.substring 3 2 rel, String.substring 6 12 rel).

Definition index_from_chunk_relpath (rel : string) : option Z :=
  hex ← match split_legacy_shard rel with
        | Some (low, mid, rest) => Some (rest +:+ mid +:+ low)
        | None => if negb (is_empty rel) && negb (has_char slash rel) then Some rel else None
        end;
  if negb (Nat.eqb (String.length hex) 16) then None
  else from_str_radix16 u64_max hex.

Definition parse_chunk_index_from_key (chunks_prefix key : string) : option Z :=
  rel ← strip_prefix chunks_prefix key;
  index_from_chunk_relpath rel.

Section keys.
Implicit Types self : S3ChunkStore.

Definition flat_meta_key self : string := st_prefix self +:+ "/meta.json".
Definition live_meta_key self : string := st_prefix self +:+ "/live/meta.json".
Definition meta_key self : string :=
  match st_storage self with Legacy => flat_meta_key self | Cow => live_meta_key self end.
Definition chunks_prefix self : string :=
  match st_storage self with
  | Legacy => st_prefix self +:+ "/chunks/"
  | Cow => st_prefix self +:+ "/live/chunks/"
  end.
Definition legacy_chunk_key self (index : Z) : string :=
  st_prefix self +:+ "/chunks/" +:+ shard_chunk_index index.
Definition legacy_flat_chunk_key self (index : Z) : string :=
  st_prefix self +:+ "/chunks/" +:+ hex_fixed false 16 index.
Definition chunk_key self (index : Z) : string :=
  match st_storage self with
  | Legacy => legacy_chunk_key self index
  | Cow => chunks_prefix self +:+ hex_fixed false 16 index
  end.
Definition object_key self (hash : bytes) : string :=
  st_prefix self +:+ "/objects/" +:+ Snap.object_relpath hash.
Definition snapshot_prefix self (id : string) : string :=
  st_prefix self +:+ "/snapshots/" +:+ id.
Definition snapshot_manifest_key self (id : string) : string :=
  snapshot_prefix self id +:+ "/manifest.json".
Definition snapshot_chunks_key self (id : string) : string :=
  snapshot_prefix self id +:+ "/chunks.bin".
Definition migrating_key self : string := st_prefix self +:+ "/live/migrating.json".
End keys.

(** ** Capacity and geometry *)
Definition plan_capacity (existing : option VolumeMeta)
    (config_capacity chunk_size block_size : Z)
    (compression : Compression) (storage : StorageMode)
    : outcome StoreError (Z * option VolumeMeta) :=
  match existing with
  | None =>
      Ok (config_capacity,
          Some {| vm_version := META_VERSION; vm_capacity_bytes := config_capacity;
                  vm_chunk_size := chunk_size; vm_block_size := block_size;
                  vm_compression := compression; vm_storage := storage |})
  | Some meta =>
      if negb (vm_chunk_size meta =? chunk_size) then
        Err (GeometryMismatch ("chunk_size config " +:+ dec chunk_size
                               +:+ " != meta " +:+ dec (vm_chunk_size meta)))
      else if negb (vm_block_size meta =? block_size) then
        Err (GeometryMismatch ("block_size config " +:+ dec block_size
                               +:+ " != meta " +:+ dec (vm_block_size meta)))
      else if negb (bool_decide (vm_compression meta = compression)) then
        Err (GeometryMismatch ("compression config " +:+ quoted (Comp.as_str compression)
                               +:+ " != meta " +:+ quoted (Comp.as_str (vm_compression meta))))
      else if negb (bool_decide (vm_storage meta = storage)) then
        Err (GeometryMismatch ("storage config " +:+ Snap.mode_str storage
                               +:+ " != meta " +:+ Snap.mode_str (vm_storage meta)))
      else if config_capacity <? vm_capacity_bytes meta then
        Err (ShrinkRefused (vm_capacity_bytes meta) config_capacity)
      else if config_capacity >? vm_capacity_bytes meta then
        Ok (config_capacity,
            Some {| vm_version := vm_version meta; vm_capacity_bytes := config_capacity;
                    vm_chunk_size := vm_chunk_size meta; vm_block_size := vm_block_size meta;
                    vm_compression := vm_compression meta; vm_storage := vm_storage meta |})
      else Ok (vm_capacity_bytes meta, None)
  end.

Definition validate_snapshot_id (id : string) : outcome StoreError unit :=
  if is_empty id || (str_len id >? 128)
     || negb (all_chars (λ c, is_alphanumeric c || Ascii.eqb c "-"%char
                              || Ascii.eqb c "_"%char || Ascii.eqb c "."%char) id)
  then Err (OtherError "snapshot id must be 1-128 chars of [A-Za-z0-9._-]")
  else Ok tt.

(** ** Lemmas *)
Lemma split_shard_chunk_index idx :
  split_legacy_shard (shard_chunk_index idx) =
    Some (String.substring 14 2 (hex_fixed false 16 idx),
          String.substring 12 2 (hex_fixed false 16 idx),
          String.substring 0 12 (hex_fixed false 16 idx)).
Proof. reflexivity. Qed.

Lemma index_from_shard idx :
  is_u64 idx → index_from_chunk_relpath (shard_chunk_index idx) = Some idx.
Proof.
  intros Hidx. unfold index_from_chunk_relpath. rewrite split_shard_chunk_index.
  change (String.substring 0 12 (hex_fixed false 16 idx) +:+
    String.substring 12 2 (hex_fixed false 16 idx) +:+
    String.substring 14 2 (hex_fixed false 16 idx)) with (hex_fixed false 16 idx).
  cbn [mbind option_bind]. rewrite hex_fixed_length. cbn [negb Nat.eqb].
  apply hex_fixed_roundtrip; unfold is_u64, u64_max in *; [lia|simpl; lia|lia].
Qed.

Lemma index_from_flat idx :
  is_u64 idx → index_from_chunk_relpath (hex_fixed false 16 idx) = Some idx.
Proof.
  intros Hidx. unfold index_from_chunk_relpath.
  assert (split_legacy_shard (hex_fixed false 16 idx) = None) as ->.
  { unfold split_legacy_shard. by rewrite hex_fixed_length. }
  rewrite hexdigits_no_slash by apply hex_fixed_hexdigits.
  change (is_empty (hex_fixed false 16 idx)) with false.
  cbn [mbind option_bind negb andb]. rewrite hex_fixed_length. cbn [negb Nat.eqb].
  apply hex_fixed_roundtrip; unfold is_u64, u64_max in *; [lia|simpl; lia|lia].
Qed.

Lemma parse_digits_range max v s r :
  0 ≤ v ≤ max → parse_digits max v s = Some r → 0 ≤ r ≤ max.
Proof.
  revert v. induction s as [|c s IH]; intros v Hv; simpl; [naive_solver|].
  destruct (digit_val c) as [d|] eqn:Hd; simpl; [|done].
  destruct (Z.leb_spec (v * 16 + d) max); [|done]. apply IH.
  unfold digit_val in Hd. repeat case_match; simplify_eq; lia.
Qed.

Lemma from_str_radix16_range max s r :
  0 ≤ max → from_str_radix16 max s = Some r → 0 ≤ r ≤ max.
Proof.
  intros Hm. unfold from_str_radix16. repeat case_match; try done; intros Hp;
    (eapply parse_digits_range; [|exact Hp]; lia).
Qed.

Lemma parse_chunk_index_range p k idx :
  parse_chunk_index_from_key p k = Some idx → is_u64 idx.
Proof.
  unfold parse_chunk_index_from_key, index_from_chunk_relpath.
  intros (rel & _ & (hex & _ & Hp)%bind_Some)%bind_Some.
  destruct (negb _); [done|]. apply from_str_radix16_range in Hp; [done|].
  unfold u64_max. lia.
Qed.

Lemma parse_legacy_key self idx :
  is_u64 idx → parse_chunk_index_from_key (st_prefix self +:+ "/chunks/")
    (legacy_chunk_key self idx) = Some idx.
Proof.
  intros Hidx. unfold parse_chunk_index_from_key, legacy_chunk_key.
  rewrite str_app_assoc, strip_prefix_app. by apply index_from_shard.
Qed.

Lemma parse_flat_key self idx :
  is_u64 idx → parse_chunk_index_from_key (st_prefix self +:+ "/chunks/")
    (legacy_flat_chunk_key self idx) = Some idx.
Proof.
  intros Hidx. unfold parse_chunk_index_from_key, legacy_flat_chunk_key.
  rewrite str_app_assoc, strip_prefix_app. by apply index_from_flat.
Qed.

Lemma parse_cow_key self idx :
  is_u64 idx → parse_chunk_index_from_key (st_prefix self +:+ "/live/chunks/")
    (st_prefix self +:+ "/live/chunks/" +:+ hex_fixed false 16 idx) = Some idx.
Proof.
  intros Hidx. unfold parse_chunk_index_from_key.
  rewrite str_app_assoc, strip_prefix_app. by apply index_from_flat.
Qed.

(** Different chunks have different keys. *)
Lemma legacy_chunk_key_inj self i j :
  is_u64 i → is_u64 j → legacy_chunk_key self i = legacy_chunk_key self j → i = j.
Proof.
  intros Hi Hj Heq. pose proof (parse_legacy_key self i Hi) as H1.
  rewrite Heq, parse_legacy_key in H1 by done. by injection H1.
Qed.
Lemma legacy_flat_key_inj self i j :
  is_u64 i → is_u64 j → legacy_flat_chunk_key self i = legacy_flat_chunk_key self j → i = j.
Proof.
  intros Hi Hj Heq. pose proof (parse_flat_key self i Hi) as H1.
  rewrite Heq, parse_flat_key in H1 by done. by injection H1.
Qed.
Lemma object_key_inj self h k :
  Snap.is_hash h → Snap.is_hash k → object_key self h = object_key self k → h = k.
Proof.
  unfold object_key. intros Hh Hk Heq. do 2 apply String.app_inv_r in Heq.
  by apply Snap.object_relpath_inj.
Qed.

Lemma sharded_not_flat self i j : legacy_chunk_key self i ≠ legacy_flat_chunk_key self j.
Proof.
  unfold legacy_chunk_key, legacy_flat_chunk_key. intros Heq.
  do 2 apply String.app_inv_r in Heq.
  apply (f_equal String.length) in Heq. by rewrite hex_fixed_length in Heq.
Qed.

(** The components of a key right after the volume prefix keep the families of
    objects apart. *)
Ltac key_neq := let H := fresh in
  unfold legacy_chunk_key, legacy_flat_chunk_key, object_key, snapshot_manifest_key,
    snapshot_chunks_key, snapshot_prefix, migrating_key, live_meta_key, flat_meta_key;
  rewrite <-?str_app_assoc; intros H; apply String.app_inv_r in H; simpl in H; done.
End Keys.
