(* ===== verification/S3Store.v ===== *)
(** * The S3 chunk store: requests, chunks and block I/O
    (src/src/store/s3.rs)

    Each request to the service, the legacy and COW chunk accessors, the
    read-modify-write loop with its compare-and-swap retries, and the
    [BlockStore] methods. Lock stripes serialise the accesses of one process to
    a chunk, so a chunk access is one step of the model. *)
From S2P Require Import Prelude Text Store Compression Snapshot S3Api S3Keys.
#[local] Open Scope string_scope.
#[local] Open Scope list_scope.
#[local] Open Scope Z_scope.

(** serde_json on the two documents the store keeps in the bucket. *)
Class Json : Type := {
  meta_to_json : VolumeMeta → bytes + string;
  meta_from_json : bytes → VolumeMeta + string;
  manifest_to_json : SnapshotManifest → bytes + string;
  manifest_from_json : bytes → SnapshotManifest + string
}.
Class JsonLaws `{Json} : Prop := {
  meta_json_roundtrip m : ∃ b, meta_to_json m = inl b ∧ meta_from_json b = inl m;
  manifest_json_roundtrip m : ∃ b, manifest_to_json m = inl b ∧ manifest_from_json b = inl m
}.

(** One [observe_s3] call: operation, bytes, success. *)
Record Observation : Type := { ob_op : string; ob_bytes : Z; ob_ok : bool }.

(** What the store's methods act on: the service and the metrics they feed. *)
Record Env (B : Type) : Type := { env_svc : B; env_obs : list Observation }.
Arguments env_svc {B} _.
Arguments env_obs {B} _.

Module S3.
Section ops.
Context {B : Type} `{S3Client B} `{Codecs} `{Blake3} `{Json}.
Abbreviation ME := (M (Env B) StoreError).
Abbreviation MB := (M B StoreError).
Implicit Types self : S3ChunkStore.

(** ** Requests *)

(** [run_on_runtime]: run the future, wait for its result with a timeout. A
    task that panics drops the channel, which reads as the same error. The code
    does not cancel a task that timed out: its request may still be carried out
    later. Here a request has its effect before the wait ends, whether or not its
    answer comes in time, or never. *)
Definition run_on_runtime {A} (fut : MB A) : MB A := λ b,
  match fut b with
  | (Panic, b') => (Err (S3Error "timed out waiting for S3 operation"), b')
  | (r, b') =>
      if s3_timed_out b' then (Err (S3Error "timed out waiting for S3 operation"), b')
      else (r, b')
  end.

Definition sdk_err {A} (m : M B SdkError A) : MB A := map_err (λ e, S3Error (sdk_msg e)) m.

Definition is_ok {E A} (r : outcome E A) : bool := match r with Ok _ => true | _ => false end.

(** Run a request and record it in the metrics. *)
Definition observed {A} (op : string) (size : outcome StoreError A → Z) (m : MB A) : ME A := λ env,
  let '(r, b') := run_on_runtime m (env_svc env) in
  (r, {| env_svc := b';
         env_obs := env_obs env ++ [{| ob_op := op; ob_bytes := size r; ob_ok := is_ok r |}] |}).

(** The future of [get_bytes_as]. *)
Definition get_bytes_task (key : string) : MB (option (bytes * option string)) := λ b,
  match s3_get_object key b with
  | (Ok (etag, inl body), b') => (Ok (Some (body, etag)), b')
  | (Ok (_, inr msg), b') => (Err (S3Error msg), b')
  | (Err e, b') => (if sdk_not_found e then Ok None else Err (S3Error (sdk_msg e)), b')
  | (Panic, b') => (Panic, b')
  | (OutOfFuel, b') => (OutOfFuel, b')
  end.

Definition get_bytes_as (key op : string) : ME (option (bytes * option string)) :=
  observed op
    (λ r, match r with Ok (Some (v, _)) => Zlen v | _ => 0 end)
    (get_bytes_task key).
Definition get_bytes (key : string) := get_bytes_as key "get".
Definition get_pointer_bytes (key : string) := get_bytes_as key "get_pointer".

Definition put_bytes (key : string) (body : bytes) (content_type if_match : option string)
    : ME unit :=
  observed "put" (λ _, Zlen body) (sdk_err (s3_put_object key body content_type if_match)).

Definition delete_object_key (key : string) : ME unit :=
  observed "delete" (λ _, 0) (sdk_err (s3_delete_object key)).

(** [get_meta_at]: fetch, parse, check the version. *)
Definition get_meta_at (key : string) : ME (option VolumeMeta) :=
  observed "get_meta" (λ _, 0)
    (r ← get_bytes_task key;
     match r with
     | None => mret None
     | Some (body, _) =>
         match meta_from_json body with
         | inr e => throw (MetaError e)
         | inl meta =>
             if negb (vm_version meta =? Keys.META_VERSION) then
               throw (MetaError ("unsupported meta version " +:+ dec (vm_version meta)))
             else mret (Some meta)
         end
     end).

Definition put_meta self (meta : VolumeMeta) : ME unit :=
  match meta_to_json meta with
  | inr e => throw (MetaError e)
  | inl body =>
      observed "put_meta" (λ _, 0)
        (sdk_err (s3_put_object (Keys.meta_key self) body (Some "application/json") None))
  end.

(** The paginated listing loop: [visit] is what the caller does per object. The
    loop variables are the continuation token, whether the loop was left, and
    what the caller has collected. *)
Definition list_more {Acc} : option string * bool * Acc → bool := λ '(_, finished, _), negb finished.
Definition list_page {Acc} (prefix : string) (visit : Acc → ListedObject → Acc)
    : option string * bool * Acc → MB (option string * bool * Acc) := λ '(token, _, acc),
  out ← sdk_err (s3_list_objects_v2 prefix token);
  let acc' := foldl visit acc (lp_contents out) in
  if default false (lp_is_truncated out) then
    match lp_next_continuation_token out with
    | None => mret (None, true, acc')
    | Some t => mret (Some t, false, acc')
    end
  else mret (None, true, acc').
Definition list_pages {Acc} (prefix : string) (visit : Acc → ListedObject → Acc) (acc : Acc)
    : MB Acc :=
  b ← get;
  st ← while (s3_page_bound b prefix) list_more (list_page prefix visit) (None, false, acc);
  mret st.2.

(** Requests through the store's client that are not counted in the metrics. *)
Definition unobserved {A} (m : MB A) : ME A :=
  zoom env_svc (λ b' env, {| env_svc := b'; env_obs := env_obs env |}) (run_on_runtime m).

Definition push_index (chunks_prefix : string) (indices : list Z) (obj : ListedObject) : list Z :=
  match Keys.parse_chunk_index_from_key chunks_prefix (default "" (lo_key obj)) with
  | Some idx => indices ++ [idx]
  | None => indices
  end.

Definition list_chunk_indices (chunks_prefix : string) : ME (list Z) :=
  let p := if ends_with "/" chunks_prefix then chunks_prefix else chunks_prefix +:+ "/" in
  indices ← unobserved (list_pages p (push_index p) []);
  mret (dedup (sort_unstable indices)).

Definition list_keys (prefix : string) : ME (list string) :=
  unobserved (list_pages prefix
    (λ keys obj, match lo_key obj with Some k => keys ++ [k] | None => keys end) []).

(** ** Chunks *)
Definition get_legacy_chunk self (index : Z) : ME (bytes * option string) :=
  r ← get_bytes (Keys.legacy_chunk_key self index);
  match r with
  | Some (b, etag) =>
      plain ← lift (Comp.decode_chunk (st_compression self) b (st_chunk_size self));
      mret (plain, etag)
  | None =>
      r ← get_bytes (Keys.legacy_flat_chunk_key self index);
      match r with
      | Some (b, _) =>
          plain ← lift (Comp.decode_chunk (st_compression self) b (st_chunk_size self));
          mret (plain, None)
      | None => mret (zeros (st_chunk_size self), None)
      end
  end.

Definition get_object self (hash : bytes) : ME (option (bytes * option string)) :=
  get_bytes (Keys.object_key self hash).

Definition get_chunk self (index : Z) : ME (bytes * option string) :=
  match st_storage self with
  | Legacy => get_legacy_chunk self index
  | Cow =>
      r ← get_pointer_bytes (Keys.chunk_key self index);
      match r with
      | None => mret (zeros (st_chunk_size self), None)
      | Some (ptr_bytes, etag) =>
          hash ← lift (Snap.decode_pointer ptr_bytes);
          r ← get_object self hash;
          match r with
          | None => throw (OtherError ("missing cow object for chunk " +:+ dec index))
          | Some (body, _) =>
              plain ← lift (Comp.decode_chunk (st_compression self) body (st_chunk_size self));
              mret (plain, etag)
          end
      end
  end.

Definition put_chunk self (index : Z) (data : bytes) (if_match : option string) : ME unit :=
  if negb (Zlen data =? st_chunk_size self) then
    throw (OtherError ("put_chunk length " +:+ dec (Zlen data)
                       +:+ " != chunk_size " +:+ dec (st_chunk_size self)))
  else
    match st_storage self with
    | Legacy =>
        body ← lift (Comp.encode_chunk (st_compression self) data);
        _ ← put_bytes (Keys.legacy_chunk_key self index) body None if_match;
        ignore (delete_object_key (Keys.legacy_flat_chunk_key self index))
    | Cow =>
        body ← lift (Comp.encode_chunk (st_compression self) data);
        let hash := Snap.hash_object_bytes body in
        _ ← put_bytes (Keys.object_key self hash) body None None;
        put_bytes (Keys.chunk_key self index) (Snap.encode_pointer hash) None if_match
    end.

Definition is_precondition_failed (e : StoreError) : bool :=
  match e with S3Error msg => text_precondition_failed msg | _ => false end.

Definition delete_chunk_object self (index : Z) : ME unit :=
  match st_storage self with
  | Legacy =>
      _ ← delete_object_key (Keys.legacy_chunk_key self index);
      delete_object_key (Keys.legacy_flat_chunk_key self index)
  | Cow => delete_object_key (Keys.chunk_key self index)
  end.

(** ** Block I/O *)
Definition read_at self (offset : Z) (buf : bytes) : ME bytes :=
  _ ← lift (check_range (st_capacity self) offset (Zlen buf));
  chunk_loop (st_chunk_size self) offset (Zlen buf)
    (λ _ chunk_idx within take done buf,
      c ← get_chunk self chunk_idx;
      src ← lift (slice c.1 within (within + take));
      lift (copy_into buf done (done + take) src))
    (zeros (Zlen buf)).

Definition MAX_CAS_ATTEMPTS : nat := 8.

(** One pass of the [loop] of [write_at]: read (unless the whole chunk is
    overwritten), modify, put under the ETag that was read. *)
Definition cas_attempt self (data : bytes) (chunk_idx within take done : Z)
    : ME (unit + StoreError) :=
  c ← (if (within =? 0) && (take =? st_chunk_size self)
       then mret (zeros (st_chunk_size self), None)
       else get_chunk self chunk_idx);
  src ← lift (slice data done (done + take));
  chunk ← lift (copy_into c.1 within (within + take) src);
  attempt (put_chunk self chunk_idx chunk c.2).

(** The [loop] itself; [retries] is [MAX_CAS_ATTEMPTS - attempt]. *)
Fixpoint cas_loop self (data : bytes) (chunk_idx within take done : Z) (retries : nat) : ME unit :=
  r ← cas_attempt self data chunk_idx within take done;
  match r with
  | inl _ => mret tt
  | inr e =>
      match retries with
      | O => throw e
      | Datatypes.S retries =>
          if is_precondition_failed e
          then cas_loop self data chunk_idx within take done retries
          else throw e
      end
  end.

Definition write_at self (offset : Z) (data : bytes) : ME unit :=
  _ ← lift (check_range (st_capacity self) offset (Zlen data));
  chunk_loop (st_chunk_size self) offset (Zlen data)
    (λ _ chunk_idx within take done _,
      cas_loop self data chunk_idx within take done (MAX_CAS_ATTEMPTS - 1)) tt.

Definition present_chunks self : ME (list Z) := list_chunk_indices (Keys.chunks_prefix self).
Definition delete_chunk self (index : Z) : ME unit := delete_chunk_object self index.

(** The handle together with its environment, for the methods that change a
    cell of the handle. *)
Record state : Type := { s_store : S3ChunkStore; s_env : Env B }.
Definition with_env (env : Env B) (s : state) : state := {| s_store := s_store s; s_env := env |}.
Definition with_store (f : S3ChunkStore → S3ChunkStore) (s : state) : state :=
  {| s_store := f (s_store s); s_env := s_env s |}.
Definition on_env {A} (f : S3ChunkStore → ME A) : M state StoreError A := λ s,
  zoom s_env with_env (f (s_store s)) s.

Definition with_capacity (n : Z) self : S3ChunkStore :=
  {| st_prefix := st_prefix self; st_block_size := st_block_size self;
     st_chunk_size := st_chunk_size self; st_compression := st_compression self;
     st_storage := st_storage self; st_capacity := n; st_labels := st_labels self |}.
Definition with_storage (m : StorageMode) self : S3ChunkStore :=
  {| st_prefix := st_prefix self; st_block_size := st_block_size self;
     st_chunk_size := st_chunk_size self; st_compression := st_compression self;
     st_storage := m; st_capacity := st_capacity self; st_labels := st_labels self |}.

Definition meta_of self (capacity : Z) (mode : StorageMode) : VolumeMeta :=
  {| vm_version := Keys.META_VERSION; vm_capacity_bytes := capacity;
     vm_chunk_size := st_chunk_size self; vm_block_size := st_block_size self;
     vm_compression := st_compression self; vm_storage := mode |}.

Definition set_capacity (new_capacity : Z) : M state StoreError unit :=
  s ← get;
  let self := s_store s in
  if st_block_size self =? 0 then panic (* remainder by zero *) else
  if negb (new_capacity mod st_block_size self =? 0) then
    throw (GeometryMismatch "capacity must be multiple of block_size")
  else
    let current := st_capacity self in
    if new_capacity <? current then throw (ShrinkRefused current new_capacity)
    else if new_capacity =? current then mret tt
    else
      _ ← on_env (λ self, put_meta self (meta_of self new_capacity (st_storage self)));
      modify (with_store (with_capacity new_capacity)).

#[global] Instance s3_block_store : BlockStore state := {
  Store.read_at := λ off buf, on_env (λ self, read_at self off buf);
  Store.write_at := λ off data, on_env (λ self, write_at self off data);
  Store.capacity := λ s, st_capacity (s_store s);
  Store.set_capacity := set_capacity;
  Store.flush := mret tt;
  Store.block_size := λ s, st_block_size (s_store s);
  Store.chunk_size := λ s, st_chunk_size (s_store s);
  Store.present_chunks := on_env present_chunks;
  Store.delete_chunk := λ idx, on_env (λ self, delete_chunk self idx)
}.
End ops.
Arguments state : clear implicits.
End S3.
