(* ===== verification/S3Spec.v ===== *)
(** * Correctness of the S3 chunk store

    Specifications of the requests against the service laws, the view of a
    volume the objects in the bucket determine, and the proofs that the chunk
    accessors and the block I/O implement it. *)
From S2P Require Import Prelude Text Store Compression Snapshot S3Api S3Keys S3Store.
#[local] Open Scope string_scope.
#[local] Open Scope list_scope.
#[local] Open Scope Z_scope.

Module S3Spec.
Section requests.
Context {B : Type} `{S3Laws B} `{Codecs} `{Blake3} `{Json}.
Implicit Types (env : Env B) (self : S3ChunkStore) (b : B).

Definition objs env : object_map := objects (env_svc env).
Definition ok env : Prop := healthy (env_svc env).

(** [env'] follows [env] with the same bucket contents. *)
Definition quiet env env' : Prop := objs env' = objs env ∧ (ok env → ok env').

#[global] Instance quiet_preorder : PreOrder quiet.
Proof.
  split; [by split|]. intros x y z [Hxy ?] [Hyz ?]. split; [congruence|auto].
Qed.

Lemma wp_run_on_runtime {A} (m : M B StoreError A) Q R b :
  wp m (λ a b', (healthy b → s3_timed_out b' = false) ∧ Q a b' ∧
                (¬ healthy b → ∀ e, R e b'))
       (λ e b', (healthy b → s3_timed_out b' = false) ∧ R e b' ∧
                (¬ healthy b → ∀ e, R e b')) b →
  wp (S3.run_on_runtime m) Q R b.
Proof.
  unfold wp, S3.run_on_runtime. destruct (m b) as [[a|e| |] b']; try done;
    intros (Ht & HQ & HR); destruct (s3_timed_out b') eqn:Hto; try done;
    apply HR; intros Hh; by apply Ht in Hh.
Qed.

Lemma wp_observed {A} op size (m : M B StoreError A) (Q : A → Env B → Prop) R env :
  wp (S3.run_on_runtime m) (λ a b', ∀ env', env_svc env' = b' → Q a env')
     (λ e b', ∀ env', env_svc env' = b' → R e env') (env_svc env) →
  wp (S3.observed op size m) Q R env.
Proof.
  unfold wp, S3.observed. destruct (S3.run_on_runtime m (env_svc env)) as [[] b']; try done;
    intros HQ; by apply HQ.
Qed.

Lemma wp_unobserved {A} (m : M B StoreError A) (Q : A → Env B → Prop) R env :
  wp (S3.run_on_runtime m) (λ a b', ∀ env', env_svc env' = b' → Q a env')
     (λ e b', ∀ env', env_svc env' = b' → R e env') (env_svc env) →
  wp (S3.unobserved m) Q R env.
Proof.
  intros Hwp. unfold S3.unobserved. apply wp_zoom. eapply wp_mono; [exact Hwp|..];
    cbv beta; auto.
Qed.

Lemma get_task_spec k b :
  wp (S3.get_bytes_task k)
    (λ r b', objects b' = objects b ∧ r = objects b !! k ∧
       (healthy b → healthy b' ∧ s3_timed_out b' = false))
    (λ e b', objects b' = objects b ∧ ¬ healthy b) b.
Proof.
  pose proof (get_law k b) as Hl. unfold wp, S3.get_bytes_task in *.
  destruct (s3_get_object k b) as [[[etag [body|msg]]|e| |] b']; try done.
  - destruct Hl as (? & ? & ?). naive_solver.
  - destruct Hl as (? & ? & ?). done.
  - destruct Hl as (? & ? & Hr). destruct (sdk_not_found e); naive_solver.
Qed.

Lemma get_bytes_as_spec k op env :
  wp (S3.get_bytes_as k op)
    (λ r env', quiet env env' ∧ r = objs env !! k)
    (λ e env', quiet env env' ∧ ¬ ok env) env.
Proof.
  apply wp_observed, wp_run_on_runtime. eapply wp_mono; [apply get_task_spec|..].
  - intros r b' (Ho & -> & Hh). split; [naive_solver|]. split.
    + intros env' <-. split; [split; [done|]|done]. unfold ok. naive_solver.
    + intros Hn e env' <-. split; [split; [done|]|done]. unfold ok. naive_solver.
  - intros e b' (Ho & Hn). split; [done|]. split.
    + intros env' <-. split; [split; [done|done]|done].
    + intros _ e' env' <-. split; [split; [done|done]|done].
Qed.

(** A put or delete that reports an error may still have taken effect. *)
Lemma put_bytes_spec k body ct im env :
  wp (S3.put_bytes k body ct im)
    (λ _ env', (ok env → ok env') ∧ if_match_holds (objs env) k im ∧
       ∃ etag, objs env' = <[k := (body, etag)]> (objs env))
    (λ e env', (ok env → ok env') ∧
       (objs env' = objs env ∨ ∃ etag, objs env' = <[k := (body, etag)]> (objs env)) ∧
       (¬ ok env ∨ ¬ if_match_holds (objs env) k im ∧
          S3.is_precondition_failed e = true ∧ objs env' = objs env)) env.
Proof.
  apply wp_observed, wp_run_on_runtime. unfold S3.sdk_err. apply wp_map_err.
  eapply wp_mono; [apply put_law|..].
  - intros _ b' (Hh & Him & etag & Ho). split; [naive_solver|]. split.
    + intros env' <-. split; [unfold ok; naive_solver|]. split; [done|]. by exists etag.
    + intros Hn e env' <-. split; [unfold ok; naive_solver|]. split; [|by left].
      right. by exists etag.
  - intros e b' (Hh & Ho & Hr). split; [naive_solver|]. split.
    + intros env' <-. split; [unfold ok; naive_solver|]. done.
    + intros Hn e' env' <-. split; [unfold ok; naive_solver|]. split; [done|by left].
Qed.

Lemma delete_spec k env :
  wp (S3.delete_object_key k)
    (λ _ env', (ok env → ok env') ∧ objs env' = delete k (objs env))
    (λ e env', ¬ ok env ∧ (objs env' = objs env ∨ objs env' = delete k (objs env))) env.
Proof.
  apply wp_observed, wp_run_on_runtime. unfold S3.sdk_err. apply wp_map_err.
  eapply wp_mono; [apply delete_law|..].
  - intros _ b' (Hh & Ho). split; [naive_solver|]. split.
    + intros env' <-. split; [unfold ok; naive_solver|done].
    + intros Hn e env' <-. split; [done|by right].
  - intros e b' (Hn & Ho). split; [done|]. split; [by intros env' <-|by intros ??? <-].
Qed.

(** The listing loop visits every object under the prefix exactly once. *)
Lemma list_loop_spec {Acc} p (visit : Acc → ListedObject → Acc) acc b :
  wp (while (s3_page_bound b p) S3.list_more (S3.list_page p visit) (None, false, acc))
    (λ st b', objects b' = objects b ∧ (healthy b → healthy b') ∧
       (healthy b → s3_timed_out b' = false) ∧
       st.2 = foldl visit acc (listing (objects b) p None))
    (λ e b', objects b' = objects b ∧ ¬ healthy b) b.
Proof.
  eapply wp_mono; [eapply (wp_while (λ '(tok, fin, acc') b',
      objects b' = objects b ∧ (healthy b → healthy b') ∧
      (fin = true → healthy b → s3_timed_out b' = false) ∧
      foldl visit acc (listing (objects b) p None) =
        if fin : bool then acc' else foldl visit acc' (listing (objects b) p tok))
    (λ '(tok, fin, _), if fin : bool then 0%nat else S (length (listing (objects b) p tok)))
    (λ _ b', objects b' = objects b ∧ ¬ healthy b))|..].
  - intros [[tok fin] acc'] b' (Ho & Hh & _ & Hf) Hc. destruct fin; [done|]. clear Hc.
    cbn [S3.list_page]. wp_step. unfold S3.sdk_err. apply wp_map_err. eapply wp_mono; [apply list_law|..].
    + intros pg b'' (Ho' & Hh' & Hpg). rewrite Ho in *.
      destruct (default false (lp_is_truncated pg)).
      * destruct Hpg as (Hne & t & -> & Hl). wp_step. rewrite Hl, foldl_app in Hf.
        split; [naive_solver|]. rewrite Hl, length_app. destruct (lp_contents pg); [done|]. simpl. lia.
      * wp_step. rewrite Hpg in Hf. split; [|lia]. naive_solver.
    + intros e b'' [Ho' Hn]. split; [congruence|naive_solver].
  - done.
  - rewrite listing_all, length_map. apply page_bound_law.
  - intros [[tok fin] acc'] b' [(Ho & Hh & Ht & Hf) Hc]. destruct fin; [|done]. naive_solver.
  - done.
Qed.

Lemma list_pages_spec {Acc} p (visit : Acc → ListedObject → Acc) acc b :
  wp (S3.list_pages p visit acc)
    (λ r b', objects b' = objects b ∧ (healthy b → healthy b') ∧
       (healthy b → s3_timed_out b' = false) ∧
       r = foldl visit acc (listing (objects b) p None))
    (λ e b', objects b' = objects b ∧ ¬ healthy b) b.
Proof.
  unfold S3.list_pages. wp_steps. eapply wp_mono; [apply list_loop_spec| |done].
  intros st b' Hst. by wp_step.
Qed.
End requests.

(** ** The volume the bucket shows *)
Section view.
Context {B : Type} `{S3Laws B} `{CodecLaws} `{Blake3Laws} `{Json}.
Implicit Types (env : Env B) (self : S3ChunkStore) (o : object_map) (b : B).

(** The contents of chunk [idx], as far as the objects in the bucket say. *)
Definition chunk_view self o (idx : Z) : outcome StoreError bytes :=
  let decode body := Comp.decode_chunk (st_compression self) body (st_chunk_size self) in
  match st_storage self with
  | Legacy =>
      match o !! Keys.legacy_chunk_key self idx with
      | Some (body, _) => decode body
      | None =>
          match o !! Keys.legacy_flat_chunk_key self idx with
          | Some (body, _) => decode body
          | None => Ok (zeros (st_chunk_size self))
          end
      end
  | Cow =>
      match o !! Keys.chunk_key self idx with
      | None => Ok (zeros (st_chunk_size self))
      | Some (ptr, _) =>
          hash ← Snap.decode_pointer ptr;
          match o !! Keys.object_key self hash with
          | None => Err (OtherError ("missing cow object for chunk " +:+ dec idx))
          | Some (body, _) => decode body
          end
      end
  end.

Definition view_same self o o' : Prop :=
  ∀ j, is_u64 j → chunk_view self o' j = chunk_view self o j.
Definition view_replaced self o o' (idx : Z) (data : bytes) : Prop :=
  chunk_view self o' idx = Ok data ∧
  ∀ j, is_u64 j → j ≠ idx → chunk_view self o' j = chunk_view self o j.

(** The payload [body] does not collide with an object already in the pool. *)
Definition no_collision self o (body : bytes) : Prop :=
  st_storage self = Cow →
  ∀ body' etag, o !! Keys.object_key self (blake3 body) = Some (body', etag) → body' = body.

(** The objects after [put_chunk] has done all of its work, or only the part
    that does not show. *)
Definition put_done self (idx : Z) (body : bytes) o o' : Prop :=
  match st_storage self with
  | Legacy => ∃ et,
      let o1 := <[Keys.legacy_chunk_key self idx := (body, et)]> o in
      o' = o1 ∨ o' = delete (Keys.legacy_flat_chunk_key self idx) o1
  | Cow => ∃ et et',
      o' = <[Keys.chunk_key self idx := (Snap.encode_pointer (blake3 body), et')]>
             (<[Keys.object_key self (blake3 body) := (body, et)]> o)
  end.
Definition put_partial self (body : bytes) o o' : Prop :=
  o' = o ∨
  st_storage self = Cow ∧ ∃ et, o' = <[Keys.object_key self (blake3 body) := (body, et)]> o.

Lemma cow_chunk_key_inj self i j :
  st_storage self = Cow → is_u64 i → is_u64 j →
  Keys.chunk_key self i = Keys.chunk_key self j → i = j.
Proof.
  unfold Keys.chunk_key, Keys.chunks_prefix. intros -> Hi Hj Heq.
  apply String.app_inv_r in Heq. unfold is_u64, u64_max in *.
  eapply hex_fixed_inj; [..|exact Heq]; [lia|simpl; lia..].
Qed.

Lemma cow_chunk_key_not_object self i h :
  st_storage self = Cow → Keys.object_key self h ≠ Keys.chunk_key self i.
Proof.
  unfold Keys.chunk_key, Keys.chunks_prefix, Keys.object_key. intros ->.
  rewrite <-?str_app_assoc. by intros Heq%String.app_inv_r.
Qed.

Lemma chunk_view_length self o idx c :
  0 ≤ st_chunk_size self → chunk_view self o idx = Ok c → Zlen c = st_chunk_size self.
Proof.
  intros Hcs. unfold chunk_view, mbind, outcome_bind.
  repeat case_match; intros Hv; simplify_eq; try (by eapply Comp.decode_chunk_length);
    by apply Zlen_zeros.
Qed.

(** Every chunk of the volume can be read back. *)
Definition chunks_ok self o : Prop := ∀ j, is_u64 j → ∃ c, chunk_view self o j = Ok c.

(** Storing an object under its hash does not change what a pointer shows. *)
Lemma cow_object_insert self o body et j :
  st_storage self = Cow → no_collision self o body → is_u64 j → (∃ c, chunk_view self o j = Ok c) →
  chunk_view self (<[Keys.object_key self (blake3 body) := (body, et)]> o) j = chunk_view self o j.
Proof.
  intros Hcow Hnc Hj [c Hc]. unfold chunk_view in *. rewrite Hcow in *.
  rewrite lookup_insert_ne by by apply cow_chunk_key_not_object.
  destruct (o !! Keys.chunk_key self j) as [[ptr e]|]; [|done].
  destruct (Snap.decode_pointer ptr) as [h| | |] eqn:Hp; try done.
  unfold mbind, outcome_bind in *.
  destruct (decide (Keys.object_key self (blake3 body) = Keys.object_key self h)) as [Heq|Hne];
    [|by rewrite lookup_insert_ne].
  rewrite <-Heq, lookup_insert_eq in *.
  destruct (o !! Keys.object_key self (blake3 body)) as [[body' e']|] eqn:Hl; [|done].
  by rewrite (Hnc Hcow _ _ Hl).
Qed.

Lemma put_partial_same self body o o' :
  chunks_ok self o → no_collision self o body → put_partial self body o o' → view_same self o o'.
Proof.
  intros Hok Hnc [->|[Hcow [et ->]]]; [done|]. intros j Hj.
  by apply cow_object_insert; [..|by apply Hok].
Qed.

Lemma put_done_replaced self idx data body o o' :
  chunks_ok self o → no_collision self o body → is_u64 idx →
  Comp.decode_chunk (st_compression self) body (st_chunk_size self) = Ok data →
  put_done self idx body o o' → view_replaced self o o' idx data.
Proof.
  intros Hok Hnc Hidx Hdec. unfold put_done. destruct (st_storage self) eqn:Hm.
  - intros [et Ho']. pose proof (Keys.sharded_not_flat self) as Hsf.
    split.
    + unfold chunk_view. rewrite Hm.
      assert (o' !! Keys.legacy_chunk_key self idx = Some (body, et)) as ->; [|done].
      destruct Ho' as [-> | ->]; [by rewrite lookup_insert_eq|].
      by rewrite lookup_delete_ne, lookup_insert_eq by (symmetry; apply Hsf).
    + intros j Hj Hne. unfold chunk_view. rewrite Hm.
      assert (o' !! Keys.legacy_chunk_key self j = o !! Keys.legacy_chunk_key self j) as ->.
      { assert (Keys.legacy_chunk_key self idx ≠ Keys.legacy_chunk_key self j)
          by (intros ?%Keys.legacy_chunk_key_inj; auto).
        destruct Ho' as [-> | ->]; [by rewrite lookup_insert_ne|].
        by rewrite lookup_delete_ne, lookup_insert_ne by (done || (symmetry; apply Hsf)). }
      assert (o' !! Keys.legacy_flat_chunk_key self j = o !! Keys.legacy_flat_chunk_key self j) as ->;
        [|done].
      assert (Keys.legacy_flat_chunk_key self idx ≠ Keys.legacy_flat_chunk_key self j)
        by (intros ?%Keys.legacy_flat_key_inj; auto).
      destruct Ho' as [-> | ->]; [by rewrite lookup_insert_ne by apply Hsf|].
      by rewrite lookup_delete_ne, lookup_insert_ne by (done || apply Hsf).
  - intros (et & et' & ->).
    set (o1 := <[Keys.object_key self (blake3 body) := (body, et)]> o).
    split.
    + unfold chunk_view. rewrite Hm, lookup_insert_eq.
      rewrite Snap.decode_encode_pointer by apply blake3_length.
      unfold mbind, outcome_bind. rewrite lookup_insert_ne
        by (intros Heq; symmetry in Heq; by eapply cow_chunk_key_not_object).
      unfold o1. by rewrite lookup_insert_eq.
    + intros j Hj Hne. rewrite <-(cow_object_insert self o body et j Hm Hnc Hj (Hok j Hj)).
      fold o1. unfold chunk_view. rewrite Hm.
      rewrite lookup_insert_ne by (intros ?%cow_chunk_key_inj; auto).
      destruct (o1 !! Keys.chunk_key self j) as [[ptr e]|]; [|done].
      destruct (Snap.decode_pointer ptr) as [h| | |]; try done.
      unfold mbind, outcome_bind. rewrite lookup_insert_ne; [done|].
      intros Heq. symmetry in Heq. by eapply cow_chunk_key_not_object.
Qed.

(** ** Chunk accessors *)
Lemma chunk_view_pointer self o idx ptr e :
  st_storage self = Cow → o !! Keys.chunk_key self idx = Some (ptr, e) →
  chunk_view self o idx =
    match Snap.decode_pointer ptr with
    | Ok h =>
        match o !! Keys.object_key self h with
        | None => Err (OtherError ("missing cow object for chunk " +:+ dec idx))
        | Some (body, _) => Comp.decode_chunk (st_compression self) body (st_chunk_size self)
        end
    | r => r
    end.
Proof. intros Hm Hl. unfold chunk_view. rewrite Hm, Hl. by destruct (Snap.decode_pointer ptr). Qed.

Lemma if_match_own o k body etag : o !! k = Some (body, etag) → if_match_holds o k etag.
Proof. destruct etag; simpl; eauto. Qed.

Lemma get_legacy_chunk_spec self idx env :
  st_storage self = Legacy →
  wp (S3.get_legacy_chunk self idx)
    (λ c env', quiet env env' ∧ chunk_view self (objs env) idx = Ok c.1 ∧
       if_match_holds (objs env) (Keys.legacy_chunk_key self idx) c.2)
    (λ e env', quiet env env' ∧ (¬ ok env ∨ chunk_view self (objs env) idx = Err e)) env.
Proof.
  intros Hm. unfold S3.get_legacy_chunk, chunk_view. rewrite Hm.
  wp_step. eapply wp_mono; [apply get_bytes_as_spec| |intros e env' []; auto].
  intros r env1 [Hq1 ->].
  destruct (objs env !! Keys.legacy_chunk_key self idx) as [[body etag]|] eqn:Hl.
  - wp_step. apply wp_lift; [apply Comp.decode_chunk_safe|intros x Hx..]; [|by auto].
    wp_step. eauto using if_match_own.
  - wp_step. eapply wp_mono; [apply get_bytes_as_spec| |].
    2: { intros e env' [Hq2 Hn]. split; [by etrans|]. left. intros Hok. by apply Hn, Hq1. }
    intros r env2 [Hq2 ->]. assert (quiet env env2) by (by etrans).
    destruct Hq1 as [Ho1 ?]. rewrite Ho1.
    destruct (objs env !! Keys.legacy_flat_chunk_key self idx) as [[body etag]|]; [|by wp_step].
    wp_step. apply wp_lift; [apply Comp.decode_chunk_safe|intros x Hx..]; [by wp_step|by auto].
Qed.

Lemma get_chunk_spec self idx env :
  wp (S3.get_chunk self idx)
    (λ c env', quiet env env' ∧ chunk_view self (objs env) idx = Ok c.1 ∧
       if_match_holds (objs env) (Keys.chunk_key self idx) c.2)
    (λ e env', quiet env env' ∧ (¬ ok env ∨ chunk_view self (objs env) idx = Err e)) env.
Proof.
  unfold S3.get_chunk. destruct (st_storage self) eqn:Hm.
  { unfold Keys.chunk_key. rewrite Hm. by apply get_legacy_chunk_spec. }
  wp_step. eapply wp_mono; [apply get_bytes_as_spec| |intros e env' []; auto].
  intros r env1 [Hq1 ->].
  destruct (objs env !! Keys.chunk_key self idx) as [[ptr etag]|] eqn:Hl.
  2: { wp_step. unfold chunk_view. rewrite Hm, Hl. done. }
  rewrite (chunk_view_pointer _ _ _ _ _ Hm Hl).
  wp_step. apply wp_lift; [apply Snap.decode_pointer_safe|intros h Hp|intros e Hp];
    rewrite Hp; [|by auto].
  wp_step. eapply wp_mono; [apply get_bytes_as_spec| |].
  2: { intros e env' [Hq2 Hn]. split; [by etrans|]. left. intros Hok. by apply Hn, Hq1. }
  intros r env2 [Hq2 ->]. assert (quiet env env2) by (by etrans).
  destruct Hq1 as [Ho1 ?]. rewrite Ho1.
  destruct (objs env !! Keys.object_key self h) as [[body e]|]; [|wp_step; by auto].
  wp_step. apply wp_lift; [apply Comp.decode_chunk_safe|intros x Hx..]; [|by auto].
  wp_step. eauto using if_match_own.
Qed.

Lemma put_chunk_spec self idx data im env :
  Zlen data = st_chunk_size self →
  wp (S3.put_chunk self idx data im)
    (λ _ env', (ok env → ok env') ∧ if_match_holds (objs env) (Keys.chunk_key self idx) im ∧
       ∃ body, Comp.encode_chunk (st_compression self) data = Ok body ∧
         put_done self idx body (objs env) (objs env'))
    (λ e env', (ok env → ok env') ∧
       (objs env' = objs env ∨
        ∃ body, Comp.encode_chunk (st_compression self) data = Ok body ∧
          (put_partial self body (objs env) (objs env') ∨
           put_done self idx body (objs env) (objs env'))) ∧
       (¬ ok env ∨ Comp.encode_chunk (st_compression self) data = Err e ∨
        ¬ if_match_holds (objs env) (Keys.chunk_key self idx) im)) env.
Proof.
  intros Hlen. unfold S3.put_chunk. rewrite Hlen, Z.eqb_refl. cbn [negb].
  destruct (st_storage self) eqn:Hm.
  - assert (Keys.chunk_key self idx = Keys.legacy_chunk_key self idx) as ->
      by (unfold Keys.chunk_key; by rewrite Hm).
    wp_step. apply wp_lift; [apply Comp.encode_chunk_safe|intros body Hb|by auto].
    wp_step. eapply wp_mono; [apply put_bytes_spec| |].
    + intros _ env1 (Hk & Him & et & Ho). eapply wp_ignore; [apply delete_spec|..].
      * intros _ env2 (Hk2 & Ho2). split; [auto|]. split; [done|]. exists body. split; [done|].
        unfold put_done. rewrite Hm. exists et. rewrite Ho2, Ho. by right.
      * intros e env2 (Hn & Ho2). split; [intros Hok; by apply Hk in Hok|].
        split; [done|]. exists body. split; [done|].
        unfold put_done. rewrite Hm. exists et. rewrite Ho in Ho2. naive_solver.
    + intros e env1 (Hk & Ho & Hr). split; [done|]. split.
      * destruct Ho as [Ho|[et Ho]]; [by left|]. right. exists body. split; [done|]. right.
        unfold put_done. rewrite Hm. exists et. by left.
      * naive_solver.
  - wp_step. apply wp_lift; [apply Comp.encode_chunk_safe|intros body Hb|by auto].
    cbv zeta. unfold Snap.hash_object_bytes.
    wp_step. eapply wp_mono; [apply put_bytes_spec| |].
    2: { intros e env1 (Hk & Ho & Hr). split; [done|]. split.
      - destruct Ho as [Ho|[et Ho]]; [by left|]. right. exists body. split; [done|]. left.
        right. eauto.
      - destruct Hr as [?|(Hf & _)]; [by left|]. by destruct Hf. }
    intros _ env1 (Hk & _ & et & Ho).
    assert (∀ im, if_match_holds (objs env1) (Keys.chunk_key self idx) im ↔
                  if_match_holds (objs env) (Keys.chunk_key self idx) im) as Hime.
    { intros [t|]; simpl; [|done]. rewrite Ho.
      by rewrite lookup_insert_ne by by apply cow_chunk_key_not_object. }
    eapply wp_mono; [apply put_bytes_spec|..].
    + intros _ env2 (Hk2 & Him & et' & Ho2). split; [auto|]. split; [by apply Hime|].
      exists body. split; [done|]. unfold put_done. rewrite Hm.
      exists et, et'. by rewrite Ho2, Ho.
    + intros e env2 (Hk2 & Ho2 & Hr). split; [auto|]. split.
      * right. exists body. split; [done|]. destruct Ho2 as [Ho2|[et' Ho2]].
        -- left. right. split; [done|]. exists et. congruence.
        -- right. unfold put_done. rewrite Hm. exists et, et'. congruence.
      * rewrite <-Hime. naive_solver.
Qed.

(** ** Bytes of the volume *)
Record geometry self : Prop := {
  ge_block : 0 < st_block_size self ≤ u32_max;
  ge_chunk : 0 < st_chunk_size self ≤ u64_max;
  ge_cap : is_u64 (st_capacity self);
  ge_header : st_compression self = CompNone ∨ st_chunk_size self < 2 ^ 32
}.

Definition byte_view self o (i : Z) : byte :=
  if decide (is_u64 (i / st_chunk_size self)) then
    match chunk_view self o (i / st_chunk_size self) with
    | Ok c => nthb c (i mod st_chunk_size self)
    | _ => Byte.x00
    end
  else Byte.x00.

Definition byte_patched self o (off : Z) (data : bytes) (i : Z) : byte :=
  if decide (off ≤ i < off + Zlen data) then nthb data (i - off) else byte_view self o i.

(** Chunk [idx] after [data] is written at [off]. *)
Definition patched_chunk self o (off : Z) (data : bytes) (idx : Z) : bytes :=
  (λ w : nat, byte_patched self o off data (idx * st_chunk_size self + Z.of_nat w))
    <$> seq 0 (Z.to_nat (st_chunk_size self)).

(** Content addressing is injective on the payloads a write stores and the
    objects already in the pool. *)
Definition write_admissible self o (off : Z) (data : bytes) : Prop :=
  st_storage self = Cow → ∀ idx body, is_u64 idx →
  Comp.encode_chunk (st_compression self) (patched_chunk self o off data idx) = Ok body →
  no_collision self o body ∧
  ∀ idx' body', is_u64 idx' →
    Comp.encode_chunk (st_compression self) (patched_chunk self o off data idx') = Ok body' →
    blake3 body = blake3 body' → body = body'.

Lemma nthb_tabulate (f : nat → byte) n i :
  0 ≤ i < Z.of_nat n → nthb (f <$> seq 0 n) i = f (Z.to_nat i).
Proof.
  intros Hi. apply nthb_lookup; [lia|]. rewrite list_lookup_fmap.
  rewrite (lookup_seq_lt 0 n (Z.to_nat i)) by lia. done.
Qed.

Lemma Zlen_patched_chunk self o off data idx :
  0 ≤ st_chunk_size self → Zlen (patched_chunk self o off data idx) = st_chunk_size self.
Proof. intros. unfold patched_chunk, Zlen. rewrite length_fmap, length_seq. lia. Qed.

Lemma nthb_patched_chunk self o off data idx w :
  0 ≤ w < st_chunk_size self →
  nthb (patched_chunk self o off data idx) w =
    byte_patched self o off data (idx * st_chunk_size self + w).
Proof.
  intros. unfold patched_chunk. rewrite nthb_tabulate by lia. by rewrite Z2Nat.id by lia.
Qed.

Lemma byte_view_chunk self o idx w c :
  is_u64 idx → 0 ≤ w < st_chunk_size self → chunk_view self o idx = Ok c →
  byte_view self o (idx * st_chunk_size self + w) = nthb c w.
Proof.
  intros Hidx Hw Hc. unfold byte_view. rewrite addr_div, addr_mod by lia.
  by rewrite decide_True, Hc.
Qed.

Lemma view_same_bytes self o o' i : view_same self o o' → byte_view self o' i = byte_view self o i.
Proof. intros Hv. unfold byte_view. case_decide; [by rewrite Hv|done]. Qed.

Lemma view_same_ok self o o' : chunks_ok self o → view_same self o o' → chunks_ok self o'.
Proof. intros Ho Hv j Hj. rewrite Hv by done. by apply Ho. Qed.

Lemma view_replaced_ok self o o' idx c :
  chunks_ok self o → view_replaced self o o' idx c → chunks_ok self o'.
Proof.
  intros Ho [Hv Hr] j Hj. destruct (decide (j = idx)) as [->|]; [by eexists|].
  rewrite Hr by done. by apply Ho.
Qed.

Lemma view_replaced_bytes self o o' idx within src c i :
  0 < st_chunk_size self → is_u64 idx → chunk_view self o idx = Ok c →
  0 ≤ within → within + Zlen src ≤ st_chunk_size self → 0 ≤ i →
  view_replaced self o o' idx (splice c within src) →
  let a := idx * st_chunk_size self + within in
  byte_view self o' i =
    if decide (a ≤ i < a + Zlen src) then nthb src (i - a) else byte_view self o i.
Proof.
  intros Hcs Hidx Hc Hw Hl Hi [Hv Hr] a.
  pose proof (Z.div_mod i (st_chunk_size self) ltac:(lia)).
  pose proof (Z.mod_pos_bound i (st_chunk_size self) ltac:(lia)).
  pose proof (chunk_view_length self o idx c ltac:(lia) Hc).
  unfold byte_view. destruct (decide (i / st_chunk_size self = idx)) as [Heq|Hne].
  - rewrite Heq in *. rewrite decide_True, Hv, Hc by done. rewrite nthb_splice by lia.
    rewrite (decide_True (P:=is_u64 idx)) by done. unfold a.
    repeat case_decide; try lia; [|done]. f_equal. lia.
  - rewrite (decide_False (P:= a ≤ i < _)).
    + case_decide; [|done]. by rewrite Hr.
    + unfold a. intros Hr'. apply Hne. symmetry.
      apply Z.div_unique with (i - idx * st_chunk_size self); lia.
Qed.

Lemma encode_error_kind algo p e :
  Comp.encode_chunk algo p = Err e → S3.is_precondition_failed e = false.
Proof.
  unfold Comp.encode_chunk, Comp.compress, mbind, outcome_bind.
  intros. repeat case_match; by simplify_eq.
Qed.

Lemma decode_encode self data body :
  geometry self → Zlen data = st_chunk_size self →
  Comp.encode_chunk (st_compression self) data = Ok body →
  Comp.decode_chunk (st_compression self) body (st_chunk_size self) = Ok data.
Proof.
  intros [] Hl He. rewrite (Comp.decode_encode_chunk_gen _ data) by done. by rewrite decide_True.
Qed.

(** ** The read-modify-write loop *)

(** Only [body] can have joined the object pool. *)
Definition pool_grew self (body : bytes) o o' : Prop :=
  st_storage self = Cow → ∀ h (p : bytes) et, Snap.is_hash h →
  o' !! Keys.object_key self h = Some (p, et) →
  (∃ et', o !! Keys.object_key self h = Some (p, et')) ∨ h = blake3 body ∧ p = body.

Lemma put_partial_pool self body o o' : put_partial self body o o' → pool_grew self body o o'.
Proof.
  intros [->|[Hm [et ->]]] _ h p et' Hh Hl; [by eauto|].
  apply lookup_insert_Some in Hl as [[Hk Hb]|[_ Hl]]; [|by eauto].
  apply Keys.object_key_inj in Hk; [|apply blake3_length|done]. naive_solver.
Qed.

Lemma put_done_pool self idx body o o' : put_done self idx body o o' → pool_grew self body o o'.
Proof.
  unfold put_done. intros Hp Hm. rewrite Hm in Hp. destruct Hp as (et & et' & ->).
  intros h p e Hh. rewrite lookup_insert_ne
    by (intros Heq; symmetry in Heq; by eapply cow_chunk_key_not_object).
  apply (put_partial_pool self body); [|done|done]. right. eauto.
Qed.

Lemma pool_grew_no_collision self body o o' :
  no_collision self o body → pool_grew self body o o' → no_collision self o' body.
Proof.
  intros Hnc Hp Hm p et Hl. apply Hp in Hl as [[et' Hl]|[_ ->]]; [|done|done|apply blake3_length].
  by eapply Hnc.
Qed.

(** What block I/O may do to the bucket: only chunk and object keys change, and
    an object of the pool keeps its payload. *)
Record data_only self o o' : Prop := {
  do_frame k :
    (∀ i, k ≠ Keys.legacy_chunk_key self i ∧ k ≠ Keys.legacy_flat_chunk_key self i ∧
          k ≠ Keys.chunk_key self i) →
    (∀ h, Snap.is_hash h → k ≠ Keys.object_key self h) → o' !! k = o !! k;
  do_pool : st_storage self = Cow → ∀ h p et, Snap.is_hash h →
    o !! Keys.object_key self h = Some (p, et) →
    ∃ et', o' !! Keys.object_key self h = Some (p, et')
}.

#[global] Instance data_only_preorder self : PreOrder (data_only self).
Proof.
  split; [constructor; eauto|]. intros x y z [Hf Hp] [Hf' Hp']. constructor.
  - intros k Hc Ho. by rewrite Hf', Hf.
  - intros Hm h p et Hh Hl. destruct (Hp Hm h p et Hh Hl) as [et' Hl']. by eapply Hp'.
Qed.

Lemma put_partial_data self body o o' :
  no_collision self o body → put_partial self body o o' → data_only self o o'.
Proof.
  intros Hnc [->|[Hm [et ->]]]; [reflexivity|]. constructor.
  - intros k _ Ho. rewrite lookup_insert_ne; [done|]. intros Heq. eapply Ho; [apply blake3_length|done].
  - intros _ h p e Hh Hl.
    destruct (decide (Keys.object_key self (blake3 body) = Keys.object_key self h)) as [Heq|Hne];
      [|rewrite lookup_insert_ne by done; eauto].
    rewrite <-Heq in *. rewrite lookup_insert_eq. rewrite (Hnc Hm _ _ Hl). eauto.
Qed.

Lemma put_done_data self idx body o o' :
  no_collision self o body → put_done self idx body o o' → data_only self o o'.
Proof.
  unfold put_done. intros Hnc. destruct (st_storage self) eqn:Hm.
  - intros [et Ho]. constructor; [|congruence]. intros k Hc _. destruct (Hc idx) as (? & ? & _).
    destruct Ho as [-> | ->]; by rewrite ?lookup_delete_ne, lookup_insert_ne by done.
  - intros (et & et' & ->). etrans.
    + apply (put_partial_data self body); [done|]. right. eauto.
    + constructor.
      * intros k Hc _. destruct (Hc idx) as (_ & _ & ?). by rewrite lookup_insert_ne.
      * intros _ h p e Hh Hl. rewrite lookup_insert_ne; [eauto|].
        intros Heq. symmetry in Heq. by eapply cow_chunk_key_not_object.
Qed.

Section cas.
Variables (self : S3ChunkStore) (o : object_map) (idx : Z) (c0 c1 : bytes).
Hypothesis Hgeo : geometry self.
Hypothesis Hidx : is_u64 idx.
Hypothesis Hok : chunks_ok self o.
Hypothesis Hc0 : chunk_view self o idx = Ok c0.

(** The chunk is still the old one or already the new one. *)
Definition old_or_new (o' : object_map) : Prop :=
  view_same self o o' ∨ view_replaced self o o' idx c1.

Lemma old_or_new_ok o' : old_or_new o' → chunks_ok self o'.
Proof. intros [Hv|Hv]; [by eapply view_same_ok|by eapply view_replaced_ok]. Qed.

Lemma old_or_new_chunk o' : old_or_new o' → chunk_view self o' idx = Ok c0 ∨ chunk_view self o' idx = Ok c1.
Proof. intros [Hv|[Hv _]]; [left; by rewrite Hv|by right]. Qed.

Lemma old_or_new_put body o1 o2 :
  Zlen c1 = st_chunk_size self → Comp.encode_chunk (st_compression self) c1 = Ok body →
  no_collision self o1 body → old_or_new o1 →
  (put_partial self body o1 o2 → old_or_new o2) ∧
  (put_done self idx body o1 o2 → view_replaced self o o2 idx c1).
Proof.
  intros Hl He Hnc Ho1. pose proof (old_or_new_ok _ Ho1) as Hok1. split.
  - intros Hp%put_partial_same; [|done|done]. destruct Ho1 as [Hv|[Hv Hr]].
    + left. intros j Hj. rewrite Hp by done. by apply Hv.
    + right. split; [by rewrite Hp|]. intros j Hj ?. rewrite Hp by done. by apply Hr.
  - intros Hp. eapply put_done_replaced in Hp; [|done|done|done|by apply decode_encode].
    destruct Hp as [Hp1 Hp2]. split; [done|]. intros j Hj Hne. rewrite Hp2 by done.
    destruct Ho1 as [Hv|[_ Hr]]; [by apply Hv|by apply Hr].
Qed.
End cas.

Section attempt.
Variables (self : S3ChunkStore) (o : object_map) (data : bytes) (idx within take done : Z) (c0 : bytes).
Hypothesis Hgeo : geometry self.
Hypothesis Hidx : is_u64 idx.
Hypothesis Hok : chunks_ok self o.
Hypothesis Hc0 : chunk_view self o idx = Ok c0.
Hypothesis Hin : 0 ≤ within ∧ 0 < take ∧ within + take ≤ st_chunk_size self.
Hypothesis Hdata : 0 ≤ done ∧ done + take ≤ Zlen data.

Let c1 := splice c0 within (sub data done take).

Lemma attempt_lengths :
  Zlen c0 = st_chunk_size self ∧ Zlen (sub data done take) = take ∧
  Zlen c1 = st_chunk_size self ∧ 0 < st_chunk_size self.
Proof using Hgeo Hc0 Hin Hdata.
  assert (0 < st_chunk_size self) by (destruct Hgeo; lia).
  pose proof (chunk_view_length self o idx c0 ltac:(lia) Hc0) as Hl0.
  assert (Zlen (sub data done take) = take) by (rewrite Zlen_sub; lia).
  split; [done|]. split; [done|]. split; [unfold c1; rewrite Zlen_splice; lia|done].
Qed.

(** The chunk an attempt starts from, with the piece copied in, is the new
    chunk, whether or not an earlier attempt already stored it. *)
Lemma cas_base_spec env :
  old_or_new self o idx c1 (objs env) →
  wp (if (within =? 0) && (take =? st_chunk_size self)
      then mret (zeros (st_chunk_size self), None)
      else S3.get_chunk self idx)
    (λ c env', quiet env env' ∧ splice c.1 within (sub data done take) = c1 ∧
       Zlen c.1 = st_chunk_size self ∧
       if_match_holds (objs env) (Keys.chunk_key self idx) c.2)
    (λ e env', quiet env env' ∧ ¬ ok env) env.
Proof using All.
  intros Hon. destruct attempt_lengths as (Hl0 & Hsl & Hl1 & Hcs).
  destruct (_ && _) eqn:Hfull.
  - wp_step. apply andb_prop in Hfull as [Hw%Z.eqb_eq Ht%Z.eqb_eq].
    split; [reflexivity|]. split; [|cbn [fst snd]; rewrite Zlen_zeros by lia; done].
    cbn [fst]. assert (Zlen (zeros (st_chunk_size self)) = st_chunk_size self) as Hz
      by (apply Zlen_zeros; lia).
    unfold c1. apply bytes_ext; rewrite ?Zlen_splice by lia; [lia|]. intros i Hi.
    rewrite !nthb_splice by (rewrite ?Zlen_zeros; lia). by rewrite !decide_True by lia.
  - eapply wp_mono; [apply get_chunk_spec|..].
    + intros [c et] env' (Hq & Hv & Him). simpl in *. split; [done|].
      pose proof (chunk_view_length self (objs env) idx c ltac:(lia) Hv) as Hl.
      split; [|by split].
      destruct (old_or_new_chunk self o idx c0 c1 Hidx Hc0 (objs env) Hon) as [Hv'|Hv'];
        rewrite Hv in Hv'; injection Hv' as ->; [done|]. unfold c1.
      apply bytes_ext; rewrite !Zlen_splice by (rewrite ?Zlen_splice; lia); [done|].
      intros i Hi. rewrite !nthb_splice by (rewrite ?Zlen_splice; lia). by case_decide.
    + intros e env' (Hq & [Hn|Hv]); [by split|].
      destruct (old_or_new_chunk self o idx c0 c1 Hidx Hc0 (objs env) Hon); congruence.
Qed.

Definition storable env : Prop := ∀ body,
  Comp.encode_chunk (st_compression self) c1 = Ok body → no_collision self (objs env) body.
Definition piece_stored env env' : Prop :=
  view_replaced self o (objs env') idx c1 ∧ data_only self (objs env) (objs env') ∧
  ∃ body, Comp.encode_chunk (st_compression self) c1 = Ok body ∧
    pool_grew self body (objs env) (objs env').

Lemma cas_attempt_spec env :
  storable env → old_or_new self o idx c1 (objs env) →
  wp (S3.cas_attempt self data idx within take done)
    (λ r env', (ok env → ok env') ∧
       match r with
       | inl _ => piece_stored env env'
       | inr e => old_or_new self o idx c1 (objs env') ∧ storable env' ∧
           data_only self (objs env) (objs env') ∧
           (∀ body, Comp.encode_chunk (st_compression self) c1 = Ok body →
              pool_grew self body (objs env) (objs env')) ∧
           (¬ ok env ∨ Comp.encode_chunk (st_compression self) c1 = Err e ∧
                       S3.is_precondition_failed e = false)
       end)
    (λ e env', old_or_new self o idx c1 (objs env') ∧ data_only self (objs env) (objs env') ∧
       ¬ ok env) env.
Proof using All.
  intros Hnc Hon. destruct attempt_lengths as (Hl0 & Hsl & Hl1 & Hcs).
  unfold S3.cas_attempt. wp_step.
  eapply wp_mono; [by apply cas_base_spec| |intros e env1 [[Ho1 ?] ?]; by rewrite Ho1].
  intros c env1 ([Ho1 Hk1] & Hc1 & Hlc & Him).
  wp_step. apply wp_slice; [lia|lia|]. replace (done + take - done) with take by lia.
  wp_step. apply wp_copy_into; [lia|lia|lia|]. rewrite Hc1. wp_step.
  pose proof (λ body o2 He Hnc, old_or_new_put self o idx c1 Hgeo Hidx Hok body
    (objs env) o2 Hl1 He Hnc Hon) as Hput.
  eapply wp_mono; [by apply put_chunk_spec|..]; rewrite Ho1.
  - intros _ env2 (Hk2 & _ & body & He & Hp). split; [auto|].
    split; [apply (Hput body); auto|]. split; [eauto using put_done_data|].
    exists body. eauto using put_done_pool.
  - intros e env2 (Hk2 & Ho2 & Hr). split; [auto|].
    assert (Hpool : ∀ body, Comp.encode_chunk (st_compression self) c1 = Ok body →
      pool_grew self body (objs env) (objs env2)).
    { intros body He. destruct Ho2 as [->|(body' & He' & Hp)]; [|replace body with body' by congruence].
      - apply put_partial_pool. by left.
      - destruct Hp; eauto using put_partial_pool, put_done_pool. }
    split.
    { destruct Ho2 as [->|(body & He & [Hp|Hp])]; [done|apply (Hput body); auto|].
      right. apply (Hput body); auto. }
    split; [intros body He; eapply pool_grew_no_collision; eauto|].
    split.
    { destruct Ho2 as [->|(body & He & [Hp|Hp])]; [done|..];
        eauto using put_partial_data, put_done_data. }
    split; [done|]. destruct Hr as [Hn|[He|Hn]]; [left; auto| |done].
    right. split; [done|]. by eapply encode_error_kind.
Qed.

(** The whole loop, however many retries are left: on success the chunk is the
    new one; on any error it is the old or the new one, and with a healthy
    service the only error is a payload that cannot be encoded. *)
Lemma cas_loop_spec retries env :
  storable env → old_or_new self o idx c1 (objs env) →
  wp (S3.cas_loop self data idx within take done retries)
    (λ _ env', (ok env → ok env') ∧ piece_stored env env')
    (λ e env', old_or_new self o idx c1 (objs env') ∧ data_only self (objs env) (objs env') ∧
       (¬ ok env ∨ Comp.encode_chunk (st_compression self) c1 = Err e)) env.
Proof using All.
  revert env. induction retries as [|retries IH]; intros env Hnc Hon; simpl; wp_step;
    (eapply wp_mono; [by apply cas_attempt_spec| |naive_solver]);
    intros [[]|e] env1 [Hk Hr]; try (by wp_step);
    destruct Hr as (Hon1 & Hnc1 & Hda & Hp & Hr).
  - wp_step. naive_solver.
  - destruct (S3.is_precondition_failed e) eqn:Hpf; [|wp_step; naive_solver].
    destruct Hr as [Hn|[_ ?]]; [|congruence].
    eapply wp_mono; [by apply IH|..].
    + intros _ env2 [Hk2 (Hv & Hda2 & body & He & Hpool)]. split; [auto|]. split; [done|].
      split; [by etrans|].
      exists body. split; [done|]. intros Hm h p et Hh Hl.
      apply Hpool in Hl as [[et' Hl]|?]; [by eapply Hp|by right|done|done].
    + intros e2 env2 (? & ? & _). split; [done|]. split; [by etrans|auto].
Qed.
End attempt.

(** ** Block I/O *)
Lemma read_at_spec self off buf env :
  geometry self → chunks_ok self (objs env) → 0 ≤ off →
  wp (S3.read_at self off buf)
    (λ buf' env', quiet env env' ∧ off + Zlen buf ≤ st_capacity self ∧
       Zlen buf' = Zlen buf ∧ filled (byte_view self (objs env)) off (Zlen buf) buf')
    (λ e env', quiet env env' ∧
       (¬ off + Zlen buf ≤ st_capacity self ∧ e = OutOfRange off (Zlen buf) (st_capacity self)
        ∨ ¬ ok env)) env.
Proof.
  intros Hgeo Hok Hoff. pose proof (ge_cap _ Hgeo) as Hcap. pose proof (ge_chunk _ Hgeo).
  pose proof (Zlen_nonneg buf). unfold S3.read_at. wp_step.
  rewrite check_range_spec by done. case_decide; [wp_step|split; [reflexivity|by left]].
  eapply wp_mono; [apply (wp_chunk_loop (λ done bf env', quiet env env' ∧ Zlen bf = Zlen buf ∧
      filled (byte_view self (objs env)) off done bf)
      (λ _ env', quiet env env' ∧ ¬ ok env))|naive_solver|naive_solver]; [lia|lia|..].
  { split; [reflexivity|]. rewrite Zlen_zeros by lia. split; [done|]. intros i ?; lia. }
  intros done bf env1 Hd (Hq & Hl & Hf). destruct Hq as [Ho Hk].
  destruct (piece_bounds (st_chunk_size self) off (Zlen buf) done) as (Hw&Ht&Hwt); [lia..|].
  set (tk := piece_take _ _ _ _) in *.
  assert (Hidx : is_u64 ((off + done) / st_chunk_size self)).
  { unfold is_u64 in *. split; [apply Z.div_pos; lia|].
    transitivity (off + done); [|lia]. apply Z.div_le_upper_bound; nia. }
  destruct (Hok _ Hidx) as [c0 Hc0].
  wp_step. eapply wp_mono; [apply get_chunk_spec|..]; rewrite Ho.
  2: { intros e env2 [[Ho2 Hk2] [Hn|?]]; [|congruence].
       split; [split; [congruence|auto]|auto]. }
  intros [c et] env2 ([Ho2 Hk2] & Hv & _). simpl in *.
  pose proof (chunk_view_length self (objs env) _ c ltac:(lia) Hv) as Hlc.
  wp_step. apply wp_slice; [lia|lia|]. set (src := sub c _ _).
  assert (Zlen src = tk) as Hsl by (unfold src; rewrite Zlen_sub; lia).
  apply wp_copy_into; [lia|lia|lia|].
  split; [split; [congruence|auto]|]. rewrite Zlen_splice by lia. split; [done|].
  rewrite <-Hsl at 1. apply filled_splice; [lia|lia|done|]. intros j Hj.
  destruct (piece_addr (st_chunk_size self) off (Zlen buf) done j) as [Hq Hr];
    [lia|lia|fold tk; lia|].
  unfold byte_view. rewrite Hq, Hr, decide_True, Hv by done. unfold src. apply nthb_sub; lia.
Qed.

(** How far a write has come after [done] bytes. *)
Record write_progress self o (off : Z) (data : bytes) (done : Z) o' : Prop := {
  wpr_ok : chunks_ok self o';
  wpr_bytes i : 0 ≤ i → byte_view self o' i =
    if decide (off ≤ i < off + done) then nthb data (i - off) else byte_view self o i;
  wpr_chunks j : is_u64 j → chunk_view self o' j = chunk_view self o j ∨
    chunk_view self o' j = Ok (patched_chunk self o off data j);
  wpr_pool : st_storage self = Cow → ∀ h p et, Snap.is_hash h →
    o' !! Keys.object_key self h = Some (p, et) →
    (∃ et', o !! Keys.object_key self h = Some (p, et')) ∨
    ∃ j, is_u64 j ∧ h = blake3 p ∧
      Comp.encode_chunk (st_compression self) (patched_chunk self o off data j) = Ok p
}.

(** Each chunk of the volume is the one before the write or the one after it. *)
Definition chunkwise self o (off : Z) (data : bytes) o' : Prop :=
  ∀ j, is_u64 j → chunk_view self o' j = chunk_view self o j ∨
    chunk_view self o' j = Ok (patched_chunk self o off data j).

(** The next piece turns its chunk into the patched one. *)
Lemma piece_patched self o off data done o' c0 :
  geometry self → 0 ≤ off → 0 ≤ done < Zlen data → is_u64 ((off + done) / st_chunk_size self) →
  write_progress self o off data done o' →
  let idx := (off + done) / st_chunk_size self in
  let within := (off + done) mod st_chunk_size self in
  let take := piece_take (st_chunk_size self) off (Zlen data) done in
  chunk_view self o' idx = Ok c0 →
  splice c0 within (sub data done take) = patched_chunk self o off data idx.
Proof.
  intros Hgeo Hoff Hd Hidx Hpr idx within take Hc0. pose proof (ge_chunk _ Hgeo).
  pose proof (chunk_view_length self o' idx c0 ltac:(lia) Hc0) as Hl0.
  destruct (piece_bounds (st_chunk_size self) off (Zlen data) done) as (Hw&Ht&Hwt); [lia..|].
  fold within take in Hw, Ht, Hwt.
  pose proof (Z.div_mod (off + done) (st_chunk_size self) ltac:(lia)) as Hdm.
  fold idx within in Hdm. unfold piece_take in take. fold within in take.
  assert (Hsl : Zlen (sub data done take) = take) by (rewrite Zlen_sub; lia).
  apply bytes_ext; rewrite Zlen_splice by lia; [rewrite Zlen_patched_chunk; lia|].
  intros i Hi. rewrite nthb_patched_chunk, nthb_splice by lia.
  pose proof (wpr_bytes _ _ _ _ _ _ Hpr (idx * st_chunk_size self + i)) as Hb.
  rewrite (byte_view_chunk self o' idx i c0) in Hb by (done || lia).
  assert (0 ≤ idx * st_chunk_size self) by (apply Z.mul_nonneg_nonneg; [apply Hidx|lia]).
  unfold byte_patched. rewrite Hsl. destruct (decide (within ≤ i < within + take)).
  - rewrite decide_True by lia. rewrite nthb_sub by lia. f_equal. lia.
  - rewrite Hb by lia. repeat case_decide; try done; lia.
Qed.

Lemma write_progress_step self o off data done o' o'' body c0 :
  geometry self → 0 ≤ off → 0 ≤ done < Zlen data → is_u64 ((off + done) / st_chunk_size self) →
  write_progress self o off data done o' →
  let idx := (off + done) / st_chunk_size self in
  let within := (off + done) mod st_chunk_size self in
  let take := piece_take (st_chunk_size self) off (Zlen data) done in
  let c1 := splice c0 within (sub data done take) in
  chunk_view self o' idx = Ok c0 → view_replaced self o' o'' idx c1 →
  Comp.encode_chunk (st_compression self) c1 = Ok body → pool_grew self body o' o'' →
  write_progress self o off data (done + take) o''.
Proof.
  intros Hgeo Hoff Hd Hidx Hpr idx within take c1 Hc0 Hv He Hp.
  pose proof (ge_chunk _ Hgeo).
  destruct (piece_bounds (st_chunk_size self) off (Zlen data) done) as (Hw&Ht&Hwt); [lia..|].
  fold within take in Hw, Ht, Hwt.
  pose proof (Z.div_mod (off + done) (st_chunk_size self) ltac:(lia)) as Hdm.
  fold idx within in Hdm.
  assert (Hsl : Zlen (sub data done take) = take) by (rewrite Zlen_sub; lia).
  assert (Hc1 : c1 = patched_chunk self o off data idx)
    by (by apply (piece_patched self o off data done o')).
  constructor.
  - eapply view_replaced_ok; [by eapply wpr_ok|done].
  - intros i Hi. unfold c1 in Hv.
    rewrite (view_replaced_bytes self o' o'' idx within (sub data done take) c0 i)
      by (done || lia).
    rewrite (wpr_bytes _ _ _ _ _ _ Hpr) by done. rewrite Hsl.
    replace (idx * st_chunk_size self + within) with (off + done) by lia.
    destruct (decide (off + done ≤ i < off + done + take)).
    + rewrite decide_True by lia. rewrite nthb_sub by lia. f_equal. lia.
    + repeat case_decide; try done; lia.
  - intros j Hj. destruct Hv as [Hv Hr]. destruct (decide (j = idx)) as [->|].
    + right. by rewrite Hv, Hc1.
    + rewrite Hr by done. by apply (wpr_chunks _ _ _ _ _ _ Hpr).
  - intros Hm h p et Hh Hl. apply Hp in Hl as [[et' Hl]|[-> ->]]; [|right|done|done].
    + by eapply (wpr_pool _ _ _ _ _ _ Hpr).
    + exists idx. rewrite <-Hc1. done.
Qed.

Lemma div_u64 a cs : 0 < cs → 0 ≤ a ≤ u64_max → is_u64 (a / cs).
Proof.
  intros. split; [apply Z.div_pos; lia|]. transitivity a; [|lia].
  apply Z.div_le_upper_bound; nia.
Qed.

Lemma write_at_spec self off data env :
  geometry self → chunks_ok self (objs env) → 0 ≤ off →
  write_admissible self (objs env) off data →
  wp (S3.write_at self off data)
    (λ _ env', (ok env → ok env') ∧ off + Zlen data ≤ st_capacity self ∧
       write_progress self (objs env) off data (Zlen data) (objs env') ∧
       data_only self (objs env) (objs env'))
    (λ e env', data_only self (objs env) (objs env') ∧
       chunks_ok self (objs env') ∧ chunkwise self (objs env) off data (objs env') ∧
       (¬ off + Zlen data ≤ st_capacity self ∧ env' = env ∧
          e = OutOfRange off (Zlen data) (st_capacity self)
        ∨ off + Zlen data ≤ st_capacity self ∧
          (¬ ok env ∨ ∃ p, Zlen p = st_chunk_size self ∧
             Comp.encode_chunk (st_compression self) p = Err e))) env.
Proof.
  intros Hgeo Hok Hoff Hadm. pose proof (ge_cap _ Hgeo) as Hcap. pose proof (ge_chunk _ Hgeo).
  pose proof (Zlen_nonneg data). unfold S3.write_at. wp_step.
  rewrite check_range_spec by done.
  case_decide as Hr; [wp_step|].
  2: { split; [reflexivity|]. split; [done|]. split; [intros ??; by left|by left]. }
  eapply wp_mono; [apply (wp_chunk_loop
    (λ done _ env', (ok env → ok env') ∧ write_progress self (objs env) off data done (objs env') ∧
       data_only self (objs env) (objs env'))
    (λ e env', data_only self (objs env) (objs env') ∧ chunks_ok self (objs env') ∧ chunkwise self (objs env) off data (objs env') ∧
       (¬ ok env ∨ ∃ p, Zlen p = st_chunk_size self ∧
             Comp.encode_chunk (st_compression self) p = Err e)))
    |naive_solver|naive_solver]; [lia|lia|..].
  { split; [done|]. split; [|reflexivity]. constructor; [done|..|by eauto|by eauto].
    intros i _. by rewrite decide_False by lia. }
  intros done [] env1 Hd (Hk & Hpr & Hda).
  destruct (piece_bounds (st_chunk_size self) off (Zlen data) done) as (Hw&Ht&Hwt); [lia..|].
  assert (Hidx : is_u64 ((off + done) / st_chunk_size self))
    by (apply div_u64; unfold is_u64 in *; lia).
  destruct (wpr_ok _ _ _ _ _ _ Hpr _ Hidx) as [c0 Hc0].
  pose proof (piece_patched self (objs env) off data done (objs env1) c0
    Hgeo Hoff Hd Hidx Hpr Hc0) as Hc1.
  set (tk := piece_take _ _ _ _) in *.
  eapply wp_mono; [eapply (cas_loop_spec self (objs env1) data _ _ tk done c0);
    [done..|by eapply wpr_ok|done|lia|lia| |by left]|..].
  - intros body He. rewrite Hc1 in He. intros Hm p et Hl.
    destruct (Hadm Hm _ _ Hidx He) as [Hnc Hinj].
    apply (wpr_pool _ _ _ _ _ _ Hpr) in Hl as [[et' Hl]|(j & Hj & Hh & He')];
      [by eapply Hnc| |done|apply blake3_length]. symmetry. by eapply Hinj.
  - intros _ env2 (Hk2 & Hv & Hda2 & body & He & Hp). split; [auto|].
    split; [by eapply write_progress_step|by etrans].
  - intros e env2 (Hon & Hda2 & Hn). split; [by etrans|]. split; [eapply old_or_new_ok; [by eapply wpr_ok|exact Hon]|]. split.
    + intros j Hj. destruct Hon as [Hv|[Hv Hrep]].
      * rewrite Hv by done. by apply (wpr_chunks _ _ _ _ _ _ Hpr).
      * destruct (decide (j = (off + done) / st_chunk_size self)) as [->|].
        -- right. by rewrite Hv, Hc1.
        -- rewrite Hrep by done. by apply (wpr_chunks _ _ _ _ _ _ Hpr).
    + destruct Hn as [Hn|He]; [left; auto|]. right. eexists. split; [|exact He].
      rewrite Hc1. apply Zlen_patched_chunk. lia.
Qed.

(** ** Listing and deletion *)
Lemma push_index_elem p acc l idx :
  idx ∈ foldl (S3.push_index p) acc l ↔ idx ∈ acc ∨
  ∃ obj, obj ∈ l ∧ Keys.parse_chunk_index_from_key p (default "" (lo_key obj)) = Some idx.
Proof.
  revert acc. induction l as [|obj l IH]; intros acc; simpl; [set_solver|].
  rewrite IH. unfold S3.push_index.
  destruct (Keys.parse_chunk_index_from_key p (default "" (lo_key obj))) as [i|] eqn:Hp;
    [rewrite elem_of_app, list_elem_of_singleton|]; set_solver.
Qed.

Lemma listing_elem o p obj :
  obj ∈ listing o p None ↔ ∃ k v, o !! k = Some v ∧ starts_with p k = true ∧ obj = listed (k, v).
Proof.
  rewrite listing_all. unfold under_prefix. rewrite list_elem_of_fmap. split.
  - intros ([k v] & -> & [Hs Hin%elem_of_map_to_list]%list_elem_of_filter). eauto.
  - intros (k & v & Hl & Hs & ->). exists (k, v). split; [done|].
    apply list_elem_of_filter. split; [done|]. by apply elem_of_map_to_list.
Qed.

Lemma list_chunk_indices_spec p env :
  ends_with "/" p = true →
  wp (S3.list_chunk_indices p)
    (λ l env', quiet env env' ∧ StronglySorted Z.lt l ∧
       ∀ idx, idx ∈ l ↔ ∃ k v, objs env !! k = Some v ∧
         Keys.parse_chunk_index_from_key p k = Some idx)
    (λ e env', quiet env env' ∧ ¬ ok env) env.
Proof.
  intros Hp. unfold S3.list_chunk_indices. rewrite Hp. wp_step.
  apply wp_unobserved, wp_run_on_runtime. eapply wp_mono; [apply list_pages_spec|..].
  - intros l b' (Ho & Hh & Ht & ->). split; [done|]. split.
    + intros env' <-. wp_step. split; [by split|]. split; [apply dedup_sorted, sort_unstable_sorted|].
      intros idx. rewrite dedup_elem, sort_unstable_elem, push_index_elem. split.
      * intros [?%elem_of_nil|(obj & (k & v & Hk & Hs & ->)%listing_elem & Hi)]; [done|]. eauto.
      * intros (k & v & Hk & Hi). right. exists (listed (k, v)). split; [|done].
        apply listing_elem. exists k, v. split; [done|]. split; [|done].
        unfold Keys.parse_chunk_index_from_key in Hi.
        apply bind_Some in Hi as (r & ->%strip_prefix_Some & _). apply starts_with_app.
    + intros Hn e env' <-. split; [|done]. by split.
  - intros e b' (Ho & Hn). split; [done|]. split; [|intros _ e']; intros env' <-; by split.
Qed.

(** A chunk that is not listed reads as zeros. *)
Lemma chunk_view_listed self o idx :
  is_u64 idx → chunk_view self o idx ≠ Ok (zeros (st_chunk_size self)) →
  ∃ k v, o !! k = Some v ∧
    Keys.parse_chunk_index_from_key (Keys.chunks_prefix self) k = Some idx.
Proof.
  intros Hidx. unfold chunk_view, Keys.chunks_prefix, Keys.chunk_key.
  destruct (st_storage self) eqn:Hm.
  - destruct (o !! Keys.legacy_chunk_key self idx) eqn:Hk1.
    { intros _. eauto using Keys.parse_legacy_key. }
    destruct (o !! Keys.legacy_flat_chunk_key self idx) eqn:Hk2; [|done].
    intros _. eauto using Keys.parse_flat_key.
  - unfold Keys.chunks_prefix. rewrite Hm. rewrite <-str_app_assoc.
    destruct (o !! _) as [[ptr e]|] eqn:Hk1; [|done].
    intros _. eauto using Keys.parse_cow_key.
Qed.

Lemma chunks_prefix_slash self : ends_with "/" (Keys.chunks_prefix self) = true.
Proof.
  unfold Keys.chunks_prefix. destruct (st_storage self).
  - change "/chunks/" with ("/chunks" +:+ "/"). rewrite str_app_assoc. apply ends_with_app.
  - change "/live/chunks/" with ("/live/chunks" +:+ "/"). rewrite str_app_assoc. apply ends_with_app.
Qed.

Lemma present_chunks_spec self env :
  wp (S3.present_chunks self)
    (λ l env', quiet env env' ∧ StronglySorted Z.lt l ∧ Forall is_u64 l ∧
       ∀ idx, is_u64 idx → chunk_view self (objs env) idx ≠ Ok (zeros (st_chunk_size self)) →
         idx ∈ l)
    (λ e env', quiet env env' ∧ ¬ ok env) env.
Proof.
  unfold S3.present_chunks. eapply wp_mono;
    [apply list_chunk_indices_spec, chunks_prefix_slash| |done].
  intros l env' (Hq & Hs & Hin). split; [done|]. split; [done|]. split.
  - rewrite Forall_forall. intros idx (k & v & _ & Hp)%Hin.
    by eapply Keys.parse_chunk_index_range.
  - intros idx Hidx Hne. apply Hin. by apply chunk_view_listed.
Qed.

(** Objects outside a chunk's own keys do not show in it. *)
Lemma chunk_view_agree self o o' idx :
  (st_storage self = Legacy →
     o' !! Keys.legacy_chunk_key self idx = o !! Keys.legacy_chunk_key self idx ∧
     o' !! Keys.legacy_flat_chunk_key self idx = o !! Keys.legacy_flat_chunk_key self idx) →
  (st_storage self = Cow →
     o' !! Keys.chunk_key self idx = o !! Keys.chunk_key self idx ∧
     ∀ h, o' !! Keys.object_key self h = o !! Keys.object_key self h) →
  chunk_view self o' idx = chunk_view self o idx.
Proof.
  unfold chunk_view. intros HL HC. destruct (st_storage self).
  - by destruct (HL eq_refl) as [-> ->].
  - destruct (HC eq_refl) as [-> Ho]. destruct (o !! Keys.chunk_key self idx) as [[ptr e]|]; [|done].
    unfold mbind, outcome_bind. destruct (Snap.decode_pointer ptr); try done. by rewrite Ho.
Qed.

Lemma delete_chunk_spec self idx env :
  is_u64 idx →
  wp (S3.delete_chunk self idx)
    (λ _ env', (ok env → ok env') ∧
       view_replaced self (objs env) (objs env') idx (zeros (st_chunk_size self)) ∧
       data_only self (objs env) (objs env'))
    (λ e env', ¬ ok env) env.
Proof.
  intros Hidx. unfold S3.delete_chunk, S3.delete_chunk_object.
  pose proof (Keys.sharded_not_flat self) as Hsf.
  destruct (st_storage self) eqn:Hm.
  - wp_step. eapply wp_mono; [apply delete_spec| |naive_solver].
    intros _ env1 [Hk1 Ho1]. eapply wp_mono; [apply delete_spec| |naive_solver].
    intros _ env2 [Hk2 Ho2]. split; [auto|]. rewrite Ho2, Ho1. split; [split|].
    + unfold chunk_view. rewrite Hm, lookup_delete_ne by (symmetry; apply Hsf).
      by rewrite !lookup_delete_eq.
    + intros j Hj Hne. apply chunk_view_agree; [|congruence]. intros _.
      rewrite !lookup_delete_ne; try done; try apply Hsf; try (symmetry; apply Hsf);
        [intros ?%Keys.legacy_flat_key_inj|intros ?%Keys.legacy_chunk_key_inj]; auto.
    + constructor; [|congruence]. intros k Hc _. destruct (Hc idx) as (? & ? & _).
      by rewrite !lookup_delete_ne.
  - eapply wp_mono; [apply delete_spec| |naive_solver].
    intros _ env1 [Hk1 Ho1]. split; [auto|]. rewrite Ho1.
    assert (Hobj : ∀ h, Keys.chunk_key self idx ≠ Keys.object_key self h)
      by (intros h Heq; symmetry in Heq; by eapply cow_chunk_key_not_object).
    split; [split|].
    + unfold chunk_view. by rewrite Hm, lookup_delete_eq.
    + intros j Hj Hne. apply chunk_view_agree; [congruence|]. intros _.
      rewrite lookup_delete_ne by (intros ?%cow_chunk_key_inj; auto). split; [done|].
      intros h. by rewrite lookup_delete_ne.
    + constructor.
      * intros k Hc _. destruct (Hc idx) as (_ & _ & ?). by rewrite lookup_delete_ne.
      * intros _ h p et _ Hl. rewrite lookup_delete_ne by done. eauto.
Qed.

(** ** Metadata *)
Lemma put_meta_spec `{!JsonLaws} self meta env :
  wp (S3.put_meta self meta)
    (λ _ env', (ok env → ok env') ∧ ∃ body et, meta_from_json body = inl meta ∧
       objs env' = <[Keys.meta_key self := (body, et)]> (objs env))
    (λ e env', ¬ ok env ∧ (ok env → ok env') ∧ (objs env' = objs env ∨
       ∃ body et, objs env' = <[Keys.meta_key self := (body, et)]> (objs env))) env.
Proof.
  unfold S3.put_meta. destruct (meta_json_roundtrip meta) as (body & -> & Hb).
  apply wp_observed, wp_run_on_runtime. unfold S3.sdk_err. apply wp_map_err.
  eapply wp_mono; [apply put_law|..].
  - intros _ b' (Hh & _ & etag & Ho). split; [naive_solver|]. split.
    + intros env' <-. split; [unfold ok; naive_solver|]. by exists body, etag.
    + intros Hn e env' <-. split; [done|]. split; [done|]. right. by exists body, etag.
  - intros e b' (Hh & Ho & Hr). assert (¬ healthy (env_svc env)) by (destruct Hr as [?|[[] _]]; done).
    split; [naive_solver|]. split; [|intros _ e']; intros env' <-; (split; [done|]; split; [done|]);
      destruct Ho as [?|[et ?]]; eauto.
Qed.

Lemma meta_key_not_chunk self idx h :
  (st_storage self = Legacy → Keys.meta_key self ≠ Keys.legacy_chunk_key self idx ∧
     Keys.meta_key self ≠ Keys.legacy_flat_chunk_key self idx) ∧
  (st_storage self = Cow → Keys.meta_key self ≠ Keys.chunk_key self idx) ∧
  Keys.meta_key self ≠ Keys.object_key self h.
Proof.
  unfold Keys.meta_key, Keys.chunk_key, Keys.chunks_prefix.
  destruct (st_storage self); (split; [intros Hm|split; [intros Hm|]]); try done;
    try split; try rewrite <-str_app_assoc; Keys.key_neq.
Qed.

Lemma meta_insert_same self o v : view_same self o (<[Keys.meta_key self := v]> o).
Proof.
  intros j _. apply chunk_view_agree; intros Hm.
  - destruct (proj1 (meta_key_not_chunk self j []) Hm).
    by rewrite !lookup_insert_ne by done.
  - destruct (meta_key_not_chunk self j []) as (_ & Hk & _).
    rewrite lookup_insert_ne by auto. split; [done|]. intros h.
    rewrite lookup_insert_ne; [done|]. by apply (meta_key_not_chunk self j h).
Qed.
End view.
End S3Spec.
