(* ===== verification/S3Block.v ===== *)
(** * The S3 chunk store implements the block-store contract

    [S3.state] with the service laws, the codecs' round trips, the digest
    length and the JSON round trips satisfies [BlockStoreLaws]: the refinement
    from objects in a bucket to a linear array of bytes. *)
From S2P Require Import Prelude Text Store Compression Snapshot S3Api S3Keys S3Store S3Spec.
#[local] Open Scope string_scope.
#[local] Open Scope list_scope.
#[local] Open Scope Z_scope.

Module S3Block.
Section laws.
Context {B : Type} `{S3Laws B} `{CodecLaws} `{Blake3Laws} `{JsonLaws}.
Implicit Types (s : S3.state B) (self : S3ChunkStore).
Import S3Spec.

Definition s_objs s : object_map := objs (S3.s_env s).

Record s3_invariant s : Prop := {
  si_geometry : geometry (S3.s_store s);
  si_chunks : chunks_ok (S3.s_store s) (s_objs s);
  si_tail i : st_capacity (S3.s_store s) ≤ i →
    byte_view (S3.s_store s) (s_objs s) i = Byte.x00
}.

(** Every chunk-sized payload can be encoded. *)
Definition encodes self : Prop := ∀ p, Zlen p = st_chunk_size self →
  ∃ body, Comp.encode_chunk (st_compression self) p = Ok body.

#[global] Instance s3_model : BlockStoreModel (S3.state B) := {
  invariant := s3_invariant;
  ready := λ s, ok (S3.s_env s) ∧ encodes (S3.s_store s);
  content := λ s, byte_view (S3.s_store s) (s_objs s);
  admissible := λ s, write_admissible (S3.s_store s) (s_objs s)
}.

Lemma wp_on_env {A} (f : S3ChunkStore → M (Env B) StoreError A) Q R s :
  wp (f (S3.s_store s)) (λ a env, Q a (S3.with_env env s)) (λ e env, R e (S3.with_env env s))
    (S3.s_env s) →
  wp (S3.on_env f) Q R s.
Proof. intros Hwp. unfold S3.on_env. by apply wp_zoom. Qed.

(** The invariant only looks at the chunks. *)
Lemma invariant_same s env' :
  s3_invariant s → view_same (S3.s_store s) (s_objs s) (objs env') →
  s3_invariant (S3.with_env env' s).
Proof.
  intros [] Hv. constructor; simpl; [done|by eapply view_same_ok|].
  intros i Hi. unfold s_objs. simpl. rewrite (view_same_bytes _ _ _ _ Hv). by apply si_tail0.
Qed.

Lemma same_volume_view s env' :
  view_same (S3.s_store s) (s_objs s) (objs env') → (ok (S3.s_env s) → ok env') →
  same_volume s (S3.with_env env' s).
Proof.
  intros Hv Hk. constructor; simpl; [done|done| |naive_solver].
  intros i _. by apply view_same_bytes.
Qed.

Lemma quiet_same s env' : quiet (S3.s_env s) env' → view_same (S3.s_store s) (s_objs s) (objs env').
Proof. intros [Ho _] j _. unfold s_objs. by rewrite Ho. Qed.

Lemma law_read_s3 s off buf : s3_invariant s → 0 ≤ off →
  wp (Store.read_at off buf)
    (λ buf' s', s3_invariant s' ∧ same_volume s s' ∧ in_range s off (Zlen buf) ∧
       Zlen buf' = Zlen buf ∧ ∀ i, 0 ≤ i < Zlen buf → nthb buf' i = content s (off + i))
    (λ e s', s3_invariant s' ∧ same_volume s s' ∧
       (range_error s off (Zlen buf) e ∨ ¬ ready s)) s.
Proof.
  intros Hinv Hoff. simpl. apply wp_on_env.
  eapply wp_mono; [apply read_at_spec; [by destruct Hinv..|done]|..].
  - intros buf' env' (Hq & Hr & Hl & Hf). pose proof (quiet_same _ _ Hq). destruct Hq.
    split; [by apply invariant_same|]. split; [by apply same_volume_view|]. done.
  - intros e env' (Hq & Hr). pose proof (quiet_same _ _ Hq). destruct Hq.
    split; [by apply invariant_same|]. split; [by apply same_volume_view|].
    destruct Hr as [Hr|Hr]; [by left|]. right. naive_solver.
Qed.

Lemma law_write_s3 s off data : s3_invariant s → 0 ≤ off → admissible s off data →
  wp (Store.write_at off data)
    (λ _ s', s3_invariant s' ∧ in_range s off (Zlen data) ∧ written s s' off data)
    (λ e s', (range_error s off (Zlen data) e ∧ s3_invariant s' ∧ same_volume s s') ∨
             ¬ ready s) s.
Proof.
  intros Hinv Hoff Hadm. simpl. apply wp_on_env.
  eapply wp_mono; [apply write_at_spec; [by destruct Hinv..|done|done]|..].
  - intros _ env' (Hk & Hr & [Hok Hb _ _] & _). split; [|split; [done|]].
    + destruct Hinv. constructor; simpl; [done|done|]. intros i Hi.
      pose proof (ge_cap _ si_geometry0) as [? ?]. unfold s_objs. simpl.
      rewrite Hb by lia. rewrite decide_False by lia. by apply si_tail0.
    + constructor; simpl; [done|done| |naive_solver]. intros i Hi. by apply Hb.
  - intros e env' (_ & _ & _ & [(Hr & -> & He)|(Hr & Hn)]).
    + left. split; [done|]. split; [by apply invariant_same|by apply same_volume_view].
    + right. intros [Hk Henc]. destruct Hn as [?|(p & Hl & He)]; [done|].
      destruct (Henc p Hl). congruence.
Qed.

Lemma chunk_view_capacity self o n idx :
  chunk_view (S3.with_capacity n self) o idx = chunk_view self o idx.
Proof. done. Qed.

Lemma law_set_capacity_s3 s n : s3_invariant s → is_u64 n →
  wp (Store.set_capacity n)
    (λ _ s', s3_invariant s' ∧ same_shape s s' ∧ capacity s' = n ∧ capacity s ≤ n ∧
       n mod block_size s = 0 ∧ (∀ i, 0 ≤ i → content s' i = content s i) ∧
       (ready s → ready s'))
    (λ e s', (s3_invariant s' ∧ same_volume s s' ∧
              ((n mod block_size s ≠ 0) ∨ n < capacity s)) ∨ ¬ ready s) s.
Proof.
  intros Hinv Hn. simpl. unfold S3.set_capacity. wp_steps.
  pose proof (ge_block _ (si_geometry _ Hinv)) as Hbs.
  rewrite (proj2 (Z.eqb_neq (st_block_size _) 0)) by lia.
  destruct (Z.eqb_spec (n mod st_block_size (S3.s_store s)) 0); simpl.
  2: { wp_step. left. split; [done|]. split; [reflexivity|by left]. }
  destruct (Z.ltb_spec n (st_capacity (S3.s_store s))).
  { wp_step. left. split; [done|]. split; [reflexivity|by right]. }
  destruct (Z.eqb_spec n (st_capacity (S3.s_store s))); [by wp_step|].
  wp_step. apply wp_on_env. eapply wp_mono; [apply put_meta_spec| |naive_solver].
  intros _ env' [Hk (body & et & _ & Ho)]. wp_step.
  assert (view_same (S3.s_store s) (s_objs s) (objs env')) as Hv
    by (rewrite Ho; apply meta_insert_same).
  split; [|split; [done|split; [done|split; [done|split; [done|split]]]]].
  - destruct (invariant_same s env' Hinv Hv) as [[] Hc Ht]. constructor; [done|done|].
    intros i Hi. apply Ht. simpl in *. lia.
  - intros i _. simpl. by apply (view_same_bytes (S3.s_store s)).
  - simpl. naive_solver.
Qed.

Lemma law_present_s3 s : s3_invariant s →
  wp present_chunks
    (λ l s', s3_invariant s' ∧ same_volume s s' ∧ StronglySorted Z.lt l ∧ Forall is_u64 l ∧
       ∀ i, 0 ≤ i → content s i ≠ Byte.x00 → i / chunk_size s ∈ l)
    (λ _ s', ¬ ready s) s.
Proof.
  intros Hinv. simpl. apply wp_on_env. eapply wp_mono; [apply present_chunks_spec| |naive_solver].
  intros l env' (Hq & Hs & Hall & Hin). pose proof (quiet_same _ _ Hq). destruct Hq.
  split; [by apply invariant_same|]. split; [by apply same_volume_view|].
  split; [done|]. split; [done|]. intros i Hi. unfold byte_view.
  case_decide as Hu; [|done]. intros Hne. apply Hin; [done|]. intros Hz. unfold s_objs in Hne.
  rewrite Hz, nthb_zeros in Hne. done.
Qed.

Lemma law_delete_s3 s idx : s3_invariant s → is_u64 idx →
  wp (delete_chunk idx)
    (λ _ s', s3_invariant s' ∧ same_shape s s' ∧ capacity s' = capacity s ∧
       (∀ i, 0 ≤ i → content s' i =
          if decide (i / chunk_size s = idx) then Byte.x00 else content s i) ∧
       (ready s → ready s'))
    (λ _ _, ¬ ready s) s.
Proof.
  intros Hinv Hidx. simpl. apply wp_on_env.
  eapply wp_mono; [by apply delete_chunk_spec| |naive_solver].
  intros _ env' (Hk & Hv & _).
  assert (∀ i, byte_view (S3.s_store s) (objs env') i =
    if decide (i / st_chunk_size (S3.s_store s) = idx) then Byte.x00
    else byte_view (S3.s_store s) (s_objs s) i) as Hb.
  { intros i. unfold byte_view. destruct Hv as [Hv Hr]. case_decide; case_decide; try done.
    - subst. by rewrite Hv, nthb_zeros.
    - by rewrite Hr. }
  split; [|split; [done|split; [done|split; [done|naive_solver]]]].
  destruct Hinv. constructor; simpl; [done|by eapply view_replaced_ok|].
  intros i Hi. unfold s_objs. simpl. rewrite Hb. case_decide; auto.
Qed.

#[global] Instance s3_laws : BlockStoreLaws (S3.state B).
Proof.
  constructor.
  - intros s [[] ? ?]. done.
  - intros s i [] Hi. by apply si_tail0.
  - apply law_read_s3.
  - apply law_write_s3.
  - apply law_set_capacity_s3.
  - intros s Hinv. split; [done|reflexivity].
  - apply law_present_s3.
  - apply law_delete_s3.
Qed.

(** Without content addressing no write needs a side condition. *)
Lemma legacy_admissible s off data :
  st_storage (S3.s_store s) = Legacy → admissible s off data.
Proof. intros Hm Hc. simpl in *. congruence. Qed.
End laws.
End S3Block.
