(* ===== verification/S3Snap.v ===== *)
(** * Snapshots, garbage collection, migration and opening
    (src/src/store/s3.rs, second part)

    The operations above block I/O: opening a volume and probing its layout,
    snapshot creation, listing, restore, clone and deletion, collection of
    unreferenced objects, the migration from the legacy to the COW layout, and
    the bulk deletions. Methods that only read the handle take it as an
    argument; those that change a cell of it run on [S3.state]. *)
From S2P Require Import Prelude Text Store Compression Snapshot S3Api S3Keys S3Store.
#[local] Open Scope string_scope.
#[local] Open Scope list_scope.
#[local] Open Scope Z_scope.

Record PrefixObjectStats : Type := {
  ps_object_count : Z; ps_chunk_count : Z; ps_meta_count : Z; ps_other_count : Z;
  ps_total_bytes : Z; ps_chunk_bytes : Z; ps_meta_bytes : Z; ps_other_bytes : Z
}.
Record GcStats : Type := { gc_objects_deleted : Z; gc_objects_referenced : Z }.
Record RestoreStats : Type := {
  rs_pointers_written : Z; rs_pointers_deleted : Z; rs_capacity : Z
}.
Record CloneStats : Type := { cs_pointers_written : Z; cs_objects_copied : Z }.
Record MigrateStats : Type := {
  mg_chunks_migrated : Z; mg_chunks_deleted : Z; mg_note : string
}.
(** [S3StoreConfig], the fields a handle keeps. *)
Record S3StoreConfig : Type := {
  sc_prefix : string; sc_block_size : Z; sc_chunk_size : Z; sc_capacity : Z;
  sc_compression : Compression; sc_storage : StorageMode; sc_labels : VolumeLabels
}.

Module S3Snap.
Import S3.
Section ops.
Context {B : Type} `{S3Client B} `{Codecs} `{Blake3} `{Json}.
Abbreviation ME := (M (Env B) StoreError).
Abbreviation MS := (M (state B) StoreError).
Implicit Types self dest : S3ChunkStore.

(** ** Statistics *)
Definition add_stats (prefix : string) (stats : PrefixObjectStats) (obj : ListedObject)
    : PrefixObjectStats :=
  let key := default "" (lo_key obj) in
  let size := default 0 (lo_size obj) in
  let is_meta := ends_with "/meta.json" key || String.eqb key (prefix +:+ "/meta.json") in
  let is_chunk := negb is_meta && contains "/chunks/" key in
  let is_other := negb is_meta && negb is_chunk in
  {| ps_object_count := ps_object_count stats + 1;
     ps_total_bytes := ps_total_bytes stats + size;
     ps_meta_count := ps_meta_count stats + (if is_meta then 1 else 0);
     ps_meta_bytes := ps_meta_bytes stats + (if is_meta then size else 0);
     ps_chunk_count := ps_chunk_count stats + (if is_chunk then 1 else 0);
     ps_chunk_bytes := ps_chunk_bytes stats + (if is_chunk then size else 0);
     ps_other_count := ps_other_count stats + (if is_other then 1 else 0);
     ps_other_bytes := ps_other_bytes stats + (if is_other then size else 0) |}.

Definition zero_stats : PrefixObjectStats :=
  {| ps_object_count := 0; ps_chunk_count := 0; ps_meta_count := 0; ps_other_count := 0;
     ps_total_bytes := 0; ps_chunk_bytes := 0; ps_meta_bytes := 0; ps_other_bytes := 0 |}.

Definition list_prefix_stats (prefix : string) : ME PrefixObjectStats :=
  let prefix := trim_matches slash prefix in
  unobserved (list_pages (prefix +:+ "/") (add_stats prefix) zero_stats).

(** ** Pointers and references *)
Definition require_cow_store self : outcome StoreError unit :=
  match Snap.require_cow (st_storage self) (vl_volume (st_labels self)) with
  | Ok u => Ok u
  | Err msg => Err (OtherError msg)
  | Panic => Panic
  | OutOfFuel => OutOfFuel
  end.

Definition read_pointer_hash self (index : Z) : ME (option bytes) :=
  r ← get_pointer_bytes (Keys.chunk_key self index);
  match r with
  | None => mret None
  | Some (b, _) => hash ← lift (Snap.decode_pointer b); mret (Some hash)
  end.

Definition put_pointer self (index : Z) (hash : bytes) : ME unit :=
  put_bytes (Keys.chunk_key self index) (Snap.encode_pointer hash) None None.

(** [refs.sort_by_key(|r| r.index)] *)
Definition ref_le (a b : ChunkRef) : Prop := cr_index a ≤ cr_index b.
#[global] Instance ref_le_dec a b : Decision (ref_le a b).
Proof. unfold ref_le. apply _. Defined.
Definition sort_refs (refs : list ChunkRef) : list ChunkRef := merge_sort ref_le refs.

Definition collect_live_refs self : ME (list ChunkRef) :=
  _ ← lift (require_cow_store self);
  indices ← present_chunks self;
  refs ← for_each indices (λ idx refs,
    h ← read_pointer_hash self idx;
    match h with
    | Some hash => mret (refs ++ [{| cr_index := idx; cr_hash := hash |}])
    | None => mret refs
    end) [];
  mret (sort_refs refs).

(** ** Snapshots *)
Definition with_ready (m : SnapshotManifest) (count : Z) : SnapshotManifest :=
  {| sm_id := sm_id m; sm_created_at_unix := sm_created_at_unix m; sm_parent := sm_parent m;
     sm_source_volume := sm_source_volume m; sm_capacity_bytes := sm_capacity_bytes m;
     sm_chunk_size := sm_chunk_size m; sm_block_size := sm_block_size m;
     sm_compression := sm_compression m; sm_chunk_count := count;
     sm_chunks_object := sm_chunks_object m; sm_hash_algo := sm_hash_algo m;
     sm_state := Ready; sm_format_version := sm_format_version m |}.

Definition put_manifest self (id : string) (m : SnapshotManifest) : ME unit :=
  match manifest_to_json m with
  | inr e => throw (MetaError e)
  | inl body => put_bytes (Keys.snapshot_manifest_key self id) body (Some "application/json") None
  end.

Definition snapshot_create self (now : Z) (id source_volume : string) : ME SnapshotManifest :=
  _ ← lift (require_cow_store self);
  _ ← lift (Keys.validate_snapshot_id id);
  r ← get_bytes (Keys.snapshot_manifest_key self id);
  match r with
  | Some _ => throw (OtherError ("snapshot " +:+ id +:+ " already exists"))
  | None =>
      let manifest := Snap.new_creating now id source_volume (st_capacity self)
                        (st_chunk_size self) (st_block_size self) (st_compression self) in
      _ ← put_manifest self id manifest;
      refs ← collect_live_refs self;
      _ ← put_bytes (Keys.snapshot_chunks_key self id) (Snap.write_chunks_bin refs) None None;
      let manifest := with_ready manifest (Zlen refs) in
      _ ← put_manifest self id manifest;
      mret manifest
  end.

(** [a.id.cmp(&b.id)]: byte-wise order. *)
Definition id_le (a b : SnapshotManifest) : Prop := String.leb (sm_id a) (sm_id b) = true.
#[global] Instance id_le_dec a b : Decision (id_le a b).
Proof. unfold id_le. apply _. Defined.

Definition push_manifest_key (keys : list string) (obj : ListedObject) : list string :=
  let key := default "" (lo_key obj) in
  if ends_with "/manifest.json" key then keys ++ [key] else keys.

Definition parse_manifest (b : bytes) : outcome StoreError SnapshotManifest :=
  match manifest_from_json b with inl m => Ok m | inr e => Err (MetaError e) end.

Definition snapshot_list self : ME (list SnapshotManifest) :=
  _ ← lift (require_cow_store self);
  keys ← unobserved (list_pages (st_prefix self +:+ "/snapshots/") push_manifest_key []);
  out ← for_each keys (λ key out,
    r ← get_bytes key;
    match r with
    | Some (b, _) => m ← lift (parse_manifest b); mret (out ++ [m])
    | None => mret out
    end) [];
  mret (merge_sort id_le out).

Definition snapshot_get self (id : string) : ME SnapshotManifest :=
  _ ← lift (require_cow_store self);
  r ← get_bytes (Keys.snapshot_manifest_key self id);
  match r with
  | None => throw (OtherError ("snapshot " +:+ id +:+ " not found"))
  | Some (b, _) => lift (parse_manifest b)
  end.

Definition load_snapshot_refs self (id : string) : ME (list ChunkRef) :=
  r ← get_bytes (Keys.snapshot_chunks_key self id);
  match r with
  | None => throw (OtherError ("snapshot " +:+ id +:+ " chunks.bin missing"))
  | Some (b, _) => lift (fst (Snap.read_chunks_bin b))
  end.

(** ** Garbage collection *)
Definition hashes (refs : list ChunkRef) : gset bytes := list_to_set (cr_hash <$> refs).

Definition referenced_live self : ME (gset bytes) :=
  indices ← present_chunks self;
  for_each indices (λ idx (referenced : gset bytes),
    h ← read_pointer_hash self idx;
    match h with
    | Some h => mret ({[h]} ∪ referenced)
    | None => mret referenced
    end) ∅.

Definition referenced_snapshots self (referenced : gset bytes) : ME (gset bytes) :=
  ms ← snapshot_list self;
  for_each ms (λ m referenced,
    r ← attempt (load_snapshot_refs self (sm_id m));
    match r with
    | inl refs => mret (hashes refs ∪ referenced)
    | inr _ => mret referenced
    end) referenced.

(** The deletion loop: every listed object whose hash is not referenced. *)
Definition collect_object (obj_prefix : string) (referenced : gset bytes) (key : string)
    (deleted : Z) : ME Z :=
  match strip_prefix obj_prefix key with
  | None => mret deleted
  | Some rel =>
      h ← lift (Snap.hash_from_object_relpath rel);
      match h with
      | None => mret deleted
      | Some hash =>
          if bool_decide (hash ∈ referenced) then mret deleted
          else _ ← delete_object_key key; mret (deleted + 1)
      end
  end.

Definition gc_unreferenced_objects self : ME GcStats :=
  _ ← lift (require_cow_store self);
  referenced ← referenced_live self;
  referenced ← referenced_snapshots self referenced;
  let obj_prefix := st_prefix self +:+ "/objects/" in
  keys ← list_keys obj_prefix;
  deleted ← for_each keys (collect_object obj_prefix referenced) 0;
  mret {| gc_objects_deleted := deleted;
          gc_objects_referenced := Z.of_nat (size referenced) |}.

Definition snapshot_delete self (id : string) : ME GcStats :=
  _ ← lift (require_cow_store self);
  _ ← snapshot_get self id;
  _ ← delete_object_key (Keys.snapshot_chunks_key self id);
  _ ← delete_object_key (Keys.snapshot_manifest_key self id);
  gc_unreferenced_objects self.

(** ** Restore and clone *)
Definition write_pointers self (refs : list ChunkRef) : ME Z :=
  for_each refs (λ r n, _ ← put_pointer self (cr_index r) (cr_hash r); mret (n + 1)) 0.

Definition delete_pointers self (keep : gset Z) (live : list Z) : ME Z :=
  for_each live (λ idx n,
    if bool_decide (idx ∈ keep) then mret n
    else _ ← delete_chunk_object self idx; mret (n + 1)) 0.

(** The part of [snapshot_restore] that installs the recorded pointers. *)
Definition restore_pointers self (id : string) : ME (Z * Z) :=
  refs ← load_snapshot_refs self id;
  live ← present_chunks self;
  written ← write_pointers self refs;
  deleted ← delete_pointers self (list_to_set (cr_index <$> refs)) live;
  mret (written, deleted).

Definition state_str (st : SnapshotState) : string :=
  match st with Creating => "Creating" | Ready => "Ready" | Deleting => "Deleting" end.

Definition snapshot_restore (id : string) : MS RestoreStats :=
  _ ← on_env (λ self, lift (require_cow_store self));
  manifest ← on_env (λ self, snapshot_get self id);
  self ← gets s_store;
  if negb (bool_decide (sm_state manifest = Ready)) then
    throw (OtherError ("snapshot " +:+ id +:+ " is not ready ("
                       +:+ state_str (sm_state manifest) +:+ ")"))
  else if negb (sm_chunk_size manifest =? st_chunk_size self)
          || negb (sm_block_size manifest =? st_block_size self) then
    throw (GeometryMismatch "snapshot geometry does not match live volume")
  else if negb (bool_decide (sm_compression manifest = st_compression self)) then
    throw (GeometryMismatch "snapshot compression does not match live volume")
  else
    _ ← (if st_capacity self <? sm_capacity_bytes manifest
         then set_capacity (sm_capacity_bytes manifest) else mret tt);
    n ← on_env (λ self, restore_pointers self id);
    self ← gets s_store;
    mret {| rs_pointers_written := n.1; rs_pointers_deleted := n.2;
            rs_capacity := st_capacity self |}.

(** [snapshot_clone_into], source and destination in the same bucket: the state
    is the destination's, [src] is the source's handle. *)
Definition clone_ref src (r : ChunkRef) (st : Z * Z) : MS (Z * Z) :=
  d ← on_env (λ dest, get_object dest (cr_hash r));
  copied ← match d with
    | Some _ => mret st.2
    | None =>
        o ← on_env (λ _, get_object src (cr_hash r));
        match o with
        | None => throw (OtherError ("missing object for hash " +:+ Snap.hash_hex (cr_hash r)))
        | Some (body, _) =>
            _ ← on_env (λ dest, put_bytes (Keys.object_key dest (cr_hash r)) body None None);
            mret (st.2 + 1)
        end
    end;
  _ ← on_env (λ dest, put_pointer dest (cr_index r) (cr_hash r));
  mret (st.1 + 1, copied).

Definition snapshot_clone_into src (id : string) : MS CloneStats :=
  _ ← lift (require_cow_store src);
  _ ← on_env (λ dest, lift (require_cow_store dest));
  dest ← gets s_store;
  if String.eqb (st_prefix src) (st_prefix dest) then
    throw (OtherError "clone destination must be a different volume prefix")
  else if negb (st_chunk_size dest =? st_chunk_size src)
          || negb (st_block_size dest =? st_block_size src)
          || negb (bool_decide (st_compression dest = st_compression src)) then
    throw (GeometryMismatch "clone destination geometry/compression must match snapshot source")
  else
    manifest ← on_env (λ _, snapshot_get src id);
    if negb (bool_decide (sm_state manifest = Ready)) then
      throw (OtherError ("snapshot " +:+ id +:+ " is not ready"))
    else
      _ ← (if st_capacity dest <? sm_capacity_bytes manifest
           then set_capacity (sm_capacity_bytes manifest) else mret tt);
      existing ← on_env present_chunks;
      if negb (bool_decide (existing = [])) then
        throw (OtherError "clone destination must be empty (no live chunk pointers)")
      else
        refs ← on_env (λ _, load_snapshot_refs src id);
        st ← for_each refs (clone_ref src) (0, 0);
        mret {| cs_pointers_written := st.1; cs_objects_copied := st.2 |}.

(** ** Migration *)
Definition migrating_marker : bytes :=
  as_bytes ("{" +:+ quoted "state" +:+ ":" +:+ quoted "migrating" +:+ "}").

Definition migrate_chunk self (idx : Z) (n : Z * Z) : ME (Z * Z) :=
  let sharded := Keys.legacy_chunk_key self idx in
  let flat := Keys.legacy_flat_chunk_key self idx in
  r ← get_bytes sharded;
  r ← match r with
      | Some (body, _) => mret (Some body)
      | None =>
          r ← get_bytes flat;
          match r with Some (body, _) => mret (Some body) | None => mret None end
      end;
  match r with
  | None => mret n
  | Some body =>
      let hash := Snap.hash_object_bytes body in
      _ ← put_bytes (Keys.object_key self hash) body None None;
      _ ← put_bytes (st_prefix self +:+ "/live/chunks/" +:+ hex_fixed false 16 idx)
            (Snap.encode_pointer hash) None None;
      _ ← ignore (delete_object_key sharded);
      _ ← ignore (delete_object_key flat);
      mret (n.1 + 1, n.2 + 1)
  end.

Definition migrate_to_cow : MS MigrateStats :=
  self ← gets s_store;
  match st_storage self with
  | Cow =>
      _ ← on_env (λ self, ignore (delete_object_key (Keys.migrating_key self)));
      throw (OtherError "volume is already storage=cow")
  | Legacy =>
      _ ← on_env (λ self, put_bytes (Keys.migrating_key self) migrating_marker
                            (Some "application/json") None);
      indices ← on_env (λ self, list_chunk_indices (st_prefix self +:+ "/chunks/"));
      n ← on_env (λ self, for_each indices (migrate_chunk self) (0, 0));
      _ ← on_env (λ self,
            match meta_to_json (meta_of self (st_capacity self) Cow) with
            | inr e => throw (MetaError e)
            | inl body => put_bytes (Keys.live_meta_key self) body (Some "application/json") None
            end);
      _ ← modify (with_store (with_storage Cow));
      _ ← on_env (λ self, ignore (delete_object_key (Keys.flat_meta_key self)));
      _ ← on_env (λ self, ignore (delete_object_key (Keys.migrating_key self)));
      mret {| mg_chunks_migrated := n.1; mg_chunks_deleted := n.2;
              mg_note := "set volumes[].storage = " +:+ quoted "cow" +:+
                " before next restart; legacy chunks were deleted as they migrated" |}
  end.

(** ** Opening a volume *)
Definition has_migration_marker self : ME bool :=
  r ← get_bytes (Keys.migrating_key self);
  mret (match r with Some _ => true | None => false end).

Definition probe_layout self (config : StorageMode) : ME (StorageMode * option VolumeMeta) :=
  live ← get_meta_at (Keys.live_meta_key self);
  flat ← get_meta_at (Keys.flat_meta_key self);
  match live, flat with
  | Some m, _ =>
      if negb (bool_decide (vm_storage m = Cow)) then
        throw (MetaError "live/meta.json present but storage is not cow")
      else if negb (bool_decide (config = Cow)) then
        throw (GeometryMismatch ("volume meta is storage=cow; set volumes[].storage = "
                                 +:+ quoted "cow"))
      else mret (Cow, Some m)
  | None, Some m =>
      if bool_decide (vm_storage m = Cow) then
        throw (MetaError "flat meta.json claims storage=cow; expected live/ layout")
      else if bool_decide (config = Cow) then
        throw (GeometryMismatch ("volume is storage=legacy on S3; run `iscsi-s3-ctl volume "
          +:+ "migrate-cow` then set storage=" +:+ quoted "cow" +:+ " and restart"))
      else mret (Legacy, Some m)
  | None, None => mret (config, None)
  end.

Definition resolve_meta self (config_capacity : Z) (existing : option VolumeMeta) : ME Z :=
  p ← lift (Keys.plan_capacity existing config_capacity (st_chunk_size self)
              (st_block_size self) (st_compression self) (st_storage self));
  _ ← match p.2 with Some meta => put_meta self meta | None => mret tt end;
  mret p.1.

Definition handle_of (cfg : S3StoreConfig) : S3ChunkStore :=
  {| st_prefix := trim_matches slash (sc_prefix cfg); st_block_size := sc_block_size cfg;
     st_chunk_size := sc_chunk_size cfg; st_compression := sc_compression cfg;
     st_storage := sc_storage cfg; st_capacity := sc_capacity cfg; st_labels := sc_labels cfg |}.

(** [open], on the service and the handle built from [cfg]. *)
Definition open_handle (cfg : S3StoreConfig) : MS unit :=
  r ← on_env (λ self, probe_layout self (sc_storage cfg));
  _ ← modify (with_store (with_storage r.1));
  effective ← on_env (λ self, resolve_meta self (sc_capacity cfg) r.2);
  _ ← modify (with_store (with_capacity effective));
  self ← gets s_store;
  match st_storage self with
  | Cow => mret tt
  | Legacy =>
      marker ← on_env has_migration_marker;
      if (marker : bool) then _ ← migrate_to_cow; mret tt else mret tt
  end.
Definition open (cfg : S3StoreConfig) (env : Env B) : outcome StoreError unit * state B :=
  open_handle cfg {| s_store := handle_of cfg; s_env := env |}.

(** ** Bulk deletion *)
Definition delete_prefix (prefix : string) : ME Z :=
  keys ← list_keys prefix;
  for_each keys (λ key n, _ ← delete_object_key key; mret (n + 1)) 0.

Definition wipe_objects_and_snapshots self : ME (Z * Z) :=
  objects ← delete_prefix (st_prefix self +:+ "/objects/");
  snapshots ← delete_prefix (st_prefix self +:+ "/snapshots/");
  mret (objects, snapshots).
End ops.
End S3Snap.
