(* ===== verification/S3SnapSpec.v ===== *)
(** * Correctness of snapshots and garbage collection

    A snapshot pins the pointers of the live volume: [snapshot_create] records
    them without touching live data, block I/O and garbage collection keep what
    a snapshot refers to, and [snapshot_restore] puts the recorded volume back. *)
From S2P Require Import Prelude Text Store Compression Snapshot S3Api S3Keys S3Store S3Spec S3Block.
From S2P Require Import S3Snap.
#[local] Open Scope string_scope.
#[local] Open Scope list_scope.
#[local] Open Scope Z_scope.

Module SnapSpec.
Import S3Spec S3Snap.
Section spec.
Context {B : Type} `{S3Laws B} `{CodecLaws} `{Blake3Laws} `{JsonLaws}.
Implicit Types (env : Env B) (self : S3ChunkStore) (o : object_map).

(** ** The pointers of a COW volume *)
Definition pointer_hash self o (idx : Z) : option bytes :=
  match o !! Keys.chunk_key self idx with
  | None => None
  | Some (ptr, _) => match Snap.decode_pointer ptr with Ok h => Some h | _ => None end
  end.

(** What a pointer shows. *)
Definition hash_view self o (h : option bytes) : option bytes :=
  match h with
  | None => Some (zeros (st_chunk_size self))
  | Some h =>
      '(body, _) ← o !! Keys.object_key self h;
      match Comp.decode_chunk (st_compression self) body (st_chunk_size self) with
      | Ok c => Some c
      | _ => None
      end
  end.

Definition refs_map (refs : list ChunkRef) : gmap Z bytes :=
  list_to_map ((λ r, (cr_index r, cr_hash r)) <$> refs).

Lemma pointer_view self o idx c :
  st_storage self = Cow →
  chunk_view self o idx = Ok c → hash_view self o (pointer_hash self o idx) = Some c.
Proof.
  unfold chunk_view, hash_view, pointer_hash. intros ->.
  destruct (o !! Keys.chunk_key self idx) as [[ptr e]|]; [|naive_solver].
  unfold mbind, outcome_bind. destruct (Snap.decode_pointer ptr) as [h| | |]; try done.
  simpl. destruct (o !! Keys.object_key self h) as [[body e']|]; [|done]. simpl.
  by intros ->.
Qed.

Lemma view_pointer self o idx c :
  st_storage self = Cow →
  (∀ ptr e, o !! Keys.chunk_key self idx = Some (ptr, e) → ∃ h, Snap.decode_pointer ptr = Ok h) →
  hash_view self o (pointer_hash self o idx) = Some c → chunk_view self o idx = Ok c.
Proof.
  unfold chunk_view, hash_view, pointer_hash. intros -> Hp.
  destruct (o !! Keys.chunk_key self idx) as [[ptr e]|]; [|naive_solver].
  destruct (Hp ptr e eq_refl) as [h ->]. unfold mbind, outcome_bind. simpl.
  destruct (o !! Keys.object_key self h) as [[body e']|]; [|done]. simpl.
  by destruct (Comp.decode_chunk _ _ _); naive_solver.
Qed.

Lemma pointer_decodes self o idx ptr e c :
  st_storage self = Cow → chunk_view self o idx = Ok c →
  o !! Keys.chunk_key self idx = Some (ptr, e) → ∃ h, Snap.decode_pointer ptr = Ok h.
Proof.
  unfold chunk_view. intros -> Hv Hl. rewrite Hl in Hv.
  unfold mbind, outcome_bind in Hv. destruct (Snap.decode_pointer ptr); try done. eauto.
Qed.

Lemma pointer_hash_is_hash self o idx h : pointer_hash self o idx = Some h → Snap.is_hash h.
Proof.
  unfold pointer_hash. destruct (o !! _) as [[ptr e]|]; [|done].
  destruct (Snap.decode_pointer ptr) eqn:Hd; try done.
  intros [= ->]. by apply Snap.decode_pointer_hash in Hd as [? _].
Qed.

Lemma require_cow_ok self : st_storage self = Cow → require_cow_store self = Ok tt.
Proof. unfold require_cow_store, Snap.require_cow. by intros ->. Qed.

Lemma read_pointer_hash_spec self idx env :
  st_storage self = Cow → is_u64 idx → chunks_ok self (objs env) →
  wp (read_pointer_hash self idx)
    (λ h env', quiet env env' ∧ h = pointer_hash self (objs env) idx)
    (λ e env', quiet env env' ∧ ¬ ok env) env.
Proof.
  intros Hm Hidx Hok. unfold read_pointer_hash. wp_step.
  eapply wp_mono; [apply get_bytes_as_spec| |done]. intros r env1 [Hq ->].
  destruct (Hok idx Hidx) as [c Hc]. unfold pointer_hash.
  destruct (objs env !! Keys.chunk_key self idx) as [[ptr et]|] eqn:Hl; [|by wp_step].
  destruct (pointer_decodes _ _ _ _ _ _ Hm Hc Hl) as [h ->]. by wp_steps.
Qed.

(** ** Collecting the live pointers *)
Record live_refs self o (refs : list ChunkRef) : Prop := {
  lr_ok : Forall Snap.ref_ok refs;
  lr_nodup : NoDup (cr_index <$> refs);
  lr_map idx : is_u64 idx → refs_map refs !! idx = pointer_hash self o idx
}.

Lemma refs_map_Some refs idx h :
  NoDup (cr_index <$> refs) →
  refs_map refs !! idx = Some h ↔ ∃ r, r ∈ refs ∧ cr_index r = idx ∧ cr_hash r = h.
Proof.
  intros Hnd. unfold refs_map. rewrite <-elem_of_list_to_map.
  - rewrite list_elem_of_fmap. split.
    + intros (r & [= -> ->] & ?). eauto.
    + intros (r & ? & <- & <-). eauto.
  - rewrite <-list_fmap_compose. done.
Qed.

Lemma refs_map_perm refs refs' :
  NoDup (cr_index <$> refs) → refs ≡ₚ refs' → refs_map refs = refs_map refs'.
Proof.
  intros Hnd Hp. unfold refs_map. apply list_to_map_proper; [by rewrite <-list_fmap_compose|].
  by rewrite Hp.
Qed.

Lemma collect_live_refs_spec self env :
  st_storage self = Cow → chunks_ok self (objs env) →
  wp (collect_live_refs self)
    (λ refs env', quiet env env' ∧ live_refs self (objs env) refs)
    (λ e env', quiet env env' ∧ ¬ ok env) env.
Proof.
  intros Hm Hok. unfold collect_live_refs. rewrite require_cow_ok by done. wp_steps.
  unfold S3.present_chunks. eapply wp_mono;
    [apply list_chunk_indices_spec, chunks_prefix_slash| |done].
  intros l env1 ([Ho1 Hk1] & Hs & Hin). wp_step.
  eapply wp_mono; [apply (wp_for_each (λ pre post refs env', quiet env env' ∧ l = pre ++ post ∧
      Forall (λ r, cr_index r ∈ pre) refs ∧ NoDup (cr_index <$> refs) ∧
      ∀ idx h, (∃ r, r ∈ refs ∧ cr_index r = idx ∧ cr_hash r = h) ↔
        idx ∈ pre ∧ pointer_hash self (objs env) idx = Some h)
    (λ _ env', quiet env env' ∧ ¬ ok env))|..].
  - intros pre idx post refs env2 ([Ho2 Hk2] & Hl & Hpre & Hnd & Hr).
    assert (idx ∈ l) as (k & v & Hkv & Hp)%Hin by (rewrite Hl; set_solver).
    apply Keys.parse_chunk_index_range in Hp. wp_step.
    eapply wp_mono; [apply read_pointer_hash_spec; [done|done|by rewrite Ho2]|..]; rewrite ?Ho2.
    2: { intros e env3 [[Ho3 Hk3] Hn]. split; [split; [congruence|auto]|auto]. }
    intros h env3 [[Ho3 Hk3] ->]. rewrite ?Ho2.
    assert (idx ∉ pre) as Hni.
    { assert (NoDup l) as Hndl by (by apply sorted_lt_nodup).
      rewrite Hl in Hndl. apply NoDup_app in Hndl as (_ & Hd & _). intros Hi.
      eapply Hd; [done|set_solver]. }
    destruct (pointer_hash self (objs env) idx) as [h|] eqn:Hph; wp_step;
      (split; [split; [congruence|auto]|]); rewrite <-app_assoc; (split; [done|]).
    + split; [|split].
      * apply Forall_app. split; [eapply Forall_impl; [done|set_solver]|].
        repeat constructor. set_solver.
      * rewrite fmap_app. apply NoDup_app. split; [done|]. split; [|apply NoDup_singleton].
        simpl. intros x (r & -> & Hrr)%list_elem_of_fmap. rewrite Forall_forall in Hpre.
        specialize (Hpre _ Hrr). set_solver.
      * intros i h'. rewrite elem_of_app, list_elem_of_singleton.
        setoid_rewrite elem_of_app. setoid_rewrite list_elem_of_singleton.
        specialize (Hr i h'). naive_solver.
    + split; [eapply Forall_impl; [done|set_solver]|]. split; [done|].
      intros i h'. rewrite elem_of_app, list_elem_of_singleton.
      specialize (Hr i h'). naive_solver.
  - split; [done|]. split; [done|]. split; [done|]. split; [constructor|]. set_solver.
  - intros refs env2 (Hq & _ & Hpre & Hnd & Hr). wp_step. split; [done|].
    assert (sort_refs refs ≡ₚ refs) as Hperm by apply merge_sort_Permutation.
    constructor.
    + rewrite Hperm, Forall_forall. intros r Hrr. rewrite Forall_forall in Hpre.
      specialize (Hpre _ Hrr).
      split; [apply Hin in Hpre as (k & v & _ & Hp); by eapply Keys.parse_chunk_index_range|].
      eapply pointer_hash_is_hash, (Hr (cr_index r) (cr_hash r)). eauto.
    + by rewrite Hperm.
    + intros idx Hidx. rewrite <-(refs_map_perm refs) by done.
      apply option_eq. intros h. rewrite refs_map_Some, Hr by done.
      split; [naive_solver|]. intros Hph. split; [|done]. apply Hin.
      unfold pointer_hash in Hph.
      destruct (objs env !! Keys.chunk_key self idx) as [v|] eqn:Hl; [|done].
      exists (Keys.chunk_key self idx), v. split; [done|].
      unfold Keys.chunk_key, Keys.chunks_prefix. rewrite Hm, <-str_app_assoc.
      by apply Keys.parse_cow_key.
  - naive_solver.
Qed.

(** ** Snapshot documents *)
Record snapshot_holds self o (id : string) (m : SnapshotManifest) (v : gmap Z bytes) : Prop := {
  sh_manifest : ∃ body et, o !! Keys.snapshot_manifest_key self id = Some (body, et) ∧
    manifest_from_json body = inl m;
  sh_id : sm_id m = id;
  sh_state : sm_state m = Ready;
  sh_geometry : sm_chunk_size m = st_chunk_size self ∧ sm_block_size m = st_block_size self ∧
    sm_compression m = st_compression self;
  sh_refs : ∃ refs et,
    o !! Keys.snapshot_chunks_key self id = Some (Snap.write_chunks_bin refs, et) ∧
    Forall Snap.ref_ok refs ∧ NoDup (cr_index <$> refs) ∧
    Snap.vec_capacity_ok (Zlen refs) = true ∧ refs_map refs = v
}.

(** The recorded volume can be read, chunk [idx] being [f idx]. *)
Definition snapshot_shows self o (v : gmap Z bytes) (f : Z → bytes) : Prop :=
  ∀ idx, is_u64 idx → hash_view self o (v !! idx) = Some (f idx).

Lemma snapshot_hashes self o id m v idx h :
  snapshot_holds self o id m v → v !! idx = Some h → is_u64 idx ∧ Snap.is_hash h.
Proof.
  intros [_ _ _ _ (refs & et & _ & Hok & Hnd & _ & <-)] Hv.
  apply refs_map_Some in Hv as (r & Hr & <- & <-); [|done].
  rewrite Forall_forall in Hok. by apply Hok.
Qed.

(** Keys of a snapshot's two documents are apart from all data keys. *)
Lemma snapshot_key_not_data self k id :
  st_storage self = Cow →
  k = Keys.snapshot_manifest_key self id ∨ k = Keys.snapshot_chunks_key self id →
  (∀ i, k ≠ Keys.legacy_chunk_key self i ∧ k ≠ Keys.legacy_flat_chunk_key self i ∧
        k ≠ Keys.chunk_key self i) ∧
  (∀ h, k ≠ Keys.object_key self h) ∧ k ≠ Keys.meta_key self.
Proof.
  intros Hm Hk. unfold Keys.chunk_key, Keys.chunks_prefix, Keys.meta_key. rewrite Hm.
  split; [intros i|split; [intros h|]]; destruct Hk as [-> | ->]; repeat split;
    rewrite <-?str_app_assoc; Keys.key_neq.
Qed.

(** The file names tell manifests and indexes apart, whatever the ids. *)
Lemma chunks_key_not_manifest p self id : Keys.snapshot_chunks_key self id ≠ p +:+ "/manifest.json".
Proof.
  unfold Keys.snapshot_chunks_key. change "/chunks.bin" with ("/chunks" +:+ ".bin").
  change "/manifest.json" with ("/manifest." +:+ "json"). rewrite !str_app_assoc.
  intros Heq. by apply suffix_inj in Heq.
Qed.
Lemma manifest_not_chunks self id id' :
  Keys.snapshot_manifest_key self id ≠ Keys.snapshot_chunks_key self id'.
Proof. intros Heq. symmetry in Heq. by apply chunks_key_not_manifest in Heq. Qed.

Lemma hash_view_data self o o' h c :
  st_storage self = Cow → data_only self o o' → from_option Snap.is_hash True h →
  hash_view self o h = Some c → hash_view self o' h = Some c.
Proof.
  intros Hm [_ Hp] Hh. destruct h as [h|]; [|done]. simpl in *.
  destruct (o !! Keys.object_key self h) as [[body e]|] eqn:Hl; [|done]. simpl.
  by destruct (Hp Hm h body e Hh Hl) as [e' ->].
Qed.

(** Block I/O leaves every snapshot as it is. *)
Lemma snapshot_doc_data self o o' id k :
  st_storage self = Cow → data_only self o o' →
  k = Keys.snapshot_manifest_key self id ∨ k = Keys.snapshot_chunks_key self id →
  o' !! k = o !! k.
Proof.
  intros Hm [Hf _] Hk. destruct (snapshot_key_not_data self k id Hm Hk) as (Hc & Ho & _).
  apply Hf; [done|]. intros h _. apply Ho.
Qed.

Lemma snapshot_holds_data self o o' id m v :
  st_storage self = Cow → data_only self o o' →
  snapshot_holds self o id m v → snapshot_holds self o' id m v.
Proof.
  intros Hm Hd [Hman ? ? ? Hrefs].
  constructor; try done; rewrite (snapshot_doc_data self o o' id) by auto; done.
Qed.

Lemma snapshot_shows_data self o o' id m v f :
  st_storage self = Cow → data_only self o o' → snapshot_holds self o id m v →
  snapshot_shows self o v f → snapshot_shows self o' v f.
Proof.
  intros Hm Hd Hs Hsh idx Hidx. eapply hash_view_data; [done|done| |by apply Hsh].
  destruct (v !! idx) as [h|] eqn:Hv; [|done]. by eapply snapshot_hashes.
Qed.

(** ** Creation *)
Lemma put_manifest_spec self id m env :
  wp (put_manifest self id m)
    (λ _ env', (ok env → ok env') ∧ ∃ body et, manifest_from_json body = inl m ∧
       objs env' = <[Keys.snapshot_manifest_key self id := (body, et)]> (objs env))
    (λ e env', ¬ ok env ∧ (objs env' = objs env ∨ ∃ body et, manifest_from_json body = inl m ∧
       objs env' = <[Keys.snapshot_manifest_key self id := (body, et)]> (objs env))) env.
Proof.
  unfold put_manifest. destruct (manifest_json_roundtrip m) as (body & -> & Hb).
  eapply wp_mono; [apply put_bytes_spec|..].
  - intros _ env' (Hk & _ & et & Ho). eauto.
  - intros e env' (Hk & Ho & Hr). split; [destruct Hr as [?|[[] _]]; done|]. naive_solver.
Qed.

(** Writing a snapshot document does not show in the live volume. *)
Lemma snapshot_insert_same self o k id v :
  st_storage self = Cow →
  k = Keys.snapshot_manifest_key self id ∨ k = Keys.snapshot_chunks_key self id →
  view_same self o (<[k := v]> o).
Proof.
  intros Hm Hk j _. destruct (snapshot_key_not_data self k id Hm Hk) as (Hc & Ho & _).
  apply chunk_view_agree; [congruence|]. intros _.
  rewrite lookup_insert_ne by apply Hc. split; [done|]. intros h. by rewrite lookup_insert_ne.
Qed.

Lemma view_same_trans self o1 o2 o3 :
  view_same self o1 o2 → view_same self o2 o3 → view_same self o1 o3.
Proof. intros H12 H23 j Hj. by rewrite H23, H12. Qed.

Lemma hash_view_insert self o k id v h :
  st_storage self = Cow →
  k = Keys.snapshot_manifest_key self id ∨ k = Keys.snapshot_chunks_key self id →
  hash_view self (<[k := v]> o) h = hash_view self o h.
Proof.
  intros Hm Hk. destruct (snapshot_key_not_data self k id Hm Hk) as (_ & Ho & _).
  destruct h as [h|]; [|done]. simpl. by rewrite lookup_insert_ne.
Qed.

(** There are no more live pointers than objects in the bucket. *)
Lemma live_refs_size self o refs :
  st_storage self = Cow → live_refs self o refs → Zlen refs ≤ Z.of_nat (size o).
Proof.
  intros Hm [Hok Hnd Hmap]. unfold Zlen. rewrite <-size_dom.
  assert (length refs = size (list_to_set (Keys.chunk_key self <$> (cr_index <$> refs)) : gset string))
    as ->.
  { rewrite size_list_to_set; [by rewrite !length_fmap|].
    apply NoDup_fmap_2_strong; [|done]. intros i j Hi Hj Heq.
    rewrite Forall_forall in Hok.
    apply list_elem_of_fmap in Hi as (r & -> & Hr), Hj as (r' & -> & Hr').
    eapply cow_chunk_key_inj; [done| | |done]; by apply Hok. }
  apply inj_le, subseteq_size. intros k. rewrite elem_of_list_to_set, elem_of_dom.
  intros (i & -> & (r & -> & Hr)%list_elem_of_fmap)%list_elem_of_fmap.
  assert (refs_map refs !! cr_index r = Some (cr_hash r)) as Hs by (apply refs_map_Some; eauto).
  rewrite Hmap in Hs by (rewrite Forall_forall in Hok; by apply Hok).
  unfold pointer_hash in Hs. by destruct (o !! _).
Qed.

Lemma snapshot_create_spec self now id vol env :
  st_storage self = Cow → chunks_ok self (objs env) →
  Z.of_nat (size (objs env)) * 40 ≤ 2 ^ 63 - 41 →
  wp (snapshot_create self now id vol)
    (λ m env', (ok env → ok env') ∧ view_same self (objs env) (objs env') ∧
       objs env !! Keys.snapshot_manifest_key self id = None ∧
       sm_capacity_bytes m = st_capacity self ∧
       (∀ k, k ≠ Keys.snapshot_manifest_key self id → k ≠ Keys.snapshot_chunks_key self id →
          objs env' !! k = objs env !! k) ∧
       ∃ v, snapshot_holds self (objs env') id m v ∧
         ∀ idx c, is_u64 idx → chunk_view self (objs env) idx = Ok c →
           hash_view self (objs env') (v !! idx) = Some c)
    (λ e env', view_same self (objs env) (objs env') ∧
       (¬ ok env ∨ Keys.validate_snapshot_id id = Err e ∨
        is_Some (objs env !! Keys.snapshot_manifest_key self id))) env.
Proof.
  intros Hm Hok Hsize. unfold snapshot_create. rewrite require_cow_ok by done. wp_steps.
  apply wp_lift; [unfold Keys.validate_snapshot_id; by case_match| |intros e He; split; [done|auto]].
  intros _ _. wp_step. eapply wp_mono; [apply get_bytes_as_spec| |].
  2: { intros e env' [[Ho ?] ?]. rewrite Ho. split; [done|tauto]. }
  intros r env1 [[Ho1 Hk1] ->].
  destruct (objs env !! Keys.snapshot_manifest_key self id) as [x|] eqn:Hnone.
  { wp_step. rewrite Ho1. split; [done|]. right. right. eauto. }
  cbv zeta. set (m0 := Snap.new_creating _ _ _ _ _ _ _). wp_step.
  eapply wp_mono; [apply put_manifest_spec|..]; rewrite Ho1.
  2: { intros e env2 [Hn Ho2]. split; [|tauto]. destruct Ho2 as [->|(w & et & _ & ->)]; [done|].
       apply (snapshot_insert_same self _ _ id); auto. }
  intros _ env2 [Hk2 (b1 & et1 & _ & Ho2)].
  assert (Hv2 : view_same self (objs env) (objs env2))
    by (rewrite Ho2; apply (snapshot_insert_same self _ _ id); auto).
  wp_step. eapply wp_mono; [apply collect_live_refs_spec; [done|by eapply view_same_ok]|..].
  2: { intros e env3 [[Ho3 ?] ?]. rewrite Ho3. split; [done|tauto]. }
  intros refs env3 [[Ho3 Hk3] Hlr]. wp_step.
  eapply wp_mono; [apply put_bytes_spec|..]; rewrite Ho3.
  2: { intros e env4 (Hk4 & Ho4 & Hr). split; [|destruct Hr as [?|[Hf _]]; [tauto|by destruct Hf]].
       destruct Ho4 as [->|[et ->]]; [done|]. eapply view_same_trans; [done|].
       apply (snapshot_insert_same self _ _ id); auto. }
  intros _ env4 (Hk4 & _ & et4 & Ho4).
  assert (Hv4 : view_same self (objs env) (objs env4)).
  { rewrite Ho4. eapply view_same_trans; [done|]. apply (snapshot_insert_same self _ _ id); auto. }
  wp_step. eapply wp_mono; [apply put_manifest_spec|..].
  2: { intros e env5 [Hn Ho5]. split; [|tauto]. destruct Ho5 as [->|(w & et & _ & ->)]; [done|].
       eapply view_same_trans; [done|]. apply (snapshot_insert_same self _ _ id); auto. }
  intros _ env5 [Hk5 (b5 & et5 & Hb5 & Ho5)]. wp_step.
  split; [tauto|]. split; [|split; [done|split; [done|split]]].
  { rewrite Ho5. eapply view_same_trans; [done|]. apply (snapshot_insert_same self _ _ id); auto. }
  { intros k Hk1' Hk2'. by rewrite Ho5, Ho4, Ho2, !lookup_insert_ne by done. }
  exists (refs_map refs). split.
  - constructor; try done.
    + rewrite Ho5, lookup_insert_eq. eauto.
    + exists refs, et4. rewrite Ho5, lookup_insert_ne, Ho4, lookup_insert_eq by apply manifest_not_chunks.
      split; [done|]. split; [apply Hlr|]. split; [apply Hlr|]. split; [|done].
      pose proof (live_refs_size self _ _ Hm Hlr) as Hsz. rewrite Ho2 in Hsz.
      rewrite map_size_insert_None in Hsz by done.
      unfold Snap.vec_capacity_ok. apply Z.leb_le. lia.
  - intros idx c Hidx Hc. rewrite (lr_map _ _ _ Hlr) by done.
    rewrite Ho5, Ho4, !(hash_view_insert self _ _ id) by auto.
    apply pointer_view; [done|]. by rewrite Hv2.
Qed.

(** ** Listing snapshots *)
(** A loop that pushes the keys satisfying [f]. *)
Lemma foldl_push_elem {A X} (f : X → bool) (key : A → X) acc l k :
  k ∈ foldl (λ keys obj, if f (key obj) then keys ++ [key obj] else keys) acc l ↔
  k ∈ acc ∨ f k = true ∧ ∃ obj, obj ∈ l ∧ k = key obj.
Proof.
  revert acc. induction l as [|obj l IH]; intros acc; simpl.
  { setoid_rewrite elem_of_nil. naive_solver. }
  rewrite IH. setoid_rewrite elem_of_cons.
  destruct (f (key obj)) eqn:He; rewrite ?elem_of_app, ?list_elem_of_singleton; split.
  - intros [[?| ->]|(? & ob & ? & ?)]; [by left|right..]; (split; [done|]);
      [exists obj|exists ob]; auto.
  - intros [?|(? & ob & [->|?] & ->)]; [by left; left|by left; right|right].
    split; [done|]. by exists ob.
  - intros [?|(? & ob & ? & ?)]; [by left|right]. split; [done|]. exists ob. auto.
  - intros [?|(? & ob & [->|?] & ->)]; [by left|congruence|right]. split; [done|]. by exists ob.
Qed.

Lemma push_manifest_elem acc l k :
  k ∈ foldl push_manifest_key acc l ↔ k ∈ acc ∨
  ends_with "/manifest.json" k = true ∧ ∃ obj, obj ∈ l ∧ k = default "" (lo_key obj).
Proof. apply (foldl_push_elem (ends_with "/manifest.json") (λ obj, default "" (lo_key obj))). Qed.

(** Every manifest in the bucket can be parsed. *)
Definition manifests_ok self o : Prop :=
  ∀ k body et, starts_with (st_prefix self +:+ "/snapshots/") k = true →
    ends_with "/manifest.json" k = true → o !! k = Some (body, et) →
    ∃ m, manifest_from_json body = inl m.

Lemma manifest_key_listed self id :
  starts_with (st_prefix self +:+ "/snapshots/") (Keys.snapshot_manifest_key self id) = true ∧
  ends_with "/manifest.json" (Keys.snapshot_manifest_key self id) = true.
Proof.
  unfold Keys.snapshot_manifest_key. split; [|apply ends_with_app].
  unfold Keys.snapshot_prefix. rewrite str_app_assoc, <-str_app_assoc. apply starts_with_app.
Qed.

Lemma snapshot_list_spec self env :
  st_storage self = Cow →
  wp (snapshot_list self)
    (λ ms env', quiet env env' ∧
       (∀ id body et m, objs env !! Keys.snapshot_manifest_key self id = Some (body, et) →
          manifest_from_json body = inl m → m ∈ ms) ∧
       ∀ m, m ∈ ms → ∃ k body et, objs env !! k = Some (body, et) ∧
          manifest_from_json body = inl m)
    (λ e env', quiet env env' ∧ (¬ ok env ∨ ¬ manifests_ok self (objs env))) env.
Proof.
  intros Hm. unfold snapshot_list. rewrite require_cow_ok by done. wp_steps.
  apply wp_unobserved, wp_run_on_runtime. eapply wp_mono; [apply list_pages_spec|..].
  2: { intros e b' (Ho & Hn). split; [done|]. split; [|intros _ e']; intros env' <-;
         (split; [by split|by left]). }
  intros keys b' (Ho & Hh & Ht & ->). split; [done|]. split.
  2: { intros Hn e env' <-. split; [by split|by left]. }
  intros env1 <-. wp_step. set (keys := foldl _ _ _).
  eapply wp_mono; [apply (wp_for_each (λ pre post out env', quiet env env' ∧ keys = pre ++ post ∧
      (∀ k body et m, k ∈ pre → objs env !! k = Some (body, et) →
         manifest_from_json body = inl m → m ∈ out) ∧
      ∀ m, m ∈ out → ∃ k body et, objs env !! k = Some (body, et) ∧
         manifest_from_json body = inl m)
    (λ _ env', quiet env env' ∧ (¬ ok env ∨ ¬ manifests_ok self (objs env))))|..].
  - intros pre k post out env2 ([Ho2 Hk2] & Hkeys & Hin & Hout). wp_step.
    eapply wp_mono; [apply get_bytes_as_spec|..]; rewrite ?Ho2.
    2: { intros e env3 [[Ho3 Hk3] Hn]. split; [split; [congruence|tauto]|tauto]. }
    intros r env3 [[Ho3 Hk3] ->]. rewrite Ho2 in *.
    assert (quiet env env3) by (split; [congruence|tauto]).
    destruct (objs env !! k) as [[body et]|] eqn:Hl.
    2: { wp_step. rewrite <-app_assoc. split; [done|]. split; [done|]. split; [|done].
         intros k' body et m [Hk'| ->%list_elem_of_singleton]%elem_of_app; [eauto|congruence]. }
    unfold parse_manifest. destruct (manifest_from_json body) as [m|e] eqn:Hj.
    + wp_steps. rewrite <-app_assoc. split; [done|]. split; [done|]. split.
      * intros k' body' et' m' [Hk'| ->%list_elem_of_singleton]%elem_of_app Hl' Hj';
          apply elem_of_app; [left; eauto|right]. set_solver by congruence.
      * intros m' [Hm'| ->%list_elem_of_singleton]%elem_of_app; eauto.
    + wp_step. split; [done|]. right. intros Hmo.
      assert (k ∈ keys) as Hk by (rewrite Hkeys; set_solver).
      apply push_manifest_elem in Hk as [?%elem_of_nil|(He & obj & Hobj & Hkey)]; [done|].
      apply listing_elem in Hobj as (k' & v' & Hl' & Hs & ->). simpl in Hkey. subst k'.
      destruct (Hmo k body et Hs He Hl). congruence.
  - split; [by split|]. split; [done|]. set_solver.
  - intros out env2 (Hq & _ & Hin & Hout). wp_step. split; [done|].
    setoid_rewrite (merge_sort_Permutation _ out). split; [|done].
    intros id body et m Hl Hj. eapply (Hin (Keys.snapshot_manifest_key self id)); [|done|done].
    apply push_manifest_elem. right. destruct (manifest_key_listed self id) as [Hs He].
    split; [done|]. exists (listed (Keys.snapshot_manifest_key self id, (body, et))).
    split; [|done]. apply listing_elem. eauto.
  - naive_solver.
Qed.

(** ** Garbage collection *)

(** Every [chunks.bin] of the volume can be read without a panic (a count that
    overflows the allocation limit panics). *)
Definition index_ok self o (id : string) : Prop := ∀ body et,
  o !! Keys.snapshot_chunks_key self id = Some (body, et) →
  fst (Snap.read_chunks_bin body) ≠ Panic ∧ fst (Snap.read_chunks_bin body) ≠ OutOfFuel.
Definition indexes_ok self o : Prop := ∀ id, index_ok self o id.

(** Every key of the object pool is that of a hash. *)
Definition pool_ok self o : Prop := ∀ rel v,
  o !! (st_prefix self +:+ "/objects/" +:+ rel) = Some v →
  ∃ h, Snap.is_hash h ∧ rel = Snap.object_relpath h.

Lemma referenced_live_spec self env :
  st_storage self = Cow → chunks_ok self (objs env) →
  wp (referenced_live self)
    (λ R env', quiet env env' ∧
       ∀ h, h ∈ R ↔ ∃ idx, is_u64 idx ∧ pointer_hash self (objs env) idx = Some h)
    (λ e env', quiet env env' ∧ ¬ ok env) env.
Proof.
  intros Hm Hok. unfold referenced_live, S3.present_chunks. wp_step.
  eapply wp_mono; [apply list_chunk_indices_spec, chunks_prefix_slash| |done].
  intros l env1 ([Ho1 Hk1] & _ & Hin).
  eapply wp_mono; [apply (wp_for_each (λ pre post R env', quiet env env' ∧ l = pre ++ post ∧
      ∀ h, h ∈ R ↔ ∃ idx, idx ∈ pre ∧ pointer_hash self (objs env) idx = Some h)
    (λ _ env', quiet env env' ∧ ¬ ok env))|..].
  - intros pre idx post R env2 ([Ho2 Hk2] & Hl & HR). wp_step.
    assert (idx ∈ l) as (k & v & Hkv & Hp)%Hin by (rewrite Hl; set_solver).
    apply Keys.parse_chunk_index_range in Hp.
    eapply wp_mono; [apply read_pointer_hash_spec; [done|done|by rewrite Ho2]|..]; rewrite ?Ho2.
    2: { intros e env3 [[Ho3 Hk3] Hn]. split; [split; [congruence|tauto]|tauto]. }
    intros h env3 [[Ho3 Hk3] ->]. rewrite ?Ho2.
    destruct (pointer_hash self (objs env) idx) as [h|] eqn:Hph; wp_step;
      (split; [split; [congruence|tauto]|]); rewrite <-app_assoc; (split; [done|]); intros h'.
    + rewrite elem_of_union, elem_of_singleton, HR. split.
      * intros [->|(i & Hi & Hp')]; [exists idx|exists i]; set_solver.
      * intros (i & [Hi| ->%list_elem_of_singleton]%elem_of_app & Hp');
          [right; eauto|left; congruence].
    + rewrite HR. split; intros (i & Hi & Hp'); exists i; [set_solver|].
      apply elem_of_app in Hi as [Hi| ->%list_elem_of_singleton]; [done|congruence].
  - split; [done|]. split; [done|]. set_solver.
  - intros R env2 (Hq & _ & HR). split; [done|]. intros h. rewrite HR. split.
    + intros (idx & Hi & Hp). exists idx. split; [|done].
      apply Hin in Hi as (k & v & _ & Hpk). by eapply Keys.parse_chunk_index_range.
    + intros (idx & Hidx & Hp). exists idx. split; [|done]. apply Hin. unfold pointer_hash in Hp.
      destruct (objs env !! Keys.chunk_key self idx) as [v|] eqn:Hl; [|done].
      exists (Keys.chunk_key self idx), v. split; [done|].
      unfold Keys.chunk_key, Keys.chunks_prefix. rewrite Hm, <-str_app_assoc.
      by apply Keys.parse_cow_key.
  - naive_solver.
Qed.

Lemma load_snapshot_refs_spec self id env :
  index_ok self (objs env) id →
  wp (load_snapshot_refs self id)
    (λ refs env', quiet env env' ∧ ∃ body et,
       objs env !! Keys.snapshot_chunks_key self id = Some (body, et) ∧
       fst (Snap.read_chunks_bin body) = Ok refs)
    (λ e env', quiet env env' ∧ (¬ ok env ∨
       ∀ body et, objs env !! Keys.snapshot_chunks_key self id = Some (body, et) →
         fst (Snap.read_chunks_bin body) = Err e)) env.
Proof.
  intros Hi. unfold load_snapshot_refs. wp_step.
  eapply wp_mono; [apply get_bytes_as_spec| |naive_solver]. intros r env1 [Hq ->].
  destruct (objs env !! Keys.snapshot_chunks_key self id) as [[body et]|] eqn:Hl.
  - apply wp_lift; [by eapply Hi|intros refs Hr|intros e Hr]; (split; [done|]); [eauto|].
    right. intros body' et' [= <- <-]. done.
  - wp_step. split; [done|]. right. intros ?? [=].
Qed.

(** The index of an intact snapshot reads back as written. *)
Lemma snapshot_index_read self o id m v body et :
  snapshot_holds self o id m v → o !! Keys.snapshot_chunks_key self id = Some (body, et) →
  ∃ refs, fst (Snap.read_chunks_bin body) = Ok refs ∧ Forall Snap.ref_ok refs ∧
    NoDup (cr_index <$> refs) ∧ refs_map refs = v.
Proof.
  intros [_ _ _ _ (refs & et' & Hl & Hok & Hnd & Hc & Hv)] Hl'.
  assert (body = Snap.write_chunks_bin refs) as -> by congruence.
  exists refs. split; [|done].
  pose proof (Snap.read_write_chunks_bin refs [] Hok Hc) as Hr. rewrite app_nil_r in Hr.
  by rewrite Hr.
Qed.

Lemma referenced_snapshots_spec self R0 env :
  st_storage self = Cow → indexes_ok self (objs env) →
  wp (referenced_snapshots self R0)
    (λ R env', quiet env env' ∧ R0 ⊆ R ∧
       (ok env → ∀ id m v idx h, snapshot_holds self (objs env) id m v →
          v !! idx = Some h → h ∈ R) ∧
       ∀ h, h ∈ R → h ∈ R0 ∨ ∃ id body et refs,
         objs env !! Keys.snapshot_chunks_key self id = Some (body, et) ∧
         fst (Snap.read_chunks_bin body) = Ok refs ∧ h ∈ hashes refs)
    (λ e env', quiet env env' ∧ (¬ ok env ∨ ¬ manifests_ok self (objs env))) env.
Proof.
  intros Hm Hi. unfold referenced_snapshots. wp_step.
  eapply wp_mono; [by apply snapshot_list_spec| |done].
  intros ms env1 ([Ho1 Hk1] & Hall & _).
  eapply wp_mono; [apply (wp_for_each (λ pre post R env', quiet env env' ∧ R0 ⊆ R ∧
      (ok env → ∀ m v idx h, m ∈ pre → snapshot_holds self (objs env) (sm_id m) m v →
         v !! idx = Some h → h ∈ R) ∧
      ∀ h, h ∈ R → h ∈ R0 ∨ ∃ id body et refs,
        objs env !! Keys.snapshot_chunks_key self id = Some (body, et) ∧
        fst (Snap.read_chunks_bin body) = Ok refs ∧ h ∈ hashes refs)
    (λ _ _, False))|..].
  - intros pre m post R env2 ([Ho2 Hk2] & HR0 & Hin & Hout). wp_steps.
    eapply wp_mono; [apply load_snapshot_refs_spec; rewrite Ho2; by apply Hi|..]; rewrite ?Ho2.
    + intros refs env3 [[Ho3 Hk3] (body & et & Hl & Hr)]. rewrite ?Ho2 in Hl. wp_step.
      split; [split; [congruence|tauto]|]. split; [set_solver|]. split.
      * intros Hok m' v idx h [Hm'| ->%list_elem_of_singleton]%elem_of_app Hs Hv;
          apply elem_of_union; [right; by eapply Hin|left].
        destruct (snapshot_index_read _ _ _ _ _ _ _ Hs Hl) as (refs' & Hr' & _ & Hnd & <-).
        replace refs' with refs in * by congruence.
        apply refs_map_Some in Hv as (r & Hrr & _ & <-); [|done].
        unfold hashes. apply elem_of_list_to_set, list_elem_of_fmap. eauto.
      * intros h [Hh|Hh]%elem_of_union; [|by auto]. right. by exists (sm_id m), body, et, refs.
    + intros e env3 [[Ho3 Hk3] Hn]. wp_step. rewrite ?Ho2 in Hn.
      split; [split; [congruence|tauto]|]. split; [done|]. split; [|done].
      intros Hok m' v idx h [Hm'| ->%list_elem_of_singleton]%elem_of_app Hs Hv; [by eapply Hin|].
      destruct Hn as [Hn|Hn]; [tauto|]. pose proof (sh_refs _ _ _ _ _ Hs) as (refs & et & Hl & _).
      destruct (snapshot_index_read _ _ _ _ _ _ _ Hs Hl) as (refs' & Hr' & _).
      specialize (Hn _ _ Hl). congruence.
  - split; [done|]. split; [done|]. split; [intros ???? h ?%elem_of_nil; done|auto].
  - intros R env2 (Hq & HR0 & Hin & Hout). split; [done|]. split; [done|]. split; [|done].
    intros Hok id m v idx h Hs Hv. pose proof (sh_manifest _ _ _ _ _ Hs) as (body & et & Hl & Hj).
    pose proof (sh_id _ _ _ _ _ Hs) as Hid. subst id. eapply Hin; eauto.
  - done.
Qed.

(** What collection with the referenced set [R] may do: remove objects of the
    pool that are not in [R]. *)
Record swept self (R : gset bytes) o o' : Prop := {
  sw_keep h : Snap.is_hash h → h ∈ R → o' !! Keys.object_key self h = o !! Keys.object_key self h;
  sw_frame k : strip_prefix (st_prefix self +:+ "/objects/") k = None → o' !! k = o !! k;
  sw_sub k v : o' !! k = Some v → o !! k = Some v
}.

#[global] Instance swept_preorder self R : PreOrder (swept self R).
Proof.
  split; [by constructor|]. intros x y z [] []. constructor; [|intros k Hk|auto].
  - intros h ??. rewrite sw_keep1, sw_keep0 by done. done.
  - rewrite sw_frame1, sw_frame0 by done. done.
Qed.

Lemma object_key_strip self h :
  strip_prefix (st_prefix self +:+ "/objects/") (Keys.object_key self h) = Some (Snap.object_relpath h).
Proof. unfold Keys.object_key. rewrite str_app_assoc. apply strip_prefix_app. Qed.

Lemma swept_delete self R o h :
  Snap.is_hash h → h ∉ R → swept self R o (delete (Keys.object_key self h) o).
Proof.
  intros Hh HR. constructor.
  - intros h' Hh' HR'. rewrite lookup_delete_ne; [done|].
    intros Heq%Keys.object_key_inj; [|done|done]. by subst.
  - intros k Hk. rewrite lookup_delete_ne; [done|]. intros <-. by rewrite object_key_strip in Hk.
  - intros k v Hl. by apply lookup_delete_Some in Hl as [_ ?].
Qed.

Lemma collect_object_spec self R h n env :
  Snap.is_hash h →
  wp (collect_object (st_prefix self +:+ "/objects/") R (Keys.object_key self h) n)
    (λ _ env', (ok env → ok env') ∧ swept self R (objs env) (objs env') ∧
       (h ∉ R → objs env' !! Keys.object_key self h = None))
    (λ e env', ¬ ok env ∧ swept self R (objs env) (objs env')) env.
Proof.
  intros Hh. unfold collect_object.
  rewrite object_key_strip, Snap.hash_from_object_relpath_object by done. wp_steps.
  destruct (bool_decide_reflect (h ∈ R)); [wp_step; split; [done|]; split; [reflexivity|done]|].
  wp_step. eapply wp_mono; [apply delete_spec|..].
  - intros _ env' [Hk Ho]. wp_step. rewrite Ho. split; [done|].
    split; [by apply swept_delete|]. intros _. by rewrite lookup_delete_eq.
  - intros e env' [Hn Ho]. split; [done|].
    destruct Ho as [-> | ->]; [reflexivity|by apply swept_delete].
Qed.

Lemma list_keys_spec p env :
  wp (S3.list_keys p)
    (λ ks env', quiet env env' ∧
       ∀ k, k ∈ ks ↔ is_Some (objs env !! k) ∧ starts_with p k = true)
    (λ e env', quiet env env' ∧ ¬ ok env) env.
Proof.
  apply wp_unobserved, wp_run_on_runtime. eapply wp_mono; [apply list_pages_spec|..].
  2: { intros e b' (Ho & Hn). split; [done|]. split; [|intros _ e']; intros env' <-; by split. }
  intros ks b' (Ho & Hh & Ht & ->). split; [done|]. split; [|intros Hn e env' <-; by split].
  intros env' <-. split; [by split|]. intros k.
  assert (∀ acc l, k ∈ foldl (λ keys obj, match lo_key obj with
      | Some k => keys ++ [k] | None => keys end) acc l ↔
      k ∈ acc ∨ ∃ obj, obj ∈ l ∧ lo_key obj = Some k) as Hf.
  { intros acc l. revert acc. induction l as [|ob l IH]; intros acc; simpl.
    - setoid_rewrite elem_of_nil. naive_solver.
    - rewrite IH. setoid_rewrite elem_of_cons.
      destruct (lo_key ob) as [k'|] eqn:Hk; rewrite ?elem_of_app, ?list_elem_of_singleton; split.
      + intros [[?| ->]|(obj & ? & ?)]; [by left|right; exists ob; auto|right; exists obj; auto].
      + intros [?|(obj & [->|?] & ?)]; [by left; left|left; right; congruence|right; by exists obj].
      + intros [?|(obj & ? & ?)]; [by left|right; exists obj; auto].
      + intros [?|(obj & [->|?] & ?)]; [by left|congruence|right; by exists obj]. }
  rewrite Hf. split.
  - intros [?%elem_of_nil|(obj & (k' & v & Hl & Hs & ->)%listing_elem & [= ->])]; [done|].
    split; [by eexists|done].
  - intros [[v Hl] Hs]. right. exists (listed (k, v)). split; [|done]. apply listing_elem. eauto.
Qed.

(** A hash some live pointer or some snapshot index names. *)
Definition referenced self o (h : bytes) : Prop :=
  (∃ idx, is_u64 idx ∧ pointer_hash self o idx = Some h) ∨
  ∃ id body et refs, o !! Keys.snapshot_chunks_key self id = Some (body, et) ∧
    fst (Snap.read_chunks_bin body) = Ok refs ∧ h ∈ hashes refs.

Lemma swept_view self R o o' :
  st_storage self = Cow → swept self R o o' →
  (∀ idx h, is_u64 idx → pointer_hash self o idx = Some h → h ∈ R) → view_same self o o'.
Proof.
  intros Hm [Hkeep Hframe _] Hlive j Hj.
  assert (o' !! Keys.chunk_key self j = o !! Keys.chunk_key self j) as Hc.
  { apply Hframe. destruct (strip_prefix _ _) as [r|] eqn:Hs; [|done].
    apply strip_prefix_Some in Hs. exfalso. revert Hs.
    unfold Keys.chunk_key, Keys.chunks_prefix. rewrite Hm, <-!str_app_assoc.
    intros Hs. by apply String.app_inv_r in Hs. }
  unfold chunk_view. rewrite Hm, Hc. specialize (Hlive j). unfold pointer_hash in Hlive.
  destruct (o !! Keys.chunk_key self j) as [[ptr e]|]; [|done].
  destruct (Snap.decode_pointer ptr) as [h| | |] eqn:Hd; try done.
  unfold mbind, outcome_bind. rewrite Hkeep; [done|by eapply Snap.decode_pointer_hash|].
  by apply Hlive.
Qed.

Lemma gc_spec self env :
  st_storage self = Cow → chunks_ok self (objs env) →
  indexes_ok self (objs env) → pool_ok self (objs env) →
  wp (gc_unreferenced_objects self)
    (λ _ env', (ok env → ok env') ∧ view_same self (objs env) (objs env') ∧
       (∃ R, swept self R (objs env) (objs env') ∧
          (ok env → ∀ id m v idx h, snapshot_holds self (objs env) id m v →
             v !! idx = Some h → h ∈ R)) ∧
       (∀ h, Snap.is_hash h → is_Some (objs env' !! Keys.object_key self h) →
          referenced self (objs env) h))
    (λ e env', view_same self (objs env) (objs env') ∧
       (¬ ok env ∨ ¬ manifests_ok self (objs env) ∧ objs env' = objs env)) env.
Proof.
  intros Hm Hok Hi Hp. unfold gc_unreferenced_objects. rewrite require_cow_ok by done. wp_steps.
  eapply wp_mono; [by apply referenced_live_spec|..].
  2: { intros e env1 [[Ho1 Hk1] Hn]. rewrite Ho1. split; [done|by left]. }
  intros R1 env1 ([Ho1 Hk1] & HR1). wp_step.
  eapply wp_mono; [apply referenced_snapshots_spec; [done|by rewrite Ho1]|..]; rewrite ?Ho1.
  2: { intros e env2 [[Ho2 Hk2] Hn]. rewrite Ho2, Ho1. split; [done|]. naive_solver. }
  intros R2 env2 ([Ho2 Hk2] & Hsub & Hsnap & Hout). rewrite Ho1 in *. cbv zeta. wp_step.
  eapply wp_mono; [apply list_keys_spec|..]; rewrite ?Ho2.
  2: { intros e env3 [[Ho3 Hk3] Hn]. rewrite Ho3, Ho2. split; [done|left; tauto]. }
  intros ks env3 ([Ho3 Hk3] & Hks). rewrite Ho2 in *. wp_step.
  assert (Hlive : ∀ idx h, is_u64 idx → pointer_hash self (objs env) idx = Some h → h ∈ R2).
  { intros idx h Hidx Hph. apply Hsub, HR1. eauto. }
  eapply wp_mono; [apply (wp_for_each (λ pre post _ env', ks = pre ++ post ∧
      (ok env → ok env') ∧ swept self R2 (objs env) (objs env') ∧
      ∀ h, Snap.is_hash h → Keys.object_key self h ∈ pre → h ∉ R2 →
        objs env' !! Keys.object_key self h = None)
    (λ _ env', ¬ ok env ∧ swept self R2 (objs env) (objs env')))|..].
  - intros pre k post n env4 (Hl & Hk4 & Hsw & Hdel).
    assert (∃ h, Snap.is_hash h ∧ k = Keys.object_key self h) as (h & Hh & ->).
    { assert (k ∈ ks) as [[v Hv] (r & ->)%starts_with_inv]%Hks by (rewrite Hl; set_solver).
      rewrite <-str_app_assoc in Hv. destruct (Hp r v Hv) as (h & Hh & ->).
      exists h. split; [done|]. unfold Keys.object_key. by rewrite str_app_assoc. }
    eapply wp_mono; [by apply collect_object_spec|..].
    + intros _ env5 (Hk5 & Hsw5 & Hd5). rewrite <-app_assoc. split; [done|].
      split; [tauto|]. split; [by etrans|].
      intros h' Hh' [Hin|Hin%list_elem_of_singleton]%elem_of_app HR.
      * destruct (objs env5 !! Keys.object_key self h') as [v|] eqn:Hv; [|done].
        apply (sw_sub _ _ _ _ Hsw5) in Hv. by rewrite (Hdel h') in Hv.
      * apply Keys.object_key_inj in Hin; [|done|done]. subst h'. by apply Hd5.
    + intros e env5 [Hn Hsw5]. split; [tauto|by etrans].
  - split; [done|]. split; [tauto|]. rewrite Ho3. split; [reflexivity|].
    intros h _ ?%elem_of_nil. done.
  - intros n env4 (_ & Hk4 & Hsw & Hdel). wp_step. split; [done|].
    split; [by eapply swept_view|]. split; [eauto|]. intros h Hh Hs.
    destruct (decide (h ∈ R2)) as [HR|HR].
    + apply Hout in HR as [HR%HR1|HR]; [by left|by right].
    + rewrite Hdel in Hs; [by destruct Hs|done| |done]. apply Hks.
      split; [destruct Hs as [v Hv]; exists v; by apply (sw_sub _ _ _ _ Hsw)|].
      unfold Keys.object_key. rewrite str_app_assoc. apply starts_with_app.
  - intros e env4 [Hn Hsw]. split; [by eapply swept_view|by left].
Qed.

Lemma swept_snapshot self R o o' id m v f :
  st_storage self = Cow → swept self R o o' → snapshot_holds self o id m v →
  (∀ idx h, v !! idx = Some h → h ∈ R) → snapshot_shows self o v f →
  snapshot_holds self o' id m v ∧ snapshot_shows self o' v f.
Proof.
  intros Hm [Hkeep Hframe _] Hs HR Hsh.
  assert (Hdoc : ∀ k, k = Keys.snapshot_manifest_key self id ∨ k = Keys.snapshot_chunks_key self id →
    o' !! k = o !! k).
  { intros k Hk. apply Hframe. destruct (strip_prefix _ k) as [r|] eqn:Hsp; [|done].
    apply strip_prefix_Some in Hsp. exfalso. revert Hsp.
    unfold Keys.snapshot_manifest_key, Keys.snapshot_chunks_key, Keys.snapshot_prefix in Hk.
    destruct Hk as [-> | ->]; rewrite <-!str_app_assoc; intros Hsp; by apply String.app_inv_r in Hsp. }
  split.
  - destruct Hs as [Hman ? ? ? Hrefs]. constructor; try done; rewrite Hdoc by auto; done.
  - intros idx Hidx. rewrite <-(Hsh idx Hidx).
    destruct (v !! idx) as [h|] eqn:Hv; [|done]. simpl.
    rewrite Hkeep; [done| |by eapply HR]. by eapply snapshot_hashes.
Qed.

(** ** Restore *)

(** [o'] differs from [o] in live pointers only. *)
Definition pointers_only self o o' : Prop :=
  ∀ k, (∀ i, is_u64 i → k ≠ Keys.chunk_key self i) → o' !! k = o !! k.

(** The pointer of chunk [idx] is the one for [h]. *)
Definition points self o (idx : Z) (h : option bytes) : Prop :=
  match h with
  | None => o !! Keys.chunk_key self idx = None
  | Some h => ∃ et, o !! Keys.chunk_key self idx = Some (Snap.encode_pointer h, et)
  end.

Lemma points_view self o idx h c :
  st_storage self = Cow → from_option Snap.is_hash True h → points self o idx h →
  hash_view self o h = Some c → chunk_view self o idx = Ok c.
Proof.
  intros Hm Hh Hp Hv. apply view_pointer; [done|..].
  - intros ptr e Hl. destruct h as [h|]; simpl in *; [|congruence].
    destruct Hp as [et Hp]. exists h. assert (ptr = Snap.encode_pointer h) as -> by congruence.
    by apply Snap.decode_encode_pointer.
  - unfold pointer_hash. destruct h as [h|]; simpl in Hp.
    + destruct Hp as [et ->]. by rewrite Snap.decode_encode_pointer.
    + by rewrite Hp.
Qed.

Lemma hash_view_pointers self o o' h :
  st_storage self = Cow → pointers_only self o o' → hash_view self o' h = hash_view self o h.
Proof.
  intros Hm Hp. destruct h as [h|]; [|done]. simpl.
  rewrite Hp; [done|]. intros i _. by apply cow_chunk_key_not_object.
Qed.

Lemma write_pointers_spec self refs env :
  st_storage self = Cow → Forall Snap.ref_ok refs → NoDup (cr_index <$> refs) →
  wp (write_pointers self refs)
    (λ n env', (ok env → ok env') ∧ n = Zlen refs ∧ pointers_only self (objs env) (objs env') ∧
       ∀ idx, is_u64 idx →
         match refs_map refs !! idx with
         | Some h => points self (objs env') idx (Some h)
         | None => objs env' !! Keys.chunk_key self idx = objs env !! Keys.chunk_key self idx
         end)
    (λ e env', ¬ ok env) env.
Proof.
  intros Hm Hrok Hnd. unfold write_pointers.
  eapply wp_mono; [apply (wp_for_each (λ pre post n env', refs = pre ++ post ∧
      (ok env → ok env') ∧ n = Zlen pre ∧ pointers_only self (objs env) (objs env') ∧
      ∀ idx, is_u64 idx →
        (∀ r, r ∈ pre → cr_index r = idx → points self (objs env') idx (Some (cr_hash r))) ∧
        (idx ∉ cr_index <$> pre →
           objs env' !! Keys.chunk_key self idx = objs env !! Keys.chunk_key self idx))
    (λ _ _, ¬ ok env))|..].
  - intros pre r post n env1 (Hr & Hk & Hn & Hpo & Hidx). wp_step.
    assert (is_u64 (cr_index r)) as Hu.
    { rewrite Forall_forall in Hrok. apply Hrok. rewrite Hr. set_solver. }
    assert (cr_index r ∉ cr_index <$> pre) as Hni.
    { rewrite Hr, fmap_app in Hnd. apply NoDup_app in Hnd as (_ & Hd & _). intros Hin.
      eapply Hd; [done|]. simpl. set_solver. }
    eapply wp_mono; [apply put_bytes_spec|..].
    2: { intros e env2 (_ & _ & [Hn'|[Hf _]]); [tauto|by destruct Hf]. }
    intros _ env2 (Hk2 & _ & et & Ho2). wp_step. rewrite <-app_assoc. split; [done|].
    split; [tauto|]. split; [rewrite Hn, Zlen_app; done|]. split.
    + intros k Hk'. rewrite Ho2, lookup_insert_ne by (by intros <-; eapply Hk').
      by apply Hpo.
    + intros idx Hi. destruct (Hidx idx Hi) as [H1' H2'].
      destruct (decide (cr_index r = idx)) as [<-|Hne].
      * split; [|set_solver]. intros r' [Hin| ->%list_elem_of_singleton]%elem_of_app Heq.
        -- exfalso. apply Hni. rewrite <-Heq. apply list_elem_of_fmap. eauto.
        -- exists et. by rewrite Ho2, lookup_insert_eq.
      * assert (objs env2 !! Keys.chunk_key self idx = objs env1 !! Keys.chunk_key self idx) as Hsame.
        { rewrite Ho2, lookup_insert_ne; [done|]. by intros ?%cow_chunk_key_inj. }
        unfold points. rewrite Hsame. split; [|rewrite fmap_app; set_solver].
        intros r' [Hin| ->%list_elem_of_singleton]%elem_of_app Heq; [|done]. by apply H1'.
  - split; [done|]. split; [done|]. split; [done|]. split; [done|].
    intros idx _. split; [intros r ?%elem_of_nil; done|done].
  - intros n env1 (_ & Hk & Hn & Hpo & Hidx). split; [done|]. split; [done|]. split; [done|].
    intros idx Hi. destruct (Hidx idx Hi) as [H1' H2'].
    destruct (refs_map refs !! idx) as [h|] eqn:Hl.
    + apply refs_map_Some in Hl as (r & Hr & Heq & <-); [|done]. by apply H1'.
    + apply H2'. intros (r & -> & Hr)%list_elem_of_fmap.
      assert (refs_map refs !! cr_index r = Some (cr_hash r)) by (apply refs_map_Some; eauto).
      congruence.
  - done.
Qed.

Lemma delete_pointers_spec self keep live env :
  st_storage self = Cow → Forall is_u64 live →
  wp (delete_pointers self keep live)
    (λ _ env', (ok env → ok env') ∧ pointers_only self (objs env) (objs env') ∧
       ∀ idx, is_u64 idx → objs env' !! Keys.chunk_key self idx =
         if decide (idx ∈ live ∧ idx ∉ keep) then None else objs env !! Keys.chunk_key self idx)
    (λ e env', ¬ ok env) env.
Proof.
  intros Hm Hu. unfold delete_pointers.
  eapply wp_mono; [apply (wp_for_each (λ pre post _ env', live = pre ++ post ∧
      (ok env → ok env') ∧ pointers_only self (objs env) (objs env') ∧
      ∀ idx, is_u64 idx → objs env' !! Keys.chunk_key self idx =
         if decide (idx ∈ pre ∧ idx ∉ keep) then None else objs env !! Keys.chunk_key self idx)
    (λ _ _, ¬ ok env))|..].
  - intros pre i post n env1 (Hl & Hk & Hpo & Hidx).
    assert (is_u64 i) as Hi by (rewrite Forall_forall in Hu; apply Hu; rewrite Hl; set_solver).
    destruct (bool_decide_reflect (i ∈ keep)) as [Hin|Hni].
    + wp_step. rewrite <-app_assoc. split; [done|]. split; [done|]. split; [done|].
      intros idx Hx. rewrite Hidx by done. repeat case_decide; try done; set_solver.
    + wp_step. unfold S3.delete_chunk_object. rewrite Hm.
      eapply wp_mono; [apply delete_spec| |naive_solver].
      intros _ env2 [Hk2 Ho2]. wp_step. rewrite <-app_assoc. split; [done|]. split; [tauto|]. split.
      * intros k Hk'. rewrite Ho2, lookup_delete_ne by (by intros <-; eapply Hk'). by apply Hpo.
      * intros idx Hx. rewrite Ho2. destruct (decide (i = idx)) as [->|Hne].
        -- rewrite lookup_delete_eq, decide_True by set_solver. done.
        -- rewrite lookup_delete_ne by (by intros ?%cow_chunk_key_inj). rewrite Hidx by done.
           repeat case_decide; try done; set_solver.
  - split; [done|]. split; [done|]. split; [done|]. intros idx _.
    rewrite decide_False; [done|]. intros [?%elem_of_nil _]. done.
  - intros n env1 (_ & Hk & Hpo & Hidx). done.
  - done.
Qed.

Lemma snapshot_get_spec self id env :
  st_storage self = Cow →
  wp (snapshot_get self id)
    (λ m env', quiet env env' ∧ ∃ body et,
       objs env !! Keys.snapshot_manifest_key self id = Some (body, et) ∧
       manifest_from_json body = inl m)
    (λ e env', quiet env env' ∧ (¬ ok env ∨
       ∀ body et m, objs env !! Keys.snapshot_manifest_key self id = Some (body, et) →
         manifest_from_json body ≠ inl m)) env.
Proof.
  intros Hm. unfold snapshot_get. rewrite require_cow_ok by done. wp_steps.
  eapply wp_mono; [apply get_bytes_as_spec| |naive_solver]. intros r env1 [Hq ->].
  destruct (objs env !! _) as [[body et]|] eqn:Hl.
  - unfold parse_manifest. destruct (manifest_from_json body) as [m|e] eqn:Hj; [wp_step; eauto|].
    split; [done|]. right. intros body' et' m [= <- <-]. congruence.
  - wp_step. split; [done|]. right. intros ??? [=].
Qed.

Lemma snapshot_index_ok self o id m v : snapshot_holds self o id m v → index_ok self o id.
Proof.
  intros Hs body et Hl. by destruct (snapshot_index_read _ _ _ _ _ _ _ Hs Hl) as (refs & -> & _).
Qed.

(** Growing the volume does not touch a snapshot. *)
Lemma snapshot_meta self o w id m v f :
  st_storage self = Cow → snapshot_holds self o id m v → snapshot_shows self o v f →
  let o' := <[Keys.meta_key self := w]> o in
  snapshot_holds self o' id m v ∧ snapshot_shows self o' v f.
Proof.
  intros Hm Hs Hsh o'. split.
  - destruct Hs as [Hman ? ? ? Hrefs]. constructor; try done; unfold o';
      rewrite lookup_insert_ne; try done; apply not_eq_sym;
      apply (snapshot_key_not_data self _ id); auto.
  - intros idx Hidx. rewrite <-(Hsh idx Hidx). destruct (v !! idx) as [h|]; [|done]. simpl.
    unfold o'. rewrite lookup_insert_ne; [done|]. by apply (meta_key_not_chunk self 0 h).
Qed.

(** Installing the recorded pointers shows the recorded volume. *)
Lemma restore_pointers_spec self id m v f env :
  st_storage self = Cow → snapshot_holds self (objs env) id m v →
  snapshot_shows self (objs env) v f →
  wp (restore_pointers self id)
    (λ _ env', (ok env → ok env') ∧ pointers_only self (objs env) (objs env') ∧
       ∀ idx, is_u64 idx → chunk_view self (objs env') idx = Ok (f idx))
    (λ e env', ¬ ok env) env.
Proof.
  intros Hm Hs Hsh. unfold restore_pointers. wp_step.
  eapply wp_mono; [by eapply load_snapshot_refs_spec, snapshot_index_ok|..].
  2: { intros e env1 [_ [Hn|Hn]]; [done|]. pose proof (sh_refs _ _ _ _ _ Hs) as (refs & et & Hl & _).
       destruct (snapshot_index_read _ _ _ _ _ _ _ Hs Hl) as (refs' & Hr & _).
       specialize (Hn _ _ Hl). congruence. }
  intros refs env1 ([Ho1 Hk1] & body & et & Hl & Hr).
  destruct (snapshot_index_read _ _ _ _ _ _ _ Hs Hl) as (refs' & Hr' & Hrok & Hnd & Hv).
  assert (refs' = refs) as -> by congruence.
  wp_step. unfold S3.present_chunks.
  eapply wp_mono; [apply list_chunk_indices_spec, chunks_prefix_slash| |naive_solver].
  intros live env2 ([Ho2 Hk2] & _ & Hin). rewrite Ho1 in *.
  assert (Hu : Forall is_u64 live).
  { rewrite Forall_forall. intros i (k & w & _ & Hp)%Hin. by eapply Keys.parse_chunk_index_range. }
  wp_step. eapply wp_mono; [by apply write_pointers_spec| |naive_solver].
  intros n env3 (Hk3 & _ & Hpo3 & Hp3). rewrite Ho2 in *.
  wp_step. eapply wp_mono; [by apply delete_pointers_spec| |naive_solver].
  intros n' env4 (Hk4 & Hpo4 & Hp4). wp_step. split; [tauto|].
  assert (Hpo : pointers_only self (objs env) (objs env4)).
  { intros k Hk. by rewrite Hpo4, Hpo3. }
  split; [done|]. intros idx Hidx.
  apply (points_view self (objs env4) idx (v !! idx)); [done| | |].
  - destruct (v !! idx) as [h|] eqn:Hvi; [|done]. by eapply snapshot_hashes.
  - unfold points. rewrite Hp4 by done. specialize (Hp3 idx Hidx). rewrite Hv in Hp3.
    destruct (v !! idx) as [h|] eqn:Hvi.
    + rewrite decide_False; [done|]. intros [_ Hk]. apply Hk.
      rewrite <-Hv in Hvi. apply refs_map_Some in Hvi as (r & Hrr & <- & _); [|done].
      apply elem_of_list_to_set, list_elem_of_fmap. eauto.
    + rewrite Hp3. case_decide as Hd; [done|].
      destruct (objs env !! Keys.chunk_key self idx) as [w|] eqn:Hw; [|done].
      exfalso. apply Hd. split.
      * apply Hin. exists (Keys.chunk_key self idx), w. split; [done|].
        unfold Keys.chunk_key, Keys.chunks_prefix. rewrite Hm, <-str_app_assoc.
        by apply Keys.parse_cow_key.
      * intros (r & -> & Hrr)%elem_of_list_to_set%list_elem_of_fmap.
        assert (refs_map refs !! cr_index r = Some (cr_hash r)) by (apply refs_map_Some; eauto).
        congruence.
  - rewrite (hash_view_pointers _ (objs env)) by done. by apply Hsh.
Qed.

Lemma wp_on_env_bind {A C} (f : S3ChunkStore → M (Env B) StoreError A)
    (g : A → M (S3.state B) StoreError C) Q R (s : S3.state B) :
  wp (f (S3.s_store s)) (λ a env, wp (g a) Q R (S3.with_env env s))
     (λ e env, R e (S3.with_env env s)) (S3.s_env s) →
  wp (S3.on_env f ≫= g) Q R s.
Proof. intros Hwp. wp_step. by apply S3Block.wp_on_env. Qed.

Definition grown self (n : Z) : S3ChunkStore :=
  S3.with_capacity (Z.max (st_capacity self) n) self.

Lemma grown_small self n : n ≤ st_capacity self → grown self n = self.
Proof. intros. unfold grown. rewrite Z.max_l by lia. by destruct self. Qed.

Lemma snapshot_holds_grown self n o id m v :
  snapshot_holds self o id m v → snapshot_holds (grown self n) o id m v.
Proof. by intros []; constructor. Qed.

Lemma restore_capacity_spec id m v f (s : S3.state B) :
  let self := S3.s_store s in
  st_storage self = Cow → 0 < st_block_size self →
  snapshot_holds self (S3Block.s_objs s) id m v → snapshot_shows self (S3Block.s_objs s) v f →
  sm_capacity_bytes m mod st_block_size self = 0 →
  wp (if st_capacity self <? sm_capacity_bytes m
      then S3.set_capacity (sm_capacity_bytes m) else mret tt)
    (λ _ s', (ok (S3.s_env s) → ok (S3.s_env s')) ∧
       S3.s_store s' = grown self (sm_capacity_bytes m) ∧
       snapshot_holds self (S3Block.s_objs s') id m v ∧
       snapshot_shows self (S3Block.s_objs s') v f)
    (λ e s', ¬ ok (S3.s_env s)) s.
Proof.
  intros self Hm Hbs Hs Hsh Hal. subst self.
  destruct (Z.ltb_spec (st_capacity (S3.s_store s)) (sm_capacity_bytes m)) as [Hlt|Hge].
  2: { wp_step. by rewrite grown_small. }
  unfold S3.set_capacity. wp_steps.
  rewrite (proj2 (Z.eqb_neq (st_block_size _) 0)) by lia. rewrite Hal, Z.eqb_refl. cbn [negb].
  rewrite (proj2 (Z.ltb_ge _ _)), (proj2 (Z.eqb_neq _ _)) by lia.
  apply wp_on_env_bind. eapply wp_mono; [apply put_meta_spec| |naive_solver].
  intros _ env' [Hk (body & et & _ & Ho)]. wp_step. simpl. split; [done|].
  split; [unfold grown; by rewrite Z.max_r by lia|].
  unfold S3Block.s_objs. simpl. rewrite Ho. by apply snapshot_meta.
Qed.

Lemma snapshot_restore_spec id m v f (s : S3.state B) :
  let self := S3.s_store s in
  st_storage self = Cow → 0 < st_block_size self →
  snapshot_holds self (S3Block.s_objs s) id m v → snapshot_shows self (S3Block.s_objs s) v f →
  sm_capacity_bytes m mod st_block_size self = 0 →
  wp (snapshot_restore id)
    (λ _ s', (ok (S3.s_env s) → ok (S3.s_env s')) ∧
       S3.s_store s' = grown self (sm_capacity_bytes m) ∧
       ∀ idx, is_u64 idx → chunk_view (S3.s_store s') (S3Block.s_objs s') idx = Ok (f idx))
    (λ e s', ¬ ok (S3.s_env s)) s.
Proof.
  intros self Hm Hbs Hs Hsh Hal. subst self. unfold snapshot_restore.
  apply wp_on_env_bind. rewrite require_cow_ok by done. wp_step.
  apply wp_on_env_bind. eapply wp_mono; [by apply snapshot_get_spec|..].
  2: { intros e env1 [_ [Hn|Hn]]; [done|].
       destruct (sh_manifest _ _ _ _ _ Hs) as (body & et & Hl & Hj). by destruct (Hn body et m). }
  intros m' env1 ([Ho1 Hk1] & body & et & Hl & Hj).
  destruct (sh_manifest _ _ _ _ _ Hs) as (body' & et' & Hl' & Hj').
  assert (m' = m) as -> by (unfold S3Block.s_objs in Hl'; simpl in *; congruence).
  wp_steps. cbn [S3.s_store S3.with_env].
  destruct (sh_geometry _ _ _ _ _ Hs) as (Hg1 & Hg2 & Hg3).
  rewrite (sh_state _ _ _ _ _ Hs), Hg1, Hg2, Hg3, !Z.eqb_refl, !bool_decide_eq_true_2 by done.
  cbn [negb orb]. wp_step.
  set (s1 := S3.with_env env1 (S3.with_env (S3.s_env s) s)).
  eapply wp_mono; [apply (restore_capacity_spec id m v f s1)|..]; try done.
  { unfold s1, S3Block.s_objs. simpl. by rewrite Ho1. }
  { unfold s1, S3Block.s_objs. simpl. by rewrite Ho1. }
  2: { intros e s2 Hn Hok. by apply Hn, Hk1. }
  intros _ s2 (Hk2 & Hst2 & Hs2 & Hsh2). simpl in Hst2, Hk2.
  apply wp_on_env_bind. rewrite Hst2.
  eapply wp_mono; [apply (restore_pointers_spec _ id m v f)|..];
    [done|by apply snapshot_holds_grown|done| |].
  - intros n env3 (Hk3 & _ & Hv). wp_steps. simpl. split; [tauto|]. by rewrite Hst2.
  - intros e env3 Hn Hok. by apply Hn, Hk2, Hk1.
Qed.

Lemma wp_elim {S E A} (c : M S E A) Q R s r s' :
  wp c Q R s → c s = (r, s') → (∃ a, r = Ok a ∧ Q a s') ∨ (∃ e, r = Err e ∧ R e s').
Proof. unfold wp. intros Hwp Hc. rewrite Hc in Hwp. destruct r; try done; eauto. Qed.

End spec.
End SnapSpec.
