(* ===== verification/S3Activity.v ===== *)
(** * A snapshot among other activity

    Once a snapshot exists, other things happen to its volume: writes, trims,
    further snapshots, deletions of other snapshots and collections, with requests
    that fail on the way. [snapshotted] is what a restore of the snapshot needs,
    and [activity] the steps that keep it. *)
From S2P Require Import Prelude Text Store Compression Snapshot S3Api S3Keys S3Store S3Spec S3Block.
From S2P Require Import S3Snap S3SnapSpec.
#[local] Open Scope string_scope.
#[local] Open Scope list_scope.
#[local] Open Scope Z_scope.

Module Activity.
Import S3Spec S3Snap SnapSpec.
Section spec.
Context {B : Type} `{S3Laws B} `{CodecLaws} `{Blake3Laws} `{JsonLaws}.
Implicit Types (env : Env B) (self : S3ChunkStore) (o : object_map).

(** ** Documents that stay readable *)
Lemma pool_key_data self k :
  st_storage self = Cow →
  (∃ r, k = st_prefix self +:+ "/objects/" +:+ r) →
  ∀ i, k ≠ Keys.legacy_chunk_key self i ∧ k ≠ Keys.legacy_flat_chunk_key self i ∧
       k ≠ Keys.chunk_key self i.
Proof.
  intros Hm [r ->] i. unfold Keys.chunk_key, Keys.chunks_prefix. rewrite Hm.
  repeat split; rewrite <-?str_app_assoc; Keys.key_neq.
Qed.

Lemma relpath_cases rel :
  (∃ h, Snap.is_hash h ∧ rel = Snap.object_relpath h) ∨
  (∀ h, Snap.is_hash h → rel ≠ Snap.object_relpath h).
Proof.
  destruct (Snap.hash_from_object_relpath rel) as [[h|]| | |] eqn:Hr;
    try (right; intros h' Hh' ->; by rewrite Snap.hash_from_object_relpath_object in Hr).
  destruct (decide (Snap.is_hash h ∧ rel = Snap.object_relpath h)) as [?|Hn]; [eauto|].
  right. intros h' Hh' ->. rewrite Snap.hash_from_object_relpath_object in Hr by done.
  apply Hn. split; congruence.
Qed.

Lemma data_only_docs self o o' :
  st_storage self = Cow → data_only self o o' →
  pool_ok self o → indexes_ok self o → manifests_ok self o →
  pool_ok self o' ∧ indexes_ok self o' ∧ manifests_ok self o'.
Proof.
  intros Hm Hd Hp Hi Hma. split; [|split].
  - intros rel w Hl. destruct (relpath_cases rel) as [?|Hn]; [done|].
    rewrite (do_frame _ _ _ Hd) in Hl; [by eapply Hp| |].
    + apply pool_key_data; [done|]. eauto.
    + intros h Hh Heq. apply (Hn h Hh). unfold Keys.object_key in Heq.
      do 2 apply String.app_inv_r in Heq. done.
  - intros id body et Hl. rewrite (snapshot_doc_data self o o' id) in Hl by auto. by eapply Hi.
  - intros k body et (r & ->)%starts_with_inv He Hl. eapply Hma; [apply starts_with_app|done|].
    rewrite <-Hl. symmetry. apply (do_frame _ _ _ Hd).
    + intros i. unfold Keys.chunk_key, Keys.chunks_prefix. rewrite Hm.
      repeat split; rewrite <-?str_app_assoc; Keys.key_neq.
    + intros h _. Keys.key_neq.
Qed.

Lemma swept_docs self R o o' :
  st_storage self = Cow → swept self R o o' →
  pool_ok self o → indexes_ok self o → manifests_ok self o →
  pool_ok self o' ∧ indexes_ok self o' ∧ manifests_ok self o'.
Proof.
  intros Hm [_ _ Hs] Hp Hi Hma. split; [|split].
  - intros rel w Hl%Hs. by eapply Hp.
  - intros id body et Hl%Hs. by eapply Hi.
  - intros k body et ? ? Hl%Hs. by eapply Hma.
Qed.

(** ** Documents of one snapshot that move *)
Record docs_moved self (id : string) o o' : Prop := {
  dm_frame k : k ≠ Keys.snapshot_manifest_key self id → k ≠ Keys.snapshot_chunks_key self id → o' !! k = o !! k;
  dm_indexes : indexes_ok self o → indexes_ok self o';
  dm_manifests : manifests_ok self o → manifests_ok self o'
}.
#[global] Instance docs_moved_preorder self id : PreOrder (docs_moved self id).
Proof.
  split; [by constructor|]. intros x y z [Hf Hi Hm] [Hf' Hi' Hm']. constructor; [|auto..].
  intros k Hk Hk'. by rewrite Hf', Hf.
Qed.

Lemma moved_manifest self id o body et m :
  manifest_from_json body = inl m → docs_moved self id o (<[Keys.snapshot_manifest_key self id := (body, et)]> o).
Proof.
  intros Hj. constructor.
  - intros k Hk _. by rewrite lookup_insert_ne.
  - intros Hi id' b e Hl. rewrite lookup_insert_ne in Hl by apply manifest_not_chunks. by eapply Hi.
  - intros Hma k b e Hs He [[<- [= <- <-]]|[_ Hl]]%lookup_insert_Some; [by exists m|by eapply Hma].
Qed.
Lemma moved_index self id o refs et :
  Forall Snap.ref_ok refs → Snap.vec_capacity_ok (Zlen refs) = true →
  docs_moved self id o (<[Keys.snapshot_chunks_key self id := (Snap.write_chunks_bin refs, et)]> o).
Proof.
  intros Hr Hc. constructor.
  - intros k _ Hk. by rewrite lookup_insert_ne.
  - intros Hi id' b e [[_ [= <- <-]]|[_ Hl]]%lookup_insert_Some; [|by eapply Hi].
    pose proof (Snap.read_write_chunks_bin refs [] Hr Hc) as Hrd. rewrite app_nil_r in Hrd. by rewrite Hrd.
  - intros Hma k b e Hs (q & ->)%ends_with_inv Hl. rewrite lookup_insert_ne in Hl by apply chunks_key_not_manifest.
    eapply Hma; [exact Hs|apply ends_with_app|exact Hl].
Qed.
Lemma moved_delete self id o k :
  k = Keys.snapshot_manifest_key self id ∨ k = Keys.snapshot_chunks_key self id → docs_moved self id o (delete k o).
Proof.
  intros Hk. constructor.
  - intros k' Hk1 Hk2. rewrite lookup_delete_ne; [done|]. destruct Hk; congruence.
  - intros Hi id' b e [_ Hl]%lookup_delete_Some. by eapply Hi.
  - intros Hma k' b e Hs He [_ Hl]%lookup_delete_Some. by eapply Hma.
Qed.

Lemma docs_moved_data self id o o' :
  st_storage self = Cow → docs_moved self id o o' →
  (∀ i, o' !! Keys.chunk_key self i = o !! Keys.chunk_key self i) ∧
  (∀ h, o' !! Keys.object_key self h = o !! Keys.object_key self h).
Proof.
  intros Hm [Hf _ _].
  destruct (snapshot_key_not_data self (Keys.snapshot_manifest_key self id) id Hm (or_introl eq_refl)) as (Hc1 & Ho1 & _).
  destruct (snapshot_key_not_data self (Keys.snapshot_chunks_key self id) id Hm (or_intror eq_refl)) as (Hc2 & Ho2 & _).
  split; [intros i|intros h]; apply Hf; apply not_eq_sym; first [apply Ho1|apply Ho2|apply Hc1|apply Hc2].
Qed.
Lemma docs_moved_same self id o o' : st_storage self = Cow → docs_moved self id o o' → view_same self o o'.
Proof.
  intros Hm Hd j _. destruct (docs_moved_data self id o o' Hm Hd) as [Hc Ho].
  apply chunk_view_agree; [congruence|]. by intros _.
Qed.

(** Creating a snapshot, whatever fails, moves its own documents only; a snapshot
    that exists is left alone. *)
Lemma snapshot_create_moves self now id vol env :
  st_storage self = Cow → chunks_ok self (objs env) → Z.of_nat (size (objs env)) * 40 ≤ 2 ^ 63 - 41 →
  let Q env' := docs_moved self id (objs env) (objs env') ∧
    (is_Some (objs env !! Keys.snapshot_manifest_key self id) → objs env' = objs env) in
  wp (snapshot_create self now id vol) (λ _, Q) (λ _, Q) env.
Proof.
  intros Hm Hok Hsize Q. assert (HQ0 : ∀ env', objs env' = objs env → Q env') by (intros env' Ho; unfold Q; by rewrite Ho).
  unfold snapshot_create. rewrite require_cow_ok by done. wp_steps.
  apply wp_lift; [unfold Keys.validate_snapshot_id; by case_match| |intros e He; by apply HQ0].
  intros _ _. wp_step. eapply wp_mono; [apply get_bytes_as_spec| |].
  2: { intros e env' [[Ho ?] ?]. by apply HQ0. }
  intros r env1 [[Ho1 _] ->].
  destruct (objs env !! Keys.snapshot_manifest_key self id) as [x|] eqn:Hnone; [wp_step; by apply HQ0|].
  assert (HQ : ∀ env', docs_moved self id (objs env) (objs env') → Q env') by (intros env' Hd; split; [done|by intros []]).
  cbv zeta. set (m0 := Snap.new_creating _ _ _ _ _ _ _). wp_step.
  eapply wp_mono; [apply put_manifest_spec|..]; rewrite Ho1.
  2: { intros e env2 [_ [Ho2|(b & et & Hj & Ho2)]]; apply HQ; rewrite Ho2; [done|by eapply moved_manifest]. }
  intros _ env2 [_ (b1 & et1 & Hj1 & Ho2)].
  assert (Hd2 : docs_moved self id (objs env) (objs env2)) by (rewrite Ho2; by eapply moved_manifest).
  wp_step. eapply wp_mono; [apply collect_live_refs_spec; [done|by eapply view_same_ok; [|eapply docs_moved_same]]|..].
  2: { intros e env3 [[Ho3 _] _]. apply HQ. by rewrite Ho3. }
  intros refs env3 [[Ho3 _] Hlr].
  assert (Hcap : Snap.vec_capacity_ok (Zlen refs) = true).
  { pose proof (live_refs_size self _ _ Hm Hlr) as Hsz. rewrite Ho2 in Hsz.
    rewrite map_size_insert_None in Hsz by done. unfold Snap.vec_capacity_ok. apply Z.leb_le. lia. }
  wp_step. eapply wp_mono; [apply put_bytes_spec|..]; rewrite Ho3.
  2: { intros e env4 (_ & [Ho4|[et Ho4]] & _); apply HQ; rewrite Ho4; [done|].
       etrans; [exact Hd2|]. apply moved_index; [apply Hlr|done]. }
  intros _ env4 (_ & _ & et4 & Ho4).
  assert (Hd4 : docs_moved self id (objs env) (objs env4))
    by (rewrite Ho4; etrans; [exact Hd2|]; apply moved_index; [apply Hlr|done]).
  wp_step. eapply wp_mono; [apply put_manifest_spec|..].
  - intros _ env5 [_ (b5 & et5 & Hj5 & Ho5)]. wp_step. apply HQ. rewrite Ho5. etrans; [exact Hd4|by eapply moved_manifest].
  - intros e env5 [_ [Ho5|(b & et & Hj & Ho5)]]; apply HQ; rewrite Ho5; [done|].
    etrans; [exact Hd4|by eapply moved_manifest].
Qed.

(** Trimming a chunk, whatever fails, moves its pointer only. *)
Lemma delete_chunk_moves self idx env :
  st_storage self = Cow → is_u64 idx →
  let Q env' := data_only self (objs env) (objs env') ∧ (chunks_ok self (objs env) → chunks_ok self (objs env')) in
  wp (S3.delete_chunk self idx) (λ _, Q) (λ _, Q) env.
Proof.
  intros Hm Hidx Q.
  assert (Hone : ∀ env', objs env' = delete (Keys.chunk_key self idx) (objs env) → Q env').
  { intros env' Ho. assert (Hobj : ∀ h, Keys.chunk_key self idx ≠ Keys.object_key self h)
      by (intros h Heq; symmetry in Heq; by eapply cow_chunk_key_not_object).
    unfold Q. rewrite Ho. split; [constructor|].
    - intros k Hc _. destruct (Hc idx) as (_ & _ & ?). by rewrite lookup_delete_ne.
    - intros _ h p et _ Hl. rewrite lookup_delete_ne by done. eauto.
    - intros Hok j Hj. destruct (decide (j = idx)) as [->|Hne].
      + unfold chunk_view. rewrite Hm, lookup_delete_eq. eauto.
      + destruct (Hok j Hj) as [c Hc]. exists c. rewrite <- Hc. apply chunk_view_agree; [congruence|]. intros _.
        rewrite lookup_delete_ne by (intros ?%cow_chunk_key_inj; auto). split; [done|].
        intros h. by rewrite lookup_delete_ne. }
  assert (Hnone : ∀ env', objs env' = objs env → Q env') by (intros env' Ho; unfold Q; by rewrite Ho).
  unfold S3.delete_chunk, S3.delete_chunk_object. rewrite Hm.
  eapply wp_mono; [apply delete_spec|..].
  - intros _ env' [_ Ho]. by apply Hone.
  - intros e env' [_ [Ho|Ho]]; [by apply Hnone|by apply Hone].
Qed.

(** ** The state of a volume that holds the snapshot [id] *)
Record snapshotted self (id : string) (m : SnapshotManifest) (v : gmap Z bytes) (f : Z → bytes) o : Prop := {
  sn_chunks : chunks_ok self o;
  sn_pool : pool_ok self o;
  sn_indexes : indexes_ok self o;
  sn_manifests : manifests_ok self o;
  sn_holds : snapshot_holds self o id m v;
  sn_shows : snapshot_shows self o v f
}.

Lemma data_snapshotted self id m v f o o' :
  st_storage self = Cow → data_only self o o' → chunks_ok self o' →
  snapshotted self id m v f o → snapshotted self id m v f o'.
Proof.
  intros Hm Hd Hc' [Hc Hp Hi Hma Hh Hsh]. destruct (data_only_docs self _ _ Hm Hd Hp Hi Hma) as (? & ? & ?).
  constructor; eauto using snapshot_holds_data, snapshot_shows_data.
Qed.
Lemma docs_pool self id o o' : docs_moved self id o o' → pool_ok self o → pool_ok self o'.
Proof. intros Hd Hp rel w Hl. rewrite (dm_frame _ _ _ _ Hd) in Hl by Keys.key_neq. by eapply Hp. Qed.
Lemma docs_snapshotted self id' id m v f o o' :
  st_storage self = Cow → docs_moved self id' o o' → id' ≠ id →
  snapshotted self id m v f o → snapshotted self id m v f o'.
Proof.
  intros Hm Hd Hne [Hc Hp Hi Hma [Hman ? ? ? Hrefs] Hsh]. pose proof Hd as [Hf Hi' Hma'].
  assert (Hman' : o' !! Keys.snapshot_manifest_key self id = o !! Keys.snapshot_manifest_key self id).
  { apply Hf; [|apply manifest_not_chunks]. unfold Keys.snapshot_manifest_key, Keys.snapshot_prefix.
    intros Heq. apply Hne. by apply String.app_inv_l, String.app_inv_r, String.app_inv_r in Heq. }
  assert (Hidx' : o' !! Keys.snapshot_chunks_key self id = o !! Keys.snapshot_chunks_key self id).
  { apply Hf; [apply not_eq_sym, manifest_not_chunks|]. unfold Keys.snapshot_chunks_key, Keys.snapshot_prefix.
    intros Heq. apply Hne. by apply String.app_inv_l, String.app_inv_r, String.app_inv_r in Heq. }
  constructor; [|by eapply docs_pool|auto|auto| |].
  - by eapply view_same_ok; [|eapply docs_moved_same].
  - constructor; try done; [by rewrite Hman'|by rewrite Hidx'].
  - intros idx Hidx. rewrite <- (Hsh idx Hidx). destruct (v !! idx) as [h|]; [|done]. simpl.
    by rewrite (proj2 (docs_moved_data self id' o o' Hm Hd)).
Qed.
Lemma swept_snapshotted self R id m v f o o' :
  st_storage self = Cow → swept self R o o' → view_same self o o' → (∀ idx h, v !! idx = Some h → h ∈ R) →
  snapshotted self id m v f o → snapshotted self id m v f o'.
Proof.
  intros Hm Hsw Hv HR [Hc Hp Hi Hma Hh Hsh].
  destruct (swept_docs self R _ _ Hm Hsw Hp Hi Hma) as (? & ? & ?).
  destruct (swept_snapshot self R o o' id m v f Hm Hsw Hh) as [? ?]; [done|done|].
  constructor; try done. by eapply view_same_ok.
Qed.

(** ** Activity *)

(** What may happen to the volume once the snapshot [id] exists. Requests may fail
    at any time, and the service may break down and recover between two steps;
    only collections, alone or as the end of a deletion, must find it working. *)
Inductive activity self (id : string) : Env B → Env B → Prop :=
| act_service env env' : objs env' = objs env → activity self id env env'
| act_write off data env r env' :
    0 ≤ off → write_admissible self (objs env) off data →
    S3.write_at self off data env = (r, env') → activity self id env env'
| act_trim idx env r env' :
    is_u64 idx → S3.delete_chunk self idx env = (r, env') → activity self id env env'
| act_snapshot now id' vol env r env' :
    Z.of_nat (size (objs env)) * 40 ≤ 2 ^ 63 - 41 →
    snapshot_create self now id' vol env = (r, env') → activity self id env env'
| act_delete id' env r env' :
    id' ≠ id → ok env → snapshot_delete self id' env = (r, env') → activity self id env env'
| act_gc env r env' :
    ok env → gc_unreferenced_objects self env = (r, env') → activity self id env env'.

Lemma gc_snapshotted self id m v f env :
  st_storage self = Cow → ok env → snapshotted self id m v f (objs env) →
  let Q env' := snapshotted self id m v f (objs env') in
  wp (gc_unreferenced_objects self) (λ _, Q) (λ _, Q) env.
Proof.
  intros Hm Hok Hsn Q. pose proof Hsn as [Hc Hp Hi Hma Hh _].
  eapply wp_mono; [by apply gc_spec|..].
  - intros st env' (_ & Hv & (R & Hsw & HR) & _). eapply swept_snapshotted; try done.
    intros idx h Hvi. by eapply HR.
  - intros e env' [_ [?|[? _]]]; done.
Qed.

Lemma delete_snapshotted self id' id m v f env :
  st_storage self = Cow → ok env → id' ≠ id → snapshotted self id m v f (objs env) →
  let Q env' := snapshotted self id m v f (objs env') in
  wp (snapshot_delete self id') (λ _, Q) (λ _, Q) env.
Proof.
  intros Hm Hok Hne Hsn Q. unfold snapshot_delete. rewrite require_cow_ok by done. wp_steps.
  eapply wp_mono; [by apply snapshot_get_spec|..].
  2: { intros e env1 [[Ho _] _]. unfold Q. by rewrite Ho. }
  intros m' env1 [[Ho1 Hk1] _]. wp_step. eapply wp_mono; [apply delete_spec| |naive_solver].
  intros _ env2 [Hk2 Ho2]. wp_step. eapply wp_mono; [apply delete_spec| |naive_solver].
  intros _ env3 [Hk3 Ho3]. apply gc_snapshotted; [done|auto|]. rewrite Ho3, Ho2, Ho1.
  eapply (docs_snapshotted self id'); [done|apply moved_delete; by left|done|].
  eapply (docs_snapshotted self id'); [done|apply moved_delete; by right|done|done].
Qed.

(** A computation that ends in [Q] on every branch does so in any run. *)
Lemma wp_both {S E A} (c : M S E A) (Q : S → Prop) s r s' : wp c (λ _, Q) (λ _, Q) s → c s = (r, s') → Q s'.
Proof. unfold wp. intros Hwp Hc. rewrite Hc in Hwp. by destruct r. Qed.

Lemma activity_snapshotted self id m v f env env' :
  geometry self → st_storage self = Cow → activity self id env env' →
  snapshotted self id m v f (objs env) → snapshotted self id m v f (objs env').
Proof.
  intros Hgeo Hm Hact Hsn. pose proof (sn_chunks _ _ _ _ _ _ Hsn) as Hc.
  destruct Hact as [env env' Ho|off data env r env' Hoff Hadm Hrun|idx env r env' Hidx Hrun
    |now id' vol env r env' Hsz Hrun|id' env r env' Hne Hok Hrun|env r env' Hok Hrun].
  - by rewrite Ho.
  - destruct (wp_elim _ _ _ _ _ _ (write_at_spec self off data env Hgeo Hc Hoff Hadm) Hrun)
      as [(? & -> & _ & _ & Hw & Hd)|(e & -> & Hd & Hc' & _)]; eapply data_snapshotted; try done. by eapply wpr_ok.
  - destruct (wp_both _ _ _ _ _ (delete_chunk_moves self idx env Hm Hidx) Hrun) as [Hd Hc'].
    eapply data_snapshotted; [done|exact Hd|by apply Hc'|done].
  - destruct (wp_both _ _ _ _ _ (snapshot_create_moves self now id' vol env Hm Hc Hsz) Hrun) as [Hd Hsame].
    destruct (decide (id' = id)) as [->|Hne]; [|by eapply docs_snapshotted].
    rewrite Hsame; [done|]. destruct (sh_manifest _ _ _ _ _ (sn_holds _ _ _ _ _ _ Hsn)) as (b & et & -> & _). done.
  - by apply (wp_both _ _ _ _ _ (delete_snapshotted self id' id m v f env Hm Hok Hne Hsn) Hrun).
  - by apply (wp_both _ _ _ _ _ (gc_snapshotted self id m v f env Hm Hok Hsn) Hrun).
Qed.

Lemma activities_snapshotted self id m v f env env' :
  geometry self → st_storage self = Cow → rtc (activity self id) env env' →
  snapshotted self id m v f (objs env) → snapshotted self id m v f (objs env').
Proof. intros Hgeo Hm. induction 1; eauto using activity_snapshotted. Qed.

(** ** Snapshot, activity, restore *)
Lemma snapshot_isolation_gen self now id vol env m env1 env2 f s :
  geometry self → st_storage self = Cow →
  pool_ok self (objs env) → indexes_ok self (objs env) → manifests_ok self (objs env) →
  Z.of_nat (size (objs env)) * 40 ≤ 2 ^ 63 - 41 →
  st_capacity self mod st_block_size self = 0 →
  (∀ idx, is_u64 idx → chunk_view self (objs env) idx = Ok (f idx)) →
  snapshot_create self now id vol env = (Ok m, env1) →
  rtc (activity self id) env1 env2 → ok env2 →
  s = {| S3.s_store := self; S3.s_env := env2 |} →
  wp (snapshot_restore id)
    (λ _ s', S3.s_store s' = self ∧
       ∀ idx, is_u64 idx → chunk_view self (S3Block.s_objs s') idx = Ok (f idx))
    (λ _ _, False) s.
Proof.
  intros Hgeo Hm Hp Hi Hma Hsz Hal Hview Hcr Hact Hok2 ->.
  assert (Hc : chunks_ok self (objs env)) by (intros j Hj; eauto).
  destruct (wp_elim _ _ _ _ _ _ (snapshot_create_spec self now id vol env Hm Hc Hsz) Hcr)
    as [(m' & [= <-] & _ & Hv & _ & Hcap & Hf & v & Hs & Hsh)|(e & [=] & _)].
  destruct (wp_both _ _ _ _ _ (snapshot_create_moves self now id vol env Hm Hc Hsz) Hcr) as [Hd _].
  assert (Hsn : snapshotted self id m v f (objs env1)).
  { constructor; [by eapply view_same_ok|by eapply docs_pool|by apply Hd|by apply Hd|done|].
    intros idx Hidx. apply Hsh; auto. }
  apply (activities_snapshotted _ _ _ _ _ _ _ Hgeo Hm Hact) in Hsn. destruct Hsn.
  pose proof (ge_block _ Hgeo).
  eapply wp_mono; [eapply (snapshot_restore_spec id m v f)|..]; simpl; try done; [lia|congruence|].
  intros st s' (_ & Hst & Hvw). rewrite grown_small in Hst by lia. rewrite Hst in Hvw. done.
Qed.
End spec.
End Activity.
