(* ===== verification/S3Migrate.v ===== *)
(** * Correctness of the migration to the COW layout and of opening a volume

    [migrate_to_cow] moves a volume chunk by chunk and can be interrupted
    anywhere; the volume is then shown by the legacy objects that are left and
    the COW pointers already written ([mixed_view]). *)
From S2P Require Import Prelude Text Store Compression Snapshot S3Api S3Keys S3Store S3Spec S3Block.
From S2P Require Import S3Snap S3SnapSpec.
#[local] Open Scope string_scope.
#[local] Open Scope list_scope.
#[local] Open Scope Z_scope.

Module Migrate.
Import S3Spec S3Snap SnapSpec.
Section spec.
Context {B : Type} `{S3Laws B} `{CodecLaws} `{Blake3Laws} `{JsonLaws}.
Implicit Types (env : Env B) (self : S3ChunkStore) (o : object_map).

Definition cow self : S3ChunkStore := S3.with_storage Cow self.

Definition legacy_body self o (idx : Z) : option bytes :=
  match o !! Keys.legacy_chunk_key self idx with
  | Some (body, _) => Some body
  | None => fst <$> o !! Keys.legacy_flat_chunk_key self idx
  end.

(** A legacy object, where there is one, is the chunk; the pointer otherwise. *)
Definition mixed_view self o (idx : Z) : outcome StoreError bytes :=
  match legacy_body self o idx with
  | Some body => Comp.decode_chunk (st_compression self) body (st_chunk_size self)
  | None => chunk_view (cow self) o idx
  end.

Definition mixed_ok self o : Prop := ∀ idx, is_u64 idx → ∃ c, mixed_view self o idx = Ok c.

(** The legacy payloads collide neither with each other nor with the pool. *)
Definition migrate_admissible self o : Prop := ∀ idx body, is_u64 idx →
  legacy_body self o idx = Some body →
  no_collision (cow self) o body ∧
  ∀ idx' body', is_u64 idx' → legacy_body self o idx' = Some body' →
    blake3 body = blake3 body' → body = body'.

(** No chunk has both a sharded and a (stale) flat object. *)
Definition single_copy self o : Prop := ∀ idx, is_u64 idx →
  o !! Keys.legacy_chunk_key self idx = None ∨ o !! Keys.legacy_flat_chunk_key self idx = None.

Definition ptr_key self (idx : Z) : string :=
  st_prefix self +:+ "/live/chunks/" +:+ hex_fixed false 16 idx.

Lemma ptr_key_cow self idx : Keys.chunk_key (cow self) idx = ptr_key self idx.
Proof. symmetry. apply str_app_assoc. Qed.

Lemma ptr_key_inj self i j : is_u64 i → is_u64 j → ptr_key self i = ptr_key self j → i = j.
Proof. rewrite <-!ptr_key_cow. by apply cow_chunk_key_inj. Qed.

(** The families of keys the migration touches are disjoint. *)
Lemma legacy_not_ptr self i j :
  Keys.legacy_chunk_key self i ≠ ptr_key self j ∧ Keys.legacy_flat_chunk_key self i ≠ ptr_key self j.
Proof. unfold ptr_key. split; Keys.key_neq. Qed.
Lemma legacy_not_object self i h :
  Keys.legacy_chunk_key self i ≠ Keys.object_key self h ∧
  Keys.legacy_flat_chunk_key self i ≠ Keys.object_key self h.
Proof. split; Keys.key_neq. Qed.
Lemma ptr_not_object self i h : ptr_key self i ≠ Keys.object_key self h.
Proof. unfold ptr_key. Keys.key_neq. Qed.

(** ** One chunk *)

(** What the bucket looks like at the points where moving chunk [idx] can stop. *)
Definition moving self (idx : Z) (body : bytes) o o' : Prop :=
  let h := blake3 body in
  o' = o ∨ (∃ et, o' = <[Keys.object_key self h := (body, et)]> o) ∨
  ∃ et et', o' = <[ptr_key self idx := (Snap.encode_pointer h, et')]>
                   (<[Keys.object_key self h := (body, et)]> o).

(** The chunk is moved; each legacy object may or may not be gone. *)
Definition moved self (idx : Z) (body : bytes) o o' : Prop :=
  let h := blake3 body in ∃ et et' o1 o2,
  o1 = <[ptr_key self idx := (Snap.encode_pointer h, et')]>
         (<[Keys.object_key self h := (body, et)]> o) ∧
  (o2 = o1 ∨ o2 = delete (Keys.legacy_chunk_key self idx) o1) ∧
  (o' = o2 ∨ o' = delete (Keys.legacy_flat_chunk_key self idx) o2).

Lemma ignore_delete_spec k env :
  wp (ignore (S3.delete_object_key k))
    (λ _ env', (ok env → ok env') ∧ (objs env' = objs env ∨ objs env' = delete k (objs env)))
    (λ _ _, False) env.
Proof.
  eapply wp_ignore; [apply delete_spec|..].
  - intros _ env' [Hk Ho]. auto.
  - intros e env' [Hn Ho]. split; [done|]. naive_solver.
Qed.

Lemma legacy_lookup_spec self idx env :
  wp (r ← S3.get_bytes (Keys.legacy_chunk_key self idx);
      match r with
      | Some (body, _) => mret (Some body)
      | None =>
          r ← S3.get_bytes (Keys.legacy_flat_chunk_key self idx);
          match r with Some (body, _) => mret (Some body) | None => mret None end
      end)
    (λ r env', quiet env env' ∧ r = legacy_body self (objs env) idx)
    (λ e env', quiet env env' ∧ ¬ ok env) env.
Proof.
  wp_step. eapply wp_mono; [apply get_bytes_as_spec| |done]. intros r env1 [Hq1 ->].
  unfold legacy_body. destruct (objs env !! Keys.legacy_chunk_key self idx) as [[body et]|];
    [by wp_step|].
  wp_step. eapply wp_mono; [apply get_bytes_as_spec|..].
  - intros r env2 [Hq2 ->]. assert (quiet env env2) by (by etrans). destruct Hq1 as [-> _].
    destruct (objs env !! Keys.legacy_flat_chunk_key self idx) as [[body et]|]; by wp_step.
  - intros e env2 [Hq2 Hn]. split; [by etrans|]. intros Hok. by apply Hn, Hq1.
Qed.

Lemma wp_bind_assoc {S E A1 A2 A3} (m : M S E A1) (f : A1 → M S E A2) (g : A2 → M S E A3) Q R s :
  wp ((m ≫= f) ≫= g) Q R s → wp (m ≫= λ a, f a ≫= g) Q R s.
Proof. unfold wp, mbind, M_bind. destruct (m s) as [[] ?]; done. Qed.

Lemma migrate_chunk_spec self idx n env :
  wp (migrate_chunk self idx n)
    (λ _ env', (ok env → ok env') ∧
       match legacy_body self (objs env) idx with
       | None => objs env' = objs env
       | Some body => moved self idx body (objs env) (objs env')
       end)
    (λ e env', ¬ ok env ∧
       (objs env' = objs env ∨ ∃ body, legacy_body self (objs env) idx = Some body ∧
          moving self idx body (objs env) (objs env'))) env.
Proof.
  unfold migrate_chunk. apply wp_bind_assoc. wp_step.
  eapply wp_mono; [apply legacy_lookup_spec|..].
  2: { intros e env1 [[Ho _] Hn]. auto. }
  intros r env1 [[Ho1 Hk1] ->].
  destruct (legacy_body self (objs env) idx) as [body|] eqn:Hb; [|by wp_step].
  cbv zeta. unfold Snap.hash_object_bytes. wp_step.
  eapply wp_mono; [apply put_bytes_spec|..]; rewrite ?Ho1.
  2: { intros e env2 (_ & Ho2 & Hr). split; [destruct Hr as [?|[Hf _]]; [tauto|by destruct Hf]|].
       destruct Ho2 as [->|[et ->]]; [by left|]. right. exists body. split; [done|].
       right. left. eauto. }
  intros _ env2 (Hk2 & _ & et & Ho2). wp_step.
  eapply wp_mono; [apply put_bytes_spec|..]; rewrite ?Ho2.
  2: { intros e env3 (_ & Ho3 & Hr). split; [destruct Hr as [?|[Hf _]]; [tauto|by destruct Hf]|].
       right. exists body. split; [done|]. destruct Ho3 as [->|[et' ->]]; right; [left|right]; eauto. }
  intros _ env3 (Hk3 & _ & et' & Ho3). wp_step.
  eapply wp_mono; [apply ignore_delete_spec| |done]. intros _ env4 [Hk4 Ho4].
  wp_step. eapply wp_mono; [apply ignore_delete_spec| |done]. intros _ env5 [Hk5 Ho5].
  wp_step. split; [tauto|]. exists et, et', (objs env3), (objs env4). done.
Qed.

(** ** The whole migration *)

(** The pool only gains payloads of legacy chunks. *)
Record pool_step self o o' : Prop := {
  pl_keep h p et : Snap.is_hash h → o !! Keys.object_key self h = Some (p, et) →
    ∃ et', o' !! Keys.object_key self h = Some (p, et');
  pl_new h p et : Snap.is_hash h → o' !! Keys.object_key self h = Some (p, et) →
    (∃ et', o !! Keys.object_key self h = Some (p, et')) ∨
    ∃ idx, is_u64 idx ∧ legacy_body self o idx = Some p ∧ h = blake3 p
}.

(** The chunks in [pre] are done, the others untouched. *)
Record progress self o (pre : list Z) o' : Prop := {
  mp_done idx body : is_u64 idx → idx ∈ pre → legacy_body self o idx = Some body →
    (∃ et, o' !! ptr_key self idx = Some (Snap.encode_pointer (blake3 body), et)) ∧
    ∃ et, o' !! Keys.object_key self (blake3 body) = Some (body, et);
  mp_rest idx : is_u64 idx → idx ∉ pre ∨ legacy_body self o idx = None →
    o' !! Keys.legacy_chunk_key self idx = o !! Keys.legacy_chunk_key self idx ∧
    o' !! Keys.legacy_flat_chunk_key self idx = o !! Keys.legacy_flat_chunk_key self idx ∧
    o' !! ptr_key self idx = o !! ptr_key self idx;
  mp_sub idx v : is_u64 idx →
    (o' !! Keys.legacy_chunk_key self idx = Some v → o !! Keys.legacy_chunk_key self idx = Some v) ∧
    (o' !! Keys.legacy_flat_chunk_key self idx = Some v →
       o !! Keys.legacy_flat_chunk_key self idx = Some v);
  mp_pool : pool_step self o o'
}.

Lemma legacy_body_agree self o o' idx :
  o' !! Keys.legacy_chunk_key self idx = o !! Keys.legacy_chunk_key self idx →
  o' !! Keys.legacy_flat_chunk_key self idx = o !! Keys.legacy_flat_chunk_key self idx →
  legacy_body self o' idx = legacy_body self o idx.
Proof. unfold legacy_body. by intros -> ->. Qed.

(** The payload of a legacy chunk does not clash with the pool. *)
Lemma pool_step_clash self o o' idx body p et :
  migrate_admissible self o → is_u64 idx → legacy_body self o idx = Some body →
  pool_step self o o' → o' !! Keys.object_key self (blake3 body) = Some (p, et) → p = body.
Proof.
  intros Hadm Hidx Hb [_ Hn] Hl. destruct (Hadm idx body Hidx Hb) as [Hnc Hinj].
  apply Hn in Hl as [[et2 Hl]|(j & Hj & Hbj & Hh)]; [by eapply Hnc| |apply blake3_length].
  symmetry. by eapply Hinj.
Qed.

Lemma pool_insert_kept self o o' idx body et h p e :
  migrate_admissible self o → is_u64 idx → legacy_body self o idx = Some body →
  pool_step self o o' → o' !! Keys.object_key self h = Some (p, e) →
  ∃ e', <[Keys.object_key self (blake3 body) := (body, et)]> o' !! Keys.object_key self h
    = Some (p, e').
Proof.
  intros Hadm Hidx Hb Hp Hl.
  destruct (decide (Keys.object_key self (blake3 body) = Keys.object_key self h)) as [Heq|Hne].
  - rewrite <-Heq in *. rewrite lookup_insert_eq.
    rewrite (pool_step_clash _ _ _ _ _ _ _ Hadm Hidx Hb Hp Hl). eauto.
  - rewrite lookup_insert_ne by done. eauto.
Qed.

(** Storing a legacy chunk's payload in the pool. *)
Lemma pool_step_insert self o o' idx body et :
  migrate_admissible self o → is_u64 idx → legacy_body self o idx = Some body →
  pool_step self o o' →
  pool_step self o (<[Keys.object_key self (blake3 body) := (body, et)]> o').
Proof.
  intros Hadm Hidx Hb Hp. constructor.
  - intros h p e Hh Hl. destruct (pl_keep _ _ _ Hp h p e Hh Hl) as [e' Hl'].
    by eapply pool_insert_kept.
  - intros h p e Hh Hl. apply lookup_insert_Some in Hl as [[Heq Hv]|[_ Hl]]; [|by eapply (pl_new _ _ _ Hp)].
    apply Keys.object_key_inj in Heq; [|apply blake3_length|done]. right. exists idx.
    assert (p = body) as -> by congruence. done.
Qed.

(** Changes outside the pool. *)
Lemma pool_step_frame self o o' o'' :
  (∀ h, o'' !! Keys.object_key self h = o' !! Keys.object_key self h) →
  pool_step self o o' → pool_step self o o''.
Proof.
  intros Hf [Hk Hn]. constructor.
  - intros h p et Hh. rewrite Hf. by apply Hk.
  - intros h p et Hh. rewrite Hf. by apply Hn.
Qed.

(** Lookups in a moved bucket. *)
Lemma moved_lookups self idx body o o' :
  is_u64 idx → moved self idx body o o' →
  (∃ et, o' !! ptr_key self idx = Some (Snap.encode_pointer (blake3 body), et)) ∧
  (∃ et, (∀ h, o' !! Keys.object_key self h =
     <[Keys.object_key self (blake3 body) := (body, et)]> o !! Keys.object_key self h)) ∧
  (∀ j, is_u64 j → j ≠ idx →
     o' !! Keys.legacy_chunk_key self j = o !! Keys.legacy_chunk_key self j ∧
     o' !! Keys.legacy_flat_chunk_key self j = o !! Keys.legacy_flat_chunk_key self j ∧
     o' !! ptr_key self j = o !! ptr_key self j) ∧
  (∀ v, (o' !! Keys.legacy_chunk_key self idx = Some v → o !! Keys.legacy_chunk_key self idx = Some v) ∧
     (o' !! Keys.legacy_flat_chunk_key self idx = Some v →
        o !! Keys.legacy_flat_chunk_key self idx = Some v)).
Proof.
  intros Hidx (et & et' & o1 & o2 & Ho1 & Ho2 & Ho').
  pose proof (Keys.sharded_not_flat self) as Hsf.
  assert (Hlk : ∀ k, k ≠ Keys.legacy_chunk_key self idx → k ≠ Keys.legacy_flat_chunk_key self idx →
    o' !! k = o1 !! k).
  { intros k H1' H2'. destruct Ho' as [-> | ->], Ho2 as [-> | ->];
      by rewrite ?lookup_delete_ne by done. }
  assert (Hsub : ∀ k v, o' !! k = Some v → o1 !! k = Some v).
  { intros k v. destruct Ho' as [-> | ->], Ho2 as [-> | ->];
      rewrite ?lookup_delete_Some; naive_solver. }
  split; [|split; [|split]].
  - exists et'. rewrite Hlk, Ho1 by (apply not_eq_sym, legacy_not_ptr). by rewrite lookup_insert_eq.
  - exists et. intros h. rewrite Hlk, Ho1 by (apply not_eq_sym, legacy_not_object).
    by rewrite lookup_insert_ne by apply ptr_not_object.
  - intros j Hj Hne. rewrite !Hlk, Ho1; first last.
    all: try (apply not_eq_sym, legacy_not_ptr).
    all: try (by apply Hsf || by apply not_eq_sym, Hsf).
    all: try (by intros ?%Keys.legacy_chunk_key_inj || by intros ?%Keys.legacy_flat_key_inj).
    rewrite !lookup_insert_ne; try done; try apply ptr_not_object;
      try (apply not_eq_sym; (apply legacy_not_ptr || apply legacy_not_object));
      try (intros Heq; symmetry in Heq; by eapply ptr_not_object).
    by intros ?%ptr_key_inj.
  - intros v. split; intros Hl%Hsub; rewrite Ho1 in Hl;
      rewrite !lookup_insert_ne in Hl; try done;
      apply not_eq_sym; (apply legacy_not_ptr || apply legacy_not_object).
Qed.

Lemma progress_skip self o pre idx o' :
  legacy_body self o idx = None → progress self o pre o' → progress self o (pre ++ [idx]) o'.
Proof.
  intros Hb [Hd Hr Hs Hp]. constructor; [..|done|done].
  - intros j body Hj [Hin| ->%list_elem_of_singleton]%elem_of_app Hbj; [eauto|congruence].
  - intros j Hj Hc. apply Hr; [done|]. set_solver.
Qed.

Lemma progress_move self o pre idx body o' o'' :
  migrate_admissible self o → is_u64 idx → idx ∉ pre → legacy_body self o idx = Some body →
  progress self o pre o' → moved self idx body o' o'' → progress self o (pre ++ [idx]) o''.
Proof.
  intros Hadm Hidx Hni Hb [Hd Hr Hs Hp] Hm.
  destruct (moved_lookups self idx body o' o'' Hidx Hm) as (Hptr & [et Hobj] & Hoth & Hsub).
  assert (Hp' : pool_step self o o'').
  { eapply pool_step_frame; [exact Hobj|]. by eapply pool_step_insert. }
  constructor; [..|done].
  - intros j bj Hj [Hin| ->%list_elem_of_singleton]%elem_of_app Hbj.
    + assert (j ≠ idx) by (by intros ->). destruct (Hoth j Hj) as (_ & _ & ->); [done|].
      destruct (Hd j bj Hj Hin Hbj) as [Hpj [ej Hoj]]. split; [done|].
      rewrite Hobj. destruct (decide (Keys.object_key self (blake3 body) =
        Keys.object_key self (blake3 bj))) as [Heq|Hne]; [|rewrite lookup_insert_ne by done; eauto].
      rewrite Heq, lookup_insert_eq. exists et. repeat f_equal.
      apply Keys.object_key_inj in Heq; [|apply blake3_length..].
      by apply (Hadm idx body Hidx Hb) with j.
    + assert (bj = body) as -> by congruence. split; [done|].
      exists et. by rewrite Hobj, lookup_insert_eq.
  - intros j Hj Hc. assert (j ≠ idx) by (intros ->; destruct Hc; [set_solver|congruence]).
    destruct (Hoth j Hj) as (-> & -> & ->); [done|]. apply Hr; [done|]. set_solver.
  - intros j v Hj. destruct (decide (j = idx)) as [->|Hne].
    + destruct (Hsub v), (Hs idx v Hj). auto.
    + destruct (Hoth j Hj Hne) as (-> & -> & _). by apply Hs.
Qed.

(** A pointer that could be read before shows the same afterwards. *)
Lemma cow_view_kept self o o' idx c :
  pool_step self o o' → o' !! ptr_key self idx = o !! ptr_key self idx →
  chunk_view (cow self) o idx = Ok c → chunk_view (cow self) o' idx = Ok c.
Proof.
  intros [Hk _] Hp Hv. unfold chunk_view in *.
  change (st_storage (cow self)) with Cow in *. rewrite ptr_key_cow in *. rewrite Hp.
  destruct (o !! ptr_key self idx) as [[ptr e]|]; [|done].
  unfold mbind, outcome_bind in *. destruct (Snap.decode_pointer ptr) as [h| | |] eqn:Hd; try done.
  change (Keys.object_key (cow self) h) with (Keys.object_key self h) in *.
  destruct (o !! Keys.object_key self h) as [[body e']|] eqn:Ho; [|done].
  destruct (Hk h body e') as [et ->]; [by apply Snap.decode_pointer_hash in Hd as [? _]|done|done].
Qed.

Lemma moved_view self o idx body et et' :
  o !! ptr_key self idx = Some (Snap.encode_pointer (blake3 body), et) →
  o !! Keys.object_key self (blake3 body) = Some (body, et') →
  chunk_view (cow self) o idx =
    Comp.decode_chunk (st_compression self) body (st_chunk_size self).
Proof.
  intros Hp Ho. unfold chunk_view. change (st_storage (cow self)) with Cow. cbv beta iota zeta.
  rewrite ptr_key_cow, Hp, Snap.decode_encode_pointer by apply blake3_length.
  unfold mbind, outcome_bind. change (Keys.object_key (cow self)) with (Keys.object_key self).
  by rewrite Ho.
Qed.

(** When every legacy chunk is done, the pointers show the volume. *)
Lemma progress_cow_view self o l o' idx :
  mixed_ok self o → is_u64 idx → (legacy_body self o idx ≠ None → idx ∈ l) →
  progress self o l o' → chunk_view (cow self) o' idx = mixed_view self o idx.
Proof.
  intros Hok Hidx Hl [Hd Hr Hs Hp]. destruct (Hok idx Hidx) as [c Hc].
  unfold mixed_view in *. destruct (legacy_body self o idx) as [body|] eqn:Hb.
  - destruct (Hd idx body Hidx) as [[e1 Hptr] [e2 Hobj]]; [by apply Hl|done|]. by eapply moved_view.
  - rewrite Hc. eapply cow_view_kept; [done| |done]. apply Hr; auto.
Qed.

(** ** Interruption *)

(** Every chunk is still shown, by its legacy object or its pointer. *)
Record safe self o o' : Prop := {
  sf_chunk idx : is_u64 idx →
    legacy_body self o' idx = legacy_body self o idx ∧
      (legacy_body self o idx = None → o' !! ptr_key self idx = o !! ptr_key self idx) ∨
    ∃ body et et', legacy_body self o idx = Some body ∧ legacy_body self o' idx = None ∧
      o' !! ptr_key self idx = Some (Snap.encode_pointer (blake3 body), et) ∧
      o' !! Keys.object_key self (blake3 body) = Some (body, et');
  sf_single : single_copy self o';
  sf_pool : pool_step self o o'
}.

Lemma safe_mixed_view self o o' idx :
  mixed_ok self o → safe self o o' → is_u64 idx → mixed_view self o' idx = mixed_view self o idx.
Proof.
  intros Hok [Hc _ Hp] Hidx. destruct (Hok idx Hidx) as [c Hv]. unfold mixed_view in *.
  destruct (Hc idx Hidx) as [[-> Hptr]|(body & et & et' & Hb & -> & Hpt & Ho)].
  - destruct (legacy_body self o idx) eqn:Hb; [done|]. rewrite Hv.
    eapply cow_view_kept; eauto.
  - rewrite Hb. by eapply moved_view.
Qed.

Lemma safe_admissible self o o' :
  migrate_admissible self o → safe self o o' → migrate_admissible self o'.
Proof.
  intros Hadm [Hc _ [_ Hn]].
  assert (Hsub : ∀ i b, is_u64 i → legacy_body self o' i = Some b → legacy_body self o i = Some b).
  { intros i b Hi Hb. destruct (Hc i Hi) as [[<- _]|(? & ? & ? & _ & ? & _)]; [done|congruence]. }
  intros i b Hi Hb%Hsub; [|done]. destruct (Hadm i b Hi Hb) as [Hnc Hinj]. split.
  - intros Hm p et Hl. apply Hn in Hl as [[et' Hl]|(j & Hj & Hbj & Hh)]; [by eapply Hnc| |apply blake3_length].
    symmetry. by eapply Hinj.
  - intros j bj Hj Hbj%Hsub; [|done]. by apply Hinj with j.
Qed.

Lemma progress_safe self o pre o' :
  single_copy self o → progress self o pre o' → safe self o o'.
Proof.
  intros Hsc [Hd Hr Hs Hp]. constructor; [..|done].
  - intros idx Hidx. destruct (decide (idx ∈ pre)) as [Hin|Hni].
    2: { left. destruct (Hr idx Hidx (or_introl Hni)) as (? & ? & ?).
         split; [by apply legacy_body_agree|done]. }
    destruct (legacy_body self o idx) as [body|] eqn:Hb.
    2: { left. destruct (Hr idx Hidx (or_intror Hb)) as (? & ? & ?). split; [|done].
         rewrite <-Hb. by apply legacy_body_agree. }
    destruct (Hd idx body Hidx Hin Hb) as [[e1 H1'] [e2 H2']].
    destruct (legacy_body self o' idx) as [b'|] eqn:Hb'; [left|right; by exists body, e1, e2].
    split; [|congruence]. unfold legacy_body in *. destruct (Hsc idx Hidx) as [Hn|Hn]; rewrite Hn in *.
    + destruct (o' !! Keys.legacy_chunk_key self idx) as [v|] eqn:Hl.
      { apply (Hs idx v Hidx) in Hl. congruence. }
      destruct (o' !! Keys.legacy_flat_chunk_key self idx) as [v|] eqn:Hl2; [|done].
      apply (Hs idx v Hidx) in Hl2. rewrite Hl2 in Hb. simpl in *. congruence.
    + destruct (o' !! Keys.legacy_chunk_key self idx) as [[v e]|] eqn:Hl.
      { apply (Hs idx (v, e) Hidx) in Hl. rewrite Hl in Hb. congruence. }
      destruct (o' !! Keys.legacy_flat_chunk_key self idx) as [v|] eqn:Hl2; [|done].
      apply (Hs idx v Hidx) in Hl2. congruence.
  - intros idx Hidx.
    destruct (o' !! Keys.legacy_chunk_key self idx) as [v|] eqn:Hl; [|by left].
    destruct (o' !! Keys.legacy_flat_chunk_key self idx) as [w|] eqn:Hl2; [|by right].
    apply (Hs idx v Hidx) in Hl. apply (Hs idx w Hidx) in Hl2.
    destruct (Hsc idx Hidx); congruence.
Qed.

(** A chunk that is being moved still has its legacy object. *)
Lemma moving_safe self o pre idx body o' o'' :
  migrate_admissible self o → single_copy self o → is_u64 idx → idx ∉ pre →
  legacy_body self o idx = Some body →
  progress self o pre o' → moving self idx body o' o'' → safe self o o''.
Proof.
  intros Hadm Hsc Hidx Hni Hb Hpr Hmv.
  pose proof (progress_safe _ _ _ _ Hsc Hpr) as Hsf.
  destruct Hmv as [->|Hmv]; [done|].
  assert (∃ et, (∀ k, (∀ j, is_u64 j → k ≠ ptr_key self j ∨ j ≠ idx) →
      o'' !! k = <[Keys.object_key self (blake3 body) := (body, et)]> o' !! k)) as [et Hk].
  { destruct Hmv as [[et ->]|(et & et' & ->)]; exists et; [done|].
    intros k Hk. destruct (Hk idx Hidx) as [Hne|]; [|done]. by rewrite lookup_insert_ne. }
  assert (Hleg : ∀ j, o'' !! Keys.legacy_chunk_key self j = o' !! Keys.legacy_chunk_key self j ∧
    o'' !! Keys.legacy_flat_chunk_key self j = o' !! Keys.legacy_flat_chunk_key self j).
  { intros j. split; rewrite Hk, lookup_insert_ne; try done;
      try (apply not_eq_sym, legacy_not_object); intros i _; left; apply legacy_not_ptr. }
  assert (Hobj : ∀ h, o'' !! Keys.object_key self h =
    <[Keys.object_key self (blake3 body) := (body, et)]> o' !! Keys.object_key self h).
  { intros h. apply Hk. intros j _. left. apply not_eq_sym, ptr_not_object. }
  assert (Hlb : ∀ j, legacy_body self o'' j = legacy_body self o' j)
    by (intros j; by apply legacy_body_agree; apply Hleg).
  constructor.
  - intros j Hj. rewrite Hlb. destruct (decide (j = idx)) as [->|Hne].
    + left. destruct (mp_rest _ _ _ _ Hpr idx Hidx (or_introl Hni)) as (? & ? & _).
      split; [by apply legacy_body_agree|congruence].
    + assert (o'' !! ptr_key self j = o' !! ptr_key self j) as ->.
      { rewrite Hk, lookup_insert_ne; [done| |].
        - intros Heq. symmetry in Heq. by eapply ptr_not_object.
        - intros i Hi. destruct (decide (i = idx)) as [->|]; [left|by right].
          by intros ?%ptr_key_inj. }
      destruct (sf_chunk _ _ _ Hsf j Hj) as [?|(bj & e1 & e2 & ? & ? & ? & Ho)]; [by left|right].
      destruct (pool_insert_kept self o o' idx body et (blake3 bj) bj e2) as [e' He'];
        [done..|apply Hsf|done|].
      exists bj, e1, e'. rewrite Hobj. done.
  - intros j Hj. destruct (Hleg j) as [-> ->]. by apply Hsf.
  - eapply pool_step_frame; [exact Hobj|]. eapply pool_step_insert; [done..|]. apply Hsf.
Qed.

(** The indices the migration lists are those of all legacy chunks. *)
Lemma legacy_listed self o idx v :
  is_u64 idx → legacy_body self o idx = Some v →
  ∃ k w, o !! k = Some w ∧
    Keys.parse_chunk_index_from_key (st_prefix self +:+ "/chunks/") k = Some idx.
Proof.
  intros Hidx. unfold legacy_body.
  destruct (o !! Keys.legacy_chunk_key self idx) as [w|] eqn:H1'.
  - intros _. exists (Keys.legacy_chunk_key self idx), w. split; [done|by apply Keys.parse_legacy_key].
  - intros (w & Hw & _)%fmap_Some. exists (Keys.legacy_flat_chunk_key self idx), w.
    split; [done|by apply Keys.parse_flat_key].
Qed.

Lemma migrate_chunks_spec self indices env :
  mixed_ok self (objs env) → migrate_admissible self (objs env) →
  StronglySorted Z.lt indices → Forall is_u64 indices →
  wp (for_each indices (migrate_chunk self) (0, 0))
    (λ _ env', (ok env → ok env') ∧ progress self (objs env) indices (objs env'))
    (λ e env', ¬ ok env ∧ (single_copy self (objs env) → safe self (objs env) (objs env'))) env.
Proof.
  intros Hok Hadm Hsort Hu.
  eapply wp_mono; [apply (wp_for_each (λ pre post _ env', indices = pre ++ post ∧
      (ok env → ok env') ∧ progress self (objs env) pre (objs env'))
    (λ _ env', ¬ ok env ∧ (single_copy self (objs env) → safe self (objs env) (objs env'))))|..].
  - intros pre idx post n env1 (Hl & Hk & Hpr).
    assert (is_u64 idx) as Hidx by (rewrite Forall_forall in Hu; apply Hu; rewrite Hl; set_solver).
    assert (idx ∉ pre) as Hni.
    { apply sorted_lt_nodup in Hsort. rewrite Hl in Hsort.
      apply NoDup_app in Hsort as (_ & Hd & _). intros Hi. eapply Hd; [done|set_solver]. }
    destruct (mp_rest _ _ _ _ Hpr idx Hidx (or_introl Hni)) as (Hr1 & Hr2 & _).
    pose proof (legacy_body_agree self _ _ idx Hr1 Hr2) as Hlb.
    eapply wp_mono; [apply migrate_chunk_spec|..]; rewrite Hlb.
    + intros _ env2 [Hk2 Hmv]. rewrite <-app_assoc. split; [done|]. split; [tauto|].
      destruct (legacy_body self (objs env) idx) as [body|] eqn:Hb.
      * by eapply progress_move.
      * rewrite Hmv. by apply progress_skip.
    + intros e env2 [Hn Hmv]. split; [tauto|]. intros Hsc.
      destruct Hmv as [->|(body & Hb & Hmv)]; [by eapply progress_safe|by eapply moving_safe].
  - split; [done|]. split; [done|]. constructor; try done.
    + intros ??? ?%elem_of_nil. done.
    + constructor; eauto.
  - naive_solver.
  - done.
Qed.

(** ** Documents do not show in the volume *)
Definition is_doc_key self (k : string) : Prop :=
  k = Keys.migrating_key self ∨ k = Keys.live_meta_key self ∨ k = Keys.flat_meta_key self.

(** The same chunk and pool objects. *)
Record data_agree self o o' : Prop := {
  da_legacy i : o' !! Keys.legacy_chunk_key self i = o !! Keys.legacy_chunk_key self i;
  da_flat i : o' !! Keys.legacy_flat_chunk_key self i = o !! Keys.legacy_flat_chunk_key self i;
  da_ptr i : o' !! ptr_key self i = o !! ptr_key self i;
  da_object h : o' !! Keys.object_key self h = o !! Keys.object_key self h
}.

Lemma doc_key_apart self k :
  is_doc_key self k →
  (∀ i, k ≠ Keys.legacy_chunk_key self i ∧ k ≠ Keys.legacy_flat_chunk_key self i ∧ k ≠ ptr_key self i) ∧
  ∀ h, k ≠ Keys.object_key self h.
Proof.
  unfold ptr_key. intros [->|[-> | ->]]; (split; [intros i; repeat split|intros h]); Keys.key_neq.
Qed.

Lemma doc_insert_agree self k v o : is_doc_key self k → data_agree self o (<[k := v]> o).
Proof.
  intros [Hc Ho]%doc_key_apart. constructor; intros; rewrite lookup_insert_ne; try done; apply Hc.
Qed.
Lemma doc_delete_agree self k o : is_doc_key self k → data_agree self o (delete k o).
Proof.
  intros [Hc Ho]%doc_key_apart. constructor; intros; rewrite lookup_delete_ne; try done; apply Hc.
Qed.

Lemma agree_legacy_body self o o' idx :
  data_agree self o o' → legacy_body self o' idx = legacy_body self o idx.
Proof. intros []. by apply legacy_body_agree. Qed.

Lemma agree_cow_view self o o' idx :
  data_agree self o o' → chunk_view (cow self) o' idx = chunk_view (cow self) o idx.
Proof.
  intros []. apply chunk_view_agree; [done|]. intros _. rewrite ptr_key_cow. split; [done|].
  intros h. change (Keys.object_key (cow self) h) with (Keys.object_key self h). done.
Qed.

Lemma agree_mixed_view self o o' idx :
  data_agree self o o' → mixed_view self o' idx = mixed_view self o idx.
Proof.
  intros Ha. unfold mixed_view.
  by rewrite (agree_legacy_body _ _ _ _ Ha), (agree_cow_view _ _ _ _ Ha).
Qed.

Lemma agree_admissible self o o' :
  data_agree self o o' → migrate_admissible self o → migrate_admissible self o'.
Proof.
  intros Ha Hadm i b Hi. rewrite (agree_legacy_body _ _ _ _ Ha). intros Hb.
  destruct (Hadm i b Hi Hb) as [Hnc Hinj]. split.
  - intros Hm p et. change (Keys.object_key (cow self)) with (Keys.object_key self).
    rewrite (da_object _ _ _ Ha). by apply Hnc.
  - intros j bj Hj. rewrite (agree_legacy_body _ _ _ _ Ha). by apply Hinj.
Qed.

Lemma agree_safe self o o1 o2 : data_agree self o o1 → safe self o1 o2 → safe self o o2.
Proof.
  intros Ha [Hc Hs [Hk Hn]]. constructor; [|done|constructor].
  - intros idx Hidx. specialize (Hc idx Hidx).
    rewrite (agree_legacy_body _ _ _ _ Ha), (da_ptr _ _ _ Ha) in Hc. done.
  - intros h p et Hh. rewrite <-(da_object _ _ _ Ha). by apply Hk.
  - intros h p et Hh Hl. specialize (Hn h p et Hh Hl). rewrite (da_object _ _ _ Ha) in Hn.
    destruct Hn as [?|(i & Hi & Hb & ?)]; [by left|right]. exists i.
    rewrite (agree_legacy_body _ _ _ _ Ha) in Hb. done.
Qed.

Lemma safe_agree self o o1 o2 : safe self o o1 → data_agree self o1 o2 → safe self o o2.
Proof.
  intros [Hc Hs [Hk Hn]] Ha. constructor; [| |constructor].
  - intros idx Hidx. specialize (Hc idx Hidx).
    rewrite (agree_legacy_body _ _ _ _ Ha), (da_ptr _ _ _ Ha).
    destruct Hc as [?|(b & e1 & e2 & ? & ? & ? & ?)]; [by left|right].
    exists b, e1, e2. by rewrite (da_object _ _ _ Ha).
  - intros idx Hidx. rewrite (da_legacy _ _ _ Ha), (da_flat _ _ _ Ha). by apply Hs.
  - intros h p et Hh. rewrite (da_object _ _ _ Ha). by apply Hk.
  - intros h p et Hh. rewrite (da_object _ _ _ Ha). by apply Hn.
Qed.

Lemma safe_refl self o : single_copy self o → safe self o o.
Proof. intros Hs. constructor; [by left|done|constructor; eauto]. Qed.

Lemma live_meta_not_others self :
  Keys.live_meta_key self ≠ Keys.flat_meta_key self ∧
  Keys.live_meta_key self ≠ Keys.migrating_key self.
Proof. split; Keys.key_neq. Qed.

(** The commit: the COW metadata is written, then the handle switches over. *)
Lemma put_doc_spec self k body ct env :
  is_doc_key self k →
  wp (S3.put_bytes k body ct None)
    (λ _ env', (ok env → ok env') ∧ data_agree self (objs env) (objs env') ∧
       ∃ et, objs env' = <[k := (body, et)]> (objs env))
    (λ e env', ¬ ok env ∧ data_agree self (objs env) (objs env')) env.
Proof.
  intros Hk. eapply wp_mono; [apply put_bytes_spec|..].
  - intros _ env' (Ho & _ & et & He). split; [done|]. rewrite He.
    split; [by apply doc_insert_agree|eauto].
  - intros e env' (_ & Ho & Hr). split; [destruct Hr as [?|[Hf _]]; [done|by destruct Hf]|].
    destruct Ho as [->|[et ->]]; [by constructor|by apply doc_insert_agree].
Qed.

Lemma drop_doc_spec self k env :
  is_doc_key self k → k ≠ Keys.live_meta_key self →
  wp (ignore (S3.delete_object_key k))
    (λ _ env', (ok env → ok env') ∧ data_agree self (objs env) (objs env') ∧
       objs env' !! Keys.live_meta_key self = objs env !! Keys.live_meta_key self)
    (λ _ _, False) env.
Proof.
  intros Hk Hne. eapply wp_mono; [apply ignore_delete_spec| |done].
  intros _ env' [Ho [-> | ->]]; (split; [done|]).
  - by split; [constructor|].
  - split; [by apply doc_delete_agree|by rewrite lookup_delete_ne].
Qed.

Lemma agree_trans self o1 o2 o3 : data_agree self o1 o2 → data_agree self o2 o3 → data_agree self o1 o3.
Proof. intros [] []. constructor; intros; congruence. Qed.

Lemma migrate_to_cow_spec (s : S3.state B) :
  let self := S3.s_store s in let o := S3Block.s_objs s in
  st_storage self = Legacy → mixed_ok self o → migrate_admissible self o →
  wp migrate_to_cow
    (λ _ s', (ok (S3.s_env s) → ok (S3.s_env s')) ∧ S3.s_store s' = cow self ∧
       (∀ idx, is_u64 idx →
          chunk_view (S3.s_store s') (S3Block.s_objs s') idx = mixed_view self o idx) ∧
       ∃ body et, S3Block.s_objs s' !! Keys.live_meta_key self = Some (body, et) ∧
         meta_from_json body = inl (S3.meta_of self (st_capacity self) Cow))
    (λ e s', ¬ ok (S3.s_env s) ∧ S3.s_store s' = self ∧
       (single_copy self o → safe self o (S3Block.s_objs s'))) s.
Proof.
  intros self o Hm Hok Hadm. unfold migrate_to_cow. wp_steps. fold self. rewrite Hm.
  apply wp_on_env_bind. fold self.
  eapply wp_mono; [apply (put_doc_spec self); by left|..].
  2: { intros e env1 [Hn Ha]. split; [done|]. split; [done|]. intros Hsc.
       eapply safe_agree; [by apply safe_refl|done]. }
  intros _ env1 (Hk1 & Ha1 & _). simpl.
  apply wp_on_env_bind. simpl. fold self.
  eapply wp_mono; [apply list_chunk_indices_spec|..].
  { change "/chunks/" with ("/chunks" +:+ "/"). rewrite str_app_assoc. apply ends_with_app. }
  2: { intros e env2 [[Ho2 _] Hn]. split; [tauto|]. split; [done|]. intros Hsc.
       unfold S3Block.s_objs. simpl. rewrite Ho2. eapply safe_agree; [by apply safe_refl|done]. }
  intros indices env2 ([Ho2 Hk2] & Hsort & Hin). simpl.
  apply wp_on_env_bind. simpl. fold self.
  change (objs (S3.s_env s)) with o in Ha1.
  assert (Ha2 : data_agree self o (objs env2)) by (by rewrite Ho2).
  assert (Hok2 : mixed_ok self (objs env2)).
  { intros i Hi. rewrite (agree_mixed_view _ _ _ _ Ha2). by apply Hok. }
  eapply wp_mono; [apply migrate_chunks_spec; [done|by eapply agree_admissible|done|]|..].
  { rewrite Forall_forall. intros i (k & w & _ & Hp)%Hin. by eapply Keys.parse_chunk_index_range. }
  2: { intros e env3 [Hn Hsf]. split; [tauto|]. split; [done|]. intros Hsc.
       eapply agree_safe; [done|]. apply Hsf. intros i Hi.
       rewrite (da_legacy _ _ _ Ha2), (da_flat _ _ _ Ha2). by apply Hsc. }
  intros n env3 [Hk3 Hpr]. simpl.
  apply wp_on_env_bind. simpl. fold self.
  destruct (meta_json_roundtrip (S3.meta_of self (st_capacity self) Cow)) as (body & -> & Hj).
  eapply wp_mono; [apply (put_doc_spec self); by right; left|..].
  2: { intros e env4 [Hn Ha4]. split; [tauto|]. split; [done|]. intros Hsc.
       eapply safe_agree; [|exact Ha4]. eapply agree_safe; [exact Ha2|].
       eapply progress_safe; [|exact Hpr]. intros i Hi.
       rewrite (da_legacy _ _ _ Ha2), (da_flat _ _ _ Ha2). by apply Hsc. }
  intros _ env4 (Hk4 & Ha4 & et & Ho4). simpl. wp_step. wp_step.
  destruct (live_meta_not_others self) as [Hne1 Hne2].
  apply wp_on_env_bind. simpl. fold self.
  eapply wp_mono; [apply (drop_doc_spec self); [by right; right|done]| |done].
  intros _ env5 (Hk5 & Ha5 & Hl5). simpl.
  apply wp_on_env_bind. simpl. fold self.
  eapply wp_mono; [apply (drop_doc_spec self); [by left|done]| |done].
  intros _ env6 (Hk6 & Ha6 & Hl6). wp_step. simpl.
  split; [tauto|]. split; [done|]. split.
  - intros idx Hidx. unfold S3Block.s_objs. simpl.
    change (S3.with_storage Cow (S3.s_store s)) with (cow self).
    rewrite (agree_cow_view self (objs env3))
      by (eapply agree_trans; [|exact Ha6]; by eapply agree_trans).
    rewrite <-(agree_mixed_view self o (objs env2)) by done.
    apply (progress_cow_view self (objs env2) indices); [done|done| |done].
    intros Hb. apply Hin. rewrite <-Ho2.
    destruct (legacy_body self (objs env2) idx) as [w|] eqn:Hw; [|done]. by eapply legacy_listed.
  - exists body, et. unfold S3Block.s_objs. simpl. rewrite Hl6, Hl5, Ho4, lookup_insert_eq. done.
Qed.

(** A volume without COW pointers is shown by its legacy objects. *)
Lemma legacy_mixed_view self o idx :
  st_storage self = Legacy → o !! Keys.chunk_key (cow self) idx = None →
  mixed_view self o idx = chunk_view self o idx.
Proof.
  intros Hm Hp. unfold mixed_view, legacy_body, chunk_view. rewrite Hm.
  change (st_storage (cow self)) with Cow. cbv beta iota zeta. rewrite Hp.
  destruct (o !! Keys.legacy_chunk_key self idx) as [[body e]|]; [done|].
  by destruct (o !! Keys.legacy_flat_chunk_key self idx) as [[body e]|].
Qed.
End spec.
End Migrate.
