(* ===== verification/S3Open.v ===== *)
(** * Opening a volume

    [open] probes the layout, checks the recorded geometry, applies the
    grow-only capacity rule and finishes an interrupted migration. *)
From S2P Require Import Prelude Text Store Compression Snapshot S3Api S3Keys S3Store S3Spec S3Block.
From S2P Require Import S3Snap S3SnapSpec S3Migrate.
#[local] Open Scope string_scope.
#[local] Open Scope list_scope.
#[local] Open Scope Z_scope.

Module Open.
Import S3Spec S3Snap SnapSpec.
Section spec.
Context {B : Type} `{S3Laws B} `{CodecLaws} `{Blake3Laws} `{JsonLaws}.
Implicit Types (env : Env B) (self : S3ChunkStore) (o : object_map).

(** The metadata document at [k]: [None] when absent. *)
Definition meta_at o (k : string) : option (option VolumeMeta) :=
  match o !! k with
  | None => Some None
  | Some (body, _) =>
      match meta_from_json body with
      | inl m => if vm_version m =? Keys.META_VERSION then Some (Some m) else None
      | inr _ => None
      end
  end.

Lemma get_meta_at_spec k env :
  wp (S3.get_meta_at k)
    (λ r env', quiet env env' ∧ meta_at (objs env) k = Some r)
    (λ e env', quiet env env' ∧ (¬ ok env ∨ meta_at (objs env) k = None)) env.
Proof.
  apply wp_observed, wp_run_on_runtime. apply wp_bind.
  eapply wp_mono; [apply get_task_spec|..].
  2: { intros e b' (Ho & Hn). split; [done|].
       split; [|intros _ e']; intros env' <-; (split; [by split|by left]). }
  intros r b' (Ho & -> & Hh).
  assert (Hq : ∀ env', env_svc env' = b' → quiet env env').
  { intros env' <-. split; [done|]. unfold ok. naive_solver. }
  assert (Ht : healthy (env_svc env) → s3_timed_out b' = false) by naive_solver.
  assert (Hr : ¬ healthy (env_svc env) → ∀ (e : StoreError) env', env_svc env' = b' →
    quiet env env' ∧ (¬ ok env ∨ meta_at (objs env) k = None)).
  { intros Hn e env' He. split; [auto|by left]. }
  unfold meta_at. change (objects (env_svc env)) with (objs env) in *.
  destruct (objs env !! k) as [[body et]|]; [|wp_step; auto].
  destruct (meta_from_json body) as [m|e]; [|wp_step; auto].
  destruct (vm_version m =? Keys.META_VERSION); simpl; wp_step; auto.
Qed.

Lemma plan_capacity_spec existing cap cs bs comp mode :
  match Keys.plan_capacity existing cap cs bs comp mode with
  | Ok (eff, w) => eff = cap ∧
      (∀ m, existing = Some m → vm_chunk_size m = cs ∧ vm_block_size m = bs ∧
         vm_compression m = comp ∧ vm_storage m = mode ∧ vm_capacity_bytes m ≤ cap) ∧
      match w with
      | Some m' => vm_capacity_bytes m' = cap ∧ vm_chunk_size m' = cs ∧ vm_block_size m' = bs ∧
          vm_compression m' = comp ∧ vm_storage m' = mode ∧
          match existing with
          | Some m => vm_version m' = vm_version m ∧ vm_capacity_bytes m < cap
          | None => vm_version m' = Keys.META_VERSION
          end
      | None => ∃ m, existing = Some m ∧ vm_capacity_bytes m = cap
      end
  | Err (ShrinkRefused c r) => ∃ m, existing = Some m ∧ c = vm_capacity_bytes m ∧ r = cap ∧ cap < c
  | Err _ => ∃ m, existing = Some m ∧ ¬ (vm_chunk_size m = cs ∧ vm_block_size m = bs ∧
      vm_compression m = comp ∧ vm_storage m = mode)
  | _ => False
  end.
Proof.
  unfold Keys.plan_capacity. destruct existing as [m|]; [|naive_solver].
  destruct (Z.eqb_spec (vm_chunk_size m) cs); simpl; [|naive_solver].
  destruct (Z.eqb_spec (vm_block_size m) bs); simpl; [|naive_solver].
  destruct (bool_decide_reflect (vm_compression m = comp)); simpl; [|naive_solver].
  destruct (bool_decide_reflect (vm_storage m = mode)); simpl; [|naive_solver].
  destruct (Z.ltb_spec cap (vm_capacity_bytes m)); [naive_solver|].
  destruct (Z.gtb_spec cap (vm_capacity_bytes m)).
  - split; [done|]. split; [naive_solver lia|]. naive_solver lia.
  - split; [lia|]. split; [naive_solver lia|]. exists m. split; [done|lia].
Qed.

(** Both metadata documents can be read, and there is none of the other layout
    when the volume is a legacy one. *)
Definition readable (mode : StorageMode) self o : Prop :=
  ∃ live flat, meta_at o (Keys.live_meta_key self) = Some live ∧
    meta_at o (Keys.flat_meta_key self) = Some flat ∧ (mode = Legacy → live = None).

(** Probing succeeds only in the configured mode. *)
Lemma probe_layout_spec self config env :
  wp (probe_layout self config)
    (λ r env', quiet env env' ∧ r.1 = config ∧
       meta_at (objs env) (Keys.meta_key (S3.with_storage config self)) = Some r.2 ∧
       readable config self (objs env))
    (λ e env', quiet env env') env.
Proof.
  unfold probe_layout. wp_step. eapply wp_mono; [apply get_meta_at_spec| |naive_solver].
  intros live env1 [Hq1 Hl]. wp_step.
  eapply wp_mono; [apply get_meta_at_spec| |intros e env2 [Hq2 _]; by etrans].
  intros flat env2 [Hq2 Hf]. assert (quiet env env2) by (by etrans).
  destruct Hq1 as [Ho1 _]. rewrite Ho1 in Hf.
  assert (Hrd : (config = Legacy → live = None) → readable config self (objs env))
    by (intros Hm; by exists live, flat).
  destruct live as [m|]; [|destruct flat as [m|]].
  - destruct (bool_decide_reflect (vm_storage m = Cow)); simpl; [|by wp_step].
    destruct (bool_decide_reflect (config = Cow)) as [->|]; simpl; wp_step; [|done]. naive_solver.
  - destruct (bool_decide_reflect (vm_storage m = Cow)); simpl; [by wp_step|].
    destruct (bool_decide_reflect (config = Cow)); simpl; [by wp_step|].
    destruct config; [|done]. wp_step. naive_solver.
  - wp_step. split; [done|]. split; [done|]. split; [|naive_solver]. simpl. by destruct config.
Qed.

(** At most the metadata document changed. *)
Definition only_meta self o o' : Prop := o' = o ∨ ∃ v, o' = <[Keys.meta_key self := v]> o.
Lemma only_meta_same self o o' : only_meta self o o' → view_same self o o'.
Proof. intros [->|[v ->]]; [done|apply meta_insert_same]. Qed.
Lemma only_meta_lookup self o o' k : only_meta self o o' → k ≠ Keys.meta_key self → o' !! k = o !! k.
Proof. intros [->|[v ->]] Hk; [done|]. by rewrite lookup_insert_ne. Qed.

(** The metadata document of a volume opened with [cfg]. *)
Record records (cfg : S3StoreConfig) (m : VolumeMeta) : Prop := {
  rd_chunk : vm_chunk_size m = sc_chunk_size cfg;
  rd_block : vm_block_size m = sc_block_size cfg;
  rd_compression : vm_compression m = sc_compression cfg;
  rd_storage : vm_storage m = sc_storage cfg;
  rd_capacity : vm_capacity_bytes m = sc_capacity cfg
}.

(** The grow-only rule, on the bucket. *)
Lemma resolve_meta_spec self cap existing env :
  meta_at (objs env) (Keys.meta_key self) = Some existing →
  wp (resolve_meta self cap existing)
    (λ eff env', (ok env → ok env') ∧ eff = cap ∧ only_meta self (objs env) (objs env') ∧
       (∀ m, existing = Some m →
          vm_chunk_size m = st_chunk_size self ∧ vm_block_size m = st_block_size self ∧
          vm_compression m = st_compression self ∧ vm_storage m = st_storage self ∧
          vm_capacity_bytes m ≤ cap) ∧
       ∃ m, meta_at (objs env') (Keys.meta_key self) = Some (Some m) ∧ vm_capacity_bytes m = cap ∧
         vm_chunk_size m = st_chunk_size self ∧ vm_block_size m = st_block_size self ∧
         vm_compression m = st_compression self ∧ vm_storage m = st_storage self)
    (λ e env', view_same self (objs env) (objs env')) env.
Proof.
  intros Hex. unfold resolve_meta. wp_step.
  pose proof (plan_capacity_spec existing cap (st_chunk_size self)
    (st_block_size self) (st_compression self) (st_storage self)) as Hpl.
  apply wp_lift; [destruct (Keys.plan_capacity _ _ _ _ _ _) as [[]|[]| |]; done| |done].
  intros [eff w] Hp. rewrite Hp in Hpl. destruct Hpl as (-> & Hgeo & Hw). simpl. wp_step.
  destruct w as [m'|].
  2: { wp_steps. destruct Hw as (m & -> & Hc). split; [done|]. split; [done|]. split; [by left|].
       split; [done|]. exists m. destruct (Hgeo m eq_refl) as (? & ? & ? & ? & ?). done. }
  eapply wp_mono; [apply put_meta_spec|..].
  2: { intros e env2 (_ & _ & [->|(b & et & ->)]); [done|apply meta_insert_same]. }
  intros _ env2 [Hk2 (body & et & Hj & Ho2)]. wp_step.
  split; [done|]. split; [done|]. split; [right; by exists (body, et)|].
  split; [done|]. exists m'. split; [|naive_solver].
  unfold meta_at. rewrite Ho2, lookup_insert_eq, Hj.
  assert (vm_version m' = Keys.META_VERSION) as ->; [|done].
  destruct existing as [m|]; [|naive_solver].
  destruct Hw as (_ & _ & _ & _ & _ & -> & _).
  unfold meta_at in Hex. destruct (objs env !! _) as [[b e]|]; [|done].
  destruct (meta_from_json b) as [m2|]; [|done].
  destruct (Z.eqb_spec (vm_version m2) Keys.META_VERSION); [|done]. congruence.
Qed.

(** Opening without a pending migration: the handle is the configured one, the
    data is untouched, and the recorded capacity never shrinks. *)
Lemma open_spec cfg env :
  let self := handle_of cfg in
  objs env !! Keys.migrating_key self = None →
  wp (open_handle cfg)
    (λ _ s', (ok env → ok (S3.s_env s')) ∧ S3.s_store s' = self ∧
       only_meta self (objs env) (S3Block.s_objs s') ∧ readable (sc_storage cfg) self (objs env) ∧
       (∀ m, meta_at (objs env) (Keys.meta_key self) = Some (Some m) →
          vm_chunk_size m = sc_chunk_size cfg ∧ vm_block_size m = sc_block_size cfg ∧
          vm_compression m = sc_compression cfg ∧ vm_storage m = sc_storage cfg ∧
          vm_capacity_bytes m ≤ sc_capacity cfg) ∧
       ∃ m, meta_at (S3Block.s_objs s') (Keys.meta_key self) = Some (Some m) ∧ records cfg m)
    (λ e s', view_same self (objs env) (S3Block.s_objs s'))
    {| S3.s_store := self; S3.s_env := env |}.
Proof.
  intros self Hmk. unfold open_handle. apply wp_on_env_bind. simpl.
  eapply wp_mono; [apply probe_layout_spec|..].
  2: { intros e env1 [Ho1 _]. unfold S3Block.s_objs. simpl. rewrite Ho1. done. }
  intros [mode existing] env1 ([Ho1 Hk1] & Hmode & Hex & Hrd). simpl in Hmode, Hex. subst mode.
  change (S3.with_storage (sc_storage cfg) self) with self in Hex.
  wp_step. wp_step.
  change (S3.with_store _ _) with {| S3.s_store := self; S3.s_env := env1 |}.
  apply wp_on_env_bind. cbn [S3.s_store S3.s_env].
  assert (Hex1 : meta_at (objs env1) (Keys.meta_key self) = Some existing) by (by rewrite Ho1).
  eapply wp_mono; [by apply resolve_meta_spec|..].
  2: { intros e env2. cbv beta. by rewrite Ho1. }
  intros eff env2 (Hk2 & -> & Hv2 & Hgeo & (mm & Hmm & Hrec)). rewrite Ho1 in Hv2.
  assert (Hma2 : ∃ m, meta_at (objs env2) (Keys.meta_key self) = Some (Some m) ∧ records cfg m).
  { exists mm. split; [done|]. destruct Hrec as (? & ? & ? & ? & ?). by constructor. }
  assert (Hm2 : objs env2 !! Keys.migrating_key self = None).
  { rewrite (only_meta_lookup self (objs env)); [done|done|].
    unfold Keys.meta_key. destruct (st_storage self); Keys.key_neq. }
  wp_steps. simpl. change (S3.with_capacity (sc_capacity cfg) self) with self.
  assert (Hgeo' : ∀ m, meta_at (objs env) (Keys.meta_key self) = Some (Some m) →
    vm_chunk_size m = sc_chunk_size cfg ∧ vm_block_size m = sc_block_size cfg ∧
    vm_compression m = sc_compression cfg ∧ vm_storage m = sc_storage cfg ∧
    vm_capacity_bytes m ≤ sc_capacity cfg).
  { intros m Hm. rewrite Hex in Hm. injection Hm as Hm. by apply (Hgeo m). }
  destruct (sc_storage cfg); [|wp_step; simpl; split; [auto|done]].
  apply wp_on_env_bind. cbn [S3.with_store S3.with_env S3.s_store S3.s_env].
  change (S3.with_capacity (sc_capacity cfg) self) with self.
  unfold has_migration_marker. wp_step. eapply wp_mono; [apply get_bytes_as_spec|..].
  - intros r env3 [[Ho3 Hk3] ->]. rewrite Hm2. wp_steps. simpl.
    unfold S3Block.s_objs. simpl. rewrite Ho3. split; [auto|done].
  - intros e env3 [[Ho3 _] _]. unfold S3Block.s_objs. simpl. rewrite Ho3. by apply only_meta_same.
Qed.

(** ** Opening again *)

(** The bucket records a volume opened with [cfg]. *)
Record recorded (cfg : S3StoreConfig) o : Prop := {
  rc_meta : ∃ m, meta_at o (Keys.meta_key (handle_of cfg)) = Some (Some m) ∧ records cfg m;
  rc_readable : readable (sc_storage cfg) (handle_of cfg) o;
  rc_marker : o !! Keys.migrating_key (handle_of cfg) = None
}.

Lemma meta_at_lookup o o' k : o' !! k = o !! k → meta_at o' k = meta_at o k.
Proof. unfold meta_at. by intros ->. Qed.

Lemma opened_recorded cfg o o' :
  only_meta (handle_of cfg) o o' → readable (sc_storage cfg) (handle_of cfg) o →
  o !! Keys.migrating_key (handle_of cfg) = None →
  (∃ m, meta_at o' (Keys.meta_key (handle_of cfg)) = Some (Some m) ∧ records cfg m) → recorded cfg o'.
Proof.
  intros Ho (live & flat & Hl & Hf & Hleg) Hmk Hm. constructor; [done|..].
  - destruct Hm as (m & Hm & _). unfold Keys.meta_key in *. cbn [st_storage handle_of] in *.
    destruct (sc_storage cfg) eqn:Hc.
    + exists live, (Some m). split; [|done]. rewrite <- Hl. apply meta_at_lookup.
      apply (only_meta_lookup _ _ _ _ Ho). unfold Keys.meta_key. cbn [st_storage handle_of]. rewrite Hc. Keys.key_neq.
    + exists (Some m), flat. split; [done|]. split; [|done]. rewrite <- Hf. apply meta_at_lookup.
      apply (only_meta_lookup _ _ _ _ Ho). unfold Keys.meta_key. cbn [st_storage handle_of]. rewrite Hc. Keys.key_neq.
  - rewrite (only_meta_lookup _ _ _ _ Ho); [done|]. unfold Keys.meta_key. case_match; Keys.key_neq.
Qed.

(** Chunk data does not touch the record. *)
Lemma recorded_data_only cfg o o' :
  data_only (handle_of cfg) o o' → recorded cfg o → recorded cfg o'.
Proof.
  intros [Hfr _] [(m & Hm & Hrec) (live & flat & Hl & Hf & Hleg) Hmk].
  assert (Hlive : o' !! Keys.live_meta_key (handle_of cfg) = o !! Keys.live_meta_key (handle_of cfg)).
  { apply Hfr; [intros i; split_and!|intros h _]; try Keys.key_neq.
    unfold Keys.chunk_key, Keys.chunks_prefix. case_match; Keys.key_neq. }
  assert (Hflat : o' !! Keys.flat_meta_key (handle_of cfg) = o !! Keys.flat_meta_key (handle_of cfg)).
  { apply Hfr; [intros i; split_and!|intros h _]; try Keys.key_neq.
    unfold Keys.chunk_key, Keys.chunks_prefix. case_match; Keys.key_neq. }
  assert (Hmark : o' !! Keys.migrating_key (handle_of cfg) = o !! Keys.migrating_key (handle_of cfg)).
  { apply Hfr; [intros i; split_and!|intros h _]; try Keys.key_neq.
    unfold Keys.chunk_key, Keys.chunks_prefix. case_match; Keys.key_neq. }
  constructor; [|exists live, flat; unfold meta_at in *; by rewrite Hlive, Hflat|by rewrite Hmark].
  exists m. split; [|done]. rewrite <- Hm. apply meta_at_lookup.
  unfold Keys.meta_key. case_match; done.
Qed.

(** A recorded volume opens again, and opening changes nothing. *)
Lemma reopen_spec cfg env :
  ok env → recorded cfg (objs env) →
  wp (open_handle cfg)
    (λ _ s', ok (S3.s_env s') ∧ S3.s_store s' = handle_of cfg ∧ S3Block.s_objs s' = objs env)
    (λ _ _, False) {| S3.s_store := handle_of cfg; S3.s_env := env |}.
Proof.
  intros Hok [(m & Hm & []) (live & flat & Hl & Hf & Hleg) Hmk]. set (self := handle_of cfg) in *.
  assert (Hex : match sc_storage cfg with Legacy => live = None ∧ flat = Some m | Cow => live = Some m end).
  { unfold Keys.meta_key in Hm. cbn [st_storage self handle_of] in Hm. destruct (sc_storage cfg).
    - split; [by apply Hleg|]. congruence.
    - congruence. }
  unfold open_handle. apply wp_on_env_bind. cbn [S3.s_store S3.s_env].
  assert (Hprobe : wp (probe_layout self (sc_storage cfg))
    (λ r env1, quiet env env1 ∧ r = (sc_storage cfg, Some m)) (λ _ _, False) env).
  { unfold probe_layout. wp_step. eapply wp_mono; [apply get_meta_at_spec| |naive_solver].
    intros live' env1 [[Ho1 Hk1] Hl']. assert (live' = live) as -> by congruence. wp_step.
    eapply wp_mono; [apply get_meta_at_spec| |rewrite Ho1; intros e env2 [_ [Hn|Hn]]; [naive_solver|congruence]].
    intros flat' env2 [[Ho2 Hk2] Hf']. rewrite Ho1 in Hf'. assert (flat' = flat) as -> by congruence.
    assert (Hq : quiet env env2) by (split; [congruence|auto]).
    destruct (sc_storage cfg) eqn:Hc.
    - destruct Hex as [-> ->]. rewrite rd_storage0. simpl. by wp_step.
    - rewrite Hex, rd_storage0. simpl. by wp_step. }
  eapply wp_mono; [exact Hprobe| |done]. intros r env1 [[Ho1 Hk1] ->]. wp_step. wp_step.
  change (S3.with_store _ _) with {| S3.s_store := self; S3.s_env := env1 |}.
  apply wp_on_env_bind. cbn [S3.s_store S3.s_env fst snd].
  assert (Hplan : Keys.plan_capacity (Some m) (sc_capacity cfg) (st_chunk_size self) (st_block_size self)
    (st_compression self) (st_storage self) = Ok (sc_capacity cfg, None)).
  { unfold Keys.plan_capacity. cbn [self handle_of st_chunk_size st_block_size st_compression st_storage].
    rewrite rd_chunk0, rd_block0, rd_compression0, rd_storage0, rd_capacity0, !Z.eqb_refl, !bool_decide_true by done.
    simpl. destruct (Z.ltb_spec (sc_capacity cfg) (sc_capacity cfg)); [lia|].
    by destruct (Z.gtb_spec (sc_capacity cfg) (sc_capacity cfg)); [lia|]. }
  unfold resolve_meta. rewrite Hplan. wp_steps. simpl. wp_steps. simpl.
  change (S3.with_capacity (sc_capacity cfg) self) with self.
  destruct (sc_storage cfg); [|wp_step; simpl; split; [auto|done]].
  apply wp_on_env_bind. cbn [S3.with_store S3.with_env S3.s_store S3.s_env].
  change (S3.with_capacity (sc_capacity cfg) self) with self.
  unfold has_migration_marker. wp_step. eapply wp_mono; [apply get_bytes_as_spec|..].
  - intros r env3 [[Ho3 Hk3] ->]. rewrite Ho1, Hmk. wp_steps. simpl.
    unfold S3Block.s_objs. simpl. rewrite Ho3. split; [auto|done].
  - intros e env3 [_ Hn]. auto.
Qed.
End spec.
End Open.
