(* ===== verification/Concrete.v ===== *)
(** * Concrete instances of the external interfaces

    Identity codecs, a prefix digest and a framed serialisation that satisfy
    the laws assumed of the compressors, BLAKE3 and serde_json, and a small
    volume in an in-memory bucket. They are used to evaluate the definitions and
    to show that the hypotheses of the theorems can be met. *)
From S2P Require Import Prelude Text Store Compression Snapshot S3Api S3Keys S3Store.
#[local] Open Scope string_scope.
#[local] Open Scope list_scope.
#[local] Open Scope Z_scope.

Module Concrete.
#[export] Instance codecs : Codecs := {
  lz4_compress := id;
  lz4_decompress := inl;
  zstd_compress := inl;
  zstd_decompress := λ d _, inl d;
  DeflateEncoder := bytes;
  deflate_write_all := inl;
  deflate_finish := inl;
  deflate_read_to_end := inl
}.
#[export] Instance codec_laws : CodecLaws.
Proof. constructor; simpl; intros; simplify_eq; done. Qed.

(** The first 32 bytes, padded with zeros. *)
#[export] Instance digest : Blake3 := λ b, take 32 (b ++ zeros 32).
#[export] Instance digest_laws : Blake3Laws.
Proof. intros b. unfold blake3, digest. rewrite length_take, length_app.
  change (length (zeros 32)) with 32%nat. lia. Qed.

(** ** Documents as framed fields
    A field is a byte string; each of its bytes is preceded by 1 and the field
    is closed by 0. *)
Fixpoint bits (p : positive) : bytes :=
  match p with
  | xH => []
  | xO p => Byte.x00 :: bits p
  | xI p => Byte.x01 :: bits p
  end.
Definition unbits (b : bytes) : positive :=
  foldr (λ x p, if decide (x = Byte.x00) then xO p else xI p) xH b.
Lemma unbits_bits p : unbits (bits p) = p.
Proof. induction p as [p IH|p IH|]; simpl; [..|done]; unfold unbits in *; simpl; by rewrite IH. Qed.

Definition put_num (z : Z) : bytes :=
  match z with Z0 => [] | Zpos p => Byte.x00 :: bits p | Zneg p => Byte.x01 :: bits p end.
Definition get_num (b : bytes) : Z :=
  match b with
  | [] => 0
  | x :: b => if decide (x = Byte.x00) then Zpos (unbits b) else Zneg (unbits b)
  end.
Lemma get_put_num z : get_num (put_num z) = z.
Proof. destruct z; simpl; by rewrite ?unbits_bits. Qed.

Definition put_str (s : string) : bytes := String.list_byte_of_string s.
Definition get_str (b : bytes) : string := String.string_of_list_byte b.
Lemma get_put_str s : get_str (put_str s) = s.
Proof. apply String.string_of_list_byte_of_string. Qed.

Definition put_opt (o : option string) : bytes :=
  match o with None => [] | Some s => Byte.x01 :: put_str s end.
Definition get_opt (b : bytes) : option string :=
  match b with [] => None | _ :: b => Some (get_str b) end.
Lemma get_put_opt o : get_opt (put_opt o) = o.
Proof. destruct o; simpl; by rewrite ?get_put_str. Qed.

Definition compression_num (c : Compression) : Z :=
  match c with CompNone => 0 | Lz4 => 1 | Zstd => 2 | Deflate => 3 end.
Definition num_compression (n : Z) : Compression :=
  match n with 0 => CompNone | 1 => Lz4 | 2 => Zstd | _ => Deflate end.
Definition mode_num (m : StorageMode) : Z := match m with Legacy => 0 | Cow => 1 end.
Definition num_mode (n : Z) : StorageMode := match n with 0 => Legacy | _ => Cow end.
Definition state_num (s : SnapshotState) : Z :=
  match s with Creating => 0 | Ready => 1 | Deleting => 2 end.
Definition num_state (n : Z) : SnapshotState :=
  match n with 0 => Creating | 1 => Ready | _ => Deleting end.
Lemma num_compression_num c : num_compression (compression_num c) = c. Proof. by destruct c. Qed.
Lemma num_mode_num m : num_mode (mode_num m) = m. Proof. by destruct m. Qed.
Lemma num_state_num s : num_state (state_num s) = s. Proof. by destruct s. Qed.
Create HintDb fields.
#[local] Hint Rewrite get_put_num get_put_str get_put_opt num_compression_num num_mode_num
  num_state_num : fields.

Fixpoint frame (fs : list bytes) : bytes :=
  match fs with
  | [] => []
  | f :: fs => flat_map (λ b, [Byte.x01; b]) f ++ Byte.x00 :: frame fs
  end.
(** [cur] is the field read so far, reversed. *)
Fixpoint unframe (cur b : bytes) : list bytes :=
  match b with
  | [] => []
  | x :: b =>
      if decide (x = Byte.x00) then rev cur :: unframe [] b
      else match b with [] => [] | y :: b => unframe (y :: cur) b end
  end.
Lemma unframe_field f : ∀ cur b,
  unframe cur (flat_map (λ b, [Byte.x01; b]) f ++ Byte.x00 :: b) = (rev cur ++ f) :: unframe [] b.
Proof.
  induction f as [|x f IH]; intros cur b; simpl; [by rewrite app_nil_r|].
  rewrite IH. simpl. by rewrite <- app_assoc.
Qed.
Lemma unframe_frame fs : unframe [] (frame fs) = fs.
Proof. induction fs as [|f fs IH]; [done|]. simpl. by rewrite unframe_field, IH. Qed.

Definition put_meta_doc (m : VolumeMeta) : bytes + string :=
  inl (frame [put_num (vm_version m); put_num (vm_capacity_bytes m); put_num (vm_chunk_size m);
    put_num (vm_block_size m); put_num (compression_num (vm_compression m));
    put_num (mode_num (vm_storage m))]).
Definition get_meta_doc (b : bytes) : VolumeMeta + string :=
  match unframe [] b with
  | [v; c; cs; bs; co; st] =>
      inl {| vm_version := get_num v; vm_capacity_bytes := get_num c; vm_chunk_size := get_num cs;
             vm_block_size := get_num bs; vm_compression := num_compression (get_num co);
             vm_storage := num_mode (get_num st) |}
  | _ => inr "invalid document"
  end.
Definition put_manifest_doc (m : SnapshotManifest) : bytes + string :=
  inl (frame [put_str (sm_id m); put_num (sm_created_at_unix m); put_opt (sm_parent m);
    put_str (sm_source_volume m); put_num (sm_capacity_bytes m); put_num (sm_chunk_size m);
    put_num (sm_block_size m); put_num (compression_num (sm_compression m));
    put_num (sm_chunk_count m); put_str (sm_chunks_object m); put_str (sm_hash_algo m);
    put_num (state_num (sm_state m)); put_num (sm_format_version m)]).
Definition get_manifest_doc (b : bytes) : SnapshotManifest + string :=
  match unframe [] b with
  | [i; c; p; s; cb; cs; bs; co; n; ob; h; st; v] =>
      inl {| sm_id := get_str i; sm_created_at_unix := get_num c; sm_parent := get_opt p;
             sm_source_volume := get_str s; sm_capacity_bytes := get_num cb;
             sm_chunk_size := get_num cs; sm_block_size := get_num bs;
             sm_compression := num_compression (get_num co); sm_chunk_count := get_num n;
             sm_chunks_object := get_str ob; sm_hash_algo := get_str h;
             sm_state := num_state (get_num st); sm_format_version := get_num v |}
  | _ => inr "invalid document"
  end.

#[export] Instance json : Json := {
  meta_to_json := put_meta_doc;
  meta_from_json := get_meta_doc;
  manifest_to_json := put_manifest_doc;
  manifest_from_json := get_manifest_doc
}.
#[export] Instance json_laws : JsonLaws.
Proof.
  constructor; intros []; cbn [meta_to_json meta_from_json manifest_to_json manifest_from_json json];
    unfold put_meta_doc, get_meta_doc, put_manifest_doc, get_manifest_doc;
    eexists; (split; [done|]); rewrite unframe_frame; simpl; by autorewrite with fields.
Qed.

(** ** A small volume: 2-byte blocks, 4-byte chunks, 4 chunks *)
Definition volume (mode : StorageMode) : S3ChunkStore :=
  {| st_prefix := "v"; st_block_size := 2; st_chunk_size := 4; st_compression := CompNone;
     st_storage := mode; st_capacity := 16; st_labels := {| vl_volume := "vol"; vl_iqn := "iqn" |} |}.
Definition fresh_env : Env MemS3.bucket := {| env_svc := MemS3.empty_bucket; env_obs := [] |}.
Definition fresh (mode : StorageMode) : S3.state MemS3.bucket :=
  {| S3.s_store := volume mode; S3.s_env := fresh_env |}.
Definition payload (n : nat) : bytes := replicate n Byte.x07.

Example write_then_read_cow :
  let '(_, s) := Store.write_at 3 (payload 6) (fresh Cow) in
  fst (Store.read_at 2 (zeros 8) s) = Ok ([Byte.x00] ++ payload 6 ++ [Byte.x00]).
Proof. vm_compute. reflexivity. Qed.

Example write_then_read_legacy :
  let '(_, s) := Store.write_at 3 (payload 6) (fresh Legacy) in
  fst (Store.read_at 2 (zeros 8) s) = Ok ([Byte.x00] ++ payload 6 ++ [Byte.x00]).
Proof. vm_compute. reflexivity. Qed.
End Concrete.
