(* ===== verification/Cache.v ===== *)
(** * The chunk cache and the write-through store (src/src/cache.rs)

    [ChunkCache] is one LRU pool shared by all volumes, keyed by volume name and
    chunk index; [CachedStore] puts it in front of any [BlockStore]. A critical
    section of the pool's mutex is one step of the model. *)
From S2P Require Import Prelude Tables Text Store.
#[local] Open Scope string_scope.
#[local] Open Scope list_scope.
#[local] Open Scope Z_scope.

Record CacheEntry : Type := { ce_data : bytes; ce_tick : Z }.
Abbreviation CacheKey := (string * Z)%type.

Record CacheInner : Type := {
  ci_entries : gmap CacheKey CacheEntry;
  ci_max_bytes : Z;
  ci_last_nonzero_max_bytes : Z;
  ci_used_bytes : Z;
  ci_tick : Z
}.

Module Cache.
(** [config::DEFAULT_CACHE_MAX]: 256 MiB. *)
Definition DEFAULT_CACHE_MAX : Z := 256 * 1024 * 1024.

Implicit Types (c : CacheInner) (volume : string) (idx : Z).

Definition with_entries (m : gmap CacheKey CacheEntry) (used : Z) c : CacheInner :=
  {| ci_entries := m; ci_max_bytes := ci_max_bytes c;
     ci_last_nonzero_max_bytes := ci_last_nonzero_max_bytes c;
     ci_used_bytes := used; ci_tick := ci_tick c |}.
Definition with_budget (max last : Z) c : CacheInner :=
  {| ci_entries := ci_entries c; ci_max_bytes := max; ci_last_nonzero_max_bytes := last;
     ci_used_bytes := ci_used_bytes c; ci_tick := ci_tick c |}.
(** [inner.tick += 1] *)
Definition bump c : CacheInner :=
  {| ci_entries := ci_entries c; ci_max_bytes := ci_max_bytes c;
     ci_last_nonzero_max_bytes := ci_last_nonzero_max_bytes c;
     ci_used_bytes := ci_used_bytes c; ci_tick := wrapping_add64 (ci_tick c) 1 |}.

Definition new (max_bytes : Z) : CacheInner :=
  {| ci_entries := ∅; ci_max_bytes := max_bytes;
     ci_last_nonzero_max_bytes := if max_bytes >? 0 then max_bytes else DEFAULT_CACHE_MAX;
     ci_used_bytes := 0; ci_tick := 0 |}.

Definition stats c : Z * Z := (ci_used_bytes c, Z.of_nat (size (ci_entries c))).
Definition is_enabled c : bool := ci_max_bytes c >? 0.

(** [entries.remove(&key)] with the accounting that follows it. *)
Definition remove (key : CacheKey) c : CacheInner :=
  match ci_entries c !! key with
  | Some e => with_entries (delete key (ci_entries c))
                (saturating_sub (ci_used_bytes c) (Zlen (ce_data e))) c
  | None => c
  end.

(** [entries.iter().min_by_key(|(_, e)| e.tick)] *)
Definition victim c : option CacheKey := min_by_key ce_tick (map_to_list (ci_entries c)).

(** [while used + size > max && !entries.is_empty() { evict the victim }]; an
    iteration removes an entry, so the number of entries is enough fuel. *)
Fixpoint evict (fuel : nat) (size : Z) c : CacheInner :=
  match fuel with
  | O => c
  | S fuel =>
      if (ci_used_bytes c + size >? ci_max_bytes c)
         && negb (bool_decide (ci_entries c = ∅)) then
        match victim c with
        | Some v => evict fuel size (remove v c)
        | None => c
        end
      else c
  end.
Definition evict_until (size : Z) c : CacheInner := evict (base.size (ci_entries c)) size c.

Definition set_max_bytes (max_bytes : Z) c : CacheInner :=
  let last := if max_bytes >? 0 then max_bytes else ci_last_nonzero_max_bytes c in
  let c := with_budget max_bytes last c in
  if max_bytes =? 0 then with_entries ∅ 0 c else evict_until 0 c.

Definition clear c : CacheInner := with_entries ∅ 0 c.

Definition entry_bytes (m : gmap CacheKey CacheEntry) : Z :=
  map_sum (λ e, Zlen (ce_data e)) m.

(** [entries.retain(..)] keeps the other volumes' entries. *)
Definition invalidate_volume volume c : CacheInner :=
  let removed := filter (λ kv, kv.1.1 = volume) (ci_entries c) in
  let kept := filter (λ kv, kv.1.1 ≠ volume) (ci_entries c) in
  with_entries kept (saturating_sub (ci_used_bytes c) (entry_bytes removed)) c.

Definition disable c : CacheInner := set_max_bytes 0 c.
Definition enable (max_bytes : option Z) c : CacheInner :=
  let budget := match max_bytes with
                | Some b => if b >? 0 then b else ci_last_nonzero_max_bytes c
                | None => ci_last_nonzero_max_bytes c
                end in
  set_max_bytes budget (clear c).

Definition get volume idx c : option bytes * CacheInner :=
  let c := bump c in
  match ci_entries c !! (volume, idx) with
  | Some e =>
      (Some (ce_data e),
       with_entries (<[(volume, idx) := {| ce_data := ce_data e; ce_tick := ci_tick c |}]>
                       (ci_entries c)) (ci_used_bytes c) c)
  | None => (None, c)
  end.

Definition put volume idx (data : bytes) c : CacheInner :=
  let c := remove (volume, idx) (bump c) in
  let c := evict_until (Zlen data) c in
  if Zlen data <=? ci_max_bytes c then
    with_entries (<[(volume, idx) := {| ce_data := data; ce_tick := ci_tick c |}]>
                    (ci_entries c)) (ci_used_bytes c + Zlen data) c
  else c.

Definition invalidate volume idx c : CacheInner := remove (volume, idx) c.

(** ** Accounting *)
Record accounted c : Prop := {
  ac_used : ci_used_bytes c = entry_bytes (ci_entries c);
  ac_budget : ci_used_bytes c ≤ ci_max_bytes c
}.

Lemma entry_bytes_empty : entry_bytes ∅ = 0.
Proof. apply map_sum_empty. Qed.

Lemma entry_bytes_insert m k e :
  m !! k = None → entry_bytes (<[k := e]> m) = entry_bytes m + Zlen (ce_data e).
Proof. apply (map_sum_insert (λ e, Zlen (ce_data e))). Qed.

Lemma entry_bytes_delete m k e :
  m !! k = Some e → entry_bytes (delete k m) = entry_bytes m - Zlen (ce_data e).
Proof. apply (map_sum_delete (λ e, Zlen (ce_data e))). Qed.

Lemma entry_bytes_nonneg m : 0 ≤ entry_bytes m.
Proof. apply map_sum_nonneg. intros. apply Zlen_nonneg. Qed.

(** Every operation that only drops entries. *)
Record shrunk c c' : Prop := {
  shr_sub : ci_entries c' ⊆ ci_entries c;
  shr_max : ci_max_bytes c' = ci_max_bytes c;
  shr_last : ci_last_nonzero_max_bytes c' = ci_last_nonzero_max_bytes c;
  shr_used : ci_used_bytes c = entry_bytes (ci_entries c) →
             ci_used_bytes c' = entry_bytes (ci_entries c')
}.
#[global] Instance shrunk_preorder : PreOrder shrunk.
Proof.
  split; [by constructor|]. intros ??? [] []. constructor; [by etrans|congruence|congruence|auto].
Qed.

Lemma remove_shrunk k c : shrunk c (remove k c).
Proof.
  unfold remove. destruct (ci_entries c !! k) as [e|] eqn:Hk; [|reflexivity].
  constructor; simpl; [apply delete_subseteq|done|done|]. intros ->.
  rewrite (entry_bytes_delete _ _ _ Hk). unfold saturating_sub.
  pose proof (entry_bytes_nonneg (delete k (ci_entries c))) as Hn.
  rewrite (entry_bytes_delete _ _ _ Hk) in Hn. lia.
Qed.

Lemma remove_lookup k c : ci_entries (remove k c) !! k = None.
Proof.
  unfold remove. destruct (ci_entries c !! k) eqn:Hk; simpl; [apply lookup_delete_eq|done].
Qed.
Lemma remove_lookup_ne k k' c : k ≠ k' → ci_entries (remove k c) !! k' = ci_entries c !! k'.
Proof.
  intros. unfold remove. destruct (ci_entries c !! k); simpl; [by apply lookup_delete_ne|done].
Qed.

(** The victim is an entry, and the least recently used one. *)
Lemma victim_spec c v :
  victim c = Some v → ∃ e, ci_entries c !! v = Some e ∧
  ∀ k e', ci_entries c !! k = Some e' → ce_tick e ≤ ce_tick e'.
Proof. apply min_by_key_Some. Qed.

Lemma victim_None c : victim c = None → ci_entries c = ∅.
Proof. apply min_by_key_None. Qed.

Lemma evict_shrunk fuel size c : shrunk c (evict fuel size c).
Proof.
  revert c. induction fuel as [|fuel IH]; intros c; simpl; [reflexivity|].
  destruct (_ && _); [|reflexivity]. destruct (victim c); [|reflexivity].
  etrans; [apply remove_shrunk|apply IH].
Qed.

(** The loop ends with its condition false: the fuel is enough. *)
Lemma evict_fits fuel size c :
  (base.size (ci_entries c) ≤ fuel)%nat →
  let c' := evict fuel size c in
  ci_used_bytes c' + size ≤ ci_max_bytes c' ∨ ci_entries c' = ∅.
Proof.
  revert c. induction fuel as [|fuel IH]; intros c Hf; simpl.
  - right. apply map_size_empty_iff. lia.
  - destruct (Z.gtb_spec (ci_used_bytes c + size) (ci_max_bytes c)); simpl; [|by left].
    destruct (bool_decide_reflect (ci_entries c = ∅)) as [He|He]; simpl; [by right|].
    destruct (victim c) as [v|] eqn:Hv; [|by apply victim_None in Hv].
    destruct (victim_spec c v Hv) as (e & Hl & _). apply IH.
    unfold remove. rewrite Hl. simpl. rewrite map_size_delete, Hl. simpl. lia.
Qed.

Lemma evict_until_fits size c :
  ci_used_bytes (evict_until size c) + size ≤ ci_max_bytes c ∨ ci_entries (evict_until size c) = ∅.
Proof.
  pose proof (evict_fits (base.size (ci_entries c)) size c (le_n _)) as Hfit.
  pose proof (shr_max _ _ (evict_shrunk (base.size (ci_entries c)) size c)) as Hm.
  cbv zeta in Hfit. by rewrite Hm in Hfit.
Qed.

Lemma invalidate_volume_shrunk volume c : shrunk c (invalidate_volume volume c).
Proof.
  constructor; simpl; [apply map_filter_subseteq|done|done|]. intros ->.
  assert (entry_bytes (ci_entries c) =
    entry_bytes (filter (λ kv, kv.1.1 = volume) (ci_entries c)) +
    entry_bytes (filter (λ kv, kv.1.1 ≠ volume) (ci_entries c))) as ->.
  { generalize (ci_entries c) as m. intros m.
    induction m as [|k e m Hk IH] using map_ind; [by rewrite !map_filter_empty, entry_bytes_empty|].
    rewrite entry_bytes_insert, IH by done.
    destruct (decide (k.1 = volume)) as [Hv|Hv].
    - rewrite (map_filter_insert_True (λ kv, kv.1.1 = volume)) by done.
      rewrite (map_filter_insert_False (λ kv, kv.1.1 ≠ volume)) by (simpl; naive_solver).
      rewrite entry_bytes_insert by (apply map_lookup_filter_None; naive_solver).
      rewrite delete_id by done. lia.
    - rewrite (map_filter_insert_False (λ kv, kv.1.1 = volume)) by done.
      rewrite (map_filter_insert_True (λ kv, kv.1.1 ≠ volume)) by done.
      rewrite (entry_bytes_insert (filter (λ kv, kv.1.1 ≠ volume) m))
        by (apply map_lookup_filter_None; naive_solver).
      rewrite delete_id by done. lia. }
  unfold saturating_sub. pose proof (entry_bytes_nonneg (filter (λ kv, kv.1.1 ≠ volume) (ci_entries c))).
  lia.
Qed.

(** *** The operations keep the books *)
Lemma shrunk_accounted c c' : shrunk c c' → accounted c → accounted c'.
Proof.
  intros [Hsub Hm _ Hu] [Ha Hb]. constructor; [auto|]. rewrite Hu, Hm by done.
  transitivity (ci_used_bytes c); [|done]. rewrite Ha.
  clear -Hsub. revert Hsub. generalize (ci_entries c) as m, (ci_entries c') as m'.
  intros m m' Hsub. rewrite <-(map_difference_union m' m Hsub).
  assert (m' ##ₘ m ∖ m') as Hd by (by apply map_disjoint_difference_r1). revert Hd.
  generalize (m ∖ m') as d. clear. intros d.
  induction d as [|k e d Hk IH] using map_ind; intros Hd.
  - by rewrite (right_id_L ∅ (∪)).
  - apply map_disjoint_insert_r in Hd as [Hk' Hd].
    rewrite <-insert_union_r by done. rewrite entry_bytes_insert by (by apply lookup_union_None).
    specialize (IH Hd). pose proof (Zlen_nonneg (ce_data e)). lia.
Qed.

Lemma bump_accounted c : accounted c → accounted (bump c).
Proof. intros [? ?]. by constructor. Qed.

Lemma new_accounted n : 0 ≤ n → accounted (new n).
Proof. intros. constructor; simpl; [by rewrite entry_bytes_empty|done]. Qed.

Lemma empty_accounted c c' :
  0 ≤ ci_max_bytes c' → ci_entries c' = ∅ → ci_used_bytes c' = 0 → accounted c'.
Proof. intros ? He Hu. constructor; rewrite Hu; [by rewrite He, entry_bytes_empty|done]. Qed.

Lemma get_accounted volume idx c : accounted c → accounted (get volume idx c).2.
Proof.
  intros [Ha Hb]. unfold get. simpl.
  destruct (ci_entries c !! (volume, idx)) as [e|] eqn:He; [|by constructor].
  constructor; [|done]. simpl. rewrite Ha, <-(insert_delete_eq (ci_entries c)).
  rewrite entry_bytes_insert by apply lookup_delete_eq.
  rewrite (entry_bytes_delete _ _ _ He). simpl. lia.
Qed.

Lemma put_accounted volume idx data c : accounted c → accounted (put volume idx data c).
Proof.
  intros Hc%bump_accounted. unfold put.
  set (c1 := remove (volume, idx) (bump c)). set (c2 := evict_until (Zlen data) c1).
  assert (Hs : shrunk c1 c2) by apply evict_shrunk.
  assert (Hc2 : accounted c2).
  { eapply shrunk_accounted, shrunk_accounted; [done|apply remove_shrunk|done]. }
  destruct (Z.leb_spec (Zlen data) (ci_max_bytes c2)) as [Hle|]; [|done].
  assert (ci_entries c2 !! (volume, idx) = None) as Hk.
  { destruct (ci_entries c2 !! (volume, idx)) as [e|] eqn:He; [|done].
    eapply lookup_weaken in He; [|by eapply shr_sub]. unfold c1 in He. by rewrite remove_lookup in He. }
  destruct Hc2 as [Ha Hb]. constructor; simpl.
  - rewrite entry_bytes_insert by done. simpl. lia.
  - destruct (evict_until_fits (Zlen data) c1) as [Hf|He]; [fold c2 in Hf|fold c2 in He].
    + rewrite <-(shr_max _ _ Hs) in Hf. lia.
    + rewrite He, entry_bytes_empty in Ha. lia.
Qed.

Lemma set_max_bytes_accounted n c :
  0 ≤ n → ci_used_bytes c = entry_bytes (ci_entries c) → accounted (set_max_bytes n c).
Proof.
  intros Hn Ha. unfold set_max_bytes. destruct (Z.eqb_spec n 0) as [->|Hne].
  - by apply (empty_accounted c).
  - set (c1 := with_budget n _ c).
    assert (Hs : shrunk c1 (evict_until 0 c1)) by apply evict_shrunk.
    constructor; [by apply (shr_used _ _ Hs)|]. rewrite (shr_max _ _ Hs).
    destruct (evict_until_fits 0 c1) as [Hf|He]; [lia|].
    rewrite (shr_used _ _ Hs), He, entry_bytes_empty by done. done.
Qed.

(** ** What an operation does to the entries *)
Lemma get_lookup volume idx c :
  (get volume idx c).1 = ce_data <$> ci_entries c !! (volume, idx).
Proof. unfold get. simpl. by destruct (ci_entries c !! (volume, idx)). Qed.

(** Up to the ticks, no entry appears or changes: [data_sub c c']. *)
Definition cached c volume idx : option bytes := ce_data <$> ci_entries c !! (volume, idx).
Definition data_sub c c' : Prop :=
  ∀ volume idx d, cached c' volume idx = Some d → cached c volume idx = Some d.
#[global] Instance data_sub_preorder : PreOrder data_sub.
Proof. split; [by intros ????|]. intros ??? H1 H2 ????. by apply H1, H2. Qed.

Lemma shrunk_data_sub c c' : shrunk c c' → data_sub c c'.
Proof.
  intros [Hsub _ _ _] v i d. unfold cached.
  intros (e & He & ->)%fmap_Some. by rewrite (lookup_weaken _ _ _ _ He Hsub).
Qed.

Lemma get_data_sub volume idx c : data_sub c (get volume idx c).2.
Proof.
  intros v i d. unfold get. simpl.
  destruct (ci_entries c !! (volume, idx)) as [e|] eqn:He; [|done]. unfold cached. simpl.
  destruct (decide ((volume, idx) = (v, i))) as [[= <- <-]|Hne].
  - rewrite lookup_insert_eq, He. done.
  - by rewrite lookup_insert_ne.
Qed.

(** A [put] may add its own entry and drop others. *)
Lemma put_cached volume idx data c v i d :
  cached (put volume idx data c) v i = Some d →
  (v, i) = (volume, idx) ∧ d = data ∨ (v, i) ≠ (volume, idx) ∧ cached c v i = Some d.
Proof.
  unfold put. set (c1 := remove (volume, idx) (bump c)). set (c2 := evict_until (Zlen data) c1).
  assert (Hs : shrunk (bump c) c2) by (etrans; [apply remove_shrunk|apply evict_shrunk]).
  assert (Hc2 : cached c2 v i = Some d → (v, i) ≠ (volume, idx) ∧ cached c v i = Some d).
  { intros Hd. split; [|by apply (shrunk_data_sub _ _ Hs)].
    intros [= -> ->]. apply (shrunk_data_sub c1 c2) in Hd; [|apply evict_shrunk].
    unfold cached, c1 in Hd. by rewrite remove_lookup in Hd. }
  destruct (_ <=? _); [|auto]. unfold cached at 1. simpl.
  destruct (decide ((volume, idx) = (v, i))) as [Heq|Hne].
  - rewrite Heq, lookup_insert_eq. naive_solver.
  - rewrite lookup_insert_ne by done. auto.
Qed.

Lemma invalidate_cached volume idx c v i d :
  cached (invalidate volume idx c) v i = Some d →
  (v, i) ≠ (volume, idx) ∧ cached c v i = Some d.
Proof.
  intros Hd. split; [|by apply (shrunk_data_sub _ _ (remove_shrunk (volume, idx) c))].
  intros [= -> ->]. unfold cached, invalidate in Hd. by rewrite remove_lookup in Hd.
Qed.

(** A chunk that fits the budget is found again. *)
Lemma put_get volume idx data c :
  accounted c → Zlen data ≤ ci_max_bytes c → cached (put volume idx data c) volume idx = Some data.
Proof.
  intros Hc Hle. unfold put, cached.
  assert (ci_max_bytes (evict_until (Zlen data) (remove (volume, idx) (bump c))) = ci_max_bytes c) as ->.
  { unfold evict_until.
    rewrite (shr_max _ _ (evict_shrunk _ (Zlen data) (remove (volume, idx) (bump c)))).
    by rewrite (shr_max _ _ (remove_shrunk (volume, idx) (bump c))). }
  rewrite (proj2 (Z.leb_le _ _) Hle). simpl. by rewrite lookup_insert_eq.
Qed.
End Cache.
