(* ===== verification/CachedStore.v ===== *)
(** * The write-through cached store (src/src/cache.rs, [CachedStore])

    [CachedStore<S>] over any [BlockStore S]. Proved against the inner store's
    contract only: the cached store satisfies the same contract, with the inner
    store's contents, as long as the I/O lock is open. *)
From S2P Require Import Prelude Text Store Cache.
#[local] Open Scope string_scope.
#[local] Open Scope list_scope.
#[local] Open Scope Z_scope.

Record CachedStore (S : Type) : Type := {
  cs_inner : S;
  cs_cache : CacheInner;
  cs_volume : string;
  cs_io_locked : bool;
  (** [observe_cache] calls, newest last: hit or miss. *)
  cs_observed : list bool
}.
Arguments cs_inner {S} _.
Arguments cs_cache {S} _.
Arguments cs_volume {S} _.
Arguments cs_io_locked {S} _.
Arguments cs_observed {S} _.

Module Cached.
Section ops.
Context {S : Type} `{BlockStore S}.
Abbreviation MC := (M (CachedStore S) StoreError).
Implicit Types s : CachedStore S.

Definition with_inner (i : S) s : CachedStore S :=
  {| cs_inner := i; cs_cache := cs_cache s; cs_volume := cs_volume s;
     cs_io_locked := cs_io_locked s; cs_observed := cs_observed s |}.
Definition with_cache (c : CacheInner) s : CachedStore S :=
  {| cs_inner := cs_inner s; cs_cache := c; cs_volume := cs_volume s;
     cs_io_locked := cs_io_locked s; cs_observed := cs_observed s |}.
Definition with_lock (b : bool) s : CachedStore S :=
  {| cs_inner := cs_inner s; cs_cache := cs_cache s; cs_volume := cs_volume s;
     cs_io_locked := b; cs_observed := cs_observed s |}.
Definition observe_cache (hit : bool) s : CachedStore S :=
  {| cs_inner := cs_inner s; cs_cache := cs_cache s; cs_volume := cs_volume s;
     cs_io_locked := cs_io_locked s; cs_observed := cs_observed s ++ [hit] |}.

(** [CachedStore::new] *)
Definition new (inner : S) (cache : CacheInner) (volume : string) : CachedStore S :=
  {| cs_inner := inner; cs_cache := cache; cs_volume := volume;
     cs_io_locked := false; cs_observed := [] |}.

(** A call on the inner store; a call on the pool. *)
Definition inner {A} (m : M S StoreError A) : MC A := zoom cs_inner with_inner m.
Definition cache_get (idx : Z) : MC (option bytes) := λ s,
  let '(r, c) := Cache.get (cs_volume s) idx (cs_cache s) in (Ok r, with_cache c s).
Definition cache_put (idx : Z) (data : bytes) : MC unit :=
  modify (λ s, with_cache (Cache.put (cs_volume s) idx data (cs_cache s)) s).
Definition cache_invalidate (idx : Z) : MC unit :=
  modify (λ s, with_cache (Cache.invalidate (cs_volume s) idx (cs_cache s)) s).

Definition lock_io s : CachedStore S :=
  let s := with_lock true s in
  with_cache (Cache.invalidate_volume (cs_volume s) (cs_cache s)) s.
Definition unlock_io s : CachedStore S := with_lock false s.

Definition ensure_unlocked : MC unit :=
  s ← get;
  if cs_io_locked s then
    throw (OtherError ("volume " +:+ cs_volume s +:+
      " is locked (migration in progress); wait for migrate-cow to finish"))
  else mret tt.

Definition load_chunk (chunk_idx : Z) : MC bytes :=
  _ ← ensure_unlocked;
  hit ← cache_get chunk_idx;
  match hit with
  | Some data => _ ← modify (observe_cache true); mret data
  | None =>
      _ ← modify (observe_cache false);
      s ← get;
      let cs := chunk_size (cs_inner s) in
      match checked_mul64 chunk_idx cs with
      | None => panic (* multiplication overflow *)
      | Some offset =>
          let cap := capacity (cs_inner s) in
          if offset >=? cap then throw (OutOfRange offset cs cap)
          else
            let valid := Z.min (cap - offset) cs in
            head ← inner (read_at offset (zeros valid));
            let buf := head ++ zeros (cs - valid) in
            _ ← cache_put chunk_idx buf;
            mret buf
      end
  end.

Definition read (offset : Z) (buf : bytes) : MC bytes :=
  _ ← ensure_unlocked;
  s ← get;
  _ ← lift (check_range (capacity (cs_inner s)) offset (Zlen buf));
  chunk_loop (chunk_size (cs_inner s)) offset (Zlen buf)
    (λ _ chunk_idx within take done buf,
      chunk ← load_chunk chunk_idx;
      src ← lift (slice chunk within (within + take));
      lift (copy_into buf done (done + take) src)) buf.

(** The cache update after a successful write, one chunk. *)
Definition update_piece (data : bytes) (chunk_idx within take done : Z) : MC unit :=
  hit ← cache_get chunk_idx;
  match hit with
  | Some chunk =>
      src ← lift (slice data done (done + take));
      chunk ← lift (copy_into chunk within (within + take) src);
      cache_put chunk_idx chunk
  | None => cache_invalidate chunk_idx
  end.

Definition write (offset : Z) (data : bytes) : MC unit :=
  _ ← ensure_unlocked;
  _ ← inner (write_at offset data);
  s ← get;
  chunk_loop (chunk_size (cs_inner s)) offset (Zlen data)
    (λ _ chunk_idx within take done _, update_piece data chunk_idx within take done) tt.

Definition set_cap (n : Z) : MC unit := _ ← ensure_unlocked; inner (set_capacity n).
Definition flush_store : MC unit := _ ← ensure_unlocked; inner flush.
Definition list_present : MC (list Z) := _ ← ensure_unlocked; inner present_chunks.
Definition delete (idx : Z) : MC unit :=
  _ ← ensure_unlocked;
  _ ← inner (delete_chunk idx);
  cache_invalidate idx.

#[global] Instance cached_block_store : BlockStore (CachedStore S) := {
  Store.read_at := read;
  Store.write_at := write;
  Store.capacity := λ s, capacity (cs_inner s);
  Store.set_capacity := set_cap;
  Store.flush := flush_store;
  Store.block_size := λ s, block_size (cs_inner s);
  Store.chunk_size := λ s, chunk_size (cs_inner s);
  Store.present_chunks := list_present;
  Store.delete_chunk := delete
}.
End ops.

Section laws.
Context {S : Type} `{BlockStoreLaws S}.
Implicit Types s : CachedStore S.

(** ** Coherence *)

(** A chunk held in memory shows the bytes [f] of the volume; what the store holds. *)
Definition shows (cs : Z) (f : Z → byte) (idx : Z) (d : bytes) : Prop :=
  Zlen d = cs ∧ ∀ w, 0 ≤ w < cs → nthb d w = f (idx * cs + w).
Definition shows_chunk (i : S) (idx : Z) (d : bytes) : Prop :=
  shows (chunk_size i) (content i) idx d.

Definition coherent s : Prop := ∀ idx d,
  Cache.cached (cs_cache s) (cs_volume s) idx = Some d →
  0 ≤ idx ∧ shows_chunk (cs_inner s) idx d.

Record cached_invariant s : Prop := {
  cinv_inner : invariant (cs_inner s);
  cinv_accounted : Cache.accounted (cs_cache s);
  cinv_coherent : coherent s
}.

#[global] Instance cached_model : BlockStoreModel (CachedStore S) := {
  invariant := cached_invariant;
  ready := λ s, ready (cs_inner s) ∧ cs_io_locked s = false;
  content := λ s, content (cs_inner s);
  admissible := λ s, admissible (cs_inner s)
}.

Lemma shows_same (i i' : S) idx d :
  same_volume i i' → 0 ≤ idx → shows_chunk i idx d → shows_chunk i' idx d.
Proof.
  intros Hs Hidx [Hl Hd]. pose proof (same_chunk_size _ _ (sv_shape _ _ Hs)) as Hc.
  split; [by rewrite Hc|]. intros w Hw. rewrite Hc in *.
  rewrite (sv_content _ _ Hs) by nia. by apply Hd.
Qed.

(** Changes of the pool that keep coherence. *)
Lemma inv_data_sub s c :
  cached_invariant s → Cache.accounted c → Cache.data_sub (cs_cache s) c →
  cached_invariant (with_cache c s).
Proof.
  intros [Hi Ha Hc] Ha' Hd. constructor; [done|done|]. intros idx d Hl. apply Hc, Hd, Hl.
Qed.

Lemma inv_put s idx d :
  cached_invariant s → 0 ≤ idx → shows_chunk (cs_inner s) idx d →
  cached_invariant (with_cache (Cache.put (cs_volume s) idx d (cs_cache s)) s).
Proof.
  intros [Hi Ha Hc] Hidx Hd. constructor; [done|by apply Cache.put_accounted|].
  intros idx' d' [([= ->] & ->)|[_ Hl]]%Cache.put_cached; [done|by apply Hc].
Qed.

Lemma inv_same_inner s i :
  cached_invariant s → invariant i → same_volume (cs_inner s) i →
  cached_invariant (with_inner i s).
Proof.
  intros [Hi Ha Hc] Hi' Hs. constructor; [done|done|]. intros idx d Hl.
  destruct (Hc idx d Hl) as [? ?]. split; [done|]. by eapply shows_same.
Qed.

Lemma same_volume_inner s s' :
  same_volume (cs_inner s) (cs_inner s') → cs_io_locked s' = cs_io_locked s → same_volume s s'.
Proof.
  intros [[] ? ? ?] Hl. constructor; [by constructor|done|done|]. simpl. rewrite Hl. naive_solver.
Qed.

Lemma wp_cache_get idx Q R s :
  cached_invariant s →
  (∀ s', cached_invariant s' → cs_inner s' = cs_inner s → cs_io_locked s' = cs_io_locked s →
     cs_volume s' = cs_volume s →
     match Cache.cached (cs_cache s) (cs_volume s) idx with
     | Some d => 0 ≤ idx ∧ shows_chunk (cs_inner s) idx d
     | None => Cache.cached (cs_cache s') (cs_volume s) idx = None
     end →
     Q (Cache.cached (cs_cache s) (cs_volume s) idx) s') →
  wp (cache_get idx) Q R s.
Proof.
  intros Hinv HQ. unfold wp, cache_get.
  destruct (Cache.get (cs_volume s) idx (cs_cache s)) as [r c] eqn:Hg.
  pose proof (Cache.get_lookup (cs_volume s) idx (cs_cache s)) as Hr. rewrite Hg in Hr. simpl in Hr.
  pose proof (Cache.get_data_sub (cs_volume s) idx (cs_cache s)) as Hd. rewrite Hg in Hd. simpl in Hd.
  subst r. apply HQ; [|done..|].
  - apply inv_data_sub; [done| |done]. rewrite <-(f_equal snd Hg : (Cache.get _ _ _).2 = c).
    by apply Cache.get_accounted, Hinv.
  - destruct (Cache.cached (cs_cache s) (cs_volume s) idx) as [d|] eqn:Hc.
    + by apply (cinv_coherent _ Hinv).
    + simpl. destruct (Cache.cached c (cs_volume s) idx) eqn:Hc'; [|done].
      apply Hd in Hc'. congruence.
Qed.

Lemma wp_inner {A} (m : M S StoreError A) Q R s :
  wp m (λ a i, Q a (with_inner i s)) (λ e i, R e (with_inner i s)) (cs_inner s) →
  wp (inner m) Q R s.
Proof. intros Hwp. by apply wp_zoom. Qed.

Lemma wp_unlocked Q R s : cs_io_locked s = false → Q tt s → wp ensure_unlocked Q R s.
Proof. intros Hl HQ. unfold ensure_unlocked. wp_steps. rewrite Hl. by wp_step. Qed.

(** A locked store refuses before it touches anything. *)
Lemma wp_locked {A} (m : M (CachedStore S) StoreError A) Q R s :
  cs_io_locked s = true → (∀ e, R e s) → wp (_ ← ensure_unlocked; m) Q R s.
Proof. intros Hl HR. unfold ensure_unlocked. wp_steps. rewrite Hl. wp_step. apply HR. Qed.

(** ** Reading *)
Lemma shows_padded (i : S) idx head :
  invariant i → 0 ≤ idx → idx * chunk_size i < capacity i →
  let valid := Z.min (capacity i - idx * chunk_size i) (chunk_size i) in
  Zlen head = valid →
  (∀ w, 0 ≤ w < valid → nthb head w = content i (idx * chunk_size i + w)) →
  shows_chunk i idx (head ++ zeros (chunk_size i - valid)).
Proof.
  intros Hi Hidx Hlt valid Hl Hh. destruct (law_geometry i Hi) as (_ & ? & ?).
  split; [rewrite Zlen_app, Zlen_zeros; lia|]. intros w Hw. rewrite nthb_app by lia.
  case_decide; [apply Hh; lia|]. rewrite nthb_zeros. symmetry. apply law_tail; [done|lia].
Qed.

Lemma load_chunk_spec idx s :
  cached_invariant s → cs_io_locked s = false → 0 ≤ idx →
  idx * chunk_size s < capacity s →
  wp (load_chunk idx)
    (λ d s', cached_invariant s' ∧ same_volume s s' ∧ cs_io_locked s' = false ∧
       shows_chunk (cs_inner s) idx d)
    (λ e s', cached_invariant s' ∧ same_volume s s' ∧ ¬ ready s) s.
Proof.
  intros Hinv Hlk Hidx Hlt. simpl in Hlt. unfold load_chunk. wp_step. apply wp_unlocked; [done|].
  wp_step. apply wp_cache_get; [done|]. intros s1 Hinv1 Hi1 Hl1 Hv1 Hc.
  destruct (Cache.cached (cs_cache s) (cs_volume s) idx) as [d|].
  { wp_steps. split; [by destruct Hinv1|].
    split; [apply same_volume_inner; simpl; [by rewrite Hi1|congruence]|].
    split; [simpl; congruence|]. apply Hc. }
  destruct (law_geometry _ (cinv_inner _ Hinv)) as (_ & Hcs & Hcap).
  wp_steps. simpl. rewrite Hi1, checked_mul64_spec, decide_True
    by (unfold is_u64 in *; lia).
  destruct (Z.geb_spec (idx * chunk_size (cs_inner s)) (capacity (cs_inner s))); [lia|].
  set (valid := Z.min _ _). wp_step. apply wp_inner. simpl. rewrite Hi1.
  assert (Hz : Zlen (zeros valid) = valid) by (apply Zlen_zeros; lia).
  eapply wp_mono; [apply law_read; [apply Hinv|nia]|..].
  - intros head i (Hi & Hs & _ & Hl & Hh). rewrite Hz in *. wp_steps. simpl.
    pose proof (same_chunk_size _ _ (sv_shape _ _ Hs)) as Hcs'.
    assert (Hsh : shows_chunk (cs_inner s) idx (head ++ zeros (chunk_size (cs_inner s) - valid)))
      by (apply shows_padded; [apply Hinv|done..]).
    split; [|split; [|split; [simpl; congruence|done]]].
    + apply (inv_put (with_inner i _)); [|done|by eapply shows_same].
      apply (inv_same_inner (observe_cache false s1)); [by destruct Hinv1|done|].
      simpl. by rewrite Hi1.
    + apply same_volume_inner; simpl; [done|congruence].
  - intros e i (Hi & Hs & Hr). split; [|split].
    + apply (inv_same_inner (observe_cache false s1)); [by destruct Hinv1|done|]. simpl. by rewrite Hi1.
    + apply same_volume_inner; simpl; [done|congruence].
    + rewrite Hz in Hr. unfold range_error, in_range in Hr. simpl.
      destruct Hr as [[Hr _]|Hr]; [lia|tauto].
Qed.

Lemma cached_read_spec s off buf : cached_invariant s → 0 ≤ off →
  wp (Store.read_at off buf)
    (λ buf' s', cached_invariant s' ∧ same_volume s s' ∧ in_range s off (Zlen buf) ∧
       Zlen buf' = Zlen buf ∧ ∀ i, 0 ≤ i < Zlen buf → nthb buf' i = content s (off + i))
    (λ e s', cached_invariant s' ∧ same_volume s s' ∧
       (range_error s off (Zlen buf) e ∨ ¬ ready s)) s.
Proof.
  intros Hinv Hoff. cbn [Store.read_at cached_block_store]. unfold read.
  destruct (cs_io_locked s) eqn:Hlk.
  { apply wp_locked; [done|]. intros e. split; [done|]. split; [reflexivity|].
    right. simpl. rewrite Hlk. naive_solver. }
  wp_step. apply wp_unlocked; [done|]. wp_steps.
  destruct (law_geometry _ (cinv_inner _ Hinv)) as (_ & Hcs & Hcap).
  rewrite check_range_spec by done.
  case_decide as Hr; [|split; [done|]; split; [reflexivity|by left]]. wp_step.
  pose proof (Zlen_nonneg buf).
  eapply wp_mono; [apply (wp_chunk_loop (λ done bf s', cached_invariant s' ∧ same_volume s s' ∧
      cs_io_locked s' = false ∧ Zlen bf = Zlen buf ∧ filled (content s) off done bf)
    (λ e s', cached_invariant s' ∧ same_volume s s' ∧ ¬ ready s))|naive_solver|naive_solver];
    [lia|lia|..].
  { split; [done|]. split; [reflexivity|]. split; [done|]. split; [done|]. intros i ?; lia. }
  intros done bf s1 Hd (Hinv1 & Hs1 & Hlk1 & Hl & Hf).
  destruct (piece_bounds (chunk_size (cs_inner s)) off (Zlen buf) done) as (Hw&Ht&Hwt); [lia..|].
  set (tk := piece_take _ _ _ _) in *. set (idx := (off + done) / _) in *.
  assert (chunk_size (cs_inner s) ≠ 0) as Hne by lia.
  pose proof (Z.div_mod (off + done) _ Hne) as Hdm. fold idx in Hdm.
  assert (0 ≤ idx) by (apply Z.div_pos; lia).
  pose proof (same_chunk_size _ _ (sv_shape _ _ Hs1)) as Hcs1. simpl in Hcs1.
  pose proof (sv_capacity _ _ Hs1) as Hcap1. simpl in Hcap1.
  wp_step. eapply wp_mono; [apply load_chunk_spec; [done|done|done|]|..].
  { simpl. rewrite Hcs1, Hcap1. lia. }
  2: { intros e s2 (? & ? & Hn). split; [done|]. split; [by etrans|].
       intros Hrd. by apply Hn, (sv_ready _ _ Hs1). }
  intros chunk s2 (Hinv2 & Hs2 & Hlk2 & [Hlc Hc]).
  wp_step. apply wp_slice; [lia|lia|]. set (src := sub chunk _ _).
  assert (Zlen src = tk) as Hsl by (unfold src; rewrite Zlen_sub; lia).
  apply wp_copy_into; [lia|lia|lia|].
  split; [done|]. split; [by etrans|]. split; [done|]. rewrite Zlen_splice by lia. split; [done|].
  rewrite <-Hsl at 1. apply filled_splice; [lia|lia|done|]. intros j Hj. rewrite Hsl in Hj.
  unfold src. rewrite nthb_sub by lia. rewrite Hc by lia. rewrite Hcs1.
  change (content (cs_inner s1)) with (content s1). rewrite (sv_content _ _ Hs1) by lia.
  f_equal. lia.
Qed.

(** ** Writing *)

(** The volume after the first [done] bytes of [data] at [off]. *)
Definition progress (f : Z → byte) (off : Z) (data : bytes) (done a : Z) : byte :=
  if decide (off ≤ a < off + done) then nthb data (a - off) else f a.

(** The pool shows [f]. *)
Definition pool_shows (cs : Z) (f : Z → byte) (c : CacheInner) (volume : string) : Prop :=
  ∀ idx d, Cache.cached c volume idx = Some d → 0 ≤ idx ∧ shows cs f idx d.

Lemma shows_ext cs f g idx d :
  (∀ w, 0 ≤ w < cs → f (idx * cs + w) = g (idx * cs + w)) → shows cs f idx d → shows cs g idx d.
Proof. intros Hfg [Hl Hd]. split; [done|]. intros w Hw. by rewrite <-Hfg, Hd. Qed.

Lemma update_piece_spec cs f off data done s :
  0 < cs → 0 ≤ off → 0 ≤ done < Zlen data → Cache.accounted (cs_cache s) →
  pool_shows cs (progress f off data done) (cs_cache s) (cs_volume s) →
  let take := piece_take cs off (Zlen data) done in
  wp (update_piece data ((off + done) / cs) ((off + done) mod cs) take done)
    (λ _ s', Cache.accounted (cs_cache s') ∧ cs_inner s' = cs_inner s ∧
       cs_io_locked s' = cs_io_locked s ∧ cs_volume s' = cs_volume s ∧
       pool_shows cs (progress f off data (done + take)) (cs_cache s') (cs_volume s))
    (λ _ _, False) s.
Proof.
  intros Hcs Hoff Hd Ha Hp take.
  destruct (piece_bounds cs off (Zlen data) done) as (Hw&Ht&Hwt); [lia..|].
  fold take in Ht, Hwt. set (idx := (off + done) / cs). set (within := (off + done) mod cs) in *.
  pose proof (Z.div_mod (off + done) cs ltac:(lia)) as Hdm. fold idx within in Hdm.
  (* chunks other than [idx] look the same before and after the piece *)
  assert (Hother : ∀ j d, j ≠ idx → shows cs (progress f off data done) j d →
    shows cs (progress f off data (done + take)) j d).
  { intros j d Hj. apply shows_ext. intros w Hw'. unfold progress.
    repeat case_decide; try done; [lia|]. exfalso. apply Hj.
    rewrite <-(addr_div cs j w) by lia. apply Z.div_unique with (j * cs + w - cs * idx); nia. }
  unfold update_piece, wp, cache_get, mbind, M_bind.
  destruct (Cache.get (cs_volume s) idx (cs_cache s)) as [r c] eqn:Hg.
  pose proof (Cache.get_lookup (cs_volume s) idx (cs_cache s)) as Hr. rewrite Hg in Hr. simpl in Hr.
  pose proof (Cache.get_data_sub (cs_volume s) idx (cs_cache s)) as Hds. rewrite Hg in Hds. simpl in Hds.
  pose proof (Cache.get_accounted (cs_volume s) idx _ Ha) as Hac. rewrite Hg in Hac. simpl in Hac.
  fold (Cache.cached (cs_cache s) (cs_volume s) idx) in Hr. subst r.
  destruct (Cache.cached (cs_cache s) (cs_volume s) idx) as [d|] eqn:Hc.
  - destruct (Hp idx d Hc) as [Hidx [Hl Hdw]].
    unfold lift. rewrite slice_ok by lia.
    replace (done + take - done) with take by lia.
    assert (Hsl : Zlen (sub data done take) = take) by (rewrite Zlen_sub; lia).
    rewrite copy_into_ok by lia. simpl.
    split; [by apply Cache.put_accounted|]. split; [done|]. split; [done|]. split; [done|].
    intros j d' [([= ->] & ->)|[Hne Hl']]%Cache.put_cached.
    + split; [done|]. split; [rewrite Zlen_splice; lia|]. intros w Hw'.
      rewrite nthb_splice by lia. rewrite Hsl, Hdw by done. unfold progress.
      destruct (decide (within ≤ w < within + take)).
      * rewrite decide_True by lia. rewrite nthb_sub by lia. f_equal. lia.
      * repeat case_decide; try done; lia.
    + destruct (Hp j d' (Hds _ _ _ Hl')) as [? ?]. split; [done|]. apply Hother; [congruence|done].
  - simpl. split; [eapply Cache.shrunk_accounted; [apply Cache.remove_shrunk|done]|].
    split; [done|]. split; [done|]. split; [done|].
    intros j d' [Hne Hl']%Cache.invalidate_cached.
    destruct (Hp j d' (Hds _ _ _ Hl')) as [? ?]. split; [done|]. apply Hother; [congruence|done].
Qed.

Lemma cached_write_spec s off data : cached_invariant s → 0 ≤ off → admissible s off data →
  wp (Store.write_at off data)
    (λ _ s', cached_invariant s' ∧ in_range s off (Zlen data) ∧ written s s' off data)
    (λ e s', (range_error s off (Zlen data) e ∧ cached_invariant s' ∧ same_volume s s') ∨
             ¬ ready s) s.
Proof.
  intros Hinv Hoff Hadm. cbn [Store.write_at cached_block_store]. unfold write.
  destruct (cs_io_locked s) eqn:Hlk.
  { apply wp_locked; [done|]. intros e. right. simpl. rewrite Hlk. naive_solver. }
  wp_step. apply wp_unlocked; [done|]. wp_step. apply wp_inner.
  eapply wp_mono; [apply law_write; [apply Hinv|done|done]|..].
  2: { intros e i [(Hr & Hi & Hs)|Hn]; [left|right; simpl; tauto].
       split; [done|]. split; [by apply inv_same_inner|]. by apply same_volume_inner. }
  intros _ i (Hi & Hr & [Hsh Hcap Hct Hrd]). wp_steps. simpl.
  destruct (law_geometry _ Hi) as (_ & Hcs & _). pose proof (Zlen_nonneg data).
  pose proof (same_chunk_size _ _ Hsh) as Hcs'.
  eapply wp_mono; [apply (wp_chunk_loop (λ done _ s', Cache.accounted (cs_cache s') ∧
      cs_inner s' = i ∧ cs_io_locked s' = false ∧ cs_volume s' = cs_volume s ∧
      pool_shows (chunk_size i) (progress (content s) off data done) (cs_cache s') (cs_volume s'))
    (λ _ _, False))| |done]; [lia|lia|..].
  - simpl. split; [apply Hinv|]. split; [done|]. split; [done|]. split; [done|].
    intros idx d Hl. destruct (cinv_coherent _ Hinv idx d Hl) as [? Hd]. split; [done|].
    rewrite Hcs'. eapply shows_ext; [|exact Hd]. intros w _. unfold progress.
    by rewrite decide_False by lia.
  - intros done [] s1 Hd (Ha & Hi1 & Hl1 & Hv1 & Hp).
    eapply wp_mono; [apply (update_piece_spec (chunk_size i) (content s)); [lia|done..]| |done].
    intros _ s2 (Ha2 & Hi2 & Hl2 & Hv2 & Hp2). rewrite Hi2, Hl2, Hv2. auto.
  - intros _ s1 (Ha & Hi1 & Hl1 & Hv1 & Hp). split; [|split; [done|]].
    + constructor; [by rewrite Hi1|done|]. intros idx d Hl. destruct (Hp idx d Hl) as [? Hd].
      split; [done|]. rewrite Hi1. eapply shows_ext; [|exact Hd]. intros w Hw.
      rewrite Hct by nia. done.
    + constructor; [constructor; simpl; rewrite Hi1; apply Hsh|..]; simpl; rewrite Hi1;
        [done|done|]. intros [? _]. split; [auto|done].
Qed.

(** ** The remaining operations *)
Lemma cached_set_capacity_spec s n : cached_invariant s → is_u64 n →
  wp (Store.set_capacity n)
    (λ _ s', cached_invariant s' ∧ same_shape s s' ∧ capacity s' = n ∧ capacity s ≤ n ∧
       n mod block_size s = 0 ∧ (∀ i, 0 ≤ i → content s' i = content s i) ∧
       (ready s → ready s'))
    (λ e s', (cached_invariant s' ∧ same_volume s s' ∧
              ((n mod block_size s ≠ 0) ∨ n < capacity s)) ∨ ¬ ready s) s.
Proof.
  intros Hinv Hn. cbn [Store.set_capacity cached_block_store]. unfold set_cap.
  destruct (cs_io_locked s) eqn:Hlk.
  { apply wp_locked; [done|]. intros e. right. simpl. rewrite Hlk. naive_solver. }
  wp_step. apply wp_unlocked; [done|]. apply wp_inner.
  eapply wp_mono; [apply law_set_capacity; [apply Hinv|done]|..].
  - intros _ i (Hi & Hsh & Hc & Hle & Hm & Hct & Hrd). split; [|simpl].
    + destruct Hinv as [_ Ha Hco]. constructor; [done|done|]. intros idx d Hl.
      destruct (Hco idx d Hl) as [Hx Hd]. split; [done|].
      unfold shows_chunk. simpl. rewrite (same_chunk_size _ _ Hsh).
      eapply shows_ext; [|exact Hd]. intros w Hw. symmetry. apply Hct. nia.
    + split; [by destruct Hsh|]. naive_solver.
  - intros e i [(Hi & Hs & Hr)|Hn']; [left|right; simpl; tauto].
    split; [by apply inv_same_inner|]. split; [by apply same_volume_inner|done].
Qed.

Lemma cached_delete_spec s idx : cached_invariant s → is_u64 idx →
  wp (Store.delete_chunk idx)
    (λ _ s', cached_invariant s' ∧ same_shape s s' ∧ capacity s' = capacity s ∧
       (∀ i, 0 ≤ i → content s' i =
          if decide (i / chunk_size s = idx) then Byte.x00 else content s i) ∧
       (ready s → ready s'))
    (λ _ _, ¬ ready s) s.
Proof.
  intros Hinv Hidx. cbn [Store.delete_chunk cached_block_store]. unfold delete.
  destruct (cs_io_locked s) eqn:Hlk.
  { apply wp_locked; [done|]. intros e. simpl. rewrite Hlk. naive_solver. }
  wp_step. apply wp_unlocked; [done|]. wp_step. apply wp_inner.
  eapply wp_mono; [apply law_delete; [apply Hinv|done]| |simpl; naive_solver].
  intros _ i (Hi & Hsh & Hc & Hct & Hrd). unfold cache_invalidate. wp_step. split; [|simpl].
  - destruct (law_geometry _ Hi) as (_ & Hcs & _).
    destruct Hinv as [_ Ha Hco]. constructor; simpl; [done| |].
    + eapply Cache.shrunk_accounted; [apply Cache.remove_shrunk|done].
    + intros j d [Hne Hl]%Cache.invalidate_cached. simpl in Hl.
      destruct (Hco j d Hl) as [Hx Hd]. split; [done|].
      unfold shows_chunk. simpl. rewrite (same_chunk_size _ _ Hsh) in *.
      eapply shows_ext; [|exact Hd]. intros w Hw. rewrite Hct by nia.
      rewrite addr_div by lia. rewrite decide_False by (intros ->; by apply Hne). done.
  - split; [by destruct Hsh|]. split; [done|]. split; [done|]. naive_solver.
Qed.

#[global] Instance cached_laws : BlockStoreLaws (CachedStore S).
Proof.
  constructor.
  - intros s [Hi _ _]. exact (law_geometry (cs_inner s) Hi).
  - intros s i [Hi _ _]. exact (law_tail (cs_inner s) i Hi).
  - apply cached_read_spec.
  - apply cached_write_spec.
  - apply cached_set_capacity_spec.
  - intros s Hinv. cbn [Store.flush cached_block_store]. unfold flush_store.
    destruct (cs_io_locked s) eqn:Hlk.
    { apply wp_locked; [done|]. intros e. simpl. rewrite Hlk. naive_solver. }
    wp_step. apply wp_unlocked; [done|]. apply wp_inner.
    eapply wp_mono; [apply law_flush, Hinv| |simpl; naive_solver].
    intros _ i [Hi Hs]. split; [by apply inv_same_inner|by apply same_volume_inner].
  - intros s Hinv. cbn [Store.present_chunks cached_block_store]. unfold list_present.
    destruct (cs_io_locked s) eqn:Hlk.
    { apply wp_locked; [done|]. intros e. simpl. rewrite Hlk. naive_solver. }
    wp_step. apply wp_unlocked; [done|]. apply wp_inner.
    eapply wp_mono; [apply law_present, Hinv| |simpl; naive_solver].
    intros l i (Hi & Hs & Hrest). split; [by apply inv_same_inner|].
    split; [by apply same_volume_inner|done].
  - apply cached_delete_spec.
Qed.
End laws.
End Cached.
