(* ===== verification/S3Theorems.v ===== *)
(** * Main theorems about the S3 store

    The properties of the bucket-backed store that its users rely on, stated
    for any service that satisfies [S3Laws] and evaluated on a small volume in
    the in-memory bucket. *)
From S2P Require Import Prelude Text Store Compression Snapshot S3Api S3Keys S3Store S3Spec S3Block.
From S2P Require Import S3Snap S3SnapSpec S3Migrate S3Open Concrete.
#[local] Open Scope string_scope.
#[local] Open Scope list_scope.
#[local] Open Scope Z_scope.

Module S3Theorems.
Import S3Spec S3Snap SnapSpec Migrate Open.

(** ** The small volume *)
Section fresh.
Import Concrete.

Lemma fresh_geometry mode : geometry (volume mode).
Proof. constructor; simpl; unfold is_u64, u64_max, u32_max; [lia|lia|lia|by left]. Qed.

Lemma fresh_view mode idx : chunk_view (volume mode) ∅ idx = Ok (zeros 4).
Proof. unfold chunk_view. by destruct mode; rewrite !lookup_empty. Qed.

Lemma fresh_chunks mode : chunks_ok (volume mode) ∅.
Proof. intros j _. rewrite fresh_view. eauto. Qed.

Lemma fresh_invariant mode : S3Block.s3_invariant (fresh mode).
Proof.
  constructor; [apply fresh_geometry|apply fresh_chunks|].
  intros i _. unfold byte_view. change (S3Block.s_objs (fresh mode)) with (∅ : object_map).
  change (S3.s_store (fresh mode)) with (volume mode).
  case_decide; [|done]. rewrite fresh_view. apply nthb_zeros.
Qed.

Lemma volume_encodes mode : S3Block.encodes (volume mode).
Proof. intros p _. by exists p. Qed.

Lemma fresh_ready mode : ready (fresh mode).
Proof. split; [by constructor|apply volume_encodes]. Qed.

(** On uncompressed 4-byte chunks the digest is injective. *)
Lemma digest_inj (p q : bytes) : Zlen p = 4 → Zlen q = 4 → blake3 p = blake3 q → p = q.
Proof.
  unfold Zlen, blake3, digest. intros Hp Hq Heq.
  assert (Hp' : length p = 4%nat) by lia. assert (Hq' : length q = 4%nat) by lia.
  apply (f_equal (take 4)) in Heq. rewrite !take_take in Heq. simpl Nat.min in Heq.
  rewrite !take_app_length' in Heq by lia. done.
Qed.

Lemma fresh_admissible mode off data :
  write_admissible (volume mode) ∅ off data.
Proof.
  intros _ idx body _ [= <-]. split; [intros _ b et Hl; by rewrite lookup_empty in Hl|].
  intros idx' body' _ [= <-] Heq. apply digest_inj; [..|done]; by apply Zlen_patched_chunk.
Qed.
End fresh.

Section theorems.
Context {B : Type} `{S3Laws B} `{CodecLaws} `{Blake3Laws} `{JsonLaws}.

(** C1: A write followed by a read. On a volume in a working bucket, [write_at]
    of data that fits the volume succeeds, and a following [read_at] of any
    range succeeds and returns the written bytes inside the written range and
    the previous contents outside it, in both storage modes and with every
    compression setting. *)
Theorem s3_write_then_read (s : S3.state B) off data off' n :
  S3Block.s3_invariant s → ready s → 0 ≤ off → write_admissible (S3.s_store s) (S3Block.s_objs s) off data →
  off + Zlen data ≤ st_capacity (S3.s_store s) →
  0 ≤ off' → 0 ≤ n → off' + n ≤ st_capacity (S3.s_store s) →
  ∃ s1 s2 buf, Store.write_at off data s = (Ok tt, s1) ∧
    Store.read_at off' (zeros n) s1 = (Ok buf, s2) ∧ Zlen buf = n ∧
    ∀ i, 0 ≤ i < n → nthb buf i =
      if decide (off ≤ off' + i < off + Zlen data) then nthb data (off' + i - off)
      else byte_view (S3.s_store s) (S3Block.s_objs s) (off' + i).
Proof. intros Hi Hr Hoff Ha Hin Hoff' Hn Hin'. exact (write_then_read s off data off' n Hi Hr Hoff Ha Hin Hoff' Hn Hin'). Qed.

(** C6: Refinement. The S3 chunk store implements the block-store contract:
    geometry, reads, writes, growth, flush, listing and deletion behave as on a
    linear array of bytes; a store whose service works returns only the
    documented errors, and no operation panics or loops. *)
Theorem s3_refines_block_store : BlockStoreLaws (S3.state B).
Proof. apply S3Block.s3_laws. Qed.

(** C3: Writes are atomic per chunk. Whatever requests fail on the way (the
    service may time out, refuse or half-apply any call), a write returns, and
    afterwards every chunk of the volume is either the old chunk or the chunk
    with the new bytes patched in; no chunk is torn or unreadable. A successful
    write shows the new bytes everywhere. *)
Theorem s3_write_chunk_atomic self off data (env env' : Env B) r :
  geometry self → chunks_ok self (objs env) → 0 ≤ off →
  write_admissible self (objs env) off data →
  S3.write_at self off data env = (r, env') →
  chunks_ok self (objs env') ∧
  (∀ j, is_u64 j → chunk_view self (objs env') j = chunk_view self (objs env) j ∨
     chunk_view self (objs env') j = Ok (patched_chunk self (objs env) off data j)) ∧
  ((r = Ok tt ∧ ∀ i, 0 ≤ i → byte_view self (objs env') i = byte_patched self (objs env) off data i)
   ∨ ∃ e, r = Err e).
Proof.
  intros Hg Hc Hoff Hadm Hrun.
  destruct (wp_elim _ _ _ _ _ _ (write_at_spec self off data env Hg Hc Hoff Hadm) Hrun)
    as [([] & -> & _ & _ & [Hok Hb Hch _] & _)|(e & -> & _ & Hok & Hch & _)]; eauto 6.
Qed.

(** Compare-and-swap. A conditional chunk put that reports success proves
    that the stored chunk (object or pointer) still carried the ETag the chunk
    was read with, so no other writer replaced it in between. *)
Theorem s3_cas_put_unchanged self idx data t (env env' : Env B) :
  Zlen data = st_chunk_size self →
  S3.put_chunk self idx data (Some t) env = (Ok tt, env') →
  ∃ body, objs env !! Keys.chunk_key self idx = Some (body, Some t).
Proof.
  intros Hl Hrun.
  by destruct (wp_elim _ _ _ _ _ _ (put_chunk_spec self idx data (Some t) env Hl) Hrun)
    as [(_ & _ & _ & Him & _)|(e & [=] & _)].
Qed.

(** C39: Listing terminates. The loop over the pages of a listing, taken as the
    unbounded loop of the code, ends in every state of the service, in exactly
    one way, because a page that is cut has at least one of the finitely many
    objects; it leaves the objects alone, and either it has visited every object
    under the prefix exactly once or a request failed. *)
Theorem listing_terminates {Acc} p (visit : Acc → ListedObject → Acc) acc (b : B) :
  ∃ r b' l, loops S3.list_more (S3.list_page p visit) (None, false, acc) b r b' ∧
    (∀ r2 b2, loops S3.list_more (S3.list_page p visit) (None, false, acc) b r2 b2 →
       r2 = r ∧ b2 = b') ∧
    S3.list_pages p visit acc b = (st ← r; mret st.2, b') ∧ objects b' = objects b ∧
    l ≡ₚ map listed (under_prefix p (objects b)) ∧
    match r with
    | Ok st => st.2 = foldl visit acc l
    | Err _ => ¬ healthy b
    | _ => False
    end.
Proof.
  pose proof (list_loop_spec p visit acc b) as Hw.
  destruct (wp_loops _ _ _ _ _ _ _ Hw) as (r & b' & Hr & Hl).
  exists r, b', (listing (objects b) p None). split; [done|].
  split; [by apply (loops_det _ _ _ _ _ _ Hl)|]. unfold wp in Hw. rewrite Hr in Hw.
  unfold S3.list_pages, mbind, M_bind, get. rewrite Hr.
  destruct r; try done; (split; [done|]); (split; [by destruct Hw|]);
    (split; [apply listing_all|]); naive_solver.
Qed.
End theorems.

(** ** Witnesses *)
Section witnesses.
Import Concrete.

Lemma s3_write_then_read_witness :
  ∃ s1 s2 buf, Store.write_at 3 (payload 6) (fresh Cow) = (Ok tt, s1) ∧
    Store.read_at 2 (zeros 8) s1 = (Ok buf, s2) ∧ Zlen buf = 8 ∧
    ∀ i, 0 ≤ i < 8 → nthb buf i =
      if decide (3 ≤ 2 + i < 3 + Zlen (payload 6)) then nthb (payload 6) (2 + i - 3)
      else byte_view (S3.s_store (fresh Cow)) (S3Block.s_objs (fresh Cow)) (2 + i).
Proof.
  apply (s3_write_then_read (fresh Cow) 3 (payload 6) 2 8);
    [apply fresh_invariant|apply fresh_ready|lia|apply fresh_admissible|vm_compute; congruence|lia|lia|
     vm_compute; congruence].
Defined.

Lemma s3_refines_block_store_witness : BlockStoreLaws (S3.state MemS3.bucket).
Proof. apply s3_refines_block_store. Defined.

(** The third request of the write fails: the first chunk is new, the second old. *)
Definition faulty_env : Env MemS3.bucket :=
  {| env_svc := MemS3.with_faults [false; false; false; true] MemS3.empty_bucket; env_obs := [] |}.

Lemma s3_write_chunk_atomic_witness :
  let r := S3.write_at (volume Cow) 0 (payload 8) faulty_env in
  chunks_ok (volume Cow) (objs r.2) ∧
  (∀ j, is_u64 j → chunk_view (volume Cow) (objs r.2) j = chunk_view (volume Cow) (objs faulty_env) j ∨
     chunk_view (volume Cow) (objs r.2) j = Ok (patched_chunk (volume Cow) (objs faulty_env) 0 (payload 8) j)) ∧
  ((r.1 = Ok tt ∧ ∀ i, 0 ≤ i → byte_view (volume Cow) (objs r.2) i =
      byte_patched (volume Cow) (objs faulty_env) 0 (payload 8) i) ∨ ∃ e, r.1 = Err e).
Proof.
  intros r. apply (s3_write_chunk_atomic (volume Cow) 0 (payload 8) faulty_env r.2 r.1);
    [apply fresh_geometry|apply fresh_chunks|lia|apply fresh_admissible|].
  apply surjective_pairing.
Defined.

(** Five objects below a prefix and one elsewhere: three pages. *)
Definition five : MemS3.bucket :=
  {| MemS3.ms_objects := list_to_map ((λ k, (k, (payload 1, None))) <$> ["p/a"; "p/b"; "p/c"; "p/d"; "p/e"; "q/a"]);
     MemS3.ms_clock := 0; MemS3.ms_faults := [] |}.
Definition count (n : nat) (_ : ListedObject) : nat := S n.
Example three_pages :
  (S3.list_page "p/" count (None, false, 0%nat) five).1 = Ok (Some "tt", false, 2%nat) ∧
  (S3.list_page "p/" count (Some "tt", false, 2%nat) five).1 = Ok (Some "tttt", false, 4%nat) ∧
  (S3.list_page "p/" count (Some "tttt", false, 4%nat) five).1 = Ok (None, true, 5%nat).
Proof. vm_compute. done. Qed.

Lemma listing_terminates_witness :
  ∃ r b' l, loops S3.list_more (S3.list_page "p/" count) (None, false, 0%nat) five r b' ∧
    S3.list_pages "p/" count 0%nat five = (st ← r; mret st.2, b') ∧
    length l = 5%nat ∧ match r with Ok st => st.2 = foldl count 0%nat l | Err _ => ¬ healthy five | _ => False end.
Proof.
  destruct (listing_terminates "p/" count 0%nat five) as (r & b' & l & Hloop & _ & Hrun & _ & Hl & Hr).
  exists r, b', l. split; [exact Hloop|]. split; [exact Hrun|]. split; [|exact Hr].
  apply Permutation_length in Hl. rewrite Hl. vm_compute. reflexivity.
Defined.

Definition written_env : Env MemS3.bucket :=
  snd (S3.write_at (volume Legacy) 0 (payload 4) fresh_env).

Lemma s3_cas_put_unchanged_witness :
  ∃ body, objs written_env !! Keys.chunk_key (volume Legacy) 0 = Some (body, Some "0").
Proof.
  apply (s3_cas_put_unchanged (volume Legacy) 0 (payload 4) "0" written_env
    (snd (S3.put_chunk (volume Legacy) 0 (payload 4) (Some "0") written_env))); vm_compute; reflexivity.
Defined.
End witnesses.
End S3Theorems.
