(* ===== verification/SnapTheorems.v ===== *)
(** * Main theorems about snapshots, collection, migration and opening *)
From S2P Require Import Prelude Text Store Compression Snapshot S3Api S3Keys S3Store S3Spec S3Block.
From S2P Require Import S3Snap S3SnapSpec S3Activity S3Migrate S3Open Concrete S3Theorems.
#[local] Open Scope string_scope.
#[local] Open Scope list_scope.
#[local] Open Scope Z_scope.

Module SnapTheorems.
Import S3Spec S3Snap SnapSpec Activity Migrate Open.

Section theorems.
Context {B : Type} `{S3Laws B} `{CodecLaws} `{Blake3Laws} `{JsonLaws}.

(** C2: Snapshot isolation. Take a snapshot of a COW volume whose bucket holds
    only documents the program wrote. Then let any sequence of writes, trims and
    further snapshots happen, each of which may fail at any request, with the
    service breaking down and recovering in between, and of collections and
    deletions of other snapshots while the service works. When the service works
    again, restoring the snapshot succeeds and every chunk of the volume is again
    exactly what it was when the snapshot was taken. (Writes must not collide in
    BLAKE3; a collection during a fault is [gc_forgets_snapshot_on_fault].) *)
Theorem snapshot_isolation self now id vol (env env1 env2 : Env B) m f :
  geometry self → st_storage self = Cow →
  pool_ok self (objs env) → indexes_ok self (objs env) → manifests_ok self (objs env) →
  Z.of_nat (size (objs env)) * 40 ≤ 2 ^ 63 - 41 →
  st_capacity self mod st_block_size self = 0 →
  (∀ idx, is_u64 idx → chunk_view self (objs env) idx = Ok (f idx)) →
  snapshot_create self now id vol env = (Ok m, env1) →
  rtc (activity self id) env1 env2 → ok env2 →
  ∃ st s', snapshot_restore id {| S3.s_store := self; S3.s_env := env2 |} = (Ok st, s') ∧
    S3.s_store s' = self ∧
    ∀ idx, is_u64 idx → chunk_view self (S3Block.s_objs s') idx = Ok (f idx).
Proof. intros. eapply wp_ok, snapshot_isolation_gen; done. Qed.

(** Creating a snapshot does not disturb the live volume, whether it
    succeeds or fails; with a working service it fails only for a bad or taken
    id; when it succeeds the new snapshot records every live chunk. *)
Theorem snapshot_create_live self now id vol (env env1 : Env B) r :
  st_storage self = Cow → chunks_ok self (objs env) →
  Z.of_nat (size (objs env)) * 40 ≤ 2 ^ 63 - 41 →
  snapshot_create self now id vol env = (r, env1) →
  view_same self (objs env) (objs env1) ∧
  ((∃ m v, r = Ok m ∧ snapshot_holds self (objs env1) id m v ∧
      sm_capacity_bytes m = st_capacity self ∧
      ∀ idx c, is_u64 idx → chunk_view self (objs env) idx = Ok c →
        hash_view self (objs env1) (v !! idx) = Some c) ∨
   ∃ e, r = Err e ∧ (¬ ok env ∨ Keys.validate_snapshot_id id = Err e ∨
      is_Some (objs env !! Keys.snapshot_manifest_key self id))).
Proof.
  intros Hm Hc Hsz Hrun.
  destruct (wp_elim _ _ _ _ _ _ (snapshot_create_spec self now id vol env Hm Hc Hsz) Hrun)
    as [(m & -> & _ & Hv & _ & Hcap & _ & v & Hs & Hsh)|(e & -> & Hv & Hr)]; (split; [done|]).
  - left. by exists m, v.
  - right. eauto.
Qed.

(** C5: Garbage collection is safe and complete. Whatever fails, live chunks
    keep their contents; with a working service every intact snapshot keeps
    its documents and stays fully readable; and after a successful collection
    every object left in the pool is referenced by a live pointer or by the
    index of a snapshot. *)
Theorem gc_safe_and_complete self (env env' : Env B) r :
  st_storage self = Cow → chunks_ok self (objs env) →
  indexes_ok self (objs env) → pool_ok self (objs env) →
  gc_unreferenced_objects self env = (r, env') →
  view_same self (objs env) (objs env') ∧
  (ok env → ∀ id m v f, snapshot_holds self (objs env) id m v →
     snapshot_shows self (objs env) v f →
     snapshot_holds self (objs env') id m v ∧ snapshot_shows self (objs env') v f) ∧
  (∀ st h, r = Ok st → Snap.is_hash h → is_Some (objs env' !! Keys.object_key self h) →
     referenced self (objs env) h).
Proof.
  intros Hm Hc Hi Hp Hrun.
  destruct (wp_elim _ _ _ _ _ _ (gc_spec self env Hm Hc Hi Hp) Hrun)
    as [(st & -> & Hk & Hv & (R & Hsw & HR) & Hall)|(e & -> & Hv & Hr)].
  - split; [done|]. split; [|eauto]. intros Hok id m v f Hs Hsh.
    eapply swept_snapshot; eauto.
  - split; [done|]. split; [|by intros ?? [=]]. intros Hok id m v f Hs Hsh.
    destruct Hr as [?|[_ ->]]; done.
Qed.

(** C4: Migration preserves the volume. Migrating a legacy volume with a
    working service succeeds, and whenever it reports success (whatever failed
    and was ignored on the way) the handle is in COW mode and every chunk reads
    exactly as before. *)
Theorem migrate_preserves_volume (s : S3.state B) :
  let self := S3.s_store s in let o := S3Block.s_objs s in
  st_storage self = Legacy → chunks_ok self o →
  (∀ idx, is_u64 idx → o !! Keys.chunk_key (cow self) idx = None) →
  migrate_admissible self o →
  (ok (S3.s_env s) → ∃ r s', migrate_to_cow s = (Ok r, s')) ∧
  ∀ r s', migrate_to_cow s = (Ok r, s') → S3.s_store s' = cow self ∧
    ∀ idx, is_u64 idx →
      chunk_view (S3.s_store s') (S3Block.s_objs s') idx = chunk_view self o idx.
Proof.
  intros self o Hm Hc Hptr Hadm.
  assert (Hv : ∀ idx, is_u64 idx → mixed_view self o idx = chunk_view self o idx)
    by (intros; by apply legacy_mixed_view; auto).
  assert (Hmo : mixed_ok self o) by (intros i Hi; rewrite Hv by done; by apply Hc).
  pose proof (migrate_to_cow_spec s Hm Hmo Hadm) as Hwp. split.
  - intros Hok. unfold wp in Hwp. destruct (migrate_to_cow s) as [[r|e| |] s']; try done; [eauto|].
    by destruct Hwp.
  - intros r s' Hrun.
    destruct (wp_elim _ _ _ _ _ _ Hwp Hrun) as [(? & _ & _ & Hst & Hvw & _)|(e & [=] & _)].
    split; [done|]. intros idx Hidx. rewrite Hvw by done. by apply Hv.
Qed.

(** C21: Migration can be resumed. However often a migration is interrupted by
    failing requests, as long as no chunk had a stale second copy, the attempt
    that finally succeeds leaves every chunk as it was before the first one. *)
Theorem migrate_resume (s s1 s2 : S3.state B) r :
  let self := S3.s_store s in let o := S3Block.s_objs s in
  st_storage self = Legacy → mixed_ok self o → migrate_admissible self o → single_copy self o →
  rtc (λ a b, ∃ e, migrate_to_cow a = (Err e, b)) s s1 →
  migrate_to_cow s1 = (Ok r, s2) →
  S3.s_store s2 = cow self ∧
  ∀ idx, is_u64 idx →
    chunk_view (S3.s_store s2) (S3Block.s_objs s2) idx = mixed_view self o idx.
Proof.
  intros self o Hm Hmo Hadm Hsc Hr Hok. subst self o.
  induction Hr as [s|s s' s1 [e He] _ IH].
  - destruct (wp_elim _ _ _ _ _ _ (migrate_to_cow_spec s Hm Hmo Hadm) Hok)
      as [(? & _ & _ & Hst & Hvw & _)|(e & [=] & _)]. done.
  - destruct (wp_elim _ _ _ _ _ _ (migrate_to_cow_spec s Hm Hmo Hadm) He)
      as [(? & [=] & _)|(e' & _ & _ & Hst & Hsf)].
    specialize (Hsf Hsc). rewrite Hst in IH.
    assert (Hmv : ∀ idx, is_u64 idx → mixed_view (S3.s_store s) (S3Block.s_objs s') idx =
      mixed_view (S3.s_store s) (S3Block.s_objs s) idx) by (intros; by apply safe_mixed_view).
    destruct IH as [Hst2 Hv2]; [done| |by eapply safe_admissible|apply Hsf|done|].
    + intros i Hi. rewrite Hmv by done. by apply Hmo.
    + split; [done|]. intros idx Hidx. rewrite Hv2 by done. by apply Hmv.
Qed.

(** C22: Opening. When no migration is pending, opening a volume never changes
    its data; when it succeeds the handle is the configured one, the recorded
    geometry, compression and layout equal the configured ones, and the
    capacity is the configured one and not smaller than the recorded one. *)
Theorem open_grow_only cfg (env : Env B) r s' :
  let self := handle_of cfg in
  objs env !! Keys.migrating_key self = None →
  open cfg env = (r, s') →
  view_same self (objs env) (S3Block.s_objs s') ∧
  (r = Ok tt → S3.s_store s' = self ∧
     (∀ m, meta_at (objs env) (Keys.meta_key self) = Some (Some m) →
        vm_chunk_size m = sc_chunk_size cfg ∧ vm_block_size m = sc_block_size cfg ∧
        vm_compression m = sc_compression cfg ∧ vm_storage m = sc_storage cfg ∧
        vm_capacity_bytes m ≤ sc_capacity cfg) ∧
     ∃ m, meta_at (S3Block.s_objs s') (Keys.meta_key self) = Some (Some m) ∧
       vm_capacity_bytes m = sc_capacity cfg).
Proof.
  intros self Hmk Hrun. unfold open in Hrun.
  destruct (wp_elim _ _ _ _ _ _ (open_spec cfg env Hmk) Hrun)
    as [([] & -> & _ & Hst & Ho & _ & Hg & m & Hm & Hr)|(e & -> & Hv)]; [|by split].
  split; [by apply only_meta_same|]. intros _. split; [done|]. split; [done|].
  exists m. split; [done|]. by apply rd_capacity.
Qed.
End theorems.

(** ** Witnesses *)
Section witnesses.
Import Concrete S3Theorems.

Abbreviation vol := (volume Cow).

Lemma empty_docs :
  pool_ok vol (objs fresh_env) ∧ indexes_ok vol (objs fresh_env) ∧ manifests_ok vol (objs fresh_env).
Proof.
  change (objs fresh_env) with (∅ : object_map). split; [|split].
  - intros rel v Hl. by rewrite lookup_empty in Hl.
  - intros id body et Hl. by rewrite lookup_empty in Hl.
  - intros k body et _ _ Hl. by rewrite lookup_empty in Hl.
Qed.

Definition created := snapshot_create vol 0 "s" "vol" fresh_env.

(** A volume with one chunk written. *)
Definition one_chunk := (S3.write_at vol 0 (payload 4) fresh_env).2.
Definition with_env_faults (fs : list bool) (env : Env MemS3.bucket) : Env MemS3.bucket :=
  {| env_svc := MemS3.with_faults fs (env_svc env); env_obs := env_obs env |}.
Lemma faults_objs fs env : objs (with_env_faults fs env) = objs env.
Proof. done. Qed.
Definition chunks_of (env : Env MemS3.bucket) (idx : Z) : bytes :=
  match chunk_view vol (objs env) idx with Ok c => c | _ => [] end.

Lemma one_chunk_written :
  data_only vol (objs fresh_env) (objs one_chunk) ∧ chunks_ok vol (objs one_chunk).
Proof.
  assert (Hwp := write_at_spec vol 0 (payload 4) fresh_env (fresh_geometry Cow)).
  specialize (Hwp ltac:(apply fresh_chunks) ltac:(lia) ltac:(apply fresh_admissible)).
  destruct (wp_elim _ _ _ _ _ _ Hwp (surjective_pairing _)) as [(? & _ & _ & _ & Hw & Hd)|(? & _ & Hd & Hc & _)].
  - split; [exact Hd|by eapply wpr_ok].
  - by split.
Qed.
Lemma one_chunk_docs :
  pool_ok vol (objs one_chunk) ∧ indexes_ok vol (objs one_chunk) ∧ manifests_ok vol (objs one_chunk).
Proof.
  destruct empty_docs as (Hp & Hi & Hm). by eapply data_only_docs; [|apply one_chunk_written|..].
Qed.
Lemma one_chunk_objects :
  objs one_chunk = <[Keys.chunk_key vol 0 := (Snap.encode_pointer (blake3 (payload 4)), Some "1")]>
    (<[Keys.object_key vol (blake3 (payload 4)) := (payload 4, Some "0")]> ∅).
Proof. apply (bool_decide_unpack _). vm_compute. exact I. Qed.

(** The history of the volume after its snapshot: the service breaks down in the
    middle of an overwrite and of a second snapshot, the chunk is trimmed, and a
    collection runs when the service is back. *)
Definition snapshotted_env := (snapshot_create vol 0 "s" "vol" one_chunk).2.
Definition broken := with_env_faults [false; true] snapshotted_env.
Definition overwrite := S3.write_at vol 0 (replicate 4 Byte.x09) broken.
Definition trimmed := S3.delete_chunk vol 0 overwrite.2.
Definition broken_again := with_env_faults [false; false; true] trimmed.2.
Definition second := snapshot_create vol 1 "t" "vol" broken_again.
Definition repaired := with_env_faults [] second.2.
Definition collected := gc_unreferenced_objects vol repaired.
Example history :
  overwrite.1 = Err (S3Error "ServiceUnavailable") ∧ second.1 = Err (S3Error "ServiceUnavailable") ∧
  collected.1 = Ok {| gc_objects_deleted := 1; gc_objects_referenced := 1 |} ∧
  chunk_view vol (objs collected.2) 0 = Ok (zeros 4).
Proof. vm_compute. done. Qed.

Lemma overwrite_admissible off data : write_admissible vol (objs broken) off data.
Proof.
  intros _ idx body _ [= <-]. split.
  - intros _ b et Hl. unfold broken in Hl. rewrite faults_objs in Hl.
    destruct (wp_both _ _ _ _ _ (snapshot_create_moves vol 0 "s" "vol" one_chunk eq_refl (proj2 one_chunk_written)
      ltac:(vm_compute; congruence)) (surjective_pairing _)) as [Hd _].
    rewrite (proj2 (docs_moved_data vol "s" _ _ eq_refl Hd)), one_chunk_objects in Hl.
    rewrite lookup_insert_ne in Hl by (intros Heq; symmetry in Heq; by eapply cow_chunk_key_not_object).
    apply lookup_insert_Some in Hl as [[Heq [= <- <-]]|[_ Hl]]; [|by rewrite lookup_empty in Hl].
    apply Keys.object_key_inj in Heq; [|apply digest_laws..]. by apply digest_inj in Heq; [..|apply Zlen_patched_chunk].
  - intros idx' body' _ [= <-] Heq. apply digest_inj; [..|done]; by apply Zlen_patched_chunk.
Qed.

Lemma snapshot_isolation_witness :
  ∃ st s', snapshot_restore "s" {| S3.s_store := vol; S3.s_env := collected.2 |} = (Ok st, s') ∧
    S3.s_store s' = vol ∧ chunk_view vol (S3Block.s_objs s') 0 = Ok (payload 4).
Proof.
  destruct one_chunk_docs as (Hp & Hi & Hm).
  destruct (snapshot_isolation vol 0 "s" "vol" one_chunk snapshotted_env collected.2
    (with_ready (Snap.new_creating 0 "s" "vol" 16 4 2 CompNone) 1) (chunks_of one_chunk)) as (st & s' & Hr & Hst & Hv).
  - apply fresh_geometry.
  - reflexivity.
  - exact Hp.
  - exact Hi.
  - exact Hm.
  - vm_compute. congruence.
  - reflexivity.
  - intros idx Hidx. unfold chunks_of. destruct (proj2 one_chunk_written idx Hidx) as [c Hc]. by rewrite Hc.
  - vm_compute. reflexivity.
  - eapply rtc_l; [apply (act_service vol "s" _ broken (faults_objs _ _))|].
    eapply rtc_l; [apply (act_write vol "s" 0 (replicate 4 Byte.x09) _ overwrite.1 overwrite.2);
      [lia|apply overwrite_admissible|apply surjective_pairing]|].
    eapply rtc_l; [apply (act_trim vol "s" 0 _ trimmed.1 trimmed.2); [vm_compute; split; congruence|apply surjective_pairing]|].
    eapply rtc_l; [apply (act_service vol "s" _ broken_again (faults_objs _ _))|].
    eapply rtc_l; [apply (act_snapshot vol "s" 1 "t" "vol" _ second.1 second.2);
      [vm_compute; congruence|apply surjective_pairing]|].
    eapply rtc_l; [apply (act_service vol "s" _ repaired (faults_objs _ _))|].
    apply rtc_once, (act_gc vol "s" _ collected.1); [constructor|apply surjective_pairing].
  - vm_compute. constructor.
  - exists st, s'. split; [exact Hr|]. split; [exact Hst|]. rewrite (Hv 0) by (vm_compute; split; congruence).
    vm_compute. reflexivity.
Defined.

Lemma snapshot_create_live_witness :
  view_same vol (objs fresh_env) (objs created.2) ∧
  ((∃ m v, created.1 = Ok m ∧ snapshot_holds vol (objs created.2) "s" m v ∧
      sm_capacity_bytes m = st_capacity vol ∧
      ∀ idx c, is_u64 idx → chunk_view vol (objs fresh_env) idx = Ok c →
        hash_view vol (objs created.2) (v !! idx) = Some c) ∨
   ∃ e, created.1 = Err e ∧ (¬ ok fresh_env ∨ Keys.validate_snapshot_id "s" = Err e ∨
      is_Some (objs fresh_env !! Keys.snapshot_manifest_key vol "s"))).
Proof.
  apply (snapshot_create_live vol 0 "s" "vol" fresh_env created.2 created.1).
  - reflexivity.
  - apply fresh_chunks.
  - vm_compute. congruence.
  - apply surjective_pairing.
Defined.

Lemma gc_safe_and_complete_witness :
  let r := gc_unreferenced_objects vol fresh_env in
  view_same vol (objs fresh_env) (objs r.2) ∧
  (ok fresh_env → ∀ id m v f, snapshot_holds vol (objs fresh_env) id m v →
     snapshot_shows vol (objs fresh_env) v f →
     snapshot_holds vol (objs r.2) id m v ∧ snapshot_shows vol (objs r.2) v f) ∧
  (∀ st h, r.1 = Ok st → Snap.is_hash h → is_Some (objs r.2 !! Keys.object_key vol h) →
     referenced vol (objs fresh_env) h).
Proof.
  intros r. apply (gc_safe_and_complete vol fresh_env r.2 r.1).
  - reflexivity.
  - apply fresh_chunks.
  - apply empty_docs.
  - apply empty_docs.
  - apply surjective_pairing.
Defined.

Lemma migrate_admissible_fresh : migrate_admissible (volume Legacy) (objs fresh_env).
Proof.
  intros idx body _ Hb. change (objs fresh_env) with (∅ : object_map) in Hb.
  unfold legacy_body in Hb. by rewrite !lookup_empty in Hb.
Qed.

Lemma migrate_preserves_volume_witness :
  (ok (S3.s_env (fresh Legacy)) → ∃ r s', migrate_to_cow (fresh Legacy) = (Ok r, s')) ∧
  ∀ r s', migrate_to_cow (fresh Legacy) = (Ok r, s') →
    S3.s_store s' = cow (S3.s_store (fresh Legacy)) ∧
    ∀ idx, is_u64 idx → chunk_view (S3.s_store s') (S3Block.s_objs s') idx =
      chunk_view (S3.s_store (fresh Legacy)) (S3Block.s_objs (fresh Legacy)) idx.
Proof.
  apply (migrate_preserves_volume (fresh Legacy)).
  - reflexivity.
  - apply fresh_chunks.
  - intros idx _. apply lookup_empty.
  - apply migrate_admissible_fresh.
Defined.

(** The first attempt fails at the marker, the second succeeds. *)
Definition interrupted : S3.state MemS3.bucket :=
  {| S3.s_store := volume Legacy;
     S3.s_env := {| env_svc := MemS3.with_faults [true] MemS3.empty_bucket; env_obs := [] |} |}.
Definition first_try := migrate_to_cow interrupted.
Definition second_try := migrate_to_cow first_try.2.

Lemma migrate_resume_witness :
  S3.s_store second_try.2 = cow (S3.s_store interrupted) ∧
  ∀ idx, is_u64 idx → chunk_view (S3.s_store second_try.2) (S3Block.s_objs second_try.2) idx =
    mixed_view (S3.s_store interrupted) (S3Block.s_objs interrupted) idx.
Proof.
  eapply (migrate_resume interrupted first_try.2 second_try.2).
  - reflexivity.
  - intros idx _. exists (zeros 4). change (S3Block.s_objs interrupted) with (∅ : object_map).
    rewrite legacy_mixed_view by (reflexivity || apply lookup_empty). apply fresh_view.
  - apply migrate_admissible_fresh.
  - intros idx _. left. apply lookup_empty.
  - apply rtc_once. exists (S3Error "ServiceUnavailable"). vm_compute. reflexivity.
  - vm_compute. reflexivity.
Defined.

Definition config : S3StoreConfig :=
  {| sc_prefix := "/v/"; sc_block_size := 2; sc_chunk_size := 4; sc_capacity := 16;
     sc_compression := CompNone; sc_storage := Cow;
     sc_labels := {| vl_volume := "vol"; vl_iqn := "iqn" |} |}.

Lemma open_grow_only_witness :
  view_same (handle_of config) (objs fresh_env) (S3Block.s_objs (open config fresh_env).2) ∧
  ((open config fresh_env).1 = Ok tt → S3.s_store (open config fresh_env).2 = handle_of config ∧
     (∀ m, meta_at (objs fresh_env) (Keys.meta_key (handle_of config)) = Some (Some m) →
        vm_chunk_size m = sc_chunk_size config ∧ vm_block_size m = sc_block_size config ∧
        vm_compression m = sc_compression config ∧ vm_storage m = sc_storage config ∧
        vm_capacity_bytes m ≤ sc_capacity config) ∧
     ∃ m, meta_at (S3Block.s_objs (open config fresh_env).2) (Keys.meta_key (handle_of config)) =
       Some (Some m) ∧ vm_capacity_bytes m = sc_capacity config).
Proof.
  apply (open_grow_only config fresh_env (open config fresh_env).1 (open config fresh_env).2).
  - apply lookup_empty.
  - apply surjective_pairing.
Defined.

(** ** Observed flaws *)

(** The volume with one chunk written, snapshotted, and the chunk then deleted:
    only the snapshot refers to the chunk's object. *)
Definition only_snapshot := (S3.delete_chunk vol 0 snapshotted_env).2.

(** Collection during a transient failure. [gc_unreferenced_objects] drops
    the error of reading a snapshot's index: if that one request fails, the
    collection reports success and has deleted an object that the snapshot
    still refers to. *)
Theorem gc_forgets_snapshot_on_fault :
  ∃ (env : Env MemS3.bucket) st refs,
    objs env !! Keys.snapshot_chunks_key vol "s" =
      Some (Snap.write_chunks_bin refs, Some "3") ∧
    blake3 (payload 4) ∈ hashes refs ∧
    is_Some (objs env !! Keys.object_key vol (blake3 (payload 4))) ∧
    (gc_unreferenced_objects vol env).1 = Ok st ∧
    objs (gc_unreferenced_objects vol env).2 !! Keys.object_key vol (blake3 (payload 4)) = None.
Proof.
  exists (with_env_faults [false; false; false; true] only_snapshot),
    {| gc_objects_deleted := 1; gc_objects_referenced := 0 |},
    [{| cr_index := 0; cr_hash := blake3 (payload 4) |}].
  split; [vm_compute; reflexivity|]. split; [vm_compute; set_solver|].
  split; [vm_compute; eauto|]. split; vm_compute; reflexivity.
Qed.

(** A legacy volume whose chunk 0 has a current sharded object and a stale flat
    one (left behind by a failed delete). *)
Definition stale_flat : S3.state MemS3.bucket :=
  {| S3.s_store := volume Legacy;
     S3.s_env := {| env_svc := {| MemS3.ms_objects :=
           <[Keys.legacy_chunk_key (volume Legacy) 0 := (payload 4, None)]>
             (<[Keys.legacy_flat_chunk_key (volume Legacy) 0 := (replicate 4 Byte.x09, None)]> ∅);
         MemS3.ms_clock := 0;
         MemS3.ms_faults := [false; false; false; false; false; false; true; true] |};
       env_obs := [] |} |}.

(** Resumed migration and stale copies. If a chunk also has a stale flat
    object and the first attempt fails after the current object was deleted
    but before the stale one was, the resumed migration succeeds and the
    volume shows the stale data. *)
Theorem migrate_resume_stale_flat :
  let first := migrate_to_cow stale_flat in
  let second := migrate_to_cow first.2 in
  chunk_view (volume Legacy) (S3Block.s_objs stale_flat) 0 = Ok (payload 4) ∧
  first.1 = Err (S3Error "ServiceUnavailable") ∧
  S3Snap.mg_chunks_migrated <$> (match second.1 with Ok st => Some st | _ => None end) = Some 1 ∧
  chunk_view (S3.s_store second.2) (S3Block.s_objs second.2) 0 = Ok (replicate 4 Byte.x09).
Proof. vm_compute. repeat split. Qed.
End witnesses.
End SnapTheorems.
