(* ===== verification/FormatTheorems.v ===== *)
(** * Properties of the stored formats and of the in-memory store

    Round trips of the chunk container, of [chunks.bin], of pointers, object
    names and chunk keys, and the contract of [MemoryStore]. *)
From S2P Require Import Prelude Text Store Memory Compression Snapshot S3Api S3Keys S3Store S3Open.
From S2P Require Import Concrete.
#[local] Open Scope string_scope.
#[local] Open Scope list_scope.
#[local] Open Scope Z_scope.

Module FormatTheorems.
Import Text.

(** The in-memory store. [MemoryStore::new] accepts exactly positive sizes
    where the chunk size and the capacity are multiples of the block size; the
    store it returns is a zeroed volume of that capacity, and [MemoryStore]
    keeps the block-store contract, with every write accepted. *)
Theorem memory_store_refines cap bsz csz :
  is_u64 cap → is_u32 bsz → is_u64 csz →
  BlockStoreLaws MemoryStore ∧ AlwaysAdmissible MemoryStore ∧
  match Memory.new cap bsz csz with
  | Ok s => (0 < bsz ∧ 0 < csz ∧ 0 < cap ∧ csz mod bsz = 0 ∧ cap mod bsz = 0) ∧
      invariant s ∧ ready s ∧ capacity s = cap ∧ block_size s = bsz ∧ chunk_size s = csz ∧
      ∀ i, content s i = Byte.x00
  | Err _ => ¬ (0 < bsz ∧ 0 < csz ∧ 0 < cap ∧ csz mod bsz = 0 ∧ cap mod bsz = 0)
  | _ => False
  end.
Proof.
  unfold is_u64, is_u32. intros Hc Hb Hs.
  split; [apply Memory.memory_laws|]. split; [apply Memory.memory_admissible|].
  pose proof (Memory.new_spec cap bsz csz Hc Hb Hs) as Hn.
  destruct (Memory.new cap bsz csz) as [s|e| |] eqn:Hnew; [|lia|done|done].
  unfold Memory.new in Hnew. repeat case_match; simplify_eq.
  destruct Hn as (Hi & _ & Hz). split; [lia|]. by split; [|split].
Qed.

Section compressed.
Context `{CodecLaws}.

(** C40: The chunk container round trip. Whatever [encode_chunk] stores,
    [decode_chunk] with the same algorithm returns the original chunk, provided
    the chunk is shorter than 4 GiB or stored raw; a longer compressed chunk is
    refused, because its length field holds the length modulo 2^32. *)
Theorem chunk_container_roundtrip algo p stored n :
  Comp.encode_chunk algo p = Ok stored → Zlen p = n →
  Comp.decode_chunk algo stored n =
    if decide (algo = CompNone ∨ n < 2 ^ 32) then Ok p
    else Err (S3Error ("compressed chunk declares length " +:+ dec (n mod 2 ^ 32)
                       +:+ ", expected " +:+ dec n)).
Proof. apply Comp.decode_encode_chunk_gen. Qed.
End compressed.

(** Decoding never panics. On any stored bytes whatsoever [decode_chunk]
    returns either a chunk of exactly the expected length or an error. *)
Theorem decode_chunk_total `{Codecs} algo stored n :
  (∃ p, Comp.decode_chunk algo stored n = Ok p ∧ Zlen p = n) ∨
  ∃ e, Comp.decode_chunk algo stored n = Err e.
Proof.
  destruct (Comp.decode_chunk_safe algo stored n) as [Hp Hf].
  destruct (Comp.decode_chunk algo stored n) as [p|e| |] eqn:Hd; [|eauto|done|done].
  left. exists p. split; [done|]. by eapply Comp.decode_chunk_length.
Qed.

(** The snapshot index round trip. [read_chunks_bin] reads back exactly the
    references [write_chunks_bin] wrote and leaves what follows them unread. *)
Theorem chunks_bin_roundtrip refs tail :
  Forall Snap.ref_ok refs → Snap.vec_capacity_ok (Zlen refs) = true →
  Snap.read_chunks_bin (Snap.write_chunks_bin refs ++ tail) = (Ok refs, tail).
Proof. apply Snap.read_write_chunks_bin. Qed.

(** Chunk pointers. The bytes that decode to a hash are exactly the encoding
    of that hash: no other document is taken for a pointer. *)
Theorem pointer_codec h b :
  Snap.decode_pointer b = Ok h ↔ Snap.is_hash h ∧ b = Snap.encode_pointer h.
Proof.
  split; [apply Snap.decode_pointer_hash|]. intros [Hh ->]. by apply Snap.decode_encode_pointer.
Qed.

(** Object names. The sharded path of a hash parses back to the hash, so two
    hashes never share an object, and garbage collection recognises every
    object it may have to keep. *)
Theorem object_path_roundtrip self h k :
  Snap.is_hash h → Snap.is_hash k →
  Snap.hash_from_object_relpath (Snap.object_relpath h) = Ok (Some h) ∧
  (Keys.object_key self h = Keys.object_key self k → h = k).
Proof.
  intros Hh Hk. split; [by apply Snap.hash_from_object_relpath_object|by apply Keys.object_key_inj].
Qed.

(** Chunk keys. In each of the three layouts (sharded, flat, COW) listing
    the chunk area recovers the index from the key of every u64 chunk, so
    distinct chunks have distinct keys, and a sharded key is never a flat one. *)
Theorem chunk_key_roundtrip self i :
  is_u64 i →
  let listed := Keys.parse_chunk_index_from_key (Keys.chunks_prefix self) in
  listed (Keys.chunk_key self i) = Some i ∧
  (st_storage self = Legacy → listed (Keys.legacy_flat_chunk_key self i) = Some i) ∧
  (∀ j, is_u64 j → Keys.chunk_key self i = Keys.chunk_key self j → i = j) ∧
  ∀ j, Keys.legacy_chunk_key self i ≠ Keys.legacy_flat_chunk_key self j.
Proof.
  intros Hi listed.
  assert (Hl : ∀ i, is_u64 i → listed (Keys.chunk_key self i) = Some i).
  { intros j Hj. unfold listed, Keys.chunks_prefix, Keys.chunk_key.
    destruct (st_storage self) eqn:Hm; [by apply Keys.parse_legacy_key|].
    unfold Keys.chunks_prefix. rewrite Hm, <-str_app_assoc. by apply Keys.parse_cow_key. }
  split; [by apply Hl|]. split.
  { intros Hm. unfold listed, Keys.chunks_prefix. rewrite Hm. by apply Keys.parse_flat_key. }
  split; [|apply Keys.sharded_not_flat].
  intros j Hj Heq. apply (f_equal listed) in Heq. rewrite !Hl in Heq by done. by injection Heq.
Qed.

(** Capacity planning. [plan_capacity] never panics. It accepts a recorded
    geometry only when it equals the configured one and the configured capacity
    is not smaller; the effective capacity is then the configured one, and the
    metadata is rewritten exactly when the volume is new or grows. It refuses
    to shrink, and reports a geometry mismatch only when there is one. *)
Theorem plan_capacity_cases existing cap cs bs comp mode :
  match Keys.plan_capacity existing cap cs bs comp mode with
  | Ok (eff, w) => eff = cap ∧
      (∀ m, existing = Some m → vm_chunk_size m = cs ∧ vm_block_size m = bs ∧
         vm_compression m = comp ∧ vm_storage m = mode ∧ vm_capacity_bytes m ≤ cap) ∧
      match w with
      | Some m' => vm_capacity_bytes m' = cap ∧ vm_chunk_size m' = cs ∧ vm_block_size m' = bs ∧
          vm_compression m' = comp ∧ vm_storage m' = mode ∧
          match existing with
          | Some m => vm_version m' = vm_version m ∧ vm_capacity_bytes m < cap
          | None => vm_version m' = Keys.META_VERSION
          end
      | None => ∃ m, existing = Some m ∧ vm_capacity_bytes m = cap
      end
  | Err (ShrinkRefused c r) => ∃ m, existing = Some m ∧ c = vm_capacity_bytes m ∧ r = cap ∧ cap < c
  | Err _ => ∃ m, existing = Some m ∧ ¬ (vm_chunk_size m = cs ∧ vm_block_size m = bs ∧
      vm_compression m = comp ∧ vm_storage m = mode)
  | _ => False
  end.
Proof. apply Open.plan_capacity_spec. Qed.

(** ** Witnesses *)
Section witnesses.
Import Concrete.

Lemma memory_store_refines_witness :
  BlockStoreLaws MemoryStore ∧ AlwaysAdmissible MemoryStore ∧
  match Memory.new 16 2 4 with
  | Ok s => (0 < 2 ∧ 0 < 4 ∧ 0 < 16 ∧ 4 mod 2 = 0 ∧ 16 mod 2 = 0) ∧
      invariant s ∧ ready s ∧ capacity s = 16 ∧ block_size s = 2 ∧ chunk_size s = 4 ∧
      ∀ i, content s i = Byte.x00
  | Err _ => ¬ (0 < 2 ∧ 0 < 4 ∧ 0 < 16 ∧ 4 mod 2 = 0 ∧ 16 mod 2 = 0)
  | _ => False
  end.
Proof. apply (memory_store_refines 16 2 4); vm_compute; intuition congruence. Defined.

Definition container : bytes :=
  Comp.MAGIC ++ [Byte.x01; Byte.x00; Byte.x00; Byte.x00; Byte.x00; Byte.x04] ++ payload 4.

Lemma chunk_container_roundtrip_witness :
  Comp.decode_chunk Lz4 container 4 =
    if decide (Lz4 = CompNone ∨ 4 < 2 ^ 32) then Ok (payload 4)
    else Err (S3Error ("compressed chunk declares length " +:+ dec (4 mod 2 ^ 32)
                       +:+ ", expected " +:+ dec 4)).
Proof. apply (chunk_container_roundtrip Lz4 (payload 4)); vm_compute; reflexivity. Defined.

Definition two_refs : list ChunkRef :=
  [{| cr_index := 0; cr_hash := zeros 32 |}; {| cr_index := 7; cr_hash := payload 32 |}].

Lemma chunks_bin_roundtrip_witness :
  Snap.read_chunks_bin (Snap.write_chunks_bin two_refs ++ payload 3) = (Ok two_refs, payload 3).
Proof.
  apply (chunks_bin_roundtrip two_refs (payload 3)); [|reflexivity].
  repeat constructor; vm_compute; intuition congruence.
Defined.

Lemma object_path_roundtrip_witness :
  Snap.hash_from_object_relpath (Snap.object_relpath (zeros 32)) = Ok (Some (zeros 32)) ∧
  (Keys.object_key (volume Cow) (zeros 32) = Keys.object_key (volume Cow) (payload 32) →
   zeros 32 = payload 32).
Proof. apply (object_path_roundtrip (volume Cow) (zeros 32) (payload 32)); reflexivity. Defined.

Lemma chunk_key_roundtrip_witness :
  let listed := Keys.parse_chunk_index_from_key (Keys.chunks_prefix (volume Legacy)) in
  listed (Keys.chunk_key (volume Legacy) 70000) = Some 70000 ∧
  (st_storage (volume Legacy) = Legacy →
   listed (Keys.legacy_flat_chunk_key (volume Legacy) 70000) = Some 70000) ∧
  (∀ j, is_u64 j → Keys.chunk_key (volume Legacy) 70000 = Keys.chunk_key (volume Legacy) j → 70000 = j) ∧
  ∀ j, Keys.legacy_chunk_key (volume Legacy) 70000 ≠ Keys.legacy_flat_chunk_key (volume Legacy) j.
Proof. apply (chunk_key_roundtrip (volume Legacy) 70000). vm_compute. intuition congruence. Defined.
End witnesses.
End FormatTheorems.
