(* ===== verification/CacheTheorems.v ===== *)
(** * Properties of the chunk cache and of the write-through store *)
From S2P Require Import Prelude Text Store Memory Compression Snapshot S3Api S3Keys S3Store S3Spec.
From S2P Require Import S3Block Concrete Cache CachedStore S3Theorems.
#[local] Open Scope string_scope.
#[local] Open Scope list_scope.
#[local] Open Scope Z_scope.

Module CacheTheorems.

(** ** Histories of the pool *)

(** The calls on [ChunkCache]; a history is the order of their critical sections. *)
Inductive cache_op : Type :=
  | CGet (volume : string) (idx : Z)
  | CPut (volume : string) (idx : Z) (data : bytes)
  | CInvalidate (volume : string) (idx : Z)
  | CInvalidateVolume (volume : string)
  | CClear
  | CSetMaxBytes (n : Z)
  | CDisable
  | CEnable (n : option Z).

Definition run_op (c : CacheInner) (op : cache_op) : CacheInner :=
  match op with
  | CGet v i => (Cache.get v i c).2
  | CPut v i d => Cache.put v i d c
  | CInvalidate v i => Cache.invalidate v i c
  | CInvalidateVolume v => Cache.invalidate_volume v c
  | CClear => Cache.clear c
  | CSetMaxBytes n => Cache.set_max_bytes n c
  | CDisable => Cache.disable c
  | CEnable n => Cache.enable n c
  end.

(** The byte counts are u64. *)
Definition op_ok (op : cache_op) : Prop :=
  match op with CSetMaxBytes n | CEnable (Some n) => 0 ≤ n | _ => True end.

Definition pool_ok (c : CacheInner) : Prop :=
  Cache.accounted c ∧ 0 < ci_last_nonzero_max_bytes c ∧ 0 ≤ ci_max_bytes c.

Lemma shrunk_ok c c' : Cache.shrunk c c' → pool_ok c → pool_ok c'.
Proof.
  intros Hs (Ha & Hl & Hm). split; [by eapply Cache.shrunk_accounted|].
  by rewrite (Cache.shr_last _ _ Hs), (Cache.shr_max _ _ Hs).
Qed.

Lemma set_max_ok n c : 0 ≤ n → pool_ok c → pool_ok (Cache.set_max_bytes n c).
Proof.
  intros Hn (Ha & Hl & Hm). split; [apply Cache.set_max_bytes_accounted; [done|apply Ha]|].
  unfold Cache.set_max_bytes, Cache.evict_until.
  assert (Hlast : 0 < if n >? 0 then n else ci_last_nonzero_max_bytes c)
    by (destruct (Z.gtb_spec n 0); lia).
  destruct (n =? 0); [done|].
  by rewrite (Cache.shr_last _ _ (Cache.evict_shrunk _ _ _)),
    (Cache.shr_max _ _ (Cache.evict_shrunk _ _ _)).
Qed.

Lemma clear_ok c : pool_ok c → pool_ok (Cache.clear c).
Proof. intros (Ha & Hl & Hm). split; [by apply Cache.empty_accounted|done]. Qed.

Lemma put_budget v i d c :
  ci_last_nonzero_max_bytes (Cache.put v i d c) = ci_last_nonzero_max_bytes c ∧
  ci_max_bytes (Cache.put v i d c) = ci_max_bytes c.
Proof.
  assert (Hs : Cache.shrunk (Cache.bump c)
    (Cache.evict_until (Zlen d) (Cache.remove (v, i) (Cache.bump c)))).
  { etrans; [apply Cache.remove_shrunk|apply Cache.evict_shrunk]. }
  unfold Cache.put. cbv zeta. case_match; simpl;
    by rewrite (Cache.shr_last _ _ Hs), (Cache.shr_max _ _ Hs).
Qed.

Lemma run_op_ok c op : op_ok op → pool_ok c → pool_ok (run_op c op).
Proof.
  intros Hop Hc. destruct op as [v i|v i d|v i|v| |n| |o]; simpl in *.
  - destruct Hc as (Ha & Hl & Hm). split; [by apply Cache.get_accounted|].
    unfold Cache.get. by destruct (ci_entries _ !! _).
  - destruct Hc as (Ha & Hl & Hm). split; [by apply Cache.put_accounted|].
    by destruct (put_budget v i d c) as [-> ->].
  - eapply shrunk_ok, Hc. apply Cache.remove_shrunk.
  - eapply shrunk_ok, Hc. apply Cache.invalidate_volume_shrunk.
  - by apply clear_ok.
  - by apply set_max_ok.
  - by apply set_max_ok.
  - apply set_max_ok; [|by apply clear_ok]. destruct Hc as (_ & Hl & _).
    destruct o as [n|]; [|lia]. destruct (Z.gtb_spec n 0); lia.
Qed.

(** C23: Cache accounting. After any sequence of operations on a new cache the
    byte counter is the total size of the entries, it never exceeds the
    configured budget, and the budget that [enable] falls back to is positive. *)
Theorem cache_accounting n ops :
  0 ≤ n → Forall op_ok ops →
  let c := foldl run_op (Cache.new n) ops in
  ci_used_bytes c = Cache.entry_bytes (ci_entries c) ∧ ci_used_bytes c ≤ ci_max_bytes c ∧
  0 < ci_last_nonzero_max_bytes c.
Proof.
  intros Hn Hops. assert (Hc : pool_ok (Cache.new n)).
  { split; [by apply Cache.new_accounted|]. simpl. unfold Cache.DEFAULT_CACHE_MAX.
    destruct (Z.gtb_spec n 0); lia. }
  revert Hc. generalize (Cache.new n).
  induction Hops as [|op ops Hop _ IH]; intros c Hc; [by destruct Hc as ([] & ? & ?)|].
  by apply IH, run_op_ok.
Qed.

(** ** Eviction *)
Lemma evict_lru fuel size : ∀ c k e k' e',
  ci_entries c !! k = Some e → ci_entries (Cache.evict fuel size c) !! k = None →
  ci_entries (Cache.evict fuel size c) !! k' = Some e' → ce_tick e ≤ ce_tick e'.
Proof.
  induction fuel as [|fuel IH]; intros c k e k' e' Hk Hgone Hk'; simpl in *; [congruence|].
  case_match; [|congruence].
  destruct (Cache.victim c) as [v|] eqn:Hv; [|congruence].
  destruct (Cache.victim_spec _ _ Hv) as (ev & Hev & Hmin).
  destruct (decide (k = v)) as [->|Hne].
  - assert (He : e = ev) by congruence. subst ev. eapply Hmin.
    eapply lookup_weaken; [exact Hk'|].
    trans (ci_entries (Cache.remove v c)); [apply Cache.evict_shrunk|apply Cache.remove_shrunk].
  - eapply IH; [|done|done]. by rewrite Cache.remove_lookup_ne.
Qed.

(** Least recently used. [put] stores the chunk whenever it fits the budget
    at all; what it evicts to make room was used no later than anything it
    keeps, and what it keeps is unchanged. *)
Theorem cache_put_lru volume idx data c :
  Cache.accounted c →
  (Zlen data ≤ ci_max_bytes c → (Cache.get volume idx (Cache.put volume idx data c)).1 = Some data) ∧
  (∀ k e, k ≠ (volume, idx) → ci_entries (Cache.put volume idx data c) !! k = Some e →
     ci_entries c !! k = Some e) ∧
  ∀ k e k' e', k ≠ (volume, idx) → k' ≠ (volume, idx) →
    ci_entries c !! k = Some e → ci_entries (Cache.put volume idx data c) !! k = None →
    ci_entries (Cache.put volume idx data c) !! k' = Some e' → ce_tick e ≤ ce_tick e'.
Proof.
  intros Ha.
  set (c1 := Cache.remove (volume, idx) (Cache.bump c)).
  assert (Hput : ∀ k, k ≠ (volume, idx) → ci_entries (Cache.put volume idx data c) !! k =
    ci_entries (Cache.evict_until (Zlen data) c1) !! k).
  { intros k Hk. unfold Cache.put. fold c1. cbv zeta. case_match; [|done]. simpl.
    by rewrite lookup_insert_ne. }
  assert (H1 : ∀ k, k ≠ (volume, idx) → ci_entries c1 !! k = ci_entries c !! k).
  { intros k Hk. unfold c1. by rewrite Cache.remove_lookup_ne. }
  split; [|split].
  - intros Hfit. rewrite Cache.get_lookup. by apply Cache.put_get.
  - intros k e Hk. rewrite Hput by done. intros Hl. rewrite <-H1 by done.
    eapply lookup_weaken; [exact Hl|]. apply Cache.evict_shrunk.
  - intros k e k' e' Hk Hk' Hl. rewrite !Hput by done. intros Hg Hl'.
    eapply evict_lru; [|exact Hg|exact Hl']. by rewrite H1.
Qed.

(** ** The write-through store *)
Section cached.
Context {S : Type} `{BlockStoreLaws S}.

(** C7: The cache is transparent. Over any store that keeps the block-store
    contract, the cached store keeps it too, with the contents of the store
    below; a new one starts coherent whatever other volumes have in the pool. *)
Theorem cached_refines (i : S) c volume :
  invariant i → Cache.accounted c → (∀ idx, Cache.cached c volume idx = None) →
  let s := Cached.new i c volume in
  BlockStoreLaws (CachedStore S) ∧ invariant s ∧ (ready i → ready s) ∧
  capacity s = capacity i ∧ ∀ a, content s a = content i a.
Proof.
  intros Hi Ha Hn s. split; [apply Cached.cached_laws|]. split; [|done].
  constructor; [done|done|]. intros idx d Hd. simpl in Hd. by rewrite Hn in Hd.
Qed.
End cached.

Section locked.
Context {S : Type} `{BlockStore S}.

(** The I/O lock. While a volume is locked every operation on its cached
    store fails without touching the store, the cache or the bucket, and
    locking has emptied the cache of the volume's chunks and of no other's. *)
Theorem locked_store_refuses (s : CachedStore S) off buf data n idx :
  let l := Cached.lock_io s in
  let e := OtherError ("volume " +:+ cs_volume s +:+
    " is locked (migration in progress); wait for migrate-cow to finish") in
  read_at off buf l = (Err e, l) ∧ write_at off data l = (Err e, l) ∧
  set_capacity n l = (Err e, l) ∧ flush l = (Err e, l) ∧
  present_chunks l = (Err e, l) ∧ delete_chunk idx l = (Err e, l) ∧
  ∀ v i, Cache.cached (cs_cache l) v i =
    if decide (v = cs_volume s) then None else Cache.cached (cs_cache s) v i.
Proof.
  do 6 (split; [reflexivity|]). intros v i. unfold Cache.cached. simpl.
  destruct (ci_entries (cs_cache s) !! (v, i)) as [x|] eqn:Hx.
  - case_decide as Hv.
    + rewrite map_lookup_filter_None_2; [done|]. right. naive_solver.
    + erewrite map_lookup_filter_Some_2; [done|exact Hx|done].
  - rewrite map_lookup_filter_None_2 by naive_solver. by case_decide.
Qed.
End locked.

(** ** Witnesses *)
Section witnesses.
Import Concrete S3Theorems.

Definition history : list cache_op :=
  [CPut "v" 0 (payload 4); CPut "w" 1 (payload 4); CGet "v" 0; CPut "v" 2 (payload 4);
   CSetMaxBytes 5; CDisable; CEnable None].

Lemma cache_accounting_witness :
  let c := foldl run_op (Cache.new 10) history in
  ci_used_bytes c = Cache.entry_bytes (ci_entries c) ∧ ci_used_bytes c ≤ ci_max_bytes c ∧
  0 < ci_last_nonzero_max_bytes c.
Proof. apply (cache_accounting 10 history); [lia|]. repeat constructor; simpl; lia. Defined.

(** Chunk 0 was read last, so chunk 1 makes room for chunk 2. *)
Definition pool : CacheInner := foldl run_op (Cache.new 10) (take 3 history).

Lemma pool_accounted : Cache.accounted pool.
Proof. constructor; vm_compute; congruence. Qed.

Lemma cache_put_lru_witness :
  (Zlen (payload 4) ≤ ci_max_bytes pool →
     (Cache.get "v" 2 (Cache.put "v" 2 (payload 4) pool)).1 = Some (payload 4)) ∧
  (∀ k e, k ≠ ("v", 2) → ci_entries (Cache.put "v" 2 (payload 4) pool) !! k = Some e →
     ci_entries pool !! k = Some e) ∧
  ∀ k e k' e', k ≠ ("v", 2) → k' ≠ ("v", 2) →
    ci_entries pool !! k = Some e → ci_entries (Cache.put "v" 2 (payload 4) pool) !! k = None →
    ci_entries (Cache.put "v" 2 (payload 4) pool) !! k' = Some e' → ce_tick e ≤ ce_tick e'.
Proof. apply (cache_put_lru "v" 2 (payload 4) pool). apply pool_accounted. Defined.

Lemma pool_other idx : Cache.cached pool "vol" idx = None.
Proof.
  unfold Cache.cached. destruct (ci_entries pool !! ("vol", idx)) as [e|] eqn:He; [|done].
  apply elem_of_map_to_list in He. vm_compute in He. set_solver.
Qed.

Lemma cached_refines_witness :
  let s := Cached.new (fresh Cow) pool "vol" in
  BlockStoreLaws (CachedStore (S3.state MemS3.bucket)) ∧ invariant s ∧ (ready (fresh Cow) → ready s) ∧
  capacity s = capacity (fresh Cow) ∧ ∀ a, content s a = content (fresh Cow) a.
Proof.
  apply (cached_refines (fresh Cow) pool "vol"); [apply fresh_invariant|apply pool_accounted|].
  apply pool_other.
Defined.

(** ** Observed flaws *)

(** Chunks 0 and 1 are zero in the bucket and in the cache; then the bucket
    starts to fail at the fourth request of the next write, which is the
    pointer update of chunk 1. *)
Definition warm : CachedStore (S3.state MemS3.bucket) :=
  (read_at 0 (zeros 8) (Cached.new (fresh Cow) (Cache.new 64) "vol")).2.
Definition about_to_fail : CachedStore (S3.state MemS3.bucket) :=
  Cached.with_inner {| S3.s_store := volume Cow;
    S3.s_env := {| env_svc := MemS3.with_faults [false; false; false; true] MemS3.empty_bucket;
                   env_obs := [] |} |} warm.

(** Stale chunks after a failed write. A write of two chunks that fails at
    the second one has changed the first chunk in the bucket, but the cached
    store keeps serving that chunk as it was before the write. *)
Theorem cached_stale_after_failed_write :
  let w := write_at 0 (payload 8) about_to_fail in
  w.1 = Err (S3Error "ServiceUnavailable") ∧
  (read_at 0 (zeros 4) (cs_inner w.2)).1 = Ok (payload 4) ∧
  (read_at 0 (zeros 4) w.2).1 = Ok (zeros 4).
Proof. vm_compute. repeat split. Qed.

(** Two targets over the same bucket. The first has read the chunk for a
    partial write; the second then writes and succeeds; the first puts. *)
Definition first_read := S3.get_chunk (volume Cow) 0 fresh_env.
Definition second_wrote := S3.write_at (volume Cow) 0 (payload 2) first_read.2.
Definition first_put :=
  S3.put_chunk (volume Cow) 0 (zeros 2 ++ payload 2) None second_wrote.2.

(** Compare-and-swap on an absent chunk. A chunk that does not exist yet is
    read with no ETag, and the put that follows is unconditional: of two
    targets that write different halves of it at the same time both report
    success and one half is lost. *)
Theorem sparse_chunk_lost_update :
  first_read.1 = Ok (zeros 4, None) ∧ second_wrote.1 = Ok tt ∧ first_put.1 = Ok tt ∧
  S3Spec.chunk_view (volume Cow) (S3Spec.objs first_put.2) 0 = Ok (zeros 2 ++ payload 2).
Proof. vm_compute. repeat split. Qed.
End witnesses.
End CacheTheorems.
