(* ===== verification/Ready.v ===== *)
(** * Working stores: the interface of the layers above a block store

    [ReadyStore] is what the write-back cache and the admin operations rely on:
    a predicate [usable] that every operation keeps, under which the operations
    return and fail only on bad arguments. [allowed] is the set of chunk contents
    the store is used with: a write must leave every chunk inside it. It is
    everything for most stores; for a content-addressed one it is a set of
    contents on which the hash has no collisions. Every store that keeps the
    block-store contract, with [allowed] contents kept admissible, provides the
    interface. *)
From S2P Require Import Prelude Text Store Memory Cache CachedStore.
#[local] Open Scope Z_scope.

(** A computation whose result is known. *)
Lemma wp_run {S E A} (m : M S E A) (Q : A → S → Prop) (R : E → S → Prop) s a s' :
  m s = (Ok a, s') → Q a s' → wp m Q R s.
Proof. intros Hm. unfold wp. by rewrite Hm. Qed.

(** The [cs] bytes of chunk [idx] of a volume that shows [f]. *)
Definition chunk_at (cs : Z) (f : Z → byte) (idx : Z) : bytes :=
  (λ w : nat, f (idx * cs + Z.of_nat w)) <$> seq 0 (Z.to_nat cs).

Section chunk_at.
Implicit Types (cs idx : Z) (f g : Z → byte).

Lemma Zlen_chunk_at cs f idx : 0 ≤ cs → Zlen (chunk_at cs f idx) = cs.
Proof. intros. unfold Zlen, chunk_at. rewrite length_fmap, length_seq. lia. Qed.

Lemma nthb_chunk_at cs f idx i : 0 ≤ i < cs → nthb (chunk_at cs f idx) i = f (idx * cs + i).
Proof.
  intros Hi. apply nthb_lookup; [lia|]. unfold chunk_at. rewrite list_lookup_fmap.
  rewrite (lookup_seq_lt 0 _ (Z.to_nat i)) by lia. simpl. by rewrite Z2Nat.id by lia.
Qed.

Lemma chunk_at_ext cs f g idx :
  (∀ a, idx * cs ≤ a < idx * cs + cs → f a = g a) → chunk_at cs f idx = chunk_at cs g idx.
Proof.
  intros Hfg. unfold chunk_at. apply list_fmap_ext. intros i w Hw. apply lookup_seq in Hw. apply Hfg. lia.
Qed.

Lemma chunk_at_bytes cs f idx (d : bytes) :
  Zlen d = cs → (∀ i, 0 ≤ i < cs → f (idx * cs + i) = nthb d i) → chunk_at cs f idx = d.
Proof.
  intros Hd Hf. pose proof (Zlen_nonneg d).
  apply bytes_ext; [by rewrite Zlen_chunk_at by lia|]. rewrite Zlen_chunk_at by lia.
  intros i Hi. by rewrite nthb_chunk_at, Hf.
Qed.

Lemma chunk_at_zeros cs f idx :
  0 ≤ cs → (∀ a, idx * cs ≤ a < idx * cs + cs → f a = Byte.x00) → chunk_at cs f idx = zeros cs.
Proof.
  intros Hcs Hf. apply chunk_at_bytes; [by apply Zlen_zeros|]. intros i Hi.
  rewrite nthb_zeros. apply Hf. lia.
Qed.
End chunk_at.

Class ReadyStore (S : Type) `{BlockStore S} : Type := {
  usable : S → Prop;
  shown : S → Z → byte;
  allowed : bytes → Prop;
  (** What else the operations that keep the sizes leave alone. *)
  akin : relation S
}.
Arguments allowed S {_ _} _.

Section client.
Context {S : Type} `{ReadyStore S}.
Implicit Types s : S.

(** Same sizes, and the same bytes. *)
Record same_sizes s s' : Prop := {
  ss_block : block_size s' = block_size s;
  ss_chunk : chunk_size s' = chunk_size s;
  ss_cap : capacity s' = capacity s;
  ss_akin : akin s s'
}.
Record kept s s' : Prop := {
  kp_usable : usable s';
  kp_sizes : same_sizes s s';
  kp_shown : ∀ a, 0 ≤ a → shown s' a = shown s a
}.
Definition overwritten (f : Z → byte) (off : Z) (data : bytes) (a : Z) : byte :=
  if decide (off ≤ a < off + Zlen data) then nthb data (a - off) else f a.
(** The chunks after a write are allowed. *)
Definition permitted s (off : Z) (data : bytes) : Prop :=
  ∀ idx, is_u64 idx → allowed S (chunk_at (chunk_size s) (overwritten (shown s) off data) idx).
Definition bad_range s (off len : Z) (e : StoreError) : Prop :=
  capacity s < off + len ∧ e = OutOfRange off len (capacity s).
End client.

Class ReadyLaws (S : Type) `{ReadyStore S} : Prop := {
  rs_akin : PreOrder (akin (S := S));
  rs_geometry (s : S) : usable s →
    0 < block_size s ≤ u32_max ∧ 0 < chunk_size s ≤ u64_max ∧ is_u64 (capacity s);
  rs_tail (s : S) a : usable s → capacity s ≤ a → shown s a = Byte.x00;
  rs_read (s : S) off buf : usable s → 0 ≤ off →
    wp (read_at off buf)
      (λ buf' s', kept s s' ∧ off + Zlen buf ≤ capacity s ∧ Zlen buf' = Zlen buf ∧
         ∀ i, 0 ≤ i < Zlen buf → nthb buf' i = shown s (off + i))
      (λ e s', kept s s' ∧ bad_range s off (Zlen buf) e) s;
  rs_blank (s : S) : usable s → allowed S (zeros (chunk_size s));
  rs_image (s : S) idx : usable s → is_u64 idx → allowed S (chunk_at (chunk_size s) (shown s) idx);
  rs_write (s : S) off data : usable s → 0 ≤ off → permitted s off data →
    wp (write_at off data)
      (λ _ s', usable s' ∧ same_sizes s s' ∧ off + Zlen data ≤ capacity s ∧
         ∀ a, 0 ≤ a → shown s' a = overwritten (shown s) off data a)
      (λ e s', kept s s' ∧ bad_range s off (Zlen data) e) s;
  rs_set_capacity (s : S) n : usable s → is_u64 n →
    wp (set_capacity n)
      (λ _ s', usable s' ∧ block_size s' = block_size s ∧ chunk_size s' = chunk_size s ∧
         capacity s' = n ∧ capacity s ≤ n ∧ n mod block_size s = 0 ∧
         ∀ a, 0 ≤ a → shown s' a = shown s a)
      (λ e s', kept s s' ∧ (n mod block_size s ≠ 0 ∨ n < capacity s)) s;
  rs_flush (s : S) : usable s → wp flush (λ _ s', kept s s') (λ _ _, False) s;
  rs_present (s : S) : usable s →
    wp present_chunks
      (λ l s', kept s s' ∧ StronglySorted Z.lt l ∧ Forall is_u64 l ∧
         ∀ a, 0 ≤ a → shown s a ≠ Byte.x00 → a / chunk_size s ∈ l)
      (λ _ _, False) s;
  rs_delete (s : S) idx : usable s → is_u64 idx →
    wp (delete_chunk idx)
      (λ _ s', usable s' ∧ same_sizes s s' ∧
         ∀ a, 0 ≤ a → shown s' a =
           if decide (a / chunk_size s = idx) then Byte.x00 else shown s a)
      (λ _ _, False) s
}.

#[global] Existing Instance rs_akin.
#[global] Instance same_sizes_preorder {S} `{ReadyStore S} `{!PreOrder (akin (S := S))} : PreOrder (same_sizes (S := S)).
Proof.
  split; [by constructor|]. intros ??? [] []. constructor; [congruence..|]. by etrans.
Qed.
Lemma kept_refl {S} `{ReadyStore S} `{!PreOrder (akin (S := S))} s : usable s → kept s s.
Proof. by constructor. Qed.
#[global] Instance kept_transitive {S} `{ReadyStore S} `{!PreOrder (akin (S := S))} : Transitive kept.
Proof.
  intros s1 s2 s3 [_ Hz1 Hb1] [Hu Hz2 Hb2]. constructor; [done|by etrans|].
  intros a Ha. by rewrite Hb2, Hb1.
Qed.

(** A write inside one chunk needs only that chunk to be allowed afterwards. *)
Lemma permitted_one {S} `{ReadyLaws S} (s : S) idx off data :
  usable s → idx * chunk_size s ≤ off → off + Zlen data ≤ idx * chunk_size s + chunk_size s →
  allowed S (chunk_at (chunk_size s) (overwritten (shown s) off data) idx) → permitted s off data.
Proof.
  intros Hu Hlo Hhi Ha k Hk. destruct (rs_geometry s Hu) as (_ & Hcs & _).
  destruct (decide (k = idx)) as [->|Hne]; [done|].
  rewrite (chunk_at_ext _ _ (shown s)); [by apply rs_image|]. intros a Hr. unfold overwritten.
  rewrite decide_False; [done|]. nia.
Qed.

(** ** From the block-store contract *)

(** [steady] states hold only acceptable chunks; as long as writes leave the
    chunks acceptable, they are admissible, and the state stays steady. *)
Class SteadyStore (S : Type) `{BlockStoreModel S} : Type := {
  steady : S → Prop;
  acceptable : bytes → Prop;
  related : relation S;
  related_preorder : PreOrder related;
  steady_blank s : steady s → acceptable (zeros (chunk_size s));
  steady_image s idx : invariant s → steady s → is_u64 idx →
    acceptable (chunk_at (chunk_size s) (content s) idx);
  steady_admissible s off data : invariant s → steady s →
    (∀ idx, is_u64 idx → acceptable (chunk_at (chunk_size s) (overwritten (content s) off data) idx)) →
    admissible s off data;
  steady_read s off buf : steady s →
    steady (read_at off buf s).2 ∧ related s (read_at off buf s).2;
  steady_write s off data : invariant s → ready s → steady s → 0 ≤ off →
    (∀ idx, is_u64 idx → acceptable (chunk_at (chunk_size s) (overwritten (content s) off data) idx)) →
    steady (write_at off data s).2 ∧ related s (write_at off data s).2;
  steady_set_capacity s n : invariant s → ready s → steady s → is_u64 n →
    steady (set_capacity n s).2 ∧
    (∀ e, (set_capacity n s).1 = Err e → related s (set_capacity n s).2);
  steady_flush s : steady s → steady (flush s).2 ∧ related s (flush s).2;
  steady_present s : invariant s → ready s → steady s →
    steady (present_chunks s).2 ∧ related s (present_chunks s).2;
  steady_delete s idx : invariant s → ready s → steady s → is_u64 idx →
    steady (delete_chunk idx s).2 ∧ related s (delete_chunk idx s).2
}.
#[global] Existing Instance related_preorder.
Arguments acceptable S {_ _ _} _.

Section contract.
Context {S : Type} `{BlockStoreLaws S} `{!SteadyStore S}.
Implicit Types s : S.

#[global] Instance contract_ready : ReadyStore S := {
  usable s := invariant s ∧ ready s ∧ steady s;
  shown := content;
  allowed := acceptable S;
  akin := related
}.

Lemma wp_steady {A} (m : M S StoreError A) Q R s P :
  wp m Q R s → P (m s).2 →
  wp m (λ a s', Q a s' ∧ P s') (λ e s', R e s' ∧ P s') s.
Proof. unfold wp. destruct (m s) as [[] ?]; eauto. Qed.

Lemma wp_steady' {A} (m : M S StoreError A) Q R s P P' :
  wp m Q R s → P (m s).2 → (∀ e, (m s).1 = Err e → P' (m s).2) →
  wp m (λ a s', Q a s' ∧ P s') (λ e s', R e s' ∧ P' s') s.
Proof. unfold wp. destruct (m s) as [[] ?]; eauto. Qed.

Lemma same_kept s s' :
  same_volume s s' → ready s → invariant s' → steady s' ∧ related s s' → kept s s'.
Proof.
  intros [[] Hc Hs Hr] Hrd Hi [Hst Hrel]. constructor; [split; [done|split; auto]|by constructor|done].
Qed.

#[global] Instance contract_ready_laws : ReadyLaws S.
Proof.
  constructor.
  - apply related_preorder.
  - intros s (Hi & _). by apply law_geometry.
  - intros s a (Hi & _). by apply law_tail.
  - intros s off buf (Hi & Hr & Hst) Hoff.
    eapply wp_mono; [eapply (wp_steady _ _ _ _ (λ s', steady s' ∧ related s s')); [by apply law_read|by apply (steady_read s)]|..]; cbv beta.
    + intros buf' s' ((Hi' & Hs & Hin & Hl & Hb) & Hst'). split; [by apply same_kept|done].
    + intros e s' ((Hi' & Hs & [[Hn ->]|Hn]) & Hst'); [|done].
      split; [by apply same_kept|]. split; [|done]. unfold in_range in Hn. lia.
  - intros s (Hi & Hr & Hst). by apply steady_blank.
  - intros s idx (Hi & Hr & Hst) Hidx. by apply steady_image.
  - intros s off data (Hi & Hr & Hst) Hoff Hp.
    eapply wp_mono; [eapply (wp_steady _ _ _ _ (λ s', steady s' ∧ related s s')); [apply law_write; [done|done|by apply steady_admissible]
      |by apply (steady_write s)]|..]; cbv beta.
    + intros [] s' ((Hi' & Hin & [[] Hc Hb Hrd]) & [Hst' Hrel]). split; [split; [done|split; auto]|].
      split; [by constructor|]. split; [done|]. exact Hb.
    + intros e s' ([([Hn ->] & Hi' & Hs)|Hn] & Hst'); [|done].
      split; [by apply same_kept|]. split; [|done]. unfold in_range in Hn. lia.
  - intros s n (Hi & Hr & Hst) Hn.
    destruct (steady_set_capacity s n Hi Hr Hst Hn) as [Hs1 Hs2].
    eapply wp_mono; [eapply (wp_steady' _ _ _ _ steady (λ s', steady s' ∧ related s s'));
      [by apply law_set_capacity|done|eauto]|..]; cbv beta.
    + intros [] s' ((Hi' & [] & Hc & Hle & Hm & Hb & Hrd) & Hst').
      split; [split; [done|split; auto]|]. done.
    + intros e s' ([(Hi' & Hs & Hn')|Hn'] & Hst'); [|done]. split; [by apply same_kept|done].
  - intros s (Hi & Hr & Hst).
    eapply wp_mono; [eapply (wp_steady _ _ _ _ (λ s', steady s' ∧ related s s')); [by apply law_flush|by apply (steady_flush s)]|..]; cbv beta.
    + intros [] s' ((Hi' & Hs) & Hst'). by apply same_kept.
    + intros e s' [Hn _]. done.
  - intros s (Hi & Hr & Hst).
    eapply wp_mono; [eapply (wp_steady _ _ _ _ (λ s', steady s' ∧ related s s')); [by apply law_present|by apply (steady_present s)]|..]; cbv beta.
    + intros l s' ((Hi' & Hs & Hrest) & Hst'). split; [by apply same_kept|done].
    + intros e s' [Hn _]. done.
  - intros s idx (Hi & Hr & Hst) Hidx.
    eapply wp_mono; [eapply (wp_steady _ _ _ _ (λ s', steady s' ∧ related s s')); [by apply law_delete|by apply (steady_delete s)]|..]; cbv beta.
    + intros [] s' ((Hi' & [] & Hc & Hb & Hrd) & [Hst' Hrel]).
      split; [split; [done|split; auto]|]. split; [by constructor|done].
    + intros e s' [Hn _]. done.
Qed.
End contract.

(** ** Steady stores *)

(** [m] keeps [P], whatever it returns. *)
Definition preserves {S E A} (P : S → Prop) (m : M S E A) : Prop := ∀ s, P s → P (m s).2.

Section preserves.
Context {S E : Type} (P : S → Prop).

Lemma preserves_lift {A} (r : outcome E A) : preserves P (lift r).
Proof. by intros s. Qed.
Lemma preserves_gets {A} (f : S → A) : preserves (E := E) P (gets f).
Proof. by intros s. Qed.
Lemma preserves_get : preserves (E := E) P get.
Proof. by intros s. Qed.
Lemma preserves_mret {A} (a : A) : preserves (E := E) P (mret a).
Proof. by intros s. Qed.
Lemma preserves_throw {A} (e : E) : preserves (A := A) P (throw e).
Proof. by intros s. Qed.
Lemma preserves_modify f : (∀ s, P s → P (f s)) → preserves (E := E) P (modify f).
Proof. intros Hf s. apply Hf. Qed.
Lemma preserves_bind {A B} (m : M S E A) (f : A → M S E B) :
  preserves P m → (∀ a, preserves P (f a)) → preserves P (m ≫= f).
Proof.
  intros Hm Hf s Hs. unfold mbind, M_bind. specialize (Hm s Hs).
  destruct (m s) as [[a|e| |] s']; try done. by apply Hf.
Qed.
Lemma preserves_while {St} fuel cond (body : St → M S E St) :
  (∀ st, preserves P (body st)) → ∀ st, preserves P (while fuel cond body st).
Proof.
  intros Hb. induction fuel as [|fuel IH]; intros st; simpl.
  - destruct (cond st); [by intros s|apply preserves_mret].
  - destruct (cond st); [|apply preserves_mret]. by apply preserves_bind.
Qed.
Lemma preserves_chunk_loop {Acc} cs off len (body : Z → Z → Z → Z → Z → Acc → M S E Acc) acc :
  (∀ a b c d e acc, preserves P (body a b c d e acc)) →
  preserves P (chunk_loop cs off len body acc).
Proof.
  intros Hb. apply preserves_bind; [|intros; apply preserves_mret].
  apply preserves_while. intros [done acc']. destruct (cs =? 0); [by intros s|].
  apply preserves_bind; [apply Hb|intros; apply preserves_mret].
Qed.
End preserves.
Create HintDb preserves.
#[export] Hint Resolve preserves_lift preserves_gets preserves_get preserves_mret preserves_throw
  preserves_bind preserves_chunk_loop : preserves.

#[global] Program Instance memory_steady : SteadyStore MemoryStore := {
  steady _ := True;
  acceptable _ := True;
  related _ _ := True
}.
Solve Obligations with done.

Section cached.
Context {S : Type} `{BlockStoreLaws S} `{!SteadyStore S}.
Implicit Types s : CachedStore S.

(** The pool is shared: the operations on one volume's store add no entry of
    another volume, they may only push some out. *)
Definition others_kept (volume : string) (c c' : CacheInner) : Prop :=
  ∀ v idx d, v ≠ volume → Cache.cached c' v idx = Some d → Cache.cached c v idx = Some d.
Lemma others_get volume idx c : others_kept volume c (Cache.get volume idx c).2.
Proof. intros v k d _. apply Cache.get_data_sub. Qed.
Lemma others_put volume idx data c : others_kept volume c (Cache.put volume idx data c).
Proof. intros v k d Hv [[Heq _]|[_ Hd]]%Cache.put_cached; [|done]. congruence. Qed.
Lemma others_invalidate volume idx c : others_kept volume c (Cache.invalidate volume idx c).
Proof. intros v k d _ Hd%Cache.invalidate_cached. apply Hd. Qed.

Record cached_related s s' : Prop := {
  cr_inner : related (cs_inner s) (cs_inner s');
  cr_volume : cs_volume s' = cs_volume s;
  cr_others : others_kept (cs_volume s) (cs_cache s) (cs_cache s')
}.
#[global] Instance cached_related_preorder : PreOrder cached_related.
Proof.
  split; [by intros s; constructor; [reflexivity|done|intros ????]|].
  intros s1 s2 s3 [Hi1 Hv1 Ho1] [Hi2 Hv2 Ho2]. constructor; [by etrans|congruence|].
  intros v k d Hv Hd. apply Ho1; [done|]. apply Ho2; [by rewrite Hv1|done].
Qed.

(** The inner store stays steady, and the store related to [s0]. *)
Definition cached_from s0 s : Prop := steady (cs_inner s) ∧ cached_related s0 s.
Lemma cached_from_cache s0 s c :
  others_kept (cs_volume s) (cs_cache s) c → cached_from s0 s → cached_from s0 (Cached.with_cache c s).
Proof.
  intros Hc [Hs Hr]. split; [done|]. etrans; [exact Hr|]. constructor; [reflexivity|done|exact Hc].
Qed.
Lemma cached_from_inner s0 s i :
  steady i → related (cs_inner s) i → cached_from s0 s → cached_from s0 (Cached.with_inner i s).
Proof.
  intros Hi Hrel [_ Hr]. split; [done|]. etrans; [exact Hr|]. constructor; [done|done|by intros ????].
Qed.

Lemma preserves_inner {A} s0 (m : M S StoreError A) :
  (∀ i, steady i → steady (m i).2 ∧ related i (m i).2) → preserves (cached_from s0) (Cached.inner m).
Proof.
  intros Hm s Hs. unfold Cached.inner, zoom. specialize (Hm _ (proj1 Hs)).
  destruct (m (cs_inner s)) as [r i]. destruct Hm as [Hst Hrel]. by apply cached_from_inner.
Qed.
Lemma preserves_cache_get s0 idx : preserves (cached_from s0) (Cached.cache_get idx).
Proof.
  intros s Hs. unfold Cached.cache_get. pose proof (others_get (cs_volume s) idx (cs_cache s)) as Ho.
  destruct (Cache.get (cs_volume s) idx (cs_cache s)). by apply cached_from_cache.
Qed.
Lemma preserves_cache_put s0 idx data : preserves (cached_from s0) (Cached.cache_put idx data).
Proof. apply preserves_modify. intros s Hs. apply cached_from_cache; [apply others_put|done]. Qed.
Lemma preserves_cache_invalidate s0 idx : preserves (cached_from s0) (Cached.cache_invalidate idx).
Proof. apply preserves_modify. intros s Hs. apply cached_from_cache; [apply others_invalidate|done]. Qed.
Lemma preserves_observe s0 hit : preserves (E := StoreError) (cached_from s0) (modify (Cached.observe_cache hit)).
Proof.
  apply preserves_modify. intros s [Hs Hr]. split; [done|]. etrans; [exact Hr|].
  constructor; [reflexivity|done|by intros ????].
Qed.
Lemma preserves_unlocked s0 : preserves (cached_from s0) (@Cached.ensure_unlocked S).
Proof. intros s Hs. unfold Cached.ensure_unlocked, mbind, M_bind, get. by destruct (cs_io_locked s). Qed.

Lemma preserves_load s0 idx : preserves (cached_from s0) (Cached.load_chunk idx).
Proof.
  apply preserves_bind; [apply preserves_unlocked|]. intros _.
  apply preserves_bind; [apply preserves_cache_get|]. intros [d|].
  { apply preserves_bind; [apply preserves_observe|intros; apply preserves_mret]. }
  apply preserves_bind; [apply preserves_observe|]. intros _.
  apply preserves_bind; [apply preserves_get|]. intros s.
  cbv zeta. destruct (checked_mul64 idx (chunk_size (cs_inner s))); [|by intros ?].
  case_match; [apply preserves_throw|].
  apply preserves_bind; [apply preserves_inner; intros; by apply steady_read|]. intros hd.
  apply preserves_bind; [apply preserves_cache_put|intros; apply preserves_mret].
Qed.

Lemma preserves_cached_read s0 off buf : preserves (cached_from s0) (Cached.read off buf).
Proof.
  apply preserves_bind; [apply preserves_unlocked|]. intros _.
  apply preserves_bind; [apply preserves_get|]. intros s.
  apply preserves_bind; [apply preserves_lift|]. intros _.
  apply preserves_chunk_loop. intros. apply preserves_bind; [apply preserves_load|].
  auto with preserves.
Qed.
Lemma cached_from_start s : steady (cs_inner s) → cached_from s s.
Proof. by split. Qed.

(** One call on the inner store, then only cache operations. *)
Lemma steady_inner {A A'} (m : M S StoreError A) (k : A → M (CachedStore S) StoreError A') s :
  steady (cs_inner s) → steady (m (cs_inner s)).2 ∧ related (cs_inner s) (m (cs_inner s)).2 →
  (∀ a, preserves (cached_from s) (k a)) →
  cached_from s ((_ ← Cached.ensure_unlocked; Cached.inner m ≫= k) s).2.
Proof.
  intros Hs Hm Hk. pose proof (cached_from_start s Hs) as Hs0.
  unfold Cached.ensure_unlocked, mbind, M_bind, get. destruct (cs_io_locked s); [done|].
  simpl. unfold Cached.inner, zoom. destruct (m (cs_inner s)) as [r i]. destruct Hm as [Hst Hrel].
  pose proof (cached_from_inner s s i Hst Hrel Hs0) as Hs1. destruct r as [a|e| |]; try done. by apply Hk.
Qed.
Lemma steady_inner_last {A} (m : M S StoreError A) s :
  steady (cs_inner s) → steady (m (cs_inner s)).2 ∧ related (cs_inner s) (m (cs_inner s)).2 →
  cached_from s ((_ ← Cached.ensure_unlocked; Cached.inner m) s).2.
Proof.
  intros Hs Hm. pose proof (cached_from_start s Hs) as Hs0.
  unfold Cached.ensure_unlocked, mbind, M_bind, get. destruct (cs_io_locked s); [done|].
  simpl. unfold Cached.inner, zoom. destruct (m (cs_inner s)) as [r i]. destruct Hm as [Hst Hrel].
  by apply cached_from_inner.
Qed.

#[global] Program Instance cached_steady : SteadyStore (CachedStore S) := {
  steady s := steady (cs_inner s);
  acceptable := acceptable S;
  related := cached_related
}.
Next Obligation. intros s Hs. by apply (steady_blank (cs_inner s)). Qed.
Next Obligation. intros s idx Hi Hs. by apply (steady_image (cs_inner s)); [apply Hi|]. Qed.
Next Obligation.
  intros s off data Hi Hs Hp. apply (steady_admissible (cs_inner s) off data); [apply Hi|done|exact Hp].
Qed.
Next Obligation. intros s off buf Hs. by apply preserves_cached_read, cached_from_start. Qed.
Next Obligation.
  intros s off data Hi [Hr _] Hs Hoff Hp. apply steady_inner; [done|by apply steady_write; [apply Hi|..]|].
  intros _. apply preserves_bind; [apply preserves_get|]. intros s'.
  apply preserves_chunk_loop. intros. apply preserves_bind; [apply preserves_cache_get|].
  intros [d'|]; [|apply preserves_cache_invalidate].
  apply preserves_bind; [apply preserves_lift|]. intros src.
  apply preserves_bind; [apply preserves_lift|]. intros c'. apply preserves_cache_put.
Qed.
Next Obligation.
  intros s n Hi [Hr _] Hs Hn.
  destruct (steady_set_capacity (cs_inner s) n ltac:(apply Hi) Hr Hs Hn) as [Hst Hrel].
  pose proof (cached_from_start s Hs) as Hs0. simpl.
  unfold Cached.set_cap, Cached.ensure_unlocked, mbind, M_bind, get. destruct (cs_io_locked s); [done|].
  simpl. unfold Cached.inner, zoom.
  destruct (set_capacity n (cs_inner s)) as [r i]. split; [exact Hst|]. intros e He.
  by apply (cached_from_inner s s i Hst (Hrel e He)).
Qed.
Next Obligation. intros s Hs. apply steady_inner_last; [done|]. by apply steady_flush. Qed.
Next Obligation.
  intros s Hi [Hr _] Hs. apply steady_inner_last; [done|]. by apply steady_present; [apply Hi|..].
Qed.
Next Obligation.
  intros s idx Hi [Hr _] Hs Hidx. apply steady_inner; [done|by apply steady_delete; [apply Hi|..]|].
  intros _. apply preserves_cache_invalidate.
Qed.
End cached.

(** ** A blank disk, to evaluate the operations on: [cap] bytes in 2-byte blocks
    and 4-byte chunks. *)
Definition blank_disk (cap : Z) : MemoryStore :=
  {| mem_capacity := cap; mem_chunks := ∅; mem_block_size := 2; mem_chunk_size := 4 |}.
Lemma blank_usable cap : is_u64 cap → usable (blank_disk cap).
Proof. intros Hcap. split; [|done]. by constructor. Qed.
Lemma blank_shown cap a : shown (blank_disk cap) a = Byte.x00.
Proof. done. Qed.
