(* ===== verification/WriteBuffer.v ===== *)
(** * The write buffer (src/src/write_cache.rs)

    [BufState]: the bounded queue of chunks on their way to the inner store, and
    the job the worker takes from it. *)
From S2P Require Import Prelude Tables Text Store.
#[local] Open Scope list_scope.
#[local] Open Scope Z_scope.

Record BufferedChunk : Type := { bc_data : bytes; bc_generation : Z }.
Record Job : Type := { job_idx : Z; job_data : bytes; job_generation : Z }.
Record BufState : Type := {
  bs_chunks : gmap Z BufferedChunk;
  bs_order : list Z;
  bs_used_bytes : Z;
  bs_inflight : option Z
}.

Module Buf.
Implicit Types b : BufState.
Definition new : BufState :=
  {| bs_chunks := ∅; bs_order := []; bs_used_bytes := 0; bs_inflight := None |}.

(** [order.retain(|i| *i != idx)] *)
Definition retain_ne (idx : Z) (l : list Z) : list Z := filter (λ i, i ≠ idx) l.

Definition push (idx : Z) (data : bytes) (generation : Z) b : BufState :=
  let size := Zlen data in
  let '(used, order) :=
    match bs_chunks b !! idx with
    | Some old => (saturating_sub (bs_used_bytes b) (Zlen (bc_data old)), retain_ne idx (bs_order b))
    | None => (bs_used_bytes b, bs_order b)
    end in
  {| bs_chunks := <[idx := {| bc_data := data; bc_generation := generation |}]> (bs_chunks b);
     bs_order := order ++ [idx];
     bs_used_bytes := saturating_add64 used size;
     bs_inflight := bs_inflight b |}.

Definition remove (idx : Z) b : BufState :=
  match bs_chunks b !! idx with
  | None => b
  | Some old =>
      {| bs_chunks := delete idx (bs_chunks b);
         bs_order := retain_ne idx (bs_order b);
         bs_used_bytes := saturating_sub (bs_used_bytes b) (Zlen (bc_data old));
         bs_inflight := if decide (bs_inflight b = Some idx) then None else bs_inflight b |}
  end.

Definition set_inflight (o : option Z) b : BufState :=
  {| bs_chunks := bs_chunks b; bs_order := bs_order b; bs_used_bytes := bs_used_bytes b;
     bs_inflight := o |}.
Definition clear_inflight (idx : Z) b : BufState :=
  if decide (bs_inflight b = Some idx) then set_inflight None b else b.
End Buf.
