(* ===== verification/WriteCache.v ===== *)
(** * The write-back cache (src/src/write_cache.rs)

    [WriteCachedStore<S>] keeps dirty chunks in RAM, hands them to a bounded
    buffer and writes them to the inner store from a worker thread; in disk mode
    every dirty chunk is also a file.

    Concurrency. One foreground operation runs at a time (the SCSI device is
    behind a mutex) beside the worker thread. A critical section of the dirty
    table, the buffer or the control block, a file-system call sequence under
    the file lock and a call on the inner store are atomic. Between two of them
    the foreground computation passes a [yield] point, where the schedule
    [wc_sched] says which worker turns happen and how much time passes; the
    theorems quantify over the schedule. A blocking wait runs worker turns until
    its condition holds; condition variables carry no data, so notification
    itself is not modelled. *)
From S2P Require Import Prelude Tables Text Store.
#[local] Open Scope string_scope.
#[local] Open Scope list_scope.
#[local] Open Scope Z_scope.
Import Text.

(** ** The dirty table *)
Record DirtyChunk : Type := { dc_data : bytes; dc_tick : Z; dc_written_at : Z }.
Record DirtyState : Type := {
  ds_chunks : gmap Z DirtyChunk;
  ds_tick : Z;
  ds_used_bytes : Z
}.

Module Dirty.
Implicit Types d : DirtyState.
Definition new : DirtyState := {| ds_chunks := ∅; ds_tick := 0; ds_used_bytes := 0 |}.

(** [now] is [Instant::now()] in milliseconds. *)
Definition insert (now idx : Z) (data : bytes) d : DirtyState :=
  let tick := wrapping_add64 (ds_tick d) 1 in
  let used := match ds_chunks d !! idx with
              | Some old => saturating_sub (ds_used_bytes d) (Zlen (dc_data old))
              | None => ds_used_bytes d
              end in
  {| ds_chunks := <[idx := {| dc_data := data; dc_tick := tick; dc_written_at := now |}]> (ds_chunks d);
     ds_tick := tick;
     ds_used_bytes := saturating_add64 used (Zlen data) |}.

Definition from_recovered (now : Z) (m : gmap Z bytes) : DirtyState :=
  foldl (λ d kv, insert now kv.1 kv.2 d) new (map_to_list m).

Definition remove (idx : Z) d : DirtyState :=
  match ds_chunks d !! idx with
  | None => d
  | Some e => {| ds_chunks := delete idx (ds_chunks d); ds_tick := ds_tick d;
                 ds_used_bytes := saturating_sub (ds_used_bytes d) (Zlen (dc_data e)) |}
  end.

Definition get (idx : Z) d : option bytes := dc_data <$> ds_chunks d !! idx.

Definition oldest d : option Z := min_by_key dc_tick (map_to_list (ds_chunks d)).

(** [written_at.elapsed() >= quiet] *)
Definition oldest_quiet (now quiet : Z) d : option Z :=
  min_by_key dc_written_at
    (filter (λ kv, quiet ≤ now - dc_written_at kv.2) (map_to_list (ds_chunks d))).
End Dirty.

(** ** The cache directory

    The files of the directory by name, and what goes wrong: each call takes
    the head of [fs_faults]. A failing [write_all] leaves a prefix behind. *)
Record IoError : Type := { ie_text : string; ie_written : nat }.
Record Fs : Type := {
  fs_dir : string;
  fs_files : gmap string bytes;
  fs_faults : list (option IoError)
}.

Module Disk.
Implicit Types fs : Fs.
Abbreviation MF := (M Fs IoError).
Definition with_files (m : gmap string bytes) fs : Fs :=
  {| fs_dir := fs_dir fs; fs_files := m; fs_faults := fs_faults fs |}.

(** One system call: fails as the fault list says, [partial] being the effect
    of a failed call, else has the effect [effect]. *)
Definition syscall (partial : IoError → gmap string bytes → gmap string bytes)
    (effect : gmap string bytes → gmap string bytes) : MF unit := λ fs,
  match fs_faults fs with
  | Some e :: l =>
      (Err e, {| fs_dir := fs_dir fs; fs_files := partial e (fs_files fs); fs_faults := l |})
  | l => (Ok tt, {| fs_dir := fs_dir fs; fs_files := effect (fs_files fs); fs_faults := tail l |})
  end.
Definition no_effect (_ : IoError) (m : gmap string bytes) : gmap string bytes := m.

Definition create_dir_all : MF unit := syscall no_effect id.
Definition create (name : string) : MF unit := syscall no_effect (insert name []).
Definition write_all (name : string) (data : bytes) : MF unit :=
  syscall (λ e, insert name (take (ie_written e) data)) (insert name data).
Definition sync_all : MF unit := syscall no_effect id.
Definition rename (a b : string) : MF unit :=
  syscall no_effect (λ m, match m !! a with Some d => insert b d (delete a m) | None => m end).
(** [fs::remove_file] with the [NotFound] error already taken as success. *)
Definition remove_file (name : string) : MF unit := syscall no_effect (delete name).
Definition read (name : string) : MF bytes :=
  _ ← syscall no_effect id;
  m ← gets fs_files;
  match m !! name with
  | Some d => mret d
  | None => throw {| ie_text := "No such file or directory"; ie_written := 0 |}
  end.

Definition file_name (idx : Z) : string := hex_fixed false 16 idx.
Definition chunk_path fs (idx : Z) : string := fs_dir fs +:+ "/" +:+ file_name idx.
(** [dest.with_extension("tmp")] *)
Definition tmp_name (idx : Z) : string := file_name idx +:+ ".tmp".

Definition other {A} (what : string) (m : MF A) : M Fs StoreError A :=
  map_err (λ e, OtherError (what +:+ ": " +:+ ie_text e)) m.

Definition write_chunk_file (idx : Z) (data : bytes) : M Fs StoreError unit :=
  fs ← get;
  let dest := chunk_path fs idx in
  let tmp := dest +:+ ".tmp" in
  _ ← other ("create write-cache dir " +:+ fs_dir fs) create_dir_all;
  _ ← other ("create " +:+ tmp) (create (tmp_name idx));
  _ ← other ("write " +:+ tmp) (write_all (tmp_name idx) data);
  _ ← other ("sync " +:+ tmp) sync_all;
  other ("rename " +:+ tmp +:+ " -> " +:+ dest) (rename (tmp_name idx) (file_name idx)).
End Disk.

(** [serde_json] on the stamp file. *)
Record WriteCacheStamp : Type := { stamp_volume : string; stamp_chunk_size : Z }.
Class StampJson : Type := {
  stamp_to_json : WriteCacheStamp → bytes + string;
  stamp_from_json : bytes → WriteCacheStamp + string
}.
Class StampJsonLaws `{StampJson} : Prop :=
  stamp_json_roundtrip st : ∃ b, stamp_to_json st = inl b ∧ stamp_from_json b = inl st.

Module Recover.
Section recover.
Context `{StampJson}.
Definition STAMP_NAME : string := ".write-cache.json".

Definition check_stamp (volume : string) (chunk_size : Z) : M Fs StoreError unit :=
  fs ← get;
  let stamp_path := fs_dir fs +:+ "/" +:+ STAMP_NAME in
  match fs_files fs !! STAMP_NAME with
  | Some _ =>
      text ← Disk.other ("read " +:+ stamp_path) (Disk.read STAMP_NAME);
      match stamp_from_json text with
      | inr e => throw (OtherError ("parse " +:+ stamp_path +:+ ": " +:+ e))
      | inl stamp =>
          if negb (bool_decide (stamp_volume stamp = volume)) then
            throw (OtherError ("write-cache " +:+ fs_dir fs +:+ " belongs to volume "
              +:+ quoted (stamp_volume stamp) +:+ ", not " +:+ quoted volume))
          else if negb (stamp_chunk_size stamp =? chunk_size) then
            throw (OtherError ("write-cache " +:+ fs_dir fs +:+ " chunk_size "
              +:+ dec (stamp_chunk_size stamp) +:+ " != volume " +:+ dec chunk_size))
          else mret tt
      end
  | None =>
      match stamp_to_json {| stamp_volume := volume; stamp_chunk_size := chunk_size |} with
      | inr e => throw (OtherError ("stamp json: " +:+ e))
      | inl text => Disk.other ("write " +:+ stamp_path) (Disk.write_all STAMP_NAME text)
      end
  end.

(** A directory entry that names a chunk. *)
Definition entry_index (name : string) : option (outcome StoreError Z) :=
  if starts_with "." name || ends_with ".tmp" name then None
  else if negb (str_len name =? 16) || negb (all_chars is_hexdigit name) then None
  else Some match from_str_radix16 u64_max name with
            | Some idx => Ok idx
            | None => Err (OtherError ("bad write-cache name " +:+ name))
            end.

Definition load_entry (chunk_size : Z) (name : string) (dirty : gmap Z bytes)
    : M Fs StoreError (gmap Z bytes) :=
  match entry_index name with
  | None => mret dirty
  | Some r =>
      idx ← lift r;
      fs ← get;
      let path := fs_dir fs +:+ "/" +:+ name in
      b ← Disk.other ("read " +:+ path) (Disk.read name);
      if negb (Zlen b =? chunk_size) then
        throw (OtherError ("write-cache " +:+ path +:+ " length " +:+ dec (Zlen b)
          +:+ " != chunk_size " +:+ dec chunk_size))
      else mret (<[idx := b]> dirty)
  end.

Definition load_disk_cache (volume : string) (chunk_size : Z) : M Fs StoreError (gmap Z bytes) :=
  fs ← get;
  _ ← Disk.other ("create write-cache dir " +:+ fs_dir fs) Disk.create_dir_all;
  _ ← check_stamp volume chunk_size;
  _ ← Disk.other ("read write-cache dir " +:+ fs_dir fs) (Disk.syscall Disk.no_effect id);
  fs ← get;
  for_each (map_to_list (fs_files fs)).*1 (load_entry chunk_size) ∅.
End recover.
End Recover.
