(* ===== verification/WriteBack.v ===== *)
(** * The write-back store: operations and worker (src/src/write_cache.rs)

    [Core] with the foreground operations of [WriteCachedStore] and the worker
    thread as a program counter with one turn per atomic step. *)
From S2P Require Import Prelude Tables Text Store Cache CachedStore WriteBuffer WriteCache.
#[local] Open Scope string_scope.
#[local] Open Scope list_scope.
#[local] Open Scope Z_scope.

Inductive WriteCacheMode : Type := WcNone | WcMemory | WcDisk.
#[global] Instance WriteCacheMode_eq_dec : EqDecision WriteCacheMode.
Proof. solve_decision. Defined.

Record Ctl : Type := {
  ctl_pause : bool;
  ctl_stop : bool;
  ctl_putting : bool;
  ctl_parked : bool;
  ctl_exclusive : bool;
  ctl_writers : Z
}.

Record BufferRt : Type := { rt_max_bytes : Z; rt_state : BufState }.

(** Where the worker thread is in [run_worker]. *)
Inductive Worker : Type :=
  | WTop                       (* about to look at the control block *)
  | WParked                    (* waiting for the end of a pause *)
  | WScan                      (* about to take a job *)
  | WTaken (job : Job)         (* about to check for a pause *)
  | WAborted (job : Job)       (* about to give the job back *)
  | WPut (job : Job)           (* about to write to the inner store *)
  | WFinish (job : Job) (ok : bool)  (* about to commit the result *)
  | WDone                      (* about to clear [putting] *)
  | WHandoff                   (* about to look for a quiet chunk *)
  | WStopped.

(** What happens at a [yield] point. *)
Inductive Event : Type := Turn | Elapse (ms : Z).

Record Core (S : Type) : Type := {
  wc_inner : S;
  wc_mode : WriteCacheMode;
  wc_disk : option Fs;
  wc_dirty : DirtyState;
  wc_cache_max : Z;
  wc_buffer : option BufferRt;
  wc_ctl : Ctl;
  wc_worker : Worker;
  wc_now : Z;
  wc_sched : list (list Event)
}.
Arguments wc_inner {S} _.
Arguments wc_mode {S} _.
Arguments wc_disk {S} _.
Arguments wc_dirty {S} _.
Arguments wc_cache_max {S} _.
Arguments wc_buffer {S} _.
Arguments wc_ctl {S} _.
Arguments wc_worker {S} _.
Arguments wc_now {S} _.
Arguments wc_sched {S} _.

Module WC.
(** [QUIET], in milliseconds. *)
Definition QUIET : Z := 100.

(** ** Fields of the control block *)
Definition set_pause (b : bool) (c : Ctl) : Ctl :=
  {| ctl_pause := b; ctl_stop := ctl_stop c; ctl_putting := ctl_putting c;
     ctl_parked := ctl_parked c; ctl_exclusive := ctl_exclusive c; ctl_writers := ctl_writers c |}.
Definition set_stop (c : Ctl) : Ctl :=
  {| ctl_pause := false; ctl_stop := true; ctl_putting := ctl_putting c;
     ctl_parked := ctl_parked c; ctl_exclusive := ctl_exclusive c; ctl_writers := ctl_writers c |}.
Definition set_putting (b : bool) (c : Ctl) : Ctl :=
  {| ctl_pause := ctl_pause c; ctl_stop := ctl_stop c; ctl_putting := b;
     ctl_parked := ctl_parked c; ctl_exclusive := ctl_exclusive c; ctl_writers := ctl_writers c |}.
Definition set_parked (b : bool) (c : Ctl) : Ctl :=
  {| ctl_pause := ctl_pause c; ctl_stop := ctl_stop c; ctl_putting := ctl_putting c;
     ctl_parked := b; ctl_exclusive := ctl_exclusive c; ctl_writers := ctl_writers c |}.
Definition set_exclusive (b : bool) (c : Ctl) : Ctl :=
  {| ctl_pause := ctl_pause c; ctl_stop := ctl_stop c; ctl_putting := ctl_putting c;
     ctl_parked := ctl_parked c; ctl_exclusive := b; ctl_writers := ctl_writers c |}.
Definition set_writers (n : Z) (c : Ctl) : Ctl :=
  {| ctl_pause := ctl_pause c; ctl_stop := ctl_stop c; ctl_putting := ctl_putting c;
     ctl_parked := ctl_parked c; ctl_exclusive := ctl_exclusive c; ctl_writers := n |}.
Definition new_ctl : Ctl :=
  {| ctl_pause := false; ctl_stop := false; ctl_putting := false; ctl_parked := false;
     ctl_exclusive := false; ctl_writers := 0 |}.

Section fields.
Context {S : Type}.
Implicit Types s : Core S.
Definition with_inner (i : S) s : Core S :=
  {| wc_inner := i; wc_mode := wc_mode s; wc_disk := wc_disk s; wc_dirty := wc_dirty s;
     wc_cache_max := wc_cache_max s; wc_buffer := wc_buffer s; wc_ctl := wc_ctl s;
     wc_worker := wc_worker s; wc_now := wc_now s; wc_sched := wc_sched s |}.
Definition with_disk (o : option Fs) s : Core S :=
  {| wc_inner := wc_inner s; wc_mode := wc_mode s; wc_disk := o; wc_dirty := wc_dirty s;
     wc_cache_max := wc_cache_max s; wc_buffer := wc_buffer s; wc_ctl := wc_ctl s;
     wc_worker := wc_worker s; wc_now := wc_now s; wc_sched := wc_sched s |}.
Definition with_dirty (d : DirtyState) s : Core S :=
  {| wc_inner := wc_inner s; wc_mode := wc_mode s; wc_disk := wc_disk s; wc_dirty := d;
     wc_cache_max := wc_cache_max s; wc_buffer := wc_buffer s; wc_ctl := wc_ctl s;
     wc_worker := wc_worker s; wc_now := wc_now s; wc_sched := wc_sched s |}.
Definition with_buffer (f : BufState → BufState) s : Core S :=
  {| wc_inner := wc_inner s; wc_mode := wc_mode s; wc_disk := wc_disk s; wc_dirty := wc_dirty s;
     wc_cache_max := wc_cache_max s;
     wc_buffer := (λ rt, {| rt_max_bytes := rt_max_bytes rt; rt_state := f (rt_state rt) |})
                    <$> wc_buffer s;
     wc_ctl := wc_ctl s; wc_worker := wc_worker s; wc_now := wc_now s; wc_sched := wc_sched s |}.
Definition with_ctl (f : Ctl → Ctl) s : Core S :=
  {| wc_inner := wc_inner s; wc_mode := wc_mode s; wc_disk := wc_disk s; wc_dirty := wc_dirty s;
     wc_cache_max := wc_cache_max s; wc_buffer := wc_buffer s; wc_ctl := f (wc_ctl s);
     wc_worker := wc_worker s; wc_now := wc_now s; wc_sched := wc_sched s |}.
Definition with_worker (w : Worker) s : Core S :=
  {| wc_inner := wc_inner s; wc_mode := wc_mode s; wc_disk := wc_disk s; wc_dirty := wc_dirty s;
     wc_cache_max := wc_cache_max s; wc_buffer := wc_buffer s; wc_ctl := wc_ctl s;
     wc_worker := w; wc_now := wc_now s; wc_sched := wc_sched s |}.
Definition with_time (now : Z) (sched : list (list Event)) s : Core S :=
  {| wc_inner := wc_inner s; wc_mode := wc_mode s; wc_disk := wc_disk s; wc_dirty := wc_dirty s;
     wc_cache_max := wc_cache_max s; wc_buffer := wc_buffer s; wc_ctl := wc_ctl s;
     wc_worker := wc_worker s; wc_now := now; wc_sched := sched |}.

(** The buffered chunks; none without a buffer. *)
Definition queued s : gmap Z BufferedChunk :=
  match wc_buffer s with Some rt => bs_chunks (rt_state rt) | None => ∅ end.
Definition inflight s : option Z :=
  match wc_buffer s with Some rt => bs_inflight (rt_state rt) | None => None end.
End fields.

Section ops.
Context {S : Type} `{BlockStore S}.
Abbreviation MW := (M (Core S) StoreError).
Implicit Types s : Core S.

Definition inner {A} (m : M S StoreError A) : MW A := zoom wc_inner with_inner m.
(** [blocked] marks a wait that no thread of the model can end. *)
Definition blocked {A} : MW A := λ s, (OutOfFuel, s).

(** [let Some(dir) = &self.disk else { return Ok(()) }; ..] *)
Definition on_disk (m : M Fs StoreError unit) : MW unit := λ s,
  match wc_disk s with
  | None => (Ok tt, s)
  | Some fs => let '(r, fs') := m fs in (r, with_disk (Some fs') s)
  end.
Definition persist (idx : Z) (data : bytes) : MW unit := on_disk (Disk.write_chunk_file idx data).
Definition remove_file (idx : Z) : MW unit :=
  on_disk (fs ← get;
           Disk.other ("remove write-cache " +:+ Disk.chunk_path fs idx)
             (Disk.remove_file (Disk.file_name idx))).

Definition write_inner (idx : Z) (data : bytes) : MW unit :=
  s ← get;
  let cap := capacity (wc_inner s) in
  let offset := saturating_mul64 idx (chunk_size (wc_inner s)) in
  if offset <? cap then
    let valid := Z.min (cap - offset) (Zlen data) in
    d ← lift (slice data 0 valid);
    inner (write_at offset d)
  else mret tt.

Definition read_full_chunk (idx : Z) : MW bytes :=
  s ← get;
  let cs := chunk_size (wc_inner s) in
  let cap := capacity (wc_inner s) in
  let offset := saturating_mul64 idx cs in
  if offset >=? cap then throw (OutOfRange offset cs cap)
  else
    let valid := Z.min (cap - offset) cs in
    head ← inner (read_at offset (zeros valid));
    mret (head ++ zeros (cs - valid)).

(** ** The worker thread *)

(** [next_job]: takes the front of the queue unless a job is in flight. *)
Definition next_job : MW (option Job) :=
  s ← get;
  match wc_buffer s with
  | None => mret None
  | Some rt =>
      let b := rt_state rt in
      match bs_inflight b with
      | Some _ => mret None
      | None =>
          match head (bs_order b) with
          | None => mret None
          | Some idx =>
              match bs_chunks b !! idx with
              | None => mret None
              | Some c =>
                  _ ← modify (with_buffer (Buf.set_inflight (Some idx)));
                  mret (Some {| job_idx := idx; job_data := bc_data c;
                                job_generation := bc_generation c |})
              end
          end
      end
  end.

Definition clear_inflight (idx : Z) : MW unit := modify (with_buffer (Buf.clear_inflight idx)).

(** Moving chunk [idx] of the dirty table to the buffer if there is room and no
    older copy is queued: the common part of [evict_into_buffer] and
    [handoff_quiet]. *)
Definition hand_over (idx : Z) : MW bool :=
  s ← get;
  match wc_buffer s with
  | None => mret false
  | Some rt =>
      let d := wc_dirty s in
      let size := match ds_chunks d !! idx with Some c => Zlen (dc_data c) | None => 0 end in
      let generation := match ds_chunks d !! idx with Some c => dc_tick c | None => 0 end in
      let b := rt_state rt in
      if bool_decide (bs_inflight b = Some idx) || bool_decide (is_Some (bs_chunks b !! idx)) then
        mret false
      else if saturating_add64 (bs_used_bytes b) size >? rt_max_bytes rt then mret false
      else
        match Dirty.get idx d with
        | None => mret false
        | Some data =>
            _ ← modify (with_dirty (Dirty.remove idx d));
            _ ← modify (with_buffer (Buf.push idx data generation));
            mret true
        end
  end.

Definition handoff_quiet : MW bool :=
  s ← get;
  match wc_buffer s with
  | None => mret false
  | Some _ =>
      match Dirty.oldest_quiet (wc_now s) QUIET (wc_dirty s) with
      | None => mret false
      | Some idx => hand_over idx
      end
  end.

(** The part of [finish_put] after the write, under the file lock. *)
Definition commit_put (job : Job) (ok : bool) : MW unit :=
  _ ← modify (with_buffer (λ b,
        let b := Buf.clear_inflight (job_idx job) b in
        if ok && bool_decide (bc_generation <$> bs_chunks b !! job_idx job
                              = Some (job_generation job))
        then Buf.remove (job_idx job) b else b));
  s ← get;
  if ok && negb (bool_decide (is_Some (ds_chunks (wc_dirty s) !! job_idx job)))
  then remove_file (job_idx job) else mret tt.

(** One atomic step of [run_worker]. *)
Definition worker_turn : MW unit :=
  s ← get;
  let ctl := wc_ctl s in
  match wc_worker s with
  | WTop =>
      if ctl_stop ctl then modify (with_worker WStopped)
      else if ctl_pause ctl then
        _ ← modify (with_ctl (λ c, set_putting false (set_parked true c)));
        modify (with_worker WParked)
      else modify (with_worker WScan)
  | WParked =>
      if ctl_pause ctl && negb (ctl_stop ctl) then mret tt
      else
        _ ← modify (with_ctl (set_parked false));
        modify (with_worker WTop)
  | WScan =>
      j ← next_job;
      modify (with_worker (match j with Some job => WTaken job | None => WHandoff end))
  | WTaken job =>
      if ctl_pause ctl || ctl_stop ctl then modify (with_worker (WAborted job))
      else
        _ ← modify (with_ctl (set_putting true));
        modify (with_worker (WPut job))
  | WAborted job =>
      _ ← clear_inflight (job_idx job);
      modify (with_worker WTop)
  | WPut job =>
      r ← attempt (write_inner (job_idx job) (job_data job));
      modify (with_worker (WFinish job (match r with inl _ => true | inr _ => false end)))
  | WFinish job ok =>
      _ ← ignore (commit_put job ok);
      modify (with_worker WDone)
  | WDone =>
      _ ← modify (with_ctl (set_putting false));
      modify (with_worker WTop)
  | WHandoff =>
      _ ← handoff_quiet;
      modify (with_worker WTop)
  | WStopped => mret tt
  end.

Definition run_event (e : Event) : MW unit :=
  match e with
  | Turn => s ← get; if wc_buffer s then worker_turn else mret tt
  | Elapse ms => modify (λ s, with_time (wc_now s + Z.max 0 ms) (wc_sched s) s)
  end.
(** Between two critical sections of the foreground thread. *)
Definition yield : MW unit :=
  s ← get;
  match wc_sched s with
  | [] => mret tt
  | evs :: sched =>
      _ ← modify (λ s, with_time (wc_now s) sched s);
      for_each evs (λ e _, run_event e) tt
  end.

(** [while !cond { cv.wait() }]: the worker runs until the condition holds. *)
Fixpoint wait_until (fuel : nat) (cond : Core S → bool) : MW unit :=
  s ← get;
  if cond s then mret tt
  else match fuel with
       | O => blocked
       | Datatypes.S fuel => _ ← worker_turn; wait_until fuel cond
       end.

(** ** Control *)

(** [let _hold = self.begin_write(); m]: the hold is released on every exit. *)
Definition holding {A} (m : MW A) : MW A :=
  s ← get;
  if ctl_exclusive (wc_ctl s) then blocked
  else
    _ ← modify (with_ctl (λ c, set_writers (ctl_writers c + 1) c));
    r ← attempt m;
    _ ← modify (with_ctl (λ c, set_writers (saturating_sub (ctl_writers c) 1) c));
    match r with inl a => mret a | inr e => throw e end.

Definition with_exclusive (f : MW unit) : MW unit :=
  _ ← modify (with_ctl (set_exclusive true));
  s ← get;
  if ctl_writers (wc_ctl s) >? 0 then blocked
  else
    r ← attempt f;
    _ ← modify (with_ctl (set_exclusive false));
    match r with inl _ => mret tt | inr e => throw e end.

(** The worker parks within this many turns. *)
Definition PARK_TURNS : nat := 8.
Definition pause_worker : MW unit :=
  s ← get;
  match wc_buffer s with
  | None => mret tt
  | Some _ =>
      _ ← modify (with_ctl (set_pause true));
      wait_until PARK_TURNS (λ s, ctl_parked (wc_ctl s))
  end.
Definition resume_worker : MW unit := modify (with_ctl (set_pause false)).
Definition stop_worker : MW unit :=
  _ ← modify (with_ctl set_stop);
  s ← get;
  match wc_buffer s with
  | None => mret tt
  | Some _ => wait_until PARK_TURNS (λ s, match wc_worker s with WStopped => true | _ => false end)
  end.

(** ** Lookup and eviction *)
Definition lookup (idx : Z) : MW (option bytes) :=
  s ← get;
  match Dirty.get idx (wc_dirty s) with
  | Some data => mret (Some data)
  | None => _ ← yield; s ← get; mret (bc_data <$> queued s !! idx)
  end.

Definition load_for_write (idx : Z) : MW bytes :=
  r ← lookup idx;
  match r with
  | Some data => mret data
  | None => _ ← yield; read_full_chunk idx
  end.

(** One pass of [evict_direct]; [true] when the loop goes on. There is no worker
    without a buffer, so nothing happens between two passes. *)
Definition evict_one : MW bool :=
  s ← get;
  if ds_used_bytes (wc_dirty s) <=? wc_cache_max s then mret false
  else match Dirty.oldest (wc_dirty s) with
       | None => mret false
       | Some idx =>
           match Dirty.get idx (wc_dirty s) with
           | None => mret true
           | Some data =>
               _ ← write_inner idx data;
               _ ← modify (λ s, with_dirty (Dirty.remove idx (wc_dirty s)) s);
               _ ← remove_file idx;
               mret true
           end
       end.
Fixpoint evict_loop (fuel : nat) : MW unit :=
  go ← evict_one;
  if (go : bool) then
    match fuel with O => blocked | Datatypes.S fuel => evict_loop fuel end
  else mret tt.
Definition evict_direct : MW unit :=
  s ← get;
  if (wc_cache_max s =? 0) || bool_decide (wc_mode s = WcNone) then mret tt
  else evict_loop (size (ds_chunks (wc_dirty s))).

(** How many turns the worker can need to empty the tables. *)
Definition rank (w : Worker) : nat :=
  match w with
  | WFinish _ _ => 1 | WPut _ => 2 | WTaken _ => 3 | WScan => 4 | WTop => 5
  | WAborted _ | WDone | WParked | WHandoff => 6 | WStopped => 0
  end.
Definition work s : nat :=
  20 * size (ds_chunks (wc_dirty s)) + 10 * size (queued s) + rank (wc_worker s).

(** One pass of [evict_into_buffer]: move, or wait. The tables are free between
    two passes. *)
Definition move_one : MW bool :=
  s ← get;
  if ds_used_bytes (wc_dirty s) <=? wc_cache_max s then mret false
  else match Dirty.oldest (wc_dirty s) with
       | None => mret false
       | Some idx =>
           moved ← hand_over idx;
           if (moved : bool) then mret true
           else s ← get;
                if ctl_stop (wc_ctl s) then mret false
                else _ ← worker_turn; mret true
       end.
Fixpoint move_loop (fuel : nat) : MW unit :=
  _ ← yield;
  go ← move_one;
  if (go : bool) then
    match fuel with O => blocked | Datatypes.S fuel => move_loop fuel end
  else mret tt.
Definition evict_into_buffer : MW unit :=
  s ← get;
  match wc_buffer s with
  | None => evict_direct
  | Some _ => if wc_cache_max s =? 0 then mret tt else move_loop (work s)
  end.

(** ** Flushing *)
Definition job_of_dirty (kv : Z * DirtyChunk) : Job :=
  {| job_idx := kv.1; job_data := dc_data kv.2; job_generation := dc_tick kv.2 |}.
Definition job_of_queued (kv : Z * BufferedChunk) : Job :=
  {| job_idx := kv.1; job_data := bc_data kv.2; job_generation := bc_generation kv.2 |}.

Definition take_all_jobs : MW (list Job) :=
  s ← get;
  let dirty_jobs := job_of_dirty <$> map_to_list (ds_chunks (wc_dirty s)) in
  let jobs := job_of_queued <$> filter (λ kv, ds_chunks (wc_dirty s) !! kv.1 = None)
                                  (map_to_list (queued s)) in
  _ ← modify (with_dirty {| ds_chunks := ∅; ds_tick := ds_tick (wc_dirty s); ds_used_bytes := 0 |});
  _ ← modify (with_buffer (λ _, Buf.new));
  mret (jobs ++ dirty_jobs).

Definition write_snapshot (job : Job) : MW unit :=
  _ ← write_inner (job_idx job) (job_data job);
  s ← get;
  if bool_decide (is_Some (ds_chunks (wc_dirty s) !! job_idx job)) then mret tt
  else remove_file (job_idx job).

Definition is_none s : bool := bool_decide (wc_mode s = WcNone).

Definition flush_jobs : MW unit :=
  _ ← pause_worker;
  jobs ← take_all_jobs;
  _ ← for_each jobs (λ job _, write_snapshot job) tt;
  resume_worker.
Definition flush_all : MW unit :=
  s ← get;
  if is_none s then inner flush
  else _ ← with_exclusive flush_jobs; inner flush.

Definition discard_dirty : MW unit :=
  s ← get;
  if is_none s then mret tt
  else with_exclusive (
    _ ← pause_worker;
    jobs ← take_all_jobs;
    _ ← for_each jobs (λ job _, remove_file (job_idx job)) tt;
    resume_worker).

(** ** Block I/O *)
Definition read (offset : Z) (buf : bytes) : MW bytes :=
  s ← get;
  if is_none s then inner (read_at offset buf)
  else
    _ ← lift (check_range (capacity (wc_inner s)) offset (Zlen buf));
    chunk_loop (chunk_size (wc_inner s)) offset (Zlen buf)
      (λ abs chunk_idx within take done buf,
        _ ← yield;
        hit ← lookup chunk_idx;
        src ← match hit with
              | Some chunk => lift (slice chunk within (within + take))
              | None =>
                  _ ← yield;
                  dst ← lift (slice buf done (done + take));
                  inner (read_at abs dst)
              end;
        lift (copy_into buf done (done + take) src)) buf.

(** Storing one modified chunk, under the file lock. *)
Definition store_dirty (chunk_idx : Z) (chunk : bytes) : MW unit :=
  _ ← persist chunk_idx chunk;
  modify (λ s, with_dirty (Dirty.insert (wc_now s) chunk_idx chunk (wc_dirty s)) s).
Definition write_piece (data : bytes) (chunk_idx within take done : Z) : MW unit :=
  _ ← yield;
  chunk ← load_for_write chunk_idx;
  src ← lift (slice data done (done + take));
  chunk ← lift (copy_into chunk within (within + take) src);
  _ ← yield;
  store_dirty chunk_idx chunk.
Definition write (offset : Z) (data : bytes) : MW unit :=
  s ← get;
  if is_none s then inner (write_at offset data)
  else holding (
    _ ← lift (check_range (capacity (wc_inner s)) offset (Zlen data));
    _ ← chunk_loop (chunk_size (wc_inner s)) offset (Zlen data)
          (λ _ chunk_idx within take done _, write_piece data chunk_idx within take done) tt;
    evict_into_buffer).

Definition set_cap (n : Z) : MW unit := _ ← flush_all; inner (set_capacity n).

(** Append an index that is not in the list yet. *)
Definition push_new (idxs : list Z) (idx : Z) : list Z :=
  if bool_decide (idx ∈ idxs) then idxs else idxs ++ [idx].
Definition list_present : MW (list Z) :=
  idxs ← inner present_chunks;
  s ← get;
  if is_none s then mret idxs
  else
    _ ← yield;
    s ← get;
    let idxs := foldl push_new idxs (map_to_list (ds_chunks (wc_dirty s))).*1 in
    _ ← yield;
    s ← get;
    let idxs := foldl push_new idxs (map_to_list (queued s)).*1 in
    mret (sort_unstable idxs).

(** A job in flight is committed or given back within this many turns. *)
Definition remove_cached (index : Z) : MW unit :=
  _ ← yield;
  _ ← wait_until PARK_TURNS (λ s, negb (bool_decide (inflight s = Some index)));
  _ ← yield;
  _ ← modify (λ s, with_dirty (Dirty.remove index (wc_dirty s)) s);
  _ ← yield;
  modify (with_buffer (Buf.remove index)).
Definition delete (index : Z) : MW unit :=
  s ← get;
  if is_none s then inner (delete_chunk index)
  else
    _ ← remove_cached index;
    _ ← yield;
    _ ← remove_file index;
    _ ← yield;
    inner (delete_chunk index).

#[global] Instance write_back_store : BlockStore (Core S) := {
  Store.read_at := read;
  Store.write_at := write;
  Store.capacity := λ s, capacity (wc_inner s);
  Store.set_capacity := set_cap;
  Store.flush := flush_all;
  Store.block_size := λ s, block_size (wc_inner s);
  Store.chunk_size := λ s, chunk_size (wc_inner s);
  Store.present_chunks := list_present;
  Store.delete_chunk := delete
}.

(** [Drop]: a failing flush is only logged. *)
Definition drop : MW unit :=
  s ← get;
  if is_none s then mret tt else _ ← ignore flush_all; stop_worker.

(** ** Construction *)
Definition core_of (i : S) (mode : WriteCacheMode) (disk : option Fs) (d : DirtyState)
    (cache_max buffer_max now : Z) (sched : list (list Event)) : Core S :=
  {| wc_inner := i; wc_mode := mode; wc_disk := disk; wc_dirty := d; wc_cache_max := cache_max;
     wc_buffer := if (buffer_max >? 0) && negb (bool_decide (mode = WcNone))
                  then Some {| rt_max_bytes := buffer_max; rt_state := Buf.new |} else None;
     wc_ctl := new_ctl; wc_worker := WTop; wc_now := now; wc_sched := sched |}.

(** [wrap]; [disk] is the directory [write_cache.path] when configured. *)
Definition wrap `{StampJson} (i : S) (mode : WriteCacheMode) (disk : option Fs) (cache_max : Z)
    (buffer_max : Z) (volume : string) (now : Z) (sched : list (list Event))
    : outcome StoreError (Core S) :=
  d ← match mode with
      | WcNone | WcMemory => Ok (None, Dirty.new)
      | WcDisk =>
          match disk with
          | None => Err (OtherError "write_cache.mode=disk requires path")
          | Some fs =>
              let '(r, fs') := Recover.load_disk_cache volume (chunk_size i) fs in
              recovered ← r;
              Ok (Some fs', Dirty.from_recovered now recovered)
          end
      end;
  let s := core_of i mode d.1 d.2 cache_max buffer_max now sched in
  let '(r, s') := (match wc_buffer s with Some _ => evict_into_buffer | None => evict_direct end) s in
  _ ← r;
  Ok s'.
End ops.

(** [WriteCachedStore<CachedStore<S3ChunkStore>>]: the I/O lock. *)
Section lock.
Context {S : Type} `{BlockStore S}.
Definition lock_io : M (Core (CachedStore S)) StoreError unit :=
  _ ← ignore flush_all;
  modify (λ s, with_inner (Cached.lock_io (wc_inner s)) s).
Definition unlock_io : M (Core (CachedStore S)) StoreError unit :=
  modify (λ s, with_inner (Cached.unlock_io (wc_inner s)) s).
End lock.
End WC.
