(* ===== verification/WriteBackSpec.v ===== *)
(** * The write-back store: contents, invariant and the worker's turns

    The logical contents of a volume behind the write-back cache are the dirty
    table's chunk, else the queued chunk, else the inner store. No turn of the
    worker changes them, in any state of any operation. *)
From S2P Require Import Prelude Tables Text Store Ready Cache CachedStore WriteBuffer WriteCache WriteBack.
#[local] Open Scope string_scope.
#[local] Open Scope list_scope.
#[local] Open Scope Z_scope.

Module WCSpec.
Import WC.
Section spec.
Context {S : Type} `{ReadyLaws S}.
Implicit Types s : Core S.
Implicit Types i : S.

(** ** Contents *)
Definition cached_in (d : DirtyState) (q : gmap Z BufferedChunk) (idx : Z) : option bytes :=
  match Dirty.get idx d with Some x => Some x | None => bc_data <$> q !! idx end.
Definition cache_of s (idx : Z) : option bytes := cached_in (wc_dirty s) (queued s) idx.

Definition wc_shown s (a : Z) : byte :=
  let cs := chunk_size (wc_inner s) in
  match cache_of s (a / cs) with
  | Some d => nthb d (a mod cs)
  | None => shown (wc_inner s) a
  end.

(** ** Invariant *)

(** [d] is a whole chunk of the volume, zero beyond its end, and allowed. *)
Record fits i (idx : Z) (d : bytes) : Prop := {
  fit_idx : 0 ≤ idx;
  fit_range : idx * chunk_size i < capacity i;
  fit_len : Zlen d = chunk_size i;
  fit_tail : ∀ w, 0 ≤ w < chunk_size i → capacity i ≤ idx * chunk_size i + w → nthb d w = Byte.x00;
  fit_allowed : allowed S d
}.

Record dirty_ok i (d : DirtyState) : Prop := {
  dok_fits : map_Forall (λ idx c, fits i idx (dc_data c)) (ds_chunks d);
  dok_used : 0 ≤ ds_used_bytes d ≤ map_sum (λ c, Zlen (dc_data c)) (ds_chunks d);
  (** The counter is exact unless the volume is within a chunk of 2^64 bytes. *)
  dok_exact : capacity i + chunk_size i ≤ u64_max →
    ds_used_bytes d = map_sum (λ c, Zlen (dc_data c)) (ds_chunks d)
}.

Record buf_ok i (max : Z) (b : BufState) : Prop := {
  bok_fits : map_Forall (λ idx c, fits i idx (bc_data c)) (bs_chunks b);
  bok_used : 0 ≤ bs_used_bytes b ≤ map_sum (λ c, Zlen (bc_data c)) (bs_chunks b);
  bok_order : ∀ idx, idx ∈ bs_order b ↔ is_Some (bs_chunks b !! idx);
  bok_max : chunk_size i ≤ max
}.

(** The chunk files are exactly the cached chunks. *)
Definition durable (fs : Fs) (d : DirtyState) (q : gmap Z BufferedChunk) : Prop :=
  fs_faults fs = [] ∧
  ∀ idx, is_u64 idx → fs_files fs !! Disk.file_name idx = cached_in d q idx.

(** The worker holds [j]: it is queued and in flight. *)
Definition holds s (j : Job) : Prop :=
  inflight s = Some (job_idx j) ∧
  queued s !! job_idx j = Some {| bc_data := job_data j; bc_generation := job_generation j |}.
(** The inner store shows [d] as chunk [idx]. *)
Definition on_inner i (idx : Z) (d : bytes) : Prop :=
  ∀ w, 0 ≤ w < chunk_size i → shown i (idx * chunk_size i + w) = nthb d w.

Definition worker_ok s : Prop :=
  match wc_worker s with
  | WTaken j | WAborted j | WPut j => holds s j
  | WFinish j r => r = true ∧ holds s j ∧ on_inner (wc_inner s) (job_idx j) (job_data j)
  | WStopped => False
  | WTop | WParked | WScan | WDone | WHandoff => inflight s = None
  end ∧
  ctl_stop (wc_ctl s) = false ∧
  ctl_parked (wc_ctl s) = (match wc_worker s with WParked => true | _ => false end) ∧
  (wc_buffer s = None → wc_worker s = WTop).

Record data_ok s : Prop := {
  ok_inner : usable (wc_inner s);
  ok_mode : wc_mode s ≠ WcNone;
  ok_max : 0 ≤ wc_cache_max s;
  ok_dirty : dirty_ok (wc_inner s) (wc_dirty s);
  ok_buffer : ∀ rt, wc_buffer s = Some rt → buf_ok (wc_inner s) (rt_max_bytes rt) (rt_state rt);
  ok_disk : ∀ fs, wc_disk s = Some fs → durable fs (wc_dirty s) (queued s)
}.
Definition wc_ok s : Prop := data_ok s ∧ worker_ok s.

(** ** The directory

    Only chunk files and their temporary files come and go. *)
Definition same_dir (o o' : option Fs) : Prop :=
  match o, o' with
  | None, None => True
  | Some fs, Some fs' => fs_dir fs' = fs_dir fs ∧ ∀ name,
      fs_files fs' !! name = fs_files fs !! name ∨
      (∃ k, is_u64 k ∧ name = Disk.file_name k) ∨ ∃ k, name = Disk.tmp_name k
  | _, _ => False
  end.
#[global] Instance same_dir_preorder : PreOrder same_dir.
Proof.
  split.
  - intros [fs|]; simpl; [|done]. split; [done|]. by left.
  - intros [f1|] [f2|] [f3|]; simpl; try done. intros [Hd1 H1'] [Hd2 H2']. split; [congruence|].
    intros name. destruct (H1' name) as [<-|?]; [|by right]. apply H2'.
Qed.
Lemma same_dir_removed (o : option Fs) idx :
  is_u64 idx → same_dir o ((λ fs, Disk.with_files (base.delete (Disk.file_name idx) (fs_files fs)) fs) <$> o).
Proof.
  intros Hi. destruct o as [fs|]; simpl; [|done]. split; [done|]. intros name.
  destruct (decide (name = Disk.file_name idx)) as [->|Hne]; [by right; left; exists idx|left].
  by rewrite lookup_delete_ne.
Qed.
Lemma same_dir_persisted (o : option Fs) idx d :
  is_u64 idx → same_dir o ((λ fs, Disk.with_files (<[Disk.file_name idx := d]> (base.delete (Disk.tmp_name idx)
    (<[Disk.tmp_name idx := d]> (<[Disk.tmp_name idx := []]> (fs_files fs))))) fs) <$> o).
Proof.
  intros Hi. destruct o as [fs|]; simpl; [|done]. split; [done|]. intros name.
  destruct (decide (name = Disk.file_name idx)) as [->|Hne]; [by right; left; exists idx|].
  destruct (decide (name = Disk.tmp_name idx)) as [->|Hne']; [by right; right; exists idx|left].
  by rewrite lookup_insert_ne, lookup_delete_ne, !lookup_insert_ne.
Qed.

(** ** What the worker may change *)
Record settled s s' : Prop := {
  st_sizes : same_sizes (wc_inner s) (wc_inner s');
  st_mode : wc_mode s' = wc_mode s;
  st_max : wc_cache_max s' = wc_cache_max s;
  st_shown : ∀ a, 0 ≤ a → wc_shown s' a = wc_shown s a;
  st_dirty : ds_chunks (wc_dirty s') ⊆ ds_chunks (wc_dirty s);
  st_uncached : ∀ idx, cache_of s idx = None → cache_of s' idx = None;
  st_pause : ctl_pause (wc_ctl s') = ctl_pause (wc_ctl s);
  st_exclusive : ctl_exclusive (wc_ctl s') = ctl_exclusive (wc_ctl s);
  st_writers : ctl_writers (wc_ctl s') = ctl_writers (wc_ctl s);
  st_buffer : rt_max_bytes <$> wc_buffer s' = rt_max_bytes <$> wc_buffer s;
  st_disk : same_dir (wc_disk s) (wc_disk s');
  st_sched : wc_sched s = [] → wc_sched s' = []
}.
#[global] Instance settled_preorder : PreOrder settled.
Proof.
  split; [by constructor|]. intros s1 s2 s3 [Hz Hm Hx Hs Hd Hu Hp He Hw Hb Hk Hc]
    [Hz' Hm' Hx' Hs' Hd' Hu' Hp' He' Hw' Hb' Hk' Hc']. constructor; try congruence.
  - by etrans.
  - intros a Ha. by rewrite Hs', Hs.
  - by etrans.
  - auto.
  - by etrans.
  - auto.
Qed.

(** What every step, of the foreground too, leaves alone. *)
Record framed s s' : Prop := {
  fr_sizes : same_sizes (wc_inner s) (wc_inner s');
  fr_mode : wc_mode s' = wc_mode s;
  fr_max : wc_cache_max s' = wc_cache_max s;
  fr_pause : ctl_pause (wc_ctl s') = ctl_pause (wc_ctl s);
  fr_exclusive : ctl_exclusive (wc_ctl s') = ctl_exclusive (wc_ctl s);
  fr_writers : ctl_writers (wc_ctl s') = ctl_writers (wc_ctl s);
  fr_buffer : rt_max_bytes <$> wc_buffer s' = rt_max_bytes <$> wc_buffer s;
  fr_disk : same_dir (wc_disk s) (wc_disk s');
  fr_sched : wc_sched s = [] → wc_sched s' = []
}.
#[global] Instance framed_preorder : PreOrder framed.
Proof.
  split; [by constructor|]. intros s1 s2 s3 [Hz Hm Hx Hp He Hw Hb Hk Hc]
    [Hz' Hm' Hx' Hp' He' Hw' Hb' Hk' Hc']. constructor; try congruence; [by etrans|by etrans|auto].
Qed.
Lemma settled_framed s s' : settled s s' → framed s s'.
Proof. intros []. by constructor. Qed.

(** ** Lemmas about the tables *)
Lemma get_insert now idx d x k :
  Dirty.get k (Dirty.insert now idx d x) = if decide (k = idx) then Some d else Dirty.get k x.
Proof.
  unfold Dirty.get, Dirty.insert. simpl. case_decide as Hk; [subst; by rewrite lookup_insert_eq|].
  by rewrite lookup_insert_ne.
Qed.
Lemma get_remove idx x k :
  Dirty.get k (Dirty.remove idx x) = if decide (k = idx) then None else Dirty.get k x.
Proof.
  unfold Dirty.get, Dirty.remove. destruct (ds_chunks x !! idx) as [e|] eqn:He; simpl.
  - case_decide as Hk; [subst; by rewrite lookup_delete_eq|]. by rewrite lookup_delete_ne.
  - case_decide as Hk; [subst; by rewrite He|done].
Qed.

Lemma elem_retain k idx l : k ∈ Buf.retain_ne idx l ↔ k ≠ idx ∧ k ∈ l.
Proof. unfold Buf.retain_ne. by rewrite list_elem_of_filter. Qed.

(** A table of whole chunks cannot overflow its counter. *)
Lemma chunk_total {V} (f : V → Z) i (m : gmap Z V) :
  usable i → capacity i + chunk_size i ≤ u64_max →
  map_Forall (λ idx v, 0 ≤ idx ∧ idx * chunk_size i < capacity i ∧ f v = chunk_size i) m →
  0 ≤ map_sum f m ≤ u64_max.
Proof.
  intros Hu Hroom Hm. destruct (rs_geometry i Hu) as (_ & Hcs & Hcap).
  rewrite (map_sum_const f m (chunk_size i)).
  2: { intros k v Hv. by apply Hm in Hv as (_ & _ & ?). }
  set (n := (capacity i + chunk_size i - 1) / chunk_size i).
  assert (Hn : n * chunk_size i ≤ capacity i + chunk_size i).
  { unfold n. pose proof (Z.mul_div_le (capacity i + chunk_size i - 1) (chunk_size i)). lia. }
  assert (Hlt : ∀ k, k * chunk_size i < capacity i → k < n).
  { intros k Hk. unfold n. apply Z.lt_le_trans with (k + 1); [lia|].
    apply Z.div_le_lower_bound; [lia|]. lia. }
  assert (Hsz : Z.of_nat (size m) ≤ n).
  { apply index_count.
    - unfold n. apply Z.div_pos; unfold is_u64 in *; lia.
    - intros k v Hv. apply Hm in Hv as (? & ? & _). split; [done|by apply Hlt]. }
  nia.
Qed.

Lemma dirty_fits_total i d :
  usable i → capacity i + chunk_size i ≤ u64_max →
  map_Forall (λ idx c, fits i idx (dc_data c)) (ds_chunks d) →
  0 ≤ map_sum (λ c, Zlen (dc_data c)) (ds_chunks d) ≤ u64_max.
Proof. intros Hu Hr Hf. eapply chunk_total; [done|done|]. by intros k v [? ? ? _]%Hf. Qed.

(** The two updates of a counter. *)
Lemma counter_remove {V} (f : V → Z) (m : gmap Z V) idx v used :
  (∀ v, 0 ≤ f v) → m !! idx = Some v → 0 ≤ used ≤ map_sum f m →
  0 ≤ saturating_sub used (f v) ≤ map_sum f (base.delete idx m) ∧
  (used = map_sum f m → saturating_sub used (f v) = map_sum f (base.delete idx m)).
Proof.
  intros Hf Hv Hu. pose proof (map_sum_nonneg f (base.delete idx m) Hf) as Hnn.
  rewrite (map_sum_delete _ _ _ _ Hv) in *. unfold saturating_sub. lia.
Qed.
Lemma counter_add {V} (f : V → Z) (m : gmap Z V) idx v used :
  0 ≤ f v → m !! idx = None → 0 ≤ used ≤ map_sum f m →
  0 ≤ saturating_add64 used (f v) ≤ map_sum f (<[idx := v]> m) ∧
  (map_sum f (<[idx := v]> m) ≤ u64_max → used = map_sum f m →
   saturating_add64 used (f v) = map_sum f (<[idx := v]> m)).
Proof.
  intros Hf Hv Hu. rewrite map_sum_insert by done. unfold saturating_add64, u64_max. lia.
Qed.

Lemma dirty_insert_ok i now idx d x :
  usable i → fits i idx d → dirty_ok i x → dirty_ok i (Dirty.insert now idx d x).
Proof.
  intros Hu Hfit [Hf Hused Hex]. set (c := {| dc_data := d; dc_tick := wrapping_add64 (ds_tick x) 1; dc_written_at := now |}).
  set (f := λ c, Zlen (dc_data c)) in *. assert (Hfn : ∀ c, 0 ≤ f c) by (intros; apply Zlen_nonneg).
  assert (Hf' : map_Forall (λ idx c, fits i idx (dc_data c)) (ds_chunks (Dirty.insert now idx d x))).
  { simpl. apply map_Forall_insert_2; done. }
  set (used := match ds_chunks x !! idx with
    | Some old => saturating_sub (ds_used_bytes x) (f old) | None => ds_used_bytes x end).
  assert (Hrem : 0 ≤ used ≤ map_sum f (base.delete idx (ds_chunks x)) ∧
    (ds_used_bytes x = map_sum f (ds_chunks x) → used = map_sum f (base.delete idx (ds_chunks x)))).
  { unfold used. destruct (ds_chunks x !! idx) as [old|] eqn:Ho; [by apply counter_remove|].
    by rewrite delete_id. }
  destruct (counter_add f (base.delete idx (ds_chunks x)) idx c used (Hfn c)
    (lookup_delete_eq _ _) (proj1 Hrem)) as [Hle Heq].
  rewrite insert_delete_eq in Hle, Heq. constructor; [done|exact Hle|].
  intros Hroom. apply Heq; [|by apply Hrem, Hex].
  by apply (dirty_fits_total i (Dirty.insert now idx d x) Hu Hroom Hf').
Qed.

Lemma dirty_remove_ok i idx x : dirty_ok i x → dirty_ok i (Dirty.remove idx x).
Proof.
  intros [Hf Hused Hex]. unfold Dirty.remove. destruct (ds_chunks x !! idx) as [e|] eqn:He; [|done].
  destruct (counter_remove (λ c, Zlen (dc_data c)) (ds_chunks x) idx e (ds_used_bytes x)
    (λ c, Zlen_nonneg _) He Hused) as [Hle Heq].
  constructor; simpl; [by apply map_Forall_delete|done|auto].
Qed.

Lemma buf_push_ok i max idx d g b :
  fits i idx d → bs_chunks b !! idx = None → buf_ok i max b → buf_ok i max (Buf.push idx d g b).
Proof.
  intros Hfit Hnew [Hf Hused Hord Hmax]. unfold Buf.push. rewrite Hnew.
  set (c := {| bc_data := d; bc_generation := g |}).
  destruct (counter_add (λ c, Zlen (bc_data c)) (bs_chunks b) idx c (bs_used_bytes b)
    (Zlen_nonneg _) Hnew Hused) as [Hle _].
  constructor; simpl; [by apply map_Forall_insert_2|exact Hle| |done].
  intros k. rewrite elem_of_app, Hord, list_elem_of_singleton, lookup_insert_is_Some'. naive_solver.
Qed.

Lemma buf_remove_ok i max idx b : buf_ok i max b → buf_ok i max (Buf.remove idx b).
Proof.
  intros [Hf Hused Hord Hmax]. unfold Buf.remove. destruct (bs_chunks b !! idx) as [e|] eqn:He; [|done].
  destruct (counter_remove (λ c, Zlen (bc_data c)) (bs_chunks b) idx e (bs_used_bytes b)
    (λ c, Zlen_nonneg _) He Hused) as [Hle _].
  constructor; simpl; [by apply map_Forall_delete|done| |done].
  intros k. rewrite elem_retain, Hord, lookup_delete_is_Some. naive_solver.
Qed.

(** The tables depend on the inner store through its sizes only. *)
Section shape.
Context (i i' : S) (Hcs : chunk_size i' = chunk_size i) (Hcap : capacity i' = capacity i).
Lemma fits_shape idx d : fits i idx d → fits i' idx d.
Proof. intros []. constructor; rewrite ?Hcs, ?Hcap; auto. Qed.
Lemma dirty_ok_shape x : dirty_ok i x → dirty_ok i' x.
Proof.
  intros [Hf Hu Hx]. constructor; [|done|by rewrite Hcs, Hcap].
  intros k v Hv. apply fits_shape. by apply Hf.
Qed.
Lemma buf_ok_shape max b : buf_ok i max b → buf_ok i' max b.
Proof.
  intros [Hf Hu Ho Hm]. constructor; [|done|done|by rewrite Hcs].
  intros k v Hv. apply fits_shape. by apply Hf.
Qed.
End shape.
Lemma fits_sizes i i' idx d : same_sizes i i' → fits i idx d → fits i' idx d.
Proof. intros []. by apply fits_shape. Qed.
Lemma dirty_ok_sizes i i' x : same_sizes i i' → dirty_ok i x → dirty_ok i' x.
Proof. intros []. by apply dirty_ok_shape. Qed.
Lemma buf_ok_sizes i i' max b : same_sizes i i' → buf_ok i max b → buf_ok i' max b.
Proof. intros []. by apply buf_ok_shape. Qed.
End spec.
End WCSpec.
