(* ===== verification/WriteBackWorker.v ===== *)
(** * The write-back store: the worker keeps the contents

    Every turn of the worker keeps the invariant and the logical contents, and
    the turns it takes to empty the queue are bounded. *)
From S2P Require Import Prelude Tables Text Store Ready Cache CachedStore WriteBuffer WriteCache WriteBack.
From S2P Require Import WriteBackSpec.
#[local] Open Scope string_scope.
#[local] Open Scope list_scope.
#[local] Open Scope Z_scope.

Module WCWorker.
Import WC WCSpec.
Section spec.
Context {S : Type} `{ReadyLaws S}.
Implicit Types s : Core S.
Implicit Types i : S.

Lemma wp_wc_inner {A} (m : M S StoreError A) Q R s :
  wp m (λ a i, Q a (with_inner i s)) (λ e i, R e (with_inner i s)) (wc_inner s) →
  wp (inner m) Q R s.
Proof. apply wp_zoom. Qed.

(** ** Writing a whole chunk to the inner store *)
Definition chunk_written i i' (idx : Z) (d : bytes) : Prop :=
  ∀ a, 0 ≤ a → shown i' a =
    if decide (a / chunk_size i = idx) then nthb d (a mod chunk_size i) else shown i a.

Lemma chunk_written_of i i' idx d valid :
  usable i → usable i' → same_sizes i i' → fits i idx d →
  valid = Z.min (capacity i - idx * chunk_size i) (chunk_size i) →
  (∀ a, 0 ≤ a → shown i' a = overwritten (shown i) (idx * chunk_size i) (sub d 0 valid) a) →
  chunk_written i i' idx d.
Proof.
  intros Hu Hu' Hs [Hi0 Hlt Hl Ht _] -> Hw a Ha. set (cs := chunk_size i) in *.
  destruct (rs_geometry i Hu) as (_ & Hcs & _). fold cs in Hcs.
  assert (Hcs0 : cs ≠ 0) by lia. pose proof (Z.div_mod a cs Hcs0) as Hdm.
  pose proof (Z.mod_pos_bound a cs (proj1 Hcs)) as Hm.
  rewrite Hw by done. unfold overwritten. rewrite Zlen_sub by lia.
  case_decide as Hin; case_decide as Hd.
  - rewrite nthb_sub by lia. f_equal. nia.
  - destruct Hd. symmetry. apply Z.div_unique with (a - idx * cs); lia.
  - assert (Hge : capacity i ≤ a) by nia. rewrite rs_tail by done.
    symmetry. apply Ht; [lia|]. nia.
  - done.
Qed.

(** The chunks of the inner store stay allowed. *)
Lemma chunk_permitted i idx d valid :
  usable i → fits i idx d → valid = Z.min (capacity i - idx * chunk_size i) (chunk_size i) →
  permitted i (idx * chunk_size i) (sub d 0 valid).
Proof.
  intros Hu [Hi0 Hlt Hl Ht Ha] ->. destruct (rs_geometry i Hu) as (_ & Hcs & _).
  apply (permitted_one i idx); [done|lia|rewrite Zlen_sub; lia|].
  rewrite (chunk_at_bytes _ _ _ d); [done|done|]. intros w Hw. unfold overwritten.
  rewrite Zlen_sub by lia. case_decide; [rewrite nthb_sub by lia; f_equal; lia|].
  rewrite rs_tail by (done || lia). symmetry. apply Ht; lia.
Qed.

Lemma write_inner_spec s idx d :
  usable (wc_inner s) → fits (wc_inner s) idx d →
  wp (write_inner idx d)
    (λ _ s', ∃ i', s' = with_inner i' s ∧ usable i' ∧ same_sizes (wc_inner s) i' ∧
       chunk_written (wc_inner s) i' idx d) (λ _ _, False) s.
Proof.
  intros Hu Hf. destruct (rs_geometry _ Hu) as (_ & Hcs & Hcap). unfold is_u64 in Hcap.
  pose proof Hf as [Hi0 Hlt Hl _ _]. unfold write_inner. wp_steps.
  assert (Hoff : saturating_mul64 idx (chunk_size (wc_inner s)) = idx * chunk_size (wc_inner s))
    by (unfold saturating_mul64; lia).
  rewrite Hoff. destruct (Z.ltb_spec (idx * chunk_size (wc_inner s)) (capacity (wc_inner s))); [|lia].
  rewrite Hl. set (valid := Z.min _ _). wp_step. apply wp_slice; [lia|lia|].
  rewrite Z.sub_0_r. apply wp_wc_inner.
  assert (Hz : Zlen (sub d 0 valid) = valid) by (rewrite Zlen_sub; lia).
  eapply wp_mono; [apply rs_write; [done|nia|by apply chunk_permitted]|..].
  - intros [] i' (Hu' & Hs & _ & Hw). exists i'. split; [done|]. split; [done|]. split; [done|].
    by apply (chunk_written_of _ _ _ _ valid).
  - intros e i' (_ & Hbad & _). rewrite Hz in Hbad. lia.
Qed.

Lemma data_ok_inner s i' :
  usable i' → same_sizes (wc_inner s) i' → data_ok s → data_ok (with_inner i' s).
Proof.
  intros Hu Hs []. constructor; simpl; try done.
  - by eapply dirty_ok_sizes.
  - intros rt Hrt. eapply buf_ok_sizes; eauto.
Qed.

(** Writing a cached chunk through changes nothing that is shown. *)
Lemma shown_write_through s i' idx d x :
  usable (wc_inner s) → same_sizes (wc_inner s) i' → chunk_written (wc_inner s) i' idx x →
  cache_of s idx = Some d →
  ∀ a, 0 ≤ a → wc_shown (with_inner i' s) a = wc_shown s a.
Proof.
  intros Hu Hs Hw Hc a Ha. unfold wc_shown. simpl. rewrite (ss_chunk _ _ Hs).
  change (cache_of (with_inner i' s)) with (cache_of s).
  destruct (cache_of s (a / chunk_size (wc_inner s))) as [d'|] eqn:Hc'; [done|].
  rewrite Hw by done. rewrite decide_False by congruence. done.
Qed.

Lemma chunk_written_on i i' idx d :
  usable i → same_sizes i i' → fits i idx d → chunk_written i i' idx d → on_inner i' idx d.
Proof.
  intros Hu Hs Hf Hw w Hw'. rewrite (ss_chunk _ _ Hs) in *. destruct Hf as [Hi0 _ _ _].
  rewrite Hw by nia. by rewrite decide_True, addr_mod by (rewrite ?addr_div; lia).
Qed.

(** ** Moving a chunk to the queue *)
Lemma queued_with_buffer s f :
  queued (with_buffer f s) =
    match wc_buffer s with Some rt => bs_chunks (f (rt_state rt)) | None => ∅ end.
Proof. unfold queued. simpl. by destruct (wc_buffer s). Qed.
Lemma inflight_with_buffer s f :
  inflight (with_buffer f s) =
    match wc_buffer s with Some rt => bs_inflight (f (rt_state rt)) | None => None end.
Proof. unfold inflight. simpl. by destruct (wc_buffer s). Qed.

(** Equal caches and equal inner stores: nothing is shown differently. *)
Lemma settled_tables s s' :
  wc_inner s' = wc_inner s → wc_mode s' = wc_mode s → wc_cache_max s' = wc_cache_max s →
  wc_ctl s' = wc_ctl s → same_dir (wc_disk s) (wc_disk s') → wc_sched s' = wc_sched s →
  rt_max_bytes <$> wc_buffer s' = rt_max_bytes <$> wc_buffer s →
  ds_chunks (wc_dirty s') ⊆ ds_chunks (wc_dirty s) →
  (∀ idx, cache_of s' idx = cache_of s idx) → settled s s'.
Proof.
  intros Hi Hm Hx Hc Hdk Hsc Hb Hd Hk. constructor; rewrite ?Hi, ?Hc, ?Hsc; try done.
  - intros a _. unfold wc_shown. by rewrite Hi, Hk.
  - intros idx. by rewrite Hk.
Qed.

Definition moved s (idx : Z) (c : DirtyChunk) : Core S :=
  with_buffer (Buf.push idx (dc_data c) (dc_tick c)) (with_dirty (Dirty.remove idx (wc_dirty s)) s).

Lemma moved_cache s idx rt c k :
  wc_buffer s = Some rt → ds_chunks (wc_dirty s) !! idx = Some c → queued s !! idx = None →
  cache_of (moved s idx c) k = cache_of s k.
Proof.
  intros Hb Hc Hq. unfold cache_of, cached_in, moved.
  rewrite queued_with_buffer. simpl. rewrite Hb, get_remove.
  assert (Hq' : queued s = bs_chunks (rt_state rt)) by (unfold queued; by rewrite Hb).
  rewrite Hq' in *. unfold Buf.push. rewrite Hq. simpl. case_decide as Hk.
  - subst k. unfold Dirty.get. rewrite Hc. simpl. by rewrite lookup_insert_eq.
  - by rewrite lookup_insert_ne.
Qed.

Lemma moved_ok s idx rt c :
  data_ok s → wc_buffer s = Some rt → ds_chunks (wc_dirty s) !! idx = Some c →
  queued s !! idx = None → data_ok (moved s idx c).
Proof.
  intros [Hu Hm Hx Hd Hbuf Hdk] Hb Hc Hq.
  assert (Hq' : bs_chunks (rt_state rt) !! idx = None) by (unfold queued in Hq; by rewrite Hb in Hq).
  constructor; simpl; try done.
  - by apply dirty_remove_ok.
  - rewrite Hb. intros rt' [= <-]. simpl. apply buf_push_ok; [|done|by apply Hbuf].
    by apply (dok_fits _ _ Hd) in Hc.
  - intros fs Hfs. destruct (Hdk fs Hfs) as [Hf Hall]. split; [done|].
    intros k Hk. rewrite Hall by done. symmetry. by apply (moved_cache s idx rt c k).
Qed.

(** What [hand_over] does: nothing, or the move. *)
Lemma hand_over_cases s idx rt :
  wc_buffer s = Some rt →
  hand_over idx s = (Ok false, s) ∧
    (queued s = ∅ → inflight s = None → ∀ c, ds_chunks (wc_dirty s) !! idx = Some c →
       rt_max_bytes rt < Z.min u64_max (bs_used_bytes (rt_state rt) + Zlen (dc_data c))) ∨
  ∃ c, ds_chunks (wc_dirty s) !! idx = Some c ∧ queued s !! idx = None ∧
    inflight s ≠ Some idx ∧ hand_over idx s = (Ok true, moved s idx c).
Proof.
  intros Hb. unfold hand_over, mbind, M_bind, get, queued, inflight. rewrite Hb.
  destruct (bool_decide_reflect (bs_inflight (rt_state rt) = Some idx)) as [Hi|Hi]; simpl.
  { left. split; [done|]. congruence. }
  destruct (bool_decide_reflect (is_Some (bs_chunks (rt_state rt) !! idx))) as [Hs|Hs]; simpl.
  { left. split; [done|]. intros He. rewrite He in Hs. by destruct Hs. }
  destruct (Z.gtb_spec (saturating_add64 (bs_used_bytes (rt_state rt))
    match ds_chunks (wc_dirty s) !! idx with Some c => Zlen (dc_data c) | None => 0 end)
    (rt_max_bytes rt)) as [Hgt|Hle].
  { left. split; [done|]. intros _ _ c Hc. rewrite Hc in Hgt. unfold saturating_add64 in Hgt. lia. }
  unfold Dirty.get. destruct (ds_chunks (wc_dirty s) !! idx) as [c|] eqn:Hc; simpl.
  - right. exists c. split; [done|]. split; [by apply eq_None_not_Some|]. split; [done|].
    done.
  - left. split; [done|]. congruence.
Qed.

(** Worker states that survive a move of another chunk. *)
Lemma holds_moved s idx rt c j :
  wc_buffer s = Some rt → queued s !! idx = None → holds s j → holds (moved s idx c) j.
Proof.
  intros Hb Hq [Hi Hl]. unfold holds, moved.
  rewrite queued_with_buffer, inflight_with_buffer. simpl. unfold queued, inflight in *.
  rewrite Hb in *. unfold Buf.push. rewrite Hq. simpl. split; [done|].
  rewrite lookup_insert_ne; [done|]. intros ->. congruence.
Qed.

Lemma moved_wc_ok s idx rt c :
  wc_ok s → wc_buffer s = Some rt → ds_chunks (wc_dirty s) !! idx = Some c →
  queued s !! idx = None → wc_ok (moved s idx c) ∧ settled s (moved s idx c).
Proof.
  intros [Hok (Hw & Hst & Hpk & Hnb)] Hb Hc Hq. split.
  - split; [by apply (moved_ok s idx rt c)|]. split; [|split; [done|split; [done|]]].
    + assert (Hin : inflight (moved s idx c) = inflight s).
      { unfold moved. rewrite inflight_with_buffer. simpl. unfold inflight, queued in *. rewrite Hb in *.
        unfold Buf.push. by rewrite Hq. }
      cbn [wc_worker moved with_buffer with_dirty]. destruct (wc_worker s); rewrite ?Hin; try done;
        try (by apply (holds_moved s idx rt c)). destruct Hw as (? & ? & ?).
      split; [done|]. split; [by apply (holds_moved s idx rt c)|done].
    + simpl. rewrite Hb. done.
  - apply settled_tables; try done.
    + simpl. rewrite Hb. done.
    + simpl. unfold Dirty.remove. rewrite Hc. simpl. apply delete_subseteq.
    + intros k. by apply (moved_cache s idx rt c).
Qed.
(** ** Chunk files *)
Lemma file_name_inj j k : is_u64 j → is_u64 k → Disk.file_name j = Disk.file_name k → j = k.
Proof. unfold is_u64, u64_max. intros Hj Hk. apply Text.hex_fixed_inj; [lia|simpl; lia..]. Qed.
Lemma tmp_not_file j k : Disk.tmp_name j ≠ Disk.file_name k.
Proof.
  intros Heq. apply (f_equal String.length) in Heq. unfold Disk.tmp_name, Disk.file_name in Heq.
  rewrite Text.str_length_app, !Text.hex_fixed_length in Heq. simpl in Heq. lia.
Qed.

Definition no_fault s : Prop := ∀ fs, wc_disk s = Some fs → fs_faults fs = [].
Definition on_files (f : gmap string bytes → gmap string bytes) s : Core S :=
  with_disk ((λ fs, Disk.with_files (f (fs_files fs)) fs) <$> wc_disk s) s.

Lemma remove_file_run s idx :
  no_fault s → remove_file idx s = (Ok tt, on_files (base.delete (Disk.file_name idx)) s).
Proof.
  intros Hnf. unfold remove_file, on_disk, on_files.
  destruct (wc_disk s) as [[dir files faults]|] eqn:Hd.
  - specialize (Hnf _ Hd). simpl in Hnf. subst faults. done.
  - destruct s; simpl in *. by subst.
Qed.

Lemma persist_run s idx data :
  no_fault s → persist idx data s =
    (Ok tt, on_files (λ m, <[Disk.file_name idx := data]> (base.delete (Disk.tmp_name idx)
              (<[Disk.tmp_name idx := data]> (<[Disk.tmp_name idx := []]> m)))) s).
Proof.
  intros Hnf. unfold persist, on_disk, on_files.
  destruct (wc_disk s) as [[dir files faults]|] eqn:Hd.
  - specialize (Hnf _ Hd). simpl in Hnf. subst faults.
    cbv [Disk.write_chunk_file mbind M_bind get Disk.other map_err Disk.create_dir_all Disk.create
      Disk.write_all Disk.sync_all Disk.rename Disk.syscall fs_faults fs_dir fs_files tail id].
    by rewrite lookup_insert_eq.
  - destruct s; simpl in *. by subst.
Qed.

Lemma data_ok_no_fault s : data_ok s → no_fault s.
Proof. intros Hok fs Hfs. apply (ok_disk _ Hok fs Hfs). Qed.

Lemma fits_u64 i idx d : usable i → fits i idx d → is_u64 idx.
Proof.
  intros Hu [Hi0 Hlt _ _]. destruct (rs_geometry i Hu) as (_ & Hcs & Hcap). unfold is_u64 in *. nia.
Qed.

(** ** Committing a put *)
Definition committed s (j : Job) : Core S :=
  with_buffer (λ b, Buf.remove (job_idx j) (Buf.set_inflight None b)) s.

Lemma commit_put_run s j :
  holds s j → no_fault s →
  commit_put j true s =
    (Ok tt, if decide (is_Some (ds_chunks (wc_dirty s) !! job_idx j)) then committed s j
            else on_files (base.delete (Disk.file_name (job_idx j))) (committed s j)).
Proof.
  intros [Hi Hq] Hnf. unfold commit_put, mbind, M_bind, modify, get. simpl.
  assert (Hb : with_buffer (λ b, if bool_decide (bc_generation <$>
      bs_chunks (Buf.clear_inflight (job_idx j) b) !! job_idx j = Some (job_generation j))
      then Buf.remove (job_idx j) (Buf.clear_inflight (job_idx j) b)
      else Buf.clear_inflight (job_idx j) b) s = committed s j).
  { unfold committed, with_buffer. unfold inflight, queued in *.
    destruct (wc_buffer s) as [rt|] eqn:Hbuf; [|done]. f_equal. simpl. do 2 f_equal.
    unfold Buf.clear_inflight. rewrite decide_True by done. simpl.
    rewrite Hq. simpl. by rewrite bool_decide_true. }
  rewrite Hb. case_decide as Hd.
  - by rewrite bool_decide_true.
  - rewrite bool_decide_false by done. simpl. by apply remove_file_run.
Qed.

Lemma committed_tables s j rt :
  wc_buffer s = Some rt → holds s j →
  queued (committed s j) = base.delete (job_idx j) (queued s) ∧ inflight (committed s j) = None.
Proof.
  intros Hb [Hi Hq]. unfold committed. rewrite queued_with_buffer, inflight_with_buffer, Hb.
  unfold queued in *. rewrite Hb in *. unfold Buf.remove. simpl. by rewrite Hq.
Qed.

Lemma committed_cache s j rt k :
  wc_buffer s = Some rt → holds s j →
  cache_of (committed s j) k =
    if decide (k = job_idx j) then Dirty.get k (wc_dirty s) else cache_of s k.
Proof.
  intros Hb Hh. destruct (committed_tables s j rt Hb Hh) as [Hq _].
  unfold cache_of, cached_in. rewrite Hq. simpl.
  case_decide as Hk; [|by rewrite lookup_delete_ne]. subst k. rewrite lookup_delete_eq.
  by destruct (Dirty.get _ _).
Qed.

(** ** The turn as a whole *)

(** Only the control block and the program counter change. *)
Definition steered (f : Ctl → Ctl) (w : Worker) s : Core S := with_worker w (with_ctl f s).
Lemma steered_ok s f w : data_ok s → data_ok (steered f w s).
Proof. by intros []. Qed.
Lemma steered_settled s f w :
  ctl_pause (f (wc_ctl s)) = ctl_pause (wc_ctl s) →
  ctl_exclusive (f (wc_ctl s)) = ctl_exclusive (wc_ctl s) →
  ctl_writers (f (wc_ctl s)) = ctl_writers (wc_ctl s) → settled s (steered f w s).
Proof. by constructor. Qed.

Lemma job_fits s j rt :
  data_ok s → wc_buffer s = Some rt → holds s j → fits (wc_inner s) (job_idx j) (job_data j).
Proof.
  intros Hok Hb [_ Hq]. unfold queued in Hq. rewrite Hb in Hq.
  by apply (bok_fits _ _ _ (ok_buffer _ Hok rt Hb)) in Hq.
Qed.

Lemma on_files_cache f s k : cache_of (on_files f s) k = cache_of s k.
Proof. done. Qed.

(** After the put, dropping the queued copy shows the same bytes. *)
Lemma committed_shown s j rt a :
  data_ok s → wc_buffer s = Some rt → holds s j → on_inner (wc_inner s) (job_idx j) (job_data j) →
  0 ≤ a → wc_shown (committed s j) a = wc_shown s a.
Proof.
  intros Hok Hb Hh Hon Ha. unfold wc_shown. simpl. rewrite (committed_cache s j rt) by done.
  case_decide as Hk; [|done]. unfold cache_of, cached_in. rewrite <-Hk in *.
  destruct (Dirty.get _ _); [done|]. destruct Hh as [_ Hq]. rewrite <-Hk in Hq. rewrite Hq. simpl.
  destruct (rs_geometry _ (ok_inner _ Hok)) as (_ & Hcs & _).
  pose proof (Z.mod_pos_bound a _ (proj1 Hcs)). rewrite <-Hon by done. f_equal.
  pose proof (Z.div_mod a (chunk_size (wc_inner s))). lia.
Qed.

Lemma commit_ok s j rt :
  data_ok s → wc_buffer s = Some rt → holds s j → on_inner (wc_inner s) (job_idx j) (job_data j) →
  ∃ s', commit_put j true s = (Ok tt, s') ∧ data_ok s' ∧ settled s s' ∧
    wc_ctl s' = wc_ctl s ∧ wc_dirty s' = wc_dirty s ∧ inflight s' = None ∧
    wc_buffer s' = wc_buffer (committed s j) ∧ queued s' = base.delete (job_idx j) (queued s).
Proof.
  intros Hok Hb Hh Hon. destruct (committed_tables s j rt Hb Hh) as [Hq Hi].
  pose proof (fits_u64 _ _ _ (ok_inner _ Hok) (job_fits s j rt Hok Hb Hh)) as Hu64.
  rewrite commit_put_run by (done || by apply data_ok_no_fault). eexists. split; [done|].
  assert (Hset : settled s (committed s j)).
  { constructor; try done.
    - intros a Ha. by apply (committed_shown s j rt).
    - intros k Hk. rewrite (committed_cache s j rt) by done. case_decide; [|done].
      unfold cache_of, cached_in in Hk. by destruct (Dirty.get k (wc_dirty s)).
    - simpl. by rewrite Hb. }
  assert (Hbuf : ∀ rt', wc_buffer (committed s j) = Some rt' →
    buf_ok (wc_inner s) (rt_max_bytes rt') (rt_state rt')).
  { simpl. rewrite Hb. intros rt' [= <-]. simpl. apply buf_remove_ok.
    by destruct (ok_buffer _ Hok rt Hb). }
  destruct Hok as [Hu Hm Hx Hd _ Hdk]. case_decide as Hc.
  - split; [|done]. constructor; try done.
    intros fs Hfs. destruct (Hdk fs Hfs) as [Hf Hall]. split; [done|].
    intros k Hk. rewrite Hall by done. symmetry.
    change (cache_of (committed s j) k = cache_of s k). rewrite (committed_cache s j rt) by done.
    case_decide as Hkj; [|done]. subst k. unfold cache_of, cached_in, Dirty.get.
    destruct Hc as [c ->]. done.
  - split; [|split; [|done]].
    + constructor; try done. simpl. destruct (wc_disk s) as [fs|] eqn:Hfs; [|done].
      intros fs' [= <-]. destruct (Hdk fs eq_refl) as [Hf Hall]. split; [done|].
      intros k Hk. simpl.
      change (base.delete (Disk.file_name (job_idx j)) (fs_files fs) !! Disk.file_name k =
        cache_of (committed s j) k). rewrite (committed_cache s j rt) by done.
      case_decide as Hkj.
      * subst k. rewrite lookup_delete_eq. unfold Dirty.get.
        destruct (ds_chunks (wc_dirty s) !! job_idx j); [by destruct Hc|done].
      * rewrite lookup_delete_ne; [by apply Hall|]. intros Heq. by apply file_name_inj in Heq.
    + destruct Hset. constructor; try done. simpl. by apply same_dir_removed.
Qed.

(** Turns until the worker parks; until the job in flight is settled. *)
Definition park_rank (w : Worker) : nat :=
  match w with
  | WParked | WStopped => 0 | WTop => 1 | WAborted _ | WDone | WHandoff => 2
  | WFinish _ _ | WTaken _ => 3 | WPut _ | WScan => 4
  end.
Definition flight_rank (w : Worker) : nat :=
  match w with WTaken _ => 3 | WPut _ => 2 | WFinish _ _ | WAborted _ => 1 | _ => 0 end.

Record turned s s' : Prop := {
  tn_ok : wc_ok s';
  tn_settled : settled s s';
  tn_park : ctl_pause (wc_ctl s) = true → wc_worker s ≠ WParked →
    (park_rank (wc_worker s') < park_rank (wc_worker s))%nat;
  tn_flight : (0 < flight_rank (wc_worker s))%nat →
    (flight_rank (wc_worker s') < flight_rank (wc_worker s))%nat;
  tn_work : ctl_pause (wc_ctl s) = false → queued s ≠ ∅ → (work s' < work s)%nat;
  tn_calm : queued s = ∅ →
    (size (ds_chunks (wc_dirty s')) + size (queued s') ≤ size (ds_chunks (wc_dirty s)))%nat
}.
Lemma holds_queued s j : holds s j → queued s ≠ ∅.
Proof. intros [_ Hq] He. by rewrite He in Hq. Qed.

Lemma turned_steered s f w :
  wc_ok s → settled s (steered f w s) → worker_ok (steered f w s) →
  (ctl_pause (wc_ctl s) = true → wc_worker s ≠ WParked →
     (park_rank w < park_rank (wc_worker s))%nat) →
  ((0 < flight_rank (wc_worker s))%nat → (flight_rank w < flight_rank (wc_worker s))%nat) →
  (ctl_pause (wc_ctl s) = false → queued s ≠ ∅ → (rank w < rank (wc_worker s))%nat) →
  turned s (steered f w s).
Proof.
  intros [Hok _] Hset Hw Hp Hf Hr. constructor; try done; [split; [by apply steered_ok|done]| |].
  2: { intros Hq. change (queued (steered f w s)) with (queued s). rewrite Hq, map_size_empty. simpl. lia. }
  intros Hpause Hq. specialize (Hr Hpause Hq). unfold work. simpl.
  change (queued (steered f w s)) with (queued s). lia.
Qed.

(** Taking a job marks it in flight. *)
Lemma next_job_run s rt :
  data_ok s → wc_buffer s = Some rt → inflight s = None →
  (next_job s = (Ok None, s) ∧ queued s = ∅) ∨
  ∃ j, next_job s = (Ok (Some j), with_buffer (Buf.set_inflight (Some (job_idx j))) s) ∧
    queued s !! job_idx j = Some {| bc_data := job_data j; bc_generation := job_generation j |}.
Proof.
  intros Hok Hb Hi. unfold next_job, mbind, M_bind, get, queued, inflight in *. rewrite Hb in *.
  rewrite Hi. pose proof (bok_order _ _ _ (ok_buffer _ Hok rt Hb)) as Hord.
  destruct (bs_order (rt_state rt)) as [|idx l] eqn:Ho; simpl.
  - left. split; [done|]. apply map_empty. intros k. apply eq_None_not_Some.
    rewrite <-Hord. set_solver.
  - destruct (proj1 (Hord idx) ltac:(set_solver)) as [c Hc]. rewrite Hc. right.
    exists {| job_idx := idx; job_data := bc_data c; job_generation := bc_generation c |}.
    split; [done|]. simpl. rewrite Hc. by destruct c.
Qed.

Lemma flying_ok s o rt :
  data_ok s → wc_buffer s = Some rt → data_ok (with_buffer (Buf.set_inflight o) s) ∧
  settled s (with_buffer (Buf.set_inflight o) s) ∧
  queued (with_buffer (Buf.set_inflight o) s) = queued s.
Proof.
  intros Hok Hb. assert (Hq : queued (with_buffer (Buf.set_inflight o) s) = queued s).
  { rewrite queued_with_buffer. unfold queued. by rewrite Hb. }
  split; [|split; [|done]].
  - destruct Hok as [Hu Hm Hx Hd Hbuf Hdk]. constructor; try done.
    + simpl. rewrite Hb. intros rt' [= <-]. by destruct (Hbuf rt Hb).
    + intros fs Hfs. rewrite Hq. by apply Hdk.
  - apply settled_tables; try done; [simpl; by rewrite Hb|]. intros k. unfold cache_of. by rewrite Hq.
Qed.

Ltac turn_start Hw := unfold worker_turn, mbind, M_bind, get, modify; rewrite Hw.

Lemma turn_scan s rt :
  wc_ok s → wc_buffer s = Some rt → wc_worker s = WScan →
  ∃ s', worker_turn s = (Ok tt, s') ∧ turned s s'.
Proof.
  intros Hwc Hb Hw. pose proof Hwc as [Hok (Hwk & Hst & Hpk & Hnb)]. rewrite Hw in Hwk, Hpk.
  destruct (next_job_run s rt Hok Hb Hwk) as [[Hn Hq]|(j & Hn & Hq)].
  - exists (steered id WHandoff s). split; [turn_start Hw; by rewrite Hn|].
    apply turned_steered; [done|by apply steered_settled| |rewrite Hw; simpl; lia..|done].
    split; [done|]. split; [done|]. split; [done|]. simpl. congruence.
  - destruct (flying_ok s (Some (job_idx j)) rt Hok Hb) as (Hok' & Hset & Hq').
    exists (with_worker (WTaken j) (with_buffer (Buf.set_inflight (Some (job_idx j))) s)).
    split; [turn_start Hw; by rewrite Hn|].
    constructor; simpl; rewrite ?Hw; simpl; try lia.
    + split; [by destruct Hok'|]. split; [|split; [done|split; [done|]]].
      * split; [unfold inflight; simpl; by rewrite Hb|]. rewrite <-Hq. f_equal. exact Hq'.
      * simpl. by rewrite Hb.
    + by destruct Hset.
    + intros _ _. unfold work. simpl. rewrite Hw.
      change (queued (with_worker _ _)) with (queued (with_buffer (Buf.set_inflight (Some (job_idx j))) s)).
      rewrite Hq'. simpl. lia.
    + intros He. by rewrite He in Hq.
Qed.

Lemma turn_abort s rt j :
  wc_ok s → wc_buffer s = Some rt → wc_worker s = WAborted j →
  ∃ s', worker_turn s = (Ok tt, s') ∧ turned s s'.
Proof.
  intros [Hok (Hwk & Hst & Hpk & Hnb)] Hb Hw. rewrite Hw in Hwk, Hpk. destruct Hwk as [Hi Hq].
  destruct (flying_ok s None rt Hok Hb) as (Hok' & Hset & Hq').
  assert (Heq : with_buffer (Buf.clear_inflight (job_idx j)) s = with_buffer (Buf.set_inflight None) s).
  { unfold with_buffer. unfold inflight in Hi. destruct (wc_buffer s) as [rt'|]; [|done].
    simpl. unfold Buf.clear_inflight. by rewrite decide_True. }
  exists (with_worker WTop (with_buffer (Buf.set_inflight None) s)).
  split; [turn_start Hw; unfold clear_inflight, modify; by rewrite Heq|].
  constructor; simpl; rewrite ?Hw; simpl; try lia.
  - split; [by destruct Hok'|]. split; [|split; [done|split; [done|]]].
    + simpl. unfold inflight. simpl. by rewrite Hb.
    + simpl. by rewrite Hb.
  - by destruct Hset.
  - intros _ _. unfold work. simpl. rewrite Hw.
    change (queued (with_worker _ _)) with (queued (with_buffer (Buf.set_inflight None) s)).
    rewrite Hq'. simpl. lia.
  - intros He. by rewrite He in Hq.
Qed.

Lemma turn_put s rt j :
  wc_ok s → wc_buffer s = Some rt → wc_worker s = WPut j →
  ∃ s', worker_turn s = (Ok tt, s') ∧ turned s s'.
Proof.
  intros [Hok (Hwk & Hst & Hpk & Hnb)] Hb Hw. rewrite Hw in Hwk, Hpk.
  pose proof (job_fits s j rt Hok Hb Hwk) as Hfit. pose proof (ok_inner _ Hok) as Hu.
  destruct (wp_ok _ _ _ (write_inner_spec s (job_idx j) (job_data j) Hu Hfit))
    as ([] & s1 & Hrun & i' & -> & Hu' & Hs & Hwr).
  exists (with_worker (WFinish j true) (with_inner i' s)).
  split; [turn_start Hw; unfold attempt; by rewrite Hrun|].
  assert (Hc : is_Some (cache_of s (job_idx j))).
  { unfold cache_of, cached_in. destruct Hwk as [_ Hq]. rewrite Hq. by destruct (Dirty.get _ _). }
  destruct Hc as [d Hc].
  constructor; simpl; rewrite ?Hw; simpl; try lia.
  - split; [by destruct (data_ok_inner s i' Hu' Hs Hok)|]. split; [|split; [done|split; [done|]]].
    + split; [done|]. split; [done|]. by apply (chunk_written_on (wc_inner s)).
    + simpl. congruence.
  - constructor; try done. intros a Ha. by apply (shown_write_through s i' (job_idx j) d (job_data j)).
  - intros _ _. unfold work. simpl. rewrite Hw.
    change (queued (with_worker _ _)) with (queued s). simpl. lia.
  - intros He. by destruct (holds_queued _ _ Hwk).
Qed.

Lemma turn_finish s rt j ok :
  wc_ok s → wc_buffer s = Some rt → wc_worker s = WFinish j ok →
  ∃ s', worker_turn s = (Ok tt, s') ∧ turned s s'.
Proof.
  intros [Hok (Hwk & Hst & Hpk & Hnb)] Hb Hw. rewrite Hw in Hwk, Hpk. destruct Hwk as (-> & Hh & Hon).
  destruct (commit_ok s j rt Hok Hb Hh Hon) as (s1 & Hrun & Hok1 & Hset & Hctl & Hd & Hi & Hbuf & Hq).
  exists (with_worker WDone s1). split; [turn_start Hw; unfold ignore; by rewrite Hrun|].
  constructor; simpl; rewrite ?Hw; simpl; try lia.
  - split; [by destruct Hok1|]. split; [done|]. simpl. rewrite Hctl. split; [done|]. split; [done|].
    rewrite Hbuf. simpl. by rewrite Hb.
  - by destruct Hset.
  - intros _ _. unfold work. simpl. rewrite Hw, Hd.
    change (queued (with_worker WDone s1)) with (queued s1). rewrite Hq.
    destruct Hh as [_ Hl]. rewrite map_size_delete, Hl. simpl.
    assert (size (queued s) ≠ 0%nat) by (apply map_size_non_empty_iff; intros He; by rewrite He in Hl).
    lia.
  - intros He. by destruct (holds_queued _ _ Hh).
Qed.

(** A move takes one chunk from the dirty table to the queue. *)
Lemma moved_sizes s idx rt c :
  wc_buffer s = Some rt → ds_chunks (wc_dirty s) !! idx = Some c → queued s !! idx = None →
  size (queued (moved s idx c)) = Datatypes.S (size (queued s)) ∧
  Datatypes.S (size (ds_chunks (wc_dirty (moved s idx c)))) = size (ds_chunks (wc_dirty s)).
Proof.
  intros Hb Hc Hq. split.
  - unfold moved. rewrite queued_with_buffer. simpl. unfold queued in *. rewrite Hb in *.
    unfold Buf.push. rewrite Hq. simpl. by rewrite map_size_insert_None.
  - simpl. unfold Dirty.remove. rewrite Hc. simpl. rewrite map_size_delete, Hc. simpl.
    assert (size (ds_chunks (wc_dirty s)) ≠ 0%nat)
      by (apply map_size_non_empty_iff; intros He; by rewrite He in Hc). lia.
Qed.

Lemma turn_handoff s rt :
  wc_ok s → wc_buffer s = Some rt → wc_worker s = WHandoff →
  ∃ s', worker_turn s = (Ok tt, s') ∧ turned s s'.
Proof.
  intros Hwc Hb Hw. pose proof Hwc as [Hok (Hwk & Hst & Hpk & Hnb)]. rewrite Hw in Hwk, Hpk.
  assert (Hcase : handoff_quiet s = (Ok false, s) ∨ ∃ idx c,
    ds_chunks (wc_dirty s) !! idx = Some c ∧ queued s !! idx = None ∧
    handoff_quiet s = (Ok true, moved s idx c)).
  { unfold handoff_quiet, mbind, M_bind, get. rewrite Hb.
    destruct (Dirty.oldest_quiet _ _ _) as [idx|]; [|by left].
    destruct (hand_over_cases s idx rt Hb) as [[Hn _]|(c & Hc & Hq & _ & Hn)]; [by left|].
    right. by exists idx, c. }
  destruct Hcase as [Hn|(idx & c & Hc & Hq & Hn)].
  - exists (steered id WTop s). split; [turn_start Hw; by rewrite Hn|].
    apply turned_steered; [done|by apply steered_settled| |rewrite Hw; simpl; lia..].
    split; [done|]. by split.
  - destruct (moved_wc_ok s idx rt c Hwc Hb Hc Hq) as [[Hok' (Hwk' & _)] Hset].
    exists (with_worker WTop (moved s idx c)). split; [turn_start Hw; by rewrite Hn|].
    cbn [wc_worker moved with_buffer with_dirty] in Hwk'. rewrite Hw in Hwk'.
    constructor; simpl; rewrite ?Hw; simpl; try lia.
    + split; [by destruct Hok'|]. split; [exact Hwk'|]. by split.
    + by destruct Hset.
    + intros _ _. unfold work. cbn [wc_worker with_worker]. rewrite Hw.
      change (queued (with_worker WTop (moved s idx c))) with (queued (moved s idx c)).
      destruct (moved_sizes s idx rt c Hb Hc Hq) as [Hsz Hsd].
      change (ds_chunks (wc_dirty (with_worker WTop (moved s idx c)))) with (ds_chunks (wc_dirty (moved s idx c))).
      rewrite Hsz. cbn [rank]. lia.
    + intros He. destruct (moved_sizes s idx rt c Hb Hc Hq) as [Hsz Hsd]. rewrite He, map_size_empty in Hsz.
      assert (Hle : (size (ds_chunks (wc_dirty (moved s idx c))) + size (queued (moved s idx c)) ≤
        size (ds_chunks (wc_dirty s)))%nat) by lia. exact Hle.
Qed.

Lemma worker_turn_run s rt :
  wc_ok s → wc_buffer s = Some rt → ∃ s', worker_turn s = (Ok tt, s') ∧ turned s s'.
Proof.
  intros Hwc Hb. pose proof Hwc as [Hok (Hwk & Hst & Hpk & Hnb)].
  destruct (wc_worker s) as [| | |j|j|j|j ok| | |] eqn:Hw.
  - destruct (ctl_pause (wc_ctl s)) eqn:Hp.
    + exists (steered (λ c, set_putting false (set_parked true c)) WParked s).
      split; [turn_start Hw; by rewrite Hst, Hp|].
      apply turned_steered; [done|by apply steered_settled| |rewrite Hw; simpl; lia..|congruence].
      split; [done|]. split; [done|]. split; [done|]. simpl. congruence.
    + exists (steered id WScan s). split; [turn_start Hw; by rewrite Hst, Hp|].
      apply turned_steered; [done|by apply steered_settled| |congruence|rewrite Hw; simpl; lia..].
      split; [done|]. split; [done|]. split; [done|]. simpl. congruence.
  - destruct (ctl_pause (wc_ctl s)) eqn:Hp.
    + exists s. split; [turn_start Hw; by rewrite Hp, Hst|].
      constructor; [done|reflexivity|congruence|rewrite Hw; simpl; lia|congruence|].
      intros He. rewrite He, map_size_empty. lia.
    + exists (steered (set_parked false) WTop s). split; [turn_start Hw; by rewrite Hp|].
      apply turned_steered; [done|by apply steered_settled| |congruence|rewrite Hw; simpl; lia..].
      split; [done|]. by split.
  - by eapply turn_scan.
  - destruct (ctl_pause (wc_ctl s)) eqn:Hp.
    + exists (steered id (WAborted j) s). split; [turn_start Hw; by rewrite Hp|].
      apply turned_steered; [done|by apply steered_settled| |rewrite Hw; simpl; lia..|congruence].
      split; [done|]. split; [done|]. split; [done|]. simpl. congruence.
    + exists (steered (set_putting true) (WPut j) s). split; [turn_start Hw; by rewrite Hp, Hst|].
      apply turned_steered; [done|by apply steered_settled| |congruence|rewrite Hw; simpl; lia..].
      split; [done|]. split; [done|]. split; [done|]. simpl. congruence.
  - by eapply turn_abort.
  - by eapply turn_put.
  - by eapply turn_finish.
  - exists (steered (set_putting false) WTop s). split; [by turn_start Hw|].
    apply turned_steered; [done|by apply steered_settled| |rewrite Hw; simpl; lia..].
    split; [done|]. by split.
  - by eapply turn_handoff.
  - done.
Qed.
End spec.
End WCWorker.
