(* ===== verification/WriteBackOps.v ===== *)
(** * The write-back store: reading, writing and eviction

    The foreground operations against the invariant, with the worker running at
    every yield point. *)
From S2P Require Import Prelude Tables Text Store Ready Cache CachedStore WriteBuffer WriteCache WriteBack.
From S2P Require Import WriteBackSpec WriteBackWorker.
#[local] Open Scope string_scope.
#[local] Open Scope list_scope.
#[local] Open Scope Z_scope.

Module WCOps.
Import WC WCSpec WCWorker.
Section spec.
Context {S : Type} `{ReadyLaws S}.
Implicit Types s : Core S.
Implicit Types i : S.
Abbreviation fails := (λ (_ : StoreError) (_ : Core S), False).

(** ** Yield points *)
Lemma time_ok s now sched :
  (wc_sched s = [] → sched = []) →
  wc_ok s → wc_ok (with_time now sched s) ∧ settled s (with_time now sched s).
Proof. intros Hs [[] Hw]. split; [|by constructor]. by split. Qed.

Lemma run_event_spec e s :
  wc_ok s → wp (run_event e) (λ _ s', wc_ok s' ∧ settled s s') fails s.
Proof.
  intros Hok. destruct e as [|ms]; simpl.
  - wp_steps. destruct (wc_buffer s) as [rt|] eqn:Hb; [|wp_steps; by split].
    destruct (worker_turn_run s rt Hok Hb) as (s' & Hrun & []). by eapply wp_run.
  - wp_steps. by apply time_ok.
Qed.

Lemma yield_spec s : wc_ok s → wp yield (λ _ s', wc_ok s' ∧ settled s s') fails s.
Proof.
  intros Hok. unfold yield. wp_steps. destruct (wc_sched s) as [|evs sched] eqn:Hs; [wp_steps; by split|].
  wp_steps. destruct (time_ok s (wc_now s) sched) as [Hok1 Hset1]; [by rewrite Hs|done|].
  apply (wp_for_each (λ _ _ _ s', wc_ok s' ∧ settled s s')); [|by split].
  intros pre e post acc s1 [Hok' Hset']. eapply wp_mono; [by apply run_event_spec|..].
  - intros _ s2 [Hok2 Hset2]. split; [done|by etrans].
  - done.
Qed.

Lemma wp_yield {A} (m : M (Core S) StoreError A) Q R s :
  wc_ok s → (∀ s', wc_ok s' → settled s s' → wp m Q R s') → wp (_ ← yield; m) Q R s.
Proof.
  intros Hok Hm. wp_step. eapply wp_mono; [by apply yield_spec| |done].
  intros _ s' [Hok' Hset]. by apply Hm.
Qed.

(** ** Looking up a chunk *)

(** [d] is chunk [idx] of the volume as [s] shows it. *)
Definition chunk_of s (idx : Z) (d : bytes) : Prop :=
  fits (wc_inner s) idx d ∧
  ∀ w, 0 ≤ w < chunk_size (wc_inner s) → wc_shown s (idx * chunk_size (wc_inner s) + w) = nthb d w.

Lemma geometry s : wc_ok s →
  0 < chunk_size (wc_inner s) ≤ u64_max ∧ is_u64 (capacity (wc_inner s)).
Proof. intros [Hok _]. by destruct (rs_geometry _ (ok_inner _ Hok)) as (_ & ? & ?). Qed.

Lemma cached_shown s idx d : wc_ok s → cache_of s idx = Some d → chunk_of s idx d.
Proof.
  intros Hwc Hc. destruct (geometry s Hwc) as [Hcs _]. pose proof Hwc as [Hok _].
  assert (Hf : fits (wc_inner s) idx d).
  { unfold cache_of, cached_in, Dirty.get in Hc.
    destruct (ds_chunks (wc_dirty s) !! idx) as [c|] eqn:Hd; simpl in Hc.
    - simplify_eq. by apply (dok_fits _ _ (ok_dirty _ Hok)) in Hd.
    - unfold queued in Hc. destruct (wc_buffer s) as [rt|] eqn:Hb; [|done].
      destruct (bs_chunks (rt_state rt) !! idx) as [c|] eqn:Hq; simpl in Hc; simplify_eq.
      by apply (bok_fits _ _ _ (ok_buffer _ Hok rt Hb)) in Hq. }
  split; [done|]. intros w Hw. unfold wc_shown. by rewrite addr_div, addr_mod, Hc by lia.
Qed.

Lemma uncached_shown s idx w :
  wc_ok s → cache_of s idx = None → 0 ≤ w < chunk_size (wc_inner s) →
  wc_shown s (idx * chunk_size (wc_inner s) + w) = shown (wc_inner s) (idx * chunk_size (wc_inner s) + w).
Proof.
  intros Hwc Hc Hw. destruct (geometry s Hwc) as [Hcs _]. unfold wc_shown.
  by rewrite addr_div, Hc by lia.
Qed.

Lemma chunk_of_settled s s' idx d : settled s s' → chunk_of s' idx d → chunk_of s idx d.
Proof.
  intros Hset [Hf Hw]. destruct (st_sizes _ _ Hset) as [_ Hcs Hcap].
  split. { destruct Hf. constructor; rewrite <-?Hcs, <-?Hcap; auto. }
  intros w Hw'. rewrite <-(st_shown _ _ Hset) by (pose proof (fit_idx _ _ _ Hf); nia).
  rewrite <-Hcs. apply Hw. by rewrite Hcs.
Qed.

Lemma lookup_spec s idx :
  wc_ok s →
  wp (lookup idx) (λ r s', wc_ok s' ∧ settled s s' ∧
    match r with Some d => chunk_of s idx d | None => cache_of s' idx = None end) fails s.
Proof.
  intros Hwc. unfold lookup. wp_steps. destruct (Dirty.get idx (wc_dirty s)) as [d|] eqn:Hd.
  { wp_steps. split; [done|]. split; [reflexivity|]. apply cached_shown; [done|].
    unfold cache_of, cached_in. by rewrite Hd. }
  apply wp_yield; [done|]. intros s1 Hwc1 Hset. wp_steps. split; [done|]. split; [done|].
  assert (Hd1 : Dirty.get idx (wc_dirty s1) = None).
  { unfold Dirty.get in *. destruct (ds_chunks (wc_dirty s1) !! idx) as [c|] eqn:Hc; [|done].
    eapply lookup_weaken in Hc; [|apply (st_dirty _ _ Hset)]. by rewrite Hc in Hd. }
  assert (Hc1 : cache_of s1 idx = bc_data <$> queued s1 !! idx)
    by (unfold cache_of, cached_in; by rewrite Hd1).
  destruct (queued s1 !! idx) as [c|]; simpl in *; [|done].
  eapply chunk_of_settled; [done|]. by apply cached_shown.
Qed.

(** Reads of the inner store change nothing. *)
Lemma inner_kept s i' :
  wc_ok s → kept (wc_inner s) i' → wc_ok (with_inner i' s) ∧ settled s (with_inner i' s).
Proof.
  intros Hwc [Hu Hs Hb]. pose proof Hwc as [Hok (Hwk & Hrest)]. split; [split|].
  - by apply data_ok_inner.
  - split; [|done]. cbn [wc_worker with_inner]. destruct (wc_worker s) as [| | | | | |j r| | |] eqn:Hw;
      try done. destruct Hwk as (-> & Hh & Hon). split; [done|]. split; [done|].
    intros w Hw'. simpl in *. rewrite (ss_chunk _ _ Hs) in *.
    rewrite Hb; [by apply Hon|]. destruct (wc_buffer s) as [rt|] eqn:Hbuf.
    + pose proof (fit_idx _ _ _ (job_fits s j rt Hok Hbuf Hh)). nia.
    + destruct Hh as [_ Hq]. unfold queued in Hq. by rewrite Hbuf in Hq.
  - constructor; try done. intros a Ha. unfold wc_shown. simpl. rewrite (ss_chunk _ _ Hs).
    change (cache_of (with_inner i' s)) with (cache_of s). destruct (cache_of s _); [done|]. by apply Hb.
Qed.

Lemma read_full_chunk_spec s idx :
  wc_ok s → 0 ≤ idx → idx * chunk_size (wc_inner s) < capacity (wc_inner s) →
  cache_of s idx = None →
  wp (read_full_chunk idx) (λ d s', wc_ok s' ∧ settled s s' ∧ chunk_of s idx d) fails s.
Proof.
  intros Hwc Hidx Hlt Hc. destruct (geometry s Hwc) as [Hcs Hcap]. pose proof Hwc as [Hok _].
  unfold is_u64 in Hcap. unfold read_full_chunk. wp_steps.
  assert (Hoff : saturating_mul64 idx (chunk_size (wc_inner s)) = idx * chunk_size (wc_inner s))
    by (unfold saturating_mul64; lia).
  rewrite Hoff. destruct (Z.geb_spec (idx * chunk_size (wc_inner s)) (capacity (wc_inner s))); [lia|].
  set (valid := Z.min _ _). wp_step. apply wp_wc_inner.
  assert (Hz : Zlen (zeros valid) = valid) by (apply Zlen_zeros; lia).
  eapply wp_mono; [apply rs_read; [apply Hok|nia]|..]; rewrite Hz.
  2: { intros e i' [_ [Hbad _]]. lia. }
  intros head i' (Hk & _ & Hl & Hh). destruct (inner_kept s i' Hwc Hk) as [Hwc' Hset].
  wp_steps. split; [done|]. split; [done|].
  assert (Hnth : ∀ w, 0 ≤ w < chunk_size (wc_inner s) →
    nthb (head ++ zeros (chunk_size (wc_inner s) - valid)) w =
    shown (wc_inner s) (idx * chunk_size (wc_inner s) + w)).
  { intros w Hw. rewrite nthb_app by lia. case_decide; [by apply Hh; lia|].
    rewrite nthb_zeros. symmetry. apply rs_tail; [apply Hok|]. lia. }
  split.
  - assert (Hlen : Zlen (head ++ zeros (chunk_size (wc_inner s) - valid)) = chunk_size (wc_inner s))
      by (rewrite Zlen_app, Zlen_zeros by lia; lia).
    constructor; [done|done|done| |].
    + intros w Hw Hge. rewrite Hnth by done. by apply rs_tail; [apply Hok|].
    + rewrite <- (chunk_at_bytes _ (shown (wc_inner s)) idx _ Hlen) by (intros; symmetry; by apply Hnth).
      apply rs_image; [apply Hok|]. unfold is_u64. nia.
  - intros w Hw. rewrite uncached_shown, Hnth by done. done.
Qed.

Lemma load_for_write_spec s idx :
  wc_ok s → 0 ≤ idx → idx * chunk_size (wc_inner s) < capacity (wc_inner s) →
  wp (load_for_write idx) (λ d s', wc_ok s' ∧ settled s s' ∧ chunk_of s idx d) fails s.
Proof.
  intros Hwc Hidx Hlt. unfold load_for_write. wp_step.
  eapply wp_mono; [by apply lookup_spec| |done]. intros [d|] s1 (Hwc1 & Hset1 & Hd); [by wp_steps|].
  apply wp_yield; [done|]. intros s2 Hwc2 Hset2.
  assert (Hset : settled s s2) by (by etrans). destruct (st_sizes _ _ Hset) as [_ Hcs Hcap].
  eapply wp_mono; [apply read_full_chunk_spec; [done|done|by rewrite Hcs, Hcap|]| |done].
  - by apply (st_uncached _ _ Hset2).
  - intros d s3 (Hwc3 & Hset3 & Hd3). split; [done|]. split; [by etrans|].
    by eapply chunk_of_settled.
Qed.

(** ** Reading *)
Lemma read_piece_inner s idx within take dst :
  wc_ok s → cache_of s idx = None → 0 ≤ idx → 0 ≤ within → 0 ≤ take →
  within + take ≤ chunk_size (wc_inner s) →
  idx * chunk_size (wc_inner s) + within + take ≤ capacity (wc_inner s) → Zlen dst = take →
  wp (inner (read_at (idx * chunk_size (wc_inner s) + within) dst))
    (λ src s', wc_ok s' ∧ settled s s' ∧ Zlen src = take ∧
       ∀ j, 0 ≤ j < take → nthb src j = wc_shown s (idx * chunk_size (wc_inner s) + within + j)) fails s.
Proof.
  intros Hwc Hc Hidx Hw Ht Hwt Hin Hl. destruct (geometry s Hwc) as [Hcs Hcap]. pose proof Hwc as [Hok _].
  apply wp_wc_inner. eapply wp_mono; [apply rs_read; [apply Hok|nia]|..]; rewrite Hl.
  2: { intros e i' [_ [Hbad _]]. lia. }
  intros src i' (Hk & _ & Hl' & Hsrc). destruct (inner_kept s i' Hwc Hk) as [Hwc' Hset].
  split; [done|]. split; [done|]. split; [done|]. intros j Hj. rewrite Hsrc by done.
  rewrite <-Z.add_assoc. by rewrite uncached_shown by (done || lia).
Qed.

Lemma read_spec s off buf :
  wc_ok s → 0 ≤ off →
  wp (read off buf)
    (λ buf' s', wc_ok s' ∧ settled s s' ∧ off + Zlen buf ≤ capacity (wc_inner s) ∧
       Zlen buf' = Zlen buf ∧ ∀ k, 0 ≤ k < Zlen buf → nthb buf' k = wc_shown s (off + k))
    (λ e s', s' = s ∧ bad_range (wc_inner s) off (Zlen buf) e) s.
Proof.
  intros Hwc Hoff. destruct (geometry s Hwc) as [Hcs Hcap]. pose proof Hwc as [Hok _].
  unfold read. wp_steps. unfold is_none. rewrite bool_decide_false by apply Hok.
  wp_step. rewrite check_range_spec by done. case_decide as Hr.
  2: { split; [done|]. split; [lia|done]. }
  wp_step. pose proof (Zlen_nonneg buf) as Hnn.
  eapply wp_mono; [apply (wp_chunk_loop (λ done bf s', wc_ok s' ∧ settled s s' ∧
      Zlen bf = Zlen buf ∧ filled (wc_shown s) off done bf) fails)| |done]; [lia|lia|..].
  { split; [done|]. split; [reflexivity|]. split; [done|]. intros k ?; lia. }
  2: { intros bf s' (? & ? & ? & Hf). split; [done|]. split; [done|]. split; [lia|]. by split. }
  intros done bf s1 Hd (Hwc1 & Hset1 & Hl & Hf).
  destruct (piece_bounds (chunk_size (wc_inner s)) off (Zlen buf) done) as (Hw&Ht&Hwt); [lia..|].
  set (tk := piece_take _ _ _ _) in *. set (idx := (off + done) / _) in *.
  assert (Hne : chunk_size (wc_inner s) ≠ 0) by lia.
  pose proof (Z.div_mod (off + done) _ Hne) as Hdm. fold idx in Hdm.
  assert (Hidx : 0 ≤ idx) by (apply Z.div_pos; lia).
  apply wp_yield; [done|]. intros s2 Hwc2 Hset2. wp_step.
  eapply wp_mono; [by apply lookup_spec| |done]. intros hit s3 (Hwc3 & Hset3 & Hhit).
  assert (Hs2 : settled s s2) by (by etrans). assert (Hs3 : settled s s3) by (by etrans).
  wp_step.
  eapply (wp_mono _ (λ src s', wc_ok s' ∧ settled s s' ∧ Zlen src = tk ∧
    ∀ j, 0 ≤ j < tk → nthb src j = wc_shown s (off + done + j))); [| |intros ?? Hff; exact (False_ind _ Hff)].
  - destruct hit as [chunk|].
    + destruct (chunk_of_settled _ _ _ _ Hs2 Hhit) as [Hfit Hsh].
      pose proof (fit_len _ _ _ Hfit) as Hlc. apply wp_slice; [lia|lia|].
      split; [done|]. split; [done|]. rewrite Zlen_sub by lia. split; [lia|].
      intros j Hj. rewrite nthb_sub by lia. rewrite <-Hsh by lia. f_equal. lia.
    + apply wp_yield; [done|]. intros s4 Hwc4 Hset4.
      assert (Hs4 : settled s s4) by (by etrans). destruct (st_sizes _ _ Hs4) as [_ Hc4 Hp4].
      pose proof (st_uncached _ _ Hset4 _ Hhit) as Hu4.
      wp_step. apply wp_slice; [lia|lia|]. set (dst := sub bf done _).
      assert (Hdst : Zlen dst = tk) by (unfold dst; rewrite Zlen_sub; lia).
      replace (off + done) with (idx * chunk_size (wc_inner s4) + (off + done) mod chunk_size (wc_inner s))
        by (rewrite Hc4; lia).
      eapply wp_mono; [apply (read_piece_inner s4 idx _ tk); try done; rewrite ?Hc4, ?Hp4; lia| |done].
      intros src s5 (Hwc5 & Hset5 & Hsl & Hsrc). split; [done|]. split; [by etrans|]. split; [done|].
      intros j Hj. rewrite Hsrc by done. apply (st_shown _ _ Hs4). rewrite Hc4. nia.
  - intros src s5 (Hwc5 & Hs5 & Hsl & Hsrc).
    apply wp_copy_into; [lia|lia|lia|].
    split; [done|]. split; [done|]. rewrite Zlen_splice by lia. split; [done|].
    rewrite <-Hsl at 1. apply filled_splice; [lia|lia|done|]. intros j Hj. apply Hsrc. lia.
Qed.

(** ** Eviction *)
Definition within_budget s : Prop := 0 < wc_cache_max s → ds_used_bytes (wc_dirty s) ≤ wc_cache_max s.

Lemma no_buffer_cache s idx : wc_buffer s = None → cache_of s idx = Dirty.get idx (wc_dirty s).
Proof.
  intros Hb. unfold cache_of, cached_in, queued. rewrite Hb, lookup_empty.
  by destruct (Dirty.get _ _).
Qed.

Lemma remove_sub idx d : ds_chunks (Dirty.remove idx d) ⊆ ds_chunks d.
Proof. unfold Dirty.remove. destruct (ds_chunks d !! idx); [apply delete_subseteq|done]. Qed.

(** The state after a dirty chunk was written through and dropped. *)
Definition evicted s (i' : S) (idx : Z) : Core S :=
  on_files (base.delete (Disk.file_name idx))
    (with_dirty (Dirty.remove idx (wc_dirty s)) (with_inner i' s)).

Lemma evicted_ok s i' idx d :
  wc_ok s → wc_buffer s = None → Dirty.get idx (wc_dirty s) = Some d →
  usable i' → same_sizes (wc_inner s) i' → chunk_written (wc_inner s) i' idx d →
  wc_ok (evicted s i' idx) ∧ settled s (evicted s i' idx).
Proof.
  intros Hwc Hb Hd Hu Hs Hwr. pose proof Hwc as [Hok (Hwk & Hst & Hpk & Hnb)].
  assert (Hcache : ∀ k, cache_of (evicted s i' idx) k =
    if decide (k = idx) then None else cache_of s k).
  { intros k. rewrite !no_buffer_cache by done. apply get_remove. }
  destruct (data_ok_inner s i' Hu Hs Hok) as [_ Hm Hx Hdd _ Hdk]. split; [split|].
  - constructor; try done.
    + by apply dirty_remove_ok.
    + simpl. by rewrite Hb.
    + simpl in *. destruct (wc_disk s) as [fs|]; [|done]. intros fs' [= <-].
      destruct (Hdk fs eq_refl) as [Hf Hall]. split; [done|]. intros k Hk. simpl.
      change (base.delete (Disk.file_name idx) (fs_files fs) !! Disk.file_name k =
        cache_of (evicted s i' idx) k). rewrite Hcache. case_decide as Hkj.
      * subst k. apply lookup_delete_eq.
      * rewrite lookup_delete_ne; [by apply Hall|].
        intros Heq. apply file_name_inj in Heq; [done| |done].
        eapply fits_u64; [apply Hok|]. eapply cached_shown; [done|]. by rewrite no_buffer_cache.
  - rewrite (Hnb Hb) in *. split; [simpl; by rewrite (Hnb Hb)|].
    simpl. by rewrite (Hnb Hb).
  - constructor; try done.
    + intros a Ha. unfold wc_shown. rewrite Hcache. simpl. rewrite (ss_chunk _ _ Hs).
      case_decide as Hk.
      * rewrite Hwr, decide_True by done. by rewrite Hk, no_buffer_cache, Hd.
      * destruct (cache_of s _) as [x|] eqn:Hx'; [done|]. by rewrite Hwr, decide_False.
    + apply remove_sub.
    + intros k Hk. rewrite Hcache. by case_decide.
    + simpl. apply same_dir_removed. eapply fits_u64; [apply Hok|]. eapply cached_shown; [done|].
      by rewrite no_buffer_cache.
Qed.

Lemma remove_smaller idx d c :
  ds_chunks d !! idx = Some c →
  (size (ds_chunks (Dirty.remove idx d)) < size (ds_chunks d))%nat.
Proof.
  intros Hc. unfold Dirty.remove. rewrite Hc. simpl. rewrite map_size_delete, Hc.
  assert (size (ds_chunks d) ≠ 0%nat) by (apply map_size_non_empty_iff; intros He; by rewrite He in Hc).
  lia.
Qed.

Lemma evict_one_spec s :
  wc_ok s → wc_buffer s = None →
  wp evict_one (λ go s', wc_ok s' ∧ settled s s' ∧ wc_buffer s' = None ∧
    if (go : bool) then (size (ds_chunks (wc_dirty s')) < size (ds_chunks (wc_dirty s)))%nat
    else ds_used_bytes (wc_dirty s') ≤ wc_cache_max s') fails s.
Proof.
  intros Hwc Hb. pose proof Hwc as [Hok _]. unfold evict_one. wp_steps.
  destruct (Z.leb_spec (ds_used_bytes (wc_dirty s)) (wc_cache_max s)) as [Hle|Hgt].
  { wp_steps. split; [done|]. by split. }
  destruct (Dirty.oldest (wc_dirty s)) as [idx|] eqn:Ho.
  2: { apply min_by_key_None in Ho. pose proof (dok_used _ _ (ok_dirty _ Hok)) as Hu.
       rewrite Ho, map_sum_empty in Hu. pose proof (ok_max _ Hok). lia. }
  destruct (min_by_key_Some _ _ _ Ho) as (c & Hc & _).
  assert (Hg : Dirty.get idx (wc_dirty s) = Some (dc_data c)) by (unfold Dirty.get; by rewrite Hc).
  rewrite Hg. wp_step.
  eapply wp_mono; [apply write_inner_spec; [apply Hok|by apply (dok_fits _ _ (ok_dirty _ Hok)) in Hc]| |done].
  intros _ s1 (i' & -> & Hu & Hs & Hwr). wp_steps.
  destruct (evicted_ok s i' idx _ Hwc Hb Hg Hu Hs Hwr) as [Hwc' Hset].
  eapply wp_run; [apply remove_file_run; intros fs Hfs; by apply (ok_disk _ Hok)|]. wp_steps.
  split; [exact Hwc'|]. split; [exact Hset|]. split; [done|]. by eapply remove_smaller.
Qed.

Lemma evict_loop_spec fuel s :
  wc_ok s → wc_buffer s = None → (size (ds_chunks (wc_dirty s)) ≤ fuel)%nat →
  wp (evict_loop fuel) (λ _ s', wc_ok s' ∧ settled s s' ∧
    ds_used_bytes (wc_dirty s') ≤ wc_cache_max s') fails s.
Proof.
  revert s. induction fuel as [|fuel IH]; intros s Hwc Hb Hf; cbn [evict_loop];
    wp_step; (eapply wp_mono; [by apply evict_one_spec| |done]);
    intros [] s' (Hwc' & Hset & Hb' & Hgo); try (by wp_steps); [lia|].
  eapply wp_mono; [apply IH; [done|done|lia]| |done].
  intros _ s2 (Hwc2 & Hset2 & Hu2). split; [done|]. split; [by etrans|done].
Qed.

Lemma evict_direct_spec s :
  wc_ok s → wc_buffer s = None →
  wp evict_direct (λ _ s', wc_ok s' ∧ settled s s' ∧ within_budget s') fails s.
Proof.
  intros Hwc Hb. pose proof Hwc as [Hok _]. unfold evict_direct. wp_steps.
  rewrite (bool_decide_false (wc_mode s = WcNone)) by apply Hok. rewrite orb_false_r.
  destruct (Z.eqb_spec (wc_cache_max s) 0) as [Hz|Hz].
  { wp_steps. split; [done|]. split; [reflexivity|]. intros ?; lia. }
  eapply wp_mono; [apply evict_loop_spec; [done|done|lia]| |done].
  intros _ s' (Hwc' & Hset & Hu). split; [done|]. split; [done|]. by intros _.
Qed.

Lemma not_queued_idle s rt :
  wc_ok s → wc_buffer s = Some rt → queued s = ∅ → inflight s = None.
Proof.
  intros [_ (Hwk & _)] Hb Hq.
  destruct (wc_worker s) as [| | |j|j|j|j r| | |]; try done;
    [destruct Hwk as [_ Hl]..|destruct Hwk as (_ & [_ Hl] & _)]; by rewrite Hq in Hl.
Qed.

(** The work left, as turns of an idle worker do not change it. *)
Definition load s : nat :=
  20 * size (ds_chunks (wc_dirty s)) + 10 * size (queued s) +
  if decide (queued s = ∅) then 0 else rank (wc_worker s).
Lemma load_work s : (load s ≤ work s)%nat.
Proof. unfold load, work. case_decide; lia. Qed.
Lemma rank_small w : (rank w ≤ 6)%nat.
Proof. destruct w; simpl; lia. Qed.
(** A move or a turn of a busy worker lowers it, a turn of an idle one at least
    keeps it. *)
Lemma load_busy s s' : queued s ≠ ∅ → (work s' < work s)%nat → (load s' < load s)%nat.
Proof. intros Hq Hw. pose proof (load_work s'). unfold load at 2. rewrite decide_False by done. unfold work in *. lia. Qed.
Lemma load_idle s s' :
  queued s = ∅ → (size (ds_chunks (wc_dirty s')) + size (queued s') ≤ size (ds_chunks (wc_dirty s)))%nat →
  (load s' ≤ load s)%nat.
Proof.
  intros Hq Hle. pose proof (rank_small (wc_worker s')). unfold load. rewrite (decide_True _ _ Hq).
  rewrite Hq, map_size_empty. case_decide as Hq'; [rewrite Hq', map_size_empty in *; lia|].
  assert (size (queued s') ≠ 0%nat) by (by apply map_size_non_empty_iff). lia.
Qed.

Lemma event_load e s rt :
  wc_ok s → wc_buffer s = Some rt → ctl_pause (wc_ctl s) = false →
  wp (run_event e) (λ _ s', wc_ok s' ∧ settled s s' ∧ (load s' ≤ load s)%nat) fails s.
Proof.
  intros Hok Hb Hp. destruct e as [|ms]; simpl.
  - wp_steps. rewrite Hb. destruct (worker_turn_run s rt Hok Hb) as (s' & Hrun & []). eapply wp_run; [done|].
    split; [done|]. split; [done|]. destruct (decide (queued s = ∅)) as [Hq|Hq]; [by apply load_idle, tn_calm0|].
    apply Nat.lt_le_incl, load_busy; auto.
  - wp_steps. destruct (time_ok s (wc_now s + Z.max 0 ms) (wc_sched s)) as [Hok' Hset]; [done|done|].
    split; [done|]. split; [done|]. unfold load.
    change (queued (with_time _ _ s)) with (queued s). simpl. lia.
Qed.
Lemma buffer_settled s s' rt : settled s s' → wc_buffer s = Some rt → ∃ rt', wc_buffer s' = Some rt'.
Proof.
  intros Hset Hb. pose proof (st_buffer _ _ Hset) as Hb'. rewrite Hb in Hb'.
  destruct (wc_buffer s') as [rt'|]; [by exists rt'|done].
Qed.
Lemma yield_load s rt :
  wc_ok s → wc_buffer s = Some rt → ctl_pause (wc_ctl s) = false →
  wp yield (λ _ s', wc_ok s' ∧ settled s s' ∧ (load s' ≤ load s)%nat) fails s.
Proof.
  intros Hok Hb Hp. unfold yield. wp_steps.
  destruct (wc_sched s) as [|evs sched] eqn:Hs; [wp_steps; split; [done|]; split; [done|lia]|].
  wp_steps. destruct (time_ok s (wc_now s) sched) as [Hok1 Hset1]; [by rewrite Hs|done|].
  apply (wp_for_each (λ _ _ _ s', wc_ok s' ∧ settled s s' ∧ (load s' ≤ load s)%nat)).
  2: { split; [done|]. split; [done|]. unfold load. change (queued (with_time _ _ s)) with (queued s). simpl. lia. }
  intros pre e post acc s1 (Hok' & Hset' & Hl). destruct (buffer_settled _ _ _ Hset' Hb) as [rt1 Hb1].
  eapply wp_mono; [eapply event_load; [done|done|by rewrite (st_pause _ _ Hset')]| |done].
  intros _ s2 (Hok2 & Hset2 & Hl2). split; [done|]. split; [by etrans|lia].
Qed.

Lemma move_one_spec s rt :
  wc_ok s → wc_buffer s = Some rt → ctl_pause (wc_ctl s) = false →
  wp move_one (λ go s', wc_ok s' ∧ settled s s' ∧
    if (go : bool) then (load s' < load s)%nat
    else ds_used_bytes (wc_dirty s') ≤ wc_cache_max s') fails s.
Proof.
  intros Hwc Hb Hp. pose proof Hwc as [Hok (_ & Hst & _)]. unfold move_one. wp_steps.
  destruct (Z.leb_spec (ds_used_bytes (wc_dirty s)) (wc_cache_max s)) as [Hle|Hgt].
  { wp_steps. split; [done|]. by split. }
  destruct (Dirty.oldest (wc_dirty s)) as [idx|] eqn:Ho.
  2: { apply min_by_key_None in Ho. pose proof (dok_used _ _ (ok_dirty _ Hok)) as Hu.
       rewrite Ho, map_sum_empty in Hu. pose proof (ok_max _ Hok). lia. }
  destruct (min_by_key_Some _ _ _ Ho) as (c & Hc & _).
  destruct (hand_over_cases s idx rt Hb) as [[Hrun Hfull]|(c' & Hc' & Hq & Hfl & Hrun)].
  - wp_step. eapply wp_run; [done|]. cbv beta iota. wp_steps. rewrite Hst.
    destruct (worker_turn_run s rt Hwc Hb) as (s' & Hturn & []).
    wp_step. eapply wp_run; [done|]. wp_steps. split; [done|]. split; [done|].
    assert (Hbusy : queued s ≠ ∅); [|by apply load_busy, tn_work0]. intros Hq. specialize (Hfull Hq (not_queued_idle s rt Hwc Hb Hq) c Hc).
    destruct (ok_buffer _ Hok rt Hb) as [_ Hu _ Hmax]. unfold queued in Hq. rewrite Hb in Hq.
    rewrite Hq, map_sum_empty in Hu.
    rewrite (fit_len _ _ _ (dok_fits _ _ (ok_dirty _ Hok) _ _ Hc)) in Hfull. lia.
  - wp_step. eapply wp_run; [done|]. cbv beta iota. wp_steps.
    destruct (moved_wc_ok s idx rt c' Hwc Hb Hc' Hq) as [Hwc' Hset].
    split; [done|]. split; [done|]. destruct (moved_sizes s idx rt c' Hb Hc' Hq) as [Hsz Hsd].
    pose proof (rank_small (wc_worker s)). unfold load. change (wc_worker (moved s idx c')) with (wc_worker s).
    rewrite Hsz. repeat case_decide as Hq0; rewrite ?Hq0, ?map_size_empty in *; lia.
Qed.

Lemma move_loop_spec fuel s rt :
  wc_ok s → wc_buffer s = Some rt → ctl_pause (wc_ctl s) = false → (load s ≤ fuel)%nat →
  wp (move_loop fuel) (λ _ s', wc_ok s' ∧ settled s s' ∧
    ds_used_bytes (wc_dirty s') ≤ wc_cache_max s') fails s.
Proof.
  revert s rt. induction fuel as [|fuel IH]; intros s rt Hwc Hb Hp Hf; cbn [move_loop];
    wp_step; (eapply wp_mono; [by eapply yield_load| |done]); intros _ s0 (Hwc0 & Hset0 & Hl0);
    destruct (buffer_settled _ _ _ Hset0 Hb) as [rt0 Hb0];
    assert (Hp0 : ctl_pause (wc_ctl s0) = false) by (by rewrite (st_pause _ _ Hset0));
    wp_step; (eapply wp_mono; [by eapply move_one_spec| |done]);
    intros [] s' (Hwc' & Hset & Hgo).
  1: lia.
  1, 3: wp_steps; split; [done|]; split; [by etrans|done].
  destruct (buffer_settled _ _ _ Hset Hb0) as [rt' Hb'].
  eapply wp_mono; [eapply (IH s' rt'); [done|done|by rewrite (st_pause _ _ Hset)|lia]| |done].
  intros _ s2 (Hwc2 & Hset2 & Hu2). split; [done|]. split; [by do 2 (etrans; [done|])|done].
Qed.

Lemma evict_into_buffer_spec s :
  wc_ok s → ctl_pause (wc_ctl s) = false →
  wp evict_into_buffer (λ _ s', wc_ok s' ∧ settled s s' ∧ within_budget s') fails s.
Proof.
  intros Hwc Hp. unfold evict_into_buffer. wp_steps.
  destruct (wc_buffer s) as [rt|] eqn:Hb; [|by apply evict_direct_spec].
  destruct (Z.eqb_spec (wc_cache_max s) 0) as [Hz|Hz].
  { wp_steps. split; [done|]. split; [reflexivity|]. intros ?; lia. }
  eapply wp_mono; [eapply move_loop_spec; [done|done|done|apply load_work]| |done].
  intros _ s' (Hwc' & Hset & Hu). split; [done|]. split; [done|]. by intros _.
Qed.

(** ** Writing *)
Lemma store_dirty_spec s idx d :
  wc_ok s → fits (wc_inner s) idx d →
  wp (store_dirty idx d) (λ _ s', wc_ok s' ∧ framed s s' ∧
    ∀ a, 0 ≤ a → wc_shown s' a =
      if decide (a / chunk_size (wc_inner s) = idx) then nthb d (a mod chunk_size (wc_inner s))
      else wc_shown s a) fails s.
Proof.
  intros Hwc Hf. pose proof Hwc as [Hok Hwk]. unfold store_dirty. wp_step.
  eapply wp_run; [apply persist_run; by apply data_ok_no_fault|]. wp_steps.
  set (files := λ m : gmap string bytes, <[Disk.file_name idx := d]> _).
  set (s' := with_dirty _ _).
  assert (Hcache : ∀ k, cache_of s' k = if decide (k = idx) then Some d else cache_of s k).
  { intros k. unfold cache_of, cached_in, s'. cbn [wc_dirty with_dirty]. rewrite get_insert.
    case_decide; done. }
  split; [split; [|exact Hwk]|split].
  - destruct Hok as [Hu Hm Hx Hd Hbuf Hdk]. constructor; try done.
    + by apply dirty_insert_ok.
    + simpl. destruct (wc_disk s) as [fs|]; [|done]. intros fs' [= <-].
      destruct (Hdk fs eq_refl) as [Hfl Hall]. split; [done|]. intros k Hk.
      change (files (fs_files fs) !! Disk.file_name k = cache_of s' k). rewrite Hcache.
      unfold files. case_decide as Hki; [subst k; apply lookup_insert_eq|].
      rewrite lookup_insert_ne.
      2: { intros Heq. apply file_name_inj in Heq; [done| |done]. by eapply fits_u64. }
      rewrite lookup_delete_ne, !lookup_insert_ne by apply tmp_not_file. by apply Hall.
  - constructor; try done. simpl. apply same_dir_persisted. exact (fits_u64 _ _ _ (ok_inner _ Hok) Hf).
  - intros a Ha. unfold wc_shown. rewrite Hcache. simpl. by case_decide.
Qed.

(** One piece of a write: the volume shows one more piece of the data. *)
Lemma wc_write_piece_spec f off data s done :
  let cs := chunk_size (wc_inner s) in
  let take := piece_take cs off (Zlen data) done in
  wc_ok s → 0 ≤ off → 0 ≤ done < Zlen data → off + Zlen data ≤ capacity (wc_inner s) →
  (∀ a, 0 ≤ a → wc_shown s a = Cached.progress f off data done a) →
  (∀ k, is_u64 k → allowed S (chunk_at cs (overwritten f off data) k)) →
  wp (write_piece data ((off + done) / cs) ((off + done) mod cs) take done)
    (λ _ s', wc_ok s' ∧ framed s s' ∧
       ∀ a, 0 ≤ a → wc_shown s' a = Cached.progress f off data (done + take) a) fails s.
Proof.
  intros cs tk Hwc Hoff Hd Hin Hsh Hall. destruct (geometry s Hwc) as [Hcs Hcap]. fold cs in Hcs.
  destruct (piece_bounds cs off (Zlen data) done) as (Hw&Ht&Hwt); [lia..|]. fold tk in Ht, Hwt.
  set (within := (off + done) mod cs) in *. set (idx := (off + done) / cs) in *.
  assert (Hne : cs ≠ 0) by lia. pose proof (Z.div_mod (off + done) cs Hne) as Hdm.
  fold idx within in Hdm. assert (Hidx : 0 ≤ idx) by (apply Z.div_pos; lia).
  unfold write_piece. apply wp_yield; [done|]. intros s1 Hwc1 Hset1.
  destruct (st_sizes _ _ Hset1) as [_ Hc1 Hp1]. fold cs in Hc1. wp_step.
  eapply wp_mono; [apply load_for_write_spec; [done|done|rewrite Hc1, Hp1; lia]| |done].
  intros d s2 (Hwc2 & Hset2 & Hchunk). apply (chunk_of_settled _ _ _ _ Hset1) in Hchunk.
  destruct Hchunk as [Hfit Hbytes]. fold cs in Hbytes. pose proof (fit_len _ _ _ Hfit) as Hl. fold cs in Hl.
  wp_step. apply wp_slice; [lia|lia|]. set (src := sub data done _).
  assert (Hsl : Zlen src = tk) by (unfold src; rewrite Zlen_sub; lia).
  wp_step. apply wp_copy_into; [lia|lia|lia|].
  apply wp_yield; [done|]. intros s3 Hwc3 Hset3.
  assert (Hset : settled s s3) by (etrans; [done|by etrans]).
  destruct (st_sizes _ _ Hset) as [_ Hc3 Hp3]. fold cs in Hc3.
  assert (Hbyte : ∀ w, 0 ≤ w < cs →
    nthb (splice d within src) w = Cached.progress f off data (done + tk) (idx * cs + w)).
  { intros w Hw'. rewrite nthb_splice by lia. rewrite <-Hbytes by lia. rewrite Hsh by lia.
    unfold Cached.progress. rewrite Hsl. destruct (decide (within ≤ w < within + tk)) as [Hi|Hi].
    - rewrite decide_True by nia. unfold src. rewrite nthb_sub by lia. f_equal. lia.
    - repeat case_decide; try done; exfalso; nia. }
  assert (Hnew : fits (wc_inner s3) idx (splice d within src)).
  { apply (fits_sizes (wc_inner s)); [apply Hset|]. destruct Hfit as [? ? ? Htail _].
    assert (Hlen : Zlen (splice d within src) = cs) by (by rewrite Zlen_splice by lia).
    constructor; [done|done|done|..].
    - intros w Hw' Hge. rewrite nthb_splice by lia. case_decide; [fold cs in Hge; nia|by apply Htail].
    - rewrite <- (chunk_at_bytes cs (overwritten f off data) idx _ Hlen).
      + apply Hall. unfold is_u64 in *. split; [done|]. apply Z.le_trans with (idx * cs); [nia|]. lia.
      + intros w Hw'. rewrite Hbyte by done. unfold overwritten, Cached.progress.
        repeat case_decide; try done; exfalso; pose proof (eq_refl : tk = Z.min (cs - within) (Zlen data - done)); nia. }
  eapply wp_mono; [by apply store_dirty_spec| |done].
  intros _ s4 (Hwc4 & Hfr & Hsh4). split; [done|].
  split; [etrans; [apply settled_framed, Hset|done]|].
  intros a Ha. rewrite Hsh4 by done. rewrite Hc3. unfold Cached.progress.
  pose proof (Z.div_mod a cs Hne) as Hda. pose proof (Z.mod_pos_bound a cs (proj1 Hcs)) as Hma.
  case_decide as Hk.
  - rewrite Hbyte by done. rewrite Hk in Hda. by replace (idx * cs + a mod cs) with a by lia.
  - rewrite (st_shown _ _ Hset), Hsh by done. unfold Cached.progress.
    repeat case_decide; try done; exfalso; apply Hk; symmetry; apply Z.div_unique with (a - idx * cs); lia.
Qed.

Lemma holding_spec {A} (m : M (Core S) StoreError A) Q R s :
  ctl_exclusive (wc_ctl s) = false →
  wp m (λ a s', Q a (with_ctl (λ c, set_writers (saturating_sub (ctl_writers c) 1) c) s'))
       (λ e s', R e (with_ctl (λ c, set_writers (saturating_sub (ctl_writers c) 1) c) s'))
    (with_ctl (λ c, set_writers (ctl_writers c + 1) c) s) →
  wp (holding m) Q R s.
Proof.
  intros He Hm. unfold holding. wp_steps. rewrite He. wp_steps.
  eapply wp_mono; [exact Hm|..].
  - intros a s' HQ. by wp_steps.
  - intros e s' HR. by wp_steps.
Qed.

(** Taking and releasing the hold. *)
Lemma writers_ok s n : wc_ok s → wc_ok (with_ctl (set_writers n) s).
Proof. intros [[] Hw]. by split. Qed.

(** The pieces of a write, one after the other. *)
Definition write_pieces (off : Z) (data : bytes) : M (Core S) StoreError unit :=
  s ← get;
  chunk_loop (chunk_size (wc_inner s)) off (Zlen data)
    (λ _ chunk_idx within take done _, write_piece data chunk_idx within take done) tt.
Lemma write_pieces_spec f s off data :
  wc_ok s → 0 ≤ off → off + Zlen data ≤ capacity (wc_inner s) →
  (∀ a, 0 ≤ a → wc_shown s a = f a) →
  (∀ k, is_u64 k → allowed S (chunk_at (chunk_size (wc_inner s)) (overwritten f off data) k)) →
  wp (write_pieces off data) (λ _ s', wc_ok s' ∧ framed s s' ∧
    ∀ a, 0 ≤ a → wc_shown s' a = overwritten f off data a) fails s.
Proof.
  intros Hwc Hoff Hr Hsh Hall. destruct (geometry s Hwc) as [Hcs Hcap]. pose proof (Zlen_nonneg data) as Hnn.
  unfold write_pieces. wp_steps.
  eapply wp_mono; [apply (wp_chunk_loop (λ done _ s', wc_ok s' ∧ framed s s' ∧
      ∀ a, 0 ≤ a → wc_shown s' a = Cached.progress f off data done a) fails)| |done]; [lia|lia|..].
  - split; [done|]. split; [reflexivity|]. intros a Ha. rewrite Hsh by done. unfold Cached.progress.
    rewrite decide_False by lia. done.
  - intros done [] s1 Hd (Hwc1 & Hfr1 & Hsh1). destruct (fr_sizes _ _ Hfr1) as [_ Hc1 Hp1]. rewrite <-Hc1.
    eapply wp_mono; [apply (wc_write_piece_spec f); try done; [by rewrite Hp1|by rewrite Hc1]| |done].
    intros _ s2 (Hwc2 & Hfr2 & Hsh2). split; [done|]. split; [by etrans|done].
  - intros _ s1 (Hwc1 & Hfr1 & Hsh1). split; [done|]. split; [done|]. exact Hsh1.
Qed.

Lemma write_spec s off data :
  wc_ok s → 0 ≤ off → ctl_pause (wc_ctl s) = false → ctl_exclusive (wc_ctl s) = false →
  0 ≤ ctl_writers (wc_ctl s) →
  (∀ k, is_u64 k → allowed S (chunk_at (chunk_size (wc_inner s)) (overwritten (wc_shown s) off data) k)) →
  wp (write off data)
    (λ _ s', wc_ok s' ∧ framed s s' ∧ off + Zlen data ≤ capacity (wc_inner s) ∧
       (∀ a, 0 ≤ a → wc_shown s' a = overwritten (wc_shown s) off data a) ∧ within_budget s')
    (λ e s', wc_ok s' ∧ settled s s' ∧ bad_range (wc_inner s) off (Zlen data) e) s.
Proof.
  intros Hwc Hoff Hp He Hn Hall. destruct (geometry s Hwc) as [Hcs Hcap]. pose proof Hwc as [Hok _].
  unfold write. wp_steps. unfold is_none. rewrite bool_decide_false by apply Hok.
  apply holding_spec; [done|]. set (s0 := with_ctl _ s).
  assert (Hwc0 : wc_ok s0) by (by apply writers_ok).
  wp_step. rewrite check_range_spec by done. case_decide as Hr.
  2: { split; [|split; [|split; [lia|done]]]; [by do 2 apply writers_ok|].
       constructor; try done. simpl. unfold saturating_sub. lia. }
  wp_step. wp_step. change (wc_inner s) with (wc_inner s0).
  pose proof (write_pieces_spec (wc_shown s) s0 off data Hwc0 Hoff Hr ltac:(done) Hall) as Hw.
  eapply wp_mono; [exact Hw| |intros ?? Hff; exact (False_ind _ Hff)].
  intros _ s1 (Hwc1 & Hfr1 & Hsh1).
  eapply wp_mono; [apply evict_into_buffer_spec; [done|by rewrite (fr_pause _ _ Hfr1)]| |
    intros ?? Hff; exact (False_ind _ Hff)].
  intros _ s2 (Hwc2 & Hset2 & Hbud). split; [by apply writers_ok|]. split; [|split; [exact Hr|split]].
  - pose proof (framed_preorder.(PreOrder_Transitive) _ _ _ Hfr1 (settled_framed _ _ Hset2)) as Hfr.
    destruct Hfr. constructor; try done. simpl in *. rewrite fr_writers0. unfold saturating_sub. lia.
  - intros a Ha. etrans; [apply (st_shown _ _ Hset2 a Ha)|]. by apply Hsh1.
  - exact Hbud.
Qed.
End spec.
End WCOps.
