(* ===== verification/WriteBackFlush.v ===== *)
(** * The write-back store: flushing, and the contract of the layers above *)
From S2P Require Import Prelude Tables Text Store Ready Cache CachedStore WriteBuffer WriteCache WriteBack.
From S2P Require Import WriteBackSpec WriteBackWorker WriteBackOps.
#[local] Open Scope string_scope.
#[local] Open Scope list_scope.
#[local] Open Scope Z_scope.

Module WCFlush.
Import WC WCSpec WCWorker WCOps.
Section spec.
Context {S : Type} `{ReadyLaws S}.
Implicit Types s : Core S.
Implicit Types i : S.
Abbreviation fails := (λ (_ : StoreError) (_ : Core S), False).

(** ** Pausing the worker *)
Lemma ctl_ok s f :
  ctl_stop (f (wc_ctl s)) = ctl_stop (wc_ctl s) → ctl_parked (f (wc_ctl s)) = ctl_parked (wc_ctl s) →
  wc_ok s → wc_ok (with_ctl f s).
Proof. intros Hs Hp [[] (? & ? & ? & ?)]. split; [done|]. split; [done|]. simpl. by rewrite Hs, Hp. Qed.

Lemma wait_parked fuel s rt :
  wc_ok s → wc_buffer s = Some rt → ctl_pause (wc_ctl s) = true →
  (park_rank (wc_worker s) ≤ fuel)%nat →
  wp (wait_until fuel (λ s, ctl_parked (wc_ctl s)))
    (λ _ s', wc_ok s' ∧ settled s s' ∧ wc_worker s' = WParked) fails s.
Proof.
  revert s rt. induction fuel as [|fuel IH]; intros s rt Hwc Hb Hp Hf;
    pose proof Hwc as [_ (Hwk & Hst & Hpk & _)]; cbn [wait_until]; wp_steps; rewrite Hpk;
    destruct (wc_worker s) eqn:Hw; simpl in Hf; try lia; try (by wp_steps); try done.
  all: destruct (worker_turn_run s rt Hwc Hb) as (s' & Hrun & Ht);
    wp_step; eapply wp_run; [done|];
    pose proof (tn_park _ _ Ht Hp ltac:(rewrite Hw; done)) as Hlt; rewrite Hw in Hlt; simpl in Hlt;
    pose proof (st_buffer _ _ (tn_settled _ _ Ht)) as Hb'; rewrite Hb in Hb';
    destruct (wc_buffer s') as [rt'|] eqn:Hbs; [|done];
    (eapply wp_mono; [apply (IH s' rt'); [apply Ht|done|by rewrite (st_pause _ _ (tn_settled _ _ Ht))|lia]| |done]);
    intros _ s2 (Hwc2 & Hset2 & Hw2); (split; [done|]); (split; [|done]);
    etrans; [apply Ht|done].
Qed.

(** The worker is out of the way. *)
Definition paused s : Prop :=
  match wc_buffer s with Some _ => wc_worker s = WParked | None => True end.

Lemma pause_worker_spec s :
  wc_ok s →
  wp pause_worker (λ _ s', wc_ok s' ∧ paused s' ∧
    ∃ b, settled (with_ctl (set_pause b) s) s') fails s.
Proof.
  intros Hwc. unfold pause_worker. wp_steps. destruct (wc_buffer s) as [rt|] eqn:Hb.
  - wp_steps. assert (Hwc1 : wc_ok (with_ctl (set_pause true) s)) by (by apply ctl_ok).
    eapply wp_mono; [apply (wait_parked _ _ rt Hwc1 Hb eq_refl)| |done].
    + simpl. destruct (wc_worker s); simpl; unfold PARK_TURNS; lia.
    + intros _ s' (Hwc' & Hset & Hw). split; [done|]. split; [|by exists true].
      unfold paused. by case_match.
  - wp_steps. split; [done|]. split; [unfold paused; by rewrite Hb|].
    exists (ctl_pause (wc_ctl s)). constructor; try done.
Qed.

(** ** The drained jobs *)
Definition job_map (jobs : list Job) : gmap Z bytes :=
  list_to_map ((λ j, (job_idx j, job_data j)) <$> jobs).

Lemma job_map_cons j jobs : job_map (j :: jobs) = <[job_idx j := job_data j]> (job_map jobs).
Proof. done. Qed.

Definition drained_jobs s : list Job :=
  (job_of_queued <$> filter (λ kv, ds_chunks (wc_dirty s) !! kv.1 = None) (map_to_list (queued s))) ++
  (job_of_dirty <$> map_to_list (ds_chunks (wc_dirty s))).

Lemma drained_keys s : NoDup (job_idx <$> drained_jobs s).
Proof.
  unfold drained_jobs. rewrite fmap_app, <-!list_fmap_compose. apply NoDup_app. split_and!.
  - change (job_idx ∘ job_of_queued) with (fst : Z * BufferedChunk → Z).
    eapply sublist_NoDup; [apply (NoDup_fst_map_to_list (queued s))|].
    apply fmap_sublist, sublist_filter.
  - intros k (kv & -> & Hkv)%list_elem_of_fmap (kv' & Heq & Hkv')%list_elem_of_fmap.
    apply list_elem_of_filter in Hkv as [Hn _]. simpl in *. destruct kv' as [k' c].
    apply elem_of_map_to_list in Hkv'. simpl in Heq. congruence.
  - change (job_idx ∘ job_of_dirty) with (fst : Z * DirtyChunk → Z). apply NoDup_fst_map_to_list.
Qed.

Lemma drained_elem s k d :
  (∃ j, j ∈ drained_jobs s ∧ job_idx j = k ∧ job_data j = d) ↔ cache_of s k = Some d.
Proof.
  unfold drained_jobs, cache_of, cached_in, Dirty.get. split.
  - intros (j & [Hj|Hj]%elem_of_app & <- & <-).
    + apply list_elem_of_fmap in Hj as ([k c] & -> & [Hn Hl]%list_elem_of_filter). simpl in *.
      apply elem_of_map_to_list in Hl. by rewrite Hn, Hl.
    + apply list_elem_of_fmap in Hj as ([k c] & -> & Hl). apply elem_of_map_to_list in Hl.
      simpl. by rewrite Hl.
  - destruct (ds_chunks (wc_dirty s) !! k) as [c|] eqn:Hc; simpl.
    + intros [= <-]. exists (job_of_dirty (k, c)). split; [|done]. apply elem_of_app. right.
      apply list_elem_of_fmap. exists (k, c). split; [done|]. by apply elem_of_map_to_list.
    + destruct (queued s !! k) as [c|] eqn:Hq; simpl; [|done]. intros [= <-].
      exists (job_of_queued (k, c)). split; [|done]. apply elem_of_app. left.
      apply list_elem_of_fmap. exists (k, c). split; [done|]. apply list_elem_of_filter.
      split; [done|]. by apply elem_of_map_to_list.
Qed.

Lemma drained_map s k : job_map (drained_jobs s) !! k = cache_of s k.
Proof.
  apply option_eq. intros d. rewrite <-drained_elem. unfold job_map.
  rewrite <-elem_of_list_to_map by (rewrite <-list_fmap_compose; apply drained_keys).
  rewrite list_elem_of_fmap. naive_solver.
Qed.

(** ** Writing the jobs out *)
Record flushing s0 (jobs : list Job) s : Prop := {
  fl_inner : usable (wc_inner s);
  fl_frame : framed s0 s;
  fl_dirty : ds_chunks (wc_dirty s) = ∅ ∧ ds_used_bytes (wc_dirty s) = 0;
  fl_buffer : ∀ rt, wc_buffer s = Some rt → rt_state rt = Buf.new;
  fl_worker : worker_ok s ∧ paused s;
  fl_keys : NoDup (job_idx <$> jobs);
  fl_fits : Forall (λ j, fits (wc_inner s) (job_idx j) (job_data j)) jobs;
  fl_shown : ∀ a, 0 ≤ a → wc_shown s0 a =
    match job_map jobs !! (a / chunk_size (wc_inner s)) with
    | Some d => nthb d (a mod chunk_size (wc_inner s))
    | None => shown (wc_inner s) a
    end;
  fl_disk : ∀ fs, wc_disk s = Some fs → fs_faults fs = [] ∧
    ∀ idx, is_u64 idx → fs_files fs !! Disk.file_name idx = job_map jobs !! idx
}.

Lemma emptied_queue s rt : wc_buffer s = Some rt → rt_state rt = Buf.new → queued s = ∅.
Proof. intros Hb He. unfold queued. by rewrite Hb, He. Qed.

Lemma take_all_jobs_spec s :
  wc_ok s → paused s →
  wp take_all_jobs (λ jobs s', flushing s jobs s') fails s.
Proof.
  intros Hwc Hpd. pose proof Hwc as [Hok (Hwk & Hst & Hpk & Hnb)]. unfold take_all_jobs. wp_steps.
  change (flushing s (drained_jobs s) (with_buffer (λ _, Buf.new) (with_dirty
    {| ds_chunks := ∅; ds_tick := ds_tick (wc_dirty s); ds_used_bytes := 0 |} s))).
  constructor; try done.
  - apply Hok.
  - constructor; try done. simpl. by destruct (wc_buffer s).
  - simpl. destruct (wc_buffer s); [|done]. by intros rt [= <-].
  - unfold worker_ok, paused, inflight in *. simpl. destruct (wc_buffer s) as [rt|]; simpl.
    + rewrite Hpd in *. naive_solver.
    + rewrite (Hnb eq_refl) in *. naive_solver.
  - apply drained_keys.
  - apply Forall_forall. intros j Hj. simpl. apply (cached_shown s); [done|].
    apply drained_elem. eauto.
  - intros a Ha. simpl. by rewrite drained_map.
  - intros fs Hfs. destruct (ok_disk _ Hok fs Hfs) as [Hf Hall]. split; [done|].
    intros idx Hidx. rewrite drained_map. by apply Hall.
Qed.

Lemma write_snapshot_spec s0 j jobs s :
  flushing s0 (j :: jobs) s → wp (write_snapshot j) (λ _ s', flushing s0 jobs s') fails s.
Proof.
  intros [Hu Hfr [Hd Hd0] Hb [Hwk Hpd] Hk Hf Hsh Hdk]. unfold write_snapshot. wp_step.
  apply Forall_cons in Hf as [Hfj Hf]. rewrite fmap_cons in Hk. apply NoDup_cons in Hk as [Hnj Hk].
  assert (Hjm : job_map jobs !! job_idx j = None).
  { apply not_elem_of_list_to_map. by rewrite <-list_fmap_compose. }
  eapply wp_mono; [by apply write_inner_spec| |done].
  intros _ s1 (i' & -> & Hu' & Hs & Hwr). wp_steps. simpl. rewrite Hd, bool_decide_false by
    (rewrite lookup_empty; by intros [? ?]).
  eapply wp_run; [apply remove_file_run; intros fs Hfs; by apply Hdk|].
  constructor; try done.
  - etrans; [done|]. constructor; try done. simpl. apply same_dir_removed. exact (fits_u64 _ _ _ Hu Hfj).
  - destruct Hwk as (Hw & Hst & Hpk & Hnb). split; [|done]. split; [|by split].
    unfold paused in Hpd. simpl. destruct (wc_buffer s); [by rewrite Hpd in *|by rewrite (Hnb eq_refl) in *].
  - eapply Forall_impl; [done|]. intros x Hx. by eapply fits_sizes.
  - intros a Ha. rewrite Hsh by done. simpl. rewrite job_map_cons, (ss_chunk _ _ Hs).
    destruct (decide (a / chunk_size (wc_inner s) = job_idx j)) as [Heq|Hne].
    + rewrite Heq, lookup_insert_eq, Hjm. by rewrite Hwr, decide_True.
    + rewrite lookup_insert_ne by done. case_match; [done|]. by rewrite Hwr, decide_False.
  - simpl. destruct (wc_disk s) as [fs|]; [|done]. intros fs' [= <-].
    destruct (Hdk fs eq_refl) as [Hfl Hall]. split; [done|]. intros idx Hidx. simpl.
    rewrite job_map_cons in Hall. destruct (decide (idx = job_idx j)) as [->|Hne].
    + by rewrite lookup_delete_eq, Hjm.
    + rewrite lookup_delete_ne.
      2: { intros Heq. apply file_name_inj in Heq; [done|exact (fits_u64 _ _ _ Hu Hfj)|done]. }
      by rewrite Hall, lookup_insert_ne.
Qed.

(** The same without the contents: what is left when jobs are thrown away. *)
Record unloading s0 (jobs : list Job) s : Prop := {
  ul_inner : usable (wc_inner s);
  ul_frame : framed s0 s;
  ul_dirty : ds_chunks (wc_dirty s) = ∅ ∧ ds_used_bytes (wc_dirty s) = 0;
  ul_buffer : ∀ rt, wc_buffer s = Some rt → rt_state rt = Buf.new;
  ul_worker : worker_ok s ∧ paused s;
  ul_keys : NoDup (job_idx <$> jobs);
  ul_fits : Forall (λ j, fits (wc_inner s) (job_idx j) (job_data j)) jobs;
  ul_disk : ∀ fs, wc_disk s = Some fs → fs_faults fs = [] ∧
    ∀ idx, is_u64 idx → fs_files fs !! Disk.file_name idx = job_map jobs !! idx
}.
Lemma flushing_unloading s0 jobs s : flushing s0 jobs s → unloading s0 jobs s.
Proof. by intros []. Qed.

Lemma remove_job_spec s0 j jobs s :
  unloading s0 (j :: jobs) s → wp (remove_file (job_idx j)) (λ _ s', unloading s0 jobs s') fails s.
Proof.
  intros [Hu Hfr [Hd Hd0] Hb [Hwk Hpd] Hk Hf Hdk].
  apply Forall_cons in Hf as [Hfj Hf]. rewrite fmap_cons in Hk. apply NoDup_cons in Hk as [Hnj Hk].
  assert (Hjm : job_map jobs !! job_idx j = None).
  { apply not_elem_of_list_to_map. by rewrite <-list_fmap_compose. }
  eapply wp_run; [apply remove_file_run; intros fs Hfs; by apply Hdk|].
  constructor; try done.
  - etrans; [done|]. constructor; try done. simpl. apply same_dir_removed. exact (fits_u64 _ _ _ Hu Hfj).
  - simpl. destruct (wc_disk s) as [fs|]; [|done]. intros fs' [= <-].
    destruct (Hdk fs eq_refl) as [Hfl Hall]. split; [done|]. intros idx Hidx. simpl.
    rewrite job_map_cons in Hall. destruct (decide (idx = job_idx j)) as [->|Hne].
    + by rewrite lookup_delete_eq, Hjm.
    + rewrite lookup_delete_ne.
      2: { intros Heq. apply file_name_inj in Heq; [done|exact (fits_u64 _ _ _ Hu Hfj)|done]. }
      by rewrite Hall, lookup_insert_ne.
Qed.

(** All jobs gone: the caches are empty. *)
Definition emptied s0 s : Prop :=
  wc_ok s ∧ framed s0 s ∧ ds_chunks (wc_dirty s) = ∅ ∧ queued s = ∅.
Lemma unloading_done s0 s : wc_ok s0 → unloading s0 [] s → emptied s0 s.
Proof.
  intros [Hok0 _] [Hu Hfr [Hd Hd0] Hb [Hwk Hpd] _ _ Hdk].
  assert (Hq : queued s = ∅).
  { unfold queued. destruct (wc_buffer s) as [rt|] eqn:Hbuf; [|done]. by rewrite (Hb rt eq_refl). }
  split; [split; [|done]|done].
  constructor; [done|by rewrite (fr_mode _ _ Hfr); apply Hok0|by rewrite (fr_max _ _ Hfr); apply Hok0| | |].
  - constructor; rewrite ?Hd, ?Hd0, ?map_sum_empty; [apply map_Forall_empty|done|done].
  - intros rt Hrt. rewrite (Hb rt Hrt).
    constructor; simpl; rewrite ?map_sum_empty; [apply map_Forall_empty|done| |].
    + intros idx. rewrite lookup_empty. set_solver.
    + pose proof (fr_buffer _ _ Hfr) as Hbm. rewrite Hrt in Hbm.
      destruct (wc_buffer s0) as [rt0|] eqn:Hb0; [|done]. simpl in Hbm. injection Hbm as ->.
      rewrite (ss_chunk _ _ (fr_sizes _ _ Hfr)). apply (ok_buffer _ Hok0 rt0 Hb0).
  - intros fs Hfs. destruct (Hdk fs Hfs) as [Hf Hall]. split; [done|].
    intros idx Hidx. rewrite Hall by done. unfold cached_in, Dirty.get. by rewrite Hd, Hq, !lookup_empty.
Qed.

(** All written: the caches are empty and the inner store shows the volume. *)
Definition flushed s0 s : Prop :=
  wc_ok s ∧ framed s0 s ∧ ds_chunks (wc_dirty s) = ∅ ∧ queued s = ∅ ∧
  ∀ a, 0 ≤ a → shown (wc_inner s) a = wc_shown s0 a.

Lemma empty_shown s a :
  ds_chunks (wc_dirty s) = ∅ → queued s = ∅ → wc_shown s a = shown (wc_inner s) a.
Proof.
  intros Hd Hq. unfold wc_shown, cache_of, cached_in, Dirty.get. by rewrite Hd, Hq, !lookup_empty.
Qed.

Lemma flushing_done s0 s : wc_ok s0 → flushing s0 [] s → flushed s0 s.
Proof.
  intros Hwc0 Hfl. destruct (unloading_done s0 s Hwc0 (flushing_unloading _ _ _ Hfl)) as (Hwc & Hfr & Hd & Hq).
  split; [done|]. split; [done|]. split; [done|]. split; [done|].
  intros a Ha. by rewrite (fl_shown _ _ _ Hfl).
Qed.

Lemma exclusive_spec (f : M (Core S) StoreError unit) Q R s :
  ctl_writers (wc_ctl s) = 0 →
  wp f (λ _ s', Q tt (with_ctl (set_exclusive false) s'))
       (λ e s', R e (with_ctl (set_exclusive false) s')) (with_ctl (set_exclusive true) s) →
  wp (with_exclusive f) Q R s.
Proof.
  intros Hn Hf. unfold with_exclusive. wp_steps. simpl. rewrite Hn. simpl. wp_steps.
  eapply wp_mono; [exact Hf|..]; intros ? s' ?; by wp_steps.
Qed.

(** Nobody else is at work. *)
Definition idle s : Prop :=
  ctl_pause (wc_ctl s) = false ∧ ctl_exclusive (wc_ctl s) = false ∧ ctl_writers (wc_ctl s) = 0.

Lemma framed_idle s s' : framed s s' → idle s → idle s'.
Proof.
  intros Hfr (Hp & He & Hw). unfold idle.
  by rewrite (fr_pause _ _ Hfr), (fr_exclusive _ _ Hfr), (fr_writers _ _ Hfr).
Qed.

(** Framing across a bracket that changes the control block and restores it. *)
Lemma reframe s f s' g :
  framed (with_ctl f s) s' → idle s → idle (with_ctl g s') → framed s (with_ctl g s').
Proof.
  intros [] (Hp & He & Hw) (Hp' & He' & Hw'). constructor; try done; simpl in *; congruence.
Qed.

Lemma flush_jobs_spec s :
  wc_ok s → wp flush_jobs (λ _ s', ∃ b s1, settled (with_ctl (set_pause b) s) s1 ∧
    ∃ s2, flushed s1 s2 ∧ s' = with_ctl (set_pause false) s2) fails s.
Proof.
  intros Hwc. unfold flush_jobs. wp_step.
  eapply wp_mono; [by apply pause_worker_spec| |done]. intros _ s1 (Hwc1 & Hpd & b & Hset). wp_step.
  eapply wp_mono; [by apply take_all_jobs_spec| |done]. intros jobs s2 Hfl. wp_step.
  eapply wp_mono; [apply (wp_for_each (λ _ post _ s', flushing s1 post s') fails);
    [|exact Hfl]| |done].
  - intros pre j post acc s3 Hfl3. by apply write_snapshot_spec.
  - intros [] s3 Hfl3. unfold resume_worker. wp_step. exists b, s1. split; [done|].
    exists s3. split; [|done]. by apply flushing_done.
Qed.

Lemma flush_core_spec s :
  wc_ok s → idle s → wp (with_exclusive flush_jobs) (λ _ s', flushed s s') fails s.
Proof.
  intros Hwc Hidle. apply exclusive_spec; [apply Hidle|].
  set (s0 := with_ctl (set_exclusive true) s).
  assert (Hwc0 : wc_ok s0) by (by apply ctl_ok).
  eapply wp_mono; [by apply flush_jobs_spec| |done].
  intros _ s' (b & s1 & Hset & s2 & (Hwc2 & Hfr2 & Hd & Hq & Hsh) & ->).
  split; [apply ctl_ok; [done|done|by apply ctl_ok]|]. split; [|split; [done|split; [done|]]].
  - change (framed s (with_ctl (λ c, set_exclusive false (set_pause false c)) s2)).
    apply (reframe s (λ c, set_pause b (set_exclusive true c))); [|done|].
    + etrans; [apply settled_framed; exact Hset|done].
    + destruct Hidle as (Hp & He & Hw). unfold idle. simpl.
      rewrite (fr_writers _ _ Hfr2), (st_writers _ _ Hset). done.
  - intros a Ha. simpl. rewrite Hsh by done. rewrite (st_shown _ _ Hset) by done. done.
Qed.

(** Throwing the cached chunks away. *)
Lemma discard_dirty_spec s :
  wc_ok s → idle s → wp discard_dirty (λ _ s', emptied s s') fails s.
Proof.
  intros Hwc Hidle. pose proof Hwc as [Hok _]. unfold discard_dirty. wp_steps.
  unfold is_none. rewrite bool_decide_false by apply Hok.
  apply exclusive_spec; [apply Hidle|]. set (s0 := with_ctl (set_exclusive true) s).
  assert (Hwc0 : wc_ok s0) by (by apply ctl_ok). wp_step.
  eapply wp_mono; [by apply pause_worker_spec| |done]. intros _ s1 (Hwc1 & Hpd & b & Hset). wp_step.
  eapply wp_mono; [by apply take_all_jobs_spec| |done]. intros jobs s2 Hfl. wp_step.
  eapply wp_mono; [apply (wp_for_each (λ _ post _ s', unloading s1 post s') fails);
    [|exact (flushing_unloading _ _ _ Hfl)]| |done].
  - intros pre j post acc s3 Hul. by apply remove_job_spec.
  - intros [] s3 Hul. unfold resume_worker. wp_step.
    destruct (unloading_done s1 s3 Hwc1 Hul) as (Hwc3 & Hfr3 & Hd & Hq).
    split; [apply ctl_ok; [done|done|by apply ctl_ok]|]. split; [|done].
    change (framed s (with_ctl (λ c, set_exclusive false (set_pause false c)) s3)).
    apply (reframe s (λ c, set_pause b (set_exclusive true c))); [|done|].
    + etrans; [apply settled_framed; exact Hset|done].
    + destruct Hidle as (Hp & He & Hw). unfold idle. simpl.
      rewrite (fr_writers _ _ Hfr3), (st_writers _ _ Hset). done.
Qed.

(** Operations of the inner store on a flushed state. *)
Lemma inner_flushed s s1 i' :
  flushed s s1 → kept (wc_inner s1) i' → flushed s (with_inner i' s1).
Proof.
  intros (Hwc & Hfr & Hd & Hq & Hsh) Hk. destruct (inner_kept s1 i' Hwc Hk) as [Hwc' Hset].
  split; [done|]. split; [etrans; [done|by apply settled_framed]|]. split; [done|]. split; [done|].
  intros a Ha. simpl. rewrite (kp_shown _ _ Hk) by done. by apply Hsh.
Qed.

Lemma flush_all_spec s :
  wc_ok s → idle s → wp flush_all (λ _ s', flushed s s') fails s.
Proof.
  intros Hwc Hidle. pose proof Hwc as [Hok _]. unfold flush_all. wp_steps.
  unfold is_none. rewrite bool_decide_false by apply Hok. wp_step.
  eapply wp_mono; [by apply flush_core_spec| |done]. intros [] s1 Hfl. apply wp_wc_inner.
  eapply wp_mono; [apply rs_flush; apply Hfl| |done]. intros [] i' Hk. by apply inner_flushed.
Qed.

Lemma flushed_shown s s' a : flushed s s' → 0 ≤ a → wc_shown s' a = wc_shown s a.
Proof. intros (_ & _ & Hd & Hq & Hsh) Ha. by rewrite empty_shown, Hsh. Qed.

(** ** Capacity *)
Lemma set_cap_spec s n :
  wc_ok s → idle s → is_u64 n →
  wp (set_cap n)
    (λ _ s', wc_ok s' ∧ idle s' ∧ (wc_sched s = [] → wc_sched s' = []) ∧
       block_size (wc_inner s') = block_size (wc_inner s) ∧
       chunk_size (wc_inner s') = chunk_size (wc_inner s) ∧ capacity (wc_inner s') = n ∧
       capacity (wc_inner s) ≤ n ∧ n mod block_size (wc_inner s) = 0 ∧ wc_mode s' = wc_mode s ∧
       ∀ a, 0 ≤ a → wc_shown s' a = wc_shown s a)
    (λ e s', flushed s s' ∧ (n mod block_size (wc_inner s) ≠ 0 ∨ n < capacity (wc_inner s))) s.
Proof.
  intros Hwc Hidle Hn. unfold set_cap. wp_step.
  eapply wp_mono; [by apply flush_all_spec| |intros ?? Hff; exact (False_ind _ Hff)].
  intros [] s1 Hfl. pose proof Hfl as (Hwc1 & Hfr & Hd & Hq & Hsh).
  destruct (fr_sizes _ _ Hfr) as [Hb1 Hc1 Hp1]. apply wp_wc_inner.
  eapply wp_mono; [apply rs_set_capacity; [apply Hwc1|done]|..]; rewrite Hb1, Hp1.
  - intros _ i' (Hu & Hbs & Hcs & Hcap & Hle & Hmod & Hsh').
    pose proof Hwc1 as [Hok1 (Hwk & Hst & Hpk & Hnb)].
    assert (Hidle1 : idle s1) by (by eapply framed_idle).
    split; [split|].
    + destruct Hok1 as [_ Hm Hx [Hdf Hdu Hdx] Hbuf Hdk]. constructor; try done; simpl.
      * rewrite Hd, map_sum_empty in *. constructor; rewrite ?Hd, ?map_sum_empty; [apply map_Forall_empty|lia|lia].
      * intros rt Hrt. destruct (Hbuf rt Hrt) as [Hbf Hbu Hbo Hbm].
        unfold queued in Hq. rewrite Hrt in Hq. constructor; [rewrite Hq; apply map_Forall_empty|done|done|].
        by rewrite Hcs.
    + split; [|done]. cbn [wc_worker with_inner].
      destruct (wc_worker s1) as [| | |j|j|j|j r| | |]; try done.
      destruct Hwk as (_ & [_ Hl] & _). by rewrite Hq in Hl.
    + split; [done|]. split; [apply Hfr|]. split; [simpl; congruence|]. split; [simpl; congruence|].
      split; [done|]. split; [done|]. split; [done|]. split; [apply Hfr|].
      intros a Ha. rewrite empty_shown by done. simpl. rewrite Hsh' by done. by apply Hsh.
  - intros e i' [Hk Hor]. split; [by apply inner_flushed|done].
Qed.

(** ** Deleting a chunk *)
Lemma wait_landed fuel s idx :
  wc_ok s → (flight_rank (wc_worker s) ≤ fuel)%nat →
  wp (wait_until fuel (λ s, negb (bool_decide (inflight s = Some idx))))
    (λ _ s', wc_ok s' ∧ settled s s' ∧ inflight s' ≠ Some idx) fails s.
Proof.
  revert s. induction fuel as [|fuel IH]; intros s Hwc Hf; cbn [wait_until]; wp_steps;
    (destruct (bool_decide_reflect (inflight s = Some idx)) as [Hi|Hi]; [simpl|wp_steps; by split]).
  all: assert (Hfl : (0 < flight_rank (wc_worker s))%nat)
    by (pose proof Hwc as [_ (Hwk & _)]; destruct (wc_worker s); simpl; try lia; congruence).
  { lia. }
  destruct (wc_buffer s) as [rt|] eqn:Hb; [|unfold inflight in Hi; by rewrite Hb in Hi].
  destruct (worker_turn_run s rt Hwc Hb) as (s' & Hrun & Ht). wp_step. eapply wp_run; [done|].
  pose proof (tn_flight _ _ Ht Hfl). eapply wp_mono; [apply IH; [apply Ht|lia]| |done].
  intros _ s2 (Hwc2 & Hset2 & Hn). split; [done|]. split; [etrans; [apply Ht|done]|done].
Qed.

(** Dropping every cached copy of a chunk that is not in flight. *)
Definition dropped s (idx : Z) : Core S :=
  on_files (base.delete (Disk.file_name idx))
    (with_buffer (Buf.remove idx) (with_dirty (Dirty.remove idx (wc_dirty s)) s)).

Lemma dropped_queue s idx k :
  queued (dropped s idx) !! k = if decide (k = idx) then None else queued s !! k.
Proof.
  unfold dropped. change (queued (on_files _ ?x)) with (queued x).
  rewrite queued_with_buffer. simpl. unfold queued. destruct (wc_buffer s) as [rt|]; [|by case_decide].
  unfold Buf.remove. destruct (bs_chunks (rt_state rt) !! idx) as [e|] eqn:He; simpl.
  - case_decide as Hk; [subst; apply lookup_delete_eq|by rewrite lookup_delete_ne].
  - by case_decide as Hk; subst.
Qed.

Lemma dropped_cache s idx k :
  cache_of (dropped s idx) k = if decide (k = idx) then None else cache_of s k.
Proof.
  unfold cache_of, cached_in. rewrite dropped_queue.
  cbn [wc_dirty dropped on_files with_disk with_buffer with_dirty]. rewrite get_remove.
  by case_decide.
Qed.

Lemma dropped_inflight s idx :
  inflight s ≠ Some idx → inflight (dropped s idx) = inflight s.
Proof.
  intros Hi. unfold dropped. change (inflight (on_files _ ?x)) with (inflight x).
  rewrite inflight_with_buffer. simpl. unfold inflight in *. destruct (wc_buffer s) as [rt|]; [|done].
  unfold Buf.remove. destruct (bs_chunks _ !! idx); [|done]. simpl. by rewrite decide_False.
Qed.

(** The same with the chunk gone from the inner store. *)
Lemma deleted_ok s idx i' :
  wc_ok s → is_u64 idx → inflight s ≠ Some idx → usable i' → same_sizes (wc_inner s) i' →
  (∀ a, 0 ≤ a → shown i' a =
     if decide (a / chunk_size (wc_inner s) = idx) then Byte.x00 else shown (wc_inner s) a) →
  let s' := with_inner i' (dropped s idx) in
  wc_ok s' ∧ framed s s' ∧ ∀ a, 0 ≤ a → wc_shown s' a =
    if decide (a / chunk_size (wc_inner s) = idx) then Byte.x00 else wc_shown s a.
Proof.
  intros Hwc Hidx Hi Hu Hs Hsh s'. pose proof Hwc as [Hok (Hwk & Hst & Hpk & Hnb)].
  assert (Hcache : ∀ k, cache_of s' k = if decide (k = idx) then None else cache_of s k)
    by (intros; apply dropped_cache).
  destruct (geometry s Hwc) as [Hcs _].
  assert (Hh : ∀ j, holds s j → holds s' j ∧ job_idx j ≠ idx).
  { intros j [Hj Hq]. assert (job_idx j ≠ idx) by congruence. split; [|done]. split.
    - etrans; [by apply dropped_inflight|done].
    - etrans; [apply dropped_queue|]. by rewrite decide_False. }
  split; [split|split].
  - destruct Hok as [_ Hm Hx Hd Hbuf Hdk]. constructor; try done.
    + eapply dirty_ok_sizes; [done|]. by apply dirty_remove_ok.
    + simpl. destruct (wc_buffer s) as [rt|]; [|done]. intros rt' [= <-]. simpl.
      eapply buf_ok_sizes; [done|]. by apply buf_remove_ok, Hbuf.
    + simpl. destruct (wc_disk s) as [fs|]; [|done]. intros fs' [= <-].
      destruct (Hdk fs eq_refl) as [Hf Hall]. split; [done|]. intros k Hk.
      change (base.delete (Disk.file_name idx) (fs_files fs) !! Disk.file_name k = cache_of s' k).
      rewrite Hcache. case_decide as Hki; [subst; apply lookup_delete_eq|].
      rewrite lookup_delete_ne; [by apply Hall|]. intros Heq. by apply file_name_inj in Heq.
  - split; [|split; [done|split; [done|]]].
    + assert (Hin : inflight s' = inflight s) by (by apply dropped_inflight).
      cbn [wc_worker s' with_inner dropped on_files with_disk with_buffer with_dirty].
      destruct (wc_worker s) as [| | |j|j|j|j r| | |] eqn:Hw; try (by rewrite Hin); try done;
        try (by apply Hh). destruct Hwk as (-> & Hhj & Hon). destruct (Hh j Hhj) as [Hhj' Hne].
      split; [done|]. split; [done|]. intros w Hw'. simpl in *. rewrite (ss_chunk _ _ Hs) in *.
      destruct (wc_buffer s) as [rt|] eqn:Hb; [|by specialize (Hnb eq_refl)].
      pose proof (fit_idx _ _ _ (job_fits s j rt Hok Hb Hhj)).
      rewrite Hsh by nia. rewrite addr_div by lia. rewrite decide_False by done. by apply Hon.
    + simpl. destruct (wc_buffer s); [done|]. auto.
  - constructor; try done; simpl; [by destruct (wc_buffer s)|by apply same_dir_removed].
  - intros a Ha. unfold wc_shown. rewrite Hcache. simpl. rewrite (ss_chunk _ _ Hs).
    case_decide as Hk; [by rewrite Hsh, decide_True by done|].
    destruct (cache_of s _); [done|]. by rewrite Hsh, decide_False by done.
Qed.

Lemma yield_none s : wc_sched s = [] → yield s = (Ok tt, s).
Proof. intros Hs. unfold yield, mbind, M_bind, get. by rewrite Hs. Qed.

Lemma wc_delete_spec s idx :
  wc_ok s → wc_sched s = [] → is_u64 idx →
  wp (delete idx)
    (λ _ s', wc_ok s' ∧ framed s s' ∧
       ∀ a, 0 ≤ a → wc_shown s' a =
         if decide (a / chunk_size (wc_inner s) = idx) then Byte.x00 else wc_shown s a) fails s.
Proof.
  intros Hwc Hsch Hidx. pose proof Hwc as [Hok _]. unfold delete. wp_steps.
  unfold is_none. rewrite bool_decide_false by apply Hok. unfold remove_cached. wp_steps.
  eapply wp_run; [by apply yield_none|]. wp_step.
  eapply wp_mono; [apply wait_landed; [done|]| |done].
  { destruct (wc_worker s); simpl; unfold PARK_TURNS; lia. }
  intros _ s1 (Hwc1 & Hset & Hi). pose proof (st_sched _ _ Hset Hsch) as Hs1.
  destruct (st_sizes _ _ Hset) as [_ Hc1 Hp1].
  wp_step. eapply wp_run; [by apply yield_none|]. wp_steps.
  eapply wp_run; [by apply yield_none|]. wp_steps.
  eapply wp_run; [by apply yield_none|]. wp_steps.
  eapply wp_run; [apply remove_file_run; intros fs Hfs; by apply (ok_disk _ (proj1 Hwc1))|]. wp_steps.
  eapply wp_run; [by apply yield_none|]. apply wp_wc_inner.
  eapply wp_mono; [apply rs_delete; [apply Hwc1|done]| |done].
  intros [] i' (Hu & Hs & Hsh). destruct (deleted_ok s1 idx i' Hwc1 Hidx Hi Hu Hs Hsh) as (Hwc' & Hfr & Hd).
  split; [exact Hwc'|]. split; [etrans; [by apply settled_framed|exact Hfr]|].
  intros a Ha. etrans; [apply (Hd a Ha)|]. rewrite Hc1. case_decide; [done|]. by apply (st_shown _ _ Hset).
Qed.

(** ** Listing *)
Lemma push_new_elem ks l k : k ∈ foldl push_new l ks ↔ k ∈ l ∨ k ∈ ks.
Proof.
  revert l. induction ks as [|x ks IH]; intros l; simpl; [set_solver|]. rewrite IH.
  unfold push_new. case_bool_decide; set_solver.
Qed.
Lemma push_new_NoDup ks l : NoDup l → NoDup (foldl push_new l ks).
Proof.
  revert l. induction ks as [|x ks IH]; intros l Hl; simpl; [done|]. apply IH.
  unfold push_new. case_bool_decide as Hx; [done|]. apply NoDup_app. split; [done|].
  split; [set_solver|apply NoDup_singleton].
Qed.

Lemma list_present_spec s :
  wc_ok s → wc_sched s = [] →
  wp list_present (λ l s', wc_ok s' ∧ settled s s' ∧ StronglySorted Z.lt l ∧ Forall is_u64 l ∧
    ∀ a, 0 ≤ a → wc_shown s a ≠ Byte.x00 → a / chunk_size (wc_inner s) ∈ l) fails s.
Proof.
  intros Hwc Hsch. pose proof Hwc as [Hok _]. unfold list_present. wp_step. apply wp_wc_inner.
  eapply wp_mono; [apply rs_present; apply Hok| |done].
  intros l i' (Hk & Hsort & Hu64 & Hall). destruct (inner_kept s i' Hwc Hk) as [Hwc' Hset].
  wp_steps. unfold is_none. rewrite bool_decide_false by apply Hok.
  wp_step. eapply wp_run; [by apply yield_none|]. wp_steps.
  eapply wp_run; [by apply yield_none|]. wp_steps.
  set (l1 := foldl push_new l _). set (l2 := foldl push_new l1 _).
  assert (Hel : ∀ k, k ∈ sort_unstable l2 ↔ k ∈ l ∨ is_Some (cache_of s k)).
  { intros k. rewrite sort_unstable_elem. unfold l2, l1. rewrite !push_new_elem.
    change (queued (with_inner i' s)) with (queued s). simpl.
    assert (Hkeys : ∀ {V} (m : gmap Z V), k ∈ (map_to_list m).*1 ↔ is_Some (m !! k)).
    { intros V m. rewrite list_elem_of_fmap. split.
      - intros ([k' v] & -> & Hv). apply elem_of_map_to_list in Hv. simpl. eauto.
      - intros [v Hv]. exists (k, v). split; [done|]. by apply elem_of_map_to_list. }
    rewrite !Hkeys. unfold cache_of, cached_in, Dirty.get.
    destruct (ds_chunks (wc_dirty s) !! k); simpl; rewrite ?fmap_is_Some; naive_solver. }
  split; [done|]. split; [done|]. split; [|split].
  - apply sort_unstable_NoDup. unfold l2, l1. by apply push_new_NoDup, push_new_NoDup, sorted_lt_nodup.
  - apply Forall_forall. intros k Hin. apply Hel in Hin as [Hin|[d Hd]].
    + by apply (proj1 (Forall_forall _ _) Hu64).
    + eapply fits_u64; [apply Hok|]. by apply (cached_shown s k d).
  - intros a Ha Hne. apply Hel. unfold wc_shown in Hne.
    destruct (cache_of s _) eqn:Hc; [right; eauto|left]. by apply Hall.
Qed.

(** ** The contract of the layers above *)

(** Write-through mode keeps no chunks; otherwise no other thread is at work and
    the worker moves only while the foreground waits. *)
Definition wc_usable s : Prop :=
  if decide (wc_mode s = WcNone)
  then usable (wc_inner s) ∧ ds_chunks (wc_dirty s) = ∅ ∧ wc_buffer s = None
  else wc_ok s ∧ idle s ∧ wc_sched s = [].

#[global] Instance write_back_ready : ReadyStore (Core S) := {
  usable := wc_usable;
  shown := wc_shown;
  allowed := allowed S;
  akin s s' := akin (wc_inner s) (wc_inner s')
}.
#[global] Instance core_akin : PreOrder (akin (S := Core S)).
Proof. split; [by intros s; simpl|]. intros s1 s2 s3 ??. simpl in *. by etrans. Qed.

Lemma usable_framed s s' : wc_usable s → wc_mode s ≠ WcNone → framed s s' → wc_ok s' → wc_usable s'.
Proof.
  unfold wc_usable. intros Hu Hm Hfr Hwc. rewrite decide_False in Hu by done.
  destruct Hu as (_ & Hidle & Hs). rewrite decide_False by (by rewrite (fr_mode _ _ Hfr)).
  split; [done|]. split; [by eapply framed_idle|]. by apply (fr_sched _ _ Hfr).
Qed.
Lemma sizes_framed s s' : framed s s' → same_sizes s s'.
Proof. intros []. destruct fr_sizes0. by constructor. Qed.
Lemma kept_settled s s' :
  wc_usable s → wc_mode s ≠ WcNone → settled s s' → wc_ok s' → kept s s'.
Proof.
  intros Hu Hm Hset Hwc. pose proof (settled_framed _ _ Hset) as Hfr.
  constructor; [by eapply usable_framed|by apply sizes_framed|apply Hset].
Qed.

(** Write-through mode: the inner store's own behaviour. *)
Lemma through_shown s i' a :
  wc_usable s → wc_mode s = WcNone → wc_shown (with_inner i' s) a = shown i' a.
Proof.
  unfold wc_usable. intros Hu Hm. rewrite decide_True in Hu by done. destruct Hu as (_ & Hd & Hb).
  apply empty_shown; [done|]. unfold queued. simpl. by rewrite Hb.
Qed.
Lemma through_usable s i' :
  wc_usable s → wc_mode s = WcNone → usable i' → wc_usable (with_inner i' s).
Proof. unfold wc_usable. intros Hu Hm Hi. rewrite decide_True in * by done. naive_solver. Qed.
Lemma through_self s : with_inner (wc_inner s) s = s.
Proof. by destruct s. Qed.
Lemma through_shown_self s a : wc_usable s → wc_mode s = WcNone → wc_shown s a = shown (wc_inner s) a.
Proof. intros Hu Hm. rewrite <-(through_self s) at 1. by apply through_shown. Qed.
Lemma through_kept s i' :
  wc_usable s → wc_mode s = WcNone → kept (wc_inner s) i' → kept s (with_inner i' s).
Proof.
  intros Hu Hm [Hi [] Hsh]. constructor; [by apply through_usable|by constructor|].
  intros a Ha. simpl. by rewrite through_shown, through_shown_self, Hsh.
Qed.
Lemma through_inner s : wc_usable s → wc_mode s = WcNone → usable (wc_inner s).
Proof. unfold wc_usable. intros Hu Hm. rewrite decide_True in Hu by done. apply Hu. Qed.

Lemma wp_through {A} (m m' : M (Core S) StoreError A) Q R s :
  wc_mode s = WcNone → wp m Q R s → wp (s ← get; if is_none s then m else m') Q R s.
Proof. intros Hm Hw. wp_steps. unfold is_none. by rewrite bool_decide_true. Qed.

Lemma through_laws_read s off buf :
  wc_usable s → wc_mode s = WcNone → 0 ≤ off →
  wp (read off buf)
    (λ buf' s', kept s s' ∧ off + Zlen buf ≤ capacity s ∧ Zlen buf' = Zlen buf ∧
       ∀ k, 0 ≤ k < Zlen buf → nthb buf' k = wc_shown s (off + k))
    (λ e s', kept s s' ∧ bad_range s off (Zlen buf) e) s.
Proof.
  intros Hu Hm Hoff. unfold read. wp_steps. unfold is_none. rewrite bool_decide_true by done.
  apply wp_wc_inner. eapply wp_mono; [apply rs_read; [by apply through_inner|done]|..].
  - intros buf' i' (Hk & Hin & Hl & Hb). split; [by apply through_kept|]. split; [done|]. split; [done|].
    intros k Hk'. rewrite Hb by done. by rewrite through_shown_self.
  - intros e i' [Hk Hbad]. split; [by apply through_kept|done].
Qed.

Lemma through_laws_write s off data :
  wc_usable s → wc_mode s = WcNone → 0 ≤ off → permitted s off data →
  wp (write off data)
    (λ _ s', wc_usable s' ∧ same_sizes s s' ∧ off + Zlen data ≤ capacity s ∧
       ∀ a, 0 ≤ a → wc_shown s' a = overwritten (wc_shown s) off data a)
    (λ e s', kept s s' ∧ bad_range s off (Zlen data) e) s.
Proof.
  intros Hu Hm Hoff Hall. unfold write. wp_steps. unfold is_none. rewrite bool_decide_true by done.
  apply wp_wc_inner. eapply wp_mono; [apply rs_write; [by apply through_inner|done|]|..].
  { intros k Hk. rewrite <- (chunk_at_ext _ (overwritten (wc_shown s) off data)); [by apply Hall|].
    intros a _. unfold overwritten. by rewrite through_shown_self. }
  - intros [] i' (Hi & [] & Hin & Hb). split; [by apply through_usable|]. split; [by constructor|].
    split; [done|]. intros a Ha. rewrite through_shown, Hb by done. unfold overwritten.
    case_decide; [done|]. by rewrite through_shown_self.
  - intros e i' [Hk Hbad]. split; [by apply through_kept|done].
Qed.

Lemma through_laws_set s n :
  wc_usable s → wc_mode s = WcNone → is_u64 n →
  wp (set_cap n)
    (λ _ s', wc_usable s' ∧ block_size s' = block_size s ∧ chunk_size s' = chunk_size s ∧
       capacity s' = n ∧ capacity s ≤ n ∧ n mod block_size s = 0 ∧
       ∀ a, 0 ≤ a → wc_shown s' a = wc_shown s a)
    (λ e s', kept s s' ∧ (n mod block_size s ≠ 0 ∨ n < capacity s)) s.
Proof.
  intros Hu Hm Hn. unfold set_cap, flush_all. wp_step. wp_steps.
  unfold is_none. rewrite bool_decide_true by done. apply wp_wc_inner.
  eapply wp_mono; [apply rs_flush; by apply through_inner| |intros ?? Hff; exact (False_ind _ Hff)].
  intros [] i1 Hk1. pose proof (through_kept s i1 Hu Hm Hk1) as Hks. destruct Hk1 as [Hu1 [Hb1 Hc1 Hp1] Hsh1].
  apply wp_wc_inner. simpl. eapply wp_mono; [apply rs_set_capacity; [done|done]|..]; rewrite Hb1, Hp1.
  - intros [] i' (Hi & Hbs & Hcs & Hcap & Hle & Hmod & Hsh).
    split; [by apply (through_usable (with_inner i1 s)); [apply Hks|done|]|].
    split; [simpl; congruence|]. split; [simpl; congruence|]. split; [done|]. split; [done|]. split; [done|].
    intros a Ha. change (with_inner i' (with_inner i1 s)) with (with_inner i' s).
    rewrite through_shown, through_shown_self, Hsh by done. by apply Hsh1.
  - intros e i' [Hk Hor]. split; [|done]. etrans; [exact Hks|].
    by apply (through_kept (with_inner i1 s)); [apply Hks|done|].
Qed.

(** Either write-through, or no other thread at work. *)
Lemma wc_usable_cases s :
  wc_usable s → (wc_mode s = WcNone ∧ ∀ idx, cache_of s idx = None) ∨
    wc_mode s ≠ WcNone ∧ wc_ok s ∧ idle s ∧ wc_sched s = [].
Proof.
  unfold wc_usable. case_decide as Hm; intros Hu; [left|right; done]. split; [done|]. intros idx.
  destruct Hu as (_ & Hd & Hb). unfold cache_of, cached_in, Dirty.get, queued. by rewrite Hd, Hb, !lookup_empty.
Qed.
Lemma usable_inner s : wc_usable s → usable (wc_inner s).
Proof. unfold wc_usable. intros Hu. case_decide; [apply Hu|]. apply Hu. Qed.

Lemma law_cached s idx d :
  wc_usable s → cache_of s idx = Some d → fits (wc_inner s) idx d ∧
    ∀ j, 0 ≤ j < chunk_size (wc_inner s) → wc_shown s (idx * chunk_size (wc_inner s) + j) = nthb d j.
Proof.
  intros Hu Hc. destruct (wc_usable_cases s Hu) as [[_ Hn]|(_ & Hwc & _)]; [congruence|].
  by apply cached_shown.
Qed.

Lemma wc_tail_zero s a : wc_usable s → capacity s ≤ a → wc_shown s a = Byte.x00.
Proof.
  intros Hu Ha. pose proof (usable_inner s Hu) as Hi. destruct (rs_geometry _ Hi) as (_ & Hcs & _).
  unfold wc_shown. destruct (cache_of s _) as [d|] eqn:Hc; [|by apply rs_tail].
  destruct (law_cached s _ d Hu Hc) as [[_ _ _ Ht] _].
  pose proof (Z.mod_pos_bound a _ (proj1 Hcs)). pose proof (Z.div_mod a (chunk_size (wc_inner s))).
  apply Ht; [done|]. change (capacity s) with (capacity (wc_inner s)) in Ha. lia.
Qed.

Lemma wc_image_allowed s idx :
  wc_usable s → is_u64 idx → allowed S (chunk_at (chunk_size (wc_inner s)) (wc_shown s) idx).
Proof.
  intros Hu Hidx. pose proof (usable_inner s Hu) as Hi. destruct (rs_geometry _ Hi) as (_ & Hcs & _).
  destruct (cache_of s idx) as [d|] eqn:Hc.
  - destruct (law_cached s _ d Hu Hc) as [[_ _ Hl _ Ha] Hsh]. by rewrite (chunk_at_bytes _ _ _ d).
  - rewrite (chunk_at_ext _ _ (shown (wc_inner s))); [by apply rs_image|].
    intros a Ha. unfold wc_shown. assert (a / chunk_size (wc_inner s) = idx) as ->; [|by rewrite Hc].
    symmetry. apply Z.div_unique with (a - idx * chunk_size (wc_inner s)); lia.
Qed.

(** After a flush the store below shows everything. *)
Lemma flush_down s :
  wc_usable s → wp flush_all (λ _ s', kept s s' ∧ (∀ a, 0 ≤ a → shown (wc_inner s') a = wc_shown s a) ∧
    ∀ idx, cache_of s' idx = None) fails s.
Proof.
  intros Hu. destruct (wc_usable_cases s Hu) as [[Hm Hn]|(Hm & Hwc & Hidle & Hs)].
  - apply wp_through; [done|]. apply wp_wc_inner. eapply wp_mono; [apply rs_flush; by apply usable_inner| |done].
    intros [] i' Hk. pose proof (through_kept s i' Hu Hm Hk) as Hks. split; [done|].
    split; [intros a Ha; rewrite through_shown_self by done; by apply Hk|].
    intros idx. exact (Hn idx).
  - eapply wp_mono; [by apply flush_all_spec| |done]. intros [] s' Hfl.
    pose proof Hfl as (Hwc' & Hfr & Hd & Hq & Hsh). split; [|split; [done|]].
    + constructor; [by eapply usable_framed|by apply sizes_framed|]. intros a Ha. by apply flushed_shown.
    + intros idx. unfold cache_of, cached_in, Dirty.get. by rewrite Hd, Hq, !lookup_empty.
Qed.

(** After throwing the dirty chunks away nothing is cached. *)
Lemma discard_empties s :
  wc_usable s → wp discard_dirty (λ _ s', wc_usable s' ∧ ∀ idx, cache_of s' idx = None) fails s.
Proof.
  intros Hu. destruct (wc_usable_cases s Hu) as [[Hm Hn]|(Hm & Hwc & Hidle & Hs)].
  - apply wp_through; [done|]. by wp_step.
  - eapply wp_mono; [by apply discard_dirty_spec| |done]. intros [] s' (Hwc' & Hfr & Hd & Hq).
    split; [by eapply usable_framed|]. intros idx. unfold cache_of, cached_in, Dirty.get.
    by rewrite Hd, Hq, !lookup_empty.
Qed.

Lemma wc_law_present s :
  wc_usable s →
  wp present_chunks
    (λ l s', kept s s' ∧ StronglySorted Z.lt l ∧ Forall is_u64 l ∧
       ∀ a, 0 ≤ a → wc_shown s a ≠ Byte.x00 → a / chunk_size s ∈ l) fails s.
Proof.
  intros Hu. destruct (wc_usable_cases s Hu) as [[Hm _]|(Hm & Hwc & Hidle & Hs)].
  - simpl. unfold list_present. wp_step. apply wp_wc_inner.
    eapply wp_mono; [apply rs_present; by apply usable_inner| |done].
    intros l i' (Hk & Hsort & Hu64 & Hall). wp_steps. unfold is_none. rewrite bool_decide_true by done.
    wp_step. split; [by apply through_kept|]. split; [done|]. split; [done|].
    intros a Ha. rewrite through_shown_self by done. by apply Hall.
  - eapply wp_mono; [by apply list_present_spec| |done].
    intros l s' (Hwc' & Hset & Hrest). split; [by apply kept_settled|done].
Qed.

Lemma wc_law_delete s idx :
  wc_usable s → is_u64 idx →
  wp (delete_chunk idx)
    (λ _ s', wc_usable s' ∧ same_sizes s s' ∧
       ∀ a, 0 ≤ a → wc_shown s' a = if decide (a / chunk_size s = idx) then Byte.x00 else wc_shown s a) fails s.
Proof.
  intros Hu Hidx. destruct (wc_usable_cases s Hu) as [[Hm _]|(Hm & Hwc & Hidle & Hs)].
  - simpl. apply wp_through; [done|]. apply wp_wc_inner.
    eapply wp_mono; [apply rs_delete; [by apply usable_inner|done]| |done].
    intros [] i' (Hi & [] & Hsh). split; [by apply through_usable|]. split; [by constructor|].
    intros a Ha. rewrite through_shown, Hsh by done. case_decide; [done|]. by rewrite through_shown_self.
  - eapply wp_mono; [by apply wc_delete_spec| |done].
    intros [] s' (Hwc' & Hfr & Hsh). split; [by eapply usable_framed|]. split; [by apply sizes_framed|done].
Qed.

#[global] Instance write_back_laws : ReadyLaws (Core S).
Proof.
  constructor; simpl.
  - apply core_akin.
  - intros s Hu. by apply (rs_geometry (wc_inner s)), usable_inner.
  - apply wc_tail_zero.
  - intros s off buf Hu Hoff. destruct (wc_usable_cases s Hu) as [[Hm _]|(Hm & Hwc & Hidle & Hs)].
    { by apply through_laws_read. }
    eapply wp_mono; [by apply read_spec|..].
    + intros buf' s' (Hwc' & Hset & Hrest). split; [by apply kept_settled|done].
    + intros e s' [-> Hbad]. split; [by apply kept_refl|done].
  - intros s Hu. by apply rs_blank, usable_inner.
  - apply wc_image_allowed.
  - intros s off data Hu Hoff Hall. destruct (wc_usable_cases s Hu) as [[Hm _]|(Hm & Hwc & (Hp & He & Hw) & Hs)].
    { by apply through_laws_write. }
    eapply wp_mono; [apply write_spec; try done; lia|..].
    + intros [] s' (Hwc' & Hfr & Hin' & Hsh & _). split; [by eapply usable_framed|].
      split; [by apply sizes_framed|]. by split.
    + intros e s' (Hwc' & Hset & Hbad). split; [by apply kept_settled|done].
  - intros s n Hu Hn. destruct (wc_usable_cases s Hu) as [[Hm _]|(Hm & Hwc & Hidle & Hs)].
    { by apply through_laws_set. }
    eapply wp_mono; [by apply set_cap_spec|..].
    + intros [] s' (Hwc' & Hidle' & Hs' & Hb & Hc & Hcap & Hle & Hmod & Hmode & Hsh).
      split; [|done]. unfold wc_usable. rewrite decide_False by congruence. auto.
    + intros e s' [Hfl Hor]. split; [|done]. pose proof Hfl as (Hwc' & Hfr & _).
      constructor; [by eapply usable_framed|by apply sizes_framed|]. intros a Ha. by apply flushed_shown.
  - intros s Hu. eapply wp_mono; [by apply flush_down|naive_solver|done].
  - apply wc_law_present.
  - apply wc_law_delete.
Qed.
End spec.
End WCFlush.
