(* ===== verification/WriteBackRecover.v ===== *)
(** * The write-back store: recovery after a crash

    In disk mode the chunk files are exactly the cached chunks, so restarting
    over the same directory and the same inner store shows the same volume. The
    system calls of [write_chunk_file] replace a chunk file atomically. *)
From S2P Require Import Prelude Tables Text Store Ready Cache CachedStore WriteBuffer WriteCache WriteBack.
From S2P Require Import WriteBackSpec WriteBackWorker WriteBackOps WriteBackFlush.
#[local] Open Scope string_scope.
#[local] Open Scope list_scope.
#[local] Open Scope Z_scope.

Module WCRecover.
Import WC WCSpec WCWorker WCOps WCFlush.

(** ** Directory entries *)
Lemma entry_index_file k : is_u64 k → Recover.entry_index (Disk.file_name k) = Some (Ok k).
Proof.
  intros Hk. unfold Recover.entry_index, Disk.file_name. set (h := Text.hex_fixed false 16 k).
  assert (Hhex : Text.all_chars Text.is_hexdigit h = true) by apply Text.hex_fixed_hexdigits.
  assert (Hlen : String.length h = 16%nat) by apply Text.hex_fixed_length.
  assert (Hs : Text.starts_with "." h = false).
  { destruct (Text.starts_with "." h) eqn:Hs; [|done]. apply Text.starts_with_inv in Hs as [r Hr].
    by rewrite Hr in Hhex. }
  assert (He : Text.ends_with ".tmp" h = false).
  { destruct (Text.ends_with ".tmp" h) eqn:He; [|done]. apply Text.ends_with_inv in He as [r Hr].
    rewrite Hr, Text.all_chars_app in Hhex. by rewrite andb_false_r in Hhex. }
  rewrite Hs, He, Hhex. unfold Text.str_len. rewrite Hlen.
  change (Z.of_nat 16 =? 16) with true. cbn [orb negb].
  unfold h. unfold is_u64 in Hk. rewrite Text.hex_fixed_roundtrip; [done|lia| |lia].
  change (16 ^ Z.of_nat 16) with (2 ^ 64). unfold u64_max in Hk. lia.
Qed.

(** The directory holds only what the cache put there. *)
Definition own_files (m : gmap string bytes) : Prop := ∀ name b,
  m !! name = Some b →
  Recover.entry_index name = None ∨ ∃ k, is_u64 k ∧ name = Disk.file_name k.

Lemma tmp_entry k : Recover.entry_index (Disk.tmp_name k) = None.
Proof.
  unfold Recover.entry_index, Disk.tmp_name. by rewrite Text.ends_with_app, orb_true_r.
Qed.
Lemma stamp_not_file k : Recover.STAMP_NAME ≠ Disk.file_name k.
Proof.
  intros Heq. apply (f_equal String.length) in Heq. unfold Disk.file_name in Heq.
  by rewrite Text.hex_fixed_length in Heq.
Qed.
Lemma stamp_not_tmp k : Recover.STAMP_NAME ≠ Disk.tmp_name k.
Proof.
  intros Heq. apply (f_equal String.length) in Heq. unfold Disk.tmp_name, Disk.file_name in Heq.
  by rewrite Text.str_length_app, Text.hex_fixed_length in Heq.
Qed.
(** What the store does to its directory keeps it its own. *)
Lemma same_dir_own fs fs' : same_dir (Some fs) (Some fs') → own_files (fs_files fs) → own_files (fs_files fs').
Proof.
  intros [_ Hsame] Hown name b Hb. destruct (Hsame name) as [Heq|[Hk|[k ->]]]; [|by right|left; apply tmp_entry].
  apply (Hown name b). by rewrite <- Heq.
Qed.

(** ** Loading *)
Lemma read_run name fs b :
  fs_faults fs = [] → fs_files fs !! name = Some b → Disk.read name fs = (Ok b, fs).
Proof. destruct fs as [dir m l]; simpl. intros -> Hb.
  unfold Disk.read, Disk.syscall, mbind, M_bind, gets. simpl. by rewrite Hb. Qed.

Lemma load_entry_run cs name fs b acc k :
  fs_faults fs = [] → fs_files fs !! name = Some b → is_u64 k → name = Disk.file_name k → Zlen b = cs →
  Recover.load_entry cs name acc fs = (Ok (<[k := b]> acc), fs).
Proof.
  intros Hf Hb Hk -> Hl. unfold Recover.load_entry. rewrite entry_index_file by done.
  unfold mbind, M_bind, lift, get, Disk.other, map_err. rewrite (read_run _ fs b) by done.
  rewrite Hl, Z.eqb_refl. done.
Qed.

Lemma load_all_spec cs fs :
  fs_faults fs = [] → own_files (fs_files fs) →
  (∀ k b, is_u64 k → fs_files fs !! Disk.file_name k = Some b → Zlen b = cs) →
  wp (for_each (map_to_list (fs_files fs)).*1 (Recover.load_entry cs) ∅)
    (λ acc fs', fs' = fs ∧ ∀ k d, acc !! k = Some d ↔
       is_u64 k ∧ fs_files fs !! Disk.file_name k = Some d) (λ _ _, False) fs.
Proof.
  intros Hf Hown Hlen. set (names := (map_to_list (fs_files fs)).*1).
  assert (Hname : ∀ n, n ∈ names ↔ is_Some (fs_files fs !! n)).
  { intros n. unfold names. rewrite list_elem_of_fmap. split.
    - intros ([n' b] & -> & Hb). apply elem_of_map_to_list in Hb. simpl. eauto.
    - intros [b Hb]. exists (n, b). split; [done|]. by apply elem_of_map_to_list. }
  eapply wp_mono; [apply (wp_for_each (λ pre post acc fs', fs' = fs ∧ (∀ n, n ∈ post → n ∈ names) ∧
    ∀ k d, acc !! k = Some d ↔ Disk.file_name k ∈ pre ∧ is_u64 k ∧
      fs_files fs !! Disk.file_name k = Some d) (λ _ _, False))| |done].
  - intros pre n post acc fs' (-> & Hpost & Hacc).
    destruct (proj1 (Hname n) (Hpost n ltac:(set_solver))) as [b Hb].
    destruct (Hown n b Hb) as [Hnone|(k & Hk & Hn)].
    + unfold Recover.load_entry. rewrite Hnone. wp_steps. split; [done|]. split; [set_solver|].
      intros k d. rewrite Hacc, elem_of_app, list_elem_of_singleton. split; [naive_solver|].
      intros ([Hin|Heq] & Hk & Hd); [done|]. subst n. by rewrite entry_index_file in Hnone.
    + eapply wp_run; [apply (load_entry_run cs n fs b acc k); try done; by apply (Hlen k); subst|].
      split; [done|]. split; [set_solver|]. intros k' d.
      rewrite elem_of_app, list_elem_of_singleton. destruct (decide (k' = k)) as [->|Hne].
      * rewrite lookup_insert_eq. subst n. rewrite Hb. naive_solver.
      * rewrite lookup_insert_ne, Hacc by done. split; [naive_solver|].
        intros ([Hin|Heq] & Hk' & Hd); [done|]. destruct Hne. apply file_name_inj; congruence.
  - split; [done|]. split; [done|]. intros k d. rewrite lookup_empty. set_solver.
  - intros acc fs' (-> & _ & Hacc). split; [done|]. intros k d. rewrite Hacc. split; [naive_solver|].
    intros [Hk Hd]. split; [apply Hname; eauto|done].
Qed.

Section stamp.
Context `{StampJson}.

(** The stamp of this volume is in place. *)
Definition stamped (fs : Fs) (volume : string) (cs : Z) : Prop :=
  ∃ b, fs_files fs !! Recover.STAMP_NAME = Some b ∧
    stamp_from_json b = inl {| stamp_volume := volume; stamp_chunk_size := cs |}.

Lemma same_dir_stamped fs fs' volume cs :
  same_dir (Some fs) (Some fs') → stamped fs volume cs → stamped fs' volume cs.
Proof.
  intros [_ Hsame] (b & Hb & Hst). exists b. split; [|done].
  destruct (Hsame Recover.STAMP_NAME) as [->|[(k & _ & Hk)|[k Hk]]]; [done|..].
  - by apply stamp_not_file in Hk.
  - by apply stamp_not_tmp in Hk.
Qed.

Lemma load_disk_cache_spec volume cs fs :
  fs_faults fs = [] → stamped fs volume cs → own_files (fs_files fs) →
  (∀ k b, is_u64 k → fs_files fs !! Disk.file_name k = Some b → Zlen b = cs) →
  ∃ m, Recover.load_disk_cache volume cs fs = (Ok m, fs) ∧
    ∀ k d, m !! k = Some d ↔ is_u64 k ∧ fs_files fs !! Disk.file_name k = Some d.
Proof.
  intros Hf (b & Hb & Hst) Hown Hlen.
  destruct (wp_ok _ _ _ (load_all_spec cs fs Hf Hown Hlen)) as (m & fs' & Hrun & -> & Hm).
  exists m. split; [|done]. destruct fs as [dir files l]; simpl in *. subst l.
  cbv [Recover.load_disk_cache mbind M_bind get Disk.other map_err Disk.create_dir_all Disk.syscall
    fs_faults fs_dir fs_files tail id Recover.check_stamp].
  rewrite Hb. unfold Disk.read, Disk.syscall, mbind, M_bind, gets. simpl. rewrite Hb. simpl.
  rewrite Hst. simpl. rewrite bool_decide_true, Z.eqb_refl by done. simpl. exact Hrun.
Qed.

(** Loading [fs] succeeds, gives the chunks [m] and leaves the directory [fs1],
    whose chunk files they are. *)
Record loads (volume : string) (cs : Z) fs (m : gmap Z bytes) fs1 : Prop := {
  ld_run : Recover.load_disk_cache volume cs fs = (Ok m, fs1);
  ld_faults : fs_faults fs1 = [];
  ld_stamped : stamped fs1 volume cs;
  ld_own : own_files (fs_files fs1);
  ld_files k : is_u64 k → fs_files fs1 !! Disk.file_name k = m !! k
}.

(** A directory no cache has used: without stamp and chunk files. *)
Definition unused fs : Prop :=
  fs_faults fs = [] ∧ fs_files fs !! Recover.STAMP_NAME = None ∧
  ∀ name b, fs_files fs !! name = Some b → Recover.entry_index name = None.

Lemma unused_loads `{!StampJsonLaws} volume cs fs : unused fs → ∃ fs1, loads volume cs fs ∅ fs1.
Proof.
  intros (Hf & Hns & Hnone).
  destruct (stamp_json_roundtrip {| stamp_volume := volume; stamp_chunk_size := cs |}) as (text & Hto & Hfrom).
  set (fs1 := Disk.with_files (<[Recover.STAMP_NAME := text]> (fs_files fs)) fs).
  assert (Hent : ∀ name b, fs_files fs1 !! name = Some b → Recover.entry_index name = None).
  { intros name b Hb. simpl in Hb. apply lookup_insert_Some in Hb as [[<- _]|[_ Hb]]; [done|by eapply Hnone]. }
  assert (Hown : own_files (fs_files fs1)) by (intros name b Hb; left; by eapply Hent).
  assert (Hno : ∀ k, is_u64 k → fs_files fs1 !! Disk.file_name k = None).
  { intros k Hk. apply eq_None_not_Some. intros [b Hb]. pose proof (Hent _ _ Hb) as He.
    by rewrite entry_index_file in He. }
  destruct (wp_ok _ _ _ (load_all_spec cs fs1 Hf Hown ltac:(intros k b Hk Hb; by rewrite Hno in Hb)))
    as (m & fs' & Hrun & -> & Hm).
  assert (m = ∅) as ->.
  { apply map_empty. intros k. apply eq_None_not_Some. intros [d [Hk Hd]%Hm]. by rewrite Hno in Hd. }
  exists fs1. constructor; [|done| |done|].
  - destruct fs as [dir files l]; simpl in Hf, Hns, Hnone. subst l.
    cbv [Recover.load_disk_cache mbind M_bind get Disk.other map_err Disk.create_dir_all Disk.syscall
      fs_faults fs_dir fs_files tail id Recover.check_stamp]. rewrite Hns, Hto. exact Hrun.
  - exists text. split; [apply lookup_insert_eq|done].
  - intros k Hk. by rewrite Hno, lookup_empty.
Qed.
End stamp.

(** ** Restarting *)
Lemma recovered_list now l k :
  NoDup l.*1 → ∀ d, Dirty.get k (foldl (λ d kv, Dirty.insert now kv.1 kv.2 d) Dirty.new l) = Some d ↔
    (k, d) ∈ l.
Proof.
  induction l as [|[k' d'] l IH] using rev_ind; intros Hnd d.
  { simpl. unfold Dirty.get. simpl. rewrite lookup_empty. set_solver. }
  rewrite fmap_app in Hnd. apply NoDup_app in Hnd as (Hnd & Hdis & _).
  rewrite foldl_app. cbn [foldl]. rewrite get_insert, elem_of_app, list_elem_of_singleton. simpl.
  case_decide as Hk.
  - subst k'. split; [intros [= <-]; by right|]. intros [Hin|[= ->]]; [|done].
    exfalso. apply (Hdis k); [|set_solver]. apply list_elem_of_fmap. by exists (k, d).
  - rewrite IH by done. split; [by left|]. intros [Hin|[= -> ->]]; done.
Qed.

Lemma recovered_get now m k : Dirty.get k (Dirty.from_recovered now m) = m !! k.
Proof.
  apply option_eq. intros d. unfold Dirty.from_recovered.
  rewrite recovered_list by apply NoDup_fst_map_to_list. apply elem_of_map_to_list.
Qed.

Section restart.
Context {S : Type} `{ReadyLaws S}.
Implicit Types (s : Core S) (i : S).

Lemma recovered_ok i now m :
  usable i → (∀ k d, m !! k = Some d → fits i k d) → dirty_ok i (Dirty.from_recovered now m).
Proof.
  intros Hu Hm. assert (Hl : ∀ k d, (k, d) ∈ map_to_list m → fits i k d)
    by (intros k d Hk; by apply Hm, elem_of_map_to_list).
  unfold Dirty.from_recovered. revert Hl. generalize (map_to_list m) as l. intros l.
  induction l as [|[k d] l IH] using rev_ind; intros Hl.
  - constructor; simpl; [apply map_Forall_empty|by rewrite map_sum_empty|by rewrite map_sum_empty].
  - rewrite foldl_app. apply dirty_insert_ok; [done|apply Hl; set_solver|].
    apply IH. intros k' d' Hin. apply Hl. set_solver.
Qed.

(** A fresh store over recovered chunks. *)
Lemma core_of_ok i mode disk d cache_max buffer_max now sched :
  usable i → mode ≠ WcNone → 0 ≤ cache_max → buffer_max ≤ 0 ∨ chunk_size i ≤ buffer_max →
  dirty_ok i d → (∀ fs, disk = Some fs → durable fs d ∅) →
  let s := core_of i mode disk d cache_max buffer_max now sched in
  wc_ok s ∧ idle s ∧ queued s = ∅.
Proof.
  intros Hu Hm Hx Hb Hd Hdk s.
  assert (Hbuf : wc_buffer s = None ∨ chunk_size i ≤ buffer_max ∧
    wc_buffer s = Some {| rt_max_bytes := buffer_max; rt_state := Buf.new |}).
  { unfold s, core_of. simpl. rewrite bool_decide_false by done.
    destruct (Z.gtb_spec buffer_max 0); simpl; [right; split; [lia|done]|by left]. }
  assert (Hq : queued s = ∅) by (unfold queued; destruct Hbuf as [->|[_ ->]]; done).
  assert (Hi : inflight s = None) by (unfold inflight; destruct Hbuf as [->|[_ ->]]; done).
  split; [split|split; [done|done]].
  - constructor; try done.
    + intros rt Hrt. destruct Hbuf as [Hn|[Hle Hs]]; [congruence|]. rewrite Hs in Hrt. simplify_eq. simpl.
      constructor; simpl; rewrite ?map_sum_empty; [apply map_Forall_empty|done| |done].
      intros idx. rewrite lookup_empty. set_solver.
    + rewrite Hq. exact Hdk.
  - by split; [|split].
Qed.

Lemma core_of_usable (i : S) mode cache_max buffer_max now :
  usable i → 0 ≤ cache_max → buffer_max ≤ 0 ∨ chunk_size i ≤ buffer_max →
  let s := core_of i mode None Dirty.new cache_max buffer_max now [] in
  usable s ∧ ∀ a, shown s a = shown i a.
Proof.
  intros Hu Hx Hb s.
  assert (Hq : queued s = ∅) by (unfold queued, s, core_of; simpl; by destruct (_ && _)).
  split; [|intros a; by apply (empty_shown s a)].
  simpl. unfold wc_usable. case_decide as Hm; simpl in Hm.
  - split; [done|]. split; [done|]. simpl. by rewrite Hm, bool_decide_true, andb_false_r.
  - destruct (core_of_ok i mode None Dirty.new cache_max buffer_max now []) as (Hwc & Hidle & _); done.
Qed.

(** The chunks [m] over the store [i]. *)
Definition overlay (m : Z → option bytes) i (a : Z) : byte :=
  match m (a / chunk_size i) with Some d => nthb d (a mod chunk_size i) | None => shown i a end.

Lemma wrap_over `{StampJson} i fs m fs1 cache_max buffer_max volume now sched :
  loads volume (chunk_size i) fs m fs1 → usable i → (∀ k d, m !! k = Some d → fits i k d) →
  0 ≤ cache_max → buffer_max ≤ 0 ∨ chunk_size i ≤ buffer_max →
  ∃ s', wrap i WcDisk (Some fs) cache_max buffer_max volume now sched = Ok s' ∧
    wc_ok s' ∧ idle s' ∧ wc_mode s' = WcDisk ∧ within_budget s' ∧ same_sizes i (wc_inner s') ∧
    same_dir (Some fs1) (wc_disk s') ∧ (∀ a, 0 ≤ a → wc_shown s' a = overlay (m !!.) i a) ∧
    (sched = [] → usable s').
Proof.
  intros [Hload Hnf _ _ Hall] Hu Hfit Hx Hbm.
  unfold wrap. rewrite Hload. unfold mbind, outcome_bind. cbn [fst snd].
  set (d := Dirty.from_recovered now m).
  destruct (core_of_ok i WcDisk (Some fs1) d cache_max buffer_max now sched) as (Hwc0 & Hidle0 & Hq0);
    [done|done|done|done|by apply recovered_ok| |].
  { intros fs' [= <-]. split; [done|]. intros k Hk. rewrite Hall by done.
    unfold cached_in, d. rewrite recovered_get, lookup_empty. by destruct (m !! k). }
  set (s0 := core_of _ _ _ _ _ _ _ _) in *.
  assert (Hev : wp (match wc_buffer s0 with Some _ => evict_into_buffer | None => evict_direct end)
    (λ _ s', wc_ok s' ∧ settled s0 s' ∧ within_budget s') (λ _ _, False) s0).
  { destruct (wc_buffer s0) eqn:Hb; [|by apply evict_direct_spec].
    apply evict_into_buffer_spec; [done|apply Hidle0]. }
  destruct (wp_ok _ _ _ Hev) as ([] & s' & Hrun & Hwc' & Hset & Hbud).
  rewrite Hrun. exists s'. split; [done|]. split; [done|]. pose proof (settled_framed _ _ Hset) as Hfr.
  split; [by eapply framed_idle|]. split; [by rewrite (fr_mode _ _ Hfr)|]. split; [done|].
  split; [apply (st_sizes _ _ Hset)|]. split; [apply (st_disk _ _ Hset)|].
  split; [|intros ->; simpl; unfold wc_usable; rewrite (fr_mode _ _ Hfr); split; [done|];
    split; [by eapply framed_idle|by apply (fr_sched _ _ Hfr)]].
  intros a Ha. rewrite (st_shown _ _ Hset) by done. unfold wc_shown, overlay. change (wc_inner s0) with i.
  replace (cache_of s0 (a / chunk_size i)) with (m !! (a / chunk_size i)); [done|].
  unfold cache_of, cached_in. rewrite Hq0, lookup_empty. change (wc_dirty s0) with d. unfold d.
  rewrite recovered_get. by destruct (m !! _).
Qed.

(** ** What a stopped store leaves behind

    [f] can be recovered from the directory and the inner store: the chunk files
    are the chunks [m], and over the inner store they show [f]. *)
Record recoverable (f : Z → byte) s (m : Z → option bytes) : Prop := {
  rc_inner : usable (wc_inner s);
  rc_files fs : wc_disk s = Some fs → fs_faults fs = [] ∧
    ∀ idx, is_u64 idx → fs_files fs !! Disk.file_name idx = m idx;
  rc_fits idx d : m idx = Some d → fits (wc_inner s) idx d;
  rc_shown a : 0 ≤ a → overlay m (wc_inner s) a = f a
}.

(** A store at rest; one inside a flush, before the next chunk and after the
    chunk was written but before its file is removed. *)
Lemma rest_recoverable s : wc_ok s → recoverable (wc_shown s) s (cache_of s).
Proof.
  intros Hwc. pose proof Hwc as [Hok _]. constructor; [apply Hok|..|done].
  - intros fs Hfs. by apply (ok_disk _ Hok fs Hfs).
  - intros idx d Hc. by apply (cached_shown s idx d).
Qed.
Lemma flushing_recoverable s0 jobs s :
  flushing s0 jobs s → recoverable (wc_shown s0) s (job_map jobs !!.).
Proof.
  intros [Hu _ _ _ _ Hk Hf Hsh Hdk]. constructor; [done|done| |intros a Ha; by rewrite Hsh].
  intros idx d Hd. rewrite Forall_forall in Hf. unfold job_map in Hd. apply elem_of_list_to_map_2 in Hd.
  apply list_elem_of_fmap in Hd as (j & [= -> ->] & Hj). by apply Hf.
Qed.
Lemma recoverable_written f s m idx d i' :
  recoverable f s m → m idx = Some d → usable i' → same_sizes (wc_inner s) i' →
  chunk_written (wc_inner s) i' idx d → recoverable f (with_inner i' s) m.
Proof.
  intros [Hu Hfs Hfit Hsh] Hm Hu' Hs Hwr. constructor; [done|done|..].
  - intros k x Hk. simpl. by eapply fits_sizes, Hfit.
  - intros a Ha. rewrite <- Hsh by done. unfold overlay. simpl. rewrite (ss_chunk _ _ Hs).
    destruct (m (a / chunk_size (wc_inner s))) as [x|] eqn:Hx; [done|].
    rewrite Hwr by done. rewrite decide_False; [done|]. intros Heq. rewrite Heq in Hx. congruence.
Qed.

Lemma recoverable_loads `{StampJson} f s m fs i volume :
  recoverable f s m → wc_disk s = Some fs → stamped fs volume (chunk_size i) → own_files (fs_files fs) →
  usable i → chunk_size i = chunk_size (wc_inner s) → capacity i = capacity (wc_inner s) →
  (∀ a, 0 ≤ a → shown i a = shown (wc_inner s) a) →
  ∃ m', loads volume (chunk_size i) fs m' fs ∧ (∀ k d, m' !! k = Some d → fits i k d) ∧
    ∀ a, 0 ≤ a → overlay (m' !!.) i a = f a.
Proof.
  intros [Hus Hfs Hfit Hf] Hd Hst Hown Hu Hcs Hcap Hsh. destruct (Hfs fs Hd) as [Hnf Hall].
  assert (Hc : ∀ k d, m k = Some d → fits i k d)
    by (intros k d Hk; apply (fits_shape (wc_inner s)); [done|done|by apply Hfit]).
  destruct (load_disk_cache_spec volume (chunk_size i) fs Hnf Hst Hown) as (m' & Hload & Hm).
  { intros k b Hk Hb. rewrite Hall in Hb by done. apply (fit_len _ _ _ (Hc k b Hb)). }
  assert (Hmc : ∀ k, m' !! k = m k).
  { intros k. apply option_eq. intros d. rewrite Hm. split.
    - intros [Hk Hd']. by rewrite Hall in Hd'.
    - intros Hd'. assert (Hk : is_u64 k) by (eapply fits_u64; [exact Hu|by apply Hc]).
      split; [done|]. by rewrite Hall. }
  exists m'. split; [constructor; try done; intros k Hk; by rewrite Hall, Hmc|].
  split; [intros k d Hk; apply Hc; by rewrite <- Hmc|]. intros a Ha. rewrite <- Hf by done.
  unfold overlay. rewrite Hcs, Hmc. case_match; [done|]. by apply Hsh.
Qed.

Lemma wrap_recovers `{StampJson} s fs i cache_max buffer_max volume now sched :
  wc_ok s → wc_disk s = Some fs → stamped fs volume (chunk_size i) → own_files (fs_files fs) →
  usable i → chunk_size i = chunk_size (wc_inner s) → capacity i = capacity (wc_inner s) →
  (∀ a, 0 ≤ a → shown i a = shown (wc_inner s) a) →
  0 ≤ cache_max → buffer_max ≤ 0 ∨ chunk_size i ≤ buffer_max →
  ∃ s', wrap i WcDisk (Some fs) cache_max buffer_max volume now sched = Ok s' ∧
    wc_ok s' ∧ idle s' ∧ ∀ a, 0 ≤ a → wc_shown s' a = wc_shown s a.
Proof.
  intros Hwc Hfs Hst Hown Hu Hcs Hcap Hsh Hx Hbm.
  destruct (recoverable_loads _ s _ fs i volume (rest_recoverable s Hwc)) as (m & Hld & Hfit & Hf); try done.
  destruct (wrap_over i fs m fs cache_max buffer_max volume now sched) as (s' & Hw & Hwc' & Hidle & _ & _ & _ & _ & Hsh' & _);
    try done.
  exists s'. split; [done|]. split; [done|]. split; [done|]. intros a Ha. by rewrite Hsh', Hf.
Qed.

(** What the machine was doing with the directory when it stopped: nothing; a
    chunk was written to the inner store and its file is still there; a file was
    being replaced, and its temporary file holds some bytes. *)
Inductive Remnant : Type := Whole | Unremoved (idx : Z) | Torn (idx : Z) (part : bytes).
Definition leave (r : Remnant) : M (Core S) StoreError unit :=
  match r with
  | Whole => mret tt
  | Unremoved idx =>
      s ← get;
      match cache_of s idx with Some d => write_inner idx d | None => mret tt end
  | Torn idx part => modify (λ s, with_disk
      ((λ fs, Disk.with_files (<[Disk.tmp_name idx := part]> (fs_files fs)) fs) <$> wc_disk s) s)
  end.

Lemma leave_spec r s :
  wc_ok s → wp (leave r) (λ _ s', ∃ m, recoverable (wc_shown s) s' m ∧
    same_sizes (wc_inner s) (wc_inner s') ∧ same_dir (wc_disk s) (wc_disk s')) (λ _ _, False) s.
Proof.
  intros Hwc. pose proof (rest_recoverable s Hwc) as Hrc. pose proof Hrc as [Hu Hfs Hfit Hsh].
  destruct r as [|idx|idx part]; simpl.
  - wp_step. by exists (cache_of s).
  - wp_steps. destruct (cache_of s idx) as [d|] eqn:Hd; [|wp_step; by exists (cache_of s)].
    eapply wp_mono; [apply write_inner_spec; [done|by apply Hfit]| |done].
    intros _ s' (i' & -> & Hu' & Hs & Hwr). exists (cache_of s).
    split; [by eapply recoverable_written|done].
  - wp_steps. exists (cache_of s). split; [|split; [done|]].
    + constructor; [done| |done|done]. intros fs' Hfs'. simpl in Hfs'.
      destruct (wc_disk s) as [fs|] eqn:Hd; simpl in Hfs'; [|done]. injection Hfs' as <-.
      destruct (Hfs fs eq_refl) as [Hf Hall]. split; [done|]. intros k Hk. simpl.
      rewrite lookup_insert_ne by apply tmp_not_file. by apply Hall.
    + simpl. destruct (wc_disk s) as [fs|]; simpl; [|done]. split; [done|]. intros name.
      destruct (decide (name = Disk.tmp_name idx)) as [->|Hne]; [right; right; by exists idx|left].
      by rewrite lookup_insert_ne.
Qed.

(** What follows the pieces of a write: passes of the eviction, and turns of the
    worker or time beside it. *)
Inductive Late : Type := Pass | Around (e : Event).
Definition run_late (l : Late) : M (Core S) StoreError unit :=
  match l with
  | Pass =>
      s ← get;
      _ ← match wc_buffer s with None => evict_one | Some _ => move_one end;
      mret tt
  | Around e => run_event e
  end.
Lemma run_late_spec l s :
  wc_ok s → ctl_pause (wc_ctl s) = false → wp (run_late l) (λ _ s', wc_ok s' ∧ settled s s') (λ _ _, False) s.
Proof.
  intros Hwc Hp. destruct l as [|e]; simpl; [|by apply run_event_spec].
  wp_steps. destruct (wc_buffer s) as [rt|] eqn:Hb.
  - eapply wp_mono; [by eapply move_one_spec| |done]. intros go s' (Hwc' & Hset & _). wp_step. by split.
  - eapply wp_mono; [by apply evict_one_spec| |done]. intros go s' (Hwc' & Hset & _). wp_step. by split.
Qed.

(** A write that is stopped: of a longer write, [data] was stored. *)
Definition write_stopped (off : Z) (data : bytes) (late : list Late) (r : Remnant) : M (Core S) StoreError unit :=
  _ ← modify (with_ctl (λ c, set_writers (ctl_writers c + 1) c));
  s ← get;
  _ ← lift (check_range (capacity (wc_inner s)) off (Zlen data));
  _ ← write_pieces off data;
  _ ← for_each late (λ l _, run_late l) tt;
  leave r.

Lemma write_stopped_spec f off data late r s :
  wc_ok s → idle s → 0 ≤ off → off + Zlen data ≤ capacity (wc_inner s) → (∀ a, 0 ≤ a → wc_shown s a = f a) →
  (∀ k, is_u64 k → allowed S (chunk_at (chunk_size (wc_inner s)) (overwritten f off data) k)) →
  wp (write_stopped off data late r) (λ _ s', ∃ m, recoverable (overwritten f off data) s' m ∧
    same_sizes (wc_inner s) (wc_inner s') ∧ same_dir (wc_disk s) (wc_disk s')) (λ _ _, False) s.
Proof.
  intros Hwc (Hp & _) Hoff Hin Hsh Hall. unfold write_stopped. wp_step. wp_step. set (s0 := with_ctl _ s).
  assert (Hwc0 : wc_ok s0) by (by apply writers_ok). destruct (WCOps.geometry s Hwc) as [Hcs Hcap].
  wp_steps. rewrite check_range_spec by done. rewrite decide_True by exact Hin. wp_steps.
  eapply wp_mono; [by apply (write_pieces_spec f s0)| |done]. intros _ s1 (Hwc1 & Hfr1 & Hsh1). wp_step.
  eapply wp_mono; [apply (wp_for_each (λ _ _ _ s', wc_ok s' ∧ settled s1 s') (λ _ _, False))| |done].
  - intros pre l post acc s2 [Hwc2 Hset2].
    eapply wp_mono; [apply run_late_spec; [done|]| |done].
    + rewrite (st_pause _ _ Hset2), (fr_pause _ _ Hfr1). exact Hp.
    + intros _ s3 [Hwc3 Hset3]. split; [done|by etrans].
  - by split.
  - intros [] s2 [Hwc2 Hset2]. eapply wp_mono; [by apply leave_spec| |done].
    intros _ s3 (m & [? ? ? Hf] & Hs & Hd). exists m. split; [|split].
    + constructor; [done..|]. intros a Ha. by rewrite Hf, (st_shown _ _ Hset2), Hsh1.
    + etrans; [|done]. etrans; [exact (fr_sizes _ _ Hfr1)|apply (st_sizes _ _ Hset2)].
    + etrans; [|done]. etrans; [exact (fr_disk _ _ Hfr1)|apply (st_disk _ _ Hset2)].
Qed.

(** A flush that is stopped: [n] chunks are done, and if [half], the next one is
    written but its file is still there. *)
Definition flush_stopped (n : nat) (half : bool) : M (Core S) StoreError unit :=
  _ ← modify (with_ctl (set_exclusive true));
  _ ← pause_worker;
  jobs ← take_all_jobs;
  _ ← for_each (take n jobs) (λ job _, write_snapshot job) tt;
  match jobs !! n with
  | Some job => if half then write_inner (job_idx job) (job_data job) else mret tt
  | None => mret tt
  end.

Lemma flush_stopped_spec n half s :
  wc_ok s → idle s →
  wp (flush_stopped n half) (λ _ s', ∃ m, recoverable (wc_shown s) s' m ∧
    same_sizes (wc_inner s) (wc_inner s') ∧ same_dir (wc_disk s) (wc_disk s')) (λ _ _, False) s.
Proof.
  intros Hwc Hidle. unfold flush_stopped. wp_step. wp_step.
  set (s0 := with_ctl (set_exclusive true) s). assert (Hwc0 : wc_ok s0) by (by apply ctl_ok).
  wp_step. eapply wp_mono; [by apply pause_worker_spec| |done]. intros _ s1 (Hwc1 & Hpd & b & Hset). wp_step.
  eapply wp_mono; [by apply take_all_jobs_spec| |done]. intros jobs s2 Hfl.
  assert (Hshown : ∀ a, 0 ≤ a → wc_shown s1 a = wc_shown s a) by (intros a Ha; by rewrite (st_shown _ _ Hset)).
  assert (Hsize : same_sizes (wc_inner s) (wc_inner s1)) by apply (st_sizes _ _ Hset).
  assert (Hdir : same_dir (wc_disk s) (wc_disk s1)) by apply (st_disk _ _ Hset).
  assert (Hout : ∀ s' m, recoverable (wc_shown s1) s' m → recoverable (wc_shown s) s' m).
  { intros s' m [? ? ? Hf]. constructor; [done..|]. intros a Ha. by rewrite Hf, Hshown. }
  wp_step. eapply wp_mono; [apply (wp_for_each (λ _ post _ s', flushing s1 (post ++ skipn n jobs) s') (λ _ _, False))| |done].
  - intros pre j post acc s3 Hfl3. by apply write_snapshot_spec.
  - by rewrite take_drop.
  - intros [] s3 Hfl3. simpl in Hfl3. destruct (jobs !! n) as [j|] eqn:Hj.
    2: { wp_step. eexists. split; [eapply Hout, flushing_recoverable, Hfl3|].
         pose proof (fl_frame _ _ _ Hfl3) as Hfr. split; [etrans; [done|apply Hfr]|etrans; [done|apply Hfr]]. }
    rewrite (drop_S _ _ _ Hj) in Hfl3. pose proof (fl_frame _ _ _ Hfl3) as Hfr.
    pose proof (flushing_recoverable _ _ _ Hfl3) as Hrc.
    destruct half.
    2: { wp_step. eexists. split; [eapply Hout, Hrc|]. split; [etrans; [done|apply Hfr]|etrans; [done|apply Hfr]]. }
    assert (Hfj : fits (wc_inner s3) (job_idx j) (job_data j)) by (by apply (Forall_cons_1 _ _ _ (fl_fits _ _ _ Hfl3))).
    eapply wp_mono; [apply write_inner_spec; [apply Hfl3|done]| |done].
    intros _ s4 (i' & -> & Hu' & Hs & Hwr). exists (job_map (j :: skipn (Datatypes.S n) jobs) !!.).
    split; [apply Hout; eapply recoverable_written; try done; rewrite job_map_cons; apply lookup_insert_eq|].
    simpl. split; [|etrans; [done|apply Hfr]]. etrans; [done|]. etrans; [apply Hfr|done].
Qed.
End restart.

(** ** Atomic replacement of a chunk file *)

(** Wherever [write_chunk_file] stops, at a failing call or because the machine
    does, a chunk file is the old one or the whole new one. *)
Lemma write_chunk_file_atomic fs idx data k :
  is_u64 idx → is_u64 k →
  let fs' := (Disk.write_chunk_file idx data fs).2 in
  fs_files fs' !! Disk.file_name k = fs_files fs !! Disk.file_name k ∨
  k = idx ∧ fs_files fs' !! Disk.file_name k = Some data.
Proof.
  intros Hidx Hk. destruct fs as [dir files l].
  assert (Ht : ∀ j, Disk.tmp_name j ≠ Disk.file_name k) by (intros; apply tmp_not_file).
  cbv [Disk.write_chunk_file mbind M_bind get Disk.other map_err Disk.create_dir_all Disk.create
    Disk.write_all Disk.sync_all Disk.rename Disk.syscall Disk.no_effect fs_dir fs_files fs_faults].
  repeat (match goal with
    | |- context [match ?l with [] => _ | _ :: _ => _ end] => destruct l as [|[?|] ?]
    end; cbn [fst snd fs_files tail id]);
  rewrite ?lookup_insert_ne by done; try (by left);
  rewrite ?lookup_insert_eq; (destruct (decide (k = idx)) as [->|Hne];
    [right; split; [done|apply lookup_insert_eq]|left]);
  rewrite lookup_insert_ne by (intros Heq; by apply file_name_inj in Heq);
  by rewrite lookup_delete_ne, !lookup_insert_ne by done.
Qed.
End WCRecover.
