(* ===== verification/Stack.v ===== *)
(** * The store stack of a volume

    [WriteCachedStore<CachedStore<S3ChunkStore>>] (src/src/volume.rs builds it):
    the layers' contracts compose, so the whole stack is a working store. The
    chunk contents a volume is used with are a parameter, [Contents]; on a
    content-addressed (cow) volume the hash must be free of collisions on them.
    On a legacy volume they may be everything. *)
From S2P Require Import Prelude Tables Text Store Compression Snapshot S3Api S3Keys S3Store S3Spec.
From S2P Require Import S3Block Ready Cache CachedStore WriteBuffer WriteCache WriteBack WriteBackSpec.
From S2P Require Import WriteBackWorker WriteBackOps WriteBackFlush.
#[local] Open Scope Z_scope.

(** The chunk contents a volume is used with. *)
Class Contents : Type := contents : bytes → Prop.
Definition any_contents : Contents := λ _, True.

Module Stack.
Import S3Spec.

Lemma preserves_wp {S E A} (P : S → Prop) (m : M S E A) :
  (∀ s, P s → wp m (λ _, P) (λ _, P) s) → preserves P m.
Proof. intros Hm s Hs. specialize (Hm s Hs). unfold wp in Hm. by destruct (m s) as [[] ?]. Qed.

Section s3.
Context {B : Type} `{S3Laws B} `{CodecLaws} `{Blake3Laws} `{JsonLaws} `{Contents}.
Implicit Types (s : S3.state B) (self : S3ChunkStore) (o : object_map).

(** Content addressing tells the contents in use apart, from each other and from
    the objects in the pool. *)
Definition collision_free self o : Prop :=
  ∀ c p, contents c → Comp.encode_chunk (st_compression self) c = Ok p →
    no_collision self o p ∧
    ∀ c' p', contents c' → Comp.encode_chunk (st_compression self) c' = Ok p' →
      blake3 p = blake3 p' → p = p'.

Record well_used self o : Prop := {
  wu_blank : contents (zeros (st_chunk_size self));
  wu_image idx : is_u64 idx → contents (chunk_at (st_chunk_size self) (byte_view self o) idx);
  wu_hash : st_storage self = Cow → collision_free self o
}.
Definition s3_used s : Prop := well_used (S3.s_store s) (S3Block.s_objs s).

(** The same volume of the bucket: only chunks, pointers and pool objects differ. *)
Definition s3_related s s' : Prop :=
  S3.s_store s' = S3.s_store s ∧ data_only (S3.s_store s) (S3Block.s_objs s) (S3Block.s_objs s').

#[global] Instance s3_related_preorder : PreOrder s3_related.
Proof.
  split; [by intros s|]. intros s1 s2 s3 [Hs1 Hd1] [Hs2 Hd2]. split; [congruence|].
  rewrite Hs1 in Hd2. by etrans.
Qed.

Lemma view_same_used self o o' :
  view_same self o o' → (∀ h v, Snap.is_hash h → o' !! Keys.object_key self h = Some v →
    o !! Keys.object_key self h = Some v) → well_used self o → well_used self o'.
Proof.
  intros Hv Hp [Hb Hi Hh]. constructor; [done|..].
  - intros idx Hidx. rewrite (chunk_at_ext _ _ (byte_view self o)); [by apply Hi|].
    intros a _. by apply view_same_bytes.
  - intros Hm c p Hc He. destruct (Hh Hm c p Hc He) as [Hn Hinj]. split; [|done].
    intros _ body' et Hl. apply Hp in Hl; [by eapply Hn|apply blake3_length].
Qed.

Lemma used_quiet s env' :
  quiet (S3.s_env s) env' → s3_used s →
  s3_used (S3.with_env env' s) ∧ s3_related s (S3.with_env env' s).
Proof.
  intros [Ho _] Hs. unfold s3_used, s3_related, S3Block.s_objs in *. simpl. by rewrite Ho.
Qed.

Lemma used_read s off buf :
  s3_used s → s3_used (Store.read_at off buf s).2 ∧ s3_related s (Store.read_at off buf s).2.
Proof.
  intros Hs. simpl. unfold S3.on_env, zoom.
  assert (Hp : preserves (λ env, quiet (S3.s_env s) env) (S3.read_at (S3.s_store s) off buf)).
  { apply preserves_bind; [apply preserves_lift|]. intros _. apply preserves_chunk_loop. intros.
    apply preserves_bind; [|auto with preserves].
    apply preserves_wp. intros env Hq. eapply wp_mono; [apply get_chunk_spec|..].
    - intros ? env' (Hq' & _). by etrans.
    - intros ? env' (Hq' & _). by etrans. }
  specialize (Hp (S3.s_env s) ltac:(reflexivity)).
  destruct (S3.read_at (S3.s_store s) off buf (S3.s_env s)) as [r env']. by apply used_quiet.
Qed.

Lemma used_admissible s off data :
  s3_used s →
  (∀ idx, is_u64 idx → contents (chunk_at (chunk_size s) (overwritten (content s) off data) idx)) →
  admissible s off data.
Proof.
  intros [Hb Hi Hh] Hp Hm idx body Hidx He. destruct (Hh Hm _ _ (Hp idx Hidx) He) as [Hn Hinj].
  split; [done|]. intros idx' body' Hidx'. apply Hinj. by apply Hp.
Qed.

Lemma used_written self o off data o' :
  (∀ idx, is_u64 idx → contents (patched_chunk self o off data idx)) →
  write_progress self o off data (Zlen data) o' → well_used self o → well_used self o'.
Proof.
  intros Hp Hpr [Hb Hi Hh]. constructor; [done|..].
  - intros idx Hidx. rewrite (chunk_at_ext _ _ (byte_patched self o off data)); [by apply Hp|].
    intros a Ha. destruct (decide (0 ≤ a)); [by apply (wpr_bytes _ _ _ _ _ _ Hpr)|].
    destruct (decide (0 ≤ idx * st_chunk_size self)); [lia|]. unfold is_u64 in Hidx. nia.
  - intros Hm c p Hc He. destruct (Hh Hm c p Hc He) as [Hn Hinj]. split; [|done].
    intros _ body' et Hl. apply (wpr_pool _ _ _ _ _ _ Hpr Hm) in Hl as [[et' Hl]|(j & Hj & Heq & He')];
      [by eapply Hn| |apply blake3_length].
    symmetry. by eapply (Hinj _ _ (Hp j Hj) He').
Qed.

Lemma used_write s off data :
  invariant s → ready s → s3_used s → 0 ≤ off →
  (∀ idx, is_u64 idx → contents (chunk_at (chunk_size s) (overwritten (content s) off data) idx)) →
  s3_used (Store.write_at off data s).2 ∧ s3_related s (Store.write_at off data s).2.
Proof.
  intros Hinv [Hk Henc] Hs Hoff Hp. pose proof (used_admissible s off data Hs Hp) as Hadm.
  assert (Hwp : wp (Store.write_at off data) (λ _ s', s3_used s' ∧ s3_related s s')
    (λ _ s', s3_used s' ∧ s3_related s s') s).
  { simpl. apply S3Block.wp_on_env.
    eapply wp_mono; [apply write_at_spec; [by destruct Hinv..|done|done]|..].
    - intros _ env' (_ & _ & Hpr & Hda). split; [exact (used_written _ _ off data _ Hp Hpr Hs)|by split].
    - intros e env' (Hda & _ & _ & [(_ & -> & _)|(_ & [Hn|(p & Hl & He)])]); [by split|done|].
      destruct (Henc p Hl). congruence. }
  unfold wp in Hwp. by destruct (Store.write_at off data s) as [[] ?].
Qed.

Lemma used_set_capacity s n :
  invariant s → ready s → s3_used s →
  s3_used (Store.set_capacity n s).2 ∧
  ∀ e, (Store.set_capacity n s).1 = Err e → s3_related s (Store.set_capacity n s).2.
Proof.
  intros Hinv [Hk _] Hs.
  assert (Hwp : wp (Store.set_capacity n) (λ _, s3_used) (λ _ s', s' = s) s).
  { simpl. unfold S3.set_capacity. wp_steps. pose proof (ge_block _ (S3Block.si_geometry _ Hinv)) as Hbs.
    rewrite (proj2 (Z.eqb_neq (st_block_size _) 0)) by lia.
    case_match; [by wp_step|]. case_match; [by wp_step|]. case_match; [by wp_step|].
    wp_step. apply S3Block.wp_on_env. eapply wp_mono; [apply put_meta_spec| |naive_solver].
    intros _ env' [_ (body & et & _ & Ho)]. wp_step. unfold s3_used, S3Block.s_objs. simpl. rewrite Ho.
    apply (view_same_used (S3.s_store s) (S3Block.s_objs s)
      (<[Keys.meta_key (S3.s_store s) := (body, et)]> (S3Block.s_objs s))) in Hs.
    - destruct Hs as [Hb Hi Hh]. constructor; [done| |done]. intros idx Hidx.
      rewrite (chunk_at_ext _ _ (byte_view (S3.s_store s)
        (<[Keys.meta_key (S3.s_store s):=(body, et)]> (S3Block.s_objs s)))); [by apply Hi|done].
    - apply meta_insert_same.
    - intros h v Hh. rewrite lookup_insert_ne; [done|]. by apply (meta_key_not_chunk _ 0). }
  unfold wp in Hwp. destruct (Store.set_capacity n s) as [[] ?]; try done.
  subst. simpl. split; [done|]. intros _ _. reflexivity.
Qed.

Lemma used_present s :
  s3_used s → s3_used (present_chunks s).2 ∧ s3_related s (present_chunks s).2.
Proof.
  intros Hs. assert (Hwp : wp present_chunks (λ _ s', s3_used s' ∧ s3_related s s')
    (λ _ s', s3_used s' ∧ s3_related s s') s).
  { simpl. apply S3Block.wp_on_env. eapply wp_mono; [apply present_chunks_spec|..].
    - intros l env' (Hq & _). by apply used_quiet.
    - intros e env' (Hq & _). by apply used_quiet. }
  unfold wp in Hwp. by destruct (present_chunks s) as [[] ?].
Qed.

(** Deleting a chunk of a cow volume only removes its pointer. *)
Lemma delete_chunk_pool self idx (env : Env B) :
  st_storage self = Cow →
  wp (S3.delete_chunk self idx) (λ _ env', ∀ h, objs env' !! Keys.object_key self h = objs env !! Keys.object_key self h)
    (λ _ _, True) env.
Proof.
  intros Hm. unfold S3.delete_chunk, S3.delete_chunk_object. rewrite Hm.
  eapply wp_mono; [apply delete_spec| |done]. intros _ env' [_ Ho] h. rewrite Ho.
  apply lookup_delete_ne. intros Heq. symmetry in Heq. by eapply cow_chunk_key_not_object.
Qed.

Lemma used_delete s idx :
  invariant s → ready s → s3_used s → is_u64 idx →
  s3_used (delete_chunk idx s).2 ∧ s3_related s (delete_chunk idx s).2.
Proof.
  intros Hinv [Hk _] [Hb Hi Hh] Hidx.
  assert (Hwp : wp (S3.delete_chunk (S3.s_store s) idx)
    (λ _ env', s3_used (S3.with_env env' s) ∧ s3_related s (S3.with_env env' s)) (λ _ _, False) (S3.s_env s)).
  { pose proof (delete_chunk_spec (S3.s_store s) idx (S3.s_env s) Hidx) as Hsp.
    pose proof (delete_chunk_pool (S3.s_store s) idx (S3.s_env s)) as Hpl. unfold wp in *.
    destruct (S3.delete_chunk (S3.s_store s) idx (S3.s_env s)) as [[|e| |] env']; [|naive_solver|done|done].
    destruct Hsp as (_ & [Hv Hr] & Hda). split; [|by split]. constructor; unfold S3Block.s_objs; simpl; [done|..].
    - intros k Hkk. destruct (decide (k = idx)) as [->|Hne].
      + rewrite chunk_at_zeros; [done|pose proof (ge_chunk _ (S3Block.si_geometry _ Hinv)); lia|].
        intros x Ha. unfold byte_view. replace (x / st_chunk_size (S3.s_store s)) with idx.
        2: { apply Z.div_unique with (x - idx * st_chunk_size (S3.s_store s)); lia. }
        case_decide; [|done]. by rewrite Hv, nthb_zeros.
      + rewrite (chunk_at_ext _ _ (byte_view (S3.s_store s) (S3Block.s_objs s))); [by apply Hi|].
        intros x Ha. unfold byte_view. replace (x / st_chunk_size (S3.s_store s)) with k.
        2: { apply Z.div_unique with (x - k * st_chunk_size (S3.s_store s)); lia. }
        by rewrite Hr.
    - intros Hm c p Hc He. destruct (Hh Hm c p Hc He) as [Hn Hinj]. split; [|done].
      intros Hm' body' et. rewrite (Hpl Hm). by apply Hn. }
  simpl. unfold S3.on_env, zoom. unfold wp in Hwp.
  by destruct (S3.delete_chunk (S3.s_store s) idx (S3.s_env s)) as [[] ?].
Qed.

#[global] Program Instance s3_steady : SteadyStore (S3.state B) := {
  steady := s3_used;
  acceptable := contents;
  related := s3_related
}.
Next Obligation. intros s []. done. Qed.
Next Obligation. intros s idx _ [] Hidx. auto. Qed.
Next Obligation. intros s off data _. apply used_admissible. Qed.
Next Obligation. intros s off buf. apply used_read. Qed.
Next Obligation. intros s off data. apply used_write. Qed.
Next Obligation. intros s n Hi Hr Hs _. by apply used_set_capacity. Qed.
Next Obligation. intros s Hs. by split. Qed.
Next Obligation. intros s _ _. apply used_present. Qed.
Next Obligation. intros s idx. apply used_delete. Qed.
End s3.

(** On a legacy volume everything may be written. *)
Lemma legacy_used `{Codecs} `{Blake3} self o :
  st_storage self = Legacy → @well_used _ _ any_contents self o.
Proof. intros Hm. constructor; [done|done|congruence]. Qed.

(** The type of a volume's store. *)
Abbreviation volume_store B := (Core (CachedStore (S3.state B))).
End Stack.
