(* ===== verification/WriteBackTheorems.v ===== *)
(** * Properties of the write-back cache *)
From S2P Require Import Prelude Tables Text Store Memory Compression Snapshot S3Api S3Keys S3Store.
From S2P Require Import S3Spec S3Block Concrete Ready Cache CachedStore WriteBuffer WriteCache WriteBack.
From S2P Require Import WriteBackSpec WriteBackWorker WriteBackOps WriteBackFlush WriteBackRecover.
From S2P Require Import Stack S3Theorems.
#[local] Open Scope string_scope.
#[local] Open Scope list_scope.
#[local] Open Scope Z_scope.

Module WriteBackTheorems.
Import WC WCSpec WCWorker WCOps WCFlush WCRecover.

Section theorems.
Context {S : Type} `{ReadyLaws S}.
Implicit Types s : Core S.

(** C8: The write-back cache is transparent. Over any working store, in every
    mode and with or without a buffer, [WriteCachedStore] is again a working
    store: reads, writes, growth, flush, listing and deletion behave as on a
    linear array of bytes, return, and fail only on bad arguments. A new one
    shows the inner store's volume. *)
Theorem write_back_refines (i : S) mode cache_max buffer_max now :
  usable i → 0 ≤ cache_max → buffer_max ≤ 0 ∨ chunk_size i ≤ buffer_max →
  let s := core_of i mode None Dirty.new cache_max buffer_max now [] in
  ReadyLaws (Core S) ∧ usable s ∧ capacity s = capacity i ∧ ∀ a, shown s a = shown i a.
Proof.
  intros Hu Hx Hb s. split; [apply write_back_laws|].
  destruct (core_of_usable i mode cache_max buffer_max now Hu Hx Hb) as [Hus Hsh]. done.
Qed.

(** What happens beside the foreground: a turn of the worker, or time passing. *)
Inductive background : relation (Core S) :=
  | bg_turn s s' : is_Some (wc_buffer s) → worker_turn s = (Ok tt, s') → background s s'
  | bg_time s ms : 0 ≤ ms → background s (with_time (wc_now s + ms) (wc_sched s) s).

(** C11: Background work never changes the volume. In every state of the store
    the worker can take a turn, and whatever turns it takes and however long it
    takes them, every byte of the volume stays the same and, in disk mode, the
    chunk files stay exactly the cached chunks. *)
Theorem worker_keeps_volume s s' :
  wc_ok s → rtc background s s' →
  wc_ok s' ∧ (∀ a, 0 ≤ a → wc_shown s' a = wc_shown s a) ∧
  (is_Some (wc_buffer s') → ∃ s2, worker_turn s' = (Ok tt, s2)) ∧
  ∀ fs, wc_disk s' = Some fs → ∀ idx, is_u64 idx →
    fs_files fs !! Disk.file_name idx = cache_of s' idx.
Proof.
  intros Hwc Hr. assert (Hboth : wc_ok s' ∧ settled s s').
  { induction Hr as [s|s s1 s2 Hst _ IH]; [by split|]. destruct Hst as [s s1 [rt Hb] Hrun|s ms Hms].
    - destruct (worker_turn_run s rt Hwc Hb) as (s1' & Hrun' & Ht). rewrite Hrun in Hrun'. simplify_eq.
      destruct IH as [Hwc2 Hset2]; [apply Ht|]. split; [done|]. etrans; [apply Ht|done].
    - destruct (time_ok s (wc_now s + ms) (wc_sched s)) as [Hwc1 Hset1]; [done|done|].
      destruct (IH Hwc1) as [Hwc2 Hset2]. split; [done|by etrans]. }
  destruct Hboth as [Hwc' Hset]. split; [done|]. split; [apply Hset|]. split.
  - intros [rt Hb]. destruct (worker_turn_run s' rt Hwc' Hb) as (s2 & Hrun & _). eauto.
  - intros fs Hfs. apply (ok_disk _ (proj1 Hwc') fs Hfs).
Qed.

(** C12: The queue drains. Unless it is paused, the worker empties the queue in a
    bounded number of its own turns, without help from the foreground. *)
Theorem worker_drains s rt :
  wc_ok s → wc_buffer s = Some rt → ctl_pause (wc_ctl s) = false →
  ∃ n s', (n ≤ work s)%nat ∧ nsteps (λ a b, worker_turn a = (Ok tt, b)) n s s' ∧ queued s' = ∅.
Proof.
  remember (work s) as w eqn:Hw. revert s rt Hw.
  induction w as [w IH] using lt_wf_ind. intros s rt -> Hwc Hb Hp.
  destruct (decide (queued s = ∅)) as [Hq|Hq]; [exists 0%nat, s; by repeat split; [lia|constructor|]|].
  destruct (worker_turn_run s rt Hwc Hb) as (s1 & Hrun & Ht). pose proof (tn_work _ _ Ht Hp Hq) as Hlt.
  pose proof (st_buffer _ _ (tn_settled _ _ Ht)) as Hb1. rewrite Hb in Hb1.
  destruct (wc_buffer s1) as [rt1|] eqn:Hbs; [|done].
  destruct (IH (work s1) Hlt s1 rt1 eq_refl) as (n & s' & Hn & Hsteps & Hq'); [apply Ht|done| |].
  { by rewrite (st_pause _ _ (tn_settled _ _ Ht)). }
  exists (Datatypes.S n), s'. split; [lia|]. split; [by econstructor|done].
Qed.

(** C10: Writes under concurrency. Whatever the worker does between the steps of
    the two operations, a write that fits the volume returns, keeps the dirty
    table within its budget, and a following read returns the written bytes
    inside the written range and the previous contents outside it. *)
Theorem write_back_write_then_read s off data off' n :
  wc_ok s → idle s → 0 ≤ off → off + Zlen data ≤ capacity (wc_inner s) → permitted s off data →
  0 ≤ off' → 0 ≤ n → off' + n ≤ capacity (wc_inner s) →
  ∃ s1 s2 buf, write off data s = (Ok tt, s1) ∧
    (0 < wc_cache_max s → ds_used_bytes (wc_dirty s1) ≤ wc_cache_max s) ∧
    read off' (zeros n) s1 = (Ok buf, s2) ∧ Zlen buf = n ∧
    ∀ k, 0 ≤ k < n → nthb buf k =
      if decide (off ≤ off' + k < off + Zlen data) then nthb data (off' + k - off)
      else wc_shown s (off' + k).
Proof.
  intros Hwc (Hp & He & Hn) Hoff Hin Hperm Hoff' Hn0 Hin'.
  assert (Hw : wp (write off data) (λ _ s', wc_ok s' ∧ framed s s' ∧
    (∀ a, 0 ≤ a → wc_shown s' a = overwritten (wc_shown s) off data a) ∧ within_budget s')
    (λ _ _, False) s).
  { eapply wp_mono; [apply write_spec; try done; lia|naive_solver|].
    intros e s' (_ & _ & [Hbad _]). lia. }
  destruct (wp_ok _ _ _ Hw) as ([] & s1 & Hrun & Hwc1 & Hfr & Hsh & Hbud).
  assert (Hz : Zlen (zeros n) = n) by (by apply Zlen_zeros).
  assert (Hr : wp (read off' (zeros n)) (λ buf s', Zlen buf = n ∧
    ∀ k, 0 ≤ k < n → nthb buf k = wc_shown s1 (off' + k)) (λ _ _, False) s1).
  { eapply wp_mono; [by apply read_spec|..]; rewrite Hz; [naive_solver|].
    intros e s' [_ [Hbad _]]. rewrite (ss_cap _ _ (fr_sizes _ _ Hfr)) in Hbad. lia. }
  destruct (wp_ok _ _ _ Hr) as (buf & s2 & Hrun2 & Hl & Hbuf).
  exists s1, s2, buf. split; [done|]. split.
  { unfold within_budget in Hbud. by rewrite (fr_max _ _ Hfr) in Hbud. }
  split; [done|]. split; [done|]. intros k Hk. rewrite Hbuf by done. apply Hsh. lia.
Qed.

(** C13: Flush. Whatever the worker is doing, a flush returns, and then nothing
    is cached any more: the inner store shows the volume. *)
Theorem write_back_flush s :
  wc_ok s → idle s →
  ∃ s', flush_all s = (Ok tt, s') ∧ wc_ok s' ∧ idle s' ∧
    (∀ idx, cache_of s' idx = None) ∧
    (∀ a, 0 ≤ a → shown (wc_inner s') a = wc_shown s a) ∧
    ∀ fs, wc_disk s' = Some fs → ∀ idx, is_u64 idx → fs_files fs !! Disk.file_name idx = None.
Proof.
  intros Hwc Hidle. destruct (wp_ok _ _ _ (flush_all_spec s Hwc Hidle)) as ([] & s' & Hrun & Hfl).
  destruct Hfl as (Hwc' & Hfr & Hd & Hq & Hsh). exists s'. split; [done|]. split; [done|].
  split; [by eapply framed_idle|].
  assert (Hc : ∀ idx, cache_of s' idx = None).
  { intros idx. unfold cache_of, cached_in, Dirty.get. by rewrite Hd, Hq, !lookup_empty. }
  split; [done|]. split; [done|]. intros fs Hfs idx Hidx.
  destruct (ok_disk _ (proj1 Hwc') fs Hfs) as [_ Hall]. rewrite Hall by done. apply Hc.
Qed.

(** Crash recovery. In disk mode, if the process stops in any state between
    its atomic steps, opening a new write-back store over the directory it left
    and the same inner store succeeds and shows the same volume. *)
Theorem crash_recovery `{StampJson} s fs i cache_max buffer_max volume now sched :
  wc_ok s → wc_disk s = Some fs → stamped fs volume (chunk_size i) → own_files (fs_files fs) →
  usable i → same_sizes (wc_inner s) i →
  (∀ a, 0 ≤ a → shown i a = shown (wc_inner s) a) →
  0 ≤ cache_max → buffer_max ≤ 0 ∨ chunk_size i ≤ buffer_max →
  ∃ s', wrap i WcDisk (Some fs) cache_max buffer_max volume now sched = Ok s' ∧
    wc_ok s' ∧ idle s' ∧ ∀ a, 0 ≤ a → wc_shown s' a = wc_shown s a.
Proof.
  intros Hwc Hfs Hst Hown Hu [_ Hcs Hcap _] Hsh Hx Hb.
  by apply (wrap_recovers s fs i cache_max buffer_max volume now sched).
Qed.
End theorems.

(** Chunk files are replaced atomically. Wherever [write_chunk_file] stops,
    at any failing system call, every chunk file is as before or, for the chunk
    being written, the complete new data. *)
Theorem chunk_file_atomic fs idx data k :
  is_u64 idx → is_u64 k →
  let fs' := (Disk.write_chunk_file idx data fs).2 in
  fs_files fs' !! Disk.file_name k = fs_files fs !! Disk.file_name k ∨
  k = idx ∧ fs_files fs' !! Disk.file_name k = Some data.
Proof. apply write_chunk_file_atomic. Qed.

(** ** Witnesses

    A disk-mode write-back store with a 4-byte budget and a 4-byte buffer over a
    cached legacy volume of four 4-byte chunks. *)
Section witnesses.
Import Concrete S3Theorems.
#[local] Instance everything : Contents := any_contents.
#[local] Instance stamp_json : StampJson := {
  stamp_to_json st := inl (frame [put_str (stamp_volume st); put_num (stamp_chunk_size st)]);
  stamp_from_json b :=
    match unframe [] b with
    | [v; c] => inl {| stamp_volume := get_str v; stamp_chunk_size := get_num c |}
    | _ => inr "invalid document"
    end
}.
#[local] Instance stamp_json_laws : StampJsonLaws.
Proof.
  intros [v c]. eexists. split; [done|]. unfold stamp_from_json, stamp_json. rewrite unframe_frame.
  cbn [stamp_volume stamp_chunk_size]. by rewrite get_put_str, get_put_num.
Qed.

Definition below : CachedStore (S3.state MemS3.bucket) :=
  Cached.new (fresh Legacy) (Cache.new 64) "vol".
Definition stamp_text : bytes := frame [put_str "vol"; put_num 4].
Definition directory : Fs :=
  {| fs_dir := "d"; fs_files := {[ Recover.STAMP_NAME := stamp_text ]}; fs_faults := [] |}.
Definition start (sched : list (list Event)) : Stack.volume_store MemS3.bucket :=
  core_of below WcDisk (Some directory) Dirty.new 4 4 0 sched.
(** Time passes and the worker takes turns between the steps. *)
Definition interleaving : list (list Event) := [[Turn; Turn]; [Elapse 200; Turn]; [Turn; Turn; Turn]].
Definition busy : Stack.volume_store MemS3.bucket := (write 3 (payload 6) (start interleaving)).2.

Lemma below_usable : usable below.
Proof.
  split; [|split; [split; [apply fresh_ready|done]|by apply Stack.legacy_used]].
  constructor; [apply fresh_invariant|apply Cache.new_accounted; lia|]. done.
Qed.

Lemma directory_durable : durable directory Dirty.new ∅.
Proof.
  split; [done|]. intros idx Hidx. simpl. rewrite lookup_singleton_ne; [done|].
  intros Heq. apply (f_equal Recover.entry_index) in Heq. by rewrite entry_index_file in Heq.
Qed.

Lemma start_ok sched : wc_ok (start sched) ∧ idle (start sched).
Proof.
  destruct (core_of_ok below WcDisk (Some directory) Dirty.new 4 4 0 sched) as (Hwc & Hidle & _);
    [apply below_usable|done|done|by right| | |done].
  - constructor; simpl; [apply map_Forall_empty|by rewrite map_sum_empty|by rewrite map_sum_empty].
  - intros fs [= <-]. apply directory_durable.
Qed.

Lemma busy_ok : wc_ok busy.
Proof.
  destruct (start_ok interleaving) as [Hwc (Hp & He & Hn)].
  pose proof (write_spec (start interleaving) 3 (payload 6) Hwc ltac:(lia) Hp He ltac:(lia) (λ _ _, I)) as Hw.
  unfold busy. revert Hw. unfold wp. destruct (write _ _ _) as [[] ?]; naive_solver.
Qed.

Lemma write_back_refines_witness :
  let s := core_of below WcMemory None Dirty.new 4 4 0 [] in
  ReadyLaws (Stack.volume_store MemS3.bucket) ∧ usable s ∧ capacity s = capacity below ∧
  ∀ a, shown s a = shown below a.
Proof. apply (write_back_refines below WcMemory 4 4 0); [apply below_usable|lia|by right]. Defined.

Definition later := (worker_turn busy).2.
Lemma worker_keeps_volume_witness :
  wc_ok later ∧ (∀ a, 0 ≤ a → wc_shown later a = wc_shown busy a) ∧
  (is_Some (wc_buffer later) → ∃ s2, worker_turn later = (Ok tt, s2)) ∧
  ∀ fs, wc_disk later = Some fs → ∀ idx, is_u64 idx →
    fs_files fs !! Disk.file_name idx = cache_of later idx.
Proof.
  apply (worker_keeps_volume busy later); [apply busy_ok|]. apply rtc_once, bg_turn; [vm_compute; eauto|].
  vm_compute. reflexivity.
Defined.

Lemma worker_drains_witness :
  ∃ n s', (n ≤ work busy)%nat ∧ nsteps (λ a b, worker_turn a = (Ok tt, b)) n busy s' ∧ queued s' = ∅.
Proof.
  destruct (wc_buffer busy) as [rt|] eqn:Hrt; [|vm_compute in Hrt; discriminate].
  apply (worker_drains busy rt); [apply busy_ok|exact Hrt|reflexivity].
Defined.

Lemma write_back_write_then_read_witness :
  ∃ s1 s2 buf, write 3 (payload 6) (start interleaving) = (Ok tt, s1) ∧
    (0 < 4 → ds_used_bytes (wc_dirty s1) ≤ 4) ∧ read 2 (zeros 8) s1 = (Ok buf, s2) ∧ Zlen buf = 8 ∧
    ∀ k, 0 ≤ k < 8 → nthb buf k =
      if decide (3 ≤ 2 + k < 3 + Zlen (payload 6)) then nthb (payload 6) (2 + k - 3)
      else wc_shown (start interleaving) (2 + k).
Proof.
  apply (write_back_write_then_read (start interleaving) 3 (payload 6) 2 8);
    try apply start_ok; try exact (λ _ _, I); vm_compute; congruence.
Defined.

Lemma write_back_flush_witness :
  ∃ s', flush_all (start interleaving) = (Ok tt, s') ∧ wc_ok s' ∧ idle s' ∧
    (∀ idx, cache_of s' idx = None) ∧
    (∀ a, 0 ≤ a → shown (wc_inner s') a = wc_shown (start interleaving) a) ∧
    ∀ fs, wc_disk s' = Some fs → ∀ idx, is_u64 idx → fs_files fs !! Disk.file_name idx = None.
Proof. apply (write_back_flush (start interleaving)); apply start_ok. Defined.

Lemma busy_disk : fs_files <$> wc_disk busy =
  Some (<[Disk.file_name 1 := payload 4]> (<[Disk.file_name 2 := payload 1 ++ zeros 3]>
    (fs_files directory))).
Proof. vm_compute. reflexivity. Qed.
Lemma busy_files fs : wc_disk busy = Some fs → stamped fs "vol" 4 ∧ own_files (fs_files fs).
Proof.
  intros Hfs. pose proof busy_disk as Hm. rewrite Hfs in Hm. apply (inj Some) in Hm.
  unfold stamped. rewrite Hm. clear. split.
  - exists stamp_text. by split; vm_compute.
  - intros name b. rewrite !lookup_insert_Some. intros [[<- _]|[_ [[<- _]|[_ Hs]]]];
      [right; by exists 1|right; by exists 2|left].
    unfold directory in Hs; simpl in Hs. apply lookup_singleton_Some in Hs as [<- _]. by vm_compute.
Qed.

Lemma crash_recovery_witness :
  ∃ fs s', wc_disk busy = Some fs ∧
    wrap (wc_inner busy) WcDisk (Some fs) 8 0 "vol" 500 interleaving = Ok s' ∧
    wc_ok s' ∧ idle s' ∧ ∀ a, 0 ≤ a → wc_shown s' a = wc_shown busy a.
Proof.
  destruct (wc_disk busy) as [fs|] eqn:Hfs; [|vm_compute in Hfs; discriminate]. exists fs.
  destruct (busy_files fs Hfs) as [Hst Hown].
  destruct (crash_recovery busy fs (wc_inner busy) 8 0 "vol" 500 interleaving)
    as (s' & Hw & Hrest); [apply busy_ok|exact Hfs|exact Hst|exact Hown| |done|done|lia|by left|].
  - apply (ok_inner _ (proj1 busy_ok)).
  - exists s'. split; [reflexivity|]. split; [exact Hw|exact Hrest].
Defined.

Lemma chunk_file_atomic_witness :
  let fs := {| fs_dir := "d"; fs_files := fs_files directory;
               fs_faults := [None; None; Some {| ie_text := "ENOSPC"; ie_written := 1 |}] |} in
  let fs' := (Disk.write_chunk_file 1 (payload 4) fs).2 in
  fs_files fs' !! Disk.file_name 1 = fs_files fs !! Disk.file_name 1 ∨
  1 = 1 ∧ fs_files fs' !! Disk.file_name 1 = Some (payload 4).
Proof. intros fs. apply (chunk_file_atomic fs 1 (payload 4) 1); vm_compute; split; congruence. Defined.

(** ** Observed flaws *)

(** Two dirty chunks in RAM; then one request of the bucket fails. *)
Definition faulty : Stack.volume_store MemS3.bucket :=
  let s := (write 0 (payload 8) (core_of below WcMemory None Dirty.new 64 64 0 [])).2 in
  with_inner (Cached.with_inner {| S3.s_store := volume Legacy;
    S3.s_env := {| env_svc := MemS3.with_faults [true] MemS3.empty_bucket; env_obs := [] |} |}
    (wc_inner s)) s.
Definition flushed_once := flush_all faulty.

(** A failed flush loses data. The flush drains the dirty table before it
    writes; when a write fails, the drained chunks are dropped and the worker
    stays paused. A read that returned the written bytes before the flush
    returns zeros after it, and flushing again reports success. *)
Theorem failed_flush_loses_writes :
  (read 0 (zeros 8) faulty).1 = Ok (payload 8) ∧
  flushed_once.1 = Err (S3Error "ServiceUnavailable") ∧
  (flush_all flushed_once.2).1 = Ok tt ∧
  (read 0 (zeros 8) flushed_once.2).1 = Ok (zeros 8) ∧
  ctl_pause (wc_ctl flushed_once.2) = true.
Proof. vm_compute. repeat split. Qed.

(** Chunk 0 is queued and chunk 1 dirty. *)
Definition queue_and_dirty (sched : list (list Event)) : Stack.volume_store MemS3.bucket :=
  with_time 0 sched (write 0 (payload 8) (core_of below WcMemory None Dirty.new 4 4 0 [])).2.
(** The worker takes its job between the check and the removal. *)
Definition deleted := delete 0 (queue_and_dirty [[]; [Turn; Turn; Turn]]).
(** The worker puts chunk 0 between the two listings. *)
Definition listed := list_present (queue_and_dirty [[Turn; Turn; Turn; Turn; Turn; Turn]]).

(** Races of the maintenance operations with the worker. A deleted chunk
    comes back when the worker took it between the in-flight check and the
    removal; and a listing misses a chunk that the worker moves to the store
    between the two listings. *)
Theorem worker_races :
  (deleted.1 = Ok tt ∧ (read 0 (zeros 4) deleted.2).1 = Ok (zeros 4) ∧
   (read 0 (zeros 4) (worker_turn deleted.2).2).1 = Ok (payload 4)) ∧
  listed.1 = Ok [1] ∧ (list_present listed.2).1 = Ok [0; 1].
Proof. vm_compute. repeat split. Qed.
End witnesses.
End WriteBackTheorems.
