(* ===== verification/Images.v ===== *)
(** * Whole-volume operations over block stores (src/src/admin.rs)

    Seeding a volume from an image, exporting it, copying one volume to another
    and wiping it, over [&dyn BlockStore] trait objects. *)
From S2P Require Import Prelude Text Store.
#[local] Open Scope string_scope.
#[local] Open Scope list_scope.
#[local] Open Scope Z_scope.
Import Text.

(** A trait object [&dyn BlockStore] in a program state [T]: the methods with
    their receiver fixed. Two objects may share parts of [T]. *)
Record Dyn (T : Type) : Type := {
  dyn_read_at : Z → bytes → M T StoreError bytes;
  dyn_write_at : Z → bytes → M T StoreError unit;
  dyn_capacity : T → Z;
  dyn_flush : M T StoreError unit;
  dyn_block_size : T → Z;
  dyn_chunk_size : T → Z;
  dyn_present_chunks : M T StoreError (list Z);
  dyn_delete_chunk : Z → M T StoreError unit
}.
Arguments dyn_read_at {T} _ _ _.
Arguments dyn_write_at {T} _ _ _.
Arguments dyn_capacity {T} _ _.
Arguments dyn_flush {T} _.
Arguments dyn_block_size {T} _ _.
Arguments dyn_chunk_size {T} _ _.
Arguments dyn_present_chunks {T} _.
Arguments dyn_delete_chunk {T} _ _.

(** A store of type [S] that is a part of the state [T]. *)
Definition dyn_of {T S} `{BlockStore S} (proj : T → S) (upd : S → T → T) : Dyn T := {|
  dyn_read_at off buf := zoom proj upd (read_at off buf);
  dyn_write_at off data := zoom proj upd (write_at off data);
  dyn_capacity t := capacity (proj t);
  dyn_flush := zoom proj upd flush;
  dyn_block_size t := block_size (proj t);
  dyn_chunk_size t := chunk_size (proj t);
  dyn_present_chunks := zoom proj upd present_chunks;
  dyn_delete_chunk idx := zoom proj upd (delete_chunk idx)
|}.

(** [StoreError]'s [Display]. *)
Definition display (e : StoreError) : string :=
  match e with
  | OutOfRange offset len capacity =>
      "I/O out of range: offset=" +:+ dec offset +:+ " len=" +:+ dec len
      +:+ " capacity=" +:+ dec capacity
  | ShrinkRefused current requested =>
      "cannot shrink capacity from " +:+ dec current +:+ " to " +:+ dec requested
  | GeometryMismatch m => "geometry mismatch: " +:+ m
  | S3Error m => "S3 error: " +:+ m
  | MetaError m => "metadata error: " +:+ m
  | OtherError m => m
  end.

Record SeedImageResult : Type := {
  si_bytes_read : Z;
  si_bytes_stored : Z;
  si_chunks_written : Z;
  si_zero_chunks_skipped : Z
}.
Record ExportImageResult : Type := { ex_bytes_sent : Z; ex_chunks_read : Z }.
Record CopyVolumeResult : Type := {
  cv_chunks_copied : Z;
  cv_chunks_deleted : Z;
  cv_bytes_copied : Z;
  cv_chunks_skipped : Z
}.
Record WipeVolumeResult : Type := { wv_chunks_deleted : Z }.

(** The admin connection: the bytes that came from the peer and are not yet read,
    what was sent to it, how much it still takes ([None]: everything), and
    whether more may come: a read beyond the bytes at hand waits for more on an
    open connection, which shows as [OutOfFuel], and meets the end of the
    stream on one that the peer has closed. *)
Record Socket : Type := { so_in : bytes; so_out : bytes; so_room : option Z; so_open : bool }.

Module Image.
(** ** The connection *)

(** [reader.read_exact(&mut buf[..n])] *)
Definition read_exact (n : Z) : M Socket string bytes := λ so,
  if n <=? Zlen (so_in so) then
    (Ok (sub (so_in so) 0 n),
     {| so_in := drop (Z.to_nat n) (so_in so); so_out := so_out so; so_room := so_room so; so_open := so_open so |})
  else if so_open so then (OutOfFuel, so)
  else (Err "failed to fill whole buffer",
        {| so_in := []; so_out := so_out so; so_room := so_room so; so_open := so_open so |}).

(** [writer.write_all(data)]: a peer that stops reading ends the transfer. *)
Definition write_all (data : bytes) : M Socket string unit := λ so,
  match so_room so with
  | Some r =>
      if Zlen data <=? r then
        (Ok tt, {| so_in := so_in so; so_out := so_out so ++ data; so_room := Some (r - Zlen data); so_open := so_open so |})
      else (Err "Broken pipe",
            {| so_in := so_in so; so_out := so_out so ++ sub data 0 r; so_room := Some 0; so_open := so_open so |})
  | None => (Ok tt, {| so_in := so_in so; so_out := so_out so ++ data; so_room := None; so_open := so_open so |})
  end.

Section transfer.
Context {T : Type} (store : Dyn T).
Abbreviation MI := (M (T * Socket) string).

Definition set_fst (t : T) (s : T * Socket) : T * Socket := (t, s.2).
Definition set_snd (so : Socket) (s : T * Socket) : T * Socket := (s.1, so).
(** [.map_err(|e| format!("{what}: {e}"))] on a store call and on an I/O call. *)
Definition on_store {A} (what : string) (m : M T StoreError A) : MI A :=
  zoom fst set_fst (map_err (λ e, what +:+ ": " +:+ display e) m).
Definition on_socket {A} (what : string) (m : M Socket string A) : MI A :=
  zoom snd set_snd (map_err (λ e, what +:+ ": " +:+ e) m).

Definition is_zero (b : byte) : bool := bool_decide (b = Byte.x00).

(** The number of chunks in [remaining] bytes: iterations of the loops below. *)
Definition pieces (chunk_size remaining : Z) : nat :=
  Z.to_nat ((remaining + chunk_size - 1) / chunk_size).

(** ** Seeding *)
Record Seed : Type := {
  sd_remaining : Z;
  sd_offset : Z;
  sd_written : Z;
  sd_stored : Z;
  sd_skipped : Z
}.

Definition seed_piece (chunk_size : Z) (st : Seed) : MI Seed :=
  let n := Z.min (sd_remaining st) chunk_size in
  buf ← on_socket ("read image body at offset " +:+ dec (sd_offset st)) (read_exact n);
  if forallb is_zero buf then
    mret {| sd_remaining := sd_remaining st - n; sd_offset := sd_offset st + n;
            sd_written := sd_written st; sd_stored := sd_stored st;
            sd_skipped := sd_skipped st + 1 |}
  else
    _ ← on_store ("write at offset " +:+ dec (sd_offset st)) (dyn_write_at store (sd_offset st) buf);
    mret {| sd_remaining := sd_remaining st - n; sd_offset := sd_offset st + n;
            sd_written := sd_written st + 1; sd_stored := sd_stored st + n;
            sd_skipped := sd_skipped st |}.

Definition seed_image_from_reader (size : Z) : MI SeedImageResult :=
  s ← get;
  let chunk_size := dyn_chunk_size store s.1 in
  if chunk_size =? 0 then throw "invalid chunk_size 0"
  else
    let capacity := dyn_capacity store s.1 in
    if size >? capacity then
      throw ("image size " +:+ dec size +:+ " exceeds volume capacity " +:+ dec capacity)
    else
      st ← while (S (pieces chunk_size size)) (λ st, sd_remaining st >? 0) (seed_piece chunk_size)
             {| sd_remaining := size; sd_offset := 0; sd_written := 0; sd_stored := 0; sd_skipped := 0 |};
      _ ← on_store "flush after image write" (dyn_flush store);
      mret {| si_bytes_read := size; si_bytes_stored := sd_stored st;
              si_chunks_written := sd_written st; si_zero_chunks_skipped := sd_skipped st |}.

(** ** Exporting *)
Record Export : Type := { ep_remaining : Z; ep_offset : Z; ep_read : Z; ep_buf : bytes }.

Definition export_piece (chunk_size : Z) (st : Export) : MI Export :=
  let n := Z.min (ep_remaining st) (Zlen (ep_buf st)) in
  dst ← lift (slice (ep_buf st) 0 n);
  got ← on_store ("read at offset " +:+ dec (ep_offset st)) (dyn_read_at store (ep_offset st) dst);
  buf ← lift (copy_into (ep_buf st) 0 n got);
  src ← lift (slice buf 0 n);
  _ ← on_socket ("write export body at offset " +:+ dec (ep_offset st)) (write_all src);
  mret {| ep_remaining := ep_remaining st - n; ep_offset := ep_offset st + n;
          ep_read := ep_read st + 1; ep_buf := buf |}.

Definition export_image_to_writer (size : Z) : MI ExportImageResult :=
  s ← get;
  let chunk_size := dyn_chunk_size store s.1 in
  if chunk_size =? 0 then throw "invalid chunk_size 0"
  else
    let capacity := dyn_capacity store s.1 in
    if size >? capacity then
      throw ("export size " +:+ dec size +:+ " exceeds volume capacity " +:+ dec capacity)
    else
      st ← while (S (pieces chunk_size size)) (λ st, ep_remaining st >? 0) (export_piece chunk_size)
             {| ep_remaining := size; ep_offset := 0; ep_read := 0; ep_buf := zeros chunk_size |};
      mret {| ex_bytes_sent := size; ex_chunks_read := ep_read st |}.
End transfer.

(** ** Copying and wiping *)
Section volumes.
Context {T : Type}.
Abbreviation MT := (M T string).

Definition named {A} (what : string) (m : M T StoreError A) : MT A :=
  map_err (λ e, what +:+ ": " +:+ display e) m.
Definition resumable {A} (what : string) (idx : Z) (m : M T StoreError A) : MT A :=
  map_err (λ e, what +:+ " chunk " +:+ dec idx +:+ ": " +:+ display e
                +:+ " (resume with --resume-from " +:+ dec idx +:+ ")") m.

(** The counters and the buffer of the copy loop. *)
Record Copy : Type := { cp_copied : Z; cp_skipped : Z; cp_bytes : Z; cp_buf : bytes }.

Definition copy_chunk (src dst : Dyn T) (capacity chunk_size : Z) (resume_from : option Z)
    (idx : Z) (c : Copy) : MT Copy :=
  if match resume_from with Some start => idx <? start | None => false end then
    mret {| cp_copied := cp_copied c; cp_skipped := cp_skipped c + 1; cp_bytes := cp_bytes c;
            cp_buf := cp_buf c |}
  else
    match checked_mul64 idx chunk_size with
    | None => throw ("chunk index " +:+ dec idx +:+ " overflows with chunk_size " +:+ dec chunk_size)
    | Some offset =>
        if offset >=? capacity then mret c
        else
          let len := Z.min (capacity - offset) (Zlen (cp_buf c)) in
          d ← lift (slice (cp_buf c) 0 len);
          got ← resumable "read source" idx (dyn_read_at src offset d);
          buf ← lift (copy_into (cp_buf c) 0 len got);
          d ← lift (slice buf 0 len);
          _ ← resumable "write destination" idx (dyn_write_at dst offset d);
          mret {| cp_copied := cp_copied c + 1; cp_skipped := cp_skipped c;
                  cp_bytes := cp_bytes c + len; cp_buf := buf |}
    end.

Definition delete_extra (dst : Dyn T) (src_set : gset Z) (idx deleted : Z) : MT Z :=
  if bool_decide (idx ∈ src_set) then mret deleted
  else
    _ ← named ("delete destination chunk " +:+ dec idx) (dyn_delete_chunk dst idx);
    mret (deleted + 1).

Definition copy_volume (src dst : Dyn T) (resume_from : option Z) : MT CopyVolumeResult :=
  t ← get;
  if negb (dyn_chunk_size src t =? dyn_chunk_size dst t) then
    throw ("chunk_size mismatch: source " +:+ dec (dyn_chunk_size src t)
           +:+ " != destination " +:+ dec (dyn_chunk_size dst t))
  else if negb (dyn_block_size src t =? dyn_block_size dst t) then
    throw ("block_size mismatch: source " +:+ dec (dyn_block_size src t)
           +:+ " != destination " +:+ dec (dyn_block_size dst t))
  else if negb (dyn_capacity src t =? dyn_capacity dst t) then
    throw ("capacity mismatch: source " +:+ dec (dyn_capacity src t)
           +:+ " != destination " +:+ dec (dyn_capacity dst t)
           +:+ " (1:1 copy requires equal capacity)")
  else
    let capacity := dyn_capacity src t in
    let chunk_size := dyn_chunk_size src t in
    if chunk_size =? 0 then throw "invalid chunk_size 0"
    else
      src_chunks ← named "list source chunks" (dyn_present_chunks src);
      dst_chunks ← named "list destination chunks" (dyn_present_chunks dst);
      c ← for_each src_chunks (copy_chunk src dst capacity chunk_size resume_from)
            {| cp_copied := 0; cp_skipped := 0; cp_bytes := 0; cp_buf := zeros chunk_size |};
      deleted ← for_each dst_chunks (delete_extra dst (list_to_set src_chunks)) 0;
      _ ← named "flush destination after copy" (dyn_flush dst);
      mret {| cv_chunks_copied := cp_copied c; cv_chunks_deleted := deleted;
              cv_bytes_copied := cp_bytes c; cv_chunks_skipped := cp_skipped c |}.

Definition wipe_volume (store : Dyn T) : MT WipeVolumeResult :=
  chunks ← named "list chunks" (dyn_present_chunks store);
  deleted ← for_each chunks (λ idx deleted,
              _ ← named ("delete chunk " +:+ dec idx) (dyn_delete_chunk store idx);
              mret (deleted + 1)) 0;
  _ ← named "flush after wipe" (dyn_flush store);
  mret {| wv_chunks_deleted := deleted |}.
End volumes.
End Image.
