(* ===== verification/ImagesSpec.v ===== *)
(** * Specifications of the whole-volume operations

    Over any working store: loop invariants of seeding, exporting, copying and
    wiping. *)
From S2P Require Import Prelude Text Store Ready Images.
#[local] Open Scope string_scope.
#[local] Open Scope list_scope.
#[local] Open Scope Z_scope.

Module ImageSpec.
Import Image.

Section pieces.
Implicit Types cs r : Z.
Lemma pieces_step cs r :
  0 < cs → 0 < r → pieces cs r = Datatypes.S (pieces cs (r - Z.min r cs)).
Proof.
  intros Hcs Hr. unfold pieces. destruct (Z.min_spec r cs) as [[Hlt ->]|[Hge ->]].
  - rewrite Z.sub_diag, (Z.div_small (0 + cs - 1)) by lia.
    replace (r + cs - 1) with (r - 1 + 1 * cs) by lia. rewrite Z.div_add, Z.div_small by lia. done.
  - replace (r + cs - 1) with (r - cs + cs - 1 + 1 * cs) by lia. rewrite Z.div_add by lia.
    pose proof (Z.div_pos (r - cs + cs - 1) cs ltac:(lia) Hcs). lia.
Qed.

Lemma sub_drop (l : bytes) a n : 0 ≤ a → sub (drop (Z.to_nat a) l) 0 n = sub l a n.
Proof. intros. unfold sub. by rewrite drop_drop, Nat.add_0_r. Qed.

(** The part of a buffer that was just filled. *)
Lemma sub_refilled (buf got : bytes) n :
  Zlen got = n → n ≤ Zlen buf → sub (splice buf 0 got) 0 n = got.
Proof.
  intros Hg Hn. pose proof (Zlen_nonneg got). apply bytes_ext; rewrite Zlen_sub; rewrite ?Zlen_splice by lia; try lia.
  intros i Hi. rewrite nthb_sub, nthb_splice by lia. rewrite decide_True by lia. f_equal. lia.
Qed.

Lemma forallb_zero (b : bytes) : forallb is_zero b = true → ∀ i, nthb b i = Byte.x00.
Proof.
  intros Hb i. unfold nthb. destruct (nth_in_or_default (Z.to_nat i) b Byte.x00) as [Hin|]; [|done].
  rewrite forallb_forall in Hb. specialize (Hb _ Hin). by apply bool_decide_eq_true in Hb.
Qed.
End pieces.

(** ** Seeding and exporting one store *)
Section transfer.
Context {S : Type} `{ReadyLaws S}.
Implicit Types (t : S) (so : Socket) (img : bytes).

Definition whole : Dyn S := dyn_of id (λ s _, s).

Lemma wp_on_store {A} what (m : M S StoreError A) Q R (s : S * Socket) :
  wp m (λ a t, Q a (t, s.2)) (λ e t, R (what +:+ ": " +:+ display e) (t, s.2)) s.1 →
  wp (on_store what m) Q R s.
Proof. intros Hm. unfold on_store. by apply wp_zoom, wp_map_err. Qed.

Lemma wp_whole {A} (m : M S StoreError A) Q R t : wp m Q R t → wp (zoom id (λ s _, s) m) Q R t.
Proof. intros Hm. by apply (wp_zoom id). Qed.

(** Progress of a seed of [img] on the volume [t0], of which [size] bytes were
    blank. *)
Record seeding t0 img so0 size (st : Seed) (s : S * Socket) : Prop := {
  sg_usable : usable s.1;
  sg_sizes : same_sizes t0 s.1;
  sg_left : 0 ≤ sd_remaining st;
  sg_offset : 0 ≤ sd_offset st;
  sg_total : sd_offset st + sd_remaining st = size;
  sg_align : sd_remaining st = 0 ∨ sd_offset st mod chunk_size t0 = 0;
  sg_in : s.2 = {| so_in := drop (Z.to_nat (sd_offset st)) img; so_out := so_out so0;
                   so_room := so_room so0; so_open := so_open so0 |};
  sg_count : sd_written st + sd_skipped st + Z.of_nat (pieces (chunk_size t0) (sd_remaining st))
             = Z.of_nat (pieces (chunk_size t0) size);
  sg_shown : ∀ a, 0 ≤ a →
    shown s.1 a = if decide (a < sd_offset st) then nthb img a else shown t0 a
}.

(** The volume [t] with the first [size] bytes replaced by those of [img]. *)
Definition seeded t img (size a : Z) : byte := if decide (a < size) then nthb img a else shown t a.

(** The next piece lies in one chunk and completes it. *)
Lemma seed_permitted t0 img so0 size st s n :
  usable t0 → size ≤ Zlen img → size ≤ capacity t0 →
  (∀ idx, is_u64 idx → allowed S (chunk_at (chunk_size t0) (seeded t0 img size) idx)) →
  seeding t0 img so0 size st s → sd_remaining st > 0 → n = Z.min (sd_remaining st) (chunk_size t0) →
  permitted s.1 (sd_offset st) (sub img (sd_offset st) n).
Proof.
  intros Hu0 Himg Hcap Hall [Hu Hsz Hl Ho Ht Hal Hin Hc Hsh] Hgt ->.
  destruct (rs_geometry t0 Hu0) as (_ & Hcs & Hc64). destruct Hal as [|Hal]; [lia|].
  assert (Hne : chunk_size t0 ≠ 0) by lia. pose proof (Z.div_mod (sd_offset st) _ Hne) as Hdm.
  set (k := sd_offset st / chunk_size t0) in *.
  assert (Hk : 0 ≤ k) by (apply Z.div_pos; lia).
  apply (permitted_one _ k); [done|rewrite (ss_chunk _ _ Hsz); lia| |].
  { rewrite (ss_chunk _ _ Hsz), Zlen_sub; lia. }
  rewrite (ss_chunk _ _ Hsz), (chunk_at_ext _ _ (seeded t0 img size)).
  - apply Hall. unfold is_u64 in *. nia.
  - intros a Ha. unfold overwritten, seeded. rewrite Zlen_sub by lia. rewrite Hsh by nia.
    repeat case_decide; try done; try (rewrite nthb_sub by lia; f_equal; lia); exfalso; lia.
Qed.

Lemma seed_piece_spec t0 img so0 size st s :
  usable t0 → size ≤ Zlen img → size ≤ capacity t0 → (∀ a, 0 ≤ a < size → shown t0 a = Byte.x00) →
  (∀ idx, is_u64 idx → allowed S (chunk_at (chunk_size t0) (seeded t0 img size) idx)) →
  seeding t0 img so0 size st s → sd_remaining st > 0 →
  wp (seed_piece whole (chunk_size t0) st)
    (λ st' s', seeding t0 img so0 size st' s' ∧
       (pieces (chunk_size t0) (sd_remaining st') < pieces (chunk_size t0) (sd_remaining st))%nat)
    (λ _ _, False) s.
Proof.
  intros Hu0 Himg Hcap Hblank Hall Hs Hgt.
  pose proof (seed_permitted _ _ _ _ _ _ _ Hu0 Himg Hcap Hall Hs Hgt eq_refl) as Hperm.
  destruct Hs as [Hu Hsz Hl Ho Ht Hal Hin Hc Hsh]. destruct s as [t so]; simpl in *. subst so.
  destruct (rs_geometry t0 Hu0) as (_ & Hcs & _). unfold seed_piece.
  set (n := Z.min (sd_remaining st) (chunk_size t0)) in *.
  assert (Hal' : sd_remaining st - n = 0 ∨ (sd_offset st + n) mod chunk_size t0 = 0).
  { destruct (Z.min_spec (sd_remaining st) (chunk_size t0)) as [[_ Hm]|[_ Hm]]; fold n in Hm; [left; lia|].
    destruct Hal as [|Hal]; [lia|]. right. rewrite Hm, <- (Z.mul_1_l (chunk_size t0)) at 1.
    by rewrite Z.mod_add by lia. }
  assert (Hp : pieces (chunk_size t0) (sd_remaining st) =
    Datatypes.S (pieces (chunk_size t0) (sd_remaining st - n))) by (apply pieces_step; lia).
  assert (Hlen : Zlen (drop (Z.to_nat (sd_offset st)) img) = Zlen img - sd_offset st)
    by (unfold Zlen in *; rewrite length_drop; lia).
  apply wp_bind. unfold on_socket. apply wp_zoom, wp_map_err. unfold wp, read_exact. cbn [so_in snd].
  rewrite Hlen, (proj2 (Z.leb_le _ _)) by lia. unfold set_snd. cbn [fst].
  rewrite sub_drop, drop_drop by lia.
  replace (Z.to_nat (sd_offset st) + Z.to_nat n)%nat with (Z.to_nat (sd_offset st + n)) by lia.
  set (buf := sub img (sd_offset st) n).
  assert (Hb : Zlen buf = n) by (apply Zlen_sub; lia).
  assert (Hnth : ∀ a, sd_offset st ≤ a < sd_offset st + n → nthb img a = nthb buf (a - sd_offset st)).
  { intros a Ha. unfold buf. rewrite nthb_sub by lia. f_equal. lia. }
  match goal with |- match ?m ?s with _ => _ end => change (wp m
    (λ st' s', seeding t0 img so0 size st' s' ∧
       (pieces (chunk_size t0) (sd_remaining st') < pieces (chunk_size t0) (sd_remaining st))%nat)
    (λ _ _, False) s) end.
  destruct (forallb is_zero buf) eqn:Hz.
  - apply wp_mret. simpl. split; [|lia]. constructor; simpl; try done; try lia.
    intros a Ha. rewrite Hsh by done. repeat case_decide; try done; try lia.
    rewrite Hnth, (forallb_zero _ Hz) by lia. apply Hblank. lia.
  - apply wp_bind, wp_on_store. cbn [fst snd]. apply wp_whole.
    eapply wp_mono; [by apply rs_write|..]; cbn [fst snd].
    + intros [] t' (Hu' & Hsz' & _ & Hsh'). apply wp_mret. simpl. split; [|lia].
      constructor; simpl; try done; try lia; [by etrans|].
      intros a Ha. rewrite Hsh' by done. unfold overwritten. rewrite Hb, Hsh by done.
      repeat case_decide; try done; try lia. symmetry. apply Hnth. lia.
    + intros e t' [_ [Hbad _]]. rewrite Hb, (ss_cap _ _ Hsz) in Hbad. lia.
Qed.

Lemma seed_spec t img so size :
  usable t → so_in so = img → 0 ≤ size ≤ Zlen img → size ≤ capacity t →
  (∀ a, 0 ≤ a < size → shown t a = Byte.x00) →
  (∀ idx, is_u64 idx → allowed S (chunk_at (chunk_size t) (seeded t img size) idx)) →
  wp (seed_image_from_reader whole size)
    (λ r s', usable s'.1 ∧ same_sizes t s'.1 ∧ si_bytes_read r = size ∧
       si_chunks_written r + si_zero_chunks_skipped r = Z.of_nat (pieces (chunk_size t) size) ∧
       s'.2 = {| so_in := drop (Z.to_nat size) img; so_out := so_out so; so_room := so_room so; so_open := so_open so |} ∧
       ∀ a, 0 ≤ a → shown s'.1 a = if decide (a < size) then nthb img a else shown t a)
    (λ _ _, False) (t, so).
Proof.
  intros Hu Him Hsize Hcap Hblank Hall. destruct (rs_geometry t Hu) as (_ & Hcs & _).
  unfold seed_image_from_reader. wp_step. wp_step. cbv zeta.
  change (dyn_chunk_size whole _) with (chunk_size t). change (dyn_capacity whole _) with (capacity t).
  rewrite (proj2 (Z.eqb_neq _ _)) by lia.
  destruct (Z.gtb_spec size (capacity t)) as [|_]; [lia|].
  wp_step. eapply wp_mono; [eapply (wp_while (seeding t img so size)
    (λ st, pieces (chunk_size t) (sd_remaining st)) (λ _ _, False))|..]; try done.
  - intros st s Hs Hgt. apply Z.gtb_lt in Hgt. apply seed_piece_spec; try done; lia.
  - constructor; simpl; try done; try lia; [by right| |]. { by destruct so; simpl in *; subst. }
    intros a Ha. by rewrite decide_False by lia.
  - simpl. lia.
  - intros st s [[Hu' Hsz Hl Ho Ht _ Hin Hc Hsh] Hdone].
    destruct (Z.gtb_spec (sd_remaining st) 0) as [|Hle]; [done|].
    assert (Hr : sd_remaining st = 0) by lia. wp_step. apply wp_on_store, wp_whole.
    eapply wp_mono; [by apply rs_flush|..]; [|done].
    intros [] t' [Hu2 Hsz2 Hsh2]. wp_step. simpl. rewrite Hr in *. rewrite Hin. simpl.
    change (pieces (chunk_size t) 0) with (Z.to_nat ((0 + chunk_size t - 1) / chunk_size t)) in Hc.
    rewrite Z.div_small in Hc by lia.
    split; [done|]. split; [by etrans|]. split; [done|]. split; [lia|].
    replace size with (sd_offset st) by lia. split; [done|]. intros a Ha. by rewrite Hsh2, Hsh.
Qed.

(** Progress of an export: the bytes below the offset are out. *)
Record exporting t0 so0 size (st : Export) (s : S * Socket) : Prop := {
  eg_kept : kept t0 s.1;
  eg_left : 0 ≤ ep_remaining st;
  eg_offset : 0 ≤ ep_offset st;
  eg_total : ep_offset st + ep_remaining st = size;
  eg_buf : Zlen (ep_buf st) = chunk_size t0;
  eg_in : so_in s.2 = so_in so0;
  eg_room : so_room s.2 = None;
  eg_open : so_open s.2 = so_open so0;
  eg_out : ∃ body, so_out s.2 = so_out so0 ++ body ∧ Zlen body = ep_offset st ∧
    ∀ i, 0 ≤ i < ep_offset st → nthb body i = shown t0 i
}.

Lemma export_piece_spec t0 so0 size st s :
  usable t0 → size ≤ capacity t0 → exporting t0 so0 size st s → ep_remaining st > 0 →
  wp (export_piece whole (chunk_size t0) st)
    (λ st' s', exporting t0 so0 size st' s' ∧
       (pieces (chunk_size t0) (ep_remaining st') < pieces (chunk_size t0) (ep_remaining st))%nat)
    (λ _ _, False) s.
Proof.
  intros Hu0 Hcap [[Hu Hsz Hsh] Hl Ho Ht Hbuf Hin Hroom Hopen (body & Hout & Hbl & Hbody)] Hgt.
  destruct s as [t so]; simpl in *. destruct (rs_geometry t0 Hu0) as (_ & Hcs & _).
  unfold export_piece. rewrite Hbuf. set (n := Z.min (ep_remaining st) (chunk_size t0)) in *.
  assert (Hp : pieces (chunk_size t0) (ep_remaining st) =
    Datatypes.S (pieces (chunk_size t0) (ep_remaining st - n))) by (apply pieces_step; lia).
  wp_step. apply wp_slice; [lia|lia|]. rewrite Z.sub_0_r. set (dst := sub (ep_buf st) 0 n).
  assert (Hd : Zlen dst = n) by (apply Zlen_sub; lia).
  wp_step. apply wp_on_store. cbn [fst snd]. apply wp_whole.
  eapply wp_mono; [by apply rs_read|..]; cbn [fst snd]; rewrite Hd.
  2: { intros e t' [_ [Hbad _]]. rewrite (ss_cap _ _ Hsz) in Hbad. lia. }
  intros got t' ([Hu' Hsz' Hsh'] & _ & Hgl & Hgot).
  wp_step. apply wp_copy_into; [lia|lia|lia|]. set (buf := splice (ep_buf st) 0 got).
  assert (Hb : Zlen buf = chunk_size t0) by (unfold buf; rewrite Zlen_splice; lia).
  wp_step. apply wp_slice; [lia|lia|]. rewrite Z.sub_0_r.
  assert (Hsrc : sub buf 0 n = got) by (apply sub_refilled; lia). rewrite Hsrc. wp_step. unfold on_socket. apply wp_zoom, wp_map_err. unfold wp, write_all. cbn [snd].
  rewrite Hroom. unfold set_snd. cbn [fst]. cbv [mret M_ret]. simpl. split; [|lia].
  constructor; simpl; try done; try lia.
  - constructor; [done|by etrans|]. intros a Ha. by rewrite Hsh', Hsh.
  - exists (body ++ got). rewrite Hout, app_assoc. split; [done|]. autorewrite with zlen. split; [lia|].
    intros i Hi. rewrite nthb_app by lia. rewrite Hbl. case_decide; [apply Hbody; lia|].
    rewrite Hgot, Hsh by lia. f_equal. lia.
Qed.

Lemma export_spec t so size :
  usable t → 0 ≤ size ≤ capacity t → so_room so = None →
  wp (export_image_to_writer whole size)
    (λ r s', kept t s'.1 ∧ ex_bytes_sent r = size ∧ so_in s'.2 = so_in so ∧ so_room s'.2 = None ∧
       so_open s'.2 = so_open so ∧
       ∃ body, so_out s'.2 = so_out so ++ body ∧ Zlen body = size ∧
         ∀ i, 0 ≤ i < size → nthb body i = shown t i)
    (λ _ _, False) (t, so).
Proof.
  intros Hu Hsize Hroom. destruct (rs_geometry t Hu) as (_ & Hcs & _).
  unfold export_image_to_writer. wp_step. wp_step. cbv zeta.
  change (dyn_chunk_size whole _) with (chunk_size t). change (dyn_capacity whole _) with (capacity t).
  rewrite (proj2 (Z.eqb_neq _ _)) by lia.
  destruct (Z.gtb_spec size (capacity t)) as [|_]; [lia|].
  wp_step. eapply wp_mono; [eapply (wp_while (exporting t so size)
    (λ st, pieces (chunk_size t) (ep_remaining st)) (λ _ _, False))|..]; try done.
  - intros st s Hs Hgt. apply Z.gtb_lt in Hgt. apply export_piece_spec; try done; lia.
  - constructor; simpl; try done; try lia; [by rewrite Zlen_zeros by lia|].
    exists []. rewrite app_nil_r. split; [done|]. split; [done|]. lia.
  - simpl. lia.
  - intros st s [[Hk Hl Ho Ht Hbuf Hin Hr Hop Hout] Hdone].
    destruct (Z.gtb_spec (ep_remaining st) 0) as [|Hle]; [done|].
    wp_step. simpl. replace size with (ep_offset st) by lia. done.
Qed.
End transfer.

(** ** Copying one store to another *)
Section copying.
Context {X Y : Type} `{ReadyLaws X} `{ReadyLaws Y}.
Implicit Types (x : X) (y : Y).

Definition source : Dyn (X * Y) := dyn_of fst (λ x s, (x, s.2)).
Definition target : Dyn (X * Y) := dyn_of snd (λ y s, (s.1, y)).

Record alike x y : Prop := {
  al_chunk : chunk_size x = chunk_size y;
  al_block : block_size x = block_size y;
  al_cap : capacity x = capacity y
}.

(** Where the copy starts. *)
Definition first_chunk (resume_from : option Z) : Z :=
  match resume_from with Some k => k | None => 0 end.

(** Progress: the chunks [l] from [k] on are copied. *)
Record copied x0 y0 (k : Z) (l : list Z) (c : Copy) (s : X * Y) : Prop := {
  cd_src : kept x0 s.1;
  cd_usable : usable s.2;
  cd_sizes : same_sizes y0 s.2;
  cd_buf : Zlen (cp_buf c) = chunk_size x0;
  cd_shown : ∀ a, 0 ≤ a → shown s.2 a =
    if decide (a / chunk_size x0 ∈ l ∧ k ≤ a / chunk_size x0) then shown x0 a else shown y0 a;
  cd_address idx : idx ∈ l → k ≤ idx → idx * chunk_size x0 ≤ u64_max
}.

(** The errors a copy can end with when the stores work: a chunk of the source's
    list, not before the start, whose address does not exist. *)
Definition beyond x0 (k : Z) (src : list Z) (e : string) (s : X * Y) : Prop :=
  kept x0 s.1 ∧ usable s.2 ∧ ∃ idx, idx ∈ src ∧ k ≤ idx ∧ u64_max < idx * chunk_size x0 ∧
    e = "chunk index " +:+ Text.dec idx +:+ " overflows with chunk_size " +:+ Text.dec (chunk_size x0).

Lemma copied_skip x0 y0 k l c c' s idx :
  copied x0 y0 k l c s → Zlen (cp_buf c') = chunk_size x0 →
  (∀ a, 0 ≤ a → a / chunk_size x0 = idx → k ≤ idx → shown x0 a = shown y0 a) →
  (k ≤ idx → idx * chunk_size x0 ≤ u64_max) →
  copied x0 y0 k (l ++ [idx]) c' s.
Proof.
  intros [Hk Hu Hs Hb Hsh Hadr] Hb' Heq Hidx. constructor; [done..| |].
  2: { intros i [Hi|<-%list_elem_of_singleton]%elem_of_app; [by apply Hadr|done]. }
  intros a Ha. rewrite Hsh by done.
  destruct (decide (a / chunk_size x0 = idx)) as [Hi|Hi].
  - repeat case_decide; try done; [set_solver|]. symmetry. apply Heq; [done|done|lia].
  - repeat case_decide; try done; set_solver.
Qed.

Lemma chunk_addr cs a idx :
  0 < cs → 0 ≤ a → (a / cs = idx ↔ idx * cs ≤ a < idx * cs + cs).
Proof.
  intros Hcs Ha. split.
  - intros <-. pose proof (Z.mul_div_le a cs Hcs). pose proof (Z.mul_succ_div_gt a cs Hcs). lia.
  - intros Hr. symmetry. apply (Z.div_unique a cs idx (a - idx * cs)); lia.
Qed.

(** Chunk [idx] of the target was just overwritten with [got]. *)
Lemma copied_bytes x0 y0 k l idx got a :
  usable x0 → usable y0 → alike x0 y0 → is_u64 idx → k ≤ idx → 0 ≤ a →
  let off := idx * chunk_size x0 in
  let len := Z.min (capacity x0 - off) (chunk_size x0) in
  (∀ i, 0 ≤ i < len → nthb got i = shown x0 (off + i)) →
  (if decide (off ≤ a < off + len) then nthb got (a - off)
   else if decide (a / chunk_size x0 ∈ l ∧ k ≤ a / chunk_size x0) then shown x0 a else shown y0 a) =
  if decide (a / chunk_size x0 ∈ l ++ [idx] ∧ k ≤ a / chunk_size x0) then shown x0 a else shown y0 a.
Proof.
  intros Hx Hy Hal Hidx Hk Ha off len Hgot. destruct (rs_geometry x0 Hx) as (_ & Hcs & _).
  assert (Hin : a / chunk_size x0 = idx ↔ off ≤ a < off + chunk_size x0) by (apply chunk_addr; lia).
  case_decide as Hw.
  - assert (Hi : a / chunk_size x0 = idx) by (apply Hin; lia). rewrite Hgot by lia.
    rewrite decide_True; [f_equal; lia|]. split; [set_solver|lia].
  - destruct (decide (a / chunk_size x0 = idx)) as [Hi|Hi]; [|repeat case_decide; try done; set_solver].
    apply Hin in Hi. assert (Htail : shown x0 a = shown y0 a).
    { rewrite !rs_tail; [done|done| |done|lia]. rewrite <- (al_cap _ _ Hal). lia. }
    repeat case_decide; congruence.
Qed.

(** What the source shows may be written to the target. *)
Definition accepts x0 : Prop :=
  ∀ idx, is_u64 idx → allowed Y (chunk_at (chunk_size x0) (shown x0) idx).

Lemma copy_permitted x0 y0 y idx got :
  usable x0 → usable y0 → alike x0 y0 → accepts x0 → usable y → same_sizes y0 y → is_u64 idx →
  let off := idx * chunk_size x0 in
  let len := Z.min (capacity x0 - off) (chunk_size x0) in
  off < capacity x0 → Zlen got = len → (∀ i, 0 ≤ i < len → nthb got i = shown x0 (off + i)) →
  permitted y off got.
Proof.
  intros Hx Hy Hal Hacc Hu Hs Hidx off len Hlt Hl Hgot. destruct (rs_geometry x0 Hx) as (_ & Hcs & _).
  assert (Hc : chunk_size y = chunk_size x0) by (rewrite (ss_chunk _ _ Hs); symmetry; apply Hal).
  apply (permitted_one y idx); [done|rewrite Hc; lia|rewrite Hc, Hl; lia|].
  rewrite Hc, (chunk_at_ext _ _ (shown x0)); [by apply Hacc|]. intros a Ha. unfold overwritten. rewrite Hl.
  case_decide; [rewrite Hgot by lia; f_equal; lia|].
  rewrite !rs_tail; [done|done|lia|done|]. rewrite (ss_cap _ _ Hs), <- (al_cap _ _ Hal). lia.
Qed.

Lemma copy_chunk_spec x0 y0 resume src l idx c s :
  usable x0 → usable y0 → alike x0 y0 → accepts x0 → is_u64 idx → idx ∈ src →
  copied x0 y0 (first_chunk resume) l c s →
  wp (copy_chunk source target (capacity x0) (chunk_size x0) resume idx c)
    (λ c' s', copied x0 y0 (first_chunk resume) (l ++ [idx]) c' s')
    (beyond x0 (first_chunk resume) src) s.
Proof.
  intros Hx Hy Hal Hacc Hidx Hsrc Hc. destruct (rs_geometry x0 Hx) as (_ & Hcs & Hcap).
  unfold copy_chunk. destruct (match resume with Some start => idx <? start | None => false end) eqn:Hskip.
  { assert (Hk : ¬ first_chunk resume ≤ idx)
      by (destruct resume as [k|]; [|done]; apply Z.ltb_lt in Hskip; simpl; lia).
    apply wp_mret. by eapply copied_skip; [done|apply Hc|..]. }
  assert (Hk : first_chunk resume ≤ idx)
    by (destruct resume as [k|]; simpl; [apply Z.ltb_ge in Hskip; lia|unfold is_u64 in Hidx; lia]).
  rewrite checked_mul64_spec. case_decide as Hov.
  2: { apply wp_throw. destruct Hc. split; [done|]. split; [done|]. exists idx. do 2 (split; [done|]). split; [lia|done]. }
  destruct (Z.geb_spec (idx * chunk_size x0) (capacity x0)) as [Hge|Hlt].
  { apply wp_mret. eapply copied_skip; [done|apply Hc| |lia]. intros a Ha Hi _.
    apply chunk_addr in Hi; [|lia|done].
    rewrite !rs_tail; [done|done| |done|lia]. rewrite <- (al_cap _ _ Hal). lia. }
  destruct Hc as [Hkx Hu Hs Hb Hsh Hadr]. rewrite Hb. set (off := idx * chunk_size x0) in *.
  set (len := Z.min (capacity x0 - off) (chunk_size x0)).
  assert (Hoff : 0 ≤ off) by (unfold off, is_u64 in *; nia).
  wp_step. apply wp_slice; [lia|lia|]. rewrite Z.sub_0_r. set (d := sub (cp_buf c) 0 len).
  assert (Hd : Zlen d = len) by (apply Zlen_sub; lia).
  destruct s as [x y]; simpl in *. destruct Hkx as [Hux Hsx Hshx].
  wp_step. unfold resumable. apply wp_map_err, wp_zoom. cbn [fst snd].
  eapply wp_mono; [by apply rs_read|..]; rewrite Hd.
  2: { intros e x' [_ [Hbad _]]. rewrite (ss_cap _ _ Hsx) in Hbad. lia. }
  intros got x' ([Hux' Hsx' Hshx'] & _ & Hgl & Hgot).
  wp_step. apply wp_copy_into; [lia|lia|lia|]. set (buf := splice (cp_buf c) 0 got).
  assert (Hbl : Zlen buf = chunk_size x0) by (unfold buf; rewrite Zlen_splice; lia).
  wp_step. apply wp_slice; [lia|lia|]. rewrite Z.sub_0_r.
  assert (Hrefill : sub buf 0 len = got) by (apply sub_refilled; lia). rewrite Hrefill. wp_step. apply wp_map_err, wp_zoom. cbn [fst snd].
  assert (Hgot' : ∀ i, 0 ≤ i < len → nthb got i = shown x0 (off + i))
    by (intros i Hi; by rewrite Hgot, Hshx by lia).
  eapply wp_mono; [apply rs_write; [done|done|by eapply (copy_permitted x0 y0)]|..]; rewrite Hgl.
  2: { intros e y' [_ [Hbad _]]. rewrite (ss_cap _ _ Hs), <- (al_cap _ _ Hal) in Hbad. lia. }
  intros [] y' (Hu' & Hs' & _ & Hsh'). wp_step. constructor; simpl; try done.
  - constructor; [done|by etrans|]. intros a Ha. by rewrite Hshx', Hshx.
  - by etrans.
  - intros a Ha. rewrite Hsh' by done. unfold overwritten. rewrite Hgl, Hsh by done.
    by apply (copied_bytes x0 y0 _ l idx got).
  - intros i [Hi|Hi%list_elem_of_singleton]%elem_of_app; [by apply Hadr|]. subst i. unfold off in *. lia.
Qed.

Lemma copy_chunks_spec x0 y0 resume chunks c s :
  usable x0 → usable y0 → alike x0 y0 → accepts x0 → Forall is_u64 chunks →
  copied x0 y0 (first_chunk resume) [] c s →
  wp (for_each chunks (copy_chunk source target (capacity x0) (chunk_size x0) resume) c)
    (λ c' s', copied x0 y0 (first_chunk resume) chunks c' s') (beyond x0 (first_chunk resume) chunks) s.
Proof.
  intros Hx Hy Hal Hacc Hall Hc. eapply wp_mono; [apply (wp_for_each (λ pre post c s,
    copied x0 y0 (first_chunk resume) pre c s ∧ Forall is_u64 post ∧ chunks = pre ++ post)
    (beyond x0 (first_chunk resume) chunks))|..].
  - intros pre idx post c1 s1 (Hc1 & Hpost & Hsplit). apply Forall_cons in Hpost as [Hidx Hpost].
    eapply wp_mono; [apply (copy_chunk_spec x0 y0 resume chunks); try done; set_solver| |done].
    intros c2 s2 Hc2. rewrite <- app_assoc. done.
  - done.
  - naive_solver.
  - done.
Qed.

Lemma delete_extra_spec x0 y0 src_set chunks n s :
  usable s.2 → same_sizes y0 s.2 → Forall is_u64 chunks → s.1 = x0 →
  wp (for_each chunks (delete_extra target src_set) n)
    (λ _ s', s'.1 = x0 ∧ usable s'.2 ∧ same_sizes y0 s'.2 ∧ ∀ a, 0 ≤ a → shown s'.2 a =
       if decide (a / chunk_size y0 ∈ chunks ∧ a / chunk_size y0 ∉ src_set) then Byte.x00 else shown s.2 a)
    (λ _ _, False) s.
Proof.
  intros Hu Hs Hall Hx. eapply wp_mono; [apply (wp_for_each (λ pre post _ s', s'.1 = x0 ∧ usable s'.2 ∧
    same_sizes y0 s'.2 ∧ Forall is_u64 post ∧ ∀ a, 0 ≤ a → shown s'.2 a =
      if decide (a / chunk_size y0 ∈ pre ∧ a / chunk_size y0 ∉ src_set) then Byte.x00 else shown s.2 a)
    (λ _ _, False))|..].
  - intros pre idx post acc s1 (Hx1 & Hu1 & Hs1 & Hpost & Hsh1). apply Forall_cons in Hpost as [Hidx Hpost].
    unfold delete_extra. case_bool_decide as Hin.
    + apply wp_mret. do 4 (split; [done|]). intros a Ha. rewrite Hsh1 by done.
      repeat case_decide; try done; set_solver.
    + wp_step. unfold named. apply wp_map_err, wp_zoom. cbn [fst snd].
      eapply wp_mono; [by apply rs_delete|..]; [|done]. intros [] y' (Hu' & Hs' & Hsh').
      wp_step. cbn [fst snd]. split; [done|]. split; [done|]. split; [by etrans|]. split; [done|].
      intros a Ha. rewrite Hsh', Hsh1, (ss_chunk _ _ Hs1) by done.
      repeat case_decide; try done; set_solver.
  - split; [done|]. split; [done|]. split; [done|]. split; [done|].
    intros a Ha. rewrite decide_False by set_solver. done.
  - naive_solver.
  - done.
Qed.

Lemma copy_volume_spec x y resume src x1 :
  present_chunks x = (Ok src, x1) →
  usable x → usable y → alike x y → accepts x →
  (∀ a, 0 ≤ a → a / chunk_size x < first_chunk resume → shown y a = shown x a) →
  wp (copy_volume source target resume)
    (λ _ s', kept x s'.1 ∧ usable s'.2 ∧ same_sizes y s'.2 ∧
       (∀ idx, idx ∈ src → first_chunk resume ≤ idx → idx * chunk_size x ≤ u64_max) ∧
       ∀ a, 0 ≤ a → shown s'.2 a = shown x a)
    (beyond x (first_chunk resume) src) (x, y).
Proof.
  intros Hsrc Hx Hy Hal Hacc Hres. destruct (rs_geometry x Hx) as (_ & Hcs & _).
  unfold copy_volume. do 2 wp_step. cbv zeta.
  change (dyn_chunk_size source _) with (chunk_size x). change (dyn_chunk_size target _) with (chunk_size y).
  change (dyn_block_size source _) with (block_size x). change (dyn_block_size target _) with (block_size y).
  change (dyn_capacity source _) with (capacity x). change (dyn_capacity target _) with (capacity y).
  rewrite (al_chunk _ _ Hal), (al_block _ _ Hal), (al_cap _ _ Hal), !Z.eqb_refl. cbv beta iota delta [negb].
  rewrite <- (al_chunk _ _ Hal), <- (al_cap _ _ Hal), (proj2 (Z.eqb_neq _ _)) by lia.
  wp_step. unfold named. apply wp_map_err, wp_zoom. cbn [fst snd].
  pose proof (rs_present x Hx) as Hlist. unfold wp in Hlist. rewrite Hsrc in Hlist.
  destruct Hlist as (Hkx & _ & Hallx & Hlx). change (dyn_present_chunks (dyn_of _ _)) with present_chunks.
  eapply wp_run; [exact Hsrc|].
  wp_step. apply wp_map_err, wp_zoom. cbn [fst snd].
  eapply wp_mono; [by apply rs_present|..]; [|done]. intros ly y1 (Hky & _ & Hally & Hly).
  wp_step. eapply wp_mono; [apply (copy_chunks_spec x y resume src); try done| |done].
  { destruct Hky. constructor; simpl; try done; [by rewrite Zlen_zeros by lia|set_solver]. }
  intros c [x2 y2] [Hkx2 Hu2 Hs2 _ Hsh2 Hadr]. simpl in *.
  wp_step. eapply wp_mono; [by apply (delete_extra_spec x2 y (list_to_set src) ly)| |done].
  intros n [x3 y3] (Hx3 & Hu3 & Hs3 & Hsh3). simpl in *. subst x3.
  wp_step. apply wp_map_err, wp_zoom. cbn [fst snd]. eapply wp_mono; [by apply rs_flush|..]; [|done].
  intros [] y4 [Hu4 Hs4 Hsh4]. wp_step. cbn [fst snd]. split; [done|]. split; [done|].
  split; [by etrans|]. split; [done|]. intros a Ha. rewrite Hsh4, Hsh3, Hsh2, <- (al_chunk _ _ Hal) by done.
  set (k := a / chunk_size x) in *.
  assert (Hnx : k ∉ src → shown x a = Byte.x00) by
    (intros Hn; destruct (decide (shown x a = Byte.x00)) as [|Hne]; [done|destruct Hn; by apply Hlx]).
  assert (Hny : k ∉ ly → shown y a = Byte.x00).
  { intros Hn. destruct (decide (shown y a = Byte.x00)) as [|Hne]; [done|destruct Hn].
    unfold k. rewrite (al_chunk _ _ Hal). by apply Hly. }
  case_decide as Hdel; rewrite not_elem_of_list_to_set in Hdel; [symmetry; apply Hnx, Hdel|].
  case_decide as Hcp; [done|].
  destruct (decide (k ∈ src)) as [Hin|Hin]; [|rewrite Hnx by done; apply Hny; tauto].
  apply Hres; [done|]. fold k. destruct (decide (first_chunk resume ≤ k)); [tauto|lia].
Qed.
End copying.

(** ** Wiping *)
Section wiping.
Context {S : Type} `{ReadyLaws S}.
Implicit Types t : S.

Lemma wipe_volume_spec t :
  usable t →
  wp (wipe_volume (whole (S := S)))
    (λ _ t', usable t' ∧ same_sizes t t' ∧ ∀ a, 0 ≤ a → shown t' a = Byte.x00)
    (λ _ _, False) t.
Proof.
  intros Hu. unfold wipe_volume. wp_step. unfold named. apply wp_map_err, wp_whole.
  eapply wp_mono; [by apply rs_present|..]; [|done]. intros l t1 ([Hu1 Hs1 Hsh1] & _ & Hall & Hl).
  wp_step. eapply wp_mono; [apply (wp_for_each (λ pre post _ t', usable t' ∧ same_sizes t t' ∧
    Forall is_u64 post ∧ ∀ a, 0 ≤ a → shown t' a =
      if decide (a / chunk_size t ∈ pre) then Byte.x00 else shown t a) (λ _ _, False))|..]; [..|done].
  - intros pre idx post acc t2 (Hu2 & Hs2 & Hpost & Hsh2). apply Forall_cons in Hpost as [Hidx Hpost].
    wp_step. apply wp_map_err, wp_whole. eapply wp_mono; [by apply rs_delete|..]; [|done].
    intros [] t3 (Hu3 & Hs3 & Hsh3). wp_step. split; [done|]. split; [by etrans|]. split; [done|].
    intros a Ha. rewrite Hsh3, Hsh2, (ss_chunk _ _ Hs2) by done. repeat case_decide; try done; set_solver.
  - split; [done|]. split; [done|]. split; [done|]. intros a Ha. rewrite decide_False by set_solver. auto.
  - intros n t2 (Hu2 & Hs2 & _ & Hsh2). wp_step. apply wp_map_err, wp_whole.
    eapply wp_mono; [by apply rs_flush|..]; [|done]. intros [] t3 [Hu3 Hs3 Hsh3]. wp_step.
    split; [done|]. split; [by etrans|]. intros a Ha. rewrite Hsh3, Hsh2 by done. case_decide as Hin; [done|].
    destruct (decide (shown t a = Byte.x00)) as [|Hne]; [done|]. destruct Hin. by apply Hl.
Qed.
End wiping.
End ImageSpec.
