(* ===== verification/Value.v ===== *)
(** * JSON values and lines

    [serde_json::Value] as the sources use it: objects are maps, numbers are
    integers (no 64-bit field of the sources is anything else). [Serialize] is
    serde's trait for the types that are put into replies. The text of a value
    is serde_json's, an interface [Wire]; a line is the text and a newline. *)
From S2P Require Import Prelude Text.
#[local] Open Scope string_scope.
#[local] Open Scope list_scope.
#[local] Open Scope Z_scope.
Import Text.

#[local] Unset Elimination Schemes.
Inductive Value : Type :=
| JNull
| JBool (b : bool)
| JNumber (n : Z)
| JString (s : string)
| JArray (l : list Value)
| JObject (o : gmap string Value).
#[local] Set Elimination Schemes.

Class Serialize (A : Type) : Type := to_json : A → Value.
#[export] Instance bool_serialize : Serialize bool := JBool.
#[export] Instance Z_serialize : Serialize Z := JNumber.
#[export] Instance nat_serialize : Serialize nat := λ n, JNumber (Z.of_nat n).
#[export] Instance string_serialize : Serialize string := JString.
#[export] Instance value_serialize : Serialize Value := λ v, v.
#[export] Instance option_serialize `{Serialize A} : Serialize (option A) := λ o,
  match o with Some a => to_json a | None => JNull end.
#[export] Instance list_serialize `{Serialize A} : Serialize (list A) := λ l, JArray (map to_json l).

Module Js.
(** [json!({ .. })]; no key is given twice. *)
Definition obj (fields : list (string * Value)) : Value := JObject (list_to_map fields).
(** [v[key] = x] on an object *)
Definition put (key : string) (x : Value) (o : gmap string Value) : Value := JObject (<[key := x]> o).
Definition put_some {A} `{Serialize A} (key : string) (x : option A) (v : Value) : Value :=
  match x, v with Some x, JObject o => put key (to_json x) o | _, _ => v end.

(** [v.get(key)], [v.pointer("/a/b")] and the conversions *)
Definition get (key : string) (v : Value) : option Value :=
  match v with JObject o => o !! key | _ => None end.
Fixpoint pointer (path : list string) (v : Value) : option Value :=
  match path with [] => Some v | key :: path => v ← get key v; pointer path v end.
Definition as_str (v : Value) : option string := match v with JString s => Some s | _ => None end.
Definition as_bool (v : Value) : option bool := match v with JBool b => Some b | _ => None end.
Definition as_array (v : Value) : option (list Value) := match v with JArray l => Some l | _ => None end.
Definition as_u64 (v : Value) : option Z :=
  match v with JNumber n => if (0 <=? n) && (n <=? u64_max) then Some n else None | _ => None end.

Definition get_str (key : string) (v : Value) : option string := v ← get key v; as_str v.
(** [v.get(key) == Some(&json!(true))] *)
Definition is_true (v : option Value) : bool := match v with Some (JBool true) => true | _ => false end.

Lemma get_obj key fields : get key (obj fields) = list_to_map (M := gmap string Value) fields !! key.
Proof. done. Qed.
Lemma as_u64_in n : is_u64 n → as_u64 (JNumber n) = Some n.
Proof.
  intros [Hlo Hhi]. unfold as_u64. by rewrite (proj2 (Z.leb_le _ _) Hlo), (proj2 (Z.leb_le _ _) Hhi).
Qed.
Lemma is_true_spec v : is_true v = true ↔ v = Some (JBool true).
Proof. destruct v as [[|[]| | | |]|]; naive_solver. Qed.

(** Looking a key up in an object written out field by field. *)
Lemma obj_here key v fields : get key (obj ((key, v) :: fields)) = Some v.
Proof. rewrite get_obj. cbn [list_to_map foldr fst snd]. apply lookup_insert_eq. Qed.
Lemma obj_there key key' v fields :
  key' ≠ key → get key (obj ((key', v) :: fields)) = get key (obj fields).
Proof. intros Hne. rewrite !get_obj. cbn [list_to_map foldr fst snd]. by apply lookup_insert_ne. Qed.
Lemma obj_none key : get key (obj []) = None.
Proof. apply lookup_empty. Qed.
End Js.
#[export] Hint Rewrite @Js.obj_here @Js.obj_none : js.
#[export] Hint Rewrite @Js.obj_there using discriminate : js.

(** ** Text *)
Lemma as_bytes_cons c s : as_bytes (String c s) = Ascii.byte_of_ascii c :: as_bytes s.
Proof. done. Qed.
Lemma as_bytes_app s t : as_bytes (s +:+ t) = as_bytes s ++ as_bytes t.
Proof. induction s as [|c s IH]; [done|]. exact (f_equal (cons (Ascii.byte_of_ascii c)) IH). Qed.
Class Wire : Type := {
  json_to_string : Value → string;
  json_to_string_pretty : Value → string;
  json_from_str : string → Value + string
}.
Definition newline : string := String (Ascii.ascii_of_nat 10) "".
(** The compact form is one line without blanks around it, and reads back. *)
Class WireLaws `{Wire} : Prop := {
  wire_roundtrip v : json_from_str (json_to_string v) = inl v;
  wire_trim v : trim (json_to_string v +:+ newline) = json_to_string v;
  wire_some v : is_empty (json_to_string v) = false;
  wire_line v : Byte.x0a ∉ as_bytes (json_to_string v)
}.
