(* ===== verification/ConcreteWire.v ===== *)
(** * A concrete text for JSON values

    Any injective text will do to show that the laws of [Wire] can hold: here a
    value is numbered, and written as the binary digits of its number. *)
From S2P Require Import Prelude Text Value.
#[local] Open Scope string_scope.
#[local] Open Scope list_scope.
#[local] Open Scope Z_scope.
Import Text.

Module ConcreteWire.
(** ** Values as trees *)
Definition Leaf : Type := bool + Z + string.
Abbreviation tree := (gen_tree Leaf).

Fixpoint enc (v : Value) : tree :=
  match v with
  | JNull => GenNode 0 []
  | JBool b => GenLeaf (inl (inl b))
  | JNumber n => GenLeaf (inl (inr n))
  | JString s => GenLeaf (inr s)
  | JArray l => GenNode 1 (map enc l)
  | JObject o => GenNode 2 (map_fold (λ k v acc, GenLeaf (inr k) :: enc v :: acc) [] o)
  end.

Fixpoint dec (t : tree) : option Value :=
  match t with
  | GenLeaf (inl (inl b)) => Some (JBool b)
  | GenLeaf (inl (inr n)) => Some (JNumber n)
  | GenLeaf (inr s) => Some (JString s)
  | GenNode 0 _ => Some JNull
  | GenNode 1 l =>
      JArray <$> (fix go l := match l with [] => Some [] | t :: l => v ← dec t; vs ← go l; Some (v :: vs) end) l
  | GenNode _ l =>
      (λ ps, JObject (list_to_map ps)) <$>
      (fix go l := match l with
       | [] => Some []
       | GenLeaf (inr k) :: t :: l => v ← dec t; rest ← go l; Some ((k, v) :: rest)
       | _ => None
       end) l
  end.

Fixpoint size (v : Value) : nat :=
  match v with
  | JArray l => S (foldr (λ v n, size v + n)%nat O l)
  | JObject o => S (map_fold (λ _ v n, size v + n)%nat O o)
  | _ => 1
  end.

Lemma size_array l v : v ∈ l → (size v < size (JArray l))%nat.
Proof. simpl. induction 1; simpl; lia. Qed.
Lemma size_object o k v : (k, v) ∈ map_to_list o → (size v < size (JObject o))%nat.
Proof.
  simpl. rewrite map_fold_foldr. generalize (map_to_list o). intros l. induction l as [|[k' v'] l IH];
    [by intros ?%not_elem_of_nil|]. simpl. intros [[= <- <-]|Hin]%elem_of_cons; [lia|]. specialize (IH Hin). lia.
Qed.

Lemma dec_enc v : dec (enc v) = Some v.
Proof.
  induction v as [v IH] using (well_founded_induction (well_founded_ltof _ size)). unfold ltof in IH.
  destruct v as [| | | |l|o]; try done.
  - assert (Hl : ∀ v, v ∈ l → dec (enc v) = Some v) by (intros; by apply IH, size_array). clear IH.
    simpl. induction l as [|v l IHl]; [done|]. simpl. rewrite Hl by left. simpl.
    assert (Hr : ∀ v, v ∈ l → dec (enc v) = Some v) by (intros; apply Hl; by right).
    specialize (IHl Hr). revert IHl. simpl.
    destruct ((fix go l := match l with [] => Some [] | t :: l => v ← dec t; vs ← go l; Some (v :: vs) end) (map enc l));
      simpl; congruence.
  - assert (Hl : ∀ k v, (k, v) ∈ map_to_list o → dec (enc v) = Some v)
      by (intros; by eapply IH, size_object). clear IH.
    simpl. rewrite map_fold_foldr. rewrite <- (list_to_map_to_list o) at 2. revert Hl.
    generalize (map_to_list o). clear o. intros l Hl.
    set (go := fix go l := match l with
       | [] => Some []
       | GenLeaf (inr k) :: t :: l => v ← dec t; rest ← go l; Some ((k, v) :: rest)
       | _ => None end).
    assert (Hgo : go (foldr (uncurry (λ k v acc, GenLeaf (inr k) :: enc v :: acc)) [] l) = Some l).
    { induction l as [|[k v] l IHl]; [done|]. simpl. rewrite (Hl k v) by left. simpl.
      rewrite IHl; [done|]. intros k' v' ?. apply (Hl k'). by right. }
    exact (f_equal (fmap (λ ps, JObject (list_to_map ps))) Hgo).
Qed.

#[export] Instance Value_eq_dec : EqDecision Value.
Proof.
  intros v v'. destruct (decide (enc v = enc v')) as [He|Hne]; [left|right; congruence].
  apply (f_equal dec) in He. rewrite !dec_enc in He. congruence.
Defined.
#[export] Instance Value_countable : Countable Value.
Proof. refine (inj_countable enc dec dec_enc). Defined.

(** ** Digits *)
Fixpoint digits (p : positive) : string :=
  match p with
  | xH => String (Ascii.ascii_of_nat 36) ""
  | xO p => String (Ascii.ascii_of_nat 48) (digits p)
  | xI p => String (Ascii.ascii_of_nat 49) (digits p)
  end.
Fixpoint read (s : string) : option positive :=
  match s with
  | "" => None
  | String c s =>
      if Ascii.eqb c (Ascii.ascii_of_nat 36) then Some xH
      else if Ascii.eqb c (Ascii.ascii_of_nat 48) then xO <$> read s else xI <$> read s
  end.
Lemma read_digits p : read (digits p) = Some p.
Proof. induction p as [p IH|p IH|]; simpl; by rewrite ?IH. Qed.
Lemma trim_digits p : trim (digits p +:+ newline) = digits p.
Proof.
  assert (He : trim_end (digits p +:+ newline) = digits p).
  { induction p as [p IH|p IH|]; simpl in *; rewrite ?IH; [..|done]; by destruct p. }
  unfold trim. destruct p; exact He.
Qed.
Lemma digits_line p : Byte.x0a ∉ as_bytes (digits p).
Proof.
  induction p; cbn [digits]; rewrite !as_bytes_cons, elem_of_cons; intros [H|H]; try done.
  by apply elem_of_nil in H.
Qed.

#[export] Instance wire : Wire := {
  json_to_string v := digits (encode v);
  json_to_string_pretty v := digits (encode v);
  json_from_str s := match read s ≫= decode with Some v => inl v | None => inr "invalid" end
}.
#[export] Instance wire_laws : WireLaws.
Proof.
  split; intros v; unfold json_to_string, json_from_str, wire.
  - rewrite read_digits. simpl. by rewrite decode_encode.
  - apply trim_digits.
  - by destruct (encode v).
  - apply digits_line.
Qed.
End ConcreteWire.
