(* ===== verification/Wire.v ===== *)
(** * The admin socket's protocol (src/src/admin.rs)

    Lines of JSON in both directions; for images the bytes follow the daemon's
    ready line. The daemon's half of a connection and the client's are both a
    [Socket]: what is still to come, and what was sent. The client's local file
    is a byte source or sink of the same shape. Bytes that are not UTF-8, which
    [read_line] refuses, are refused by the JSON reader here. *)
From S2P Require Import Prelude Text Store Images Value.
#[local] Open Scope string_scope.
#[local] Open Scope list_scope.
#[local] Open Scope Z_scope.
Import Text.

Module Wire.
Import Image.

(** [read_line]: up to and with the next newline, which it waits for while the
    peer may still send; at the end of the stream, all there is. *)
Fixpoint split_line (l : bytes) : bytes * bytes :=
  match l with
  | [] => ([], [])
  | b :: l => if bool_decide (b = Byte.x0a) then ([b], l) else let '(x, rest) := split_line l in (b :: x, rest)
  end.
Definition read_line : M Socket string string := λ so,
  let '(x, rest) := split_line (so_in so) in
  if so_open so && negb (bool_decide (last x = Some Byte.x0a)) then (OutOfFuel, so)
  else
  (Ok (String.string_of_list_byte x), {| so_in := rest; so_out := so_out so; so_room := so_room so; so_open := so_open so |}).

Definition saying {S A} (w : string) (m : M S string A) : M S string A := map_err (λ e, w +:+ ": " +:+ e) m.

Section wire.
Context `{Value.Wire}.

Definition write_json_line (value : Value) : M Socket string unit :=
  _ ← saying "write" (write_all (as_bytes (json_to_string value)));
  saying "write" (write_all (as_bytes newline)).

(** [from_str(line.trim()).map_err(..)] *)
Definition parse_line {S} (w line : string) : M S string Value :=
  match json_from_str (trim line) with inl v => mret v | inr e => throw (w +:+ ": " +:+ e) end.

(** ** The client's calls, on an open connection *)
Definition call_admin (request : Value) : M Socket string Value :=
  _ ← write_json_line request;
  resp ← saying "read" read_line;
  parse_line "bad response json" resp.

(** The connection and the local file. *)
Abbreviation MT := (M (Socket * Socket) string).
Definition conn {A} (m : M Socket string A) : MT A := zoom fst (λ c s, (c, s.2)) m.
Definition local_file {A} (m : M Socket string A) : MT A := zoom snd (λ f s, (s.1, f)) m.

Definition BUF : Z := 1024 * 1024.

Definition write_image_request (volume : string) (size : Z) : Value := Js.obj [
  ("op", to_json "volume.write_image"); ("volume", to_json volume); ("size", to_json size)].
Definition export_request (volume : string) (size : option Z) : Value :=
  Js.put_some "size" size (Js.obj [("op", to_json "volume.export"); ("volume", to_json volume)]).

Definition send_piece (remaining : Z) : MT Z :=
  let n := Z.min remaining BUF in
  buf ← local_file (saying "read local file" (read_exact n));
  _ ← conn (saying "send image bytes" (write_all buf));
  mret (remaining - n).
Definition call_admin_write_image (volume : string) (size : Z) : MT Value :=
  _ ← conn (write_json_line (write_image_request volume size));
  ready_line ← conn (saying "read ready" read_line);
  ready ← parse_line "bad ready json" ready_line;
  if negb (Js.is_true (Js.get "ok" ready)) then mret ready
  else
    _ ← while (S (pieces BUF size)) (λ remaining, remaining >? 0) send_piece size;
    final_line ← conn (saying "read final" read_line);
    parse_line "bad final json" final_line.

Definition receive_piece (remaining : Z) : MT Z :=
  let n := Z.min remaining BUF in
  buf ← conn (saying "receive image bytes" (read_exact n));
  _ ← local_file (saying "write local file" (write_all buf));
  mret (remaining - n).
Definition call_admin_export (volume : string) (size : option Z) : MT Value :=
  _ ← conn (write_json_line (export_request volume size));
  ready_line ← conn (saying "read ready" read_line);
  ready ← parse_line "bad ready json" ready_line;
  if negb (Js.is_true (Js.get "ok" ready)) then mret ready
  else
    match (v ← Js.pointer ["data"; "size"] ready; Js.as_u64 v) with
    | None => throw "export ready response missing size"
    | Some export_size =>
        _ ← while (S (pieces BUF export_size)) (λ remaining, remaining >? 0) receive_piece export_size;
        final_line ← conn (saying "read final" read_line);
        parse_line "bad final json" final_line
    end.
End wire.
End Wire.
