(* ===== verification/WireSpec.v ===== *)
(** * What the admin socket's protocol transports

    A line written is read back; the client's image calls send exactly the file
    and store exactly what they receive. *)
From S2P Require Import Prelude Text Store Images ImagesSpec Value Wire.
#[local] Open Scope string_scope.
#[local] Open Scope list_scope.
#[local] Open Scope Z_scope.
Import Text.

Module WireSpec.
Import Image Wire.

(** Running a computation step by step. *)
Lemma run_bind {S E A C} (m : M S E A) (f : A → M S E C) s a s' : m s = (Ok a, s') → (m ≫= f) s = f a s'.
Proof. unfold mbind, M_bind. by intros ->. Qed.
Lemma run_saying {S A} w (m : M S string A) s a s' : m s = (Ok a, s') → saying w m s = (Ok a, s').
Proof. unfold saying, map_err. by intros ->. Qed.
Lemma run_attempt {S E A} (m : M S E A) s a s' : m s = (Ok a, s') → attempt m s = (Ok (inl a), s').
Proof. unfold attempt. by intros ->. Qed.
Lemma run_conn {A} (m : M Socket string A) c f r c' : m c = (r, c') → conn m (c, f) = (r, (c', f)).
Proof. unfold conn, zoom. cbn [fst snd]. by intros ->. Qed.
Lemma run_file {A} (m : M Socket string A) c f r f' : m f = (r, f') → local_file m (c, f) = (r, (c, f')).
Proof. unfold local_file, zoom. cbn [fst snd]. by intros ->. Qed.
Lemma run_while {S E St} fuel cond (body : St → M S E St) st s :
  cond st = true → while (Datatypes.S fuel) cond body st s = (st' ← body st; while fuel cond body st') s.
Proof. intros Hc. simpl. by rewrite Hc. Qed.

Section wire.
Context `{WireLaws}.

(** A value on the wire. *)
Definition line (v : Value) : bytes := as_bytes (json_to_string v +:+ newline).

Lemma split_line_app l rest : Byte.x0a ∉ l → split_line (l ++ Byte.x0a :: rest) = (l ++ [Byte.x0a], rest).
Proof.
  induction l as [|b l IH]; intros Hl; [done|]. apply not_elem_of_cons in Hl as [Hb Hl].
  simpl. rewrite bool_decide_false by done. by rewrite IH.
Qed.
Lemma line_eq v : line v = as_bytes (json_to_string v) ++ [Byte.x0a].
Proof. unfold line. apply as_bytes_app. Qed.
Lemma split_line_json v rest : split_line (line v ++ rest) = (line v, rest).
Proof. rewrite !line_eq, <- app_assoc. apply split_line_app, wire_line. Qed.

Lemma line_last v : negb (bool_decide (last (line v) = Some Byte.x0a)) = false.
Proof. by rewrite line_eq, last_snoc. Qed.
(** Nothing came yet. *)
Lemma read_line_waits out room :
  let so := {| so_in := []; so_out := out; so_room := room; so_open := true |} in read_line so = (OutOfFuel, so).
Proof. done. Qed.

Lemma read_line_json {op} v rest out room :
  read_line {| so_in := line v ++ rest; so_out := out; so_room := room; so_open := op |} =
  (Ok (json_to_string v +:+ newline), {| so_in := rest; so_out := out; so_room := room; so_open := op |}).
Proof.
  unfold read_line. cbn [so_in so_out so_room so_open]. rewrite split_line_json, line_last, andb_false_r.
  unfold line, as_bytes. by rewrite String.string_of_list_byte_of_string.
Qed.
Lemma parse_line_json {S} w v (s : S) : parse_line w (json_to_string v +:+ newline) s = (Ok v, s).
Proof. unfold parse_line. by rewrite wire_trim, wire_roundtrip. Qed.
Lemma write_json_line_json {op} v inc out :
  write_json_line v {| so_in := inc; so_out := out; so_room := None; so_open := op |} =
  (Ok tt, {| so_in := inc; so_out := out ++ line v; so_room := None; so_open := op |}).
Proof.
  unfold write_json_line, saying, write_all, mbind, M_bind, map_err. simpl.
  rewrite line_eq. by rewrite <- app_assoc.
Qed.

Lemma call_admin_json {op} req v rest out :
  call_admin req {| so_in := line v ++ rest; so_out := out; so_room := None; so_open := op |} =
  (Ok v, {| so_in := rest; so_out := out ++ line req; so_room := None; so_open := op |}).
Proof.
  unfold call_admin, mbind at 1, M_bind at 1. rewrite write_json_line_json.
  unfold saying, mbind, M_bind, map_err. rewrite read_line_json. apply parse_line_json.
Qed.

(** ** Streaming an image *)
Implicit Types (c f : Socket) (img : bytes).

Lemma read_exact_all {op} (n : Z) l rest out room :
  Zlen l = n → read_exact n {| so_in := l ++ rest; so_out := out; so_room := room; so_open := op |} =
    (Ok l, {| so_in := rest; so_out := out; so_room := room; so_open := op |}).
Proof.
  intros <-. unfold read_exact. cbn [so_in so_out so_room].
  rewrite (proj2 (Z.leb_le _ _)) by (unfold Zlen; rewrite length_app; lia).
  unfold sub, Zlen. rewrite drop_0, Nat2Z.id, take_app_length, drop_app_length. done.
Qed.
Lemma write_all_all {op} data inc out :
  write_all data {| so_in := inc; so_out := out; so_room := None; so_open := op |} =
  (Ok tt, {| so_in := inc; so_out := out ++ data; so_room := None; so_open := op |}).
Proof. done. Qed.

(** The first piece of what is left, and the rest. *)
Lemma first_piece img :
  0 < Zlen img → ∃ a b, img = a ++ b ∧ Zlen a = Z.min (Zlen img) BUF ∧ Zlen b = Zlen img - Z.min (Zlen img) BUF.
Proof.
  intros Hpos. exists (take (Z.to_nat (Z.min (Zlen img) BUF)) img), (drop (Z.to_nat (Z.min (Zlen img) BUF)) img).
  split; [by rewrite take_drop|]. unfold Zlen, BUF in *. rewrite length_take, length_drop. lia.
Qed.

Lemma pieces_nil : pieces BUF 0 = 0%nat.
Proof. done. Qed.
Lemma pieces_left r : 0 < r → pieces BUF r = S (pieces BUF (r - Z.min r BUF)).
Proof. intros Hr. by apply ImageSpec.pieces_step. Qed.

Lemma send_all {op fop} n img inc out rest fout froom :
  pieces BUF (Zlen img) = n →
  while (S n) (λ remaining, remaining >? 0) send_piece (Zlen img)
    ({| so_in := inc; so_out := out; so_room := None; so_open := op |}, {| so_in := img ++ rest; so_out := fout; so_room := froom; so_open := fop |}) =
  (Ok 0, ({| so_in := inc; so_out := out ++ img; so_room := None; so_open := op |},
          {| so_in := rest; so_out := fout; so_room := froom; so_open := fop |})).
Proof.
  revert img out. induction n as [|n IH]; intros img out Hn; destruct (Z.gtb_spec (Zlen img) 0) as [Hpos|Hle];
    try (assert (img = []) as -> by (destruct img; [done|unfold Zlen in *; simpl in *; lia]); by rewrite app_nil_r).
  - rewrite pieces_left in Hn by done. done.
  - rewrite pieces_left in Hn by done. injection Hn as Hn.
    destruct (first_piece img Hpos) as (a & b & Himg & Ha & Hb).
    assert (Hs : send_piece (Zlen img) ({| so_in := inc; so_out := out; so_room := None; so_open := op |},
        {| so_in := img ++ rest; so_out := fout; so_room := froom; so_open := fop |}) =
      (Ok (Zlen b), ({| so_in := inc; so_out := out ++ a; so_room := None; so_open := op |},
        {| so_in := b ++ rest; so_out := fout; so_room := froom; so_open := fop |}))).
    { unfold send_piece. rewrite Himg at 2. rewrite <- app_assoc.
      erewrite run_bind by (apply run_file, run_saying, read_exact_all; done).
      erewrite run_bind by (apply run_conn, run_saying, write_all_all). by rewrite Hb. }
    rewrite run_while by (by apply Z.gtb_lt). rewrite (run_bind _ _ _ _ _ Hs). rewrite (IH b (out ++ a)) by (by rewrite Hb). by rewrite Himg, app_assoc.
Qed.

Lemma receive_all {op fop} n img inc out fin fout :
  pieces BUF (Zlen img) = n →
  while (S n) (λ remaining, remaining >? 0) receive_piece (Zlen img)
    ({| so_in := img ++ inc; so_out := out; so_room := None; so_open := op |}, {| so_in := fin; so_out := fout; so_room := None; so_open := fop |}) =
  (Ok 0, ({| so_in := inc; so_out := out; so_room := None; so_open := op |},
          {| so_in := fin; so_out := fout ++ img; so_room := None; so_open := fop |})).
Proof.
  revert img fout. induction n as [|n IH]; intros img fout Hn; destruct (Z.gtb_spec (Zlen img) 0) as [Hpos|Hle];
    try (assert (img = []) as -> by (destruct img; [done|unfold Zlen in *; simpl in *; lia]); by rewrite app_nil_r).
  - rewrite pieces_left in Hn by done. done.
  - rewrite pieces_left in Hn by done. injection Hn as Hn.
    destruct (first_piece img Hpos) as (a & b & Himg & Ha & Hb).
    assert (Hs : receive_piece (Zlen img) ({| so_in := img ++ inc; so_out := out; so_room := None; so_open := op |},
        {| so_in := fin; so_out := fout; so_room := None; so_open := fop |}) =
      (Ok (Zlen b), ({| so_in := b ++ inc; so_out := out; so_room := None; so_open := op |},
        {| so_in := fin; so_out := fout ++ a; so_room := None; so_open := fop |}))).
    { unfold receive_piece. rewrite Himg at 2. rewrite <- app_assoc.
      erewrite run_bind by (apply run_conn, run_saying, read_exact_all; done).
      erewrite run_bind by (apply run_file, run_saying, write_all_all). by rewrite Hb. }
    rewrite run_while by (by apply Z.gtb_lt). rewrite (run_bind _ _ _ _ _ Hs). rewrite (IH b (fout ++ a)) by (by rewrite Hb). by rewrite Himg, app_assoc.
Qed.

(** ** Conversations

    Two programs on one connection. What each has sent is a function of what it
    was given; each round gives to each what the other has sent so far, and a
    program that needs more waits. *)
Fixpoint conversation (client daemon : bytes → bytes) (rounds : nat) : bytes * bytes :=
  match rounds with
  | O => ([], [])
  | S rounds => let '(c, d) := conversation client daemon rounds in (client d, daemon c)
  end.
(** A connection on which [inc] came so far. *)
Definition connected (inc : bytes) : Socket :=
  {| so_in := inc; so_out := []; so_room := None; so_open := true |}.
(** What was sent, on a connection that is open. *)
Definition replied (out : bytes) : Socket :=
  {| so_in := []; so_out := out; so_room := None; so_open := true |}.
(** A file with contents. *)
Definition file (contents : bytes) : Socket :=
  {| so_in := contents; so_out := []; so_room := None; so_open := false |}.

Lemma run_wait {S E A C} (m : M S E A) (f : A → M S E C) s s' : m s = (OutOfFuel, s') → (m ≫= f) s = (OutOfFuel, s').
Proof. unfold mbind, M_bind. by intros ->. Qed.
Lemma attempt_wait {S E A} (m : M S E A) s s' : m s = (OutOfFuel, s') → attempt m s = (OutOfFuel, s').
Proof. unfold attempt. by intros ->. Qed.
Lemma saying_wait {S A} w (m : M S string A) s s' : m s = (OutOfFuel, s') → saying w m s = (OutOfFuel, s').
Proof. unfold saying, map_err. by intros ->. Qed.

(** The client sends its request and waits for the daemon's line; it sends the
    image once it has that line, and waits for the result. *)
Lemma upload_asks volume img :
  so_out (call_admin_write_image volume (Zlen img) (connected [], file img)).2.1 =
    line (write_image_request volume (Zlen img)).
Proof.
  unfold call_admin_write_image, connected. erewrite run_bind by (apply run_conn, write_json_line_json).
  erewrite run_wait by (apply run_conn, saying_wait, read_line_waits). done.
Qed.
Lemma upload_sends volume img ready :
  Js.get "ok" ready = Some (JBool true) →
  so_out (call_admin_write_image volume (Zlen img) (connected (line ready), file img)).2.1 =
    line (write_image_request volume (Zlen img)) ++ img.
Proof.
  intros Hr. unfold call_admin_write_image, connected, file. rewrite <- (app_nil_r (line ready)).
  erewrite run_bind by (apply run_conn, write_json_line_json).
  erewrite run_bind by (apply run_conn, run_saying, read_line_json).
  rewrite (run_bind _ _ _ _ _ (parse_line_json _ _ _)), Hr. cbn [Js.is_true negb].
  replace {| so_in := img; so_out := []; so_room := None; so_open := false |}
    with {| so_in := img ++ []; so_out := []; so_room := None; so_open := false |} by (by rewrite app_nil_r).
  rewrite (run_bind _ _ _ _ _ (send_all _ img _ _ [] _ _ eq_refl)).
  erewrite run_wait by (apply run_conn, saying_wait, read_line_waits). done.
Qed.
Lemma download_asks volume size :
  so_out (call_admin_export volume size (connected [], file [])).2.1 = line (export_request volume size).
Proof.
  unfold call_admin_export, connected. erewrite run_bind by (apply run_conn, write_json_line_json).
  erewrite run_wait by (apply run_conn, saying_wait, read_line_waits). done.
Qed.

(** A daemon that is ready gets the image, and its last line is the result. *)
Lemma upload_client {op fop} volume img ready final :
  Js.get "ok" ready = Some (JBool true) →
  call_admin_write_image volume (Zlen img)
    ({| so_in := line ready ++ line final; so_out := []; so_room := None; so_open := op |},
     {| so_in := img; so_out := []; so_room := None; so_open := fop |}) =
  (Ok final, ({| so_in := []; so_out := line (write_image_request volume (Zlen img)) ++ img; so_room := None; so_open := op |},
              {| so_in := []; so_out := []; so_room := None; so_open := fop |})).
Proof.
  intros Hr. unfold call_admin_write_image.
  erewrite run_bind by (apply run_conn, write_json_line_json).
  erewrite run_bind by (apply run_conn, run_saying, read_line_json).
  rewrite (run_bind _ _ _ _ _ (parse_line_json _ _ _)), Hr. cbn [Js.is_true negb].
  replace {| so_in := img; so_out := []; so_room := None; so_open := fop |}
    with {| so_in := img ++ []; so_out := []; so_room := None; so_open := fop |} by (by rewrite app_nil_r).
  rewrite (run_bind _ _ _ _ _ (send_all _ img _ _ [] _ _ eq_refl)).
  rewrite <- (app_nil_r (line final)).
  erewrite run_bind by (apply run_conn, run_saying, read_line_json). apply parse_line_json.
Qed.
Lemma download_client {op fop} volume size img ready final :
  Js.get "ok" ready = Some (JBool true) →
  (v ← Js.pointer ["data"; "size"] ready; Js.as_u64 v) = Some (Zlen img) →
  call_admin_export volume size
    ({| so_in := line ready ++ img ++ line final; so_out := []; so_room := None; so_open := op |},
     {| so_in := []; so_out := []; so_room := None; so_open := fop |}) =
  (Ok final, ({| so_in := []; so_out := line (export_request volume size); so_room := None; so_open := op |},
              {| so_in := []; so_out := img; so_room := None; so_open := fop |})).
Proof.
  intros Hr Hs. unfold call_admin_export.
  erewrite run_bind by (apply run_conn, write_json_line_json).
  erewrite run_bind by (apply run_conn, run_saying, read_line_json).
  rewrite (run_bind _ _ _ _ _ (parse_line_json _ _ _)), Hr. cbn [Js.is_true negb]. rewrite Hs.
  rewrite (run_bind _ _ _ _ _ (receive_all _ img _ _ _ _ eq_refl)).
  rewrite <- (app_nil_r (line final)).
  erewrite run_bind by (apply run_conn, run_saying, read_line_json). apply parse_line_json.
Qed.
End wire.
End WireSpec.
