(* ===== verification/Device.v ===== *)
(** * The SCSI device (src/src/device.rs, src/src/identity.rs)

    [S3BlockDevice] adapts a block store to the SCSI target: logical block
    addresses become byte ranges. Its identity is derived from the IQN. *)
From S2P Require Import Prelude Text Store Ready Images.
#[local] Open Scope string_scope.
#[local] Open Scope list_scope.
#[local] Open Scope Z_scope.
Import Text.

(** ** Identity *)
Module Identity.
Definition fnv1a64 (data : bytes) : Z :=
  foldl (λ hash b, wrapping_mul64 (Z.lxor hash (byte.unsigned b)) 0x100000001b3)
    0xcbf29ce484222325 data.

Definition serial_from_iqn (iqn : string) : string := hex_fixed true 16 (fnv1a64 (as_bytes iqn)).

(** [x as u8] *)
Definition as_u8 (x : Z) : Z := x mod 2 ^ 8.
Definition naa_from_iqn (iqn : string) : list Z :=
  let h := fnv1a64 (as_bytes iqn) in
  [Z.lor 0x60 (Z.land (as_u8 (Z.shiftr h 56)) 0x0F);
   as_u8 (Z.shiftr h 48); as_u8 (Z.shiftr h 40); as_u8 (Z.shiftr h 32);
   as_u8 (Z.shiftr h 24); as_u8 (Z.shiftr h 16); as_u8 (Z.shiftr h 8); as_u8 h].
End Identity.

(** ** The device *)
Record ScsiObservation : Type := { sc_op : string; sc_bytes : Z; sc_ok : bool }.
Record S3BlockDevice (S : Type) : Type := {
  dv_store : S;
  dv_product : string;
  dv_serial : string;
  dv_naa : list Z;
  dv_obs : list ScsiObservation
}.
Arguments dv_store {S} _.
Arguments dv_product {S} _.
Arguments dv_serial {S} _.
Arguments dv_naa {S} _.
Arguments dv_obs {S} _.

(** The errors of the target library that the device returns. *)
Inductive IscsiError : Type := Scsi (msg : string).

Module Device.
Section device.
Context {S : Type} `{BlockStore S}.
Implicit Types d : S3BlockDevice S.
Abbreviation MD := (M (S3BlockDevice S) IscsiError).

(** [String::truncate]: panics inside a character. *)
Definition truncate (n : nat) (s : string) : outcome IscsiError string :=
  if Nat.leb n (String.length s) then str_slice s 0 n else Ok s.
(** [while s.len() < n { s.push(' ') }] *)
Fixpoint spaces (n : nat) : string :=
  match n with O => "" | Datatypes.S n => String (Ascii.ascii_of_nat 32) (spaces n) end.
Definition pad (n : nat) (s : string) : string := s +:+ spaces (n - String.length s).

Definition new (store : S) (volume iqn : string) : outcome IscsiError (S3BlockDevice S) :=
  product ← truncate 16 ("S3-" +:+ volume);
  mret {| dv_store := store; dv_product := pad 16 product;
          dv_serial := Identity.serial_from_iqn iqn; dv_naa := Identity.naa_from_iqn iqn;
          dv_obs := [] |}.

Definition map_err (e : StoreError) : IscsiError := Scsi (display e).

Definition with_store (s : S) d : S3BlockDevice S :=
  {| dv_store := s; dv_product := dv_product d; dv_serial := dv_serial d; dv_naa := dv_naa d;
     dv_obs := dv_obs d |}.
Definition observe_scsi (op : string) (n : Z) (ok : bool) : MD unit := modify (λ d,
  {| dv_store := dv_store d; dv_product := dv_product d; dv_serial := dv_serial d;
     dv_naa := dv_naa d; dv_obs := dv_obs d ++ [{| sc_op := op; sc_bytes := n; sc_ok := ok |}] |}).

(** An early error return: observed, mapped. *)
Definition refuse {A} (op : string) (e : StoreError) : MD A :=
  _ ← observe_scsi op 0 false; throw (map_err e).
(** A store call, observed either way. *)
Definition on_store {A} (op : string) (n : Z) (m : M S StoreError A) : MD A :=
  r ← attempt (Prelude.map_err map_err (zoom dv_store with_store m));
  match r with
  | inl a => _ ← observe_scsi op n true; mret a
  | inr e => _ ← observe_scsi op 0 false; throw e
  end.

Definition wrong_block_size (block_size bs : Z) : StoreError :=
  GeometryMismatch ("unexpected block_size " +:+ dec block_size +:+ ", expected " +:+ dec bs).

(** [vec![0u8; len]] panics beyond [isize::MAX] bytes. (A shorter vector that
    the machine has no memory for aborts the process; memory is not modelled.) *)
Definition isize_max : Z := 2 ^ 63 - 1.
Definition allocates (len : Z) : bool := len <=? isize_max.

Definition read (lba blocks block_size : Z) : MD bytes :=
  d ← get;
  let bs := Store.block_size (dv_store d) in
  if negb (block_size =? bs) then refuse "read" (wrong_block_size block_size bs)
  else match checked_mul64 lba block_size with
       | None => refuse "read" (OtherError "lba overflow")
       | Some offset =>
           match checked_mul64 blocks block_size with
           | None => refuse "read" (OtherError "length overflow")
           | Some len =>
               if negb (allocates len) then panic
               else on_store "read" len (read_at offset (zeros len))
           end
       end.

Definition write (lba : Z) (data : bytes) (block_size : Z) : MD unit :=
  d ← get;
  let bs := Store.block_size (dv_store d) in
  if negb (block_size =? bs) then refuse "write" (wrong_block_size block_size bs)
  else if block_size =? 0 then panic
  else if negb (Zlen data mod block_size =? 0) then
    refuse "write" (OtherError "write length not multiple of block_size")
  else match checked_mul64 lba block_size with
       | None => refuse "write" (OtherError "lba overflow")
       | Some offset => on_store "write" (Zlen data) (write_at offset data)
       end.

(** READ CAPACITY, in blocks; a zero block size panics. *)
Definition capacity d : outcome IscsiError Z :=
  let bs := Store.block_size (dv_store d) in
  if bs =? 0 then Panic else Ok (Store.capacity (dv_store d) / bs).
Definition flush : MD unit := on_store "flush" 0 Store.flush.
End device.
End Device.
