(* ===== verification/Config.v ===== *)
(** * Configuration (src/src/config.rs)

    The configuration as loaded, its validation, and the resolution of CHAP
    settings. Loading is in Load.v. *)
From S2P Require Import Prelude Text Store Compression Snapshot Cache CachedStore WriteBuffer WriteCache WriteBack.
#[local] Open Scope string_scope.
#[local] Open Scope list_scope.
#[local] Open Scope Z_scope.
Import Text.

Inductive ConfigError : Type :=
| FigmentError (msg : string)
| Invalid (msg : string).

Record AuthSettings : Type := {
  as_username : option string;
  as_secret : option string;
  as_mutual_username : option string;
  as_mutual_secret : option string;
  as_allowed_initiators : option (list string)
}.
Inductive AuthMode : Type := AuthNone | AuthChap | AuthMutualChap.
(** The target library's credentials. *)
Record ChapCredentials : Type := { cc_username : string; cc_secret : string }.
Inductive AuthConfig : Type :=
| AcNone
| AcChap (credentials : ChapCredentials)
| AcMutualChap (target_credentials initiator_credentials : ChapCredentials).
Record ResolvedAuth : Type := {
  ra_config : AuthConfig;
  ra_allowed_initiators : option (list string);
  ra_mode : AuthMode;
  ra_username : option string
}.

Record WriteCacheConfig : Type := {
  wcc_mode : WriteCacheMode;
  wcc_path : option string;
  wcc_max_bytes : Z
}.
Record WriteBufferConfig : Type := { wbc_max_bytes : Z }.
Record VolumeConfig : Type := {
  vc_name : string;
  vc_iqn : string;
  vc_prefix : string;
  vc_capacity : Z;
  vc_block_size : Z;
  vc_chunk_size : Z;
  vc_compression : Compression;
  vc_storage : StorageMode;
  vc_auth : option AuthSettings;
  vc_write_cache : WriteCacheConfig;
  vc_write_buffer : WriteBufferConfig
}.
Record S3Config : Type := {
  s3_bucket : option string;
  s3_region : string;
  s3_endpoint : option string;
  s3_force_path_style : bool;
  s3_access_key_id : option string;
  s3_secret_access_key : option string
}.
Record CacheConfig : Type := { cac_max_bytes : Z }.
Record MetricsConfig : Type := { mc_enabled : bool; mc_bind : string }.
Record AdminConfig : Type := { adc_enabled : bool; adc_socket : string }.
Record Config : Type := {
  cfg_bind : string;
  cfg_advertise : option string;
  cfg_portals : list string;
  cfg_instance : option string;
  cfg_auth : option AuthSettings;
  cfg_s3 : S3Config;
  cfg_cache : CacheConfig;
  cfg_metrics : MetricsConfig;
  cfg_admin : AdminConfig;
  cfg_performance_optimiser : bool;
  cfg_volumes : list VolumeConfig
}.

Module Conf.
Definition DEFAULT_ADMIN_SOCKET : string := "/tmp/iscsi-s3/admin.sock".
Definition auth_mode_str (m : AuthMode) : string :=
  match m with AuthNone => "none" | AuthChap => "chap" | AuthMutualChap => "mutual-chap" end.
Definition write_cache_mode_str (m : WriteCacheMode) : string :=
  match m with WcNone => "none" | WcMemory => "memory" | WcDisk => "disk" end.

(** ** CHAP settings *)
Definition non_empty (o : option string) : option string :=
  match trim <$> o with
  | Some s => if is_empty s then None else Some s
  | None => None
  end.

(** [a.or_else(|| b)] *)
Definition or_else {A} (a b : option A) : option A := match a with Some _ => a | None => b end.

Definition merge_auth_settings (global volume : option AuthSettings) : option AuthSettings :=
  match global, volume with
  | None, None => None
  | Some g, None => Some g
  | None, Some v => Some v
  | Some g, Some v => Some {|
      as_username := or_else (as_username v) (as_username g);
      as_secret := or_else (as_secret v) (as_secret g);
      as_mutual_username := or_else (as_mutual_username v) (as_mutual_username g);
      as_mutual_secret := or_else (as_mutual_secret v) (as_mutual_secret g);
      as_allowed_initiators := or_else (as_allowed_initiators v) (as_allowed_initiators g) |}
  end.

Definition resolve_auth (global volume : option AuthSettings) : outcome ConfigError ResolvedAuth :=
  match merge_auth_settings global volume with
  | None => Ok {| ra_config := AcNone; ra_allowed_initiators := None; ra_mode := AuthNone;
                  ra_username := None |}
  | Some settings =>
      let user := non_empty (as_username settings) in
      let secret := non_empty (as_secret settings) in
      let mutual_user := non_empty (as_mutual_username settings) in
      let mutual_secret := non_empty (as_mutual_secret settings) in
      let acl := as_allowed_initiators settings in
      match user, secret with
      | None, None =>
          match mutual_user, mutual_secret with
          | None, None => Ok {| ra_config := AcNone; ra_allowed_initiators := acl;
                                ra_mode := AuthNone; ra_username := None |}
          | _, _ => Err (Invalid "auth: mutual_username/mutual_secret require username and secret")
          end
      | Some username, Some secret =>
          let target_creds := {| cc_username := username; cc_secret := secret |} in
          match mutual_user, mutual_secret with
          | None, None => Ok {| ra_config := AcChap target_creds; ra_allowed_initiators := acl;
                                ra_mode := AuthChap; ra_username := Some username |}
          | Some mu, Some ms =>
              Ok {| ra_config := AcMutualChap target_creds {| cc_username := mu; cc_secret := ms |};
                    ra_allowed_initiators := acl; ra_mode := AuthMutualChap;
                    ra_username := Some username |}
          | _, _ => Err (Invalid
              "auth: mutual_username and mutual_secret must both be set for mutual CHAP")
          end
      | _, _ => Err (Invalid "auth: username and secret must both be set for CHAP")
      end
  end.

(** ** Validation *)

(** [u32::is_power_of_two] *)
Definition is_power_of_two (n : Z) : bool := (0 <? n) && (Z.land n (n - 1) =? 0).

(** [PathBuf] equality compares components: separators and inner [.]s do not
    count. *)
Fixpoint split_slash (s : string) : list string :=
  match s with
  | "" => [""]
  | String c s =>
      if Ascii.eqb c slash then "" :: split_slash s
      else match split_slash s with
           | [] => [String c ""]
           | t :: ts => String c t :: ts
           end
  end.
Definition path_key (path : string) : bool * list string :=
  let parts := split_slash path in
  let comps := filter (λ p, p ≠ "" ∧ p ≠ ".") parts in
  (starts_with "/" path,
   match parts with p :: _ => if bool_decide (p = ".") then "." :: comps else comps | [] => comps end).

(** The hash sets of the validation loop. *)
Record Seen : Type := {
  sn_names : gset string;
  sn_iqns : gset string;
  sn_prefixes : gset string;
  sn_disk_paths : gset (bool * list string)
}.
(** [if !set.insert(x) { return Err(e) }] *)
Definition insert_new `{Countable A} (x : A) (set : gset A) (e : string)
    : outcome ConfigError (gset A) :=
  if bool_decide (x ∈ set) then Err (Invalid e) else Ok ({[x]} ∪ set).
Definition ensure (b : bool) (e : string) : outcome ConfigError unit :=
  if b then Ok tt else Err (Invalid e).

Definition in_volume {A} (vol : VolumeConfig) (r : outcome ConfigError A) : outcome ConfigError A :=
  match r with
  | Err (Invalid msg) => Err (Invalid ("volume " +:+ vc_name vol +:+ ": " +:+ msg))
  | r => r
  end.

Definition validate_volume (auth : option AuthSettings) (vol : VolumeConfig) (seen : Seen)
    : outcome ConfigError Seen :=
  let wc := vc_write_cache vol in
  let buffer_max := wbc_max_bytes (vc_write_buffer vol) in
  let cs := vc_chunk_size vol in
  let bs := vc_block_size vol in
  _ ← ensure (negb (is_empty (vc_name vol))) "volume name must not be empty";
  names ← insert_new (vc_name vol) (sn_names seen) ("duplicate volume name " +:+ quoted (vc_name vol));
  iqns ← insert_new (vc_iqn vol) (sn_iqns seen) ("duplicate volume iqn " +:+ quoted (vc_iqn vol));
  prefixes ← insert_new (vc_prefix vol) (sn_prefixes seen)
               ("duplicate volume prefix " +:+ quoted (vc_prefix vol));
  _ ← in_volume vol (ensure (negb ((bs =? 0) || negb (is_power_of_two bs)))
        "block_size must be a non-zero power of two");
  _ ← in_volume vol (ensure (negb ((cs =? 0) || negb (cs mod bs =? 0)))
        "chunk_size must be a non-zero multiple of block_size");
  _ ← in_volume vol (ensure (negb ((vc_capacity vol =? 0) || negb (vc_capacity vol mod bs =? 0)))
        "capacity must be a non-zero multiple of block_size");
  _ ← in_volume vol (resolve_auth auth (vc_auth vol));
  _ ← in_volume vol (ensure (negb (negb (bool_decide (wcc_mode wc = WcNone))
                                   && (wcc_max_bytes wc >? 0) && (wcc_max_bytes wc <? cs)))
        ("write_cache.max_bytes (" +:+ dec (wcc_max_bytes wc)
         +:+ ") must be 0 (unlimited) or at least chunk_size (" +:+ dec cs +:+ ")"));
  _ ← in_volume vol (ensure (negb ((buffer_max >? 0) && (buffer_max <? cs)))
        ("write_buffer.max_bytes (" +:+ dec buffer_max
         +:+ ") must be 0 (disabled) or at least chunk_size (" +:+ dec cs +:+ ")"));
  _ ← in_volume vol (ensure (negb ((buffer_max >? 0) && bool_decide (wcc_mode wc = WcNone)))
        "write_buffer requires write_cache.mode of memory or disk");
  paths ← match wcc_mode wc with
          | WcDisk =>
              match wcc_path wc with
              | Some path =>
                  if is_empty path then
                    in_volume vol (Err (Invalid "write_cache.mode=disk requires write_cache.path"))
                  else in_volume vol (insert_new (path_key path) (sn_disk_paths seen)
                         ("write_cache.path " +:+ quoted path +:+ " is used by another volume"))
              | None => in_volume vol (Err (Invalid "write_cache.mode=disk requires write_cache.path"))
              end
          | _ => Ok (sn_disk_paths seen)
          end;
  Ok {| sn_names := names; sn_iqns := iqns; sn_prefixes := prefixes; sn_disk_paths := paths |}.

Fixpoint validate_volumes (auth : option AuthSettings) (vols : list VolumeConfig) (seen : Seen)
    : outcome ConfigError unit :=
  match vols with
  | [] => Ok tt
  | vol :: vols => seen ← validate_volume auth vol seen; validate_volumes auth vols seen
  end.

Definition validate (cfg : Config) : outcome ConfigError unit :=
  match cfg_volumes cfg with
  | [] => Err (Invalid
      "at least one [[volumes]] entry is required (define them in the config file)")
  | vols =>
      if match s3_bucket (cfg_s3 cfg) with Some b => is_empty b | None => true end then
        Err (Invalid "s3.bucket is required (config file, ISCSI_S3_S3__BUCKET, or --bucket)")
      else validate_volumes (cfg_auth cfg) vols
             {| sn_names := ∅; sn_iqns := ∅; sn_prefixes := ∅; sn_disk_paths := ∅ |}
  end.

(** ** Sizes *)

(** [str::parse::<uN>]: an optional [+], decimal digits, no overflow. *)
Definition dec_val (c : Ascii.ascii) : option Z :=
  let n := Z.of_N (Ascii.N_of_ascii c) in
  if (48 <=? n) && (n <=? 57) then Some (n - 48) else None.
Fixpoint parse_dec (max v : Z) (s : string) : option Z :=
  match s with
  | "" => Some v
  | String c s =>
      d ← dec_val c;
      let v' := v * 10 + d in
      if v' <=? max then parse_dec max v' s else None
  end.
Definition parse_uint (max : Z) (s : string) : option Z :=
  match s with
  | "" => None
  | String c s' =>
      if Ascii.eqb c (Ascii.ascii_of_nat 43) then match s' with "" => None | _ => parse_dec max 0 s' end
      else parse_dec max 0 s
  end.

(** The [bytesize] crate's parser of sizes such as [256MiB]. *)
Class ByteSize : Type := bytesize_parse : string → Z + string.
Definition parse_byte_size `{ByteSize} (s : string) : outcome string Z :=
  let s := trim s in
  match parse_uint u64_max s with
  | Some n => Ok n
  | None =>
      match bytesize_parse s with
      | inl n => Ok n
      | inr e => Err ("invalid size " +:+ quoted s +:+ ": " +:+ e)
      end
  end.
End Conf.
