(* ===== verification/DeviceTheorems.v ===== *)
(** * Properties of the SCSI device *)
From S2P Require Import Prelude Text Store Memory Ready Images Device Config.
#[local] Open Scope string_scope.
#[local] Open Scope list_scope.
#[local] Open Scope Z_scope.

Module DeviceTheorems.
Import Device.

(** ** Addresses and sizes *)
Section device.
Context {S : Type} `{ReadyLaws S}.
Implicit Types d : S3BlockDevice S.
Abbreviation bsz d := (Store.block_size (dv_store d)).
Abbreviation cap d := (Store.capacity (dv_store d)).

(** The volume below the device is unchanged. *)
Abbreviation unchanged d d' := (kept (dv_store d) (dv_store d')).

Lemma wp_dev_store {A} op n (m : M S StoreError A) (Q : A → S3BlockDevice S → Prop) R d :
  wp m (λ a s, ∀ d', dv_store d' = s → Q a d') (λ e s, ∀ d', dv_store d' = s → R (map_err e) d') (dv_store d) →
  wp (on_store op n m) Q R d.
Proof.
  intros Hm. unfold on_store. wp_step. apply wp_attempt, wp_map_err, wp_zoom.
  eapply wp_mono; [exact Hm|..]; intros ? s Hs; wp_steps; by apply Hs.
Qed.

Lemma wp_refuse {A} op e (Q : A → S3BlockDevice S → Prop) R d :
  (∀ d', dv_store d' = dv_store d → R (map_err e) d') → wp (refuse op e) Q R d.
Proof. intros He. unfold refuse. wp_steps. by apply He. Qed.

(** A power of two of 32 bits leaves room for 32-bit multiples in [isize]. *)
Lemma power_of_two_allocates blocks n :
  is_u32 blocks → is_u32 n → Conf.is_power_of_two n = true → blocks * n ≤ isize_max.
Proof.
  unfold is_u32, u32_max, isize_max, Conf.is_power_of_two. intros Hb Hn [Hp Hl]%andb_prop.
  apply Z.ltb_lt in Hp. apply Z.eqb_eq in Hl. destruct (Z.le_gt_cases n (2 ^ 31)) as [Hle|Hgt]; [nia|].
  assert (Hbit : ∀ x, 2 ^ 31 ≤ x < 2 ^ 32 → Z.testbit x 31 = true).
  { intros x Hx. apply Z.testbit_true; [lia|]. by replace (x / 2 ^ 31) with 1 by (Z.to_euclidean_division_equations; lia). }
  assert (Hz : Z.testbit (Z.land n (n - 1)) 31 = true) by (rewrite Z.land_spec, !Hbit by lia; done).
  by rewrite Hl in Hz.
Qed.

(** C24: Bounds of SCSI commands. A READ of any address and length succeeds
    exactly when the block size is the volume's, the byte address fits 64 bits
    and the range lies within the volume, and otherwise fails with the error of
    the first check that does not hold, except that a buffer of more than
    [isize::MAX] bytes panics before the range is checked; with a block size
    that is a power of two, the only ones a configuration may have, there is no
    such buffer and no panic. It never changes the volume. *)
Theorem scsi_read_bounds d lba blocks block_size :
  usable (dv_store d) → is_u64 lba → is_u32 blocks → is_u32 block_size →
  let r := read lba blocks block_size d in
  unchanged d r.2 ∧
  if decide (block_size ≠ bsz d) then r.1 = Err (map_err (wrong_block_size block_size (bsz d)))
  else if decide (u64_max < lba * block_size) then r.1 = Err (Scsi "lba overflow")
  else if decide (isize_max < blocks * block_size) then
    r.1 = Panic ∧ Conf.is_power_of_two block_size = false
  else if decide (cap d < (lba + blocks) * block_size) then
    r.1 = Err (map_err (OutOfRange (lba * block_size) (blocks * block_size) (cap d)))
  else ∃ buf, r.1 = Ok buf ∧ Zlen buf = blocks * block_size ∧
    ∀ i, 0 ≤ i < blocks * block_size → nthb buf i = shown (dv_store d) (lba * block_size + i).
Proof.
  intros Hu Hlba Hbl Hbs. destruct (rs_geometry _ Hu) as (Hg & _ & Hcap).
  unfold is_u64, is_u32 in *.
  assert (Hlen : 0 ≤ blocks * block_size ≤ u64_max) by (split; [nia|]; transitivity (u32_max * u32_max); [nia|done]).
  destruct (decide (block_size = bsz d ∧ lba * block_size ≤ u64_max ∧ isize_max < blocks * block_size))
    as [(Heq & Ho & Hbig)|Hsmall].
  { cbv zeta. rewrite (decide_False (P := block_size ≠ bsz d)), (decide_False (P := u64_max < _)), decide_True by lia.
    unfold read. cbv beta iota zeta delta [get mbind M_bind]. rewrite (proj2 (Z.eqb_eq _ _) Heq).
    cbv beta iota delta [negb]. rewrite !checked_mul64_spec, !decide_True by lia.
    unfold allocates. rewrite (proj2 (Z.leb_gt _ _) Hbig). cbv beta iota delta [negb]. split; [by apply kept_refl|].
    split; [done|]. apply not_true_iff_false. intros Hp.
    pose proof (power_of_two_allocates blocks block_size Hbl Hbs Hp). lia. }
  enough (wp (read lba blocks block_size) (λ buf d', unchanged d d' ∧ block_size = bsz d ∧
      lba * block_size ≤ u64_max ∧ blocks * block_size ≤ isize_max ∧
      (lba + blocks) * block_size ≤ cap d ∧ Zlen buf = blocks * block_size ∧
      ∀ i, 0 ≤ i < blocks * block_size → nthb buf i = shown (dv_store d) (lba * block_size + i))
    (λ e d', unchanged d d' ∧
      (block_size ≠ bsz d ∧ e = map_err (wrong_block_size block_size (bsz d)) ∨
       block_size = bsz d ∧ u64_max < lba * block_size ∧ e = Scsi "lba overflow" ∨
       block_size = bsz d ∧ lba * block_size ≤ u64_max ∧ blocks * block_size ≤ isize_max ∧ cap d < (lba + blocks) * block_size ∧
         e = map_err (OutOfRange (lba * block_size) (blocks * block_size) (cap d)))) d) as Hwp.
  { unfold wp in Hwp. destruct (read lba blocks block_size d) as [[buf|e| |] d'] eqn:Hr; try done; simpl.
    - destruct Hwp as (Hk & Hb & Ho & Hi & Hc & Hl & Hn). split; [done|].
      rewrite !decide_False by lia. eauto.
    - destruct Hwp as (Hk & He). split; [done|].
      destruct He as [[Hb ->]|[(Hb & Ho & ->)|(Hb & Ho & Hi & Hc & ->)]];
        [by rewrite decide_True|rewrite decide_False by lia; by rewrite decide_True by lia|].
      rewrite !decide_False by lia. by rewrite decide_True by lia. }
  assert (Hself : ∀ d', dv_store d' = dv_store d → unchanged d d').
  { intros d' ->. by apply kept_refl. }
  unfold read. do 2 wp_step. cbv zeta. destruct (Z.eqb_spec block_size (bsz d)) as [Hb|Hb].
  2: { apply wp_refuse. intros d' Hd'. split; [by apply Hself|]. by left. }
  cbv beta iota delta [negb]. rewrite !checked_mul64_spec. case_decide as Ho.
  2: { apply wp_refuse. intros d' Hd'. split; [by apply Hself|]. right. left. split; [done|]. split; [lia|done]. }
  assert (Hfit : blocks * block_size ≤ isize_max) by lia.
  rewrite decide_True by lia. unfold allocates. rewrite (proj2 (Z.leb_le _ _) Hfit). apply wp_dev_store.
  eapply wp_mono; [apply rs_read; [done|lia]|..]; rewrite Zlen_zeros by lia.
  - intros buf s (Hk & Hin & Hl & Hn) d' ->. repeat (split; [done || lia|]). done.
  - intros e s [Hk [Hbad ->]] d' ->. split; [done|]. right. right. repeat (split; [done || lia|]). done.
Qed.

(** C18: The device is a disk of blocks. A WRITE of whole blocks inside the
    volume (whose chunks stay within those the store is used with) succeeds, and
    a following READ returns, block by block, the written
    data inside the written range and the previous contents outside it. (Only a
    READ of more than [isize::MAX] bytes, more than any vector holds, panics
    instead.) *)
Theorem scsi_write_then_read d lba data lba' n :
  usable (dv_store d) → 0 ≤ lba → Zlen data mod bsz d = 0 → lba * bsz d + Zlen data ≤ cap d →
  permitted (dv_store d) (lba * bsz d) data →
  0 ≤ lba' → 0 ≤ n → (lba' + n) * bsz d ≤ cap d →
  ∃ d1, write lba data (bsz d) d = (Ok tt, d1) ∧
  if decide (isize_max < n * bsz d) then (read lba' n (bsz d) d1).1 = Panic else
  ∃ d2 buf, read lba' n (bsz d) d1 = (Ok buf, d2) ∧ Zlen buf = n * bsz d ∧
    ∀ i j, 0 ≤ i < n → 0 ≤ j < bsz d → nthb buf (i * bsz d + j) =
      if decide (lba ≤ lba' + i < lba + Zlen data / bsz d)
      then nthb data ((lba' + i - lba) * bsz d + j)
      else shown (dv_store d) ((lba' + i) * bsz d + j).
Proof.
  intros Hu Hlba Hmod Hin Hperm Hlba' Hn Hin'. destruct (rs_geometry _ Hu) as (Hg & _ & Hcap).
  unfold is_u64, is_u32 in *. pose proof (Zlen_nonneg data) as Hnn.
  assert (Hw : wp (write lba data (bsz d)) (λ _ d', usable (dv_store d') ∧ same_sizes (dv_store d) (dv_store d') ∧
    ∀ a, 0 ≤ a → shown (dv_store d') a = overwritten (shown (dv_store d)) (lba * bsz d) data a) (λ _ _, False) d).
  { unfold write. do 2 wp_step. cbv zeta. rewrite Z.eqb_refl, (proj2 (Z.eqb_neq _ 0)), Hmod by lia.
    cbv beta iota delta [negb Z.eqb]. rewrite checked_mul64_spec, decide_True by lia.
    apply wp_dev_store. eapply wp_mono; [apply rs_write; [done|lia|done]|..].
    - intros [] s (Hu' & Hs & _ & Hsh) d' ->. done.
    - intros e s [_ [Hbad _]]. lia. }
  destruct (wp_ok _ _ _ Hw) as ([] & d1 & Hrun & Hu1 & Hs1 & Hsh1). exists d1. split; [done|].
  case_decide as Hbig.
  { unfold read. cbv beta iota zeta delta [get mbind M_bind]. rewrite (ss_block _ _ Hs1), Z.eqb_refl.
    cbv beta iota delta [negb]. rewrite !checked_mul64_spec, !decide_True by nia.
    unfold allocates. by rewrite (proj2 (Z.leb_gt _ _) Hbig). }
  assert (Hr : wp (read lba' n (bsz d)) (λ buf _, Zlen buf = n * bsz d ∧
    ∀ i, 0 ≤ i < n * bsz d → nthb buf i = shown (dv_store d1) (lba' * bsz d + i)) (λ _ _, False) d1).
  { unfold read. do 2 wp_step. cbv zeta. rewrite (ss_block _ _ Hs1), Z.eqb_refl. cbv beta iota delta [negb].
    rewrite !checked_mul64_spec, !decide_True by nia.
    unfold allocates. rewrite (proj2 (Z.leb_le _ _)) by lia. apply wp_dev_store.
    eapply wp_mono; [apply rs_read; [done|nia]|..]; rewrite Zlen_zeros by nia; [naive_solver|].
    intros e s [_ [Hbad _]]. rewrite (ss_cap _ _ Hs1) in Hbad. lia. }
  destruct (wp_ok _ _ _ Hr) as (buf & d2 & Hrun2 & Hl & Hbuf). exists d2, buf. do 2 (split; [done|]).
  intros i j Hi Hj. rewrite Hbuf, Hsh1 by nia. unfold overwritten.
  assert (Hq : Zlen data = bsz d * (Zlen data / bsz d)) by (apply Z.div_exact; lia).
  set (q := Zlen data / bsz d) in *. rewrite Hq.
  repeat case_decide; try (f_equal; lia); exfalso; nia.
Qed.
End device.

(** ** Identity *)
Section identity.
Import Text Identity.

Lemma fnv1a64_u64 data : is_u64 (fnv1a64 data).
Proof.
  unfold fnv1a64. assert (H0 : is_u64 0xcbf29ce484222325) by done. revert H0.
  generalize 0xcbf29ce484222325. induction data as [|b data IH]; intros h Hh; simpl; [done|].
  apply IH. unfold wrapping_mul64, is_u64, u64_max. pose proof (Z.mod_pos_bound
    (Z.lxor h (byte.unsigned b) * 1099511628211) (2 ^ 64) ltac:(lia)). lia.
Qed.

Lemma naa_nibble x : Z.lor 0x60 (Z.land (as_u8 x) 0x0F) = 0x60 + x mod 16.
Proof.
  unfold as_u8. change 0x0F with (Z.ones 4). rewrite Z.land_ones by lia.
  change (2 ^ 8) with (2 ^ 4 * 16). rewrite <- Znumtheory.Zmod_div_mod by (try lia; by exists 16).
  change (2 ^ 4) with 16. pose proof (Z.mod_pos_bound x 16 ltac:(lia)) as Hr.
  assert (Hc : Forall (λ y, Z.lor 0x60 y = 0x60 + y) (seqZ 0 16)) by (repeat constructor).
  rewrite Forall_forall in Hc. apply Hc. apply elem_of_seqZ. lia.
Qed.

(** The big-endian value of a byte array. *)
Definition be_value (l : list Z) : Z := foldl (λ v b, v * 256 + b) 0 l.

Lemma naa_value iqn :
  be_value (naa_from_iqn iqn) = 6 * 2 ^ 60 + fnv1a64 (as_bytes iqn) mod 2 ^ 60.
Proof.
  unfold naa_from_iqn. cbv zeta. rewrite naa_nibble. pose proof (fnv1a64_u64 (as_bytes iqn)) as Hh.
  set (h := fnv1a64 (as_bytes iqn)) in *. unfold is_u64, u64_max in Hh.
  unfold be_value, as_u8. simpl foldl. rewrite !Z.shiftr_div_pow2 by lia.
  change (2 ^ 16) with (2 ^ 8 * 2 ^ 8). change (2 ^ 24) with (2 ^ 8 * 2 ^ 8 * 2 ^ 8).
  change (2 ^ 32) with (2 ^ 8 * 2 ^ 8 * 2 ^ 8 * 2 ^ 8).
  change (2 ^ 40) with (2 ^ 8 * 2 ^ 8 * 2 ^ 8 * 2 ^ 8 * 2 ^ 8).
  change (2 ^ 48) with (2 ^ 8 * 2 ^ 8 * 2 ^ 8 * 2 ^ 8 * 2 ^ 8 * 2 ^ 8).
  change (2 ^ 56) with (2 ^ 8 * 2 ^ 8 * 2 ^ 8 * 2 ^ 8 * 2 ^ 8 * 2 ^ 8 * 2 ^ 8).
  rewrite <- !Z.div_div by lia. change (2 ^ 8) with 256.
  Z.to_euclidean_division_equations. lia.
Qed.

Lemma spaces_length n : String.length (spaces n) = n.
Proof. induction n as [|n IH]; [done|]. simpl. by rewrite IH. Qed.

Lemma substring_len n s : (String.length (String.substring 0 n s) ≤ n)%nat.
Proof.
  revert s. induction n as [|n IH]; intros [|c s]; simpl; [lia..|]. specialize (IH s). lia.
Qed.

(** The identity of a device. The product string has the 16 bytes INQUIRY
    asks for, the serial is the 16-digit hexadecimal form of the 64-bit hash of
    the IQN, and the NAA name is the digit 6 followed by the 60 low bits of the
    same hash. Construction fails only on a volume name that is cut inside a
    character at byte 16, and then it panics. *)
Theorem device_identity {S} (store : S) volume iqn :
  let h := fnv1a64 (as_bytes iqn) in
  match new store volume iqn with
  | Ok d => String.length (dv_product d) = 16%nat ∧ is_u64 h ∧
      String.length (dv_serial d) = 16%nat ∧ from_str_radix16 u64_max (dv_serial d) = Some h ∧
      length (dv_naa d) = 8%nat ∧ be_value (dv_naa d) = 6 * 2 ^ 60 + h mod 2 ^ 60
  | Panic => (16 ≤ String.length ("S3-" +:+ volume))%nat ∧
      is_char_boundary ("S3-" +:+ volume) 16 = false
  | _ => False
  end.
Proof.
  cbv zeta. pose proof (fnv1a64_u64 (as_bytes iqn)) as Hh. unfold new, truncate.
  set (p := "S3-" +:+ volume).
  assert (Hrest : ∀ q, (String.length q ≤ 16)%nat → String.length (pad 16 q) = 16%nat).
  { intros q Hq. unfold pad. rewrite String.app_length, spaces_length. lia. }
  assert (Hser : from_str_radix16 u64_max (serial_from_iqn iqn) = Some (fnv1a64 (as_bytes iqn))).
  { unfold serial_from_iqn. apply hex_fixed_roundtrip; [lia| |]; unfold is_u64, u64_max in *; lia. }
  destruct (Nat.leb_spec 16 (String.length p)) as [Hle|Hlt].
  - unfold str_slice. rewrite (proj2 (Nat.leb_le 16 _)) by done.
    change (Nat.leb 0 16) with true. change (is_char_boundary p 0) with true.
    destruct (is_char_boundary p 16) eqn:Hb; cbv beta iota delta [andb mbind outcome_bind mret outcome_ret]; [|done].
    cbn [dv_product dv_serial dv_naa]. split; [apply Hrest; rewrite Nat.sub_0_r; apply substring_len|].
    split; [done|]. split; [apply hex_fixed_length|]. split; [done|]. split; [done|apply naa_value].
  - cbv beta iota delta [mbind outcome_bind mret outcome_ret]. cbn [dv_product dv_serial dv_naa].
    split; [apply Hrest; lia|].
    split; [done|]. split; [apply hex_fixed_length|]. split; [done|]. split; [done|apply naa_value].
Qed.
End identity.

(** ** Witnesses *)
Section witnesses.
Definition device : S3BlockDevice MemoryStore :=
  {| dv_store := blank_disk 16; dv_product := pad 16 "S3-vol"; dv_serial := Identity.serial_from_iqn "iqn";
     dv_naa := Identity.naa_from_iqn "iqn"; dv_obs := [] |}.
Definition two_blocks : bytes := replicate 4 Byte.x07.

Lemma device_usable : usable (dv_store device).
Proof. by apply blank_usable. Qed.

Lemma scsi_read_bounds_witness :
  let r := read 5 4 2 device in
  kept (dv_store device) (dv_store r.2) ∧ r.1 = Err (map_err (OutOfRange 10 8 16)).
Proof.
  destruct (scsi_read_bounds device 5 4 2) as [Hk Hr]; [apply device_usable|vm_compute; split; congruence..|].
  split; [exact Hk|]. rewrite decide_False in Hr by (intros Hne; by apply Hne).
  rewrite decide_False, decide_False, decide_True in Hr by (vm_compute; congruence). exact Hr.
Defined.

Lemma scsi_write_then_read_witness :
  ∃ d1, write 3 two_blocks 2 device = (Ok tt, d1) ∧
  ∃ d2 buf, read 2 4 2 d1 = (Ok buf, d2) ∧ Zlen buf = 4 * 2 ∧
    ∀ i j, 0 ≤ i < 4 → 0 ≤ j < 2 → nthb buf (i * 2 + j) =
      if decide (3 ≤ 2 + i < 3 + Zlen two_blocks / 2)
      then nthb two_blocks ((2 + i - 3) * 2 + j)
      else shown (dv_store device) ((2 + i) * 2 + j).
Proof.
  refine (scsi_write_then_read device 3 two_blocks 2 4 device_usable _ _ _ (λ _ _, I) _ _ _); vm_compute; congruence.
Defined.

(** A volume name with a two-byte character at byte 15 is cut inside it. *)
Example long_name_panics :
  new (blank_disk 16) ("abcdefghijkl" +:+ String (Ascii.ascii_of_nat 195) (String (Ascii.ascii_of_nat 169) "")) "iqn"
  = Panic.
Proof. reflexivity. Qed.
End witnesses.
End DeviceTheorems.
