(* ===== verification/ConfigSpec.v ===== *)
(** * What a validated configuration satisfies *)
From S2P Require Import Prelude Text Store Compression Snapshot Cache CachedStore WriteBuffer WriteCache WriteBack.
From S2P Require Import Config.
#[local] Open Scope string_scope.
#[local] Open Scope list_scope.
#[local] Open Scope Z_scope.

Module ConfSpec.
Import Conf.

Record volume_valid (auth : option AuthSettings) (vol : VolumeConfig) : Prop := {
  vv_name : vc_name vol ≠ "";
  vv_block : ∃ k, 0 ≤ k ∧ vc_block_size vol = 2 ^ k;
  vv_chunk : vc_chunk_size vol ≠ 0 ∧ vc_chunk_size vol mod vc_block_size vol = 0;
  vv_cap : vc_capacity vol ≠ 0 ∧ vc_capacity vol mod vc_block_size vol = 0;
  vv_auth : ∃ r, resolve_auth auth (vc_auth vol) = Ok r;
  vv_cache : wcc_mode (vc_write_cache vol) ≠ WcNone →
    wcc_max_bytes (vc_write_cache vol) ≤ 0 ∨ vc_chunk_size vol ≤ wcc_max_bytes (vc_write_cache vol);
  vv_buffer : wbc_max_bytes (vc_write_buffer vol) ≤ 0 ∨
    vc_chunk_size vol ≤ wbc_max_bytes (vc_write_buffer vol) ∧ wcc_mode (vc_write_cache vol) ≠ WcNone;
  vv_path : wcc_mode (vc_write_cache vol) = WcDisk →
    ∃ path, wcc_path (vc_write_cache vol) = Some path ∧ path ≠ ""
}.

(** The cache directory a volume uses. *)
Definition disk_path (vol : VolumeConfig) : option (bool * list string) :=
  match wcc_mode (vc_write_cache vol) with
  | WcDisk => path_key <$> wcc_path (vc_write_cache vol)
  | _ => None
  end.

Record valid (cfg : Config) : Prop := {
  cv_some : cfg_volumes cfg ≠ [];
  cv_bucket : ∃ b, s3_bucket (cfg_s3 cfg) = Some b ∧ b ≠ "";
  cv_volumes : Forall (volume_valid (cfg_auth cfg)) (cfg_volumes cfg);
  cv_names : NoDup (vc_name <$> cfg_volumes cfg);
  cv_iqns : NoDup (vc_iqn <$> cfg_volumes cfg);
  cv_prefixes : NoDup (vc_prefix <$> cfg_volumes cfg);
  cv_paths : NoDup (omap disk_path (cfg_volumes cfg))
}.

(** ** Outcomes *)
Lemma bind_ok {E A B} (r : outcome E A) (f : A → outcome E B) b :
  r ≫= f = Ok b ↔ ∃ a, r = Ok a ∧ f a = Ok b.
Proof. destruct r; simpl; naive_solver. Qed.
Lemma ensure_ok b e u : ensure b e = Ok u ↔ b = true.
Proof. destruct u, b; simpl; naive_solver. Qed.
Lemma in_volume_ok {A} vol (r : outcome ConfigError A) a : in_volume vol r = Ok a ↔ r = Ok a.
Proof. destruct r as [|[]| |]; simpl; naive_solver. Qed.
Lemma insert_new_ok `{Countable A} (x : A) set e r :
  insert_new x set e = Ok r ↔ x ∉ set ∧ r = {[x]} ∪ set.
Proof. unfold insert_new. case_bool_decide; naive_solver. Qed.

Lemma is_empty_false s : negb (Text.is_empty s) = true ↔ s ≠ "".
Proof. destruct s; simpl; naive_solver. Qed.

Lemma power_of_two_spec n :
  negb ((n =? 0) || negb (is_power_of_two n)) = true ↔ ∃ k, 0 ≤ k ∧ n = 2 ^ k.
Proof.
  assert (Hp : is_power_of_two n = true ↔ ∃ k, 0 ≤ k ∧ n = 2 ^ k).
  { unfold is_power_of_two. rewrite andb_true_iff, Z.ltb_lt, Z.eqb_eq. split.
    - intros [Hn Hl]. exists (Z.log2 n). pose proof (Z.log2_nonneg n). split; [done|].
      pose proof (Z.log2_spec n Hn) as [Hlo Hhi].
      destruct (decide (n = 2 ^ Z.log2 n)) as [|Hne]; [done|]. exfalso.
      assert (Hb : Z.log2 (n - 1) = Z.log2 n) by (apply Z.log2_unique; lia).
      apply (f_equal (λ z, Z.testbit z (Z.log2 n))) in Hl. rewrite Z.land_spec, Z.bits_0 in Hl.
      rewrite Z.bit_log2 in Hl by done. rewrite <- Hb, Z.bit_log2 in Hl by lia. done.
    - intros (k & Hk & ->). split; [lia|]. replace (2 ^ k - 1) with (Z.ones k) by (rewrite Z.ones_equiv; lia).
      rewrite Z.land_ones by done. apply Z_mod_same_full. }
  rewrite negb_true_iff, orb_false_iff, negb_false_iff, Hp, Z.eqb_neq.
  split; [naive_solver|]. intros (k & Hk & ->). split; [lia|eauto].
Qed.

Lemma multiple_spec n b : negb ((n =? 0) || negb (n mod b =? 0)) = true ↔ n ≠ 0 ∧ n mod b = 0.
Proof. by rewrite negb_true_iff, orb_false_iff, negb_false_iff, Z.eqb_neq, Z.eqb_eq. Qed.

Lemma at_least_spec m cs : negb ((m >? 0) && (m <? cs)) = true ↔ m ≤ 0 ∨ cs ≤ m.
Proof. rewrite negb_true_iff, andb_false_iff, Z.gtb_ltb, !Z.ltb_ge. done. Qed.

(** ** One volume *)
Definition fresh_in (vol : VolumeConfig) (seen : Seen) : Prop :=
  vc_name vol ∉ sn_names seen ∧ vc_iqn vol ∉ sn_iqns seen ∧ vc_prefix vol ∉ sn_prefixes seen ∧
  ∀ p, disk_path vol = Some p → p ∉ sn_disk_paths seen.
Definition note (vol : VolumeConfig) (seen : Seen) : Seen :=
  {| sn_names := {[vc_name vol]} ∪ sn_names seen; sn_iqns := {[vc_iqn vol]} ∪ sn_iqns seen;
     sn_prefixes := {[vc_prefix vol]} ∪ sn_prefixes seen;
     sn_disk_paths := match disk_path vol with
                      | Some p => {[p]} ∪ sn_disk_paths seen
                      | None => sn_disk_paths seen
                      end |}.

Lemma validate_path_ok vol seen paths :
  match wcc_mode (vc_write_cache vol) with
  | WcDisk =>
      match wcc_path (vc_write_cache vol) with
      | Some path =>
          if Text.is_empty path then
            in_volume vol (Err (Invalid "write_cache.mode=disk requires write_cache.path"))
          else in_volume vol (insert_new (path_key path) (sn_disk_paths seen)
                 ("write_cache.path " +:+ Text.quoted path +:+ " is used by another volume"))
      | None => in_volume vol (Err (Invalid "write_cache.mode=disk requires write_cache.path"))
      end
  | _ => Ok (sn_disk_paths seen)
  end = Ok paths ↔
  (wcc_mode (vc_write_cache vol) = WcDisk →
     ∃ path, wcc_path (vc_write_cache vol) = Some path ∧ path ≠ "") ∧
  (∀ p, disk_path vol = Some p → p ∉ sn_disk_paths seen) ∧ paths = sn_disk_paths (note vol seen).
Proof.
  unfold note, disk_path. simpl. destruct (wcc_mode (vc_write_cache vol)); [naive_solver..|].
  destruct (wcc_path (vc_write_cache vol)) as [path|]; simpl; [|naive_solver].
  destruct path as [|c path]; [naive_solver|]. cbv beta iota delta [Text.is_empty].
  rewrite in_volume_ok, insert_new_ok. naive_solver.
Qed.

Lemma validate_volume_ok auth vol seen seen' :
  validate_volume auth vol seen = Ok seen' ↔
  volume_valid auth vol ∧ fresh_in vol seen ∧ seen' = note vol seen.
Proof.
  unfold validate_volume. cbv zeta. split.
  - intros Hv. apply bind_ok in Hv as (u1 & Hname%ensure_ok%is_empty_false & Hv).
    apply bind_ok in Hv as (names & [Hn ->]%insert_new_ok & Hv).
    apply bind_ok in Hv as (iqns & [Hi ->]%insert_new_ok & Hv).
    apply bind_ok in Hv as (prefixes & [Hp ->]%insert_new_ok & Hv).
    apply bind_ok in Hv as (u2 & Hbs%in_volume_ok%ensure_ok%power_of_two_spec & Hv).
    apply bind_ok in Hv as (u3 & Hcs%in_volume_ok%ensure_ok%multiple_spec & Hv).
    apply bind_ok in Hv as (u4 & Hcap%in_volume_ok%ensure_ok%multiple_spec & Hv).
    apply bind_ok in Hv as (auth' & Hauth%in_volume_ok & Hv).
    apply bind_ok in Hv as (u5 & Hwc%in_volume_ok%ensure_ok & Hv).
    apply bind_ok in Hv as (u6 & Hwb%in_volume_ok%ensure_ok%at_least_spec & Hv).
    apply bind_ok in Hv as (u7 & Hmode%in_volume_ok%ensure_ok & Hv).
    apply bind_ok in Hv as (paths & (Hpath & Hfresh & ->)%validate_path_ok & [= <-]).
    split; [|split; [done|done]]. constructor; try done; [eauto|..].
    + intros Hm. rewrite bool_decide_false in Hwc by done. by apply at_least_spec in Hwc.
    + rewrite negb_true_iff, andb_false_iff, Z.gtb_ltb, Z.ltb_ge, bool_decide_eq_false in Hmode. tauto.
  - intros ([Hname Hbs Hcs Hcap [r Hr] Hwc Hwb Hpath] & (Hn & Hi & Hp & Hfresh) & ->).
    apply bind_ok. exists tt. split; [by apply ensure_ok, is_empty_false|].
    apply bind_ok. eexists. split; [by apply insert_new_ok|].
    apply bind_ok. eexists. split; [by apply insert_new_ok|].
    apply bind_ok. eexists. split; [by apply insert_new_ok|].
    apply bind_ok. exists tt. split; [by apply in_volume_ok, ensure_ok, power_of_two_spec|].
    apply bind_ok. exists tt. split; [by apply in_volume_ok, ensure_ok, multiple_spec|].
    apply bind_ok. exists tt. split; [by apply in_volume_ok, ensure_ok, multiple_spec|].
    apply bind_ok. exists r. split; [by apply in_volume_ok|].
    apply bind_ok. exists tt. split; [apply in_volume_ok, ensure_ok; case_bool_decide; [done|]; by apply at_least_spec, Hwc|].
    apply bind_ok. exists tt. split; [apply in_volume_ok, ensure_ok, at_least_spec; tauto|].
    apply bind_ok. exists tt. split; [apply in_volume_ok, ensure_ok|].
    { rewrite negb_true_iff, andb_false_iff, Z.gtb_ltb, Z.ltb_ge, bool_decide_eq_false. tauto. }
    apply bind_ok. eexists. split; [by apply validate_path_ok|done].
Qed.

(** ** All volumes *)
Lemma validate_volumes_ok auth vols : ∀ seen,
  validate_volumes auth vols seen = Ok tt ↔
  Forall (volume_valid auth) vols ∧
  (NoDup (vc_name <$> vols) ∧ Forall (.∉ sn_names seen) (vc_name <$> vols)) ∧
  (NoDup (vc_iqn <$> vols) ∧ Forall (.∉ sn_iqns seen) (vc_iqn <$> vols)) ∧
  (NoDup (vc_prefix <$> vols) ∧ Forall (.∉ sn_prefixes seen) (vc_prefix <$> vols)) ∧
  NoDup (omap disk_path vols) ∧ Forall (.∉ sn_disk_paths seen) (omap disk_path vols).
Proof.
  induction vols as [|vol vols IH]; intros seen; simpl.
  { split; [|done]. intros _. repeat split; constructor. }
  assert (Hset : ∀ (A : Type) `{Countable A} (x : A) (l : list A) (X : gset A),
    NoDup (x :: l) ∧ Forall (.∉ X) (x :: l) ↔
    x ∉ X ∧ NoDup l ∧ Forall (.∉ ({[x]} ∪ X)) l).
  { intros A ?? x l X. rewrite NoDup_cons, !Forall_cons, !Forall_forall. set_solver. }
  rewrite bind_ok. setoid_rewrite validate_volume_ok. rewrite !Hset, Forall_cons.
  split.
  - intros (seen' & (Hv & (Hn & Hi & Hp & Hd) & ->) & Hrest). apply IH in Hrest as (Hall & Hn' & Hi' & Hp' & Hd').
    simpl in *. split; [done|]. do 3 (split; [done|]).
    destruct (disk_path vol) as [p|]; simpl; [|done]. apply Hset. naive_solver.
  - intros ((Hv & Hall) & (Hn & Hn') & (Hi & Hi') & (Hp & Hp') & Hd). eexists. split.
    + split; [done|]. split; [|done]. split; [done|]. split; [done|]. split; [done|].
      intros p Hp2. rewrite Hp2 in Hd. simpl in Hd. apply Hset in Hd. apply Hd.
    + apply IH. simpl. do 4 (split; [done|]).
      destruct (disk_path vol) as [p|]; simpl in *; [|done]. apply Hset in Hd. apply Hd.
Qed.

Lemma validate_ok cfg : validate cfg = Ok tt ↔ valid cfg.
Proof.
  unfold validate. destruct (cfg_volumes cfg) as [|v vs] eqn:Hvols.
  { split; [done|]. intros []. by rewrite Hvols in *. }
  assert (Hb : (match s3_bucket (cfg_s3 cfg) with Some b => Text.is_empty b | None => true end) = false ↔
    ∃ b, s3_bucket (cfg_s3 cfg) = Some b ∧ b ≠ "").
  { destruct (s3_bucket (cfg_s3 cfg)) as [[|c b]|]; simpl; naive_solver. }
  destruct (match s3_bucket (cfg_s3 cfg) with Some b => Text.is_empty b | None => true end).
  { split; [done|]. intros []. by apply Hb in cv_bucket0. }
  rewrite validate_volumes_ok. cbn [sn_names sn_iqns sn_prefixes sn_disk_paths].
  assert (Hnone : ∀ (A : Type) `{Countable A} (l : list A), Forall (.∉ (∅ : gset A)) l)
    by (intros; apply Forall_forall; set_solver).
  rewrite <- Hvols. split.
  - intros (Hall & [Hn _] & [Hi _] & [Hp _] & Hd & _). constructor; try done; [by rewrite Hvols|by apply Hb].
  - intros []. repeat split; auto.
Qed.
End ConfSpec.
