(* ===== verification/Load.v ===== *)
(** * Loading the configuration (src/src/config.rs)

    [Config::load] and [Config::load_for_reload]: the built-in defaults, the
    configuration file, the environment and the command line are merged, lowest
    first, and decoded the way the derived [Deserialize] instances say. Reading
    the file and the environment and merging is done by the figment crate, the
    interface [Figment]; a configuration is [Value] data on the way. The texts of
    the crate's own errors are abbreviated. *)
From S2P Require Import Prelude Text Store Compression Snapshot Cache CachedStore WriteBuffer WriteCache WriteBack.
From S2P Require Import Config Value.
#[local] Open Scope string_scope.
#[local] Open Scope list_scope.
#[local] Open Scope Z_scope.
Import Text.

Abbreviation Dict := (gmap string Value).

Record Cli : Type := {
  cli_config : option string;
  cli_bind : option string;
  cli_advertise : option string;
  cli_bucket : option string;
  cli_endpoint : option string;
  cli_region : option string;
  cli_force_path_style : option bool;
  cli_log : string;
  cli_metrics_bind : option string;
  cli_no_metrics : bool;
  cli_performance_optimiser : option bool
}.
Record CliS3Overrides : Type := {
  cs3_bucket : option string;
  cs3_endpoint : option string;
  cs3_region : option string;
  cs3_force_path_style : option bool
}.
Record CliMetricsOverrides : Type := { cmo_enabled : option bool; cmo_bind : option string }.
Record CliOverrides : Type := {
  cor_bind : option string;
  cor_advertise : option string;
  cor_s3 : option CliS3Overrides;
  cor_metrics : option CliMetricsOverrides;
  cor_performance_optimiser : option bool
}.

(** The figment crate: the data of a TOML file and of the environment variables
    with a prefix, nested at a separator, and merging. Documented: tables are
    merged key by key, anything else is replaced by the later value. *)
Class Figment : Type := {
  figment_merge : Value → Value → Value;
  toml_file : string → Dict + string;
  env_split : string → string → Dict
}.
Definition is_table (v : Value) : bool := match v with JObject _ => true | _ => false end.
Class FigmentLaws `{Figment} : Prop := {
  merge_tables a b :
    figment_merge (JObject a) (JObject b) = JObject (union_with (λ x y, Some (figment_merge x y)) a b);
  merge_other x y : is_table x && is_table y = false → figment_merge x y = y
}.
(** The bytesize crate's text of a size; what it reads is a [u64]. *)
Class ByteSizeText : Type := bytesize_to_string : Z → string.
Class ByteSizeLaws `{Conf.ByteSize} : Prop :=
  bytesize_u64 s n : Conf.bytesize_parse s = inl n → is_u64 n.

Module Load.
Definition DEFAULT_BIND : string := "0.0.0.0:3260".
Definition DEFAULT_BLOCK_SIZE : Z := 512.
Definition DEFAULT_CHUNK_SIZE : Z := 4 * 1024 * 1024.
Definition DEFAULT_CACHE_MAX : Z := 256 * 1024 * 1024.
Definition default_bind : string := DEFAULT_BIND.
Definition default_region : string := "us-east-1".
Definition default_cache_max : Z := DEFAULT_CACHE_MAX.
Definition default_metrics_enabled : bool := true.
Definition default_metrics_bind : string := "0.0.0.0:9090".
Definition default_admin_enabled : bool := true.
Definition default_admin_socket : string := Conf.DEFAULT_ADMIN_SOCKET.
Definition default_write_cache_max : Z := 0.
Definition default_block_size : Z := DEFAULT_BLOCK_SIZE.
Definition default_chunk_size : Z := DEFAULT_CHUNK_SIZE.
Definition default_cache : CacheConfig := {| cac_max_bytes := DEFAULT_CACHE_MAX |}.
Definition default_metrics : MetricsConfig :=
  {| mc_enabled := default_metrics_enabled; mc_bind := default_metrics_bind |}.
Definition default_admin : AdminConfig :=
  {| adc_enabled := default_admin_enabled; adc_socket := default_admin_socket |}.
(** [#[derive(Default)]] *)
Definition default_s3 : S3Config :=
  {| s3_bucket := None; s3_region := ""; s3_endpoint := None; s3_force_path_style := false;
     s3_access_key_id := None; s3_secret_access_key := None |}.
Definition default_write_cache : WriteCacheConfig :=
  {| wcc_mode := WcNone; wcc_path := None; wcc_max_bytes := 0 |}.
Definition default_write_buffer : WriteBufferConfig := {| wbc_max_bytes := 0 |}.

(** ** Decoding: [#[derive(Deserialize)]] *)
Class Deserialize (A : Type) : Type := from_json : Value → outcome string A.
Definition invalid {A} (expected : string) : outcome string A := Err ("invalid type, expected " +:+ expected).
#[export] Instance string_deserialize : Deserialize string := λ v,
  match v with JString s => Ok s | _ => invalid "a string" end.
#[export] Instance bool_deserialize : Deserialize bool := λ v,
  match v with JBool b => Ok b | _ => invalid "a boolean" end.
#[export] Instance option_deserialize `{Deserialize A} : Deserialize (option A) := λ v,
  match v with JNull => Ok None | v => a ← from_json v; Ok (Some a) end.
Fixpoint decode_all {A} (f : Value → outcome string A) (l : list Value) : outcome string (list A) :=
  match l with [] => Ok [] | v :: l => a ← f v; rest ← decode_all f l; Ok (a :: rest) end.
#[export] Instance list_deserialize `{Deserialize A} : Deserialize (list A) := λ v,
  match v with JArray l => decode_all from_json l | _ => invalid "a sequence" end.
Definition uint_in (max : Z) (v : Value) : outcome string Z :=
  match v with
  | JNumber n => if (0 <=? n) && (n <=? max) then Ok n else invalid "an integer in range"
  | _ => invalid "an integer"
  end.

(** A struct is a table, or its fields in order; in the latter form the fields
    without [#[serde(default)]] have to be there, the last one is number
    [required]. *)
Definition as_struct (fields : list string) (required : nat) (v : Value) : outcome string Dict :=
  match v with
  | JObject o => Ok o
  | JArray l =>
      if Nat.ltb (length l) required then invalid "more elements"
      else Ok (list_to_map (zip fields l))
  | _ => invalid "a table"
  end.
Definition field {A} (de : Value → outcome string A) (o : Dict) (key : string) : outcome string A :=
  match o !! key with Some v => de v | None => Err ("missing field " +:+ key) end.
Definition field_or {A} (de : Value → outcome string A) (d : A) (o : Dict) (key : string) : outcome string A :=
  match o !! key with Some v => de v | None => Ok d end.

Section sizes.
Context `{Conf.ByteSize} `{ByteSizeText}.
(** [bytesize_serde] *)
Definition size_serialize (bytes : Z) : Value := JString (bytesize_to_string bytes).
Definition size_deserialize (v : Value) : outcome string Z :=
  match uint_in u64_max v, v with
  | Ok n, _ => Ok n
  | _, JString s => match Conf.bytesize_parse s with inl n => Ok n | inr e => Err e end
  | _, _ => Err "data did not match any variant of untagged enum Size"
  end.

Definition enum_deserialize {A} (str : A → string) (variants : list A) (v : Value) : outcome string A :=
  match v with
  | JString s => match find (λ a, String.eqb (str a) s) variants with
                 | Some a => Ok a
                 | None => Err ("unknown variant " +:+ s)
                 end
  | _ => invalid "a variant"
  end.
#[export] Instance compression_deserialize : Deserialize Compression :=
  enum_deserialize Comp.as_str [CompNone; Lz4; Zstd; Deflate].
#[export] Instance storage_deserialize : Deserialize StorageMode :=
  enum_deserialize Snap.mode_str [Legacy; Cow].
#[export] Instance write_cache_mode_deserialize : Deserialize WriteCacheMode :=
  enum_deserialize Conf.write_cache_mode_str [WcNone; WcMemory; WcDisk].

#[export] Instance auth_deserialize : Deserialize AuthSettings := λ v,
  o ← as_struct ["username"; "secret"; "mutual_username"; "mutual_secret"; "allowed_initiators"] 0 v;
  username ← field_or from_json None o "username";
  secret ← field_or from_json None o "secret";
  mutual_username ← field_or from_json None o "mutual_username";
  mutual_secret ← field_or from_json None o "mutual_secret";
  allowed_initiators ← field_or from_json None o "allowed_initiators";
  Ok {| as_username := username; as_secret := secret; as_mutual_username := mutual_username;
        as_mutual_secret := mutual_secret; as_allowed_initiators := allowed_initiators |}.

#[export] Instance write_cache_deserialize : Deserialize WriteCacheConfig := λ v,
  o ← as_struct ["mode"; "path"; "max_bytes"] 0 v;
  mode ← field_or from_json WcNone o "mode";
  path ← field_or from_json None o "path";
  max_bytes ← field_or size_deserialize default_write_cache_max o "max_bytes";
  Ok {| wcc_mode := mode; wcc_path := path; wcc_max_bytes := max_bytes |}.

#[export] Instance write_buffer_deserialize : Deserialize WriteBufferConfig := λ v,
  o ← as_struct ["max_bytes"] 0 v;
  max_bytes ← field_or size_deserialize default_write_cache_max o "max_bytes";
  Ok {| wbc_max_bytes := max_bytes |}.

#[export] Instance volume_deserialize : Deserialize VolumeConfig := λ v,
  o ← as_struct ["name"; "iqn"; "prefix"; "capacity"; "block_size"; "chunk_size"; "compression";
                 "storage"; "auth"; "write_cache"; "write_buffer"] 4 v;
  name ← field from_json o "name";
  iqn ← field from_json o "iqn";
  prefix ← field from_json o "prefix";
  capacity ← field size_deserialize o "capacity";
  block_size ← field_or (uint_in u32_max) default_block_size o "block_size";
  chunk_size ← field_or size_deserialize default_chunk_size o "chunk_size";
  compression ← field_or from_json CompNone o "compression";
  storage ← field_or from_json Legacy o "storage";
  auth ← field_or from_json None o "auth";
  write_cache ← field_or from_json default_write_cache o "write_cache";
  write_buffer ← field_or from_json default_write_buffer o "write_buffer";
  Ok {| vc_name := name; vc_iqn := iqn; vc_prefix := prefix; vc_capacity := capacity;
        vc_block_size := block_size; vc_chunk_size := chunk_size; vc_compression := compression;
        vc_storage := storage; vc_auth := auth; vc_write_cache := write_cache;
        vc_write_buffer := write_buffer |}.

#[export] Instance s3_deserialize : Deserialize S3Config := λ v,
  o ← as_struct ["bucket"; "region"; "endpoint"; "force_path_style"; "access_key_id"; "secret_access_key"] 6 v;
  bucket ← field_or from_json None o "bucket";
  region ← field_or from_json default_region o "region";
  endpoint ← field_or from_json None o "endpoint";
  force_path_style ← field_or from_json false o "force_path_style";
  access_key_id ← field_or from_json None o "access_key_id";
  secret_access_key ← field_or from_json None o "secret_access_key";
  Ok {| s3_bucket := bucket; s3_region := region; s3_endpoint := endpoint;
        s3_force_path_style := force_path_style; s3_access_key_id := access_key_id;
        s3_secret_access_key := secret_access_key |}.

#[export] Instance cache_deserialize : Deserialize CacheConfig := λ v,
  o ← as_struct ["max_bytes"] 0 v;
  max_bytes ← field_or size_deserialize default_cache_max o "max_bytes";
  Ok {| cac_max_bytes := max_bytes |}.

#[export] Instance metrics_deserialize : Deserialize MetricsConfig := λ v,
  o ← as_struct ["enabled"; "bind"] 0 v;
  enabled ← field_or from_json default_metrics_enabled o "enabled";
  bind ← field_or from_json default_metrics_bind o "bind";
  Ok {| mc_enabled := enabled; mc_bind := bind |}.

#[export] Instance admin_deserialize : Deserialize AdminConfig := λ v,
  o ← as_struct ["enabled"; "socket"] 0 v;
  enabled ← field_or from_json default_admin_enabled o "enabled";
  socket ← field_or from_json default_admin_socket o "socket";
  Ok {| adc_enabled := enabled; adc_socket := socket |}.

#[export] Instance config_deserialize : Deserialize Config := λ v,
  o ← as_struct ["bind"; "advertise"; "portals"; "instance"; "auth"; "s3"; "cache"; "metrics"; "admin";
                 "performance_optimiser"; "volumes"] 0 v;
  bind ← field_or from_json default_bind o "bind";
  advertise ← field_or from_json None o "advertise";
  portals ← field_or from_json [] o "portals";
  instance ← field_or from_json None o "instance";
  auth ← field_or from_json None o "auth";
  s3 ← field_or from_json default_s3 o "s3";
  cache ← field_or from_json default_cache o "cache";
  metrics ← field_or from_json default_metrics o "metrics";
  admin ← field_or from_json default_admin o "admin";
  performance_optimiser ← field_or from_json false o "performance_optimiser";
  volumes ← field_or from_json [] o "volumes";
  Ok {| cfg_bind := bind; cfg_advertise := advertise; cfg_portals := portals; cfg_instance := instance;
        cfg_auth := auth; cfg_s3 := s3; cfg_cache := cache; cfg_metrics := metrics; cfg_admin := admin;
        cfg_performance_optimiser := performance_optimiser; cfg_volumes := volumes |}.

(** ** Encoding: [#[derive(Serialize)]] *)
#[export] Instance auth_serialize : Serialize AuthSettings := λ a, Js.obj [
  ("username", to_json (as_username a)); ("secret", to_json (as_secret a));
  ("mutual_username", to_json (as_mutual_username a)); ("mutual_secret", to_json (as_mutual_secret a));
  ("allowed_initiators", to_json (as_allowed_initiators a))].
#[export] Instance write_cache_serialize : Serialize WriteCacheConfig := λ w, Js.obj [
  ("mode", JString (Conf.write_cache_mode_str (wcc_mode w))); ("path", to_json (wcc_path w));
  ("max_bytes", size_serialize (wcc_max_bytes w))].
#[export] Instance write_buffer_serialize : Serialize WriteBufferConfig := λ w, Js.obj [
  ("max_bytes", size_serialize (wbc_max_bytes w))].
#[export] Instance volume_serialize : Serialize VolumeConfig := λ v, Js.obj [
  ("name", to_json (vc_name v)); ("iqn", to_json (vc_iqn v)); ("prefix", to_json (vc_prefix v));
  ("capacity", size_serialize (vc_capacity v)); ("block_size", to_json (vc_block_size v));
  ("chunk_size", size_serialize (vc_chunk_size v));
  ("compression", JString (Comp.as_str (vc_compression v)));
  ("storage", JString (Snap.mode_str (vc_storage v))); ("auth", to_json (vc_auth v));
  ("write_cache", to_json (vc_write_cache v)); ("write_buffer", to_json (vc_write_buffer v))].
#[export] Instance s3_serialize : Serialize S3Config := λ s, Js.obj [
  ("bucket", to_json (s3_bucket s)); ("region", to_json (s3_region s)); ("endpoint", to_json (s3_endpoint s));
  ("force_path_style", to_json (s3_force_path_style s)); ("access_key_id", to_json (s3_access_key_id s));
  ("secret_access_key", to_json (s3_secret_access_key s))].
#[export] Instance cache_serialize : Serialize CacheConfig := λ c, Js.obj [
  ("max_bytes", size_serialize (cac_max_bytes c))].
#[export] Instance metrics_serialize : Serialize MetricsConfig := λ m, Js.obj [
  ("enabled", to_json (mc_enabled m)); ("bind", to_json (mc_bind m))].
#[export] Instance admin_serialize : Serialize AdminConfig := λ a, Js.obj [
  ("enabled", to_json (adc_enabled a)); ("socket", to_json (adc_socket a))].
Definition config_fields (c : Config) : list (string * Value) := [
  ("bind", to_json (cfg_bind c)); ("advertise", to_json (cfg_advertise c));
  ("portals", to_json (cfg_portals c)); ("instance", to_json (cfg_instance c));
  ("auth", to_json (cfg_auth c)); ("s3", to_json (cfg_s3 c)); ("cache", to_json (cfg_cache c));
  ("metrics", to_json (cfg_metrics c)); ("admin", to_json (cfg_admin c));
  ("performance_optimiser", to_json (cfg_performance_optimiser c)); ("volumes", to_json (cfg_volumes c))].
#[export] Instance config_serialize : Serialize Config := λ c, Js.obj (config_fields c).

(** [#[serde(skip_serializing_if = "Option::is_none")]] *)
Definition some_fields (fields : list (string * option Value)) : list (string * Value) :=
  omap (λ f, pair f.1 <$> f.2) fields.
#[export] Instance s3_overrides_serialize : Serialize CliS3Overrides := λ s, Js.obj (some_fields [
  ("bucket", to_json <$> cs3_bucket s); ("endpoint", to_json <$> cs3_endpoint s);
  ("region", to_json <$> cs3_region s); ("force_path_style", to_json <$> cs3_force_path_style s)]).
#[export] Instance metrics_overrides_serialize : Serialize CliMetricsOverrides := λ m, Js.obj (some_fields [
  ("enabled", to_json <$> cmo_enabled m); ("bind", to_json <$> cmo_bind m)]).
Definition override_fields (o : CliOverrides) : list (string * Value) := some_fields [
  ("bind", to_json <$> cor_bind o); ("advertise", to_json <$> cor_advertise o);
  ("s3", to_json <$> cor_s3 o); ("metrics", to_json <$> cor_metrics o);
  ("performance_optimiser", to_json <$> cor_performance_optimiser o)].

(** ** Loading *)
Definition overrides (cli : Cli) : CliOverrides :=
  {| cor_bind := cli_bind cli; cor_advertise := cli_advertise cli;
     cor_s3 := Some {| cs3_bucket := cli_bucket cli; cs3_endpoint := cli_endpoint cli;
                       cs3_region := cli_region cli; cs3_force_path_style := cli_force_path_style cli |};
     cor_metrics := Some {| cmo_enabled := if cli_no_metrics cli then Some false else None;
                            cmo_bind := cli_metrics_bind cli |};
     cor_performance_optimiser := cli_performance_optimiser cli |}.
Definition defaults : Config :=
  {| cfg_bind := DEFAULT_BIND; cfg_advertise := None; cfg_portals := []; cfg_instance := None;
     cfg_auth := None;
     cfg_s3 := {| s3_bucket := None; s3_region := default_region; s3_endpoint := None;
                  s3_force_path_style := false; s3_access_key_id := None; s3_secret_access_key := None |};
     cfg_cache := default_cache; cfg_metrics := default_metrics; cfg_admin := default_admin;
     cfg_performance_optimiser := false; cfg_volumes := [] |}.

Context `{Figment}.
(** [Figment::merge]: a provider that fails makes [extract] fail. *)
Definition merge (figment : outcome string Value) (data : Dict + string) : outcome string Value :=
  v ← figment;
  match data with inl d => Ok (figment_merge v (JObject d)) | inr e => Err e end.
(** [Serialized::defaults] *)
Definition serialized (fields : list (string * Value)) : Dict + string := inl (list_to_map fields).
Definition environment : Dict + string := inl (env_split "ISCSI_S3_" "__").
Definition extract (figment : outcome string Value) : outcome ConfigError Config :=
  match (v ← figment; from_json v) with
  | Ok config => Ok config
  | Err e => Err (FigmentError e)
  | Panic => Panic
  | OutOfFuel => OutOfFuel
  end.

Definition load (cli : Cli) : outcome ConfigError Config :=
  let figment := merge (Ok (JObject ∅)) (serialized (config_fields defaults)) in
  let figment := match cli_config cli with
                 | Some path => merge figment (toml_file path)
                 | None => figment
                 end in
  let figment := merge figment environment in
  let figment := merge figment (serialized (override_fields (overrides cli))) in
  config ← extract figment;
  _ ← Conf.validate config;
  Ok config.

Definition load_for_reload (path : string) : outcome ConfigError Config :=
  let figment := merge (merge (merge (Ok (JObject ∅)) (serialized (config_fields defaults)))
                         (toml_file path)) environment in
  config ← extract figment;
  _ ← Conf.validate config;
  Ok config.
End sizes.
End Load.
