(* ===== verification/LoadTheorems.v ===== *)
(** * Properties of configuration loading

    Every setting has the value of the highest layer that has one; a reload
    without command-line options reads what a start reads; what is serialized
    decodes to itself. *)
From S2P Require Import Prelude Text Store Compression Snapshot Cache CachedStore WriteBuffer WriteCache WriteBack.
From S2P Require Import Config ConfigSpec Value Load.
#[local] Open Scope string_scope.
#[local] Open Scope list_scope.
#[local] Open Scope Z_scope.
Import Text Load.

Module LoadTheorems.
(** ** Layers *)
Section layers.
Context `{FigmentLaws}.

(** What merging makes of one key, from what is below and what is merged in. *)
Definition over (below above : option Value) : option Value :=
  match below, above with
  | Some x, Some y => Some (figment_merge x y)
  | x, None => x
  | None, y => y
  end.
(** A column of layers, highest first: merged, and the highest one present. *)
Definition stacked (l : list (option Value)) : option Value := foldr (λ y x, over x y) None l.
Definition pick (l : list (option Value)) : option Value := head (omap id l).

Lemma merge_empty_l d : figment_merge (JObject ∅) (JObject d) = JObject d.
Proof.
  rewrite merge_tables. f_equal. apply map_eq. intros k. rewrite lookup_union_with, lookup_empty. by destruct (d !! k).
Qed.
Lemma merge_empty_r d : figment_merge (JObject d) (JObject ∅) = JObject d.
Proof.
  rewrite merge_tables. f_equal. apply map_eq. intros k. rewrite lookup_union_with, lookup_empty. by destruct (d !! k).
Qed.

(** Nothing, or a table. *)
Definition section_like (o : option Value) : Prop :=
  match o with Some v => is_table v = true | None => True end.

Lemma over_section x y :
  section_like x → section_like y →
  section_like (over x y) ∧
  ∀ key, over x y ≫= Js.get key = over (x ≫= Js.get key) (y ≫= Js.get key).
Proof.
  destruct x as [[| | | | |ta]|], y as [[| | | | |tb]|]; simpl; intros ??; try done.
  - rewrite merge_tables. split; [done|]. intros key. simpl. rewrite lookup_union_with.
    by destruct (ta !! key), (tb !! key).
  - split; [done|]. intros key. by destruct (ta !! key).
  - split; [done|]. intros key. by destruct (tb !! key).
Qed.
Lemma stacked_section l :
  Forall section_like l →
  section_like (stacked l) ∧ ∀ key, stacked l ≫= Js.get key = stacked (map (λ o, o ≫= Js.get key) l).
Proof.
  induction 1 as [|y l Hy _ [IH1 IH2]]; [done|]. simpl.
  destruct (over_section (stacked l) y IH1 Hy) as [Hs Hk]. split; [done|]. intros key.
  by rewrite Hk, IH2.
Qed.

Lemma stack_dicts (d : Dict) ds :
  ∃ o : Dict, stacked (map (Some ∘ JObject) (d :: ds)) = Some (JObject o) ∧
    ∀ key, o !! key = stacked (map (.!! key) (d :: ds)).
Proof.
  destruct (stacked_section (map (Some ∘ JObject) (d :: ds))) as [Ht Hk].
  { rewrite Forall_map. by apply Forall_true. }
  destruct (stacked (map (Some ∘ JObject) (d :: ds))) as [v|] eqn:Hv.
  - destruct v as [| | | | |o]; try done. exists o. split; [done|]. intros key.
    specialize (Hk key). cbn [mbind option_bind Js.get] in Hk. by rewrite Hk, map_map.
  - simpl in Hv. by destruct (stacked _).
Qed.
Lemma stacked_leaf l v : stacked l = Some v → is_table v = false → pick l = Some v.
Proof.
  induction l as [|[y|] l IH]; [done|simpl..]; intros Hv Hleaf.
  - unfold pick. simpl. destruct (stacked l) as [x|]; simpl in Hv; [|done].
    destruct (is_table x && is_table y) eqn:Ht.
    + destruct x, y; try done. rewrite merge_tables in Hv. by injection Hv as <-.
    + by rewrite (merge_other _ _ Ht) in Hv.
  - apply IH; [|done]. by destruct (stacked l).
Qed.
Lemma stacked_none l : stacked l = None → Forall (.= None) l.
Proof.
  induction l as [|y l IH]; [done|]. simpl. destruct (stacked l), y; try done. auto.
Qed.
End layers.

(** ** Decoding *)

(** Types whose values are decoded from their own encoding only, never a table. *)
Class Scalar (A : Type) `{Serialize A, Deserialize A} : Prop :=
  scalar v (a : A) : from_json v = Ok a → v = to_json a ∧ is_table v = false.
#[export] Instance string_scalar : Scalar string.
Proof. intros [] a; simpl; by intros [= <-]. Qed.
#[export] Instance bool_scalar : Scalar bool.
Proof. intros [] a; simpl; by intros [= <-]. Qed.
#[export] Instance option_scalar `{Scalar A} : Scalar (option A).
Proof.
  intros v a Hv. unfold from_json, option_deserialize in Hv.
  assert (Hn : v = JNull ∨ (a' ← from_json v; Ok (Some a')) = Ok a) by (destruct v; auto).
  destruct Hn as [->|Hn]; [by injection Hv as <-|].
  destruct (from_json v) as [a'| | |] eqn:Ha; try done. injection Hn as <-. exact (scalar v a' Ha).
Qed.
#[export] Instance list_scalar `{Scalar A} : Scalar (list A).
Proof.
  intros v a Hv. destruct v as [| | | |l|]; try done. split; [|done]. unfold to_json, list_serialize.
  f_equal. unfold from_json, list_deserialize in Hv. revert a Hv.
  induction l as [|v l IH]; simpl; intros a Hv; [by injection Hv as <-|].
  destruct (from_json v) as [x| | |] eqn:Hx; try done. simpl in Hv.
  destruct (decode_all from_json l) as [xs| | |]; try done. injection Hv as <-. simpl.
  f_equal; [apply (scalar v x Hx)|by apply IH].
Qed.

Ltac decoded H := repeat (apply ConfSpec.bind_ok in H as (? & ? & H)); injection H as <-; simpl.

Section precedence.
Context `{FigmentLaws} `{Conf.ByteSize} `{ByteSizeText}.

(** The layers of a start, highest first. *)
Definition env_layer : Dict := env_split "ISCSI_S3_" "__".
Definition file_layer (cli : Cli) : Dict + string :=
  match cli_config cli with Some path => toml_file path | None => inl ∅ end.
Definition layers (cli : Cli) (file : Dict) : list Dict :=
  [list_to_map (override_fields (overrides cli)); env_layer; file; list_to_map (config_fields defaults)].

(** The value of the highest layer that has the setting at [path]. *)
Definition setting (path : list string) (ls : list Dict) : option Value :=
  pick (map (λ d, Js.pointer path (JObject d)) ls).

(** The settings with one value. *)
Definition scalars (cfg : Config) : list (list string * Value) := [
  (["bind"], to_json (cfg_bind cfg)); (["advertise"], to_json (cfg_advertise cfg));
  (["portals"], to_json (cfg_portals cfg)); (["instance"], to_json (cfg_instance cfg));
  (["performance_optimiser"], to_json (cfg_performance_optimiser cfg));
  (["s3"; "bucket"], to_json (s3_bucket (cfg_s3 cfg)));
  (["s3"; "region"], to_json (s3_region (cfg_s3 cfg)));
  (["s3"; "endpoint"], to_json (s3_endpoint (cfg_s3 cfg)));
  (["s3"; "force_path_style"], to_json (s3_force_path_style (cfg_s3 cfg)));
  (["s3"; "access_key_id"], to_json (s3_access_key_id (cfg_s3 cfg)));
  (["s3"; "secret_access_key"], to_json (s3_secret_access_key (cfg_s3 cfg)));
  (["metrics"; "enabled"], to_json (mc_enabled (cfg_metrics cfg)));
  (["metrics"; "bind"], to_json (mc_bind (cfg_metrics cfg)));
  (["admin"; "enabled"], to_json (adc_enabled (cfg_admin cfg)));
  (["admin"; "socket"], to_json (adc_socket (cfg_admin cfg)))].

(** The settings of the [auth] section, each unset when no layer has it. *)
Definition auth_settings (cfg : Config) : list (string * Value) := [
  ("username", to_json (cfg_auth cfg ≫= as_username)); ("secret", to_json (cfg_auth cfg ≫= as_secret));
  ("mutual_username", to_json (cfg_auth cfg ≫= as_mutual_username));
  ("mutual_secret", to_json (cfg_auth cfg ≫= as_mutual_secret));
  ("allowed_initiators", to_json (cfg_auth cfg ≫= as_allowed_initiators))].

(** The sections of a layer are tables. *)
Definition sections (d : Dict) : Prop :=
  Forall (λ key, section_like (d !! key)) ["s3"; "cache"; "metrics"; "admin"].

Lemma pointer_one key (d : Dict) : Js.pointer [key] (JObject d) = d !! key.
Proof. simpl. by destruct (d !! key). Qed.
Lemma pointer_two key key' (d : Dict) : Js.pointer [key; key'] (JObject d) = d !! key ≫= Js.get key'.
Proof. simpl. destruct (d !! key) as [v|]; [|done]. simpl. by destruct (Js.get key' v). Qed.

(** The merged data of a start. *)
Lemma merged cli f :
  file_layer cli = inl f →
  ∃ o : Dict, (∀ key, o !! key = stacked (map (.!! key) (layers cli f))) ∧
    load cli = (config ← extract (Ok (JObject o)); _ ← Conf.validate config; Ok config).
Proof.
  intros Hf. destruct (stack_dicts (list_to_map (override_fields (overrides cli))) [env_layer; f; list_to_map (config_fields defaults)])
    as (o & Ho & Hk). exists o. split; [exact Hk|].
  unfold stacked in Ho. cbn [map foldr over compose] in Ho. injection Ho as Ho.
  unfold load, environment, serialized, file_layer in *. cbv zeta. f_equal. f_equal.
  unfold merge, mbind, outcome_bind. rewrite merge_empty_l.
  destruct (cli_config cli); [by rewrite Hf, <- Ho|injection Hf as <-]. by rewrite <- Ho, merge_empty_r.
Qed.

(** A decoded field is the highest entry of its column. *)
Lemma column `{Scalar A} (d : A) (o : Dict) key l a :
  o !! key = stacked l → ¬ Forall (.= None) l → field_or from_json d o key = Ok a →
  pick l = Some (to_json a).
Proof.
  intros Ho Hl. unfold field_or. rewrite Ho. destruct (stacked l) as [v|] eqn:Hv; [|by apply stacked_none in Hv].
  intros [-> Ht]%scalar. by apply stacked_leaf.
Qed.
Lemma top_setting `{Scalar A} (d : A) (o : Dict) key ls a :
  (∀ key, o !! key = stacked (map (.!! key) ls)) → ¬ Forall (λ l : Dict, l !! key = None) ls →
  field_or from_json d o key = Ok a → setting [key] ls = Some (to_json a).
Proof.
  intros Ho Hl Ha. unfold setting. rewrite (map_ext _ (.!! key) (pointer_one key)).
  by apply (column d o key); [| rewrite Forall_map|].
Qed.

(** The table of a section. *)
Lemma section_table (o : Dict) key ls :
  (∀ key, o !! key = stacked (map (.!! key) ls)) → Forall (λ l : Dict, section_like (l !! key)) ls →
  ¬ Forall (λ l : Dict, l !! key = None) ls →
  ∃ t : Dict, o !! key = Some (JObject t) ∧
    ∀ key', t !! key' = stacked (map (λ l : Dict, l !! key ≫= Js.get key') ls).
Proof.
  intros Ho Hs Hl. destruct (stacked_section (map (.!! key) ls)) as [Ht Hk]; [by rewrite Forall_map|].
  rewrite <- Ho in *. destruct (o !! key) as [v|] eqn:Hv.
  - destruct v as [| | | | |t]; try done. exists t. split; [done|]. intros key'.
    specialize (Hk key'). cbn [mbind option_bind Js.get] in Hk. by rewrite Hk, map_map.
  - destruct Hl. rewrite Ho in Hv. apply stacked_none in Hv. by rewrite Forall_map in Hv.
Qed.
Lemma section_setting `{Scalar A} (d : A) (t : Dict) key key' ls a :
  (∀ key', t !! key' = stacked (map (λ l : Dict, l !! key ≫= Js.get key') ls)) →
  ¬ Forall (λ l : Dict, l !! key ≫= Js.get key' = None) ls →
  field_or from_json d t key' = Ok a → setting [key; key'] ls = Some (to_json a).
Proof.
  intros Ht Hl Ha. unfold setting. rewrite (map_ext _ _ (pointer_two key key')).
  by apply (column d t key'); [|rewrite Forall_map|].
Qed.

Lemma has_default cli f (P : Dict → Prop) :
  ¬ P (list_to_map (config_fields defaults)) → ¬ Forall P (layers cli f).
Proof. intros Hn Hall. apply Hn. rewrite Forall_forall in Hall. apply Hall. by repeat constructor. Qed.

Lemma override_section cli key :
  key ∈ ["s3"; "cache"; "metrics"; "admin"] →
  section_like ((list_to_map (override_fields (overrides cli)) : Dict) !! key).
Proof.
  intros Hk. unfold override_fields, some_fields. cbn [overrides cor_bind cor_advertise cor_s3 cor_metrics cor_performance_optimiser].
  destruct (cli_bind cli), (cli_advertise cli), (cli_performance_optimiser cli);
    repeat (apply elem_of_cons in Hk as [->|Hk]; [done|]); by apply not_elem_of_nil in Hk.
Qed.
Lemma layer_sections cli f key :
  sections f → sections env_layer → key ∈ ["s3"; "cache"; "metrics"; "admin"] →
  Forall (λ l : Dict, section_like (l !! key)) (layers cli f).
Proof.
  unfold sections. rewrite !Forall_forall. intros Hf He Hk l Hl. unfold layers in Hl.
  apply elem_of_cons in Hl as [->|Hl]; [by apply override_section|].
  apply elem_of_cons in Hl as [->|Hl]; [by apply He|].
  apply elem_of_cons in Hl as [->|Hl]; [by apply Hf|].
  apply list_elem_of_singleton in Hl as ->.
  repeat (apply elem_of_cons in Hk as [->|Hk]; [done|]); by apply not_elem_of_nil in Hk.
Qed.

(** What decoding a table says about its entries. *)
Lemma config_decoded o cfg :
  extract (Ok (JObject o)) = Ok cfg →
  field_or from_json default_bind o "bind" = Ok (cfg_bind cfg) ∧
  field_or from_json None o "advertise" = Ok (cfg_advertise cfg) ∧
  field_or from_json [] o "portals" = Ok (cfg_portals cfg) ∧
  field_or from_json None o "instance" = Ok (cfg_instance cfg) ∧
  field_or from_json false o "performance_optimiser" = Ok (cfg_performance_optimiser cfg) ∧
  field_or from_json None o "auth" = Ok (cfg_auth cfg) ∧
  field_or from_json default_s3 o "s3" = Ok (cfg_s3 cfg) ∧
  field_or from_json default_cache o "cache" = Ok (cfg_cache cfg) ∧
  field_or from_json default_metrics o "metrics" = Ok (cfg_metrics cfg) ∧
  field_or from_json default_admin o "admin" = Ok (cfg_admin cfg) ∧
  field_or from_json [] o "volumes" = Ok (cfg_volumes cfg).
Proof.
  unfold extract. cbn [mbind outcome_bind]. unfold from_json at 1.
  destruct (config_deserialize (JObject o)) as [c| | |] eqn:Hc; [|done..]. intros [= <-].
  unfold config_deserialize, as_struct in Hc. decoded Hc. by simplify_eq.
Qed.
Lemma s3_decoded t s :
  from_json (JObject t) = Ok s →
  field_or from_json None t "bucket" = Ok (s3_bucket s) ∧
  field_or from_json default_region t "region" = Ok (s3_region s) ∧
  field_or from_json None t "endpoint" = Ok (s3_endpoint s) ∧
  field_or from_json false t "force_path_style" = Ok (s3_force_path_style s) ∧
  field_or from_json None t "access_key_id" = Ok (s3_access_key_id s) ∧
  field_or from_json None t "secret_access_key" = Ok (s3_secret_access_key s).
Proof. intros Hs. unfold from_json at 1, s3_deserialize, as_struct in Hs. decoded Hs. by simplify_eq. Qed.
Lemma metrics_decoded t s :
  from_json (JObject t) = Ok s →
  field_or from_json default_metrics_enabled t "enabled" = Ok (mc_enabled s) ∧
  field_or from_json default_metrics_bind t "bind" = Ok (mc_bind s).
Proof. intros Hs. unfold from_json at 1, metrics_deserialize, as_struct in Hs. decoded Hs. by simplify_eq. Qed.
Lemma admin_decoded t s :
  from_json (JObject t) = Ok s →
  field_or from_json default_admin_enabled t "enabled" = Ok (adc_enabled s) ∧
  field_or from_json default_admin_socket t "socket" = Ok (adc_socket s).
Proof. intros Hs. unfold from_json at 1, admin_deserialize, as_struct in Hs. decoded Hs. by simplify_eq. Qed.
Lemma auth_decoded t s :
  from_json (JObject t) = Ok s →
  field_or from_json None t "username" = Ok (as_username s) ∧
  field_or from_json None t "secret" = Ok (as_secret s) ∧
  field_or from_json None t "mutual_username" = Ok (as_mutual_username s) ∧
  field_or from_json None t "mutual_secret" = Ok (as_mutual_secret s) ∧
  field_or from_json None t "allowed_initiators" = Ok (as_allowed_initiators s).
Proof. intros Hs. unfold from_json at 1, auth_deserialize, as_struct in Hs. decoded Hs. by simplify_eq. Qed.
Lemma cache_decoded t s :
  from_json (JObject t) = Ok s → field_or size_deserialize default_cache_max t "max_bytes" = Ok (cac_max_bytes s).
Proof. intros Hs. unfold from_json at 1, cache_deserialize, as_struct in Hs. decoded Hs. by simplify_eq. Qed.

(** Values that are no tables, sizes among them. *)
Lemma leaf_column {A} (de : Value → outcome string A) d (o : Dict) key l a :
  (∀ v a, de v = Ok a → is_table v = false) → o !! key = stacked l → ¬ Forall (.= None) l →
  field_or de d o key = Ok a → ∃ v, pick l = Some v ∧ de v = Ok a.
Proof.
  intros Hde Ho Hl. unfold field_or. rewrite Ho. destruct (stacked l) as [v|] eqn:Hv; [|by apply stacked_none in Hv].
  intros Ha. exists v. split; [|done]. apply stacked_leaf; [done|by eapply Hde].
Qed.

(** An optional field is what the highest layer says, and unset without one. *)
Lemma optional_column `{Scalar A} (o : Dict) key l (a : option A) :
  o !! key = stacked l → field_or from_json None o key = Ok a → default JNull (pick l) = to_json a.
Proof.
  intros Ho. unfold field_or. rewrite Ho. destruct (stacked l) as [v|] eqn:Hv.
  - intros [-> Ht]%scalar. by rewrite (stacked_leaf _ _ Hv Ht).
  - intros [= <-]. apply stacked_none in Hv. replace (pick l) with (@None Value); [done|].
    clear Ho. induction Hv as [|x l -> _ IH]; [done|]. exact IH.
Qed.

(** The [auth] section: null in the defaults, else absent or a table. *)
Lemma auth_section cli f (o : Dict) (a : option AuthSettings) :
  section_like (f !! "auth") → section_like (env_layer !! "auth") →
  o !! "auth" = stacked (map (.!! "auth") (layers cli f)) → field_or from_json None o "auth" = Ok a →
  ∃ t : Dict, field_or from_json None t "username" = Ok (a ≫= as_username) ∧
    field_or from_json None t "secret" = Ok (a ≫= as_secret) ∧
    field_or from_json None t "mutual_username" = Ok (a ≫= as_mutual_username) ∧
    field_or from_json None t "mutual_secret" = Ok (a ≫= as_mutual_secret) ∧
    field_or from_json None t "allowed_initiators" = Ok (a ≫= as_allowed_initiators) ∧
    ∀ key, t !! key = stacked (map (λ l : Dict, l !! "auth" ≫= Js.get key) (layers cli f)).
Proof.
  intros Hf He Ho Ha. unfold layers in *. cbn [map] in *.
  assert (Hov : (list_to_map (override_fields (overrides cli)) : Dict) !! "auth" = None)
    by (unfold override_fields, some_fields; cbn [overrides cor_bind cor_advertise cor_s3 cor_metrics
          cor_performance_optimiser]; by destruct (cli_bind cli), (cli_advertise cli), (cli_performance_optimiser cli)).
  assert (Hde : (list_to_map (config_fields defaults) : Dict) !! "auth" = Some JNull) by done.
  rewrite Hov, Hde in *. unfold field_or at 1 in Ha.
  assert (Hnull : ∀ t : Dict, figment_merge JNull (JObject t) = JObject t) by (intros t; by apply merge_other).
  destruct (f !! "auth") as [[| | | | |tf]|], (env_layer !! "auth") as [[| | | | |te]|]; try done;
    cbn [stacked foldr over] in Ho; rewrite ?Hnull, ?merge_tables in Ho; rewrite Ho in Ha;
    [exists (union_with (λ x y, Some (figment_merge x y)) tf te)|exists tf|exists te|exists ∅].
  1-3: destruct a as [s|]; [|exfalso; revert Ha; unfold from_json, option_deserialize; by destruct (from_json _)];
    unfold from_json at 1, option_deserialize in Ha; destruct (from_json _) as [s'| | |] eqn:Hs in Ha; try done;
    injection Ha as <-; destruct (auth_decoded _ _ Hs) as (? & ? & ? & ? & ?);
    do 5 (split; [done|]); intros key; cbn [mbind option_bind Js.get stacked foldr over];
    rewrite ?lookup_union_with; try (by destruct (tf !! key), (te !! key)); by try destruct (tf !! key); try destruct (te !! key).
  injection Ha as <-. by do 5 (split; [done|]).
Qed.

(** C29: Configuration layers. When a start succeeds, the configuration is valid,
    and every setting has the value of the highest layer that has one: the
    command line, else the environment, else the file, else the built-in
    defaults; sizes and volumes are what the highest value decodes to, and a
    setting of the [auth] section that no layer has is unset. *)
Theorem load_precedence cli f cfg :
  file_layer cli = inl f → sections f → sections env_layer →
  section_like (f !! "auth") → section_like (env_layer !! "auth") → load cli = Ok cfg →
  Conf.validate cfg = Ok tt ∧
  Forall (λ s, setting s.1 (layers cli f) = Some s.2) (scalars cfg) ∧
  Forall (λ s, default JNull (setting ["auth"; s.1] (layers cli f)) = s.2) (auth_settings cfg) ∧
  (∃ v, setting ["cache"; "max_bytes"] (layers cli f) = Some v ∧
     size_deserialize v = Ok (cac_max_bytes (cfg_cache cfg))) ∧
  ∃ v, setting ["volumes"] (layers cli f) = Some v ∧ from_json v = Ok (cfg_volumes cfg).
Proof.
  intros Hf Hsf Hse Haf Hae Hload. destruct (merged cli f Hf) as (o & Ho & Hl). rewrite Hload in Hl. clear Hload.
  symmetry in Hl. apply ConfSpec.bind_ok in Hl as (c & Hx & Hl). apply ConfSpec.bind_ok in Hl as ([] & Hval & [= ->]).
  destruct (config_decoded _ _ Hx) as (Hb & Ha & Hp & Hi & Hpo & Hau & Hs3 & Hc & Hm & Had & Hv).
  assert (Htab : ∀ key, key ∈ ["s3"; "cache"; "metrics"; "admin"] →
    ∃ t : Dict, o !! key = Some (JObject t) ∧
      ∀ key', t !! key' = stacked (map (λ l : Dict, l !! key ≫= Js.get key') (layers cli f))).
  { intros key Hk. apply section_table; [done|by apply layer_sections|]. apply has_default.
    repeat (apply elem_of_cons in Hk as [->|Hk]; [done|]); by apply not_elem_of_nil in Hk. }
  destruct (Htab "s3") as (ts & Hts & Ks); [by repeat constructor|]. destruct (Htab "cache") as (tc & Htc & Kc); [by repeat constructor|].
  destruct (Htab "metrics") as (tm & Htm & Km); [by repeat constructor|]. destruct (Htab "admin") as (ta & Hta & Ka); [by repeat constructor|].
  unfold field_or in Hs3, Hc, Hm, Had. rewrite Hts in Hs3. rewrite Htc in Hc. rewrite Htm in Hm. rewrite Hta in Had.
  destruct (s3_decoded _ _ Hs3) as (? & ? & ? & ? & ? & ?). destruct (metrics_decoded _ _ Hm) as [? ?].
  destruct (admin_decoded _ _ Had) as [? ?]. apply cache_decoded in Hc.
  destruct (auth_section cli f o _ Haf Hae (Ho "auth") Hau) as (t & Hu & Hse' & Hmu & Hms & Hai & Ka').
  split; [done|]. split; [|split; [|split]].
  - unfold scalars. repeat (apply Forall_cons; split); [..|by apply Forall_nil]; cbn [fst snd];
      first [eapply top_setting; [exact Ho|by apply has_default|done]
            |eapply section_setting; [first [exact Ks|exact Km|exact Ka]|by apply has_default|done]].
  - unfold auth_settings. repeat (apply Forall_cons; split); [..|by apply Forall_nil]; cbn [fst snd];
      unfold setting; rewrite (map_ext _ _ (pointer_two "auth" _)); (eapply optional_column; [exact (Ka' _)|done]).
  - unfold setting. rewrite (map_ext _ _ (pointer_two "cache" "max_bytes")).
    eapply leaf_column; [|exact (Kc "max_bytes")|rewrite Forall_map; by apply has_default|exact Hc].
    intros [] a'; by cbn.
  - unfold setting. rewrite (map_ext _ (.!! "volumes") (pointer_one "volumes")).
    eapply leaf_column; [|exact (Ho "volumes")|rewrite Forall_map; by apply has_default|exact Hv].
    intros [] a'; by cbn.
Qed.

Lemma sections_two key : key ∈ ["s3"; "metrics"] → key ∈ ["s3"; "cache"; "metrics"; "admin"].
Proof. rewrite !elem_of_cons. tauto. Qed.

(** A start with a configuration file and no other options. *)
Definition bare (path log : string) : Cli :=
  {| cli_config := Some path; cli_bind := None; cli_advertise := None; cli_bucket := None;
     cli_endpoint := None; cli_region := None; cli_force_path_style := None; cli_log := log;
     cli_metrics_bind := None; cli_no_metrics := false; cli_performance_optimiser := None |}.

Lemma bare_overrides path log :
  (list_to_map (override_fields (overrides (bare path log))) : Dict) =
    <["s3" := JObject ∅]> (<["metrics" := JObject ∅]> ∅).
Proof. reflexivity. Qed.

Lemma reload_reads path log :
  (∀ f, toml_file path = inl f → sections f) → sections env_layer →
  load (bare path log) = load_for_reload path.
Proof.
  intros Hf He. unfold load, load_for_reload. cbn [bare cli_config]. unfold serialized at 2. rewrite bare_overrides.
  cbv zeta. f_equal. f_equal. unfold serialized, environment, merge, mbind, outcome_bind. rewrite merge_empty_l.
  destruct (toml_file path) as [f|e]; [|done]. specialize (Hf f eq_refl). f_equal.
  destruct (stack_dicts env_layer [f; list_to_map (config_fields defaults)]) as (o & Ho & Hk).
  change (Some (figment_merge (figment_merge (JObject (list_to_map (config_fields defaults))) (JObject f))
    (JObject (env_split "ISCSI_S3_" "__"))) = Some (JObject o)) in Ho. apply (inj Some) in Ho. rewrite Ho.
  assert (Htab : ∀ key, key ∈ ["s3"; "metrics"] → ∃ t, o !! key = Some (JObject t)).
  { intros key Hin. edestruct (section_table o key) as (t & Ht & _); [exact Hk|..|by exists t].
    - pose proof (layer_sections (bare path log) f key Hf He) as Hs. unfold layers in Hs.
      apply (Forall_cons_1 _ _ _ (Hs (sections_two key Hin))).
    - intros Hall. rewrite Forall_forall in Hall.
      specialize (Hall (list_to_map (config_fields defaults)) ltac:(by repeat constructor)).
      repeat (apply elem_of_cons in Hin as [->|Hin]; [done|]); by apply not_elem_of_nil in Hin. }
  destruct (Htab "s3") as (ts & Hs); [by repeat constructor|]. destruct (Htab "metrics") as (tm & Hm); [by repeat constructor|].
  rewrite merge_tables. f_equal. apply map_eq. intros key. rewrite lookup_union_with.
  destruct (decide (key = "s3")) as [->|Hn1]; [rewrite lookup_insert_eq, Hs; simpl; by rewrite merge_empty_r|].
  rewrite lookup_insert_ne by done.
  destruct (decide (key = "metrics")) as [->|Hn2]; [rewrite lookup_insert_eq, Hm; simpl; by rewrite merge_empty_r|].
  rewrite lookup_insert_ne, lookup_empty by done. by destruct (o !! key).
Qed.

(** Reloading. A reload reads the file and the environment as a start with
    this file and no other command-line options does: the same configuration, or
    the same error. *)
Theorem reload_as_start path log :
  (∀ f, toml_file path = inl f → sections f) → sections env_layer →
  load (bare path log) = load_for_reload path.
Proof. apply reload_reads. Qed.
End precedence.

(** ** Encoding and decoding *)
Lemma field_or_here {A} (de : Value → outcome string A) d key v l :
  field_or de d (list_to_map ((key, v) :: l)) key = de v.
Proof. unfold field_or. cbn [list_to_map foldr fst snd]. by rewrite lookup_insert_eq. Qed.
Lemma field_or_there {A} (de : Value → outcome string A) d key key' v l :
  key' ≠ key → field_or de d (list_to_map ((key', v) :: l)) key = field_or de d (list_to_map l) key.
Proof. intros Hn. unfold field_or. cbn [list_to_map foldr fst snd]. by rewrite lookup_insert_ne. Qed.
Lemma field_here {A} (de : Value → outcome string A) key v l :
  field de (list_to_map ((key, v) :: l)) key = de v.
Proof. unfold field. cbn [list_to_map foldr fst snd]. by rewrite lookup_insert_eq. Qed.
Lemma field_there {A} (de : Value → outcome string A) key key' v l :
  key' ≠ key → field de (list_to_map ((key', v) :: l)) key = field de (list_to_map l) key.
Proof. intros Hn. unfold field. cbn [list_to_map foldr fst snd]. by rewrite lookup_insert_ne. Qed.
#[local] Hint Rewrite @field_or_here @field_here : fields.
#[local] Hint Rewrite @field_or_there @field_there using discriminate : fields.

(** Decoding the encoding of [a] gives [a] back. *)
Definition decodes {A} `{Serialize A, Deserialize A} (a : A) : Prop :=
  from_json (to_json a) = Ok a ∧ to_json a ≠ JNull.
Lemma decodes_string (s : string) : decodes s.
Proof. by split. Qed.
Lemma decodes_bool (b : bool) : decodes b.
Proof. by split. Qed.
Lemma decodes_option `{Serialize A, Deserialize A} (o : option A) :
  (∀ a, o = Some a → decodes a) → from_json (to_json o) = Ok o.
Proof.
  destruct o as [a|]; [|done]. intros Ha. destruct (Ha a eq_refl) as [Hd Hn].
  unfold to_json at 1, option_serialize, from_json, option_deserialize.
  destruct (to_json a) eqn:Hv; try done; by rewrite Hd.
Qed.
Lemma decodes_list `{Serialize A, Deserialize A} (l : list A) : Forall decodes l → decodes l.
Proof.
  intros Hl. split; [|done]. unfold to_json, list_serialize, from_json, list_deserialize.
  induction Hl as [|a l [Ha _] _ IH]; [done|]. cbn [map decode_all]. rewrite Ha. cbn [mbind outcome_bind].
  by rewrite IH.
Qed.
Lemma then_intro {E A B} (m : outcome E A) a (k : A → outcome E B) r :
  m = Ok a → k a = r → (m ≫= k) = r.
Proof. by intros -> <-. Qed.
Create HintDb decode discriminated.
#[local] Hint Resolve decodes_option decodes_string decodes_bool decodes_list : decode.
#[local] Hint Extern 1 (from_json (to_json _) = Ok _) => apply decodes_string : decode.
#[local] Hint Extern 1 (from_json (to_json _) = Ok _) => apply decodes_bool : decode.
#[local] Hint Extern 2 (from_json (to_json _) = Ok _) => apply decodes_list : decode.
#[local] Hint Extern 1 (Forall decodes _) => apply Forall_true : decode.
(** Decode the fields of a table one after the other. *)
Ltac decode_fields :=
  eapply then_intro; [reflexivity|]; cbv beta;
  repeat (eapply then_intro; [autorewrite with fields; eauto with decode|]; cbv beta).

Lemma decodes_auth (a : AuthSettings) : decodes a.
Proof.
  split; [|done]. unfold to_json at 1, auth_serialize, from_json at 1, auth_deserialize, Js.obj.
  decode_fields. by destruct a.
Qed.

Section sizes.
Context `{Conf.ByteSize} `{ByteSizeText}.
(** The text of the size reads back. *)
Definition readable (n : Z) : Prop := Conf.bytesize_parse (bytesize_to_string n) = inl n.
Lemma size_decodes n : readable n → size_deserialize (size_serialize n) = Ok n.
Proof. unfold size_deserialize, size_serialize. simpl. by intros ->. Qed.
Record readable_volume (v : VolumeConfig) : Prop := {
  rv_capacity : readable (vc_capacity v);
  rv_chunk : readable (vc_chunk_size v);
  rv_cache : readable (wcc_max_bytes (vc_write_cache v));
  rv_buffer : readable (wbc_max_bytes (vc_write_buffer v));
  rv_block : is_u32 (vc_block_size v)
}.
Lemma uint_in_ok max n : 0 ≤ n ≤ max → uint_in max (JNumber n) = Ok n.
Proof. intros [Hl Hh]. simpl. by rewrite (proj2 (Z.leb_le _ _) Hl), (proj2 (Z.leb_le _ _) Hh). Qed.

Lemma decodes_compression (c : Compression) : from_json (JString (Comp.as_str c)) = Ok c.
Proof. by destruct c. Qed.
Lemma decodes_storage (m : StorageMode) : from_json (JString (Snap.mode_str m)) = Ok m.
Proof. by destruct m. Qed.
Lemma decodes_mode (m : WriteCacheMode) : from_json (JString (Conf.write_cache_mode_str m)) = Ok m.
Proof. by destruct m. Qed.
#[local] Hint Resolve size_decodes uint_in_ok decodes_compression decodes_storage decodes_mode : decode.
#[local] Hint Extern 1 (decodes _) => apply decodes_auth : decode.

Lemma decodes_write_cache w : readable (wcc_max_bytes w) → decodes w.
Proof.
  intros Hr. split; [|done]. unfold to_json at 1, write_cache_serialize, from_json at 1, write_cache_deserialize, Js.obj.
  decode_fields. by destruct w.
Qed.
Lemma decodes_write_buffer w : readable (wbc_max_bytes w) → decodes w.
Proof.
  intros Hr. split; [|done]. unfold to_json at 1, write_buffer_serialize, from_json at 1, write_buffer_deserialize, Js.obj.
  decode_fields. by destruct w.
Qed.
#[local] Hint Extern 1 (from_json (to_json (vc_write_cache _)) = Ok _) => apply decodes_write_cache : decode.
#[local] Hint Extern 1 (from_json (to_json (vc_write_buffer _)) = Ok _) => apply decodes_write_buffer : decode.
Lemma decodes_volume v : readable_volume v → decodes v.
Proof.
  intros [Hcap Hcs Hwc Hwb Hbs]. split; [|done].
  unfold to_json at 1, volume_serialize, from_json at 1, volume_deserialize, Js.obj.
  decode_fields. by destruct v.
Qed.
Lemma decodes_s3 (s : S3Config) : decodes s.
Proof.
  split; [|done]. unfold to_json at 1, s3_serialize, from_json at 1, s3_deserialize, Js.obj.
  decode_fields. by destruct s.
Qed.
Lemma decodes_cache c : readable (cac_max_bytes c) → decodes c.
Proof.
  intros Hr. split; [|done]. unfold to_json at 1, cache_serialize, from_json at 1, cache_deserialize, Js.obj.
  decode_fields. by destruct c.
Qed.
Lemma decodes_metrics (m : MetricsConfig) : decodes m.
Proof.
  split; [|done]. unfold to_json at 1, metrics_serialize, from_json at 1, metrics_deserialize, Js.obj.
  decode_fields. by destruct m.
Qed.
Lemma decodes_admin (a : AdminConfig) : decodes a.
Proof.
  split; [|done]. unfold to_json at 1, admin_serialize, from_json at 1, admin_deserialize, Js.obj.
  decode_fields. by destruct a.
Qed.

(** Encoding. A configuration whose sizes have readable texts decodes from
    its own encoding, field by field, in particular the built-in defaults. *)
Theorem config_roundtrip cfg :
  readable (cac_max_bytes (cfg_cache cfg)) → Forall readable_volume (cfg_volumes cfg) →
  from_json (to_json cfg) = Ok cfg.
Proof.
  intros Hc Hv. unfold to_json at 1, config_serialize, config_fields, from_json at 1, config_deserialize, Js.obj.
  pose proof (proj1 (decodes_s3 (cfg_s3 cfg))). pose proof (proj1 (decodes_cache (cfg_cache cfg) Hc)).
  pose proof (proj1 (decodes_metrics (cfg_metrics cfg))). pose proof (proj1 (decodes_admin (cfg_admin cfg))).
  assert (from_json (to_json (cfg_volumes cfg)) = Ok (cfg_volumes cfg)).
  { apply decodes_list. eapply Forall_impl; [exact Hv|]. intros v. apply decodes_volume. }
  decode_fields. by destruct cfg.
Qed.
End sizes.

(** ** What loading guarantees *)
Section loaded.
Context `{Figment} `{ByteSizeLaws} `{ByteSizeText}.

(** The numbers of a volume are in the ranges of their types. *)
Record ranged (v : VolumeConfig) : Prop := {
  rg_block : is_u32 (vc_block_size v);
  rg_chunk : is_u64 (vc_chunk_size v);
  rg_capacity : is_u64 (vc_capacity v);
  rg_cache : is_u64 (wcc_max_bytes (vc_write_cache v));
  rg_buffer : is_u64 (wbc_max_bytes (vc_write_buffer v))
}.

Lemma uint_in_range max v n : uint_in max v = Ok n → 0 ≤ n ≤ max.
Proof.
  unfold uint_in. destruct v as [| |m| | |]; try done.
  destruct (Z.leb_spec 0 m), (Z.leb_spec m max); simpl; try done. by intros [= <-].
Qed.
Lemma size_range v n : size_deserialize v = Ok n → is_u64 n.
Proof.
  unfold size_deserialize. destruct (uint_in u64_max v) as [m| | |] eqn:Hm.
  { intros [= <-]. by apply uint_in_range in Hm. }
  all: destruct v; try done; destruct (Conf.bytesize_parse _) eqn:Hb; try done; intros [= <-]; by eapply bytesize_u64.
Qed.
Lemma field_or_range {A} (P : A → Prop) (de : Value → outcome string A) d o key a :
  (∀ v a, de v = Ok a → P a) → P d → field_or de d o key = Ok a → P a.
Proof. intros Hde Hd. unfold field_or. case_match; [apply Hde|by intros [= <-]]. Qed.
Lemma field_range {A} (P : A → Prop) (de : Value → outcome string A) o key a :
  (∀ v a, de v = Ok a → P a) → field de o key = Ok a → P a.
Proof. intros Hde. unfold field. case_match; [apply Hde|done]. Qed.
Lemma write_cache_range v w : from_json v = Ok w → is_u64 (wcc_max_bytes w).
Proof.
  intros Hw. unfold from_json, write_cache_deserialize in Hw. decoded Hw.
  eapply (field_or_range is_u64); [apply size_range| |done]. done.
Qed.
Lemma write_buffer_range v w : from_json v = Ok w → is_u64 (wbc_max_bytes w).
Proof.
  intros Hw. unfold from_json, write_buffer_deserialize in Hw. decoded Hw.
  eapply (field_or_range is_u64); [apply size_range| |done]. done.
Qed.
Lemma volume_ranged v vol : from_json v = Ok vol → ranged vol.
Proof.
  intros Hv. unfold from_json at 1, volume_deserialize in Hv. decoded Hv. constructor; simpl.
  - eapply (field_or_range is_u32); [apply uint_in_range| |done]. done.
  - eapply (field_or_range is_u64); [apply size_range| |done]. done.
  - by eapply (field_range is_u64); [apply size_range|].
  - eapply (field_or_range (λ w, is_u64 (wcc_max_bytes w))); [apply write_cache_range| |done]. done.
  - eapply (field_or_range (λ w, is_u64 (wbc_max_bytes w))); [apply write_buffer_range| |done]. done.
Qed.

Lemma volumes_ranged v vols : from_json v = Ok vols → Forall ranged vols.
Proof.
  unfold from_json, list_deserialize. destruct v as [| | | |l|]; try done. revert vols.
  induction l as [|v l IH]; simpl; intros vols Hv; [by injection Hv as <-|].
  apply ConfSpec.bind_ok in Hv as (vol & Hvol & Hv). apply ConfSpec.bind_ok in Hv as (rest & Hrest & [= <-]).
  constructor; [by eapply volume_ranged|auto].
Qed.
Lemma cache_range v c : from_json v = Ok c → is_u64 (cac_max_bytes c).
Proof.
  intros Hc. unfold from_json, cache_deserialize in Hc. decoded Hc.
  eapply (field_or_range is_u64); [apply size_range| |done]. done.
Qed.
Lemma config_ranged v cfg :
  from_json v = Ok cfg → Forall ranged (cfg_volumes cfg) ∧ is_u64 (cac_max_bytes (cfg_cache cfg)).
Proof.
  intros Hv. unfold from_json at 1, config_deserialize in Hv. decoded Hv. split.
  - eapply (field_or_range (Forall ranged)); [apply volumes_ranged| |done]. by constructor.
  - eapply (field_or_range (λ c, is_u64 (cac_max_bytes c))); [apply cache_range| |done]. done.
Qed.

(** A loaded configuration is valid and its numbers fit their types. *)
Lemma loaded cli cfg :
  load cli = Ok cfg → Conf.validate cfg = Ok tt ∧ Forall ranged (cfg_volumes cfg) ∧ is_u64 (cac_max_bytes (cfg_cache cfg)).
Proof.
  unfold load. cbv zeta. intros Hl. apply ConfSpec.bind_ok in Hl as (c & Hx & Hl). apply ConfSpec.bind_ok in Hl as ([] & Hval & [= ->]).
  split; [done|]. unfold extract in Hx. destruct (_ ≫= _) as [c| | |] eqn:Hv in Hx; try done. injection Hx as ->.
  apply ConfSpec.bind_ok in Hv as (v & _ & Hv). by eapply config_ranged.
Qed.
End loaded.

(** ** Witnesses *)
Module Example.
(** Sizes are written in decimal; a file with one volume; the environment names
    another bucket and another secret. *)
Fixpoint deep_merge (x y : Value) : Value :=
  match x, y with
  | JObject a, JObject b => JObject (union_with (λ x y, Some (deep_merge x y)) a b)
  | _, _ => y
  end.
Definition file : Dict := list_to_map [
  ("bind", JString "10.0.0.1:3260");
  ("s3", Js.obj [("bucket", JString "from-file"); ("region", JString "eu-west-1")]);
  ("auth", Js.obj [("username", JString "user"); ("secret", JString "from-file")]);
  ("volumes", JArray [Js.obj [("name", JString "disk0"); ("iqn", JString "iqn.x:disk0");
     ("prefix", JString "disks/disk0"); ("capacity", JString "1048576")]])].
#[export] Instance decimal_sizes : Conf.ByteSize := λ s,
  match Conf.parse_uint u64_max s with Some n => inl n | None => inr "size" end.
#[export] Instance decimal_text : ByteSizeText := dec.
#[export] Instance small_figment : Figment := {|
  figment_merge := deep_merge;
  toml_file := λ path, if String.eqb path "a.toml" then inl file else inr "syntax";
  env_split := λ _ _, list_to_map [("s3", Js.obj [("bucket", JString "from-env")]);
                                   ("auth", Js.obj [("secret", JString "from-env")])] |}.
#[export] Instance small_figment_laws : FigmentLaws.
Proof. split; [done|]. by intros [] []. Qed.
#[export] Instance decimal_laws : ByteSizeLaws.
Proof.
  intros s n. unfold Conf.bytesize_parse, decimal_sizes.
  destruct (Conf.parse_uint u64_max s) as [m|] eqn:Hm; [|done]. intros [= <-].
  assert (Hd : ∀ s v r, 0 ≤ v ≤ u64_max → Conf.parse_dec u64_max v s = Some r → is_u64 r).
  { clear. induction s as [|c s IH]; simpl; intros v r Hv Hr; [by injection Hr as <-|].
    unfold Conf.dec_val in Hr. destruct ((_ <=? _) && _) eqn:Hc; [|done]. cbn [mbind option_bind] in Hr.
    case_match eqn:Hle; [|done]. apply Z.leb_le in Hle. apply andb_prop in Hc as [Hc%Z.leb_le _].
    eapply IH; [|exact Hr]. lia. }
  unfold Conf.parse_uint in Hm. destruct s as [|c s]; [done|]. case_match; [destruct s; [done|]|]; by eapply Hd.
Qed.

Definition cli : Cli :=
  {| cli_config := Some "a.toml"; cli_bind := None; cli_advertise := None; cli_bucket := None;
     cli_endpoint := Some "http://127.0.0.1:9000"; cli_region := None; cli_force_path_style := Some true;
     cli_log := "warn"; cli_metrics_bind := None; cli_no_metrics := true; cli_performance_optimiser := None |}.
Definition cfg : Config :=
  {| cfg_bind := "10.0.0.1:3260"; cfg_advertise := None; cfg_portals := []; cfg_instance := None;
     cfg_auth := Some {| as_username := Some "user"; as_secret := Some "from-env"; as_mutual_username := None;
                         as_mutual_secret := None; as_allowed_initiators := None |};
     cfg_s3 := {| s3_bucket := Some "from-env"; s3_region := "eu-west-1";
                  s3_endpoint := Some "http://127.0.0.1:9000"; s3_force_path_style := true;
                  s3_access_key_id := None; s3_secret_access_key := None |};
     cfg_cache := default_cache;
     cfg_metrics := {| mc_enabled := false; mc_bind := default_metrics_bind |};
     cfg_admin := default_admin; cfg_performance_optimiser := false;
     cfg_volumes := [{| vc_name := "disk0"; vc_iqn := "iqn.x:disk0"; vc_prefix := "disks/disk0";
       vc_capacity := 1048576; vc_block_size := 512; vc_chunk_size := DEFAULT_CHUNK_SIZE;
       vc_compression := CompNone; vc_storage := Legacy; vc_auth := None;
       vc_write_cache := default_write_cache; vc_write_buffer := default_write_buffer |}] |}.
Lemma cfg_loaded : load cli = Ok cfg.
Proof. vm_compute. reflexivity. Qed.
Lemma file_sections : sections file.
Proof. by repeat constructor. Qed.
Lemma env_sections : sections env_layer.
Proof. by repeat constructor. Qed.
End Example.

Section witnesses.
Import Example.
Lemma load_precedence_witness :
  load cli = Ok cfg ∧ Conf.validate cfg = Ok tt ∧
  Forall (λ s, setting s.1 (layers cli file) = Some s.2) (scalars cfg) ∧
  Forall (λ s, default JNull (setting ["auth"; s.1] (layers cli file)) = s.2) (auth_settings cfg) ∧
  (∃ v, setting ["cache"; "max_bytes"] (layers cli file) = Some v ∧
     size_deserialize v = Ok (cac_max_bytes (cfg_cache cfg))) ∧
  ∃ v, setting ["volumes"] (layers cli file) = Some v ∧ from_json v = Ok (cfg_volumes cfg).
Proof.
  split; [exact cfg_loaded|]. exact (load_precedence cli file cfg eq_refl file_sections env_sections eq_refl eq_refl cfg_loaded).
Defined.

Lemma reload_as_start_witness : load (bare "a.toml" "warn") = load_for_reload "a.toml".
Proof.
  apply reload_as_start; [|exact env_sections]. intros f [= <-]. exact file_sections.
Defined.

Lemma config_roundtrip_witness : from_json (to_json cfg) = Ok cfg.
Proof.
  apply config_roundtrip; [vm_compute; reflexivity|].
  repeat constructor; try (vm_compute; reflexivity); vm_compute; congruence.
Defined.
End witnesses.
End LoadTheorems.
