(* ===== verification/Volume.v ===== *)
(** * Opening a volume (src/src/volume.rs)

    [open_volume] builds the store stack of one volume from its configuration:
    the S3 chunk store, the shared chunk cache in front of it, and the
    write-back cache on top. *)
From S2P Require Import Prelude Tables Text Store Compression Snapshot S3Api S3Keys S3Store S3Spec S3Block.
From S2P Require Import S3Snap S3SnapSpec S3Open Cache CachedStore Ready WriteBuffer WriteCache WriteBack.
From S2P Require Import WriteBackSpec WriteBackWorker WriteBackOps WriteBackFlush WriteBackRecover.
From S2P Require Import Stack Config ConfigSpec.
#[local] Open Scope string_scope.
#[local] Open Scope list_scope.
#[local] Open Scope Z_scope.

Record OpenedVolume (B : Type) : Type := {
  ov_name : string;
  ov_iqn : string;
  ov_store : Stack.volume_store B
}.
Arguments ov_name {B} _.
Arguments ov_iqn {B} _.
Arguments ov_store {B} _.

Module Volume.
Section ops.
Context {B : Type} `{S3Client B} `{Codecs} `{Blake3} `{Json} `{StampJson}.

Definition store_config (vol : VolumeConfig) : S3StoreConfig :=
  {| sc_prefix := vc_prefix vol; sc_block_size := vc_block_size vol; sc_chunk_size := vc_chunk_size vol;
     sc_capacity := vc_capacity vol; sc_compression := vc_compression vol; sc_storage := vc_storage vol;
     sc_labels := {| vl_volume := vc_name vol; vl_iqn := vc_iqn vol |} |}.

(** [env] is the bucket and [cache] the shared chunk cache at the time of the
    call; [dir] gives the contents of a write-cache directory by its path. *)
Definition open_volume (cfg : Config) (vol : VolumeConfig) (env : Env B) (cache : CacheInner)
    (dir : string → Fs) (now : Z) (sched : list (list Event)) : outcome StoreError (OpenedVolume B) :=
  match s3_bucket (cfg_s3 cfg) with
  | None => Err (OtherError "s3.bucket required")
  | Some _ =>
      let '(r, s) := S3Snap.open (store_config vol) env in
      _ ← r;
      let cached := Cached.new s cache (vc_name vol) in
      let wc := vc_write_cache vol in
      store ← WC.wrap cached (wcc_mode wc) (dir <$> wcc_path wc) (wcc_max_bytes wc)
                (wbc_max_bytes (vc_write_buffer vol)) (vc_name vol) now sched;
      Ok {| ov_name := vc_name vol; ov_iqn := vc_iqn vol; ov_store := store |}
  end.
End ops.

(** ** A new write-back store with nothing to recover *)
Section wrap.
Context {S : Type} `{ReadyLaws S} `{StampJson}.
Import WC WCSpec WCFlush WCRecover.

Lemma evict_direct_none (s : Core S) :
  ds_used_bytes (wc_dirty s) = 0 → 0 ≤ wc_cache_max s → evict_direct s = (Ok tt, s).
Proof.
  intros Hd Hx. unfold evict_direct, mbind, M_bind, get. case_match; [done|].
  assert (Hone : ∀ n, evict_loop n s = (Ok tt, s)); [|apply Hone].
  intros n. destruct n; simpl; unfold evict_one, mbind, M_bind, get;
    rewrite Hd, (proj2 (Z.leb_le _ _)) by done; done.
Qed.

Lemma move_loop_none (s : Core S) n :
  ds_used_bytes (wc_dirty s) = 0 → 0 ≤ wc_cache_max s → wc_sched s = [] → move_loop n s = (Ok tt, s).
Proof.
  intros Hd Hx Hs. destruct n; simpl; unfold yield, move_one, mbind, M_bind, get; rewrite Hs; unfold mret, M_ret;
    rewrite Hd, (proj2 (Z.leb_le _ _)) by done; done.
Qed.

Lemma wrap_new (i : S) mode disk cache_max buffer_max volume now :
  mode ≠ WcDisk → 0 ≤ cache_max →
  wrap i mode disk cache_max buffer_max volume now [] =
    Ok (core_of i mode None Dirty.new cache_max buffer_max now []).
Proof.
  intros Hm Hx. set (s := core_of i mode None Dirty.new cache_max buffer_max now []).
  assert (He : evict_into_buffer s = (Ok tt, s)).
  { unfold evict_into_buffer, mbind, M_bind, get. destruct (wc_buffer s); [|by apply evict_direct_none].
    case_match; [done|]. by apply move_loop_none. }
  assert (Hd : evict_direct s = (Ok tt, s)) by (by apply evict_direct_none).
  unfold wrap. destruct mode; [..|done]; cbv beta iota delta [mbind outcome_bind fst snd]; cbv zeta;
    fold s; destruct (wc_buffer s); by rewrite ?He, ?Hd.
Qed.
End wrap.

(** ** The opened stack *)
Section spec.
Context {B : Type} `{S3Laws B} `{CodecLaws} `{Blake3Laws} `{JsonLaws} `{StampJson}.
Import S3Spec.

(** The data of a volume in the bucket: every chunk readable, nothing past the
    end, and chunk payloads of the configured compression can be written. *)
Record sound (self : S3ChunkStore) (env : Env B) : Prop := {
  so_ok : ok env;
  so_no_migration : objs env !! Keys.migrating_key self = None;
  so_chunks : chunks_ok self (objs env);
  so_tail : ∀ i, st_capacity self ≤ i → byte_view self (objs env) i = Byte.x00;
  so_encodes : S3Block.encodes self
}.

(** What opening a sound volume leaves behind: the configured handle over the
    same data, a store the other layers can work with, and a record in the
    bucket under which the volume opens again. *)
Record opened (cfg : S3StoreConfig) (env : Env B) (s : S3.state B) : Prop := {
  op_store : S3.s_store s = S3Snap.handle_of cfg;
  op_invariant : S3Block.s3_invariant s;
  op_ready : ready s;
  op_bytes i : byte_view (S3.s_store s) (S3Block.s_objs s) i = byte_view (S3Snap.handle_of cfg) (objs env) i;
  op_used `{Contents} : Stack.well_used (S3Snap.handle_of cfg) (objs env) → Stack.s3_used s;
  op_recorded : Open.recorded cfg (S3Block.s_objs s)
}.

Lemma opened_invariant cfg env s :
  geometry (S3Snap.handle_of cfg) → sound (S3Snap.handle_of cfg) env →
  S3Snap.open cfg env = (Ok tt, s) → opened cfg env s.
Proof.
  intros Hg [Hok Hmk Hch Htail Henc] Hrun.
  pose proof (Open.open_spec cfg env Hmk) as Hspec. unfold wp in Hspec.
  change (S3Snap.open_handle cfg _) with (S3Snap.open cfg env) in Hspec. rewrite Hrun in Hspec.
  destruct Hspec as (Hok' & Hst & Hom & Hrd & _ & Hm).
  pose proof (Open.only_meta_same _ _ _ Hom) as Hv.
  assert (Hbv : ∀ i, byte_view (S3.s_store s) (S3Block.s_objs s) i =
    byte_view (S3Snap.handle_of cfg) (objs env) i) by (intros i; rewrite Hst; by apply view_same_bytes).
  constructor; [done| | |done| |by eapply Open.opened_recorded].
  - constructor; rewrite ?Hst; [done| |].
    + intros j Hj. rewrite (Hv j Hj). by apply Hch.
    + intros i Hi. rewrite <- (Htail i Hi), <- Hbv. by rewrite Hst.
  - split; [by apply Hok'|]. by rewrite Hst.
  - intros C Hu. unfold Stack.s3_used. rewrite Hst. eapply Stack.view_same_used; [done| |done].
    intros h v Hh Hl. rewrite <- Hl. symmetry. apply (Open.only_meta_lookup _ _ _ _ Hom).
    apply not_eq_sym, (meta_key_not_chunk (S3Snap.handle_of cfg) 0 h).
Qed.

(** ** Restarting *)

(** The bucket of a volume whose store only moved chunk data since it was opened
    is sound again, opens again under the same configuration, and shows the data
    the store had. *)
Lemma reopened cfg env s s' :
  geometry (S3Snap.handle_of cfg) → opened cfg env s → Stack.s3_related s s' →
  S3Block.s3_invariant s' → ready s' →
  ∃ s2, S3Snap.open cfg (S3.s_env s') = (Ok tt, s2) ∧ opened cfg (S3.s_env s') s2 ∧
    Stack.s3_related s' s2.
Proof.
  intros Hg [Hst _ _ _ _ Hrec] [Hst' Hda] [_ Hch Htail] [Hok Henc].
  rewrite Hst', Hst in *.
  pose proof (Open.recorded_data_only _ _ _ Hda Hrec) as Hrec'.
  assert (Hso : sound (S3Snap.handle_of cfg) (S3.s_env s')).
  { constructor; [done|by destruct Hrec'|done|done|done]. }
  pose proof (Open.reopen_spec cfg (S3.s_env s') Hok Hrec') as Hwp. unfold wp in Hwp.
  change (S3Snap.open_handle cfg _) with (S3Snap.open cfg (S3.s_env s')) in Hwp.
  destruct (S3Snap.open cfg (S3.s_env s')) as [[[]|e| |] s2] eqn:Hrun; try done.
  destruct Hwp as (_ & Hst2 & Ho2).
  exists s2. split; [done|]. split; [by apply opened_invariant|].
  split; [congruence|]. change (S3Block.s_objs s') with (objs (S3.s_env s')). by rewrite Ho2.
Qed.
End spec.
End Volume.
