(* ===== verification/Restart.v ===== *)
(** * Restarting the daemon

    A volume of a validated configuration is opened (src/src/volume.rs), a
    client writes to it, and the daemon goes away and comes back over the same
    bucket and the same write-cache directory. [deployment] collects what
    validation and the integer types of the configuration give; [opens] is the
    stack [open_volume] builds; [reopens] that it can be built again from what a
    used stack left behind. *)
From S2P Require Import Prelude Tables Text Store Compression Snapshot S3Api S3Keys S3Store S3Spec S3Block.
From S2P Require Import S3Snap S3SnapSpec S3Open Cache CachedStore Ready WriteBuffer WriteCache WriteBack.
From S2P Require Import WriteBackSpec WriteBackWorker WriteBackOps WriteBackFlush WriteBackRecover.
From S2P Require Import Stack Config ConfigSpec Volume.
#[local] Open Scope string_scope.
#[local] Open Scope list_scope.
#[local] Open Scope Z_scope.

Module Restart.

(** ** Sequences of writes *)
Section writes.
Context {S : Type} `{ReadyLaws S}.
Implicit Types (s : S) (f : Z → byte) (ws : list (Z * bytes)).

(** A client's writes, one after the other. *)
Fixpoint write_each ws : M S StoreError unit :=
  match ws with
  | [] => mret tt
  | (off, data) :: ws => _ ← write_at off data; write_each ws
  end.

(** What a volume that showed [f] shows after the writes. *)
Fixpoint written f ws : Z → byte :=
  match ws with
  | [] => f
  | (off, data) :: ws => written (overwritten f off data) ws
  end.

(** Every write is inside [cap] bytes and leaves every chunk in [P]. *)
Fixpoint legal (P : bytes → Prop) cs cap f ws : Prop :=
  match ws with
  | [] => True
  | (off, data) :: ws =>
      0 ≤ off ∧ off + Zlen data ≤ cap ∧
      (∀ idx, is_u64 idx → P (chunk_at cs (overwritten f off data) idx)) ∧
      legal P cs cap (overwritten f off data) ws
  end.

Lemma written_ext f g ws :
  (∀ a, 0 ≤ a → f a = g a) → ∀ a, 0 ≤ a → written f ws a = written g ws a.
Proof.
  revert f g. induction ws as [|[off data] ws IH]; intros f g Hfg; simpl; [done|].
  apply IH. intros a Ha. unfold overwritten. case_decide; auto.
Qed.

Lemma legal_ext P cs cap f g ws :
  0 < cs → (∀ a, 0 ≤ a → f a = g a) → legal P cs cap f ws → legal P cs cap g ws.
Proof.
  intros Hcs. revert f g. induction ws as [|[off data] ws IH]; intros f g Hfg; simpl; [done|].
  assert (Ho : ∀ a, 0 ≤ a → overwritten f off data a = overwritten g off data a).
  { intros a Ha. unfold overwritten. case_decide; auto. }
  intros (Hoff & Hcap & Ha & Hws). split; [done|]. split; [done|]. split; [|by eapply IH].
  intros idx Hidx. rewrite <- (chunk_at_ext _ (overwritten f off data)); [by apply Ha|].
  intros a Hr. apply Ho. unfold is_u64 in Hidx. nia.
Qed.

Lemma write_each_spec s ws :
  usable s → legal (allowed S) (chunk_size s) (capacity s) (shown s) ws →
  wp (write_each ws) (λ _ s', usable s' ∧ same_sizes s s' ∧
    ∀ a, 0 ≤ a → shown s' a = written (shown s) ws a) (λ _ _, False) s.
Proof.
  revert s. induction ws as [|[off data] ws IH]; intros s Hu Hl; simpl; [by wp_step|].
  destruct Hl as (Hoff & Hcap & Ha & Hws). wp_step. eapply wp_mono; [by apply rs_write|..].
  2: { intros e s' [_ [Hbad _]]. lia. }
  intros [] s1 (Hu1 & Hs1 & _ & Hsh1). destruct (rs_geometry _ Hu) as (_ & Hcs & _).
  assert (Hl1 : legal (allowed S) (chunk_size s1) (capacity s1) (shown s1) ws).
  { rewrite (ss_chunk _ _ Hs1), (ss_cap _ _ Hs1). eapply legal_ext; [lia| |done]. intros a Hpos. by rewrite Hsh1. }
  eapply wp_mono; [by apply IH| |done]. intros _ s' (Hu' & Hs' & Hsh'). split; [done|]. split; [by etrans|].
  intros a Hpos. rewrite Hsh' by done. by apply written_ext.
Qed.
End writes.

(** ** Opening *)
Section restart.
Context {B : Type} `{S3Laws B} `{CodecLaws} `{Blake3Laws} `{JsonLaws} `{StampJson} `{Contents}.
Import Volume S3Spec.
Implicit Types (vol : VolumeConfig) (env : Env B) (cache : CacheInner).

(** A volume of a validated configuration, its numbers in the ranges of their
    types; a compressed chunk fits the codecs. *)
Record deployment (cfg : Config) vol : Prop := {
  dp_valid : Conf.validate cfg = Ok tt;
  dp_volume : vol ∈ cfg_volumes cfg;
  dp_block : is_u32 (vc_block_size vol);
  dp_chunk : is_u64 (vc_chunk_size vol);
  dp_capacity : is_u64 (vc_capacity vol);
  dp_budget : 0 ≤ wcc_max_bytes (vc_write_cache vol);
  dp_codec : vc_compression vol = CompNone ∨ vc_chunk_size vol < 2 ^ 32
}.

(** The place of a volume in the bucket. *)
Definition place vol : S3ChunkStore := S3Snap.handle_of (store_config vol).

(** A cache that holds nothing of the volume. *)
Definition cold cache vol : Prop :=
  Cache.accounted cache ∧ ∀ idx, Cache.cached cache (vc_name vol) idx = None.

Lemma deployment_geometry cfg vol :
  deployment cfg vol → geometry (place vol) ∧ (∃ b, s3_bucket (cfg_s3 cfg) = Some b) ∧
    (wbc_max_bytes (vc_write_buffer vol) ≤ 0 ∨ vc_chunk_size vol ≤ wbc_max_bytes (vc_write_buffer vol)).
Proof.
  intros [Hval Hin Hbs Hcs Hcap _ Hcomp]. apply ConfSpec.validate_ok in Hval.
  destruct (ConfSpec.cv_bucket _ Hval) as (b & Hb & _).
  pose proof (ConfSpec.cv_volumes _ Hval) as Hall. rewrite Forall_forall in Hall.
  destruct (Hall _ Hin) as [_ (k & Hk & Hbk) [Hcs0 _] _ _ _ Hbuf _].
  split; [|split; [by exists b|tauto]].
  unfold is_u64, is_u32 in *. constructor; simpl; [|lia|done|done]. assert (0 < 2 ^ k) by lia. lia.
Qed.

(** The store of the opened volume: its chunk store is [s]. *)
Lemma cached_new_usable vol env s cache :
  geometry (place vol) → opened (store_config vol) env s → Stack.well_used (place vol) (objs env) → cold cache vol →
  usable (Cached.new s cache (vc_name vol)).
Proof.
  intros Hg [Hst Hinv Hready _ Hused _] Hu [Hacc Hcold]. split; [|split; [by split|]].
  - constructor; [done|done|]. intros idx d Hd. simpl in Hd. by rewrite Hcold in Hd.
  - by apply Hused.
Qed.

Lemma opens cfg vol env cache dir now s :
  deployment cfg vol → wcc_mode (vc_write_cache vol) ≠ WcDisk →
  opened (store_config vol) env s → S3Snap.open (store_config vol) env = (Ok tt, s) →
  Stack.well_used (place vol) (objs env) → cold cache vol →
  ∃ ov, open_volume cfg vol env cache dir now [] = Ok ov ∧ usable (ov_store ov) ∧
    same_sizes (Cached.new s cache (vc_name vol)) (wc_inner (ov_store ov)) ∧
    ∀ a, shown (ov_store ov) a = byte_view (place vol) (objs env) a.
Proof.
  intros Hd Hmode Hop Hopen Hused Hcache. destruct (deployment_geometry _ _ Hd) as (Hg & [b Hb] & Hbuf).
  pose proof (cached_new_usable vol env s cache Hg Hop Hused Hcache) as Hu.
  unfold open_volume. rewrite Hb, Hopen. cbv beta iota delta [mbind outcome_bind]. cbv zeta.
  set (i := Cached.new s cache (vc_name vol)) in *. pose proof (dp_budget _ _ Hd) as Hx.
  rewrite wrap_new by done. eexists. split; [reflexivity|]. cbn [ov_store].
  assert (Hchunk : chunk_size i = vc_chunk_size vol)
    by (change (st_chunk_size (S3.s_store s) = vc_chunk_size vol); by rewrite (op_store _ _ _ Hop)).
  destruct (WCRecover.core_of_usable i (wcc_mode (vc_write_cache vol)) (wcc_max_bytes (vc_write_cache vol))
    (wbc_max_bytes (vc_write_buffer vol)) now) as [Hus Hsh]; [done|done|by rewrite Hchunk|].
  split; [exact Hus|]. split; [reflexivity|]. intros a. rewrite Hsh. apply (op_bytes _ _ _ Hop).
Qed.

(** The environment a running stack sees. *)
Definition bucket_of (st : Stack.volume_store B) : Env B := S3.s_env (cs_inner (wc_inner st)).

(** The chunk store under a used stack opens again. *)
Lemma reopens cfg vol env s st :
  deployment cfg vol → opened (store_config vol) env s → usable (wc_inner st) →
  Stack.s3_related s (cs_inner (wc_inner st)) →
  ∃ s2, S3Snap.open (store_config vol) (bucket_of st) = (Ok tt, s2) ∧
    opened (store_config vol) (bucket_of st) s2 ∧ Stack.s3_related (cs_inner (wc_inner st)) s2 ∧
    Stack.well_used (place vol) (objs (bucket_of st)) ∧
    ∀ a, byte_view (place vol) (objs (bucket_of st)) a = shown (wc_inner st) a.
Proof.
  intros Hd Hop Hu Hak. destruct (deployment_geometry _ _ Hd) as (Hg & _).
  destruct Hu as (Hinv & [Hready _] & Hsteady).
  assert (Hst : S3.s_store (cs_inner (wc_inner st)) = place vol)
    by (destruct Hak as [-> _]; apply (op_store _ _ _ Hop)).
  destruct (reopened (store_config vol) env s (cs_inner (wc_inner st)) Hg Hop Hak) as (s2 & Hrun & Hop2 & Hrel);
    [apply Hinv|done|].
  exists s2. split; [done|]. split; [done|]. split; [done|].
  change (Stack.s3_used (cs_inner (wc_inner st))) in Hsteady. unfold Stack.s3_used in Hsteady. rewrite Hst in Hsteady.
  split; [done|]. intros a. change (shown (wc_inner st) a) with
    (byte_view (S3.s_store (cs_inner (wc_inner st))) (objs (bucket_of st)) a). by rewrite Hst.
Qed.

Lemma write_then_flush (st : Stack.volume_store B) ws :
  usable st → legal contents (chunk_size st) (capacity st) (shown st) ws →
  wp (_ ← write_each ws; Store.flush)
    (λ _ st', usable st' ∧ same_sizes st st' ∧ ∀ a, 0 ≤ a → shown (wc_inner st') a = written (shown st) ws a)
    (λ _ _, False) st.
Proof.
  intros Hu Hl. wp_step. eapply wp_mono; [by apply write_each_spec| |done].
  intros _ st1 (Hu1 & Hs1 & Hsh1). eapply wp_mono; [by apply (WCFlush.flush_down st1)| |done].
  intros _ st2 ([Hu2 Hs2 _] & Hdown & _). split; [done|]. split; [by etrans|].
  intros a Ha. rewrite Hdown by done. by apply Hsh1.
Qed.

Lemma inner_sizes (st st' : Stack.volume_store B) : same_sizes st st' → same_sizes (wc_inner st) (wc_inner st').
Proof. intros []. by constructor. Qed.

Lemma opened_legal cfg vol env s cache ov ws :
  deployment cfg vol → opened (store_config vol) env s →
  same_sizes (Cached.new s cache (vc_name vol)) (wc_inner (ov_store ov)) →
  (∀ a, shown (ov_store ov) a = byte_view (place vol) (objs env) a) →
  legal contents (vc_chunk_size vol) (vc_capacity vol) (byte_view (place vol) (objs env)) ws →
  legal contents (chunk_size (ov_store ov)) (capacity (ov_store ov)) (shown (ov_store ov)) ws.
Proof.
  intros Hd Hop Hs Hsh Hl. destruct (deployment_geometry _ _ Hd) as (Hg & _).
  change (chunk_size (ov_store ov)) with (chunk_size (wc_inner (ov_store ov))).
  change (capacity (ov_store ov)) with (capacity (wc_inner (ov_store ov))).
  rewrite (ss_chunk _ _ Hs), (ss_cap _ _ Hs). cbn [chunk_size capacity].
  change (legal contents (st_chunk_size (S3.s_store s)) (st_capacity (S3.s_store s)) (shown (ov_store ov)) ws).
  rewrite (op_store _ _ _ Hop). 
  apply (legal_ext _ _ _ (byte_view (place vol) (objs env))); [|by intros a _; rewrite Hsh|exact Hl].
  apply (ge_chunk _ Hg).
Qed.
End restart.
End Restart.
