(* ===== verification/Crash.v ===== *)
(** * Crashes of a volume in disk mode

    A daemon opens a volume whose write-back cache is on disk, serves it, and
    dies: between two client operations or turns of the worker, inside a write,
    an eviction or a flush, between a chunk's write to the bucket and the removal
    of its file, or while a chunk file is replaced. Then another one opens what
    it left in the bucket and the directory, and so on. [history] is what can be left behind by such runs; [left_behind]
    is what it means that the volume can be recovered from it. *)
From S2P Require Import Prelude Tables Text Store Compression Snapshot S3Api S3Keys S3Store S3Spec S3Block.
From S2P Require Import S3Snap S3SnapSpec S3Open Cache CachedStore Ready WriteBuffer WriteCache WriteBack.
From S2P Require Import WriteBackSpec WriteBackWorker WriteBackOps WriteBackFlush WriteBackRecover.
From S2P Require Import Stack Config ConfigSpec Volume Restart.
#[local] Open Scope string_scope.
#[local] Open Scope list_scope.
#[local] Open Scope Z_scope.

Module Crash.
Import WC WCSpec WCOps WCFlush WCRecover Volume S3Spec Restart.

(** ** Using a volume *)
Inductive Step : Type :=
  | Write (off : Z) (data : bytes)
  | Read (off n : Z)
  | Flush
  | Beside (e : Event).   (* a turn of the worker, or time *)

Section steps.
Context {S : Type} `{ReadyLaws S}.
Implicit Types (s : Core S) (f : Z → byte).

Definition run_step (step : Step) : M (Core S) StoreError unit :=
  match step with
  | Write off data => write_at off data
  | Read off n => _ ← read_at off (zeros n); mret tt
  | Flush => Store.flush
  | Beside e => run_event e
  end.
Fixpoint run_steps (steps : list Step) : M (Core S) StoreError unit :=
  match steps with [] => mret tt | step :: steps => _ ← run_step step; run_steps steps end.

(** What a volume that showed [f] shows after a step. *)
Definition after_step f (step : Step) : Z → byte :=
  match step with Write off data => overwritten f off data | _ => f end.
Definition after f (steps : list Step) : Z → byte := foldl after_step f steps.

(** The step stays inside the [cap] bytes of the volume, and a write leaves
    every chunk in [P]. *)
Definition fits_in (P : bytes → Prop) cs cap f (step : Step) : Prop :=
  match step with
  | Write off data => 0 ≤ off ∧ off + Zlen data ≤ cap ∧
      ∀ idx, is_u64 idx → P (chunk_at cs (overwritten f off data) idx)
  | Read off n => 0 ≤ off ∧ 0 ≤ n ∧ off + n ≤ cap
  | _ => True
  end.
Fixpoint fine (P : bytes → Prop) cs cap f (steps : list Step) : Prop :=
  match steps with
  | [] => True
  | step :: steps => fits_in P cs cap f step ∧ fine P cs cap (after_step f step) steps
  end.

Lemma after_app f steps steps' : after f (steps ++ steps') = after (after f steps) steps'.
Proof. apply foldl_app. Qed.
Lemma fine_app P cs cap f steps steps' :
  fine P cs cap f (steps ++ steps') ↔ fine P cs cap f steps ∧ fine P cs cap (after f steps) steps'.
Proof. revert f. induction steps as [|step steps IH]; intros f; simpl; [tauto|]. rewrite IH. unfold after. simpl. tauto. Qed.

(** Where the daemon dies: between two steps; inside a write that had stored
    [data] when it was stopped, or in the eviction after it; inside a flush with
    [n] chunks done and, if [half], the next one written but not yet removed. *)
Inductive Death : Type :=
  | AtRest (r : Remnant)
  | InWrite (off : Z) (data : bytes) (late : list Late) (r : Remnant)
  | InFlush (n : nat) (half : bool).
Definition die (d : Death) : M (Core S) StoreError unit :=
  match d with
  | AtRest r => leave r
  | InWrite off data late r => write_stopped off data late r
  | InFlush n half => flush_stopped n half
  end.
(** The death as a step: what the stopped write had stored is there. *)
Definition last_step (d : Death) : list Step :=
  match d with InWrite off data _ _ => [Write off data] | _ => [] end.

(** A step in disk mode. *)
Lemma run_step_spec s f step :
  wc_ok s → idle s → (∀ a, 0 ≤ a → wc_shown s a = f a) →
  fits_in (allowed S) (chunk_size (wc_inner s)) (capacity (wc_inner s)) f step →
  wp (run_step step) (λ _ s', wc_ok s' ∧ framed s s' ∧ ∀ a, 0 ≤ a → wc_shown s' a = after_step f step a)
    (λ _ _, False) s.
Proof.
  intros Hwc Hidle Hsh Hfit. pose proof Hwc as [Hok _]. destruct (WCOps.geometry s Hwc) as [Hcs _].
  destruct step as [off data|off n| |e]; simpl in Hfit; cbn [run_step after_step].
  - destruct Hfit as (Hoff & Hin & Hall). destruct Hidle as (Hp & He & Hn).
    eapply wp_mono; [apply write_spec; [done|done|done|done|lia|]|..].
    + intros k Hk. rewrite (chunk_at_ext _ _ (overwritten f off data)); [by apply Hall|].
      intros a Ha. unfold overwritten. case_decide; [done|]. apply Hsh. unfold is_u64 in Hk. nia.
    + intros _ s' (Hwc' & Hfr & _ & Hsh' & _). split; [done|]. split; [done|]. intros a Ha.
      rewrite Hsh' by done. unfold overwritten. case_decide; [done|]. by apply Hsh.
    + intros e s' (_ & _ & [Hbad _]). lia.
  - destruct Hfit as (Hoff & Hn & Hin). wp_step. eapply wp_mono; [by apply read_spec|..].
    + intros buf s' (Hwc' & Hset & _). wp_step. split; [done|]. split; [by apply settled_framed|].
      intros a Ha. rewrite (st_shown _ _ Hset) by done. by apply Hsh.
    + intros e s' [_ [Hbad _]]. rewrite Zlen_zeros in Hbad by lia. lia.
  - eapply wp_mono; [by apply flush_all_spec| |done]. intros [] s' Hfl. pose proof Hfl as (Hwc' & Hfr & _).
    split; [done|]. split; [done|]. intros a Ha. rewrite (flushed_shown s s') by done. by apply Hsh.
  - eapply wp_mono; [by apply run_event_spec| |done]. intros _ s' [Hwc' Hset].
    split; [done|]. split; [by apply settled_framed|]. intros a Ha. rewrite (st_shown _ _ Hset) by done. by apply Hsh.
Qed.
End steps.

(** ** Leaving and coming back *)
Section crash.
Context {B : Type} `{S3Laws B} `{CodecLaws} `{Blake3Laws} `{JsonLaws} `{StampJsonLaws} `{Contents}.
Implicit Types (cfg : Config) (vol : VolumeConfig) (env : Env B) (cache : CacheInner) (f : Z → byte).
Implicit Types (st : Stack.volume_store B).

(** The cached store of the volume that was just opened. *)
Definition just_opened vol (s : S3.state B) cache : CachedStore (S3.state B) := Cached.new s cache (vc_name vol).

(** A volume that shows [f] can be opened over the bucket and the directory. *)
Definition left_behind vol env (fs : Fs) f : Prop :=
  Stack.well_used (place vol) (objs env) ∧
  ∃ s m fs1, S3Snap.open (store_config vol) env = (Ok tt, s) ∧ opened (store_config vol) env s ∧
    loads (vc_name vol) (vc_chunk_size vol) fs m fs1 ∧
    ∀ cache, (∀ k d, m !! k = Some d → fits (just_opened vol s cache) k d) ∧
      ∀ a, 0 ≤ a → overlay (m !!.) (just_opened vol s cache) a = f a.

(** A volume in disk mode that shows [f]: as opened over [env] and used since. *)
Record running vol env st f : Prop := {
  rn_ok : wc_ok st;
  rn_idle : idle st;
  rn_opened : ∃ s, opened (store_config vol) env s ∧ Stack.s3_related s (cs_inner (wc_inner st));
  rn_chunk : chunk_size (wc_inner st) = vc_chunk_size vol;
  rn_capacity : capacity (wc_inner st) = vc_capacity vol;
  rn_dir : ∃ fs, wc_disk st = Some fs ∧ stamped fs (vc_name vol) (vc_chunk_size vol) ∧ own_files (fs_files fs);
  rn_shown a : 0 ≤ a → wc_shown st a = f a
}.

Lemma dir_step vol st st' fs :
  same_dir (wc_disk st) (wc_disk st') → wc_disk st = Some fs →
  stamped fs (vc_name vol) (vc_chunk_size vol) → own_files (fs_files fs) →
  ∃ fs', wc_disk st' = Some fs' ∧ stamped fs' (vc_name vol) (vc_chunk_size vol) ∧ own_files (fs_files fs').
Proof.
  intros Hd Hfs Hst Hown. rewrite Hfs in Hd. destruct (wc_disk st') as [fs'|]; [|done].
  exists fs'. split; [done|]. split; [by eapply same_dir_stamped|by eapply same_dir_own].
Qed.

Lemma running_step vol env st f st' f' :
  running vol env st f → wc_ok st' → framed st st' → (∀ a, 0 ≤ a → wc_shown st' a = f' a) →
  running vol env st' f'.
Proof.
  intros [Hok Hidle (s & Hop & Hrel) Hcs Hcap (fs & Hfs & Hst & Hown) Hsh] Hok' Hfr Hsh'.
  pose proof (fr_sizes _ _ Hfr) as Hs. constructor; try done.
  - by eapply framed_idle.
  - exists s. split; [done|]. etrans; [done|]. exact (cr_inner _ _ (ss_akin _ _ Hs)).
  - by rewrite (ss_chunk _ _ Hs).
  - by rewrite (ss_cap _ _ Hs).
  - by eapply dir_step; [apply (fr_disk _ _ Hfr)|..].
Qed.

(** Steps that fit succeed. *)
Lemma steps_run vol env st f steps :
  running vol env st f → fine contents (vc_chunk_size vol) (vc_capacity vol) f steps →
  ∃ st', run_steps steps st = (Ok tt, st') ∧ running vol env st' (after f steps).
Proof.
  revert st f. induction steps as [|step steps IH]; intros st f Hr Hfine; [by exists st|].
  destruct Hfine as [Hfit Hfine].
  destruct (wp_ok _ _ _ (run_step_spec st f step (rn_ok _ _ _ _ Hr) (rn_idle _ _ _ _ Hr) (rn_shown _ _ _ _ Hr)
    ltac:(by rewrite (rn_chunk _ _ _ _ Hr), (rn_capacity _ _ _ _ Hr))))
    as ([] & st1 & Hrun & Hok1 & Hfr1 & Hsh1).
  destruct (IH st1 _ (running_step _ _ _ _ _ _ Hr Hok1 Hfr1 Hsh1) Hfine) as (st' & Hrun' & Hr').
  exists st'. split; [|done]. simpl. unfold mbind, M_bind. by rewrite Hrun.
Qed.

(** Opening what was left behind. *)
Lemma opens_disk cfg vol env fs f cache path dir now sched :
  deployment cfg vol → wcc_mode (vc_write_cache vol) = WcDisk → wcc_path (vc_write_cache vol) = Some path →
  left_behind vol env fs f → dir path = fs → cold cache vol →
  ∃ ov, open_volume cfg vol env cache dir now sched = Ok ov ∧ running vol env (ov_store ov) f ∧
    (sched = [] → usable (ov_store ov)).
Proof.
  intros Hd Hmode Hpath (Hused & s & m & fs1 & Hopen & Hop & Hld & Hall) Hdir Hcache.
  destruct (deployment_geometry _ _ Hd) as (Hg & [b Hb] & Hbuf). destruct (Hall cache) as [Hfit Hf].
  pose proof (cached_new_usable vol env s cache Hg Hop Hused Hcache) as Hu.
  unfold open_volume. rewrite Hb, Hopen. cbv beta iota delta [mbind outcome_bind]. cbv zeta.
  rewrite Hmode, Hpath. cbn [fmap option_fmap option_map]. rewrite Hdir.
  fold (just_opened vol s cache). set (i := just_opened vol s cache) in *.
  assert (Hcs : chunk_size i = vc_chunk_size vol)
    by (change (st_chunk_size (S3.s_store s) = vc_chunk_size vol); by rewrite (op_store _ _ _ Hop)).
  assert (Hcap : capacity i = vc_capacity vol)
    by (change (st_capacity (S3.s_store s) = vc_capacity vol); by rewrite (op_store _ _ _ Hop)).
  destruct (wrap_over i fs m fs1 (wcc_max_bytes (vc_write_cache vol)) (wbc_max_bytes (vc_write_buffer vol))
    (vc_name vol) now sched) as (st & Hw & Hwc & Hidle & _ & _ & Hsz & Hdk & Hsh & Hus);
    [by rewrite Hcs|done|done|apply Hd|by rewrite Hcs|].
  rewrite Hw. eexists. split; [reflexivity|]. split; [|exact Hus]. cbn [ov_store]. constructor; try done.
  - exists s. split; [done|]. exact (cr_inner _ _ (ss_akin _ _ Hsz)).
  - by rewrite (ss_chunk _ _ Hsz).
  - by rewrite (ss_cap _ _ Hsz).
  - destruct (wc_disk st) as [fs'|]; [|done]. exists fs'. split; [done|].
    split; [eapply same_dir_stamped, Hld; exact Hdk|eapply same_dir_own, Hld; exact Hdk].
  - intros a Ha. by rewrite Hsh, Hf.
Qed.

(** Dying leaves a recoverable volume. *)
Lemma stopped_left cfg vol env st f f0 st' m :
  deployment cfg vol → running vol env st f0 → recoverable f st' m →
  same_sizes (wc_inner st) (wc_inner st') → same_dir (wc_disk st) (wc_disk st') →
  ∃ fs', wc_disk st' = Some fs' ∧ left_behind vol (bucket_of st') fs' f.
Proof.
  intros Hd [Hok Hidle (s & Hop & Hrel) Hcs Hcap (fs & Hfs & Hst & Hown) Hsh] Hrc Hs Hdir.
  destruct (dir_step vol st st' fs Hdir Hfs Hst Hown) as (fs' & Hfs' & Hst' & Hown').
  exists fs'. split; [done|]. destruct (deployment_geometry _ _ Hd) as (Hg & _).
  assert (Hrel' : Stack.s3_related s (cs_inner (wc_inner st'))) by (etrans; [done|exact (cr_inner _ _ (ss_akin _ _ Hs))]).
  destruct (reopens cfg vol env s st') as (s2 & Hopen2 & Hop2 & [Hst2 Hda2] & Hused2 & Hb2);
    [done|done|apply Hrc|done|].
  set (c0 := Cache.new 0). assert (Hcold : cold c0 vol) by (split; [by apply Cache.new_accounted|done]).
  pose proof (cached_new_usable vol _ s2 c0 Hg Hop2 Hused2 Hcold) as Hu2.
  assert (Hcs2 : chunk_size (just_opened vol s2 c0) = vc_chunk_size vol)
    by (change (st_chunk_size (S3.s_store s2) = vc_chunk_size vol); by rewrite (op_store _ _ _ Hop2)).
  destruct (recoverable_loads f st' m fs' (just_opened vol s2 c0) (vc_name vol)) as (m' & Hld & Hfit & Hf);
    [done|done|by rewrite Hcs2|done|done| | | |].
  - change (st_chunk_size (S3.s_store s2) = st_chunk_size (S3.s_store (cs_inner (wc_inner st')))). by rewrite Hst2.
  - change (st_capacity (S3.s_store s2) = st_capacity (S3.s_store (cs_inner (wc_inner st')))). by rewrite Hst2.
  - intros a Ha. rewrite <- Hb2. apply (op_bytes _ _ _ Hop2).
  - split; [done|]. exists s2, m', fs'. split; [done|]. split; [done|]. rewrite Hcs2 in Hld. split; [done|].
    intros cache. split; [|exact Hf]. intros k d Hk. apply (fits_shape (just_opened vol s2 c0)); [done|done|by apply Hfit].
Qed.

Lemma recoverable_ext (f g : Z → byte) st m :
  (∀ a, 0 ≤ a → f a = g a) → recoverable f st m → recoverable g st m.
Proof. intros Hfg [? ? ? Hf]. constructor; [done..|]. intros a Ha. by rewrite Hf, Hfg. Qed.

Lemma die_spec vol env st f d :
  running vol env st f → fine contents (vc_chunk_size vol) (vc_capacity vol) f (last_step d) →
  wp (die d) (λ _ st', ∃ m, recoverable (after f (last_step d)) st' m ∧
    same_sizes (wc_inner st) (wc_inner st') ∧ same_dir (wc_disk st) (wc_disk st')) (λ _ _, False) st.
Proof.
  intros [Hok Hidle _ Hcs Hcap _ Hsh] Hfine. destruct d as [r|off data late r|n half]; simpl.
  - eapply wp_mono; [by apply leave_spec| |done]. intros _ st' (m & Hm & Hs). exists m. split; [|done].
    by apply (recoverable_ext (wc_shown st)).
  - destruct Hfine as [(Hoff & Hin & Hall) _]. apply (write_stopped_spec f); try done; by rewrite ?Hcap, ?Hcs.
  - eapply wp_mono; [by apply flush_stopped_spec| |done]. intros _ st' (m & Hm & Hs). exists m. split; [|done].
    by apply (recoverable_ext (wc_shown st)).
Qed.
Lemma dies_left cfg vol env st f d st' :
  deployment cfg vol → running vol env st f → fine contents (vc_chunk_size vol) (vc_capacity vol) f (last_step d) →
  die d st = (Ok tt, st') →
  ∃ fs', wc_disk st' = Some fs' ∧ left_behind vol (bucket_of st') fs' (after f (last_step d)).
Proof.
  intros Hd Hr Hfine Hrun. pose proof (die_spec vol env st f d Hr Hfine) as Hwp. unfold wp in Hwp.
  rewrite Hrun in Hwp. destruct Hwp as (m & Hm & Hs & Hdir). by apply (stopped_left cfg vol env st _ f st' m).
Qed.

(** Using a running volume and dying always ends. *)
Lemma uses_and_dies cfg vol env st f steps d :
  deployment cfg vol → running vol env st f →
  fine contents (vc_chunk_size vol) (vc_capacity vol) f (steps ++ last_step d) →
  ∃ st' fs', (_ ← run_steps steps; die d) st = (Ok tt, st') ∧ wc_disk st' = Some fs'.
Proof.
  intros Hd Hr [Hfine Hlast]%fine_app. destruct (steps_run vol env st f steps Hr Hfine) as (st1 & Hrun1 & Hr1).
  destruct (wp_ok _ _ _ (die_spec vol env st1 _ d Hr1 Hlast)) as ([] & st' & Hrun & _).
  destruct (dies_left cfg vol env st1 _ d st' Hd Hr1 Hlast Hrun) as (fs' & Hfs' & _).
  exists st', fs'. split; [|done]. unfold mbind, M_bind. by rewrite Hrun1.
Qed.

(** ** Histories

    What runs of the daemon can leave in the bucket and the directory, and the
    bytes the volume has then: a new volume in a directory that no cache has
    used; or, opened over what was left before, under any schedule of the
    worker, used by any steps, and dead. *)
Inductive history cfg vol : Env B → Fs → (Z → byte) → Prop :=
  | hi_new env fs s :
      sound (place vol) env → Stack.well_used (place vol) (objs env) →
      S3Snap.open (store_config vol) env = (Ok tt, s) → unused fs →
      history cfg vol env fs (byte_view (place vol) (objs env))
  | hi_run env fs f cache path dir now sched ov steps d st fs' :
      history cfg vol env fs f →
      wcc_path (vc_write_cache vol) = Some path → dir path = fs → cold cache vol →
      open_volume cfg vol env cache dir now sched = Ok ov →
      fine contents (vc_chunk_size vol) (vc_capacity vol) f (steps ++ last_step d) →
      (_ ← run_steps steps; die d) (ov_store ov) = (Ok tt, st) → wc_disk st = Some fs' →
      history cfg vol (bucket_of st) fs' (after f (steps ++ last_step d)).

Lemma new_left vol env fs s :
  geometry (place vol) → sound (place vol) env → Stack.well_used (place vol) (objs env) →
  S3Snap.open (store_config vol) env = (Ok tt, s) → unused fs →
  left_behind vol env fs (byte_view (place vol) (objs env)).
Proof.
  intros Hg Hsound Hused Hopen Hfs. pose proof (opened_invariant _ _ _ Hg Hsound Hopen) as Hop.
  destruct (unused_loads (vc_name vol) (vc_chunk_size vol) fs Hfs) as [fs1 Hld].
  split; [done|]. exists s, ∅, fs1. split; [done|]. split; [done|]. split; [done|].
  intros cache. split; [intros k d Hk; by rewrite lookup_empty in Hk|]. intros a Ha. unfold overlay.
  rewrite lookup_empty. apply (op_bytes _ _ _ Hop).
Qed.

Lemma history_left cfg vol env fs f :
  deployment cfg vol → wcc_mode (vc_write_cache vol) = WcDisk → history cfg vol env fs f →
  left_behind vol env fs f.
Proof.
  intros Hd Hmode. destruct (deployment_geometry _ _ Hd) as (Hg & _).
  induction 1 as [env fs s Hsound Hused Hopen Hfs|env fs f cache path dir now sched ov steps d st fs' _ IH
    Hpath Hdir Hcache Hopen Hfine Hrun Hfs']; [by eapply new_left|].
  destruct (opens_disk cfg vol env fs f cache path dir now sched) as (ov' & Hopen' & Hr & _); try done.
  rewrite Hopen in Hopen'. injection Hopen' as <-.
  apply fine_app in Hfine as [Hfine Hlast]. rewrite after_app.
  destruct (steps_run vol env (ov_store ov) f steps Hr Hfine) as (st1 & Hrun1 & Hr1).
  unfold mbind, M_bind in Hrun. rewrite Hrun1 in Hrun.
  destruct (dies_left cfg vol env st1 _ d st Hd Hr1 Hlast Hrun) as (fs2 & Hfs2 & Hleft). congruence.
Qed.
End crash.
End Crash.
