(* ===== verification/ConfigTheorems.v ===== *)
(** * Properties of the configuration and of opening volumes *)
From S2P Require Import Prelude Tables Text Store Compression Snapshot S3Api S3Keys S3Store S3Spec S3Block.
From S2P Require Import S3Snap S3SnapSpec S3Open Concrete Cache CachedStore Ready WriteBuffer WriteCache WriteBack.
From S2P Require Import WriteBackSpec WriteBackWorker WriteBackOps WriteBackFlush WriteBackRecover.
From S2P Require Import Stack Config ConfigSpec Volume Restart Crash S3Theorems WriteBackTheorems.
#[local] Open Scope string_scope.
#[local] Open Scope list_scope.
#[local] Open Scope Z_scope.

Module ConfigTheorems.
Import Conf ConfSpec Volume.

(** C20: Validation. [Config::validate] accepts exactly the configurations that
    have a bucket and at least one volume, whose volumes have pairwise distinct
    names, IQNs, prefixes and cache directories, and each of whose volumes has a
    power-of-two block size, a chunk size and a capacity that are positive
    multiples of it, consistent CHAP settings, and cache and buffer budgets
    that are off or hold at least one chunk. *)
Theorem validate_iff cfg : validate cfg = Ok tt ↔ valid cfg.
Proof. apply validate_ok. Qed.

(** What the administrator set. A field comes from the volume's [auth] section
    when that section has it, else from the global one. *)
Definition set_by {A} (f : AuthSettings → option A) (g v : option AuthSettings) : option A :=
  match v with
  | Some vs => match f vs with Some x => Some x | None => gs ← g; f gs end
  | None => gs ← g; f gs
  end.
(** A user name or a secret counts without the white space around it, and not
    at all when there is nothing else. *)
Definition effective (f : AuthSettings → option string) (g v : option AuthSettings) : option string :=
  s ← set_by f g v;
  if decide (trim s = "") then None else Some (trim s).
Definition resolved (c : AuthConfig) (acl : option (list string)) (mode : AuthMode) (user : option string)
    : ResolvedAuth :=
  {| ra_config := c; ra_allowed_initiators := acl; ra_mode := mode; ra_username := user |}.

(** Merging keeps what was set, field by field. *)
Lemma merge_set_by {A} (f : AuthSettings → option A) g v :
  (∀ x y : AuthSettings, f {| as_username := or_else (as_username x) (as_username y);
      as_secret := or_else (as_secret x) (as_secret y);
      as_mutual_username := or_else (as_mutual_username x) (as_mutual_username y);
      as_mutual_secret := or_else (as_mutual_secret x) (as_mutual_secret y);
      as_allowed_initiators := or_else (as_allowed_initiators x) (as_allowed_initiators y) |}
     = or_else (f x) (f y)) →
  (m ← merge_auth_settings g v; f m) = set_by f g v.
Proof.
  intros Hf. destruct g as [g|], v as [v|]; simpl; try done; [|by destruct (f v)].
  rewrite Hf. by destruct (f v).
Qed.
Lemma non_empty_effective s : non_empty s = (s ← s; if decide (trim s = "") then None else Some (trim s)).
Proof. destruct s as [s|]; [|done]. unfold non_empty. simpl. destruct (trim s) eqn:E; by case_decide. Qed.
Lemma merge_effective f g v m :
  merge_auth_settings g v = Some m →
  (m ← merge_auth_settings g v; f m) = set_by f g v → non_empty (f m) = effective f g v.
Proof. intros -> Hf. simpl in Hf. unfold effective. by rewrite <- Hf, non_empty_effective. Qed.

(** C31: CHAP is never dropped. What a volume demands of its initiators is
    decided by what was set for it, the volume's own settings before the global
    ones: without user name and secret and without the mutual ones, no
    authentication; with user name and secret alone, CHAP with exactly these;
    with all four, mutual CHAP with exactly these; every other combination is
    refused. The list of allowed initiators is kept in all cases. *)
Theorem chap_never_dropped g v :
  let acl := set_by as_allowed_initiators g v in
  match effective as_username g v, effective as_secret g v,
        effective as_mutual_username g v, effective as_mutual_secret g v with
  | None, None, None, None => resolve_auth g v = Ok (resolved AcNone acl AuthNone None)
  | Some u, Some s, None, None =>
      resolve_auth g v = Ok (resolved (AcChap {| cc_username := u; cc_secret := s |}) acl AuthChap (Some u))
  | Some u, Some s, Some mu, Some ms =>
      resolve_auth g v = Ok (resolved (AcMutualChap {| cc_username := u; cc_secret := s |}
        {| cc_username := mu; cc_secret := ms |}) acl AuthMutualChap (Some u))
  | _, _, _, _ => ∃ e, resolve_auth g v = Err e
  end.
Proof.
  cbv zeta. rewrite <- (merge_set_by as_allowed_initiators) by done. unfold resolve_auth.
  destruct (merge_auth_settings g v) as [m|] eqn:Hm.
  - rewrite <- !(merge_effective _ g v m Hm) by (by apply merge_set_by). simpl.
    repeat case_match; simplify_eq; eauto.
  - destruct g, v; done.
Qed.

Section opened.
Context {B : Type} `{S3Laws B} `{CodecLaws} `{Blake3Laws} `{JsonLaws} `{StampJson} `{Contents}.
Import S3Spec Restart.
Implicit Types (env : Env B) (cache : CacheInner).

(** A validated volume serves its data. Opening a volume of a validated
    configuration, legacy or content-addressed, write-back cache off or in
    memory, over a sound bucket, once the metadata was accepted, yields a
    working store of the configured capacity that shows exactly the bytes in the
    bucket. On a content-addressed volume the hash must tell apart the chunk
    contents the volume is used with. *)
Theorem open_volume_serves cfg vol env cache dir now s :
  deployment cfg vol → wcc_mode (vc_write_cache vol) ≠ WcDisk →
  sound (place vol) env → Stack.well_used (place vol) (objs env) →
  S3Snap.open (store_config vol) env = (Ok tt, s) → cold cache vol →
  ∃ ov, open_volume cfg vol env cache dir now [] = Ok ov ∧ usable (ov_store ov) ∧
    capacity (ov_store ov) = vc_capacity vol ∧
    ∀ a, shown (ov_store ov) a = byte_view (place vol) (objs env) a.
Proof.
  intros Hd Hmode Hsound Hused Hopen Hcache. destruct (deployment_geometry _ _ Hd) as (Hg & _).
  pose proof (opened_invariant _ _ _ Hg Hsound Hopen) as Hop.
  destruct (opens cfg vol env cache dir now s) as (ov & Hov & Hu & Hs & Hsh); try done.
  exists ov. split; [done|]. split; [done|]. split; [|done].
  trans (st_capacity (S3.s_store s)); [exact (ss_cap _ _ Hs)|]. by rewrite (op_store _ _ _ Hop).
Qed.

(** C14: Flushed writes survive a restart. Open a volume, let a client write to
    it and flush; then a daemon that opens the same configuration over the
    bucket this leaves, with new caches, succeeds, and its volume shows exactly
    the old bytes with the writes applied in order. *)
Theorem flush_survives_restart cfg vol env cache dir now s ws cache' dir' now' :
  deployment cfg vol → wcc_mode (vc_write_cache vol) ≠ WcDisk →
  sound (place vol) env → Stack.well_used (place vol) (objs env) →
  S3Snap.open (store_config vol) env = (Ok tt, s) → cold cache vol → cold cache' vol →
  legal contents (vc_chunk_size vol) (vc_capacity vol) (byte_view (place vol) (objs env)) ws →
  ∃ ov st ov', open_volume cfg vol env cache dir now [] = Ok ov ∧
    (_ ← write_each ws; Store.flush) (ov_store ov) = (Ok tt, st) ∧
    open_volume cfg vol (bucket_of st) cache' dir' now' [] = Ok ov' ∧
    usable (ov_store ov') ∧ capacity (ov_store ov') = vc_capacity vol ∧
    ∀ a, 0 ≤ a → shown (ov_store ov') a = written (byte_view (place vol) (objs env)) ws a.
Proof.
  intros Hd Hmode Hsound Hused Hopen Hcache Hcache' Hlegal. destruct (deployment_geometry _ _ Hd) as (Hg & _).
  pose proof (opened_invariant _ _ _ Hg Hsound Hopen) as Hop.
  destruct (opens cfg vol env cache dir now s) as (ov & Hov & Hu & Hs & Hsh); try done.
  destruct (wp_ok _ _ _ (write_then_flush (ov_store ov) ws Hu
    (opened_legal cfg vol env s cache ov ws Hd Hop Hs Hsh Hlegal))) as ([] & st & Hrun & Hu' & Hs' & Hdown).
  assert (Hs2 : same_sizes (Cached.new s cache (vc_name vol)) (wc_inner st)) by (etrans; [exact Hs|by apply inner_sizes]).
  destruct (reopens cfg vol env s st) as (s2 & Hopen2 & Hop2 & _ & Hused2 & Hb2);
    [done|done|by apply WCFlush.usable_inner|exact (cr_inner _ _ (ss_akin _ _ Hs2))|].
  destruct (opens cfg vol (bucket_of st) cache' dir' now' s2) as (ov' & Hov' & Hu2 & Hs3 & Hsh2); try done.
  exists ov, st, ov'. split; [done|]. split; [done|]. split; [done|]. split; [done|]. split.
  - trans (st_capacity (S3.s_store s2)); [exact (ss_cap _ _ Hs3)|]. by rewrite (op_store _ _ _ Hop2).
  - intros a Ha. rewrite Hsh2, Hb2, Hdown by done. by apply written_ext.
Qed.

End opened.

(** ** Witnesses *)
Section witnesses.
Import Concrete S3Theorems WriteBackTheorems Restart.
#[local] Existing Instances stamp_json stamp_json_laws.
(** Chunks are 4 bytes long; the digest is injective on them. *)
#[local] Instance four_bytes : Contents := λ c, Zlen c = 4.

Definition small_volume (wc : WriteCacheConfig) (name iqn prefix : string) : VolumeConfig :=
  {| vc_name := name; vc_iqn := iqn; vc_prefix := prefix; vc_capacity := 16; vc_block_size := 2;
     vc_chunk_size := 4; vc_compression := CompNone; vc_storage := Cow; vc_auth := None;
     vc_write_cache := wc; vc_write_buffer := {| wbc_max_bytes := 4 |} |}.
Definition in_memory : WriteCacheConfig := {| wcc_mode := WcMemory; wcc_path := None; wcc_max_bytes := 4 |}.
Definition on_disk : WriteCacheConfig := {| wcc_mode := WcDisk; wcc_path := Some "d"; wcc_max_bytes := 4 |}.
Definition config_of (vols : list VolumeConfig) : Config :=
  {| cfg_bind := "0.0.0.0:3260"; cfg_advertise := None; cfg_portals := []; cfg_instance := None;
     cfg_auth := None;
     cfg_s3 := {| s3_bucket := Some "b"; s3_region := "us-east-1"; s3_endpoint := None;
                  s3_force_path_style := false; s3_access_key_id := None;
                  s3_secret_access_key := None |};
     cfg_cache := {| cac_max_bytes := 64 |};
     cfg_metrics := {| mc_enabled := true; mc_bind := "0.0.0.0:9090" |};
     cfg_admin := {| adc_enabled := true; adc_socket := Conf.DEFAULT_ADMIN_SOCKET |};
     cfg_performance_optimiser := false; cfg_volumes := vols |}.
Definition vol : VolumeConfig := small_volume in_memory "vol" "iqn" "/v/".
Definition chap : AuthSettings :=
  {| as_username := Some "user"; as_secret := Some "secret"; as_mutual_username := None;
     as_mutual_secret := None; as_allowed_initiators := Some ["iqn.client"] |}.

(** The volume's secret wins over the global one, the global user name stays. *)
Lemma chap_never_dropped_witness :
  resolve_auth (Some chap) (Some {| as_username := None; as_secret := Some " own "; as_mutual_username := Some " ";
    as_mutual_secret := None; as_allowed_initiators := None |}) =
  Ok (resolved (AcChap {| cc_username := "user"; cc_secret := "own" |}) (Some ["iqn.client"]) AuthChap (Some "user")).
Proof.
  exact (chap_never_dropped (Some chap) (Some {| as_username := None; as_secret := Some " own ";
    as_mutual_username := Some " "; as_mutual_secret := None; as_allowed_initiators := None |})).
Defined.

Lemma small_deployment wc :
  wc = in_memory ∨ wc = on_disk →
  let v := small_volume wc "vol" "iqn" "/v/" in deployment (config_of [v]) v.
Proof.
  intros Hwc. constructor; simpl; [destruct Hwc as [->| ->]; vm_compute; reflexivity|left|..];
    [split; vm_compute; congruence..|destruct Hwc as [->| ->]; vm_compute; congruence|by left].
Qed.

Lemma vol_sound wc : sound (place (small_volume wc "vol" "iqn" "/v/")) fresh_env.
Proof.
  destruct (fresh_invariant Cow) as [_ Hch Htail]. destruct (fresh_ready Cow) as [Hok Henc].
  constructor; [exact Hok|apply lookup_empty|exact Hch|exact Htail|exact Henc].
Qed.

Lemma vol_used wc : Stack.well_used (place (small_volume wc "vol" "iqn" "/v/")) (S3Spec.objs fresh_env).
Proof.
  constructor; [done|intros idx _; by apply Zlen_chunk_at|].
  change (S3Spec.objs fresh_env) with (∅ : object_map).
  intros _ c p Hc [= <-]. split; [intros _ b et Hl; by rewrite lookup_empty in Hl|].
  intros c' p' Hc' [= <-] Heq. by apply digest_inj.
Qed.

Lemma new_cold wc : cold (Cache.new 64) (small_volume wc "vol" "iqn" "/v/").
Proof. split; [by apply Cache.new_accounted|done]. Qed.

Definition no_dir : string → Fs := λ _, {| fs_dir := ""; fs_files := ∅; fs_faults := [] |}.
Definition first_open : S3.state MemS3.bucket := (S3Snap.open (store_config vol) fresh_env).2.

Lemma open_volume_serves_witness :
  ∃ ov, open_volume (config_of [vol]) vol fresh_env (Cache.new 64) no_dir 0 [] = Ok ov ∧
    usable (ov_store ov) ∧ capacity (ov_store ov) = 16 ∧
    ∀ a, shown (ov_store ov) a = S3Spec.byte_view (place vol) (S3Spec.objs fresh_env) a.
Proof.
  refine (open_volume_serves (config_of [vol]) vol fresh_env (Cache.new 64) no_dir 0 first_open
    _ _ (vol_sound in_memory) (vol_used in_memory) _ (new_cold in_memory)).
  - apply small_deployment. by left.
  - discriminate.
  - vm_compute. reflexivity.
Defined.

Definition two_writes : list (Z * bytes) := [(3, payload 6); (0, payload 4)].

Lemma flush_survives_restart_witness :
  ∃ ov st ov', open_volume (config_of [vol]) vol fresh_env (Cache.new 64) no_dir 0 [] = Ok ov ∧
    (_ ← write_each two_writes; Store.flush) (ov_store ov) = (Ok tt, st) ∧
    open_volume (config_of [vol]) vol (bucket_of st) (Cache.new 64) no_dir 9 [] = Ok ov' ∧
    usable (ov_store ov') ∧ capacity (ov_store ov') = 16 ∧
    ∀ a, 0 ≤ a → shown (ov_store ov') a =
      written (S3Spec.byte_view (place vol) (S3Spec.objs fresh_env)) two_writes a.
Proof.
  refine (flush_survives_restart (config_of [vol]) vol fresh_env (Cache.new 64) no_dir 0 first_open two_writes
    (Cache.new 64) no_dir 9 _ _ (vol_sound in_memory) (vol_used in_memory) _
    (new_cold in_memory) (new_cold in_memory) _).
  - apply small_deployment. by left.
  - discriminate.
  - vm_compute. reflexivity.
  - split; [lia|]. split; [vm_compute; congruence|]. split; [intros; by apply Zlen_chunk_at|].
    split; [lia|]. split; [vm_compute; congruence|]. split; [intros; by apply Zlen_chunk_at|done].
Defined.




(** ** Observed flaw *)

(** Prefixes are compared as written but used without their outer slashes: two
    validated volumes share one place in the bucket. *)
Theorem prefixes_may_coincide :
  let a := small_volume in_memory "a" "iqn.a" "p" in
  let b := small_volume in_memory "b" "iqn.b" "/p/" in
  validate (config_of [a; b]) = Ok tt ∧
  st_prefix (S3Snap.handle_of (store_config a)) = st_prefix (S3Snap.handle_of (store_config b)).
Proof. vm_compute. done. Qed.
End witnesses.
End ConfigTheorems.
