(* ===== verification/Portals.v ===== *)
(** * Portal addresses (src/src/main.rs)

    How the daemon turns the configured [portals] and [advertise] into the
    addresses announced by SendTargets: [looks_like_host_port],
    [split_host_port], [format_host_port], [resolve_advertise] and
    [resolve_portals]. *)
From S2P Require Import Prelude Text Config.
#[local] Open Scope string_scope.
#[local] Open Scope list_scope.
#[local] Open Scope Z_scope.
Import Text.

Module Portals.
Definition colon : Ascii.ascii := Ascii.ascii_of_nat 58.
Definition u16_max : Z := 65535.

(** [s.rsplit_once(c)]: at the last [c]. *)
Fixpoint rsplit_once (c : Ascii.ascii) (s : string) : option (string * string) :=
  match s with
  | "" => None
  | String d s =>
      match rsplit_once c s with
      | Some (a, b) => Some (String d a, b)
      | None => if Ascii.eqb c d then Some ("", s) else None
      end
  end.

(** [s.split_once(p)]: at the first [p]. *)
Fixpoint split_once (p s : string) : option (string * string) :=
  match strip_prefix p s with
  | Some r => Some ("", r)
  | None =>
      match s with
      | "" => None
      | String d s => match split_once p s with Some (a, b) => Some (String d a, b) | None => None end
      end
  end.

Definition looks_like_host_port (s : string) : bool :=
  match strip_prefix "[" s with
  | Some rest => contains "]:" rest
  | None =>
      match rsplit_once colon s with
      | Some (_, port) => match Conf.parse_uint u16_max port with Some _ => true | None => false end
      | None => false
      end
  end.

Definition split_host_port (addr : string) : outcome string (string * Z) :=
  match strip_prefix "[" addr with
  | Some rest =>
      match split_once "]:" rest with
      | None => Err ("invalid address: " +:+ addr)
      | Some (host, port_part) =>
          match Conf.parse_uint u16_max port_part with
          | None => Err ("invalid port in address: " +:+ addr)
          | Some port => Ok ("[" +:+ host +:+ "]", port)
          end
      end
  | None =>
      match rsplit_once colon addr with
      | None => Err ("invalid address: " +:+ addr)
      | Some (host, port_s) =>
          match Conf.parse_uint u16_max port_s with
          | None => Err ("invalid port in address: " +:+ addr)
          | Some port => Ok (host, port)
          end
      end
  end.

Definition format_host_port (host : string) (port : Z) : string :=
  if contains ":" host && negb (starts_with "[" host)
  then "[" +:+ host +:+ "]:" +:+ dec port
  else host +:+ ":" +:+ dec port.

Definition resolve_advertise (advertise bind : string) : outcome string string :=
  if looks_like_host_port advertise then Ok advertise
  else '(_, port) ← split_host_port bind; Ok (format_host_port advertise port).

(** [iter().map(..).collect::<Result<Vec<_>, _>>()] *)
Fixpoint resolve_all (ps : list string) (bind : string) : outcome string (list string) :=
  match ps with
  | [] => Ok []
  | p :: ps => r ← resolve_advertise p bind; rs ← resolve_all ps bind; Ok (r :: rs)
  end.

Definition resolve_portals (cfg : Config) : outcome string (list string) :=
  match cfg_portals cfg, cfg_advertise cfg with
  | [], Some adv => r ← resolve_advertise adv (cfg_bind cfg); Ok [r]
  | [], None => Ok []
  | ps, _ => resolve_all ps (cfg_bind cfg)
  end.

(** ** Splitting and joining *)
Lemma rsplit_once_none c s : has_char c s = false → rsplit_once c s = None.
Proof.
  unfold has_char. induction s as [|d s IH]; cbn [contains rsplit_once]; [done|].
  rewrite orb_false_iff. unfold starts_with. simpl.
  destruct (Ascii.eqb c d); [by intros [? _]|]. intros [_ ->%IH]. done.
Qed.

Lemma rsplit_once_app c h t :
  has_char c t = false → rsplit_once c (h +:+ String c t) = Some (h, t).
Proof.
  intros Ht. induction h as [|d h IH].
  - change ("" +:+ String c t) with (String c t). cbn [rsplit_once].
    by rewrite rsplit_once_none, Ascii.eqb_refl.
  - change (String d h +:+ String c t) with (String d (h +:+ String c t)). cbn [rsplit_once].
    by rewrite IH.
Qed.

Lemma rsplit_once_some c s a b : rsplit_once c s = Some (a, b) → s = a +:+ String c b.
Proof.
  revert a. induction s as [|d s IH]; intros a; cbn [rsplit_once]; [done|].
  destruct (rsplit_once c s) as [[a' b']|].
  - intros [= <- <-]. by rewrite (IH a').
  - destruct (Ascii.eqb_spec c d) as [->|]; [|done]. by intros [= <- <-].
Qed.

Lemma split_once_bracket h t :
  contains "]:" h = false → split_once "]:" (h +:+ "]:" +:+ t) = Some (h, t).
Proof.
  induction h as [|d h IH]; [done|].
  change (String d h +:+ "]:" +:+ t) with (String d (h +:+ "]:" +:+ t)).
  cbn [contains]. rewrite orb_false_iff. intros [Hp Hh]. unfold split_once; fold split_once.
  rewrite (IH Hh). destruct (strip_prefix "]:" (String d (h +:+ "]:" +:+ t))) eqn:Hs; [|done].
  exfalso. revert Hs Hp. unfold starts_with. cbn [strip_prefix].
  destruct (Ascii.eqb _ d); [|done]. destruct h as [|e h]; [done|].
  change (String e h +:+ "]:" +:+ t) with (String e (h +:+ "]:" +:+ t)).
  cbn [strip_prefix]. by destruct (Ascii.eqb _ e).
Qed.

Lemma contains_app_l p s t : contains p (s +:+ t) = false → contains p s = false.
Proof.
  induction s as [|d s IH]; cbn [contains].
  - change ("" +:+ t) with t. destruct p as [|e p]; [|done]. by destruct t.
  - change (String d s +:+ t) with (String d (s +:+ t)). cbn [contains].
    rewrite !orb_false_iff. intros [Hs ?%IH]. split; [|done].
    destruct (starts_with p (String d s)) eqn:Hp; [|done].
    apply starts_with_inv in Hp as [r Hr].
    change (String d (s +:+ t)) with (String d s +:+ t) in Hs.
    rewrite Hr, <- str_app_assoc, starts_with_app in Hs. done.
Qed.

Lemma contains_app_r p s t : contains p t = true → contains p (s +:+ t) = true.
Proof.
  intros Ht. induction s as [|d s IH]; [done|].
  change (String d s +:+ t) with (String d (s +:+ t)). cbn [contains]. by rewrite IH, orb_true_r.
Qed.

(** ** Decimal port numbers *)
Lemma dec_val_char n : (n < 10)%N → Conf.dec_val (pretty_N_char n) = Some (Z.of_N n).
Proof.
  intros Hn. assert (n = 0 ∨ n = 1 ∨ n = 2 ∨ n = 3 ∨ n = 4 ∨ n = 5 ∨ n = 6 ∨ n = 7 ∨ n = 8 ∨ n = 9)%N
    as Hc by lia.
  by repeat destruct Hc as [->|Hc]; subst.
Qed.

Lemma parse_dec_go max x s :
  Z.of_N x ≤ max → Conf.parse_dec max 0 (pretty_N_go x s) = Conf.parse_dec max (Z.of_N x) s.
Proof.
  revert s. induction (N.lt_wf_0 x) as [x _ IH]; intros s Hx.
  destruct (decide (x = 0)%N) as [->|Hne]; [by rewrite pretty_N_go_0|].
  pose proof (N.div_mod x 10 ltac:(lia)). pose proof (N.mod_lt x 10 ltac:(lia)).
  assert (x `div` 10 < x)%N by (apply N.div_lt; lia).
  rewrite pretty_N_go_step, IH by lia.
  cbn [Conf.parse_dec]. rewrite dec_val_char by done. simpl.
  replace (Z.of_N (x `div` 10) * 10 + Z.of_N (x `mod` 10)) with (Z.of_N x) by lia.
  by rewrite (proj2 (Z.leb_le _ max)).
Qed.

(** The digits of a number contain no other character. *)
Definition is_digit (c : Ascii.ascii) : bool :=
  match Conf.dec_val c with Some _ => true | None => false end.

Lemma digits_go x s : all_chars is_digit s = true → all_chars is_digit (pretty_N_go x s) = true.
Proof.
  revert s. induction (N.lt_wf_0 x) as [x _ IH]; intros s Hs.
  destruct (decide (x = 0)%N) as [->|Hne]; [by rewrite pretty_N_go_0|].
  rewrite pretty_N_go_step by lia. apply IH; [apply N.div_lt; lia|]. cbn [all_chars].
  unfold is_digit at 1. rewrite dec_val_char by (apply N.mod_lt; lia). done.
Qed.

Lemma dec_digits n : 0 ≤ n → all_chars is_digit (dec n) = true.
Proof. destruct n as [|p|]; [done| |lia]. intros _. exact (digits_go (N.pos p) "" eq_refl). Qed.

Lemma parse_uint_dec max n : 0 ≤ n ≤ max → Conf.parse_uint max (dec n) = Some n.
Proof.
  intros Hn. assert (Hp : Conf.parse_dec max 0 (dec n) = Some n).
  { destruct n as [|p|]; [by change (Conf.parse_dec max 0 (dec 0)) with (if 0 <=? max then Some 0 else None);
      rewrite (proj2 (Z.leb_le 0 max)) by lia| |lia].
    exact (parse_dec_go max (N.pos p) "" ltac:(simpl; lia)). }
  assert (Hne : dec n ≠ "").
  { destruct n as [|p|]; [done| |lia]. intros Heq.
    change (dec (Z.pos p)) with (pretty_N_go (N.pos p) "") in *. rewrite Heq in Hp. simpl in Hp. naive_solver lia. }
  pose proof (dec_digits n ltac:(lia)) as Hd. unfold Conf.parse_uint.
  destruct (dec n) as [|c s]; [done|]. cbn [all_chars] in Hd.
  destruct (Ascii.eqb_spec c (Ascii.ascii_of_nat 43)) as [->|]; [done|exact Hp].
Qed.

Lemma dec_no_colon n : 0 ≤ n → has_char colon (dec n) = false.
Proof.
  intros Hn. apply has_char_false. eapply all_chars_impl; [|by apply dec_digits].
  intros c Hc. destruct (Ascii.eqb_spec colon c) as [<-|]; [|done]. done.
Qed.

Lemma parse_dec_bounds max v s r :
  0 ≤ v ≤ max → Conf.parse_dec max v s = Some r → 0 ≤ r ≤ max.
Proof.
  revert v. induction s as [|c s IH]; intros v Hv; cbn [Conf.parse_dec]; [by intros [= <-]|].
  unfold Conf.dec_val. destruct (_ && _) eqn:Hc; simpl; [|done].
  apply andb_true_iff in Hc as [?%Z.leb_le ?%Z.leb_le].
  destruct (Z.leb_spec (v * 10 + (Z.of_N (Ascii.N_of_ascii c) - 48)) max); [|done].
  apply IH. lia.
Qed.

Lemma parse_uint_bounds max s r : 0 ≤ max → Conf.parse_uint max s = Some r → 0 ≤ r ≤ max.
Proof.
  unfold Conf.parse_uint. intros Hm. repeat case_match; try done; by apply parse_dec_bounds.
Qed.

Lemma split_port_bounds addr host port :
  split_host_port addr = Ok (host, port) → 0 ≤ port ≤ u16_max.
Proof.
  unfold split_host_port. repeat case_match; intros; simplify_eq;
    (eapply parse_uint_bounds; [|done]); done.
Qed.

(** ** Hosts

    A host as one writes it: no port of its own, and brackets, if any, closed. *)
Definition host_ok (host : string) : Prop :=
  contains "]:" host = false ∧ (starts_with "[" host = true → ends_with "]" host = true).

Definition in_brackets (host : string) : string :=
  if contains ":" host && negb (starts_with "[" host) then "[" +:+ host +:+ "]" else host.

(** Joining a host and a port and splitting again. *)
Lemma split_format host port :
  host_ok host → 0 ≤ port ≤ u16_max →
  split_host_port (format_host_port host port) = Ok (in_brackets host, port).
Proof.
  intros [Hc Hb] Hp. unfold format_host_port, in_brackets.
  destruct (starts_with "[" host) eqn:Hs.
  - rewrite andb_false_r. apply starts_with_inv in Hs as [rest ->].
    specialize (Hb eq_refl). apply ends_with_inv in Hb as [h Hh].
    destruct h as [|d h]; [discriminate|].
    injection Hh as <- Hr. change ("" +:+ rest) with rest in Hr. subst rest.
    unfold split_host_port. rewrite <- str_app_assoc, strip_prefix_app, <- str_app_assoc.
    change ("]" +:+ ":" +:+ dec port) with ("]:" +:+ dec port).
    rewrite split_once_bracket, parse_uint_dec; [done|done|].
    apply orb_false_iff in Hc as [_ Hc]. exact (contains_app_l _ h "]" Hc).
  - rewrite andb_true_r. destruct (contains ":" host) eqn:Hcol.
    + unfold split_host_port. rewrite strip_prefix_app, split_once_bracket, parse_uint_dec; done.
    + assert (Hn : strip_prefix "[" (host +:+ ":" +:+ dec port) = None).
      { destruct host as [|d h]; [done|]. revert Hs. unfold starts_with. clear.
        change (String d h +:+ ":" +:+ dec port) with (String d (h +:+ ":" +:+ dec port)).
        cbn [strip_prefix]. by destruct (Ascii.eqb _ d). }
      unfold split_host_port. rewrite Hn.
      change (":" +:+ dec port) with (String colon (dec port)).
      rewrite rsplit_once_app, parse_uint_dec; [done|done|]. apply dec_no_colon. lia.
Qed.

(** The portal announced for a host. An [advertise] value that already
    reads as host and port is announced as it is, whatever [bind] is. A host on
    its own is announced with the port of [bind], in brackets when it holds a
    colon: splitting the result gives back the host and that port. It is
    refused exactly when the port of [bind] cannot be read, with that error. *)
Theorem advertise_resolves adv bind :
  looks_like_host_port adv = true ∨ host_ok adv →
  match resolve_advertise adv bind with
  | Ok r => (looks_like_host_port adv = true ∧ r = adv) ∨
            ∃ host port, looks_like_host_port adv = false ∧ split_host_port bind = Ok (host, port) ∧
              0 ≤ port ≤ u16_max ∧ split_host_port r = Ok (in_brackets adv, port)
  | Err e => looks_like_host_port adv = false ∧ split_host_port bind = Err e
  | _ => False
  end.
Proof.
  intros Hok. unfold resolve_advertise. destruct (looks_like_host_port adv); [by left|].
  destruct Hok as [?|Hok]; [done|].
  unfold mbind, outcome_bind. destruct (split_host_port bind) as [[host port]|e| |] eqn:Hb; [|done|..].
  - right. pose proof (split_port_bounds _ _ _ Hb). exists host, port. eauto using split_format.
  - revert Hb. unfold split_host_port. by repeat case_match.
  - revert Hb. unfold split_host_port. by repeat case_match.
Qed.

Lemma advertise_resolves_witness :
  host_ok "fe80::abcd" ∧
  resolve_advertise "fe80::abcd" "[::]:3261" = Ok "[fe80::abcd]:3261" ∧
  ((looks_like_host_port "fe80::abcd" = true ∧ "[fe80::abcd]:3261" = "fe80::abcd") ∨
   ∃ host port, looks_like_host_port "fe80::abcd" = false ∧ split_host_port "[::]:3261" = Ok (host, port) ∧
     0 ≤ port ≤ u16_max ∧ split_host_port "[fe80::abcd]:3261" = Ok (in_brackets "fe80::abcd", port)).
Proof.
  assert (Hok : host_ok "fe80::abcd") by (split; [reflexivity|discriminate]).
  split; [exact Hok|]. split; [reflexivity|].
  exact (advertise_resolves "fe80::abcd" "[::]:3261" (or_intror Hok)).
Defined.

(** An IPv6 host whose last group is decimal reads as host and port, and is
    announced without a port. *)
Example ipv6_host_read_as_port :
  resolve_advertise "fe80::1" "[::]:3260" = Ok "fe80::1" ∧
  format_host_port "fe80::1" 3260 = "[fe80::1]:3260".
Proof. split; reflexivity. Qed.

(** ** What the announced addresses have in common *)
Lemma format_has_colon host port : contains ":" (format_host_port host port) = true.
Proof.
  unfold format_host_port. destruct (_ && _).
  - by apply contains_app_r, contains_app_r.
  - by apply contains_app_r.
Qed.

Lemma resolved_has_colon adv bind r : resolve_advertise adv bind = Ok r → contains ":" r = true.
Proof.
  unfold resolve_advertise, looks_like_host_port. destruct (strip_prefix "[" adv) as [rest|] eqn:Hs.
  - destruct (contains "]:" rest) eqn:Hc.
    + intros [= <-]. rewrite (strip_prefix_Some _ _ _ Hs). apply contains_app_r.
      clear -Hc. induction rest as [|d rest IH]; [done|]. cbn [contains] in *.
      apply orb_true_iff in Hc as [Hp|Hc]; [|by rewrite (IH Hc), orb_true_r].
      apply starts_with_inv in Hp as [t Ht]. injection Ht as -> ->. by rewrite orb_true_r.
    + unfold mbind, outcome_bind. destruct (split_host_port bind) as [[h p]| | |]; try done.
      intros [= <-]. apply format_has_colon.
  - destruct (rsplit_once colon adv) as [[a b]|] eqn:Hr;
      [destruct (Conf.parse_uint u16_max b)|]; unfold mbind, outcome_bind.
    { intros [= <-]. rewrite (rsplit_once_some _ _ _ _ Hr). by apply contains_app_r. }
    all: destruct (split_host_port bind) as [[h p]| | |]; try done;
      intros [= <-]; apply format_has_colon.
Qed.
End Portals.
