(* ===== verification/Float.v ===== *)
(** * IEEE 754 double precision, as the metrics use it

    [f64] is the Standard Library's executable specification of binary64
    arithmetic. Decimal literals are correctly rounded quotients of integers,
    which is what the compiler stores for them. *)
From Stdlib Require Import SpecFloat.
From S2P Require Import Prelude.
#[local] Open Scope Z_scope.

Definition f64 : Type := spec_float.
(** [Duration]: whole seconds and nanoseconds. *)
Record Duration : Type := { du_secs : Z; du_nanos : Z }.

Module F64.
Definition prec : Z := 53.
Definition emax : Z := 1024.

(** [x as f64] of an unsigned integer. *)
Definition of_u64 (z : Z) : f64 := binary_normalize prec emax z 0 false.
Definition add : f64 → f64 → f64 := SFadd prec emax.
Definition sub : f64 → f64 → f64 := SFsub prec emax.
Definition mul : f64 → f64 → f64 := SFmul prec emax.
Definition div : f64 → f64 → f64 := SFdiv prec emax.
Definition ltb : f64 → f64 → bool := SFltb.
Definition leb : f64 → f64 → bool := SFleb.
(** The literal [n / d]. *)
Definition lit (n d : Z) : f64 := div (of_u64 n) (of_u64 d).
Definition zero : f64 := of_u64 0.

(** [x.round().max(0.0) as u64]: half away from zero, at least 0 ([max] ignores
    NaN), saturating. *)
Definition round_u64 (x : f64) : Z :=
  match x with
  | S754_finite false m e =>
      Z.min u64_max (if 0 <=? e then Zpos m * 2 ^ e else (2 * Zpos m + 2 ^ (- e)) / 2 ^ (1 - e))
  | S754_infinity false => u64_max
  | _ => 0
  end.

(** [Duration::as_secs_f64] *)
Definition as_secs_f64 (d : Duration) : f64 :=
  add (of_u64 (du_secs d)) (div (of_u64 (du_nanos d)) (of_u64 1000000000)).

Lemma round_u64_range x : is_u64 (round_u64 x).
Proof.
  destruct x as [|[]| |[] m e]; unfold round_u64, is_u64, u64_max; try lia.
  assert (0 ≤ if 0 <=? e then Zpos m * 2 ^ e else (2 * Zpos m + 2 ^ (- e)) / 2 ^ (1 - e)); [|lia].
  destruct (Z.leb_spec 0 e).
  - pose proof (Z.pow_nonneg 2 e). lia.
  - apply Z.div_pos; [pose proof (Z.pow_nonneg 2 (- e)); lia|]. apply Z.pow_pos_nonneg; lia.
Qed.

(** ** Numbers are totally ordered *)
Definition number (x : f64) : Prop := x ≠ S754_nan.

Definition key (x : f64) : Z * Z * Z :=
  match x with
  | S754_nan | S754_zero _ => (0, 0, 0)
  | S754_infinity s => (if s then -2 else 2, 0, 0)
  | S754_finite false m e => (1, e, Zpos m)
  | S754_finite true m e => (-1, - e, - Zpos m)
  end.
Definition lex_le (p q : Z * Z * Z) : Prop :=
  p.1.1 < q.1.1 ∨ p.1.1 = q.1.1 ∧ (p.1.2 < q.1.2 ∨ p.1.2 = q.1.2 ∧ p.2 ≤ q.2).

Lemma leb_key x y : number x → number y → leb x y = true ↔ lex_le (key x) (key y).
Proof.
  unfold number, leb, SFleb, lex_le. intros Hx Hy.
  destruct x as [sx|[]| |[] mx ex]; destruct y as [sy|[]| |[] my ey]; try done; simpl; try lia.
  - destruct (Z.compare_spec ex ey); simpl; try lia.
    change (Pos.compare_cont Eq mx my) with (mx ?= my)%positive.
    destruct (Pos.compare_spec mx my); simpl; lia.
  - destruct (Z.compare_spec ex ey); simpl; try lia.
    change (Pos.compare_cont Eq mx my) with (mx ?= my)%positive.
    destruct (Pos.compare_spec mx my); simpl; lia.
Qed.

Lemma leb_refl x : number x → leb x x = true.
Proof. intros Hx. apply leb_key; [done..|]. unfold lex_le. lia. Qed.
Lemma leb_trans x y z : number x → number y → number z → leb x y = true → leb y z = true → leb x z = true.
Proof. intros Hx Hy Hz. rewrite !leb_key by done. unfold lex_le. lia. Qed.
Lemma leb_total x y : number x → number y → leb x y = false → leb y x = true.
Proof.
  intros Hx Hy Hn. apply leb_key; [done..|]. apply not_true_iff_false in Hn. rewrite leb_key in Hn by done.
  unfold lex_le in *. lia.
Qed.
Lemma leb_not_ltb x y : leb x y = true → ltb y x = false.
Proof.
  unfold leb, ltb, SFleb, SFltb.
  destruct x as [sx|[]| |[] mx ex]; destruct y as [sy|[]| |[] my ey]; simpl; try done;
    rewrite (Z.compare_antisym ex ey); destruct (Z.compare ex ey); simpl; try done;
    change (Pos.compare_cont Eq my mx) with (my ?= mx)%positive;
    change (Pos.compare_cont Eq mx my) with (mx ?= my)%positive;
    rewrite (Pos.compare_antisym mx my); by destruct (mx ?= my)%positive.
Qed.
Lemma not_ltb_leb x y : number x → number y → ltb x y = false → leb y x = true.
Proof.
  intros Hx Hy Hlt. destruct (leb x y) eqn:Hle; [|by apply leb_total].
  revert Hlt Hle. unfold leb, ltb, SFleb, SFltb.
  destruct x as [sx|[]| |[] mx ex]; destruct y as [sy|[]| |[] my ey]; simpl; try done;
    rewrite (Z.compare_antisym ex ey); destruct (Z.compare ex ey); simpl; try done;
    change (Pos.compare_cont Eq my mx) with (my ?= mx)%positive;
    change (Pos.compare_cont Eq mx my) with (mx ?= my)%positive;
    rewrite (Pos.compare_antisym mx my); by destruct (mx ?= my)%positive.
Qed.
Lemma number_or_nan x : x = S754_nan ∨ number x.
Proof. unfold number. destruct x; auto. Qed.

(** ** Conversions and quotients are numbers *)
Lemma shr_1_nonneg r : 0 ≤ shr_m r → 0 ≤ shr_m (shr_1 r).
Proof. destruct r as [[|[p|p|]|p] [] []]; simpl; lia. Qed.

Lemma iter_pos_nonneg p r : 0 ≤ shr_m r → 0 ≤ shr_m (SpecFloat.iter_pos shr_1 p r).
Proof.
  revert r. induction p as [p IH|p IH|]; intros r Hr; simpl; [|by apply IH, IH|by apply shr_1_nonneg].
  by apply IH, IH, shr_1_nonneg.
Qed.

Lemma shr_fexp_nonneg m e l : 0 ≤ m → 0 ≤ shr_m (shr_fexp prec emax m e l).1.
Proof.
  intros Hm. unfold shr_fexp, shr. assert (Hr : 0 ≤ shr_m (shr_record_of_loc m l)) by (by destruct l as [|[]]).
  case_match; simpl; [done|by apply iter_pos_nonneg|done].
Qed.

Lemma round_aux_number s m e l : 0 ≤ m → number (binary_round_aux prec emax s m e l).
Proof.
  intros Hm. unfold binary_round_aux, number.
  pose proof (shr_fexp_nonneg m e l Hm) as H1. destruct (shr_fexp prec emax m e l) as [r1 e1]. simpl in H1.
  set (m2 := round_nearest_even _ _).
  assert (H2 : 0 ≤ m2).
  { unfold m2, round_nearest_even. destruct (loc_of_shr_record r1) as [|[]]; try case_match; lia. }
  pose proof (shr_fexp_nonneg m2 e1 loc_Exact H2) as H3. destruct (shr_fexp prec emax m2 e1 loc_Exact) as [r2 e2].
  simpl in H3. destruct (shr_m r2); [done| |lia]. by case_match.
Qed.

Lemma of_u64_number z : number (of_u64 z).
Proof.
  unfold of_u64, binary_normalize. destruct z; [done|..]; unfold binary_round;
    destruct (shl_align _ _ _); by apply round_aux_number.
Qed.

Lemma div_number x s m e : number x → number (div x (S754_finite s m e)).
Proof.
  intros Hx. destruct x as [| | |sx mx ex]; try done. unfold div, SFdiv.
  destruct (SFdiv_core_binary prec emax (Zpos mx) ex (Zpos m) e) as [[q e'] l] eqn:Hd.
  apply round_aux_number. unfold SFdiv_core_binary in Hd.
  match type of Hd with context [Z.div_eucl ?a ?b] =>
    assert (Ha : 0 ≤ a); [|pose proof (Z.div_pos a b Ha ltac:(lia)) as Hq; unfold Z.div in Hq;
      destruct (Z.div_eucl a b)] end; [|by simplify_eq].
  match goal with |- 0 ≤ match ?z with _ => _ end => destruct z eqn:? end; [lia|by apply Z.shiftl_nonneg|lia].
Qed.
End F64.
