(* ===== verification/Metrics.v ===== *)
(** * Metrics (src/src/metrics.rs)

    The process-wide series, the operations that feed them, the latency
    accumulators the bottleneck analyser reads, and the scrape endpoint. The
    prometheus crate is an interface, [Prometheus]: vectors of integer or
    histogram series by label values, and a registry that refuses a name it
    already has. Looking a series up with the wrong number of label values
    panics, as the crate documents. Concurrent updates are taken one at a time. *)
From S2P Require Import Prelude Text Store S3Keys Float.
#[local] Open Scope string_scope.
#[local] Open Scope list_scope.
#[local] Open Scope Z_scope.

(** ** The prometheus crate *)
Inductive VecKind : Type := KCounter | KGauge | KHistogram (buckets : list f64).

Class Prometheus : Type := {
  Vec : Type;
  Registry : Type;
  vec_new : VecKind → string → string → list string → outcome string Vec;
  vec_name : Vec → string;
  vec_labels : Vec → list string;
  vec_value : Vec → list string → Z;
  vec_add : list string → Z → Vec → Vec;
  vec_set : list string → Z → Vec → Vec;
  vec_observe : list string → f64 → Vec → Vec;
  registry_new : Registry;
  registered : Registry → list string;
  register : Vec → Registry → outcome string Registry;
  text_encode : list Vec → bytes + string
}.

(** The syntax of metric names and of label names (the crate allows a colon in
    metric names only). *)
Definition name_char (first colon : bool) (c : Ascii.ascii) : bool :=
  let n := Z.of_N (Ascii.N_of_ascii c) in
  (65 <=? n) && (n <=? 90) || (97 <=? n) && (n <=? 122) || (n =? 95) || colon && (n =? 58)
  || negb first && (48 <=? n) && (n <=? 57).
Definition name_ok (colon : bool) (s : string) : bool :=
  match s with
  | EmptyString => false
  | String c s => name_char true colon c && forallb (name_char false colon) (String.list_ascii_of_string s)
  end.

(** Values stay exact below 2^63. *)
Class PrometheusLaws `{Prometheus} : Prop := {
  vec_new_ok k name help labels :
    name_ok true name = true → help ≠ "" → forallb (name_ok false) labels = true → NoDup labels →
    ∃ v, vec_new k name help labels = Ok v;
  vec_new_name k name help labels v : vec_new k name help labels = Ok v → vec_name v = name;
  vec_new_labels k name help labels v : vec_new k name help labels = Ok v → vec_labels v = labels;
  vec_add_name l n v : vec_name (vec_add l n v) = vec_name v;
  vec_set_name l n v : vec_name (vec_set l n v) = vec_name v;
  vec_observe_name l x v : vec_name (vec_observe l x v) = vec_name v;
  vec_add_labels l n v : vec_labels (vec_add l n v) = vec_labels v;
  vec_set_labels l n v : vec_labels (vec_set l n v) = vec_labels v;
  vec_observe_labels l x v : vec_labels (vec_observe l x v) = vec_labels v;
  vec_add_value l n v : Z.abs (vec_value v l + n) < 2 ^ 63 → vec_value (vec_add l n v) l = vec_value v l + n;
  vec_add_other l l' n v : l ≠ l' → vec_value (vec_add l n v) l' = vec_value v l';
  vec_set_value l n v : vec_value (vec_set l n v) l = n;
  vec_set_other l l' n v : l ≠ l' → vec_value (vec_set l n v) l' = vec_value v l';
  registry_new_empty : registered registry_new = [];
  register_ok v r : vec_name v ∉ registered r →
    ∃ r', register v r = Ok r' ∧ registered r' = registered r ++ [vec_name v]
}.

(** ** Latency accumulators *)
Record LatencyAccum : Type := { la_count : Z; la_sum_us : Z }.
Record PerfCounters : Type := {
  pc_scsi_read : LatencyAccum;
  pc_scsi_write : LatencyAccum;
  pc_scsi_flush : LatencyAccum;
  pc_s3_get : LatencyAccum;
  pc_s3_put : LatencyAccum;
  pc_cache_hits : Z;
  pc_cache_misses : Z
}.

Module Latency.
Definition fresh : LatencyAccum := {| la_count := 0; la_sum_us := 0 |}.
Definition avg_secs (l : LatencyAccum) : f64 :=
  if la_count l =? 0 then F64.zero
  else F64.div (F64.div (F64.of_u64 (la_sum_us l)) (F64.of_u64 (la_count l))) (F64.of_u64 1000000).
Definition total_secs (l : LatencyAccum) : f64 := F64.div (F64.of_u64 (la_sum_us l)) (F64.of_u64 1000000).
Definition saturating_delta (l earlier : LatencyAccum) : LatencyAccum :=
  {| la_count := saturating_sub (la_count l) (la_count earlier);
     la_sum_us := saturating_sub (la_sum_us l) (la_sum_us earlier) |}.
Definition micros (elapsed_secs : f64) : Z := F64.round_u64 (F64.mul elapsed_secs (F64.of_u64 1000000)).
(** [AtomicLatency::record]; [fetch_add] wraps around. *)
Definition record (elapsed_secs : f64) (l : LatencyAccum) : LatencyAccum :=
  {| la_count := wrapping_add64 (la_count l) 1;
     la_sum_us := wrapping_add64 (la_sum_us l) (micros elapsed_secs) |}.
End Latency.

Module Counters.
Definition zeroed : PerfCounters :=
  {| pc_scsi_read := Latency.fresh; pc_scsi_write := Latency.fresh; pc_scsi_flush := Latency.fresh;
     pc_s3_get := Latency.fresh; pc_s3_put := Latency.fresh; pc_cache_hits := 0; pc_cache_misses := 0 |}.
Definition delta (c earlier : PerfCounters) : PerfCounters :=
  {| pc_scsi_read := Latency.saturating_delta (pc_scsi_read c) (pc_scsi_read earlier);
     pc_scsi_write := Latency.saturating_delta (pc_scsi_write c) (pc_scsi_write earlier);
     pc_scsi_flush := Latency.saturating_delta (pc_scsi_flush c) (pc_scsi_flush earlier);
     pc_s3_get := Latency.saturating_delta (pc_s3_get c) (pc_s3_get earlier);
     pc_s3_put := Latency.saturating_delta (pc_s3_put c) (pc_s3_put earlier);
     pc_cache_hits := saturating_sub (pc_cache_hits c) (pc_cache_hits earlier);
     pc_cache_misses := saturating_sub (pc_cache_misses c) (pc_cache_misses earlier) |}.

(** One accumulator updated. *)
Definition on_scsi_read (f : LatencyAccum → LatencyAccum) c : PerfCounters :=
  {| pc_scsi_read := f (pc_scsi_read c); pc_scsi_write := pc_scsi_write c; pc_scsi_flush := pc_scsi_flush c;
     pc_s3_get := pc_s3_get c; pc_s3_put := pc_s3_put c; pc_cache_hits := pc_cache_hits c;
     pc_cache_misses := pc_cache_misses c |}.
Definition on_scsi_write (f : LatencyAccum → LatencyAccum) c : PerfCounters :=
  {| pc_scsi_read := pc_scsi_read c; pc_scsi_write := f (pc_scsi_write c); pc_scsi_flush := pc_scsi_flush c;
     pc_s3_get := pc_s3_get c; pc_s3_put := pc_s3_put c; pc_cache_hits := pc_cache_hits c;
     pc_cache_misses := pc_cache_misses c |}.
Definition on_scsi_flush (f : LatencyAccum → LatencyAccum) c : PerfCounters :=
  {| pc_scsi_read := pc_scsi_read c; pc_scsi_write := pc_scsi_write c; pc_scsi_flush := f (pc_scsi_flush c);
     pc_s3_get := pc_s3_get c; pc_s3_put := pc_s3_put c; pc_cache_hits := pc_cache_hits c;
     pc_cache_misses := pc_cache_misses c |}.
Definition on_s3_get (f : LatencyAccum → LatencyAccum) c : PerfCounters :=
  {| pc_scsi_read := pc_scsi_read c; pc_scsi_write := pc_scsi_write c; pc_scsi_flush := pc_scsi_flush c;
     pc_s3_get := f (pc_s3_get c); pc_s3_put := pc_s3_put c; pc_cache_hits := pc_cache_hits c;
     pc_cache_misses := pc_cache_misses c |}.
Definition on_s3_put (f : LatencyAccum → LatencyAccum) c : PerfCounters :=
  {| pc_scsi_read := pc_scsi_read c; pc_scsi_write := pc_scsi_write c; pc_scsi_flush := pc_scsi_flush c;
     pc_s3_get := pc_s3_get c; pc_s3_put := f (pc_s3_put c); pc_cache_hits := pc_cache_hits c;
     pc_cache_misses := pc_cache_misses c |}.
Definition on_cache (hit : bool) c : PerfCounters :=
  {| pc_scsi_read := pc_scsi_read c; pc_scsi_write := pc_scsi_write c; pc_scsi_flush := pc_scsi_flush c;
     pc_s3_get := pc_s3_get c; pc_s3_put := pc_s3_put c;
     pc_cache_hits := if hit then wrapping_add64 (pc_cache_hits c) 1 else pc_cache_hits c;
     pc_cache_misses := if hit then pc_cache_misses c else wrapping_add64 (pc_cache_misses c) 1 |}.
End Counters.

(** ** The series *)
Inductive Series : Type :=
| ScsiOps | ScsiBytes | ScsiDuration | S3Ops | S3Bytes | S3Duration | CacheOps | CacheBytes | CacheEntries
| WriteCacheBytes | WriteBufferBytes | WriteBufferChunks | VolumeCapacityBytes | IscsiConnections
| IscsiSessions | IscsiSessionsActive | IscsiSessionsTotal | Bottleneck.
#[global] Instance Series_eq_dec : EqDecision Series.
Proof. solve_decision. Defined.

Record Metrics `{Prometheus} : Type := {
  me_registry : Registry;
  me_series : Series → Vec;
  me_perf : PerfCounters
}.

Module Met.
Definition BOTTLENECK_COMPONENTS : list string :=
  ["s3_read"; "s3_write"; "read_cache"; "write_cache"; "write_buffer"; "iscsi"].
Definition latency_buckets : list f64 :=
  [F64.lit 1 1000; F64.lit 25 10000; F64.lit 5 1000; F64.lit 1 100; F64.lit 25 1000; F64.lit 5 100;
   F64.lit 1 10; F64.lit 25 100; F64.lit 5 10; F64.lit 1 1; F64.lit 25 10; F64.lit 5 1; F64.lit 10 1;
   F64.lit 30 1; F64.lit 60 1].

(** What each series is created with: its kind, name, help text and labels. *)
Definition describe (s : Series) : VecKind * string * string * list string :=
  match s with
  | ScsiOps => (KCounter, "iscsi_s3_scsi_ops_total", "SCSI read/write/flush operations completed",
      ["volume"; "iqn"; "op"])
  | ScsiBytes => (KCounter, "iscsi_s3_scsi_bytes_total", "Bytes transferred via SCSI read/write",
      ["volume"; "iqn"; "op"])
  | ScsiDuration => (KHistogram latency_buckets, "iscsi_s3_scsi_op_duration_seconds",
      "SCSI operation latency (includes S3/cache)", ["volume"; "iqn"; "op"])
  | S3Ops => (KCounter, "iscsi_s3_s3_ops_total",
      "S3 operations (get, put, get_pointer, get_meta, put_meta, delete)", ["volume"; "iqn"; "op"; "result"])
  | S3Bytes => (KCounter, "iscsi_s3_s3_bytes_total", "Bytes transferred to/from S3 chunk objects",
      ["volume"; "iqn"; "op"])
  | S3Duration => (KHistogram latency_buckets, "iscsi_s3_s3_op_duration_seconds",
      "S3 operation latency; op=get_pointer is the COW pointer-file GetObject", ["volume"; "iqn"; "op"])
  | CacheOps => (KCounter, "iscsi_s3_cache_ops_total", "Chunk cache lookups (hit or miss)",
      ["volume"; "iqn"; "result"])
  | CacheBytes => (KGauge, "iscsi_s3_cache_bytes", "Current chunk cache memory usage in bytes", [])
  | CacheEntries => (KGauge, "iscsi_s3_cache_entries", "Current number of cached chunks", [])
  | WriteCacheBytes => (KGauge, "iscsi_s3_write_cache_bytes",
      "Current dirty write-cache bytes, summed across volumes", [])
  | WriteBufferBytes => (KGauge, "iscsi_s3_write_buffer_bytes",
      "Queued plus in-flight write-buffer snapshot bytes, summed across volumes", [])
  | WriteBufferChunks => (KGauge, "iscsi_s3_write_buffer_chunks",
      "Queued plus in-flight write-buffer snapshots, summed across volumes", [])
  | VolumeCapacityBytes => (KGauge, "iscsi_s3_volume_capacity_bytes",
      "Configured/effective volume capacity in bytes", ["volume"; "iqn"])
  | IscsiConnections => (KGauge, "iscsi_s3_iscsi_connections", "Active TCP connections on the iSCSI portal", [])
  | IscsiSessions => (KGauge, "iscsi_s3_iscsi_sessions", "Active FullFeature iSCSI sessions (all volumes)", [])
  | IscsiSessionsActive => (KGauge, "iscsi_s3_iscsi_sessions_active",
      "Active FullFeature iSCSI sessions per volume", ["volume"; "iqn"])
  | IscsiSessionsTotal => (KCounter, "iscsi_s3_iscsi_sessions_total",
      "FullFeature iSCSI sessions opened (cumulative)", ["volume"; "iqn"])
  | Bottleneck => (KGauge, "iscsi_s3_bottleneck",
      "1 if this component is the current primary performance bottleneck, else 0", ["component"])
  end.
Definition series_name (s : Series) : string := (describe s).1.1.2.
Definition series_labels (s : Series) : list string := (describe s).2.

(** The order in which they are registered. *)
Definition all_series : list Series :=
  [ScsiOps; ScsiBytes; ScsiDuration; S3Ops; S3Bytes; S3Duration; CacheOps; CacheBytes; CacheEntries;
   WriteCacheBytes; WriteBufferBytes; WriteBufferChunks; VolumeCapacityBytes; IscsiConnections;
   IscsiSessions; IscsiSessionsActive; IscsiSessionsTotal; Bottleneck].

Section ops.
Context `{Prometheus}.
Abbreviation MM := (M Metrics string).

Definition with_series (s : Series) (f : Vec → Vec) (m : Metrics) : Metrics :=
  {| me_registry := me_registry m; me_series := λ s', if decide (s' = s) then f (me_series m s) else me_series m s';
     me_perf := me_perf m |}.
Definition with_perf (f : PerfCounters → PerfCounters) (m : Metrics) : Metrics :=
  {| me_registry := me_registry m; me_series := me_series m; me_perf := f (me_perf m) |}.

(** [with_label_values(vals)] followed by an update. *)
Definition update (s : Series) (vals : list string) (f : Vec → Vec) : MM unit :=
  m ← get;
  if decide (length vals = length (vec_labels (me_series m s))) then modify (with_series s f) else panic.

Definition create (s : Series) : outcome string Vec :=
  let '(kind, name, help, labels) := describe s in vec_new kind name help labels.

Fixpoint register_all (vs : list Vec) (r : Registry) : outcome string Registry :=
  match vs with
  | [] => Ok r
  | v :: vs => r' ← register v r; register_all vs r'
  end.

(** [vec.with_label_values(&[component]).set(value(component))] for every component *)
Fixpoint set_components (cs : list string) (value : string → Z) : MM unit :=
  match cs with
  | [] => mret tt
  | c :: cs => _ ← update Bottleneck [c] (vec_set [c] (value c)); set_components cs value
  end.

Definition new : outcome string Metrics :=
  scsi_ops ← create ScsiOps; scsi_bytes ← create ScsiBytes; scsi_duration ← create ScsiDuration;
  s3_ops ← create S3Ops; s3_bytes ← create S3Bytes; s3_duration ← create S3Duration;
  cache_ops ← create CacheOps; cache_bytes ← create CacheBytes; cache_entries ← create CacheEntries;
  write_cache_bytes ← create WriteCacheBytes; write_buffer_bytes ← create WriteBufferBytes;
  write_buffer_chunks ← create WriteBufferChunks; volume_capacity_bytes ← create VolumeCapacityBytes;
  iscsi_connections ← create IscsiConnections; iscsi_sessions ← create IscsiSessions;
  iscsi_sessions_active ← create IscsiSessionsActive; iscsi_sessions_total ← create IscsiSessionsTotal;
  bottleneck ← create Bottleneck;
  let series := λ s, match s with
    | ScsiOps => scsi_ops | ScsiBytes => scsi_bytes | ScsiDuration => scsi_duration
    | S3Ops => s3_ops | S3Bytes => s3_bytes | S3Duration => s3_duration
    | CacheOps => cache_ops | CacheBytes => cache_bytes | CacheEntries => cache_entries
    | WriteCacheBytes => write_cache_bytes | WriteBufferBytes => write_buffer_bytes
    | WriteBufferChunks => write_buffer_chunks | VolumeCapacityBytes => volume_capacity_bytes
    | IscsiConnections => iscsi_connections | IscsiSessions => iscsi_sessions
    | IscsiSessionsActive => iscsi_sessions_active | IscsiSessionsTotal => iscsi_sessions_total
    | Bottleneck => bottleneck
    end in
  registry ← register_all (map series all_series) registry_new;
  let '(r, m) := set_components BOTTLENECK_COMPONENTS (λ _, 0)
    {| me_registry := registry; me_series := series; me_perf := Counters.zeroed |} in
  _ ← r;
  Ok m.

Definition perf_counters (m : Metrics) : PerfCounters := me_perf m.

Definition set_bottleneck (active : option string) : MM unit :=
  set_components BOTTLENECK_COMPONENTS (λ c, if decide (Some c = active) then 1 else 0).

(** [x as i64] *)
Definition as_i64 (x : Z) : Z := if x <? 2 ^ 63 then x else x - 2 ^ 64.

Definition set_volume_capacity (labels : VolumeLabels) (capacity : Z) : MM unit :=
  let vals := [vl_volume labels; vl_iqn labels] in
  update VolumeCapacityBytes vals (vec_set vals (as_i64 capacity)).

(** [started.elapsed()] is [elapsed]. *)
Definition observe_scsi (labels : VolumeLabels) (op : string) (bytes : Z) (elapsed : Duration) (ok : bool) : MM unit :=
  let elapsed := F64.as_secs_f64 elapsed in
  let vals := [vl_volume labels; vl_iqn labels; op] in
  _ ← update ScsiOps vals (vec_add vals 1);
  _ ← update ScsiDuration vals (vec_observe vals elapsed);
  _ ← (if ok && (bytes >? 0) then update ScsiBytes vals (vec_add vals bytes) else mret tt);
  if String.eqb op "read" then modify (with_perf (Counters.on_scsi_read (Latency.record elapsed)))
  else if String.eqb op "write" then modify (with_perf (Counters.on_scsi_write (Latency.record elapsed)))
  else if String.eqb op "flush" then modify (with_perf (Counters.on_scsi_flush (Latency.record elapsed)))
  else mret tt.

Definition observe_s3 (labels : VolumeLabels) (op : string) (bytes : Z) (elapsed : Duration) (ok : bool) : MM unit :=
  let result := if ok then "ok" else "error" in
  let elapsed := F64.as_secs_f64 elapsed in
  let vals := [vl_volume labels; vl_iqn labels; op] in
  _ ← update S3Ops [vl_volume labels; vl_iqn labels; op; result]
        (vec_add [vl_volume labels; vl_iqn labels; op; result] 1);
  _ ← update S3Duration vals (vec_observe vals elapsed);
  _ ← (if ok && (bytes >? 0) && (String.eqb op "get" || String.eqb op "put")
       then update S3Bytes vals (vec_add vals bytes) else mret tt);
  if String.eqb op "get" then modify (with_perf (Counters.on_s3_get (Latency.record elapsed)))
  else if String.eqb op "put" then modify (with_perf (Counters.on_s3_put (Latency.record elapsed)))
  else mret tt.

Definition observe_cache (labels : VolumeLabels) (hit : bool) : MM unit :=
  let vals := [vl_volume labels; vl_iqn labels; if hit then "hit" else "miss"] in
  _ ← update CacheOps vals (vec_add vals 1);
  modify (with_perf (Counters.on_cache hit)).

Definition set_cache_stats (bytes entries : Z) : MM unit :=
  _ ← update CacheBytes [] (vec_set [] (as_i64 bytes));
  update CacheEntries [] (vec_set [] (as_i64 entries)).
Definition set_write_cache_bytes (bytes : Z) : MM unit :=
  update WriteCacheBytes [] (vec_set [] (as_i64 bytes)).
Definition set_write_buffer_stats (bytes chunks : Z) : MM unit :=
  _ ← update WriteBufferBytes [] (vec_set [] (as_i64 bytes));
  update WriteBufferChunks [] (vec_set [] (as_i64 chunks)).
Definition set_iscsi_gauges (connections sessions : Z) : MM unit :=
  _ ← update IscsiConnections [] (vec_set [] (as_i64 connections));
  update IscsiSessions [] (vec_set [] (as_i64 sessions)).

Definition session_started (labels : VolumeLabels) : MM unit :=
  let vals := [vl_volume labels; vl_iqn labels] in
  _ ← update IscsiSessionsTotal vals (vec_add vals 1);
  update IscsiSessionsActive vals (vec_add vals 1).
Definition session_ended (labels : VolumeLabels) : MM unit :=
  let vals := [vl_volume labels; vl_iqn labels] in
  update IscsiSessionsActive vals (vec_add vals (-1)).

(** [from_utf8] stands for [String::from_utf8]. *)
Definition gather_text (from_utf8 : bytes → option string) (m : Metrics) : string :=
  match text_encode (map (me_series m) all_series) with
  | inl buffer => default "" (from_utf8 buffer)
  | inr _ => ""
  end.

(** ** The scrape endpoint *)
Record Response : Type := { re_status : Z; re_body : string; re_prometheus_text : bool }.
(** What the sources report at the time of a scrape. *)
Record Gauges : Type := {
  ga_connections : Z; ga_sessions : Z; ga_cache_bytes : Z; ga_cache_entries : Z;
  ga_write_cache_bytes : Z; ga_buffer_bytes : Z; ga_buffer_chunks : Z
}.

(** [url.split('?').next()] *)
Fixpoint before_query (url : string) : string :=
  match url with
  | EmptyString => ""
  | String c rest => if Ascii.eqb c (Ascii.ascii_of_nat 63) then "" else String c (before_query rest)
  end.

(** One request of [spawn_metrics_server]'s loop. *)
Definition serve (from_utf8 : bytes → option string) (g : Gauges) (url : string) : MM Response :=
  let path := before_query url in
  if String.eqb path "/metrics" then
    _ ← set_iscsi_gauges (ga_connections g) (ga_sessions g);
    _ ← set_cache_stats (ga_cache_bytes g) (ga_cache_entries g);
    _ ← set_write_cache_bytes (ga_write_cache_bytes g);
    _ ← set_write_buffer_stats (ga_buffer_bytes g) (ga_buffer_chunks g);
    body ← gets (gather_text from_utf8);
    mret {| re_status := 200; re_body := body; re_prometheus_text := true |}
  else if String.eqb path "/healthz" || String.eqb path "/health" then
    mret {| re_status := 200; re_body := "ok" +:+ String (Ascii.ascii_of_nat 10) ""; re_prometheus_text := false |}
  else mret {| re_status := 404; re_body := "not found" +:+ String (Ascii.ascii_of_nat 10) "";
               re_prometheus_text := false |}.
End ops.
End Met.
