(* ===== verification/MetricsSpec.v ===== *)
(** * What the metrics operations do

    [typed]: every series has the labels it was created with, so that no lookup
    panics. The events are everything the program reports; [apply_event] runs the
    operation of one event. *)
From S2P Require Import Prelude Text Store S3Keys Float Metrics.
#[local] Open Scope string_scope.
#[local] Open Scope list_scope.
#[local] Open Scope Z_scope.

Module MetSpec.
Import Met.
Section spec.
Context `{PrometheusLaws}.
Implicit Types (m : Metrics) (s : Series).

Definition typed m : Prop := ∀ s, vec_labels (me_series m s) = series_labels s.

(** ** Single updates *)
Lemma with_series_same s f m : me_series (with_series s f m) s = f (me_series m s).
Proof. simpl. by rewrite decide_True. Qed.
Lemma with_series_other s s' f m : s' ≠ s → me_series (with_series s f m) s' = me_series m s'.
Proof. intros Hs. simpl. by rewrite decide_False. Qed.

Lemma typed_with s f m : (∀ v, vec_labels (f v) = vec_labels v) → typed m → typed (with_series s f m).
Proof. intros Hf Hm s'. simpl. case_decide as Hs; [subst; by rewrite Hf|done]. Qed.

Lemma update_spec s vals f m (Q : unit → Metrics → Prop) R :
  typed m → length vals = length (series_labels s) → Q tt (with_series s f m) → wp (update s vals f) Q R m.
Proof.
  intros Hm Hl HQ. unfold update. wp_steps. rewrite decide_True by (by rewrite Hm). by wp_step.
Qed.

(** ** Events *)
Inductive Event : Type :=
| EScsi (labels : VolumeLabels) (op : string) (bytes : Z) (elapsed : Duration) (ok : bool)
| ES3 (labels : VolumeLabels) (op : string) (bytes : Z) (elapsed : Duration) (ok : bool)
| ECache (labels : VolumeLabels) (hit : bool)
| ECapacity (labels : VolumeLabels) (capacity : Z)
| EBottleneck (active : option string)
| ESessionStarted (labels : VolumeLabels)
| ESessionEnded (labels : VolumeLabels)
| EScrape (from_utf8 : bytes → option string) (g : Gauges) (url : string).

Definition apply_event (e : Event) : M Metrics string unit :=
  match e with
  | EScsi labels op bytes elapsed ok => observe_scsi labels op bytes elapsed ok
  | ES3 labels op bytes elapsed ok => observe_s3 labels op bytes elapsed ok
  | ECache labels hit => observe_cache labels hit
  | ECapacity labels capacity => set_volume_capacity labels capacity
  | EBottleneck active => set_bottleneck active
  | ESessionStarted labels => session_started labels
  | ESessionEnded labels => session_ended labels
  | EScrape from_utf8 g url => _ ← serve from_utf8 g url; mret tt
  end.
Fixpoint apply_events (es : list Event) : M Metrics string unit :=
  match es with
  | [] => mret tt
  | e :: es => _ ← apply_event e; apply_events es
  end.

(** Every operation keeps the types; what it does to the accumulators is
    [perf_event]. *)
Definition perf_event (e : Event) (c : PerfCounters) : PerfCounters :=
  match e with
  | EScsi _ op _ elapsed _ =>
      let f := Latency.record (F64.as_secs_f64 elapsed) in
      if String.eqb op "read" then Counters.on_scsi_read f c
      else if String.eqb op "write" then Counters.on_scsi_write f c
      else if String.eqb op "flush" then Counters.on_scsi_flush f c else c
  | ES3 _ op _ elapsed _ =>
      let f := Latency.record (F64.as_secs_f64 elapsed) in
      if String.eqb op "get" then Counters.on_s3_get f c
      else if String.eqb op "put" then Counters.on_s3_put f c else c
  | ECache _ hit => Counters.on_cache hit c
  | _ => c
  end.

Definition after (c : PerfCounters) m : Prop := typed m ∧ me_perf m = c.

Lemma update_after c s vals f m :
  after c m → length vals = length (series_labels s) → (∀ v, vec_labels (f v) = vec_labels v) →
  wp (update s vals f) (λ _, after c) (λ _ _, False) m.
Proof. intros [Hm Hc] Hl Hf. apply update_spec; [done|done|]. split; [by apply typed_with|done]. Qed.

Lemma set_components_after c cs value m :
  after c m → wp (set_components cs value) (λ _, after c) (λ _ _, False) m.
Proof.
  revert m. induction cs as [|x cs IH]; intros m Hm; simpl; [by wp_step|]. wp_step.
  eapply wp_mono; [apply (update_after c); [done|done|intros v; apply vec_set_labels]| |done].
  intros [] m' Hm'. by apply IH.
Qed.

#[local] Ltac step c :=
  try wp_step; eapply wp_mono; [apply (update_after c); [done|done|intros ?; first
    [apply vec_add_labels|apply vec_set_labels|apply vec_observe_labels]]| |done];
  intros [] ? ?.
#[local] Ltac last c :=
  apply (update_after c); [done|done|intros ?; first [apply vec_add_labels|apply vec_set_labels]].

Lemma observe_scsi_after c labels op bytes elapsed ok m :
  after c m → wp (observe_scsi labels op bytes elapsed ok)
    (λ _, after (perf_event (EScsi labels op bytes elapsed ok) c)) (λ _ _, False) m.
Proof.
  intros Hm. unfold observe_scsi. cbv zeta. step c. step c. wp_step.
  eapply (wp_mono _ (λ _, after c)); [case_match; [last c|by wp_step]| |done]. intros [] m3 [Hm3 Hc3].
  simpl. repeat case_match; wp_step; (split; [done|simpl; by rewrite Hc3]).
Qed.

Lemma observe_s3_after c labels op bytes elapsed ok m :
  after c m → wp (observe_s3 labels op bytes elapsed ok)
    (λ _, after (perf_event (ES3 labels op bytes elapsed ok) c)) (λ _ _, False) m.
Proof.
  intros Hm. unfold observe_s3. cbv zeta. step c. step c. wp_step.
  eapply (wp_mono _ (λ _, after c)); [case_match; [last c|by wp_step]| |done]. intros [] m3 [Hm3 Hc3].
  simpl. repeat case_match; wp_step; (split; [done|simpl; by rewrite Hc3]).
Qed.

Lemma serve_after c from_utf8 g url m :
  after c m → wp (serve from_utf8 g url) (λ _, after c) (λ _ _, False) m.
Proof.
  intros Hm. unfold serve. case_match; [|case_match; by wp_step].
  unfold set_iscsi_gauges, set_cache_stats, set_write_cache_bytes, set_write_buffer_stats.
  repeat first [step c|wp_step]. done.
Qed.

Lemma apply_event_after c e m :
  after c m → wp (apply_event e) (λ _, after (perf_event e c)) (λ _ _, False) m.
Proof.
  intros Hm. destruct e; simpl; [by apply observe_scsi_after|by apply observe_s3_after| | | | | |].
  - unfold observe_cache. step c. wp_step.
    match goal with H : after c ?x |- _ => destruct H as [Ht Hp] end. split; [done|simpl; by rewrite Hp].
  - unfold set_volume_capacity. last c.
  - by apply set_components_after.
  - unfold session_started. step c. last c.
  - unfold session_ended. last c.
  - wp_step. eapply wp_mono; [by apply serve_after| |done]. intros r m' Hm'. by wp_step.
Qed.

Lemma apply_events_after c es m :
  after c m → wp (apply_events es) (λ _, after (foldl (λ c e, perf_event e c) c es)) (λ _ _, False) m.
Proof.
  revert c m. induction es as [|e es IH]; intros c m Hm; simpl; [by wp_step|]. wp_step.
  eapply wp_mono; [by apply apply_event_after| |done]. intros [] m' Hm'. by apply IH.
Qed.

(** ** Creation *)
Lemma create_ok s : ∃ v, create s = Ok v ∧ vec_name v = series_name s ∧ vec_labels v = series_labels s.
Proof.
  unfold create, series_name, series_labels. destruct (describe s) as [[[k n] h] ls] eqn:Hd.
  destruct (vec_new_ok k n h ls) as [v Hv];
    [destruct s; simplify_eq/=; first [done|by apply (bool_decide_unpack _)]..|].
  exists v. split; [done|]. split; [by eapply vec_new_name|by eapply vec_new_labels].
Qed.

Lemma register_all_ok vs r :
  NoDup (registered r ++ map vec_name vs) → ∃ r', register_all vs r = Ok r'.
Proof.
  revert r. induction vs as [|v vs IH]; intros r Hn; simpl; [by eexists|].
  destruct (register_ok v r) as (r1 & Hr & Hreg).
  { apply NoDup_app in Hn as (_ & Hn & _). intros Hin. apply (Hn _ Hin). set_solver. }
  rewrite Hr. simpl. apply IH. by rewrite Hreg, <- app_assoc.
Qed.

Lemma new_ok : ∃ m, new = Ok m ∧ after Counters.zeroed m.
Proof.
  unfold new.
  repeat match goal with |- context [create ?s] =>
    let Hn := fresh "Hn" in let Hl := fresh "Hl" in
    destruct (create_ok s) as (? & -> & Hn & Hl); cbv beta iota delta [mbind outcome_bind] end.
  cbv zeta.
  match goal with |- context [register_all ?vs _] => destruct (register_all_ok vs registry_new) as [r ->] end.
  { rewrite registry_new_empty. simpl. rewrite Hn, Hn0, Hn1, Hn2, Hn3, Hn4, Hn5, Hn6, Hn7, Hn8, Hn9, Hn10,
      Hn11, Hn12, Hn13, Hn14, Hn15, Hn16. by apply (bool_decide_unpack _). }
  match goal with |- context [set_components ?cs ?f ?m] =>
    destruct (wp_ok _ _ _ (set_components_after Counters.zeroed cs f m
      ltac:(split; [by intros []|done]))) as ([] & m' & -> & Hm') end.
  by exists m'.
Qed.
End spec.
End MetSpec.
