(* ===== verification/Sessions.v ===== *)
(** * Live sessions (src/src/metrics.rs)

    [SessionMetricsSink]: the callbacks of the iSCSI target for sessions that
    enter and leave the full-feature phase. It counts them per volume and keeps
    the table of live ones that the admin requests read. *)
From S2P Require Import Prelude Text Store S3Keys Float Metrics MetricsSpec.
#[local] Open Scope string_scope.
#[local] Open Scope list_scope.
#[local] Open Scope Z_scope.

Record LiveSession : Type := {
  ls_volume : string; ls_target_iqn : string; ls_initiator_iqn : string; ls_peer : string;
  ls_started_secs_ago : Z
}.
(** [started] is an instant, in nanoseconds. *)
Record LiveSessionInner : Type := {
  li_volume : string; li_target_iqn : string; li_initiator_iqn : string; li_peer : string;
  li_started : Z
}.
(** [iscsi_target::SessionEvent] *)
Record SessionEvent : Type := { se_target_iqn : string; se_initiator_iqn : string; se_peer : string }.

Record SessionMetricsSink `{Prometheus} : Type := {
  sk_metrics : Metrics;
  sk_by_iqn : gmap string VolumeLabels;
  sk_live : gmap (string * string) LiveSessionInner
}.

Module Sessions.
(** The order of pairs that [cmp(..).then(..)] compares by. *)
Definition lex {A B} (R : relation A) (S : relation B) : relation (A * B) :=
  λ p q, p.1 ≠ q.1 ∧ R p.1 q.1 ∨ p.1 = q.1 ∧ S p.2 q.2.
Section lex.
Context {A B} (R : relation A) (S : relation B).
#[global] Instance lex_dec `{EqDecision A, !RelDecision R, !RelDecision S} : RelDecision (lex R S).
Proof. unfold lex. solve_decision. Defined.
#[global] Instance lex_order `{!PartialOrder R, !PartialOrder S} : PartialOrder (lex R S).
Proof.
  split; [split|].
  - intros [a b]. right. split; [done|]. by simpl.
  - intros [a1 b1] [a2 b2] [a3 b3] [[Hn1 Hr1]|[He1 Hs1]] [[Hn2 Hr2]|[He2 Hs2]]; simpl in *; subst.
    + left. simpl. split; [|by etrans]. intros ->. destruct Hn1. by apply (anti_symm R).
    + by left.
    + by left.
    + right. simpl. split; [done|]. by etrans.
  - intros [a1 b1] [a2 b2] [[Hn1 Hr1]|[He1 Hs1]] [[Hn2 Hr2]|[He2 Hs2]]; simpl in *; subst; try done.
    + destruct Hn1. by apply (anti_symm R).
    + f_equal. by apply (anti_symm S).
Qed.
#[global] Instance lex_total `{EqDecision A, !Total R, !Total S} : Total (lex R S).
Proof.
  intros [a1 b1] [a2 b2]. unfold lex. simpl. destruct (decide (a1 = a2)) as [->|Hn].
  - destruct (total S b1 b2); [left|right]; by right.
  - destruct (total R a1 a2); [left|right]; left; by split.
Qed.
End lex.

(** By volume, then peer, then initiator; strings compare byte by byte. *)
Definition session_key (s : LiveSession) : string * (string * string) :=
  (ls_volume s, (ls_peer s, ls_initiator_iqn s)).
Definition session_le (a b : LiveSession) : Prop :=
  lex String.le (lex String.le String.le) (session_key a) (session_key b).
#[global] Instance session_le_dec : RelDecision session_le.
Proof. intros a b. unfold session_le. apply _. Defined.
#[global] Instance session_le_trans : Transitive session_le.
Proof. intros a b c ??. unfold session_le in *. by etrans. Qed.
#[global] Instance session_le_total : Total session_le.
Proof. intros a b. unfold session_le. apply (total _). Qed.

Section ops.
Context `{Prometheus}.
Abbreviation MK := (M SessionMetricsSink string).

Definition with_metrics (m : Metrics) (k : SessionMetricsSink) : SessionMetricsSink :=
  {| sk_metrics := m; sk_by_iqn := sk_by_iqn k; sk_live := sk_live k |}.
Definition with_live (f : gmap (string * string) LiveSessionInner → gmap (string * string) LiveSessionInner)
    (k : SessionMetricsSink) : SessionMetricsSink :=
  {| sk_metrics := sk_metrics k; sk_by_iqn := sk_by_iqn k; sk_live := f (sk_live k) |}.
Definition metrics {A} (op : M Metrics string A) : MK A := zoom sk_metrics with_metrics op.

(** The map of the volumes by IQN; a later volume replaces an earlier one. *)
Definition index (volumes : list VolumeLabels) : gmap string VolumeLabels :=
  foldl (λ acc v, <[vl_iqn v := v]> acc) ∅ volumes.

Fixpoint zero_active (ls : list VolumeLabels) : M Metrics string unit :=
  match ls with
  | [] => mret tt
  | l :: ls =>
      let vals := [vl_volume l; vl_iqn l] in
      _ ← Met.update IscsiSessionsActive vals (vec_set vals 0);
      zero_active ls
  end.

Definition new (m : Metrics) (volumes : list VolumeLabels) : outcome string SessionMetricsSink :=
  let by_iqn := index volumes in
  let '(r, m') := zero_active (map_to_list by_iqn).*2 m in
  _ ← r;
  Ok {| sk_metrics := m'; sk_by_iqn := by_iqn; sk_live := ∅ |}.

Definition on_session_start (event : SessionEvent) (now : Z) : MK unit :=
  k ← get;
  match sk_by_iqn k !! se_target_iqn event with
  | None => mret tt
  | Some labels =>
      _ ← metrics (Met.session_started labels);
      modify (with_live (insert (se_target_iqn event, se_peer event)
        {| li_volume := vl_volume labels; li_target_iqn := se_target_iqn event;
           li_initiator_iqn := se_initiator_iqn event; li_peer := se_peer event; li_started := now |}))
  end.

Definition on_session_end (event : SessionEvent) : MK unit :=
  k ← get;
  match sk_by_iqn k !! se_target_iqn event with
  | None => mret tt
  | Some labels =>
      _ ← metrics (Met.session_ended labels);
      modify (with_live (delete (se_target_iqn event, se_peer event)))
  end.
End ops.

(** [now.duration_since(started).as_secs()], which saturates at zero. *)
Definition secs_since (now started : Z) : Z := saturating_sub now started / 1000000000.
Definition view (now : Z) (s : LiveSessionInner) : LiveSession :=
  {| ls_volume := li_volume s; ls_target_iqn := li_target_iqn s; ls_initiator_iqn := li_initiator_iqn s;
     ls_peer := li_peer s; ls_started_secs_ago := secs_since now (li_started s) |}.
Definition selected (sel : option string) (s : LiveSessionInner) : bool :=
  match sel with
  | None => true
  | Some sel => String.eqb (li_volume s) sel || String.eqb (li_target_iqn s) sel
  end.
(** [values] is the order in which the hash map hands its values out. *)
Definition list_sessions (now : Z) (sel : option string) (values : list LiveSessionInner) : list LiveSession :=
  merge_sort session_le (map (view now) (List.filter (selected sel) values)).

(** Which sessions are listed, and in which order. *)
Lemma list_sessions_sorted now sel values : StronglySorted session_le (list_sessions now sel values).
Proof. apply StronglySorted_merge_sort; apply _. Qed.
Lemma list_sessions_perm now sel values :
  list_sessions now sel values ≡ₚ map (view now) (List.filter (selected sel) values).
Proof. apply merge_sort_Permutation. Qed.
End Sessions.
