(* ===== verification/MetricsTheorems.v ===== *)
(** * Properties of the metrics and of the session table *)
From S2P Require Import Prelude Text Store S3Keys Float Metrics MetricsSpec Sessions.
#[local] Open Scope string_scope.
#[local] Open Scope list_scope.
#[local] Open Scope Z_scope.

Module MetricsTheorems.
Import Met MetSpec.

(** ** Counting the latencies of a window *)

(** The latencies reported by SCSI operations, by S3 requests, and the cache
    lookups, of one kind. *)
Definition scsi_times (op : string) (es : list Event) : list f64 :=
  omap (λ e, match e with
    | EScsi _ op' _ d _ => if String.eqb op' op then Some (F64.as_secs_f64 d) else None
    | _ => None end) es.
Definition s3_times (op : string) (es : list Event) : list f64 :=
  omap (λ e, match e with
    | ES3 _ op' _ d _ => if String.eqb op' op then Some (F64.as_secs_f64 d) else None
    | _ => None end) es.
Definition lookups (hit : bool) (es : list Event) : list unit :=
  omap (λ e, match e with
    | ECache _ hit' => if Bool.eqb hit' hit then Some tt else None
    | _ => None end) es.
Definition sum_micros (ts : list f64) : Z := foldr (λ t n, Latency.micros t + n) 0 ts.
Definition accum (ts : list f64) : LatencyAccum := {| la_count := Zlen ts; la_sum_us := sum_micros ts |}.
(** The counters of the events alone. *)
Definition tally (es : list Event) : PerfCounters :=
  {| pc_scsi_read := accum (scsi_times "read" es); pc_scsi_write := accum (scsi_times "write" es);
     pc_scsi_flush := accum (scsi_times "flush" es); pc_s3_get := accum (s3_times "get" es);
     pc_s3_put := accum (s3_times "put" es); pc_cache_hits := Zlen (lookups true es);
     pc_cache_misses := Zlen (lookups false es) |}.

(** Sums of the fields, and that they are 64-bit. *)
Definition plus_lat (a b : LatencyAccum) : LatencyAccum :=
  {| la_count := la_count a + la_count b; la_sum_us := la_sum_us a + la_sum_us b |}.
Definition plus (a b : PerfCounters) : PerfCounters :=
  {| pc_scsi_read := plus_lat (pc_scsi_read a) (pc_scsi_read b);
     pc_scsi_write := plus_lat (pc_scsi_write a) (pc_scsi_write b);
     pc_scsi_flush := plus_lat (pc_scsi_flush a) (pc_scsi_flush b);
     pc_s3_get := plus_lat (pc_s3_get a) (pc_s3_get b); pc_s3_put := plus_lat (pc_s3_put a) (pc_s3_put b);
     pc_cache_hits := pc_cache_hits a + pc_cache_hits b;
     pc_cache_misses := pc_cache_misses a + pc_cache_misses b |}.
Definition wide_lat (a : LatencyAccum) : Prop := is_u64 (la_count a) ∧ is_u64 (la_sum_us a).
Record wide (c : PerfCounters) : Prop := {
  wd_read : wide_lat (pc_scsi_read c); wd_write : wide_lat (pc_scsi_write c);
  wd_flush : wide_lat (pc_scsi_flush c); wd_get : wide_lat (pc_s3_get c); wd_put : wide_lat (pc_s3_put c);
  wd_hits : is_u64 (pc_cache_hits c); wd_misses : is_u64 (pc_cache_misses c)
}.

Lemma wrapping_add_small a b : 0 ≤ a → 0 ≤ b → a + b ≤ u64_max → wrapping_add64 a b = a + b.
Proof. unfold wrapping_add64, u64_max. intros. apply Z.mod_small. lia. Qed.

Lemma sum_micros_nonneg ts : 0 ≤ sum_micros ts.
Proof.
  induction ts as [|t ts IH]; simpl; [lia|]. pose proof (F64.round_u64_range (F64.mul t (F64.of_u64 1000000))) as Hr.
  unfold Latency.micros, is_u64 in *. lia.
Qed.

(** Recording a latency on a base that has room for it and for the rest. *)
Lemma record_accum b t ts :
  wide_lat b → wide_lat (plus_lat b (accum (t :: ts))) →
  plus_lat (Latency.record t b) (accum ts) = plus_lat b (accum (t :: ts)) ∧ wide_lat (Latency.record t b).
Proof.
  destruct b as [n u]. unfold wide_lat, plus_lat, accum, Latency.record, is_u64. simpl. rewrite Zlen_cons.
  pose proof (F64.round_u64_range (F64.mul t (F64.of_u64 1000000))) as Hr.
  pose proof (sum_micros_nonneg ts) as Hs. pose proof (Zlen_nonneg ts).
  unfold Latency.micros, is_u64 in *. intros [Hn Hu] [Hn' Hu'].
  rewrite !wrapping_add_small by lia. split; [f_equal; lia|]. lia.
Qed.

Lemma plus_nil c : plus c (tally []) = c.
Proof.
  destruct c as [[] [] [] [] [] ? ?]. unfold plus, plus_lat, tally, accum, Zlen. simpl. by rewrite !Z.add_0_r.
Qed.

Lemma perf_event_plus c e es :
  wide c → wide (plus c (tally (e :: es))) →
  plus (perf_event e c) (tally es) = plus c (tally (e :: es)) ∧ wide (perf_event e c).
Proof.
  intros [] []. unfold plus, tally in *. simpl in *.
  destruct e as [l op by_ d ok|l op by_ d ok|l hit| | | | |]; simpl in *; try by (split; [|constructor]).
  - destruct (String.eqb_spec op "read") as [->|]; simpl in *;
      [|destruct (String.eqb_spec op "write") as [->|]; simpl in *;
        [|destruct (String.eqb_spec op "flush") as [->|]; simpl in *; [|by (split; [|constructor])]]];
      match goal with Hw : wide_lat (plus_lat ?b (accum (?t :: ?ts))) |- _ =>
        destruct (record_accum b t ts) as [Heq Hw']; [done|done|] end;
      (split; [by f_equal|by constructor]).
  - destruct (String.eqb_spec op "get") as [->|]; simpl in *;
      [|destruct (String.eqb_spec op "put") as [->|]; simpl in *; [|by (split; [|constructor])]];
      match goal with Hw : wide_lat (plus_lat ?b (accum (?t :: ?ts))) |- _ =>
        destruct (record_accum b t ts) as [Heq Hw']; [done|done|] end;
      (split; [by f_equal|by constructor]).
  - unfold is_u64 in *.
    destruct hit; simpl in *; rewrite Zlen_cons in *; pose proof (Zlen_nonneg (lookups true es));
      pose proof (Zlen_nonneg (lookups false es));
      (split; [rewrite wrapping_add_small by lia; f_equal; lia|constructor; simpl; try done;
        unfold is_u64; rewrite wrapping_add_small by lia; lia]).
Qed.

Lemma tally_grows c e es : wide (plus c (tally (e :: es))) → wide c → wide (plus (perf_event e c) (tally es)).
Proof. intros Hw Hc. by destruct (perf_event_plus c e es Hc Hw) as [-> _]. Qed.

Lemma perf_events_plus c es :
  wide c → wide (plus c (tally es)) → foldl (λ c e, perf_event e c) c es = plus c (tally es).
Proof.
  revert c. induction es as [|e es IH]; intros c Hc Hw; simpl; [by rewrite plus_nil|].
  destruct (perf_event_plus c e es Hc Hw) as [Heq Hc']. rewrite <- Heq. apply IH; [done|].
  by apply tally_grows.
Qed.

Lemma delta_plus c t : Counters.delta (plus c t) c = 
  {| pc_scsi_read := Latency.saturating_delta (plus_lat (pc_scsi_read c) (pc_scsi_read t)) (pc_scsi_read c);
     pc_scsi_write := Latency.saturating_delta (plus_lat (pc_scsi_write c) (pc_scsi_write t)) (pc_scsi_write c);
     pc_scsi_flush := Latency.saturating_delta (plus_lat (pc_scsi_flush c) (pc_scsi_flush t)) (pc_scsi_flush c);
     pc_s3_get := Latency.saturating_delta (plus_lat (pc_s3_get c) (pc_s3_get t)) (pc_s3_get c);
     pc_s3_put := Latency.saturating_delta (plus_lat (pc_s3_put c) (pc_s3_put t)) (pc_s3_put c);
     pc_cache_hits := saturating_sub (pc_cache_hits c + pc_cache_hits t) (pc_cache_hits c);
     pc_cache_misses := saturating_sub (pc_cache_misses c + pc_cache_misses t) (pc_cache_misses c) |}.
Proof. done. Qed.

Lemma delta_accum b ts : Latency.saturating_delta (plus_lat b (accum ts)) b = accum ts.
Proof.
  unfold Latency.saturating_delta, plus_lat, accum, saturating_sub. simpl.
  pose proof (sum_micros_nonneg ts). pose proof (Zlen_nonneg ts). f_equal; lia.
Qed.

Lemma delta_tally c es : Counters.delta (plus c (tally es)) c = tally es.
Proof.
  rewrite delta_plus. unfold tally. simpl. rewrite !delta_accum. unfold saturating_sub.
  pose proof (Zlen_nonneg (lookups true es)). pose proof (Zlen_nonneg (lookups false es)). f_equal; lia.
Qed.

Section theorems.
Context `{PrometheusLaws}.

(** C35: The metrics never fail. The registry accepts every series the program
    creates, and from there on no sequence of reports, session events,
    bottleneck updates and scrapes panics: every lookup has the labels its series
    was created with. *)
Theorem metrics_never_panic :
  ∃ m, Met.new = Ok m ∧ ∀ es, ∃ m', apply_events es m = (Ok tt, m').
Proof.
  destruct new_ok as (m & Hm & Ha). exists m. split; [done|]. intros es.
  destruct (wp_ok _ _ _ (apply_events_after _ es m Ha)) as ([] & m' & Hrun & _). by exists m'.
Qed.

(** A window sees its own events. The difference of two readings of the
    counters is exactly the number and total latency, kind by kind, of the SCSI
    operations and S3 requests and the number of cache hits and misses reported
    between them, whatever else happens, while the totals fit 64 bits. *)
Theorem window_delta m es m' :
  typed m → wide (perf_counters m) → wide (plus (perf_counters m) (tally es)) →
  apply_events es m = (Ok tt, m') →
  Counters.delta (perf_counters m') (perf_counters m) = tally es.
Proof.
  intros Ht Hw Hw' Hrun. pose proof (apply_events_after (me_perf m) es m (conj Ht eq_refl)) as Hwp.
  unfold wp in Hwp. rewrite Hrun in Hwp. destruct Hwp as [_ Hp]. unfold perf_counters in *.
  rewrite Hp, perf_events_plus by done. apply delta_tally.
Qed.
End theorems.
(** ** Sessions *)
Section sessions.
Context `{PrometheusLaws}.
Import Sessions.
Implicit Types (k : SessionMetricsSink) (l : VolumeLabels).

(** What the target reports, one event at a time. *)
Inductive SinkEvent : Type :=
| Started (e : SessionEvent) (now : Z)
| Ended (e : SessionEvent).
Definition sink_event (ev : SinkEvent) : M SessionMetricsSink string unit :=
  match ev with Started e now => on_session_start e now | Ended e => on_session_end e end.
Fixpoint sink_run (evs : list SinkEvent) : M SessionMetricsSink string unit :=
  match evs with
  | [] => mret tt
  | ev :: evs => _ ← sink_event ev; sink_run evs
  end.

(** Reports of known volumes in order: a session starts on a connection that has
    none and ends on one that has one. *)
Definition session_of (e : SessionEvent) : string * string := (se_target_iqn e, se_peer e).
Fixpoint orderly (by_iqn : gmap string VolumeLabels) (live : gset (string * string)) (evs : list SinkEvent) : Prop :=
  match evs with
  | [] => True
  | Started e _ :: evs =>
      if decide (is_Some (by_iqn !! se_target_iqn e))
      then session_of e ∉ live ∧ orderly by_iqn ({[session_of e]} ∪ live) evs
      else orderly by_iqn live evs
  | Ended e :: evs =>
      if decide (is_Some (by_iqn !! se_target_iqn e))
      then session_of e ∈ live ∧ orderly by_iqn (live ∖ {[session_of e]}) evs
      else orderly by_iqn live evs
  end.
Definition starts (iqn : string) (evs : list SinkEvent) : nat :=
  length (List.filter (λ ev, match ev with Started e _ => String.eqb (se_target_iqn e) iqn | _ => false end) evs).

(** ** What the events say

    The sessions that are live after the events: those that started and were not
    ended later, with their start times, the earliest first. *)
Definition ended_by (key : string * string) (ev : SinkEvent) : bool :=
  match ev with Ended e => bool_decide (session_of e = key) | Started _ _ => false end.
Definition survives (evs : list SinkEvent) (key : string * string) : bool := negb (existsb (ended_by key) evs).
Fixpoint live_sessions (evs : list SinkEvent) : list (SessionEvent * Z) :=
  match evs with
  | [] => []
  | Started e now :: evs => (if survives evs (session_of e) then [(e, now)] else []) ++ live_sessions evs
  | Ended _ :: evs => live_sessions evs
  end.
Definition live_count (iqn : string) (evs : list SinkEvent) : nat :=
  length (filter (λ s, se_target_iqn s.1 = iqn) (live_sessions evs)).
(** The table's entry for a live session of a known target. *)
Definition entry (by_iqn : gmap string VolumeLabels) (s : SessionEvent * Z)
    : option ((string * string) * LiveSessionInner) :=
  l ← by_iqn !! se_target_iqn s.1;
  Some (session_of s.1,
    {| li_volume := vl_volume l; li_target_iqn := se_target_iqn s.1; li_initiator_iqn := se_initiator_iqn s.1;
       li_peer := se_peer s.1; li_started := s.2 |}).
Definition entries (by_iqn : gmap string VolumeLabels) (evs : list SinkEvent) :=
  omap (entry by_iqn) (live_sessions evs).

(** What an event does to the table. *)
Definition table_event (by_iqn : gmap string VolumeLabels) (live : gmap (string * string) LiveSessionInner)
    (ev : SinkEvent) : gmap (string * string) LiveSessionInner :=
  match ev with
  | Started e now => match entry by_iqn (e, now) with Some kv => <[kv.1 := kv.2]> live | None => live end
  | Ended e => match by_iqn !! se_target_iqn e with Some _ => delete (session_of e) live | None => live end
  end.

Lemma survives_cons ev evs key : survives (ev :: evs) key = negb (ended_by key ev) && survives evs key.
Proof. unfold survives. simpl. by rewrite negb_orb. Qed.
Lemma entry_key by_iqn s kv : entry by_iqn s = Some kv → kv.1 = session_of s.1 ∧ is_Some (by_iqn !! kv.1.1).
Proof. unfold entry. destruct (_ !! _) as [l|] eqn:Hl; simpl; [|done]. intros [= <-]. simpl. eauto. Qed.
Lemma entries_start by_iqn e now evs :
  entries by_iqn (Started e now :: evs) =
  (if survives evs (session_of e) then option_list (entry by_iqn (e, now)) else []) ++ entries by_iqn evs.
Proof. unfold entries. simpl. destruct (survives _ _); [|done]. simpl. by destruct (entry _ _). Qed.

(** The entries have distinct keys, none of which is that of a session that
    lives on from before. *)
Lemma entries_keys by_iqn evs live :
  orderly by_iqn live evs →
  NoDup (entries by_iqn evs).*1 ∧
  ∀ key, key ∈ live → survives evs key = true → key ∉ (entries by_iqn evs).*1.
Proof.
  revert live. induction evs as [|[e now|e] evs IH]; intros live Ho.
  - split; [constructor|]. intros key _ _. apply not_elem_of_nil.
  - simpl in Ho. rewrite entries_start. case_decide as Hk.
    + destruct Ho as [Hnew Ho]. destruct (IH _ Ho) as [Hnd Hold]. destruct Hk as [l Hl].
      unfold entry. simpl. rewrite Hl. simpl. destruct (survives evs (session_of e)) eqn:Hs; simpl.
      * split; [constructor; [|done]; apply Hold; [set_solver|done]|]. intros key Hkey Hsv.
        rewrite survives_cons in Hsv. simpl in Hsv. apply not_elem_of_cons. split; [set_solver|].
        apply Hold; [set_solver|done].
      * split; [done|]. intros key Hkey Hsv. rewrite survives_cons in Hsv. apply Hold; [set_solver|done].
    + destruct (IH _ Ho) as [Hnd Hold]. unfold entry. simpl.
      rewrite (proj2 (eq_None_not_Some _) Hk). simpl. destruct (survives evs _); simpl;
        (split; [done|]; intros key Hkey Hsv; rewrite survives_cons in Hsv; by apply Hold).
  - change (entries by_iqn (Ended e :: evs)) with (entries by_iqn evs). simpl in Ho. case_decide as Hk.
    + destruct Ho as [Hin Ho]. destruct (IH _ Ho) as [Hnd Hold]. split; [done|]. intros key Hkey Hsv.
      rewrite survives_cons in Hsv. simpl in Hsv. apply andb_prop in Hsv as [Hne Hsv].
      apply negb_true_iff, bool_decide_eq_false in Hne. apply Hold; [set_solver|done].
    + destruct (IH _ Ho) as [Hnd Hold]. split; [done|]. intros key Hkey Hsv.
      rewrite survives_cons in Hsv. apply andb_prop in Hsv as [_ Hsv]. by apply Hold.
Qed.

(** The table after the events: what was there and lives on, and the entries of
    the live sessions. *)
Lemma table_after by_iqn evs live key s :
  orderly by_iqn (dom live) evs → (∀ key, is_Some (live !! key) → is_Some (by_iqn !! key.1)) →
  foldl (table_event by_iqn) live evs !! key = Some s ↔
  live !! key = Some s ∧ survives evs key = true ∨ (key, s) ∈ entries by_iqn evs.
Proof.
  revert live. induction evs as [|[e now|e] evs IH]; intros live Ho Hknown.
  - simpl. rewrite elem_of_nil. naive_solver.
  - simpl in Ho. rewrite entries_start, elem_of_app, survives_cons. simpl foldl. simpl ended_by. simpl negb.
    cbv beta iota delta [andb]. case_decide as Hk.
    + destruct Ho as [Hnew Ho]. destruct (entry by_iqn (e, now)) as [kv|] eqn:He.
      2: { unfold entry in He. simpl in He. destruct Hk as [l Hl]. by rewrite Hl in He. }
      destruct (entry_key _ _ _ He) as [Hkey Hks]. simpl in Hkey. apply not_elem_of_dom in Hnew.
      rewrite IH; [|by rewrite dom_insert_L, Hkey|].
      2: { intros k' Hk'. destruct (decide (k' = kv.1)) as [->|Hne]; [done|].
           rewrite lookup_insert_ne in Hk' by done. by apply Hknown. }
      rewrite lookup_insert_Some, Hkey. simpl. destruct kv as [k0 s0]. simpl in *. subst k0.
      destruct (survives evs (session_of e)) eqn:Hs; simpl; rewrite ?list_elem_of_singleton, ?elem_of_nil;
        (destruct (decide (session_of e = key)) as [<-|]; [rewrite Hnew, Hs|]; naive_solver).
    + assert (He : entry by_iqn (e, now) = None) by (unfold entry; simpl; by rewrite (proj2 (eq_None_not_Some _) Hk)).
      rewrite He, (IH live) by done. 
      assert (Hnil : ∀ x, x ∉ (if survives evs (session_of e) then
        option_list (None : option ((string * string) * LiveSessionInner)) else []))
        by (intros x; destruct (survives evs (session_of e)); apply not_elem_of_nil).
      specialize (Hnil (key, s)). tauto.
  - simpl in Ho. change (entries by_iqn (Ended e :: evs)) with (entries by_iqn evs). rewrite survives_cons. simpl.
    case_decide as Hk.
    + destruct Ho as [Hin Ho]. destruct Hk as [l Hl]. rewrite Hl, IH; [|by rewrite dom_delete_L|].
      2: { intros k' [x [_ Hx]%lookup_delete_Some]. apply Hknown. by exists x. }
      rewrite lookup_delete_Some. destruct (bool_decide_reflect (session_of e = key)); simpl; naive_solver.
    + rewrite (proj2 (eq_None_not_Some _) Hk), IH by done.
      destruct (bool_decide_reflect (session_of e = key)) as [<-|]; simpl; [|done].
      split; [|naive_solver]. intros [[Hl _]|?]; [|by right]. destruct Hk. by apply (Hknown (session_of e)).
Qed.

Lemma table_entries by_iqn evs :
  orderly by_iqn ∅ evs → map_to_list (foldl (table_event by_iqn) ∅ evs) ≡ₚ entries by_iqn evs.
Proof.
  intros Ho. destruct (entries_keys _ _ _ Ho) as [Hnd _]. apply NoDup_Permutation.
  - apply NoDup_map_to_list.
  - by apply (NoDup_fmap_1 fst).
  - intros [key s]. rewrite elem_of_map_to_list, table_after;
      [|by rewrite dom_empty_L|intros k [x Hx]; by rewrite lookup_empty in Hx].
    rewrite lookup_empty. naive_solver.
Qed.

(** The live sessions on a target, by the table. *)
Definition live_on (iqn : string) (live : gmap (string * string) LiveSessionInner) : nat :=
  size (filter (λ kv, kv.1.1 = iqn) live).

Lemma live_on_insert iqn key s live :
  live !! key = None →
  Z.of_nat (live_on iqn (<[key := s]> live)) = Z.of_nat (live_on iqn live) + if decide (key.1 = iqn) then 1 else 0.
Proof.
  intros Hk. unfold live_on. case_decide as Hd.
  - rewrite map_filter_insert_True by done. rewrite map_size_insert_None; [lia|].
    apply map_lookup_filter_None. by left.
  - rewrite map_filter_insert_False by done. rewrite delete_id by done. lia.
Qed.
Lemma live_on_delete iqn key s live :
  live !! key = Some s →
  Z.of_nat (live_on iqn (delete key live)) = Z.of_nat (live_on iqn live) - if decide (key.1 = iqn) then 1 else 0.
Proof.
  intros Hk. pose proof (live_on_insert iqn key s (delete key live) ltac:(apply lookup_delete_eq)) as Hi.
  rewrite insert_delete_eq, insert_id in Hi by done. lia.
Qed.
Lemma live_on_entries iqn by_iqn evs live :
  is_Some (by_iqn !! iqn) → map_to_list live ≡ₚ entries by_iqn evs → live_on iqn live = live_count iqn evs.
Proof.
  intros [l Hl] Hp. unfold live_on, live_count.
  trans (length (filter (λ kv, kv.1.1 = iqn) (map_to_list live))).
  { rewrite map_filter_alt, <- length_map_to_list. apply Permutation_length, map_to_list_to_map.
    eapply sublist_NoDup; [apply (NoDup_fst_map_to_list live)|]. apply fmap_sublist, sublist_filter. }
  rewrite (filter_Permutation _ _ _ Hp). unfold entries. generalize (live_sessions evs). clear Hp.
  intros ss. induction ss as [|s ss IH]; [done|]. simpl. rewrite filter_cons. unfold entry at 1.
  case_decide as Hs.
  - rewrite Hs, Hl. simpl. rewrite filter_cons, decide_True by done. simpl. f_equal. exact IH.
  - destruct (by_iqn !! se_target_iqn s.1) as [l'|]; cbn [mbind option_bind]; [|exact IH].
    rewrite filter_cons, decide_False by done. exact IH.
Qed.
Lemma live_on_size iqn live : (live_on iqn live ≤ size live)%nat.
Proof. apply map_subseteq_size, map_filter_subseteq. Qed.

(** The table and the gauges after [n] reports of which [st] are starts. *)
Record accounted (n : nat) (st : string → nat) k : Prop := {
  ac_typed : typed (sk_metrics k);
  ac_iqn iqn l : sk_by_iqn k !! iqn = Some l → vl_iqn l = iqn;
  ac_live key s : sk_live k !! key = Some s →
    li_target_iqn s = key.1 ∧ li_peer s = key.2 ∧
    ∃ l, sk_by_iqn k !! key.1 = Some l ∧ li_volume s = vl_volume l;
  ac_size : (size (sk_live k) ≤ n)%nat;
  ac_starts iqn : (st iqn ≤ n)%nat;
  ac_active iqn l : sk_by_iqn k !! iqn = Some l →
    vec_value (me_series (sk_metrics k) IscsiSessionsActive) [vl_volume l; vl_iqn l] = Z.of_nat (live_on iqn (sk_live k));
  ac_total iqn l : sk_by_iqn k !! iqn = Some l →
    vec_value (me_series (sk_metrics k) IscsiSessionsTotal) [vl_volume l; vl_iqn l] = Z.of_nat (st iqn)
}.

Lemma labels_ne k iqn iqn' l l' :
  sk_by_iqn k !! iqn = Some l → sk_by_iqn k !! iqn' = Some l' → (∀ iqn l, sk_by_iqn k !! iqn = Some l → vl_iqn l = iqn) →
  iqn ≠ iqn' → [vl_volume l; vl_iqn l] ≠ [vl_volume l'; vl_iqn l'].
Proof. intros Hl Hl' Hk Hne Heq. simplify_eq. destruct Hne. rewrite <- (Hk _ _ Hl), <- (Hk _ _ Hl'). congruence. Qed.

Definition count_start (iqn : string) (st : string → nat) (i : string) : nat :=
  if decide (i = iqn) then S (st i) else st i.

Lemma start_accounted n st k e now :
  accounted n st k → Z.of_nat n + 1 < 2 ^ 63 → sk_live k !! session_of e = None →
  is_Some (sk_by_iqn k !! se_target_iqn e) →
  wp (on_session_start e now)
    (λ _ k', accounted (S n) (count_start (se_target_iqn e) st) k' ∧ sk_by_iqn k' = sk_by_iqn k ∧
       sk_live k' = table_event (sk_by_iqn k) (sk_live k) (Started e now)) (λ _ _, False) k.
Proof.
  intros [Ht Hi Hl Hz Hs Ha Hc] Hn Hk [l Hl']. unfold on_session_start. wp_steps. rewrite Hl'.
  wp_step. unfold metrics. wp_step. unfold session_started. cbv zeta. wp_step.
  apply update_spec; [done|done|]. apply update_spec; [by apply typed_with; [intros; apply vec_add_labels|]|done|].
  wp_step. set (vals := [vl_volume l; vl_iqn l]).
  pose proof (live_on_size (se_target_iqn e) (sk_live k)).
  split; [|split; [done|unfold table_event, entry; simpl; by rewrite Hl']]. constructor; simpl.
  - intros s. simpl. repeat case_decide; subst; rewrite ?vec_add_labels; apply Ht.
  - done.
  - intros key s Hlk. apply lookup_insert_Some in Hlk as [[<- <-]|[_ Hlk]]; [|by apply Hl].
    simpl. split; [done|]. split; [done|]. by exists l.
  - rewrite map_size_insert_None by done. lia.
  - intros iqn. unfold count_start. specialize (Hs iqn). case_decide; lia.
  - intros iqn l' Hl2. rewrite live_on_insert by done. simpl.
    destruct (decide (se_target_iqn e = iqn)) as [<-|Hne].
    + assert (l' = l) as -> by congruence. rewrite vec_add_value; rewrite (Ha _ _ Hl'); [done|lia].
    + rewrite vec_add_other, (Ha _ _ Hl2); [lia|]. by apply (labels_ne k (se_target_iqn e) iqn).
  - intros iqn l' Hl2. unfold count_start. case_decide as Hd; simpl.
    + subst iqn. assert (l' = l) as -> by congruence. specialize (Hs (se_target_iqn e)).
      rewrite vec_add_value; rewrite (Hc _ _ Hl'); lia.
    + rewrite vec_add_other, (Hc _ _ Hl2); [done|]. by apply (labels_ne k (se_target_iqn e) iqn).
Qed.

Lemma end_accounted n st k e :
  accounted n st k → Z.of_nat n < 2 ^ 63 → is_Some (sk_live k !! session_of e) →
  is_Some (sk_by_iqn k !! se_target_iqn e) →
  wp (on_session_end e)
    (λ _ k', accounted n st k' ∧ sk_by_iqn k' = sk_by_iqn k ∧
       sk_live k' = table_event (sk_by_iqn k) (sk_live k) (Ended e)) (λ _ _, False) k.
Proof.
  intros [Ht Hi Hl Hz Hs Ha Hc] Hn [s0 Hk] [l Hl']. unfold on_session_end. wp_steps. rewrite Hl'.
  wp_step. unfold metrics. wp_step. unfold session_ended. cbv zeta.
  apply update_spec; [done|done|]. wp_step.
  pose proof (live_on_size (se_target_iqn e) (sk_live k)).
  pose proof (live_on_delete (se_target_iqn e) _ _ _ Hk) as Hd. simpl in Hd. rewrite decide_True in Hd by done.
  split; [|split; [done|unfold table_event; by rewrite Hl']]. constructor; simpl.
  - intros s. simpl. repeat case_decide; subst; rewrite ?vec_add_labels; apply Ht.
  - done.
  - intros key s Hlk. apply lookup_delete_Some in Hlk as [_ Hlk]. by apply Hl.
  - rewrite map_size_delete_Some by (by eexists). lia.
  - done.
  - intros iqn l' Hl2. rewrite (live_on_delete _ _ _ _ Hk). simpl.
    destruct (decide (se_target_iqn e = iqn)) as [<-|Hne].
    + assert (l' = l) as -> by congruence. rewrite vec_add_value; rewrite (Ha _ _ Hl'); lia.
    + rewrite vec_add_other, (Ha _ _ Hl2); [lia|]. by apply (labels_ne k (se_target_iqn e) iqn).
  - done.
Qed.

Lemma accounted_mono n st k : accounted n st k → accounted (S n) st k.
Proof. intros [Ht Hi Hl Hz Hs Ha Hc]. constructor; try done; [lia|]. intros iqn. specialize (Hs iqn). lia. Qed.

Lemma accounted_ext n st st' k : (∀ i, st i = st' i) → accounted n st k → accounted n st' k.
Proof. intros Hst [Ht Hi Hl Hz Hs Ha Hc]. constructor; try done; intros; rewrite <- Hst; auto. Qed.

Lemma skip_unknown ev k :
  ¬ is_Some (sk_by_iqn k !! se_target_iqn match ev with Started e _ => e | Ended e => e end) →
  sink_event ev k = (Ok tt, k).
Proof.
  intros Hn. apply eq_None_not_Some in Hn.
  destruct ev as [e now|e]; simpl in *; unfold on_session_start, on_session_end, mbind, M_bind, get; by rewrite Hn.
Qed.

Lemma table_event_unknown by_iqn live ev :
  ¬ is_Some (by_iqn !! se_target_iqn match ev with Started e _ => e | Ended e => e end) →
  table_event by_iqn live ev = live.
Proof.
  intros Hs%eq_None_not_Some. destruct ev; unfold table_event, entry; simpl; by rewrite Hs.
Qed.

Lemma sink_run_accounted evs n st k :
  accounted n st k → orderly (sk_by_iqn k) (dom (sk_live k)) evs → Z.of_nat n + Z.of_nat (length evs) < 2 ^ 63 →
  wp (sink_run evs) (λ _ k', sk_by_iqn k' = sk_by_iqn k ∧
    sk_live k' = foldl (table_event (sk_by_iqn k)) (sk_live k) evs ∧ ∃ n' st', accounted n' st' k' ∧
    ∀ iqn, is_Some (sk_by_iqn k !! iqn) → st' iqn = (st iqn + starts iqn evs)%nat) (λ _ _, False) k.
Proof.
  revert n st k. induction evs as [|ev evs IH]; intros n st k Hk Ho Hn.
  { simpl. wp_step. split; [done|]. split; [done|]. exists n, st. split; [done|]. intros iqn _. unfold starts. simpl. lia. }
  simpl in Hn. simpl sink_run. wp_step.
  destruct (decide (is_Some (sk_by_iqn k !! se_target_iqn match ev with Started e _ => e | Ended e => e end)))
    as [Hs|Hs].
  2: { unfold wp at 1. rewrite (skip_unknown ev k Hs). cbv beta iota.
    eapply wp_mono; [apply (IH n st k); [done| |lia]| |done].
    { destruct ev; simpl in Ho; by rewrite decide_False in Ho. }
    intros [] k' (Hb & Hlv & n' & st' & Hk' & Hst). split; [done|].
    split; [by rewrite Hlv; simpl; rewrite (table_event_unknown _ _ _ Hs)|]. exists n', st'. split; [done|].
    intros iqn Hi. rewrite Hst by done. unfold starts. simpl. destruct ev as [e now|e]; [|done].
    destruct (String.eqb_spec (se_target_iqn e) iqn) as [<-|]; [done|done]. }
  destruct ev as [e now|e]; simpl in Ho; rewrite decide_True in Ho by done; destruct Ho as [Hlive Ho].
  - eapply wp_mono; [apply (start_accounted n st); [done|lia|by apply not_elem_of_dom|done]| |done].
    intros [] k1 (Hk1 & Hb1 & Hd1). eapply wp_mono; [apply (IH (S n) _ k1 Hk1); [|lia]| |done].
    { rewrite Hb1, Hd1. unfold table_event, entry. simpl. destruct Hs as [l Hl]. simpl in Hl. rewrite Hl. simpl.
      by rewrite dom_insert_L. }
    intros [] k' (Hb & Hlv & n' & st' & Hk' & Hst). split; [congruence|].
    split; [by rewrite Hlv, Hb1, Hd1|]. exists n', st'. split; [done|].
    intros iqn Hi. rewrite Hst by (by rewrite Hb1). unfold count_start, starts. simpl.
    destruct (String.eqb_spec (se_target_iqn e) iqn) as [->|Hne]; simpl; [rewrite decide_True by done; lia|].
    by rewrite decide_False by done.
  - eapply wp_mono; [apply (end_accounted n st); [done|lia|by apply elem_of_dom|done]| |done].
    intros [] k1 (Hk1 & Hb1 & Hd1). eapply wp_mono; [apply (IH n _ k1 Hk1); [|lia]| |done].
    { rewrite Hb1, Hd1. unfold table_event. simpl. destruct Hs as [l Hl]. simpl in Hl. rewrite Hl.
      by rewrite dom_delete_L. }
    intros [] k' (Hb & Hlv & n' & st' & Hk' & Hst). split; [congruence|].
    split; [by rewrite Hlv, Hb1, Hd1|]. exists n', st'. split; [done|].
    intros iqn Hi. rewrite Hst by (by rewrite Hb1). done.
Qed.

(** ** A new sink *)
Lemma index_iqn volumes iqn l : index volumes !! iqn = Some l → vl_iqn l = iqn.
Proof.
  unfold index. induction volumes as [|v vs IH] using rev_ind; [done|].
  rewrite foldl_snoc. simpl. rewrite lookup_insert_Some. intros [[<- <-]|[_ Hl]]; auto.
Qed.

Lemma zero_active_spec ls m (done_ : list VolumeLabels) :
  typed m → (∀ l, l ∈ done_ → vec_value (me_series m IscsiSessionsActive) [vl_volume l; vl_iqn l] = 0) →
  wp (zero_active ls) (λ _ m', typed m' ∧ me_series m' IscsiSessionsTotal = me_series m IscsiSessionsTotal ∧
    ∀ l, l ∈ done_ ++ ls → vec_value (me_series m' IscsiSessionsActive) [vl_volume l; vl_iqn l] = 0) (λ _ _, False) m.
Proof.
  revert m done_. induction ls as [|l ls IH]; intros m dn Ht Hd; simpl.
  { wp_step. rewrite app_nil_r. done. }
  wp_step. apply update_spec; [done|done|]. set (vals := [vl_volume l; vl_iqn l]).
  eapply wp_mono; [apply (IH _ (dn ++ [l]))| |done].
  - apply typed_with; [intros; apply vec_set_labels|done].
  - intros l' Hl'. rewrite with_series_same. destruct (decide (vals = [vl_volume l'; vl_iqn l'])) as [Heq|Hne].
    + rewrite <- Heq. apply vec_set_value.
    + rewrite vec_set_other by done. apply elem_of_app in Hl' as [Hl'|Hl']; [by apply Hd|].
      apply list_elem_of_singleton in Hl' as ->. done.
  - intros [] m' (Ht' & Htot & Hall). split; [done|]. split; [done|]. by rewrite <- app_assoc in Hall.
Qed.

Lemma sink_new_accounted m volumes :
  typed m → (∀ vals, vec_value (me_series m IscsiSessionsTotal) vals = 0) →
  ∃ k, Sessions.new m volumes = Ok k ∧ sk_by_iqn k = index volumes ∧ sk_live k = ∅ ∧ accounted 0 (λ _, O) k.
Proof.
  intros Ht Htot. unfold Sessions.new. cbv zeta.
  destruct (wp_ok _ _ _ (zero_active_spec (map_to_list (index volumes)).*2 m [] Ht ltac:(set_solver)))
    as ([] & m' & Hrun & Ht' & Hsame & Hall).
  rewrite Hrun. eexists. split; [done|]. split; [done|]. split; [done|]. constructor; simpl; try done.
  - apply index_iqn.
  - intros iqn l Hl. rewrite Hall; [done|]. simpl. apply list_elem_of_fmap. exists (iqn, l).
    split; [done|]. by apply elem_of_map_to_list.
  - intros iqn l Hl. by rewrite Hsame, Htot.
Qed.

(** C34: The session gauges tell the truth. After any orderly sequence of
    session starts and ends, the table holds exactly one entry per live session
    of a known target, that is per session that started and has not ended, under
    its target and peer and with its volume, initiator and start time; the active
    gauge of every volume is the number of live sessions on its target, and its
    cumulative counter the number of sessions ever started there. *)
Theorem sessions_accounted m volumes k evs :
  typed m → (∀ vals, vec_value (me_series m IscsiSessionsTotal) vals = 0) →
  Sessions.new m volumes = Ok k → orderly (sk_by_iqn k) ∅ evs → Z.of_nat (length evs) < 2 ^ 63 →
  ∃ k', sink_run evs k = (Ok tt, k') ∧
    map_to_list (sk_live k') ≡ₚ entries (index volumes) evs ∧
    ∀ iqn l, index volumes !! iqn = Some l →
      let vals := [vl_volume l; iqn] in
      vec_value (me_series (sk_metrics k') IscsiSessionsActive) vals = Z.of_nat (live_count iqn evs) ∧
      vec_value (me_series (sk_metrics k') IscsiSessionsTotal) vals = Z.of_nat (starts iqn evs).
Proof.
  intros Ht Htot Hnew Ho Hn. destruct (sink_new_accounted m volumes Ht Htot) as (k0 & Hk0 & Hb & Hl & Ha).
  assert (k0 = k) as -> by congruence.
  destruct (wp_ok _ _ _ (sink_run_accounted evs 0 (λ _, O) k Ha ltac:(by rewrite Hl, dom_empty_L) ltac:(lia)))
    as ([] & k' & Hrun & Hb' & Hlv & n' & st' & Hk' & Hst).
  assert (Hp : map_to_list (sk_live k') ≡ₚ entries (index volumes) evs)
    by (rewrite Hlv, Hl, Hb; apply table_entries; by rewrite <- Hb).
  exists k'. split; [done|]. split; [done|].
  - intros iqn l Hi. rewrite <- (live_on_entries iqn _ _ _ (mk_is_Some _ _ Hi) Hp). rewrite Hb in Hb', Hst. cbv zeta.
    pose proof (ac_active _ _ _ Hk' iqn l ltac:(by rewrite Hb')) as Hact.
    pose proof (ac_total _ _ _ Hk' iqn l ltac:(by rewrite Hb')) as Htt.
    rewrite (index_iqn _ _ _ Hi) in Hact, Htt. split; [done|]. by rewrite Htt, Hst.
Qed.

(** The listing: the live sessions the selector names, in an order that does not
    depend on the hash map's, as long as different targets have different volume
    names. *)
Lemma sessions_listing (now : Z) (sel : option string) (live : gmap (string * string) LiveSessionInner)
    (values values' : list LiveSessionInner) :
  (∀ key s, live !! key = Some s → (li_target_iqn s, li_peer s) = key) →
  (∀ key key' s s', live !! key = Some s → live !! key' = Some s' →
     li_volume s = li_volume s' → li_target_iqn s = li_target_iqn s') →
  values ≡ₚ (map_to_list live).*2 → values' ≡ₚ (map_to_list live).*2 →
  list_sessions now sel values = list_sessions now sel values' ∧
  ∀ x, x ∈ list_sessions now sel values ↔
    ∃ key s, live !! key = Some s ∧ selected sel s = true ∧ x = view now s.
Proof.
  intros Hkey Hname Hv Hv'.
  assert (Hin : ∀ vs x, vs ≡ₚ (map_to_list live).*2 → x ∈ list_sessions now sel vs ↔
    ∃ key s, live !! key = Some s ∧ selected sel s = true ∧ x = view now s).
  { intros vs x Hvs. rewrite list_sessions_perm, list_elem_of_In, in_map_iff. split.
    - intros (s & <- & Hs). apply filter_In in Hs as [Hs Hsel]. apply list_elem_of_In in Hs.
      rewrite Hvs, list_elem_of_fmap in Hs. destruct Hs as ([key s'] & -> & Hs).
      apply elem_of_map_to_list in Hs. by exists key, s'.
    - intros (key & s & Hs & Hsel & ->). exists s. split; [done|]. apply filter_In. split; [|done].
      apply list_elem_of_In. rewrite Hvs, list_elem_of_fmap. exists (key, s). split; [done|].
      by apply elem_of_map_to_list. }
  split; [|intros x; by apply Hin].
  apply (StronglySorted_unique_strong session_le); [|apply list_sessions_sorted..|].
  - intros x y Hx Hy Hle Hge. apply Hin in Hx as (key & s & Hs & _ & ->); [|done].
    apply Hin in Hy as (key' & s' & Hs' & _ & ->); [|done].
    pose proof (anti_symm (lex String.le (lex String.le String.le)) _ _ Hle Hge) as Heq.
    unfold session_key, view in Heq. simpl in Heq. simplify_eq.
    assert (key = key') as ->; [|congruence].
    rewrite <- (Hkey _ _ Hs), <- (Hkey _ _ Hs'). f_equal; [by eapply Hname|done].
  - rewrite !list_sessions_perm. apply Permutation_map.
    assert (Hf : ∀ l l' : list LiveSessionInner, l ≡ₚ l' → List.filter (selected sel) l ≡ₚ List.filter (selected sel) l').
    { intros l l'. induction 1; simpl; repeat case_match; eauto using Permutation. }
    apply Hf. by rewrite Hv, Hv'.
Qed.
End sessions.

(** ** Witnesses *)

(** A registry in memory. *)
Module MemProm.
Record vec : Type := { mv_name : string; mv_labels : list string; mv_values : gmap (list string) Z }.
Definition value (v : vec) (l : list string) : Z := default 0 (mv_values v !! l).
Definition put (l : list string) (n : Z) (v : vec) : vec :=
  {| mv_name := mv_name v; mv_labels := mv_labels v; mv_values := <[l := n]> (mv_values v) |}.
Definition make (name help : string) (labels : list string) : outcome string vec :=
  if name_ok true name && negb (String.eqb help "") && forallb (name_ok false) labels && bool_decide (NoDup labels)
  then Ok {| mv_name := name; mv_labels := labels; mv_values := ∅ |} else Err "invalid descriptor".
Definition enter (v : vec) (r : list string) : outcome string (list string) :=
  if decide (mv_name v ∈ r) then Err "AlreadyReg" else Ok (r ++ [mv_name v]).

#[export] Instance prometheus : Prometheus := {
  Vec := vec; Registry := list string;
  vec_new _ := make; vec_name := mv_name; vec_labels := mv_labels; vec_value := value;
  vec_add l n v := put l (value v l + n) v; vec_set := put; vec_observe _ _ v := v;
  registry_new := []; registered r := r; register := enter; text_encode _ := inr "no text"
}.
#[export] Instance prometheus_laws : PrometheusLaws.
Proof.
  constructor; simpl; try done.
  - intros _ name help labels Hn Hh Hl Hd. eexists. unfold make. rewrite Hn, Hl, bool_decide_true by done.
    by destruct (String.eqb_spec help "").
  - intros _ name help labels v. unfold make. case_match; [|done]. by intros [= <-].
  - intros _ name help labels v. unfold make. case_match; [|done]. by intros [= <-].
  - intros l n v _. unfold value, put. simpl. by rewrite lookup_insert_eq.
  - intros l l' n v Hl. unfold value, put. simpl. by rewrite lookup_insert_ne.
  - intros l n v. unfold value, put. simpl. by rewrite lookup_insert_eq.
  - intros l l' n v Hl. unfold value, put. simpl. by rewrite lookup_insert_ne.
  - intros v r Hr. exists (r ++ [mv_name v]). unfold enter. by rewrite decide_False.
Qed.
End MemProm.

Section witnesses.
Import MemProm Sessions.

Definition vol_a : VolumeLabels := {| vl_volume := "a"; vl_iqn := "iqn.a" |}.
Definition first_metrics : Metrics :=
  match Met.new with Ok m => m | _ => {| me_registry := []; me_series := λ _, {| mv_name := ""; mv_labels := [];
    mv_values := ∅ |}; me_perf := Counters.zeroed |} end.
Lemma first_typed : typed first_metrics.
Proof. destruct new_ok as (m & Hm & Ht & _). unfold first_metrics. rewrite Hm. exact Ht. Qed.

Lemma metrics_never_panic_witness :
  ∃ m : Metrics, Met.new = Ok m ∧ ∀ es, ∃ m', apply_events es m = (Ok tt, m').
Proof. exact metrics_never_panic. Defined.

Definition ms (n : Z) : Duration := {| du_secs := 0; du_nanos := n * 1000000 |}.
Definition window : list Event :=
  [EScsi vol_a "read" 4096 (ms 3) true; ES3 vol_a "get" 4096 (ms 2) true; ECache vol_a false;
   EScsi vol_a "read" 4096 (ms 1) true; ECache vol_a true; ES3 vol_a "put_meta" 10 (ms 9) true].

Lemma ran es : apply_events es first_metrics = (Ok tt, (apply_events es first_metrics).2).
Proof.
  destruct new_ok as (m & Hm & Ha). assert (Hf : first_metrics = m) by (unfold first_metrics; by rewrite Hm).
  rewrite Hf. destruct (wp_ok _ _ _ (apply_events_after _ es m Ha)) as ([] & m' & -> & _). done.
Qed.

Lemma window_delta_witness :
  Counters.delta (perf_counters (apply_events window first_metrics).2) (perf_counters first_metrics) =
    {| pc_scsi_read := {| la_count := 2; la_sum_us := 4000 |}; pc_scsi_write := Latency.fresh;
       pc_scsi_flush := Latency.fresh; pc_s3_get := {| la_count := 1; la_sum_us := 2000 |}; pc_s3_put := Latency.fresh;
       pc_cache_hits := 1; pc_cache_misses := 1 |}.
Proof.
  assert (Hc : ∀ c, c = {| pc_scsi_read := {| la_count := 2; la_sum_us := 4000 |}; pc_scsi_write := Latency.fresh;
       pc_scsi_flush := Latency.fresh; pc_s3_get := {| la_count := 1; la_sum_us := 2000 |}; pc_s3_put := Latency.fresh;
       pc_cache_hits := 1; pc_cache_misses := 1 |} → wide c).
  { intros c ->. constructor; repeat split; vm_compute; congruence. }
  refine (eq_trans (window_delta first_metrics window (apply_events window first_metrics).2 first_typed _ _ _) _).
  - constructor; repeat split; vm_compute; congruence.
  - apply Hc. vm_compute. reflexivity.
  - exact (ran window).
  - vm_compute. reflexivity.
Defined.

Definition session (peer : string) : SessionEvent :=
  {| se_target_iqn := "iqn.a"; se_initiator_iqn := "iqn.client"; se_peer := peer |}.
Definition first_sink : SessionMetricsSink :=
  match Sessions.new first_metrics [vol_a] with
  | Ok k => k
  | _ => {| sk_metrics := first_metrics; sk_by_iqn := ∅; sk_live := ∅ |}
  end.
Definition three_events : list SinkEvent :=
  [Started (session "10.0.0.1:1") 0; Started (session "10.0.0.2:1") 5; Ended (session "10.0.0.1:1")].

Lemma first_totals vals : vec_value (me_series first_metrics IscsiSessionsTotal) vals = 0.
Proof. destruct vals as [|v vals]; vm_compute; reflexivity. Qed.
Lemma first_sink_new : Sessions.new first_metrics [vol_a] = Ok first_sink.
Proof.
  unfold first_sink. destruct (sink_new_accounted first_metrics [vol_a] first_typed first_totals) as (k & Hk & _).
  by rewrite Hk.
Qed.

Lemma sessions_accounted_witness :
  ∃ k', sink_run three_events first_sink = (Ok tt, k') ∧
    map_to_list (sk_live k') = [(("iqn.a", "10.0.0.2:1"), {| li_volume := "a"; li_target_iqn := "iqn.a";
      li_initiator_iqn := "iqn.client"; li_peer := "10.0.0.2:1"; li_started := 5 |})] ∧
    vec_value (me_series (sk_metrics k') IscsiSessionsActive) ["a"; "iqn.a"] = 1 ∧
    vec_value (me_series (sk_metrics k') IscsiSessionsTotal) ["a"; "iqn.a"] = 2.
Proof.
  destruct (sessions_accounted first_metrics [vol_a] first_sink three_events first_typed) as (k' & Hrun & Hp & Hall).
  - exact first_totals.
  - exact first_sink_new.
  - vm_compute. repeat split; congruence.
  - vm_compute. reflexivity.
  - exists k'. split; [exact Hrun|]. split; [apply Permutation_singleton_r; exact Hp|]. destruct (Hall "iqn.a" vol_a ltac:(vm_compute; reflexivity)) as [Ha Ht].
    split; [exact Ha|exact Ht].
Defined.

(** ** Observed flaw *)

(** Live sessions are keyed by target and peer address alone. A client that uses
    one local port for two portals has two sessions under one key: when the first
    ends, the table is empty while the gauge still counts one. *)
Theorem shared_peer_loses_session :
  let r := sink_run [Started (session "10.0.0.1:1") 0; Started (session "10.0.0.1:1") 1; Ended (session "10.0.0.1:1")]
    first_sink in
  r.1 = Ok tt ∧ vec_value (me_series (sk_metrics r.2) IscsiSessionsActive) ["a"; "iqn.a"] = 1 ∧
  map_to_list (sk_live r.2) = [].
Proof. vm_compute. done. Qed.
End witnesses.
End MetricsTheorems.
