(* ===== verification/Admin.v ===== *)
(** * The admin control plane (src/src/admin.rs)

    The state behind the admin socket and its request handlers. The volumes
    share one bucket and one chunk cache: [focus] runs a computation on the
    store of one volume with the shared parts in place. *)
From S2P Require Import Prelude Tables Text Store Compression Snapshot S3Api S3Keys S3Store S3Snap.
From S2P Require Import Cache CachedStore WriteBuffer WriteCache WriteBack Ready Stack Config Images.
From S2P Require Import Value Float Metrics Sessions.
#[local] Open Scope string_scope.
#[local] Open Scope list_scope.
#[local] Open Scope Z_scope.
Import Text.

Record VolumeSummary : Type := {
  vs_name : string;
  vs_iqn : string;
  vs_capacity : Z;
  vs_auth : string;
  vs_prefix : string;
  vs_chunk_size : Z;
  vs_compression : string;
  vs_storage : string;
  vs_write_cache : string;
  vs_write_cache_max_bytes : Z;
  vs_write_buffer_max_bytes : Z
}.
Record AdminVolumeHandle (B : Type) : Type := {
  ah_name : string;
  ah_iqn : string;
  ah_store : Stack.volume_store B
}.
Arguments ah_name {B} _.
Arguments ah_iqn {B} _.
Arguments ah_store {B} _.
Record AdminSnapshot : Type := {
  as_bind : string;
  as_portals : list string;
  as_instance : option string;
  as_volumes : list VolumeSummary;
  as_cache_max_bytes : Z;
  as_s3_bucket : option string;
  as_s3_endpoint : option string;
  as_s3_region : string;
  as_s3_force_path_style : bool;
  as_performance_optimiser : bool
}.

(** [ad_metrics] are the process-wide series; the connection and session counts
    are those of the iSCSI server; instants are in nanoseconds. *)
Record AdminState (B : Type) `{Prometheus} : Type := {
  ad_config_path : option string;
  ad_started : Z;
  ad_cache : CacheInner;
  ad_env : Env B;
  (** The values of the sink's table of live sessions. *)
  ad_sessions : list LiveSessionInner;
  ad_snapshot : AdminSnapshot;
  ad_volume_stores : list (AdminVolumeHandle B);
  ad_metrics : Metrics;
  ad_connection_count : Z;
  ad_session_count : Z;
  ad_unix_time : Z;
  (** [Instant::now()] *)
  ad_instant : Z
}.
Arguments ad_config_path {B _} _.
Arguments ad_started {B _} _.
Arguments ad_cache {B _} _.
Arguments ad_env {B _} _.
Arguments ad_sessions {B _} _.
Arguments ad_snapshot {B _} _.
Arguments ad_volume_stores {B _} _.
Arguments ad_metrics {B _} _.
Arguments ad_connection_count {B _} _.
Arguments ad_session_count {B _} _.
Arguments ad_unix_time {B _} _.
Arguments ad_instant {B _} _.

Record AdminRequest : Type := {
  rq_op : string;
  rq_max_bytes : option Value;
  rq_volume : option string;
  rq_to : option string;
  rq_size : option Z;
  rq_capacity : option Value;
  rq_id : option string;
  rq_name : option string;
  rq_force : bool;
  rq_resume_from : option Z
}.

Record RejectedChange : Type := { rj_field : string; rj_reason : string }.
Record ReloadResult : Type := {
  rl_applied : list string;
  rl_rejected : list RejectedChange;
  rl_warnings : list string;
  rl_bind_unchanged : bool
}.

(** ** What the replies carry, as [#[derive(Serialize)]] writes it *)
#[export] Instance summary_serialize : Serialize VolumeSummary := λ v, Js.obj [
  ("name", to_json (vs_name v)); ("iqn", to_json (vs_iqn v)); ("capacity", to_json (vs_capacity v));
  ("auth", to_json (vs_auth v)); ("prefix", to_json (vs_prefix v));
  ("chunk_size", to_json (vs_chunk_size v)); ("compression", to_json (vs_compression v));
  ("storage", to_json (vs_storage v)); ("write_cache", to_json (vs_write_cache v));
  ("write_cache_max_bytes", to_json (vs_write_cache_max_bytes v));
  ("write_buffer_max_bytes", to_json (vs_write_buffer_max_bytes v))].
#[export] Instance rejected_serialize : Serialize RejectedChange := λ r, Js.obj [
  ("field", to_json (rj_field r)); ("reason", to_json (rj_reason r))].
#[export] Instance session_serialize : Serialize LiveSession := λ s, Js.obj [
  ("volume", to_json (ls_volume s)); ("target_iqn", to_json (ls_target_iqn s));
  ("initiator_iqn", to_json (ls_initiator_iqn s)); ("peer", to_json (ls_peer s));
  ("started_secs_ago", to_json (ls_started_secs_ago s))].
#[export] Instance compression_serialize : Serialize Compression := λ c, JString (Comp.as_str c).
#[export] Instance snapshot_state_serialize : Serialize SnapshotState := λ s,
  JString (match s with Creating => "creating" | Snapshot.Ready => "ready" | Deleting => "deleting" end).
#[export] Instance manifest_serialize : Serialize SnapshotManifest := λ m, Js.obj [
  ("id", to_json (sm_id m)); ("created_at_unix", to_json (sm_created_at_unix m));
  ("parent", to_json (sm_parent m)); ("source_volume", to_json (sm_source_volume m));
  ("capacity_bytes", to_json (sm_capacity_bytes m)); ("chunk_size", to_json (sm_chunk_size m));
  ("block_size", to_json (sm_block_size m)); ("compression", to_json (sm_compression m));
  ("chunk_count", to_json (sm_chunk_count m)); ("chunks_object", to_json (sm_chunks_object m));
  ("hash_algo", to_json (sm_hash_algo m)); ("state", to_json (sm_state m));
  ("format_version", to_json (sm_format_version m))].
#[export] Instance gc_serialize : Serialize GcStats := λ g, Js.obj [
  ("objects_deleted", to_json (gc_objects_deleted g)); ("objects_referenced", to_json (gc_objects_referenced g))].
#[export] Instance restore_serialize : Serialize RestoreStats := λ r, Js.obj [
  ("pointers_written", to_json (rs_pointers_written r)); ("pointers_deleted", to_json (rs_pointers_deleted r));
  ("capacity", to_json (rs_capacity r))].
#[export] Instance clone_serialize : Serialize CloneStats := λ c, Js.obj [
  ("pointers_written", to_json (cs_pointers_written c)); ("objects_copied", to_json (cs_objects_copied c))].
#[export] Instance migrate_serialize : Serialize MigrateStats := λ m, Js.obj [
  ("chunks_migrated", to_json (mg_chunks_migrated m)); ("chunks_deleted", to_json (mg_chunks_deleted m));
  ("note", to_json (mg_note m))].

Module Admin.
(** ** Looking up volumes *)
Definition find_volume (volumes : list VolumeSummary) (selector : option string)
    : outcome string VolumeSummary :=
  match Conf.non_empty selector with
  | None => Err "volume name or IQN is required"
  | Some sel =>
      match list_find (λ v, vs_name v = sel ∨ vs_iqn v = sel) volumes with
      | Some (_, v) => Ok v
      | None => Err ("unknown volume " +:+ quoted sel)
      end
  end.

(** The position of the first handle with the volume's name or IQN. *)
Definition find_volume_store {B : Type} (stores : list (AdminVolumeHandle B)) (vol : VolumeSummary)
    : outcome string nat :=
  match list_find (λ h, ah_name h = vs_name vol ∨ ah_iqn h = vs_iqn vol) stores with
  | Some (i, _) => Ok i
  | None => Err ("no live store for volume " +:+ vs_name vol)
  end.

Section parsing.
Context `{Conf.ByteSize}.
Definition parse_max_bytes_value (val : Value) : outcome string Z :=
  match val with
  | JNumber _ =>
      match Js.as_u64 val with Some n => Ok n | None => Err "max_bytes must be a non-negative integer" end
  | JString s => Conf.parse_byte_size s
  | _ => Err "max_bytes must be a number or size string"
  end.
Definition parse_optional_max_bytes (v : option Value) : outcome string (option Z) :=
  match v with
  | None | Some JNull => Ok None
  | Some val => n ← parse_max_bytes_value val; Ok (Some n)
  end.
Definition parse_required_max_bytes (v : option Value) : outcome string Z :=
  match v with
  | None => Err "max_bytes is required"
  | Some val => parse_max_bytes_value val
  end.
End parsing.

(** Volume is seedable when it has no chunk objects yet. *)
Definition ensure_prefix_empty_for_seed (stats : PrefixObjectStats) : outcome string unit :=
  if ps_chunk_count stats >? 0 then
    Err ("volume is not empty: " +:+ dec (ps_chunk_count stats)
         +:+ " chunk object(s) already exist under the prefix")
  else Ok tt.

(** ** Reloading *)

Definition volume_changed (cur : VolumeSummary) (vol : VolumeConfig) : bool :=
  negb (bool_decide (vs_name cur = vc_name vol))
  || negb (bool_decide (vs_iqn cur = vc_iqn vol))
  || negb (bool_decide (vs_prefix cur = trim_matches slash (vc_prefix vol)))
  || negb (vs_capacity cur =? vc_capacity vol)
  || negb (vs_chunk_size cur =? vc_chunk_size vol)
  || negb (bool_decide (vs_compression cur = Comp.as_str (vc_compression vol)))
  || negb (bool_decide (vs_storage cur = Snap.mode_str (vc_storage vol)))
  || negb (bool_decide (vs_write_cache cur = Conf.write_cache_mode_str (wcc_mode (vc_write_cache vol))))
  || negb (vs_write_cache_max_bytes cur =? wcc_max_bytes (vc_write_cache vol))
  || negb (vs_write_buffer_max_bytes cur =? wbc_max_bytes (vc_write_buffer vol)).
Definition volumes_structurally_changed (current : AdminSnapshot) (new_cfg : Config) : bool :=
  negb (Nat.eqb (length (as_volumes current)) (length (cfg_volumes new_cfg)))
  || existsb (λ p, volume_changed p.1 p.2) (zip (as_volumes current) (cfg_volumes new_cfg)).

(** [if cond { list.push(x) }] *)
Definition push_if {A} (cond : bool) (x : A) (l : list A) : list A := if cond then l ++ [x] else l.

Definition rejected_changes (current : AdminSnapshot) (new_cfg : Config) : list RejectedChange :=
  let s3 := cfg_s3 new_cfg in
  push_if (match cfg_auth new_cfg with Some _ => true | None => false end
           || existsb (λ v, match vc_auth v with Some _ => true | None => false end) (cfg_volumes new_cfg)
           || existsb (λ v, negb (bool_decide (vs_auth v = "none"))) (as_volumes current))
    {| rj_field := "auth"; rj_reason := "CHAP / ACL changes require restart" |}
 (push_if (negb (Bool.eqb (cfg_performance_optimiser new_cfg) (as_performance_optimiser current)))
    {| rj_field := "performance_optimiser";
       rj_reason := "performance optimiser changes require restart" |}
 (push_if (negb (bool_decide (s3_bucket s3 = as_s3_bucket current))
           || negb (bool_decide (s3_endpoint s3 = as_s3_endpoint current))
           || negb (bool_decide (s3_region s3 = as_s3_region current))
           || negb (Bool.eqb (s3_force_path_style s3) (as_s3_force_path_style current)))
    {| rj_field := "s3"; rj_reason := "S3 bucket/endpoint/region/path-style changes require restart" |}
 (push_if (volumes_structurally_changed current new_cfg)
    {| rj_field := "volumes";
       rj_reason := "volume add/remove/iqn/prefix/geometry changes require restart" |}
 (push_if (negb (bool_decide (cfg_bind new_cfg = as_bind current)))
    {| rj_field := "bind"; rj_reason := "listen address cannot change without restart" |} [])))).

(** The portals shown after a reload. *)
Definition reloaded_portals (current : AdminSnapshot) (new_cfg : Config) : list string :=
  match cfg_portals new_cfg, cfg_advertise new_cfg with
  | [], Some a => [a]
  | [], None => as_portals current
  | ps, _ => ps
  end.

Definition apply_safe_reload (current : AdminSnapshot) (new_cfg : Config)
    : M CacheInner string ReloadResult :=
  let max := cac_max_bytes (cfg_cache new_cfg) in
  let resize := negb (max =? as_cache_max_bytes current) in
  _ ← (if resize then modify (if max =? 0 then Cache.disable else Cache.enable (Some max)) else mret tt);
  let moved := negb (bool_decide (reloaded_portals current new_cfg = as_portals current)) in
  mret {| rl_applied := push_if moved "portals/advertise@stats"
                          (push_if resize ("cache.max_bytes=" +:+ dec max) []);
          rl_rejected := rejected_changes current new_cfg;
          rl_warnings := push_if moved
            "portals/advertise updated in stats labels only; SendTargets still uses addresses from process start until restart" [];
          rl_bind_unchanged := bool_decide (cfg_bind new_cfg = as_bind current) |}.

(** ** Handlers *)
Section handlers.
Context {B : Type} `{S3Client B} `{Codecs} `{Blake3} `{Json} `{StampJson} `{Conf.ByteSize} `{Prometheus}.
Abbreviation MA := (M (AdminState B) string).
Implicit Types st : AdminState B.

Definition with_cache (c : CacheInner) st : AdminState B :=
  {| ad_config_path := ad_config_path st; ad_started := ad_started st; ad_cache := c;
     ad_env := ad_env st; ad_sessions := ad_sessions st; ad_snapshot := ad_snapshot st;
     ad_volume_stores := ad_volume_stores st; ad_metrics := ad_metrics st; ad_connection_count := ad_connection_count st;
     ad_session_count := ad_session_count st; ad_unix_time := ad_unix_time st; ad_instant := ad_instant st |}.
Definition with_env (e : Env B) st : AdminState B :=
  {| ad_config_path := ad_config_path st; ad_started := ad_started st; ad_cache := ad_cache st;
     ad_env := e; ad_sessions := ad_sessions st; ad_snapshot := ad_snapshot st;
     ad_volume_stores := ad_volume_stores st; ad_metrics := ad_metrics st; ad_connection_count := ad_connection_count st;
     ad_session_count := ad_session_count st; ad_unix_time := ad_unix_time st; ad_instant := ad_instant st |}.
Definition with_snapshot (s : AdminSnapshot) st : AdminState B :=
  {| ad_config_path := ad_config_path st; ad_started := ad_started st; ad_cache := ad_cache st;
     ad_env := ad_env st; ad_sessions := ad_sessions st; ad_snapshot := s;
     ad_volume_stores := ad_volume_stores st; ad_metrics := ad_metrics st; ad_connection_count := ad_connection_count st;
     ad_session_count := ad_session_count st; ad_unix_time := ad_unix_time st; ad_instant := ad_instant st |}.
Definition with_stores (l : list (AdminVolumeHandle B)) st : AdminState B :=
  {| ad_config_path := ad_config_path st; ad_started := ad_started st; ad_cache := ad_cache st;
     ad_env := ad_env st; ad_sessions := ad_sessions st; ad_snapshot := ad_snapshot st;
     ad_volume_stores := l; ad_metrics := ad_metrics st; ad_connection_count := ad_connection_count st;
     ad_session_count := ad_session_count st; ad_unix_time := ad_unix_time st; ad_instant := ad_instant st |}.
Definition with_metrics (m : Metrics) st : AdminState B :=
  {| ad_config_path := ad_config_path st; ad_started := ad_started st; ad_cache := ad_cache st;
     ad_env := ad_env st; ad_sessions := ad_sessions st; ad_snapshot := ad_snapshot st;
     ad_volume_stores := ad_volume_stores st; ad_metrics := m; ad_connection_count := ad_connection_count st;
     ad_session_count := ad_session_count st; ad_unix_time := ad_unix_time st; ad_instant := ad_instant st |}.
Definition with_instant (t : Z) st : AdminState B :=
  {| ad_config_path := ad_config_path st; ad_started := ad_started st; ad_cache := ad_cache st;
     ad_env := ad_env st; ad_sessions := ad_sessions st; ad_snapshot := ad_snapshot st;
     ad_volume_stores := ad_volume_stores st; ad_metrics := ad_metrics st; ad_connection_count := ad_connection_count st;
     ad_session_count := ad_session_count st; ad_unix_time := ad_unix_time st; ad_instant := t |}.

(** The store of a volume with the shared bucket and cache as they are now. *)
Definition refresh st (v : Stack.volume_store B) : Stack.volume_store B :=
  let c := wc_inner v in
  WC.with_inner (Cached.with_cache (ad_cache st)
    (Cached.with_inner (S3.with_env (ad_env st) (cs_inner c)) c)) v.
(** A computation on the store of volume [i]. *)
Definition focus {E A} (i : nat) (m : M (Stack.volume_store B) E A) : M (AdminState B) E A := λ st,
  match ad_volume_stores st !! i with
  | None => (Panic, st)
  | Some h =>
      let '(r, v) := m (refresh st (ah_store h)) in
      (r, with_cache (cs_cache (wc_inner v)) (with_env (S3.s_env (cs_inner (wc_inner v)))
            (with_stores (<[i := {| ah_name := ah_name h; ah_iqn := ah_iqn h; ah_store := v |}]>
               (ad_volume_stores st)) st)))
  end.
(** [handle.store.s3()] *)
Definition s3 {A} (m : M (S3.state B) StoreError A) : M (Stack.volume_store B) StoreError A :=
  WC.inner (Cached.inner m).

Definition of_store {X} (d : X) (f : Stack.volume_store B → X) (i : nat) st : X :=
  match ad_volume_stores st !! i with Some h => f (ah_store h) | None => d end.
(** [handle.store.as_ref()] as a [&dyn BlockStore]. *)
Definition dyn_at (i : nat) : Dyn (AdminState B) := {|
  dyn_read_at off buf := focus i (read_at off buf);
  dyn_write_at off data := focus i (write_at off data);
  dyn_capacity := of_store 0 capacity i;
  dyn_flush := focus i flush;
  dyn_block_size := of_store 0 block_size i;
  dyn_chunk_size := of_store 0 chunk_size i;
  dyn_present_chunks := focus i present_chunks;
  dyn_delete_chunk idx := focus i (delete_chunk idx)
|}.

(** [.map_err(|e| e.to_string())], [.map_err(|e| format!("{what}: {e}"))] *)
Definition to_string {A} (m : M (AdminState B) StoreError A) : MA A := map_err display m.
Definition what {A} (w : string) (m : M (AdminState B) StoreError A) : MA A :=
  map_err (λ e, w +:+ ": " +:+ display e) m.

Definition the_volume (sel : option string) : MA VolumeSummary :=
  st ← get; lift (find_volume (as_volumes (ad_snapshot st)) sel).
Definition the_store (vol : VolumeSummary) : MA nat :=
  st ← get; lift (find_volume_store (ad_volume_stores st) vol).
Definition invalidate_volume (name : string) : MA unit :=
  modify (λ st, with_cache (Cache.invalidate_volume name (ad_cache st)) st).

(** [if let Some(v) = snap.volumes.iter_mut().find(|v| v.name == name) { f(v) }] *)
Definition update_summary (name : string) (f : VolumeSummary → VolumeSummary) : MA unit :=
  modify (λ st,
    let s := ad_snapshot st in
    match list_find (λ v, vs_name v = name) (as_volumes s) with
    | None => st
    | Some (i, v) =>
        with_snapshot {| as_bind := as_bind s; as_portals := as_portals s; as_instance := as_instance s;
          as_volumes := <[i := f v]> (as_volumes s); as_cache_max_bytes := as_cache_max_bytes s;
          as_s3_bucket := as_s3_bucket s; as_s3_endpoint := as_s3_endpoint s;
          as_s3_region := as_s3_region s; as_s3_force_path_style := as_s3_force_path_style s;
          as_performance_optimiser := as_performance_optimiser s |} st
    end).
Definition set_summary_capacity (n : Z) (v : VolumeSummary) : VolumeSummary :=
  {| vs_name := vs_name v; vs_iqn := vs_iqn v; vs_capacity := n; vs_auth := vs_auth v;
     vs_prefix := vs_prefix v; vs_chunk_size := vs_chunk_size v; vs_compression := vs_compression v;
     vs_storage := vs_storage v; vs_write_cache := vs_write_cache v;
     vs_write_cache_max_bytes := vs_write_cache_max_bytes v;
     vs_write_buffer_max_bytes := vs_write_buffer_max_bytes v |}.
Definition set_summary_storage (m : string) (v : VolumeSummary) : VolumeSummary :=
  {| vs_name := vs_name v; vs_iqn := vs_iqn v; vs_capacity := vs_capacity v; vs_auth := vs_auth v;
     vs_prefix := vs_prefix v; vs_chunk_size := vs_chunk_size v; vs_compression := vs_compression v;
     vs_storage := m; vs_write_cache := vs_write_cache v;
     vs_write_cache_max_bytes := vs_write_cache_max_bytes v;
     vs_write_buffer_max_bytes := vs_write_buffer_max_bytes v |}.

(** [state.sessions.list_sessions(selector)] *)
Definition live_sessions (selector : option string) st : list LiveSession :=
  Sessions.list_sessions (ad_instant st) selector (ad_sessions st).

Definition require_quiesced (volume iqn : string) (force : bool) : MA unit :=
  if force then mret tt
  else
    st ← get;
    let sessions := live_sessions (Some volume) st in
    let by_iqn := match sessions with [] => live_sessions (Some iqn) st | l => l end in
    match by_iqn with
    | [] => mret tt
    | l => throw ("volume " +:+ volume +:+ " has " +:+ dec (Zlen l)
             +:+ " active FullFeature session(s); disconnect first or pass force=true for crash-consistent best-effort")
    end.
End handlers.
End Admin.
