(* ===== verification/AdminOps.v ===== *)
(** * Requests of the admin socket (src/src/admin.rs)

    One definition per handler, with its JSON reply, the dispatcher, and the
    daemon's side of a connection. *)
From S2P Require Import Prelude Tables Text Store Compression Snapshot S3Api S3Keys S3Store S3Snap.
From S2P Require Import Cache CachedStore WriteBuffer WriteCache WriteBack Ready Stack Config Images.
From S2P Require Import Value Wire Float Metrics Sessions Admin.
#[local] Open Scope string_scope.
#[local] Open Scope list_scope.
#[local] Open Scope Z_scope.
Import Text.

Module AdminOps.
Import Admin.

(** ** Replies *)
Definition ok (data : Value) : Value := Js.obj [("ok", to_json true); ("data", data)].
Definition err (message : string) : Value := Js.obj [("ok", to_json false); ("error", to_json message)].

Definition format_duration (secs : Z) : string :=
  dec (secs / 3600) +:+ "h" +:+ dec (secs mod 3600 / 60) +:+ "m" +:+ dec (secs mod 60) +:+ "s".

(** ** Reading a request: [AdminRequest]'s derived [Deserialize]

    A field given twice, which the derived reader refuses, is not represented. *)
Definition FIELDS : list string :=
  ["op"; "max_bytes"; "volume"; "to"; "size"; "capacity"; "id"; "name"; "force"; "resume_from"].
Definition invalid_type {A} (key : string) : outcome string A := Err ("bad request json: invalid type for " +:+ key).
Definition opt_str (o : gmap string Value) (key : string) : outcome string (option string) :=
  match o !! key with
  | None | Some JNull => Ok None
  | Some (JString s) => Ok (Some s)
  | Some _ => invalid_type key
  end.
Definition opt_u64 (o : gmap string Value) (key : string) : outcome string (option Z) :=
  match o !! key with
  | None | Some JNull => Ok None
  | Some v => match Js.as_u64 v with Some n => Ok (Some n) | None => invalid_type key end
  end.
Definition flag (o : gmap string Value) (key : string) : outcome string bool :=
  match o !! key with
  | None => Ok false
  | Some (JBool b) => Ok b
  | Some _ => invalid_type key
  end.
Definition opt_value (o : gmap string Value) (key : string) : option Value :=
  match o !! key with None | Some JNull => None | Some v => Some v end.

Definition decode_fields (o : gmap string Value) : outcome string AdminRequest :=
  match o !! "op" with
  | Some (JString op) =>
      volume ← opt_str o "volume";
      to ← opt_str o "to";
      size ← opt_u64 o "size";
      id ← opt_str o "id";
      name ← opt_str o "name";
      force ← flag o "force";
      resume_from ← opt_u64 o "resume_from";
      Ok {| rq_op := op; rq_max_bytes := opt_value o "max_bytes"; rq_volume := volume; rq_to := to;
            rq_size := size; rq_capacity := opt_value o "capacity"; rq_id := id; rq_name := name;
            rq_force := force; rq_resume_from := resume_from |}
  | Some _ => invalid_type "op"
  | None => Err "bad request json: missing field `op`"
  end.
(** An array gives the fields in order. *)
Definition decode_request (v : Value) : outcome string AdminRequest :=
  match v with
  | JObject o => decode_fields o
  | JArray l =>
      if Nat.leb (length l) (length FIELDS) then decode_fields (list_to_map (zip FIELDS l))
      else Err "bad request json: trailing elements"
  | _ => invalid_type "the request"
  end.

Section handlers.
Context {B : Type} `{S3Client B} `{Codecs} `{Blake3} `{Json} `{StampJson} `{Conf.ByteSize} `{Prometheus}.
Abbreviation MA := (M (AdminState B) string).
Implicit Types st : AdminState B.

(** ** Whole volumes *)
Definition volume_copy (from to : option string) (resume_from : option Z) : MA Value :=
  src_sum ← the_volume from;
  dst_sum ← the_volume to;
  if bool_decide (vs_name src_sum = vs_name dst_sum) then
    throw "source and destination must be different volumes"
  else
    src ← the_store src_sum;
    dst ← the_store dst_sum;
    r ← Image.copy_volume (dyn_at src) (dyn_at dst) resume_from;
    let side v := Js.obj [("volume", to_json (vs_name v)); ("iqn", to_json (vs_iqn v));
      ("prefix", to_json (vs_prefix v)); ("capacity", to_json (vs_capacity v));
      ("compression", to_json (vs_compression v))] in
    let note := match resume_from with
      | None => "destination overwritten to match source sparsity; compression may be re-encoded per destination config"
      | Some _ => "resumed copy: source chunks below resume_from were skipped; dest-only chunks still reconciled"
      end in
    mret (Js.put_some "resume_from" resume_from (Js.obj [("from", side src_sum); ("to", side dst_sum);
      ("chunks_copied", to_json (cv_chunks_copied r)); ("chunks_deleted", to_json (cv_chunks_deleted r));
      ("chunks_skipped", to_json (cv_chunks_skipped r)); ("bytes_copied", to_json (cv_bytes_copied r));
      ("note", to_json note)])).

Definition volume_wipe (selector : option string) : MA Value :=
  vol ← the_volume selector;
  i ← the_store vol;
  _ ← what "discard write cache" (focus i WC.discard_dirty);
  _ ← to_string (focus i WC.lock_io);
  r ← attempt (
        wiped ← Image.wipe_volume (dyn_at i);
        n ← to_string (focus i (s3 (S3.on_env S3Snap.wipe_objects_and_snapshots)));
        mret (wiped, n));
  _ ← to_string (focus i WC.unlock_io);
  match r with
  | inl (wiped, (objects, snapshots)) =>
      mret (Js.obj [("volume", to_json (vs_name vol)); ("iqn", to_json (vs_iqn vol));
        ("prefix", to_json (vs_prefix vol)); ("chunks_deleted", to_json (wv_chunks_deleted wiped));
        ("objects_deleted", to_json objects); ("snapshots_deleted", to_json snapshots);
        ("note", to_json "live data, objects, and snapshots deleted; meta.json kept")])
  | inr e => throw e
  end.

Definition volume_gc (selector : option string) : MA Value :=
  vol ← the_volume selector;
  i ← the_store vol;
  _ ← to_string (focus i WC.lock_io);
  gc ← attempt (to_string (focus i (s3 (S3.on_env S3Snap.gc_unreferenced_objects))));
  _ ← to_string (focus i WC.unlock_io);
  match gc with
  | inl gc =>
      mret (Js.obj [("volume", to_json (vs_name vol)); ("iqn", to_json (vs_iqn vol));
        ("objects_deleted", to_json (gc_objects_deleted gc));
        ("objects_referenced", to_json (gc_objects_referenced gc))])
  | inr e => throw e
  end.

Definition volume_grow (selector : option string) (capacity : option Value) : MA Value :=
  new_capacity ← lift (parse_required_max_bytes capacity);
  if new_capacity =? 0 then throw "capacity must be greater than 0"
  else
    vol ← the_volume selector;
    i ← the_store vol;
    old_capacity ← gets (dyn_capacity (dyn_at i));
    if new_capacity <? old_capacity then
      throw ("cannot shrink capacity from " +:+ dec old_capacity +:+ " to " +:+ dec new_capacity)
    else if new_capacity =? old_capacity then
      mret (Js.obj [("volume", to_json (vs_name vol)); ("iqn", to_json (vs_iqn vol));
        ("old_capacity", to_json old_capacity); ("new_capacity", to_json new_capacity);
        ("changed", to_json false); ("note", to_json "capacity unchanged")])
    else
      _ ← to_string (focus i (set_capacity new_capacity));
      _ ← update_summary (vs_name vol) (set_summary_capacity new_capacity);
      _ ← zoom ad_metrics with_metrics
            (Met.set_volume_capacity {| vl_volume := vs_name vol; vl_iqn := vs_iqn vol |} new_capacity);
      mret (Js.obj [("volume", to_json (vs_name vol)); ("iqn", to_json (vs_iqn vol));
        ("old_capacity", to_json old_capacity); ("new_capacity", to_json new_capacity);
        ("changed", to_json true);
        ("note", to_json "SCSI READ CAPACITY updates immediately; initiator may need a device rescan")]).

(** ** Snapshots and migration *)
Definition volume_snapshot_create (req : AdminRequest) : MA Value :=
  vol ← the_volume (rq_volume req);
  _ ← require_quiesced (vs_name vol) (vs_iqn vol) (rq_force req);
  i ← the_store vol;
  now ← gets ad_unix_time;
  let id := match rq_id req, rq_name req with
            | Some id, _ => id
            | None, Some name => name
            | None, None => "snap-" +:+ dec now
            end in
  _ ← what "flush write cache" (focus i flush);
  _ ← invalidate_volume (vs_name vol);
  manifest ← to_string (focus i (s3 (S3.on_env (λ self, S3Snap.snapshot_create self now id (vs_name vol)))));
  mret (Js.obj [("volume", to_json (vs_name vol)); ("snapshot", to_json manifest)]).

Definition volume_snapshot_list (selector : option string) : MA Value :=
  vol ← the_volume selector;
  i ← the_store vol;
  l ← to_string (focus i (s3 (S3.on_env S3Snap.snapshot_list)));
  mret (Js.obj [("volume", to_json (vs_name vol)); ("storage", to_json (vs_storage vol));
    ("snapshots", to_json l); ("count", to_json (length l))]).

Definition the_id (req : AdminRequest) : MA string :=
  match rq_id req with Some id => mret id | None => throw "snapshot id is required" end.

Definition volume_snapshot_delete (req : AdminRequest) : MA Value :=
  vol ← the_volume (rq_volume req);
  id ← the_id req;
  i ← the_store vol;
  gc ← to_string (focus i (s3 (S3.on_env (λ self, S3Snap.snapshot_delete self id))));
  mret (Js.obj [("volume", to_json (vs_name vol)); ("id", to_json id); ("gc", to_json gc)]).

Definition volume_snapshot_restore (req : AdminRequest) : MA Value :=
  vol ← the_volume (rq_volume req);
  _ ← require_quiesced (vs_name vol) (vs_iqn vol) (rq_force req);
  id ← the_id req;
  i ← the_store vol;
  _ ← what "discard write cache" (focus i WC.discard_dirty);
  _ ← invalidate_volume (vs_name vol);
  stats ← to_string (focus i (s3 (S3Snap.snapshot_restore id)));
  _ ← invalidate_volume (vs_name vol);
  _ ← update_summary (vs_name vol) (set_summary_capacity (rs_capacity stats));
  mret (Js.obj [("volume", to_json (vs_name vol)); ("id", to_json id); ("restore", to_json stats)]).

Definition volume_snapshot_clone (req : AdminRequest) : MA Value :=
  src ← the_volume (rq_volume req);
  dst ← the_volume (rq_to req);
  if bool_decide (vs_name src = vs_name dst) then throw "clone source and destination must differ"
  else
    id ← the_id req;
    i ← the_store src;
    j ← the_store dst;
    _ ← what "flush source write cache" (focus i flush);
    _ ← what "discard dest write cache" (focus j WC.discard_dirty);
    _ ← invalidate_volume (vs_name dst);
    src_s3 ← to_string (focus i (s3 (gets S3.s_store)));
    stats ← to_string (focus j (s3 (S3Snap.snapshot_clone_into src_s3 id)));
    n ← gets (dyn_capacity (dyn_at j));
    _ ← update_summary (vs_name dst) (set_summary_capacity n);
    mret (Js.obj [("from", to_json (vs_name src)); ("to", to_json (vs_name dst)); ("id", to_json id);
      ("clone", to_json stats)]).

(** On an error the volume stays locked. *)
Definition volume_migrate_cow (selector : option string) : MA Value :=
  vol ← the_volume selector;
  _ ← require_quiesced (vs_name vol) (vs_iqn vol) false;
  i ← the_store vol;
  self ← to_string (focus i (s3 (gets S3.s_store)));
  if negb (bool_decide (st_storage self = Legacy)) then
    throw ("volume " +:+ vs_name vol +:+ " is already storage=cow")
  else
    _ ← invalidate_volume (vs_name vol);
    _ ← to_string (focus i WC.lock_io);
    stats ← map_err (λ e, display e
              +:+ " (volume remains I/O-locked; re-run migrate-cow to resume, or restart the daemon to auto-resume)")
              (focus i (s3 S3Snap.migrate_to_cow));
    _ ← to_string (focus i WC.unlock_io);
    _ ← update_summary (vs_name vol) (set_summary_storage (Snap.mode_str Cow));
    mret (Js.obj [("volume", to_json (vs_name vol)); ("migrate", to_json stats); ("storage", to_json "cow");
      ("io_locked", to_json false)]).

(** ** Images *)
(** [WriteImagePrep], [ExportPrep]; the store is its position. *)
Record ImagePrep : Type := {
  ip_volume_name : string;
  ip_iqn : string;
  ip_size : Z;
  ip_capacity : Z;
  ip_chunk_size : Z;
  ip_store : nat
}.
Definition prep (vol : VolumeSummary) (size capacity : Z) (i : nat) : MA ImagePrep :=
  gets (λ st, {| ip_volume_name := vs_name vol; ip_iqn := vs_iqn vol; ip_size := size;
                 ip_capacity := capacity; ip_chunk_size := dyn_chunk_size (dyn_at i) st; ip_store := i |}).


Definition prefix_stats (prefix : string) : MA PrefixObjectStats :=
  to_string (zoom ad_env with_env (S3Snap.list_prefix_stats prefix)).

Definition prepare_write_image (req : AdminRequest) : MA ImagePrep :=
  size ← match rq_size req with
         | Some n => mret n
         | None => throw "size is required for volume.write_image"
         end;
  if size =? 0 then throw "size must be greater than 0"
  else
    vol ← the_volume (rq_volume req);
    i ← the_store vol;
    capacity ← gets (dyn_capacity (dyn_at i));
    if size >? capacity then
      throw ("image size " +:+ dec size +:+ " exceeds volume capacity " +:+ dec capacity)
    else
      bucket ← gets (λ st, as_s3_bucket (ad_snapshot st));
      match bucket with
      | None => throw "s3.bucket is not configured"
      | Some _ =>
          stats ← prefix_stats (vs_prefix vol);
          _ ← lift (ensure_prefix_empty_for_seed stats);
          prep vol size capacity i
      end.

Definition prepare_export (req : AdminRequest) : MA ImagePrep :=
  vol ← the_volume (rq_volume req);
  i ← the_store vol;
  capacity ← gets (dyn_capacity (dyn_at i));
  let size := match rq_size req with Some n => n | None => capacity end in
  if size =? 0 then throw "size must be greater than 0"
  else if size >? capacity then
    throw ("export size " +:+ dec size +:+ " exceeds volume capacity " +:+ dec capacity)
  else prep vol size capacity i.

Definition ready_json (p : ImagePrep) : Value := Js.obj [
  ("ready", to_json true); ("volume", to_json (ip_volume_name p)); ("iqn", to_json (ip_iqn p));
  ("size", to_json (ip_size p)); ("capacity", to_json (ip_capacity p));
  ("chunk_size", to_json (ip_chunk_size p))].
Definition seed_json (p : ImagePrep) (r : SeedImageResult) : Value := Js.obj [
  ("volume", to_json (ip_volume_name p)); ("iqn", to_json (ip_iqn p));
  ("bytes_read", to_json (si_bytes_read r)); ("bytes_stored", to_json (si_bytes_stored r));
  ("chunks_written", to_json (si_chunks_written r));
  ("zero_chunks_skipped", to_json (si_zero_chunks_skipped r));
  ("note", to_json "all-zero chunks were skipped (sparse); meta.json may already exist")].
Definition export_json (p : ImagePrep) (r : ExportImageResult) : Value := Js.obj [
  ("volume", to_json (ip_volume_name p)); ("iqn", to_json (ip_iqn p));
  ("bytes_sent", to_json (ex_bytes_sent r)); ("chunks_read", to_json (ex_chunks_read r))].

Definition or_err {A} (f : A → Value) (r : A + string) : Value :=
  match r with inl a => ok (f a) | inr e => err e end.

Section connection.
Context `{Value.Wire}.
(** A handler's connection: the daemon and its half of the socket. *)
Abbreviation MH := (M (AdminState B * Socket) string).
Definition on_admin {A} (m : MA A) : MH A := zoom fst Image.set_fst m.
Definition on_stream {A} (m : M Socket string A) : MH A := zoom snd Image.set_snd m.

Definition handle_write_image (req : AdminRequest) : MH unit :=
  p ← attempt (on_admin (prepare_write_image req));
  match p with
  | inl p =>
      _ ← on_stream (Wire.write_json_line (ok (ready_json p)));
      r ← attempt (Image.seed_image_from_reader (dyn_at (ip_store p)) (ip_size p));
      on_stream (Wire.write_json_line (or_err (seed_json p) r))
  | inr e => on_stream (Wire.write_json_line (err e))
  end.
Definition handle_export (req : AdminRequest) : MH unit :=
  p ← attempt (on_admin (prepare_export req));
  match p with
  | inl p =>
      _ ← on_stream (Wire.write_json_line (ok (ready_json p)));
      r ← attempt (Image.export_image_to_writer (dyn_at (ip_store p)) (ip_size p));
      on_stream (Wire.write_json_line (or_err (export_json p) r))
  | inr e => on_stream (Wire.write_json_line (err e))
  end.
End connection.

(** ** Statistics, the cache and reloading *)
Definition volume_s3_stats (selector : option string) : MA Value :=
  vol ← the_volume selector;
  bucket ← gets (λ st, as_s3_bucket (ad_snapshot st));
  match bucket with
  | None => throw "s3.bucket is not configured"
  | Some bucket =>
      stats ← prefix_stats (vs_prefix vol);
      mret (Js.obj [("volume", to_json (vs_name vol)); ("iqn", to_json (vs_iqn vol));
        ("bucket", to_json bucket); ("prefix", to_json (vs_prefix vol));
        ("logical_capacity_bytes", to_json (vs_capacity vol)); ("chunk_size", to_json (vs_chunk_size vol));
        ("compression", to_json (vs_compression vol));
        ("objects", Js.obj [("total", to_json (ps_object_count stats)); ("chunks", to_json (ps_chunk_count stats));
          ("meta", to_json (ps_meta_count stats)); ("other", to_json (ps_other_count stats))]);
        ("bytes", Js.obj [("total", to_json (ps_total_bytes stats)); ("chunks", to_json (ps_chunk_bytes stats));
          ("meta", to_json (ps_meta_bytes stats)); ("other", to_json (ps_other_bytes stats))]);
        ("logical_chunk_bytes_if_full", to_json (saturating_mul64 (ps_chunk_count stats) (vs_chunk_size vol)));
        ("note", to_json "bytes are on-disk object sizes (compressed when compression != none); sparse unwritten chunks have no object")])
  end.

Definition cache_json st : Value :=
  let c := ad_cache st in
  Js.obj [("enabled", to_json (Cache.is_enabled c)); ("max_bytes", to_json (ci_max_bytes c));
    ("last_nonzero_max_bytes", to_json (ci_last_nonzero_max_bytes c));
    ("used_bytes", to_json (Cache.stats c).1); ("entries", to_json (Cache.stats c).2)].
Definition iscsi_json st : Value := Js.obj [
  ("connections", to_json (ad_connection_count st)); ("sessions", to_json (ad_session_count st))].
(** [state.started.elapsed().as_secs()] *)
Definition uptime_secs st : Z := Sessions.secs_since (ad_instant st) (ad_started st).

Definition stats_json st : Value :=
  let snap := ad_snapshot st in
  Js.obj [("uptime_secs", to_json (uptime_secs st)); ("uptime", to_json (format_duration (uptime_secs st)));
    ("config_path", to_json (ad_config_path st)); ("bind", to_json (as_bind snap));
    ("portals", to_json (as_portals snap)); ("instance", to_json (as_instance snap));
    ("volumes", to_json (as_volumes snap)); ("cache", cache_json st); ("iscsi", iscsi_json st)].
Definition volume_list_json st : Value :=
  let volumes := as_volumes (ad_snapshot st) in
  Js.obj [("volumes", to_json volumes); ("count", to_json (length volumes))].

Definition set_cache_max (s : AdminSnapshot) (n : Z) (portals : list string) (instance : option string)
    : AdminSnapshot :=
  {| as_bind := as_bind s; as_portals := portals; as_instance := instance;
     as_volumes := as_volumes s; as_cache_max_bytes := n; as_s3_bucket := as_s3_bucket s;
     as_s3_endpoint := as_s3_endpoint s; as_s3_region := as_s3_region s;
     as_s3_force_path_style := as_s3_force_path_style s;
     as_performance_optimiser := as_performance_optimiser s |}.
(** [snap.cache_max_bytes = state.cache.max_bytes()] *)
Definition record_cache_max : MA unit := modify (λ st,
  let s := ad_snapshot st in
  with_snapshot (set_cache_max s (ci_max_bytes (ad_cache st)) (as_portals s) (as_instance s)) st).
Definition on_cache (f : CacheInner → CacheInner) : MA Value :=
  _ ← modify (λ st, with_cache (f (ad_cache st)) st);
  _ ← record_cache_max;
  gets cache_json.

(** [load] is [Config::load_for_reload] (Load.v) with its error as a text. *)
Definition reload (load : string → outcome string Config) : MA Value :=
  st ← get;
  match ad_config_path st with
  | None => throw "no config file path (started without --config); cannot reload"
  | Some path =>
      new_cfg ← lift (load path);
      let current := ad_snapshot st in
      result ← zoom ad_cache with_cache (apply_safe_reload current new_cfg);
      _ ← modify (λ st, with_snapshot (set_cache_max (ad_snapshot st) (ci_max_bytes (ad_cache st))
                          (reloaded_portals (ad_snapshot st) new_cfg) (cfg_instance new_cfg)) st);
      cache ← gets cache_json;
      mret (Js.obj [("applied", to_json (rl_applied result)); ("rejected", to_json (rl_rejected result));
        ("warnings", to_json (rl_warnings result)); ("cache", cache)])
  end.

Definition volume_sessions_json (selector : option string) st : Value :=
  let sessions := live_sessions selector st in
  Js.obj [("sessions", to_json sessions); ("count", to_json (length sessions)); ("iscsi", iscsi_json st)].

(** [head_bucket] stands for the SDK's call, which takes time; a failing probe
    is reported. *)
Definition probe_s3 (head_bucket : M (Env B * Z) StoreError unit) : MA Value :=
  snap ← gets ad_snapshot;
  match as_s3_bucket snap with
  | None => mret (Js.obj [("ok", to_json false); ("error", to_json "s3.bucket is not configured")])
  | Some bucket =>
      started ← gets ad_instant;
      result ← attempt (zoom (λ st, (ad_env st, ad_instant st)) (λ p st, with_env p.1 (with_instant p.2 st))
                 (map_err display head_bucket));
      now ← gets ad_instant;
      let latency_ms := saturating_sub now started / 1000000 in
      mret (match result with
        | inl _ => Js.obj [("ok", to_json true); ("bucket", to_json bucket);
            ("endpoint", to_json (as_s3_endpoint snap)); ("latency_ms", to_json latency_ms)]
        | inr e => Js.obj [("ok", to_json false); ("bucket", to_json bucket);
            ("endpoint", to_json (as_s3_endpoint snap)); ("error", to_json e); ("latency_ms", to_json latency_ms)]
        end)
  end.

Definition health_json (head_bucket : M (Env B * Z) StoreError unit) : MA Value :=
  snap ← gets ad_snapshot;
  s3 ← probe_s3 head_bucket;
  let status := if Js.is_true (Js.get "ok" s3) then "ok" else "degraded" in
  gets (λ st, Js.obj [("status", to_json status); ("uptime_secs", to_json (uptime_secs st));
    ("uptime", to_json (format_duration (uptime_secs st))); ("bind", to_json (as_bind snap));
    ("portals", to_json (as_portals snap)); ("instance", to_json (as_instance snap));
    ("volumes", to_json (length (as_volumes snap))); ("iscsi", iscsi_json st); ("cache", cache_json st);
    ("s3", s3)]).

Definition reply (m : MA Value) : MA Value := r ← attempt m; mret (or_err (λ v, v) r).

Definition dispatch (load : string → outcome string Config) (head_bucket : M (Env B * Z) StoreError unit)
    (req : AdminRequest) : MA Value :=
  let op := rq_op req in
  let op_is := String.eqb op in
  reply (
    if op_is "stats" || op_is "cache.status" then gets stats_json
    else if op_is "cache.disable" then on_cache Cache.disable
    else if op_is "cache.enable" then
      mb ← lift (parse_optional_max_bytes (rq_max_bytes req)); on_cache (Cache.enable mb)
    else if op_is "cache.set" then
      mb ← lift (parse_required_max_bytes (rq_max_bytes req));
      on_cache (if mb =? 0 then Cache.disable else Cache.enable (Some mb))
    else if op_is "reload" then reload load
    else if op_is "volume.s3_stats" then volume_s3_stats (rq_volume req)
    else if op_is "volume.list" then gets volume_list_json
    else if op_is "volume.copy" then volume_copy (rq_volume req) (rq_to req) (rq_resume_from req)
    else if op_is "volume.wipe" then volume_wipe (rq_volume req)
    else if op_is "volume.gc" then volume_gc (rq_volume req)
    else if op_is "volume.grow" then volume_grow (rq_volume req) (rq_capacity req)
    else if op_is "volume.sessions" then gets (volume_sessions_json (rq_volume req))
    else if op_is "volume.snapshot.create" then volume_snapshot_create req
    else if op_is "volume.snapshot.list" then volume_snapshot_list (rq_volume req)
    else if op_is "volume.snapshot.delete" then volume_snapshot_delete req
    else if op_is "volume.snapshot.restore" then volume_snapshot_restore req
    else if op_is "volume.snapshot.clone" then volume_snapshot_clone req
    else if op_is "volume.migrate_cow" then volume_migrate_cow (rq_volume req)
    else if op_is "health" then health_json head_bucket
    else throw ("unknown op: " +:+ op)).

(** ** A connection *)
Definition handle_client `{Value.Wire} (load : string → outcome string Config)
    (head_bucket : M (Env B * Z) StoreError unit) : M (AdminState B * Socket) string unit :=
  line ← on_stream (Wire.saying "read" Wire.read_line);
  if is_empty (trim line) then mret tt
  else
    v ← Wire.parse_line "bad request json" line;
    req ← lift (decode_request v);
    if String.eqb (rq_op req) "volume.write_image" then handle_write_image req
    else if String.eqb (rq_op req) "volume.export" then handle_export req
    else
      response ← on_admin (dispatch load head_bucket req);
      on_stream (Wire.write_json_line response).
End handlers.
End AdminOps.
