(* ===== verification/AdminTheorems.v ===== *)
(** * Properties of the admin operations *)
From S2P Require Import Prelude Tables Text Store Memory Compression Snapshot S3Api S3Keys S3Store S3Snap.
From S2P Require Import Concrete Cache CachedStore WriteBuffer WriteCache WriteBack Ready Stack Config Images.
From S2P Require Import ImagesSpec Value Metrics Sessions MetricsTheorems Admin AdminOps.
#[local] Open Scope string_scope.
#[local] Open Scope list_scope.
#[local] Open Scope Z_scope.

Module AdminTheorems.
Import Image ImageSpec Admin AdminOps.

(** ** Copies and images *)
Section copies.
Context {X Y : Type} `{ReadyLaws X} `{ReadyLaws Y}.

(** C17: Copying a volume. Between working volumes of the same geometry a copy
    leaves the source as it was and the destination byte for byte equal to it:
    chunks of the source, which the destination must be used with, are written,
    all others of the destination deleted. A
    copy resumed at a chunk does the same if the chunks before it were equal
    already. It fails exactly when the source lists a chunk, at or after the
    start, whose address does not fit 64 bits. *)
Theorem copy_volume_copies (x : X) (y : Y) resume :
  usable x → usable y → alike x y → accepts (Y := Y) x →
  (∀ a, 0 ≤ a → a / chunk_size x < first_chunk resume → shown y a = shown x a) →
  ∃ src x1, present_chunks x = (Ok src, x1) ∧
  let no_address := λ idx, idx ∈ src ∧ first_chunk resume ≤ idx ∧ u64_max < idx * chunk_size x in
  match copy_volume source target resume (x, y) with
  | (Ok r, (x', y')) => (∀ idx, ¬ no_address idx) ∧ kept x x' ∧ usable y' ∧ ∀ a, 0 ≤ a → shown y' a = shown x a
  | (Err e, (x', y')) => (∃ idx, no_address idx) ∧ kept x x'
  | _ => False
  end.
Proof.
  intros Hx Hy Hal Hacc Hres. destruct (wp_ok _ _ _ (rs_present x Hx)) as (src & x1 & Hsrc & _).
  exists src, x1. split; [done|]. cbv zeta.
  pose proof (copy_volume_spec x y resume src x1 Hsrc Hx Hy Hal Hacc Hres) as Hwp. unfold wp in Hwp.
  destruct (copy_volume source target resume (x, y)) as [[r|e| |] [x' y']]; try done.
  - destruct Hwp as (Hk & Hu & _ & Hadr & Hsh). split; [|done]. intros idx (Hi & Hf & Ho).
    specialize (Hadr idx Hi Hf). lia.
  - destruct Hwp as (Hk & _ & idx & Hi & Hf & Hov & _). split; [by exists idx|done].
Qed.
End copies.

Section images.
Context {S : Type} `{ReadyLaws S}.

(** Images. Seeding a blank volume from an image that fits it and exporting
    the same number of bytes gives the image back; every chunk of the image was
    either written or, being zero, skipped. *)
Theorem seed_export_roundtrip (t : S) img :
  usable t → Zlen img ≤ capacity t → (∀ a, 0 ≤ a → shown t a = Byte.x00) →
  (∀ idx, is_u64 idx → allowed S (chunk_at (chunk_size t) (seeded t img (Zlen img)) idx)) →
  ∃ r t1 r' t2 so2,
    seed_image_from_reader whole (Zlen img) (t, {| so_in := img; so_out := []; so_room := None; so_open := false |})
      = (Ok r, (t1, {| so_in := []; so_out := []; so_room := None; so_open := false |})) ∧
    si_chunks_written r + si_zero_chunks_skipped r = Z.of_nat (pieces (chunk_size t) (Zlen img)) ∧
    export_image_to_writer whole (Zlen img) (t1, {| so_in := []; so_out := []; so_room := None; so_open := false |})
      = (Ok r', (t2, so2)) ∧ so_out so2 = img.
Proof.
  intros Hu Hcap Hblank Hall. pose proof (Zlen_nonneg img) as Hnn.
  set (so := {| so_in := img; so_out := []; so_room := None; so_open := false |}).
  destruct (wp_ok _ _ _ (seed_spec t img so (Zlen img) Hu eq_refl ltac:(lia) Hcap
    ltac:(intros; apply Hblank; lia) Hall)) as (r & [t1 so1] & Hrun & Hu1 & Hs1 & _ & Hcnt & Hrest & Hsh).
  simpl in *. subst so1. assert (Hd : drop (Z.to_nat (Zlen img)) img = []) by (apply drop_ge; unfold Zlen; lia).
  rewrite Hd in *.
  destruct (wp_ok _ _ _ (export_spec t1 {| so_in := []; so_out := []; so_room := None; so_open := false |} (Zlen img) Hu1
    ltac:(rewrite (ss_cap _ _ Hs1); lia) eq_refl)) as (r' & [t2 so2] & Hrun' & _ & _ & _ & _ & _ & body & Hout & Hl & Hbody).
  exists r, t1, r', t2, so2. do 3 (split; [done|]). simpl in Hout. rewrite Hout.
  apply bytes_ext; [done|]. intros i Hi. rewrite Hl in Hi. rewrite Hbody, Hsh by lia.
  by rewrite decide_True by lia.
Qed.
End images.

(** ** Witnesses *)
Section witnesses.
Import Concrete MetricsTheorems.MemProm.

Lemma copy_volume_copies_witness :
  match copy_volume source target None
          ((write_at 3 (payload 6) (blank_disk 16)).2, (write_at 9 (payload 5) (blank_disk 16)).2) with
  | (Ok r, (x', y')) => ∀ a, 0 ≤ a → shown y' a = shown (write_at 3 (payload 6) (blank_disk 16)).2 a
  | _ => False
  end.
Proof.
  assert (Hw : ∀ off data, 0 ≤ off → off + Zlen data ≤ 16 →
    usable (write_at off data (blank_disk 16)).2 ∧ same_sizes (blank_disk 16) (write_at off data (blank_disk 16)).2).
  { intros off data Hoff Hin. assert (Hu : usable (blank_disk 16)) by (by apply blank_usable).
    pose proof (rs_write (blank_disk 16) off data Hu Hoff (λ _ _, I)) as Hwp. unfold wp in Hwp.
    destruct (write_at off data (blank_disk 16)) as [[] s]; try done; [by destruct Hwp as (? & ? & _)|].
    destruct Hwp as (_ & [Hbad _]). simpl in Hbad. lia. }
  destruct (Hw 3 (payload 6)) as [Hx Hsx]; [lia|vm_compute; congruence|].
  destruct (Hw 9 (payload 5)) as [Hy Hsy]; [lia|vm_compute; congruence|].
  destruct (copy_volume_copies _ _ None Hx Hy) as (src & x1 & _ & Hc);
    [by constructor; vm_compute|exact (λ _ _, I)| |].
  { intros a Ha Hlt. pose proof (Z.div_pos a 4 Ha ltac:(lia)) as Hpos. exfalso. revert Hlt. apply Z.le_ngt. exact Hpos. }
  revert Hc. destruct (copy_volume _ _ _ _) as [[r|e| |] [x' y']] eqn:Hrun; intros Hc.
  - apply Hc.
  - vm_compute in Hrun. discriminate.
  - vm_compute in Hrun. discriminate.
  - vm_compute in Hrun. discriminate.
Defined.

Lemma seed_export_roundtrip_witness :
  ∃ r t1 r' t2 so2,
    seed_image_from_reader whole 6 (blank_disk 16, {| so_in := zeros 4 ++ payload 2; so_out := []; so_room := None; so_open := false |})
      = (Ok r, (t1, {| so_in := []; so_out := []; so_room := None; so_open := false |})) ∧
    si_chunks_written r + si_zero_chunks_skipped r = 2 ∧
    export_image_to_writer whole 6 (t1, {| so_in := []; so_out := []; so_room := None; so_open := false |})
      = (Ok r', (t2, so2)) ∧ so_out so2 = zeros 4 ++ payload 2.
Proof.
  refine (seed_export_roundtrip (blank_disk 16) (zeros 4 ++ payload 2) _ _ _ (λ _ _, I));
    [by apply blank_usable|vm_compute; congruence|done].
Defined.

(** ** Observed flaws *)

(** One volume with a write-back cache in memory, over an empty bucket. *)
Definition summary : VolumeSummary :=
  {| vs_name := "vol"; vs_iqn := "iqn"; vs_capacity := 16; vs_auth := "none"; vs_prefix := "v";
     vs_chunk_size := 4; vs_compression := "none"; vs_storage := "legacy"; vs_write_cache := "memory";
     vs_write_cache_max_bytes := 0; vs_write_buffer_max_bytes := 0 |}.
Definition daemon : AdminState MemS3.bucket :=
  {| ad_config_path := None; ad_started := 0; ad_cache := Cache.new 64; ad_env := fresh_env; ad_sessions := [];
     ad_snapshot := {| as_bind := "0.0.0.0:3260"; as_portals := []; as_instance := None;
       as_volumes := [summary]; as_cache_max_bytes := 64; as_s3_bucket := Some "b";
       as_s3_endpoint := None; as_s3_region := "us-east-1"; as_s3_force_path_style := false;
       as_performance_optimiser := false |};
     ad_volume_stores := [{| ah_name := "vol"; ah_iqn := "iqn";
       ah_store := WC.core_of (Cached.new (fresh Legacy) (Cache.new 64) "vol") WcMemory None Dirty.new 0 0 0 [] |}];
     ad_metrics := MetricsTheorems.first_metrics; ad_connection_count := 0; ad_session_count := 0;
     ad_unix_time := 0; ad_instant := 0 |}.
Definition seed_request : AdminRequest :=
  {| rq_op := "volume.write_image"; rq_max_bytes := None; rq_volume := Some "vol"; rq_to := None;
     rq_size := Some 8; rq_capacity := None; rq_id := None; rq_name := None; rq_force := false;
     rq_resume_from := None |}.

(** A client has written to the volume; the chunk is still in the write-back
    cache. Then an image of zeros is seeded. *)
Definition dirty_daemon := (focus 0 (write_at 0 (payload 4)) daemon).2.
Definition seeded :=
  (p ← on_admin (prepare_write_image seed_request); seed_image_from_reader (dyn_at (ip_store p)) (ip_size p))
  (dirty_daemon, {| so_in := zeros 8; so_out := []; so_room := None; so_open := false |}).

(** Seeding over unflushed writes. The check that a volume is empty looks at
    the bucket only. A volume with a write in the write-back cache passes it,
    and since zero chunks of the image are skipped, the volume keeps the old
    bytes where the image has zeros, although the request reports success. *)
Theorem seed_ignores_dirty_chunks :
  seeded.1 = Ok {| si_bytes_read := 8; si_bytes_stored := 0; si_chunks_written := 0;
                   si_zero_chunks_skipped := 2 |} ∧
  (focus 0 (read_at 0 (zeros 8)) seeded.2.1).1 = Ok (payload 4 ++ zeros 4).
Proof. vm_compute. done. Qed.

(** A reload with another block size: the summary does not carry it, so the
    change is neither applied nor rejected. *)
Definition reconfigured (block_size : Z) : Config :=
  {| cfg_bind := "0.0.0.0:3260"; cfg_advertise := None; cfg_portals := []; cfg_instance := None;
     cfg_auth := None;
     cfg_s3 := {| s3_bucket := Some "b"; s3_region := "us-east-1"; s3_endpoint := None;
                  s3_force_path_style := false; s3_access_key_id := None;
                  s3_secret_access_key := None |};
     cfg_cache := {| cac_max_bytes := 64 |};
     cfg_metrics := {| mc_enabled := true; mc_bind := "0.0.0.0:9090" |};
     cfg_admin := {| adc_enabled := true; adc_socket := Conf.DEFAULT_ADMIN_SOCKET |};
     cfg_performance_optimiser := false;
     cfg_volumes := [{| vc_name := "vol"; vc_iqn := "iqn"; vc_prefix := "/v/"; vc_capacity := 16;
       vc_block_size := block_size; vc_chunk_size := 4; vc_compression := CompNone;
       vc_storage := Legacy; vc_auth := None;
       vc_write_cache := {| wcc_mode := WcMemory; wcc_path := None; wcc_max_bytes := 0 |};
       vc_write_buffer := {| wbc_max_bytes := 0 |} |}] |}.
Theorem reload_misses_block_size :
  (apply_safe_reload (ad_snapshot daemon) (reconfigured 4) (Cache.new 64)).1 =
    Ok {| rl_applied := []; rl_rejected := []; rl_warnings := []; rl_bind_unchanged := true |}.
Proof. vm_compute. done. Qed.
End witnesses.
End AdminTheorems.
