(* ===== verification/Transfer.v ===== *)
(** * Images through the admin socket

    Seeding and exporting a volume of the running daemon are the operations on
    the volume's own store: a simulation between the daemon's state and the store
    of one volume. *)
From S2P Require Import Prelude Tables Text Store Compression Snapshot S3Api S3Keys S3Store S3Spec S3Block S3Snap.
From S2P Require Import Cache CachedStore Ready WriteBuffer WriteCache WriteBack WriteBackSpec WriteBackWorker.
From S2P Require Import WriteBackOps WriteBackFlush Stack Config Images ImagesSpec Value Wire WireSpec Metrics.
From S2P Require Import Sessions Admin AdminOps.
#[local] Open Scope string_scope.
#[local] Open Scope list_scope.
#[local] Open Scope Z_scope.

(** ** Simulation *)
Module Sim.
Section sim.
Context {S T : Type} (R : S → T → Prop).

(** The same result, and related states afterwards. *)
Definition sim {E A} (m : M S E A) (m' : M T E A) (s : S) (t : T) : Prop :=
  (m s).1 = (m' t).1 ∧ R (m s).2 (m' t).2.

Lemma sim_ret {E A} (a : A) s t : R s t → sim (E := E) (mret a) (mret a) s t.
Proof. done. Qed.
Lemma sim_throw {E A} (e : E) s t : R s t → sim (A := A) (throw e) (throw e) s t.
Proof. done. Qed.
Lemma sim_lift {E A} (o : outcome E A) s t : R s t → sim (lift o) (lift o) s t.
Proof. done. Qed.
Lemma sim_get {E C} (f : S → M S E C) (f' : T → M T E C) s t :
  sim (f s) (f' t) s t → sim (get ≫= f) (get ≫= f') s t.
Proof. done. Qed.
Lemma sim_bind {E A C} (m : M S E A) m' (f : A → M S E C) f' s t :
  sim m m' s t → (∀ a s' t', R s' t' → sim (f a) (f' a) s' t') → sim (m ≫= f) (m' ≫= f') s t.
Proof.
  intros [Hr Hs] Hf. unfold sim, mbind, M_bind. destruct (m s) as [[a| | |] s1], (m' t) as [[a'| | |] t1];
    simpl in *; try done; try (split; congruence). injection Hr as ->. by apply Hf.
Qed.
Lemma sim_map_err {E E' A} (f : E → E') (m : M S E A) m' s t : sim m m' s t → sim (map_err f m) (map_err f m') s t.
Proof.
  intros [Hr Hs]. unfold sim, map_err. destruct (m s) as [[] s1], (m' t) as [[] t1]; simpl in *; split; congruence.
Qed.
Lemma sim_while {E St} fuel cond (body : St → M S E St) body' st s t :
  (∀ st s t, R s t → sim (body st) (body' st) s t) → R s t →
  sim (while fuel cond body st) (while fuel cond body' st) s t.
Proof.
  intros Hb. revert st s t. induction fuel as [|fuel IH]; intros st s t Hst; simpl; destruct (cond st); try done.
  apply sim_bind; [by apply Hb|]. intros. by apply IH.
Qed.
Lemma sim_ok {E A} (m : M S E A) m' s t Q :
  sim m m' s t → wp m' Q (λ _ _, False) t → ∃ a s', m s = (Ok a, s') ∧ ∃ t', R s' t' ∧ Q a t'.
Proof.
  intros [Hr Hs] Hwp. unfold wp in *. destruct (m s) as [r s1], (m' t) as [[] t1]; simpl in *; try done.
  subst r. eexists _, _. split; [done|]. by exists t1.
Qed.
End sim.

(** Two trait objects that behave alike, as far as image transfers use them. *)
Record alike_dyn {S T : Type} (R : S → T → Prop) (D : Dyn S) (D' : Dyn T) : Prop := {
  ad_chunk s t : R s t → dyn_chunk_size D s = dyn_chunk_size D' t;
  ad_capacity s t : R s t → dyn_capacity D s = dyn_capacity D' t;
  ad_read off buf s t : R s t → sim R (dyn_read_at D off buf) (dyn_read_at D' off buf) s t;
  ad_write off data s t : R s t → sim R (dyn_write_at D off data) (dyn_write_at D' off data) s t;
  ad_flush s t : R s t → sim R (dyn_flush D) (dyn_flush D') s t
}.

Section transfers.
Context {S T : Type} (R : S → T → Prop) (D : Dyn S) (D' : Dyn T) (Halike : alike_dyn R D D').
Import Image.

(** Beside the same connection. *)
Definition beside (s : S * Socket) (t : T * Socket) : Prop := R s.1 t.1 ∧ s.2 = t.2.

Lemma sim_on_store {A} w (m : M S StoreError A) m' s t :
  (∀ x y, R x y → sim R m m' x y) → beside s t → sim beside (on_store w m) (on_store w m') s t.
Proof.
  intros Hm [Hr Hs]. destruct (sim_map_err R (λ e, w +:+ ": " +:+ display e) m m' s.1 t.1 (Hm _ _ Hr)) as [H1 H2].
  unfold sim, on_store, zoom. destruct (map_err _ m s.1), (map_err _ m' t.1). simpl in *.
  split; [done|]. by split.
Qed.
Lemma sim_on_socket {A} w (m : M Socket string A) s t :
  beside s t → sim beside (on_socket (T := S) w m) (on_socket (T := T) w m) s t.
Proof.
  intros [Hr Hs]. unfold sim, on_socket, zoom. rewrite Hs. destruct (map_err _ m t.2). simpl. split; [done|]. by split.
Qed.

Lemma seed_sim size s t :
  beside s t → sim beside (seed_image_from_reader D size) (seed_image_from_reader D' size) s t.
Proof.
  intros Hb. unfold seed_image_from_reader. apply sim_get.
  rewrite (ad_chunk _ _ _ Halike s.1 t.1) by apply Hb. rewrite (ad_capacity _ _ _ Halike s.1 t.1) by apply Hb.
  cbv zeta. destruct (_ =? 0); [by apply sim_throw|]. destruct (_ >? _); [by apply sim_throw|].
  apply sim_bind; [apply sim_while; [|done]|].
  - intros st s' t' Hb'. unfold seed_piece. apply sim_bind; [by apply sim_on_socket|].
    intros buf s1 t1 Hb1. destruct (forallb is_zero buf); [by apply sim_ret|].
    apply sim_bind; [apply sim_on_store; [intros; by apply (ad_write _ _ _ Halike)|done]|].
    intros [] s2 t2 Hb2. by apply sim_ret.
  - intros st s' t' Hb'. apply sim_bind; [apply sim_on_store; [intros; by apply (ad_flush _ _ _ Halike)|done]|].
    intros [] s2 t2 Hb2. by apply sim_ret.
Qed.

Lemma export_sim size s t :
  beside s t → sim beside (export_image_to_writer D size) (export_image_to_writer D' size) s t.
Proof.
  intros Hb. unfold export_image_to_writer. apply sim_get.
  rewrite (ad_chunk _ _ _ Halike s.1 t.1) by apply Hb. rewrite (ad_capacity _ _ _ Halike s.1 t.1) by apply Hb.
  cbv zeta. destruct (_ =? 0); [by apply sim_throw|]. destruct (_ >? _); [by apply sim_throw|].
  apply sim_bind; [apply sim_while; [|done]|].
  - intros st s' t' Hb'. unfold export_piece. apply sim_bind; [by apply sim_lift|]. intros dst s1 t1 Hb1.
    apply sim_bind; [apply sim_on_store; [intros; by apply (ad_read _ _ _ Halike)|done]|]. intros got s2 t2 Hb2.
    apply sim_bind; [by apply sim_lift|]. intros buf s3 t3 Hb3. apply sim_bind; [by apply sim_lift|].
    intros src s4 t4 Hb4. apply sim_bind; [by apply sim_on_socket|]. intros [] s5 t5 Hb5. by apply sim_ret.
  - intros st s' t' Hb'. by apply sim_ret.
Qed.
End transfers.
End Sim.

(** ** One volume of the daemon *)
Module Transfer.
Import Admin Image ImageSpec Sim.
Section volume.
Context {B : Type} `{S3Client B} `{Codecs} `{Blake3} `{Json} `{StampJson} `{Prometheus}.
Implicit Types (st : AdminState B) (v : Stack.volume_store B).

(** The store of volume [i], over the shared bucket and cache. *)
Definition volume_at (i : nat) st v : Prop :=
  ∃ h, ad_volume_stores st !! i = Some h ∧ v = refresh st (ah_store h).

Lemma focus_sim {A} i (m : M (Stack.volume_store B) StoreError A) st v :
  volume_at i st v → sim (volume_at i) (focus i m) (zoom id (λ s _, s) m) st v.
Proof.
  intros (h & Hh & ->). unfold sim, focus, zoom, id. rewrite Hh.
  destruct (m (refresh st (ah_store h))) as [r v']. simpl. split; [done|].
  eexists. split; [apply list_lookup_insert_eq; by eapply lookup_lt_Some|].
  by destruct v' as [[[] ? ? ?] ? ? ? ? ? ? ? ? ?].
Qed.

Lemma dyn_at_alike i : alike_dyn (volume_at i) (dyn_at i) (whole (S := Stack.volume_store B)).
Proof.
  constructor; try (intros; by apply focus_sim).
  - intros st v (h & Hh & ->). simpl. unfold of_store. by rewrite Hh.
  - intros st v (h & Hh & ->). simpl. unfold of_store. by rewrite Hh.
Qed.
End volume.

(** ** The daemon's side of a connection *)
Section connection.
Context {B : Type} `{S3Client B} `{Codecs} `{Blake3} `{Json} `{StampJson} `{Conf.ByteSize} `{Prometheus} `{WireLaws}.
Context (load : string → outcome string Config) (head_bucket : M (Env B * Z) StoreError unit).
Implicit Types st : AdminState B.
Import WireSpec AdminOps.

Lemma run_stream {A} (m : M Socket string A) st so r so' : m so = (r, so') → on_stream m (st, so) = (r, (st, so')).
Proof. unfold on_stream, zoom. cbn [snd]. by intros ->. Qed.
Lemma run_admin {A} (m : M (AdminState B) string A) st so r st' :
  m st = (r, st') → on_admin m (st, so) = (r, (st', so)).
Proof. unfold on_admin, zoom. cbn [fst]. by intros ->. Qed.

(** The daemon reads one line and hands the request on. *)
Lemma handle_client_line {op} v rest rq st out :
  decode_request v = Ok rq →
  handle_client load head_bucket (st, {| so_in := line v ++ rest; so_out := out; so_room := None; so_open := op |}) =
  (if String.eqb (rq_op rq) "volume.write_image" then handle_write_image rq
   else if String.eqb (rq_op rq) "volume.export" then handle_export rq
   else
     response ← on_admin (dispatch load head_bucket rq);
     on_stream (Wire.write_json_line response))
    (st, {| so_in := rest; so_out := out; so_room := None; so_open := op |}).
Proof.
  intros Hd. unfold handle_client.
  erewrite run_bind by (apply run_stream, run_saying, read_line_json). rewrite wire_trim, wire_some.
  rewrite (run_bind _ _ _ _ _ (parse_line_json _ _ _)). unfold lift. by rewrite Hd.
Qed.

(** Without a request it waits. *)
Lemma handle_client_waits st : so_out (handle_client load head_bucket (st, connected [])).2.2 = [].
Proof.
  unfold handle_client, connected.
  erewrite run_wait by (apply run_stream, saying_wait, read_line_waits). done.
Qed.
(** A daemon that seeds waits for the first bytes of the image. *)
Lemma seed_waits (D : Dyn (AdminState B)) size st out :
  0 < size ≤ dyn_capacity D st → 0 < dyn_chunk_size D st →
  let s := (st, {| so_in := []; so_out := out; so_room := None; so_open := true |}) in
  seed_image_from_reader D size s = (OutOfFuel, s).
Proof.
  intros Hsize Hcs s. unfold seed_image_from_reader.
  rewrite (run_bind get _ s s s eq_refl). cbv zeta. cbn [fst s].
  rewrite (proj2 (Z.eqb_neq _ _)) by lia. destruct (Z.gtb_spec size (dyn_capacity D st)) as [|_]; [lia|].
  apply run_wait. rewrite run_while by (apply Z.gtb_lt; simpl; lia). apply run_wait. unfold seed_piece.
  apply run_wait. unfold on_socket, zoom, map_err, read_exact. cbn [fst snd s so_in so_open sd_remaining].
  change (Zlen []) with 0. by rewrite (proj2 (Z.leb_gt (Z.min size (dyn_chunk_size D st)) 0)) by lia.
Qed.

(** The requests of the client's image calls. *)
Definition image_request (op volume : string) (size : option Z) : AdminRequest :=
  {| rq_op := op; rq_max_bytes := None; rq_volume := Some volume; rq_to := None; rq_size := size;
     rq_capacity := None; rq_id := None; rq_name := None; rq_force := false; rq_resume_from := None |}.

Lemma decode_upload volume size :
  is_u64 size →
  decode_request (Wire.write_image_request volume size) = Ok (image_request "volume.write_image" volume (Some size)).
Proof.
  intros Hs. unfold Wire.write_image_request, Js.obj, decode_request. cbn [list_to_map foldr fst snd].
  unfold decode_fields, opt_str, opt_u64, flag, opt_value.
  repeat first [rewrite lookup_insert_eq | rewrite lookup_insert_ne by discriminate | rewrite lookup_empty].
  unfold to_json, string_serialize, Z_serialize. by rewrite Js.as_u64_in.
Qed.
Lemma decode_download volume size :
  from_option is_u64 True size →
  decode_request (Wire.export_request volume size) = Ok (image_request "volume.export" volume size).
Proof.
  intros Hs. unfold Wire.export_request, Js.put_some, Js.obj, Js.put, decode_request. destruct size as [size|];
    cbn [list_to_map foldr fst snd]; unfold decode_fields, opt_str, opt_u64, flag, opt_value;
    repeat first [rewrite lookup_insert_eq | rewrite lookup_insert_ne by discriminate | rewrite lookup_empty];
    unfold to_json, string_serialize, Z_serialize; rewrite ?Js.as_u64_in by done; done.
Qed.

(** What a prepared transfer knows. *)
Lemma bind_ran {S E A C} (m : M S E A) (f : A → M S E C) s c s' :
  (m ≫= f) s = (Ok c, s') → ∃ a s1, m s = (Ok a, s1) ∧ f a s1 = (Ok c, s').
Proof. unfold mbind, M_bind. destruct (m s) as [[] ?]; naive_solver. Qed.

Lemma prepared_write volume size st p st1 :
  prepare_write_image (image_request "volume.write_image" volume (Some size)) st = (Ok p, st1) →
  ip_size p = size ∧ size ≤ dyn_capacity (dyn_at (ip_store p)) st1 ∧ size ≠ 0.
Proof.
  unfold prepare_write_image. cbn [rq_size rq_volume image_request].
  intros (? & ? & [= <- <-] & Hrun)%bind_ran. destruct (Z.eqb_spec size 0) as [|Hz]; [done|].
  apply bind_ran in Hrun as (vol & st2 & Hvol & Hrun). apply bind_ran in Hrun as (i & st3 & Hi & Hrun).
  apply bind_ran in Hrun as (cap & st4 & [= <- <-] & Hrun).
  match type of Hrun with context [size >? ?c] => destruct (Z.gtb_spec size c) as [|Hle]; [done|] end.
  apply bind_ran in Hrun as (bucket & st5 & [= <- <-] & Hrun).
  destruct (as_s3_bucket _); [|done].
  apply bind_ran in Hrun as (stats & st6 & Hstats & Hrun). apply bind_ran in Hrun as (u & st7 & Hu & Hrun).
  unfold lift in Hu. injection Hu as _ <-. unfold prep, gets in Hrun. injection Hrun as <- <-.
  cbn [ip_size ip_store]. split; [done|]. split; [|done]. etrans; [exact Hle|].
  unfold prefix_stats, to_string, map_err, zoom in Hstats.
  destruct (S3Snap.list_prefix_stats _ _) as [[] env']; simplify_eq. by apply Z.eq_le_incl.
Qed.

Lemma prepared_export volume size st p st1 :
  prepare_export (image_request "volume.export" volume size) st = (Ok p, st1) →
  st1 = st ∧ 0 ≤ ip_size p ≤ dyn_capacity (dyn_at (ip_store p)) st ∨ ip_size p < 0.
Proof.
  unfold prepare_export. cbn [rq_size rq_volume image_request]. intros Hrun.
  apply bind_ran in Hrun as (vol & st2 & Hvol & Hrun). apply bind_ran in Hrun as (i & st3 & Hi & Hrun).
  apply bind_ran in Hrun as (cap & st4 & [= <- <-] & Hrun).
  apply bind_ran in Hvol as (? & ? & [= <- <-] & Hvol). unfold lift in Hvol. injection Hvol as _ <-.
  apply bind_ran in Hi as (? & ? & [= <- <-] & Hi). unfold lift in Hi. injection Hi as _ <-.
  cbv zeta in Hrun. destruct (_ =? 0); [done|].
  match type of Hrun with context [?n >? ?c] => destruct (Z.gtb_spec n c) as [|Hle]; [done|] end.
  unfold prep, gets in Hrun. injection Hrun as <- <-. cbn [ip_size ip_store].
  match goal with |- context [0 ≤ ?n] => destruct (Z.lt_ge_cases n 0); [by right|by left] end.
Qed.
End connection.
End Transfer.
