(* ===== verification/TransferTheorems.v ===== *)
(** * Theorems about image transfers and wiping

    [iscsi-s3-ctl volume write-image] and [volume export] from the client's file
    through both halves of the socket to the volume, and back. The two programs
    are run in rounds, each on what the other has sent so far; one that needs more
    than that waits. [volume.wipe] as the daemon runs it. *)
From S2P Require Import Prelude Tables Text Store Compression Snapshot S3Api S3Keys S3Store S3Spec S3Block S3Snap.
From S2P Require Import Concrete S3Theorems Cache CachedStore Ready WriteBuffer WriteCache WriteBack WriteBackSpec.
From S2P Require Import WriteBackWorker WriteBackOps WriteBackFlush WriteBackRecover Stack WriteBackTheorems Config.
From S2P Require Import Images ImagesSpec Value Wire WireSpec ConcreteWire Metrics Sessions MetricsTheorems Admin.
From S2P Require Import AdminOps AdminTheorems Transfer.
#[local] Open Scope string_scope.
#[local] Open Scope list_scope.
#[local] Open Scope Z_scope.

Module TransferTheorems.
Import Image ImageSpec Admin AdminOps WireSpec Sim Transfer.

Section images.
Context {B : Type} `{S3Laws B} `{CodecLaws} `{Blake3Laws} `{JsonLaws} `{StampJson} `{Conf.ByteSize}.
Context `{Prometheus} `{WireLaws} `{Contents}.
Context (load : string → outcome string Config) (head_bucket : M (Env B * Z) StoreError unit).
Implicit Types (st : AdminState B) (v : Stack.volume_store B) (img : bytes).

Lemma ok_is_ok data : Js.get "ok" (ok data) = Some (JBool true).
Proof. unfold ok. by autorewrite with js. Qed.

(** The two programs on one connection, the client with its file. *)
Definition upload_client volume img inc := Wire.call_admin_write_image volume (Zlen img) (connected inc, file img).
Definition download_client volume size inc := Wire.call_admin_export volume size (connected inc, file []).
Definition serving st inc := handle_client load head_bucket (st, connected inc).
(** A file that was written. *)
Definition saved (out : bytes) : Socket := {| so_in := []; so_out := out; so_room := None; so_open := false |}.
(** What they say in rounds. *)
Definition say {A} st (client : bytes → outcome string A * (Socket * Socket)) :=
  conversation (λ inc, so_out (client inc).2.1) (λ inc, so_out (serving st inc).2.2).

(** C26: Uploading an image. The daemon has accepted the request for a volume
    that works and shows only zeros where the image goes (through a dirty chunk
    the image would not be seen). Then client and daemon, each of which sees
    only what the other has sent so far and waits when it needs more, come to an
    end after four rounds: the client has sent its request and, once the daemon
    was ready, exactly the file; its result is the daemon's final line, a
    success; and the volume afterwards shows the image and, beyond it, what it
    showed before. *)
Theorem image_upload volume img st p st1 v :
  is_u64 (Zlen img) →
  prepare_write_image (image_request "volume.write_image" volume (Some (Zlen img))) st = (Ok p, st1) →
  volume_at (ip_store p) st1 v → usable v → (∀ a, 0 ≤ a < Zlen img → shown v a = Byte.x00) →
  (∀ idx, is_u64 idx → allowed (Stack.volume_store B) (chunk_at (chunk_size v) (ImageSpec.seeded v img (Zlen img)) idx)) →
  ∃ r st' v',
    let request := line (Wire.write_image_request volume (Zlen img)) ++ img in
    let replies := line (ok (ready_json p)) ++ line (ok (seed_json p r)) in
    say st (upload_client volume img) 4 = (request, replies) ∧
    serving st request = (Ok tt, (st', replied replies)) ∧
    upload_client volume img replies = (Ok (ok (seed_json p r)), (replied request, file [])) ∧
    volume_at (ip_store p) st' v' ∧ usable v' ∧
    ∀ a, 0 ≤ a → shown v' a = if decide (a < Zlen img) then nthb img a else shown v a.
Proof.
  intros Hu64 Hprep Hv Hus Hblank Hall. destruct (prepared_write _ _ _ _ _ Hprep) as (Hsize & Hcap & Hz).
  set (ready := line (ok (ready_json p))).
  assert (Hcs : 0 < dyn_chunk_size (dyn_at (ip_store p)) st1).
  { rewrite (ad_chunk _ _ _ (dyn_at_alike (ip_store p)) st1 v Hv). simpl.
    destruct (rs_geometry _ Hus) as (_ & Hcs & _). exact (proj1 Hcs). }
  assert (Hpos : 0 < Zlen img ≤ dyn_capacity (dyn_at (ip_store p)) st1) by (pose proof (Zlen_nonneg img); lia).
  assert (Hwait : so_out (serving st (line (Wire.write_image_request volume (Zlen img)))).2.2 = ready).
  { unfold serving, connected. rewrite <- (app_nil_r (line _)).
    rewrite (handle_client_line load head_bucket _ _ _ _ _ (decode_upload volume _ Hu64)).
    cbn [rq_op image_request String.eqb Ascii.eqb Bool.eqb]. unfold handle_write_image.
    rewrite (run_bind _ _ _ _ _ (run_attempt _ _ _ _ (run_admin _ _ _ _ _ Hprep))). cbv beta iota.
    rewrite (run_bind _ _ _ _ _ (run_stream _ _ _ _ _ (write_json_line_json _ _ _))). fold ready.
    rewrite Hsize. rewrite (run_wait _ _ _ _ (attempt_wait _ _ _ (seed_waits _ (Zlen img) st1 ready Hpos Hcs))). done. }
  set (so := {| so_in := img; so_out := ready; so_room := None; so_open := true |}).
  rewrite (ad_capacity _ _ _ (dyn_at_alike (ip_store p)) st1 v Hv) in Hcap.
  assert (Hsim : sim (beside (volume_at (ip_store p))) (seed_image_from_reader (dyn_at (ip_store p)) (Zlen img))
    (seed_image_from_reader whole (Zlen img)) (st1, so) (v, so))
    by (apply seed_sim; [apply dyn_at_alike|done]).
  destruct (sim_ok _ _ _ _ _ _ Hsim
    (seed_spec v img so (Zlen img) Hus eq_refl ltac:(pose proof (Zlen_nonneg img); lia) Hcap Hblank Hall))
    as (r & [st2 so2] & Hrun & [v' so'] & [Hv' Hso] & Hus' & _ & _ & _ & Hs2 & Hsh).
  simpl in Hv', Hso, Hus', Hs2, Hsh. subst so2 so'.
  assert (Hd : drop (Z.to_nat (Zlen img)) img = []) by (apply drop_ge; unfold Zlen; lia). rewrite Hd in Hrun.
  exists r, st2, v'. intros request replies.
  assert (Hdaemon : serving st request = (Ok tt, (st2, replied replies))).
  { unfold serving, connected, request. rewrite (handle_client_line load head_bucket _ _ _ _ _ (decode_upload volume _ Hu64)).
    cbn [rq_op image_request String.eqb Ascii.eqb Bool.eqb]. unfold handle_write_image.
    rewrite (run_bind _ _ _ _ _ (run_attempt _ _ _ _ (run_admin _ _ _ _ _ Hprep))). cbv beta iota.
    rewrite (run_bind _ _ _ _ _ (run_stream _ _ _ _ _ (write_json_line_json _ _ _))). fold ready.
    rewrite Hsize. change ({| so_in := img; so_out := [] ++ ready; so_room := None; so_open := true |}) with so.
    rewrite (run_bind _ _ _ _ _ (run_attempt _ _ _ _ Hrun)). apply run_stream, write_json_line_json. }
  split; [|split; [done|split; [apply WireSpec.upload_client, ok_is_ok|done]]].
  pose proof (handle_client_waits load head_bucket st : so_out (serving st []).2.2 = []) as Hnone.
  pose proof (upload_sends volume img (ok (ready_json p)) (ok_is_ok _)) as Hsend. fold ready in Hsend.
  unfold say, conversation, upload_client.
  repeat first [rewrite upload_asks | rewrite Hnone | rewrite Hwait | rewrite Hsend].
  fold request. by rewrite Hdaemon.
Qed.

(** C27: Downloading an image. When the daemon has accepted the request for a
    volume that works, client and daemon, each of which sees only what the other
    has sent so far, both end after two rounds; the client's file is exactly the
    first bytes of the volume, of the size the daemon announced, and the volume
    shows what it showed. *)
Theorem image_download volume size st p st1 v :
  from_option is_u64 True size →
  prepare_export (image_request "volume.export" volume size) st = (Ok p, st1) →
  is_u64 (ip_size p) → volume_at (ip_store p) st v → usable v →
  ∃ r st' v' img,
    let request := line (Wire.export_request volume size) in
    let replies := line (ok (ready_json p)) ++ img ++ line (ok (export_json p r)) in
    say st (download_client volume size) 2 = (request, replies) ∧
    serving st request = (Ok tt, (st', replied replies)) ∧
    download_client volume size replies = (Ok (ok (export_json p r)), (replied request, saved img)) ∧
    Zlen img = ip_size p ∧ (∀ a, 0 ≤ a < ip_size p → nthb img a = shown v a) ∧
    volume_at (ip_store p) st' v' ∧ usable v' ∧ ∀ a, 0 ≤ a → shown v' a = shown v a.
Proof.
  intros Hu64 Hprep Hsz Hv Hus. destruct (prepared_export _ _ _ _ _ Hprep) as [[-> Hcap]|Hneg];
    [|unfold is_u64 in Hsz; lia].
  set (ready := line (ok (ready_json p))). set (so := {| so_in := []; so_out := ready; so_room := None; so_open := true |}).
  rewrite (ad_capacity _ _ _ (dyn_at_alike (ip_store p)) st v Hv) in Hcap.
  assert (Hsim : sim (beside (volume_at (ip_store p))) (export_image_to_writer (dyn_at (ip_store p)) (ip_size p))
    (export_image_to_writer whole (ip_size p)) (st, so) (v, so))
    by (apply export_sim; [apply dyn_at_alike|done]).
  destruct (sim_ok _ _ _ _ _ _ Hsim (export_spec v so (ip_size p) Hus Hcap eq_refl))
    as (r & [st2 so2] & Hrun & [v' so'] & [Hv' Hso] & [Hus' _ Hsh] & _ & Hin & Hroom & Hopen & img & Hout & Hl & Himg).
  simpl in Hv', Hso, Hus', Hsh, Hin, Hroom, Hopen, Hout. subst so2. assert (Hso : so' = {| so_in := []; so_out := ready ++ img; so_room := None; so_open := true |}).
  { destruct so'; simpl in *; congruence. } subst so'.
  exists r, st2, v', img. intros request replies.
  assert (Hdaemon : serving st request = (Ok tt, (st2, replied replies))).
  { unfold serving, connected, request. rewrite <- (app_nil_r (line _)).
    rewrite (handle_client_line load head_bucket _ _ _ _ _ (decode_download volume _ Hu64)).
    cbn [rq_op image_request String.eqb Ascii.eqb Bool.eqb]. unfold handle_export.
    rewrite (run_bind _ _ _ _ _ (run_attempt _ _ _ _ (run_admin _ _ _ _ _ Hprep))). cbv beta iota.
    rewrite (run_bind _ _ _ _ _ (run_stream _ _ _ _ _ (write_json_line_json _ _ _))). fold ready.
    change ({| so_in := []; so_out := [] ++ ready; so_room := None; so_open := true |}) with so.
    rewrite (run_bind _ _ _ _ _ (run_attempt _ _ _ _ Hrun)). cbv beta.
    etrans; [apply run_stream, write_json_line_json|]. unfold replied, replies. by rewrite <- app_assoc. }
  split; [|split; [done|split; [|done]]].
  - pose proof (handle_client_waits load head_bucket st : so_out (serving st []).2.2 = []) as Hnone.
    unfold say, conversation, download_client. repeat first [rewrite download_asks | rewrite Hnone].
    fold request. by rewrite Hdaemon.
  - apply WireSpec.download_client; [apply ok_is_ok|].
    unfold ok, ready_json. cbn [Js.pointer]. autorewrite with js. cbn [mbind option_bind]. autorewrite with js.
    cbn [mbind option_bind]. unfold to_json, Z_serialize. by rewrite Js.as_u64_in, Hl.
Qed.
End images.

(** ** Wiping *)
Section wiping.
Context {B : Type} `{S3Laws B} `{CodecLaws} `{Blake3Laws} `{JsonLaws} `{StampJson} `{Prometheus} `{Contents}.
Implicit Types (st : AdminState B) (v : Stack.volume_store B).







End wiping.

(** ** Witnesses *)
Section witnesses.
Import Concrete S3Theorems WriteBackTheorems ConcreteWire MetricsTheorems.MemProm.
#[local] Existing Instance stamp_json.
#[local] Instance everything : Contents := any_contents.
#[local] Instance sizes : Conf.ByteSize := λ _, inr "unit".
Definition no_load : string → outcome string Config := λ _, Err "no file".
Definition img : bytes := zeros 4 ++ payload 2.

(** The only volume of the daemon, with a write-back cache in memory. *)
Definition disk : Stack.volume_store MemS3.bucket :=
  WC.core_of (Cached.new (fresh Legacy) (Cache.new 64) "vol") WcMemory None Dirty.new 0 0 0 [].
Lemma fresh_blank a : S3Spec.byte_view (volume Legacy) (∅ : object_map) a = Byte.x00.
Proof.
  unfold S3Spec.byte_view, S3Spec.chunk_view. case_decide; [|done]. cbn [st_storage volume]. rewrite !lookup_empty.
  apply nthb_zeros.
Qed.
Lemma disk_usable : usable disk ∧ ∀ a, shown disk a = Byte.x00.
Proof.
  destruct (WCRecover.core_of_usable below WcMemory 0 0 0 below_usable ltac:(lia) ltac:(by left)) as [Hu Hsh].
  split; [exact Hu|]. intros a. etrans; [apply Hsh|]. exact (fresh_blank a).
Qed.

Definition upload_prep : ImagePrep :=
  {| ip_volume_name := "vol"; ip_iqn := "iqn"; ip_size := 6; ip_capacity := 16; ip_chunk_size := 4; ip_store := 0 |}.
Lemma upload_accepted : ∃ st1,
  prepare_write_image (image_request "volume.write_image" "vol" (Some 6)) AdminTheorems.daemon = (Ok upload_prep, st1) ∧
  volume_at 0 st1 disk.
Proof.
  eexists. split; [reflexivity|]. eexists. split; [reflexivity|]. reflexivity.
Qed.

Lemma image_upload_witness :
  ∃ r st' v',
    let request := line (Wire.write_image_request "vol" 6) ++ img in
    let replies := line (ok (ready_json upload_prep)) ++ line (ok (seed_json upload_prep r)) in
    say no_load (mret tt) AdminTheorems.daemon (upload_client "vol" img) 4 = (request, replies) ∧
    serving no_load (mret tt) AdminTheorems.daemon request = (Ok tt, (st', replied replies)) ∧
    upload_client "vol" img replies = (Ok (ok (seed_json upload_prep r)), (replied request, file [])) ∧
    volume_at 0 st' v' ∧ usable v' ∧
    ∀ a, 0 ≤ a → shown v' a = if decide (a < 6) then nthb img a else shown disk a.
Proof.
  destruct disk_usable as [Hu Hsh].
  destruct upload_accepted as (st1 & Hp & Hv).
  exact (image_upload no_load (mret tt) "vol" img AdminTheorems.daemon upload_prep st1 disk
    ltac:(split; vm_compute; congruence) Hp Hv Hu (λ a _, Hsh a) (λ _ _, I)).
Defined.


Lemma image_download_witness :
  ∃ r st' v' got,
    let request := line (Wire.export_request "vol" None) in
    let p := {| ip_volume_name := "vol"; ip_iqn := "iqn"; ip_size := 16; ip_capacity := 16;
                ip_chunk_size := 4; ip_store := 0 |} in
    let replies := line (ok (ready_json p)) ++ got ++ line (ok (export_json p r)) in
    say no_load (mret tt) AdminTheorems.daemon (download_client "vol" None) 2 = (request, replies) ∧
    serving no_load (mret tt) AdminTheorems.daemon request = (Ok tt, (st', replied replies)) ∧
    download_client "vol" None replies = (Ok (ok (export_json p r)), (replied request, saved got)) ∧
    Zlen got = 16 ∧ (∀ a, 0 ≤ a < 16 → nthb got a = shown disk a) ∧
    volume_at 0 st' v' ∧ usable v' ∧ ∀ a, 0 ≤ a → shown v' a = shown disk a.
Proof.
  destruct disk_usable as [Hu Hsh].
  assert (Hv : volume_at 0 AdminTheorems.daemon disk) by (eexists; split; reflexivity).
  exact (image_download no_load (mret tt) "vol" None AdminTheorems.daemon _ AdminTheorems.daemon disk I eq_refl
    ltac:(split; vm_compute; congruence) Hv Hu).
Defined.
End witnesses.
End TransferTheorems.
