(* ===== verification/Startup.v ===== *)
(** * Opening every volume of a bucket

    The volumes of a configuration share one bucket. Opening one of them writes
    at most its metadata document, so the volumes whose keys are apart from it
    stay as they were: [stands] is what a volume needs to open and serve, and it
    is kept by opening the others. *)
From S2P Require Import Prelude Tables Text Store Compression Snapshot S3Api S3Keys S3Store S3Spec S3Block.
From S2P Require Import S3Snap S3SnapSpec S3Open Cache CachedStore Ready WriteBuffer WriteCache WriteBack.
From S2P Require Import WriteBackSpec WriteBackWorker WriteBackOps WriteBackFlush WriteBackRecover.
From S2P Require Import Stack Config ConfigSpec Volume Restart.
#[local] Open Scope string_scope.
#[local] Open Scope list_scope.
#[local] Open Scope Z_scope.

Module Startup.
Import S3Spec SnapSpec Open Volume Restart.

(** ** A volume's part of the bucket *)
Section parts.
Context {B : Type} `{S3Laws B} `{CodecLaws} `{Blake3Laws} `{JsonLaws} `{StampJson} `{Contents}.
Implicit Types (env : Env B) (cache : CacheInner) (self : S3ChunkStore) (o : object_map) (vol : VolumeConfig).

(** The objects below the prefix are the same. *)
Definition same_under self o o' : Prop :=
  ∀ rest, o' !! (st_prefix self +:+ "/" +:+ rest) = o !! (st_prefix self +:+ "/" +:+ rest).

Lemma under_view self o o' idx : same_under self o o' → chunk_view self o' idx = chunk_view self o idx.
Proof.
  intros Hs. unfold chunk_view. destruct (st_storage self) eqn:Hm.
  - pose proof (Hs ("chunks/" +:+ Keys.shard_chunk_index idx)) as Hk1.
    pose proof (Hs ("chunks/" +:+ hex_fixed false 16 idx)) as Hk2.
    change (o' !! Keys.legacy_chunk_key self idx = o !! Keys.legacy_chunk_key self idx) in Hk1.
    change (o' !! Keys.legacy_flat_chunk_key self idx = o !! Keys.legacy_flat_chunk_key self idx) in Hk2.
    by rewrite Hk1, Hk2.
  - assert (Hc : o' !! Keys.chunk_key self idx = o !! Keys.chunk_key self idx).
    { unfold Keys.chunk_key, Keys.chunks_prefix. rewrite Hm, <- str_app_assoc.
      exact (Hs ("live/chunks/" +:+ hex_fixed false 16 idx)). }
    rewrite Hc. destruct (o !! Keys.chunk_key self idx) as [[ptr ?]|]; [|done].
    destruct (Snap.decode_pointer ptr) as [h| | |]; [|done..]. cbn [mbind outcome_bind].
    by rewrite (Hs ("objects/" +:+ Snap.object_relpath h) : o' !! Keys.object_key self h = o !! Keys.object_key self h).
Qed.
Lemma under_bytes self o o' a : same_under self o o' → byte_view self o' a = byte_view self o a.
Proof. intros Hs. apply view_same_bytes. intros j _. by apply under_view. Qed.

(** The metadata of a volume that opens: none, or of the same geometry and no
    larger capacity, in the place its layout has. *)
Record fits (cfg : S3StoreConfig) (m : VolumeMeta) : Prop := {
  ft_chunk : vm_chunk_size m = sc_chunk_size cfg;
  ft_block : vm_block_size m = sc_block_size cfg;
  ft_compression : vm_compression m = sc_compression cfg;
  ft_storage : vm_storage m = sc_storage cfg;
  ft_capacity : vm_capacity_bytes m ≤ sc_capacity cfg
}.
Definition acceptable (cfg : S3StoreConfig) o : Prop :=
  ∃ live flat, meta_at o (Keys.live_meta_key (S3Snap.handle_of cfg)) = Some live ∧
    meta_at o (Keys.flat_meta_key (S3Snap.handle_of cfg)) = Some flat ∧
    match sc_storage cfg with
    | Legacy => live = None ∧ ∀ m, flat = Some m → fits cfg m
    | Cow => (live = None → flat = None) ∧ ∀ m, live = Some m → fits cfg m
    end.

Lemma recorded_acceptable cfg o : recorded cfg o → acceptable cfg o.
Proof.
  intros [(m & Hm & []) (live & flat & Hl & Hf & Hleg) _]. exists live, flat. split; [done|]. split; [done|].
  assert (Hft : fits cfg m) by (constructor; [done..|lia]).
  unfold Keys.meta_key in Hm. cbn [st_storage S3Snap.handle_of] in Hm. destruct (sc_storage cfg).
  - split; [by apply Hleg|]. naive_solver.
  - split; naive_solver.
Qed.
Lemma plan_fits cfg existing :
  (∀ m, existing = Some m → fits cfg m) →
  ∃ w, Keys.plan_capacity existing (sc_capacity cfg) (sc_chunk_size cfg) (sc_block_size cfg)
         (sc_compression cfg) (sc_storage cfg) = Ok (sc_capacity cfg, w).
Proof.
  intros Hm. unfold Keys.plan_capacity. destruct existing as [m|]; [|by eexists].
  destruct (Hm m eq_refl) as [-> -> -> -> Hle]. rewrite !Z.eqb_refl, !bool_decide_true by done. simpl.
  destruct (Z.ltb_spec (sc_capacity cfg) (vm_capacity_bytes m)); [lia|].
  destruct (Z.gtb_spec (sc_capacity cfg) (vm_capacity_bytes m)); eexists; [done|]. repeat f_equal. lia.
Qed.

(** Probing accepts such metadata. *)
Lemma probe_accepts cfg env :
  ok env → acceptable cfg (objs env) →
  wp (S3Snap.probe_layout (S3Snap.handle_of cfg) (sc_storage cfg))
    (λ r env', quiet env env' ∧ r.1 = sc_storage cfg ∧ ∀ m, r.2 = Some m → fits cfg m) (λ _ _, False) env.
Proof.
  intros Hok (live & flat & Hl & Hf & Hc). unfold S3Snap.probe_layout. wp_step.
  eapply wp_mono; [apply get_meta_at_spec| |naive_solver]. intros live' env1 [[Ho1 Hk1] Hl'].
  assert (live' = live) as -> by congruence. wp_step.
  eapply wp_mono; [apply get_meta_at_spec| |rewrite Ho1; intros e env2 [_ [Hn|Hn]]; [naive_solver|congruence]].
  intros flat' env2 [[Ho2 Hk2] Hf']. rewrite Ho1 in Hf'. assert (flat' = flat) as -> by congruence.
  assert (Hq : quiet env env2) by (split; [congruence|auto]).
  destruct (sc_storage cfg) eqn:Hm.
  - destruct Hc as [-> Hft]. destruct flat as [m|]; [|by wp_step].
    rewrite (ft_storage _ _ (Hft m eq_refl)), Hm. simpl. by wp_step.
  - destruct Hc as [Hnone Hft]. destruct live as [m|]; [|rewrite Hnone by done; by wp_step].
    rewrite (ft_storage _ _ (Hft m eq_refl)), Hm. simpl. by wp_step.
Qed.

(** The capacity is planned, and recorded when it changed. *)
Lemma resolve_accepts cfg env existing :
  let self := S3Snap.handle_of cfg in
  ok env → objs env !! Keys.migrating_key self = None → (∀ m, existing = Some m → fits cfg m) →
  wp (S3Snap.resolve_meta self (sc_capacity cfg) existing)
    (λ eff env', eff = sc_capacity cfg ∧ ok env' ∧ objs env' !! Keys.migrating_key self = None)
    (λ _ _, False) env.
Proof.
  intros self Hok Hmk Hft. unfold S3Snap.resolve_meta. destruct (plan_fits cfg existing Hft) as [w Hp].
  change (Keys.plan_capacity existing (sc_capacity cfg) (st_chunk_size self) (st_block_size self)
    (st_compression self) (st_storage self) = Ok (sc_capacity cfg, w)) in Hp. rewrite Hp.
  wp_steps. cbn [fst snd]. destruct w as [m|]; [|by wp_steps].
  eapply wp_mono; [apply put_meta_spec| |naive_solver]. intros _ env2 [Hok2 (body & et & _ & Ho2)]. wp_step.
  split; [done|]. split; [by apply Hok2|]. rewrite Ho2, lookup_insert_ne; [done|].
  unfold Keys.meta_key. destruct (st_storage self); Keys.key_neq.
Qed.

(** With a healthy bucket and no pending migration such a volume opens. *)
Lemma acceptable_opens cfg env :
  ok env → objs env !! Keys.migrating_key (S3Snap.handle_of cfg) = None → acceptable cfg (objs env) →
  ∃ s, S3Snap.open cfg env = (Ok tt, s).
Proof.
  intros Hok Hmk Hacc. set (self := S3Snap.handle_of cfg) in *.
  assert (Hwp : wp (S3Snap.open_handle cfg) (λ _ _, True) (λ _ _, False) {| S3.s_store := self; S3.s_env := env |}).
  { unfold S3Snap.open_handle. apply wp_on_env_bind. cbn [S3.s_store S3.s_env].
    eapply wp_mono; [by apply probe_accepts| |done]. intros [mode existing] env1 ([Ho1 Hk1] & Hmode & Hft).
    cbn [fst snd] in *. subst mode. wp_step. wp_step.
    change (S3.with_store _ _) with {| S3.s_store := self; S3.s_env := env1 |}.
    apply wp_on_env_bind. cbn [S3.s_store S3.s_env fst snd].
    eapply wp_mono; [apply resolve_accepts; [auto|by rewrite Ho1|done]| |done].
    intros eff env2 (-> & Hok2 & Hmk2). fold self in Hmk2. wp_steps. simpl. change (S3.with_capacity (sc_capacity cfg) self) with self.
    destruct (sc_storage cfg); [|by wp_step].
    apply wp_on_env_bind. cbn [S3.with_store S3.with_env S3.s_store S3.s_env].
    change (S3.with_capacity (sc_capacity cfg) self) with self.
    unfold S3Snap.has_migration_marker. wp_step. eapply wp_mono; [apply get_bytes_as_spec|..].
    - intros r env3 [_ ->]. rewrite Hmk2. by wp_steps.
    - intros e env3 [_ Hn]. auto. }
  unfold wp in Hwp. change (S3Snap.open_handle cfg _) with (S3Snap.open cfg env) in Hwp.
  destruct (S3Snap.open cfg env) as [[[]|e| |] s]; try done. by exists s.
Qed.

(** ** Volumes side by side *)

(** What a volume needs to open and to serve. *)
Record stands vol env : Prop := {
  sd_sound : sound (place vol) env;
  sd_used : Stack.well_used (place vol) (objs env);
  sd_meta : acceptable (store_config vol) (objs env)
}.
(** The metadata document of [vol] is not among the objects of [vol']. *)
Definition apart vol vol' : Prop :=
  ∀ rest, Keys.meta_key (place vol) ≠ st_prefix (place vol') +:+ "/" +:+ rest.

Lemma stands_under vol env env' :
  ok env' → same_under (place vol) (objs env) (objs env') → stands vol env → stands vol env'.
Proof.
  intros Hok Hs [[_ Hmk Hch Htail Henc] Hused (live & flat & Hl & Hf & Hc)].
  assert (Hv : view_same (place vol) (objs env) (objs env')) by (intros j _; by apply under_view).
  constructor.
  - constructor; [done| |by eapply view_same_ok| |done].
    + rewrite <- Hmk. exact (Hs "live/migrating.json").
    + intros i Hi. rewrite under_bytes with (o := objs env) by done. by apply Htail.
  - eapply Stack.view_same_used; [done| |done]. intros h v _ Hh. rewrite <- Hh. symmetry.
    exact (Hs ("objects/" +:+ Snap.object_relpath h)).
  - exists live, flat. rewrite <- Hl, <- Hf. split; [|split; [|done]]; apply meta_at_lookup.
    + exact (Hs "live/meta.json").
    + exact (Hs "meta.json").
Qed.
Lemma only_meta_under vol vol' o o' : apart vol vol' → only_meta (place vol) o o' → same_under (place vol') o o'.
Proof. intros Ha Hm rest. apply (only_meta_lookup (place vol)); [done|]. apply not_eq_sym, Ha. Qed.

Lemma opening vol env :
  geometry (place vol) → stands vol env →
  ∃ s, S3Snap.open (store_config vol) env = (Ok tt, s) ∧ opened (store_config vol) env s ∧
    only_meta (place vol) (objs env) (objs (S3.s_env s)) ∧ ok (S3.s_env s) ∧ stands vol (S3.s_env s).
Proof.
  intros Hg [Hsound Hused Hmeta]. pose proof Hsound as [Hok Hmk Hch Htail Henc].
  destruct (acceptable_opens (store_config vol) env) as [s Hs]; [done..|]. exists s.
  pose proof (opened_invariant _ _ _ Hg Hsound Hs) as Hop.
  pose proof (open_spec (store_config vol) env Hmk) as Hspec. unfold wp in Hspec.
  change (S3Snap.open_handle _ _) with (S3Snap.open (store_config vol) env) in Hspec. rewrite Hs in Hspec.
  destruct Hspec as (Hok' & Hst & Hom & _). specialize (Hok' Hok).
  pose proof (only_meta_same _ _ _ Hom) as Hv.
  split; [done|]. split; [done|]. split; [exact Hom|]. split; [done|]. constructor.
  - constructor; [done|by destruct (op_recorded _ _ _ Hop)|by eapply view_same_ok| |done].
    intros i Hi. change (objs (S3.s_env s)) with (S3Block.s_objs s).
    rewrite (view_same_bytes _ _ _ _ Hv). by apply Htail.
  - pose proof (op_used _ _ _ Hop Hused) as Hu. unfold Stack.s3_used in Hu. by rewrite Hst in Hu.
  - apply recorded_acceptable, (op_recorded _ _ _ Hop).
Qed.

(** The store of [vol] over a bucket and a cache. *)
Definition store_in vol env cache (now : Z) : Stack.volume_store B :=
  WC.core_of (Cached.new {| S3.s_store := place vol; S3.s_env := env |} cache (vc_name vol))
    (wcc_mode (vc_write_cache vol)) None Dirty.new (wcc_max_bytes (vc_write_cache vol))
    (wbc_max_bytes (vc_write_buffer vol)) now [].

Lemma store_in_serves cfg vol env cache now :
  deployment cfg vol → stands vol env → cold cache vol →
  usable (store_in vol env cache now) ∧ capacity (store_in vol env cache now) = vc_capacity vol ∧
  ∀ a, shown (store_in vol env cache now) a = byte_view (place vol) (objs env) a.
Proof.
  intros Hd [[Hok Hmk Hch Htail Henc] Hused _] [Hacc Hcold]. destruct (deployment_geometry _ _ Hd) as (Hg & _ & Hbuf).
  set (i := Cached.new {| S3.s_store := place vol; S3.s_env := env |} cache (vc_name vol)).
  assert (Hu : usable i).
  { split; [|split; [by split|done]]. constructor; [by constructor|done|].
    intros idx d Hd'. simpl in Hd'. by rewrite Hcold in Hd'. }
  destruct (WCRecover.core_of_usable i (wcc_mode (vc_write_cache vol)) (wcc_max_bytes (vc_write_cache vol))
    (wbc_max_bytes (vc_write_buffer vol)) now Hu (dp_budget _ _ Hd) Hbuf) as [Hus Hsh].
  split; [exact Hus|]. split; [done|]. intros a. exact (Hsh a).
Qed.
End parts.
End Startup.
