(* ===== verification/Isolation.v ===== *)
(** * Volumes side by side in one daemon

    The volumes of a daemon share the bucket and the chunk cache. An operation on
    one of them moves only data below its own prefix and adds only its own cache
    entries, so its neighbours stay usable and show the same bytes. *)
From S2P Require Import Prelude Tables Text Store Compression Snapshot S3Api S3Keys S3Store S3Spec S3Block.
From S2P Require Import S3Snap S3SnapSpec S3Open Cache CachedStore Ready WriteBuffer WriteCache WriteBack.
From S2P Require Import WriteBackSpec WriteBackWorker WriteBackOps WriteBackFlush WriteBackRecover.
From S2P Require Import Stack Config Volume Restart Metrics Admin Transfer Startup.
#[local] Open Scope string_scope.
#[local] Open Scope list_scope.
#[local] Open Scope Z_scope.

Module Isolation.
Import S3Spec Startup.

(** ** Another inner store under a write-back cache *)
Section swap.
Context {S : Type} `{ReadyLaws S}.
Implicit Types (i : S) (s : Core S).

(** The same shape and the same bytes. *)
Record alike i i' : Prop := {
  al_usable : usable i';
  al_block : block_size i' = block_size i;
  al_chunk : chunk_size i' = chunk_size i;
  al_capacity : capacity i' = capacity i;
  al_shown : ∀ a, 0 ≤ a → shown i' a = shown i a
}.

Lemma swap_inner s i' :
  usable s → alike (wc_inner s) i' →
  usable (WC.with_inner i' s) ∧ ∀ a, 0 ≤ a → shown (WC.with_inner i' s) a = shown s a.
Proof.
  intros Hu [Hi _ Hcs Hcap Hsh]. simpl in *. split.
  - unfold WCFlush.wc_usable in *. cbn [wc_mode WC.with_inner]. case_decide; [naive_solver|].
    destruct Hu as ([[_ Hm Hx Hd Hb Hf] Hw] & Hidle & Hs). split; [|done]. split.
    + constructor; try done; [by eapply WCSpec.dirty_ok_shape|].
      intros rt Hrt. eapply WCSpec.buf_ok_shape; [done|done|]. by apply Hb.
    + destruct Hw as [Hw Hrest]. split; [|done]. cbn [wc_worker WC.with_inner].
      destruct (wc_worker s) as [| | |j|j|j|j r| | |] eqn:Hwk; try exact Hw.
      destruct Hw as (Hr & Hh & Hon). split; [done|]. split; [exact Hh|]. intros w Hlt.
      cbn [wc_inner WC.with_inner] in *. rewrite Hcs in Hlt |- *. rewrite Hsh; [by apply Hon|].
      destruct Hh as [_ Hq]. unfold WC.queued in Hq.
      destruct (wc_buffer s) as [rt|] eqn:Hrt; [|by rewrite lookup_empty in Hq].
      pose proof (WCSpec.fit_idx _ _ _ (WCSpec.bok_fits _ _ _ (Hb rt eq_refl) _ _ Hq)) as Hidx. nia.
  - intros a Ha. unfold WCSpec.wc_shown. change (WCSpec.cache_of (WC.with_inner i' s)) with (WCSpec.cache_of s).
    cbn [wc_inner WC.with_inner]. rewrite Hcs. case_match; [done|]. by apply Hsh.
Qed.
End swap.

(** ** Neighbours *)
Section neighbours.
Context {B : Type} `{S3Laws B} `{CodecLaws} `{Blake3Laws} `{JsonLaws} `{StampJson} `{Contents} `{Prometheus}.
Implicit Types (env : Env B) (self : S3ChunkStore) (o : object_map) (v : Stack.volume_store B) (st : AdminState B).
Import Admin Transfer.

(** No key below one prefix is below the other. *)
Definition beside self self' : Prop :=
  ∀ r r', st_prefix self +:+ "/" +:+ r ≠ st_prefix self' +:+ "/" +:+ r'.
Lemma data_only_under self self' o o' : beside self self' → data_only self o o' → same_under self' o o'.
Proof.
  intros Hb Hd rest. apply (do_frame _ _ _ Hd).
  - intros i. split_and!; apply not_eq_sym; [apply (Hb ("chunks/" +:+ _))|apply (Hb ("chunks/" +:+ _))|].
    unfold Keys.chunk_key, Keys.chunks_prefix. destruct (st_storage self); [apply (Hb ("chunks/" +:+ _))|].
    rewrite <- str_app_assoc. apply (Hb ("live/chunks/" +:+ _)).
  - intros h _. apply not_eq_sym, (Hb ("objects/" +:+ _)).
Qed.

(** A store whose part of the bucket is the same, under a cache that gained no
    entry for it. *)
Lemma neighbour_alike (s : CachedStore (S3.state B)) env' c' :
  usable s → ok env' → same_under (S3.s_store (cs_inner s)) (objs (S3.s_env (cs_inner s))) (objs env') →
  Cache.accounted c' →
  (∀ idx d, Cache.cached c' (cs_volume s) idx = Some d → Cache.cached (cs_cache s) (cs_volume s) idx = Some d) →
  alike s (Cached.with_cache c' (Cached.with_inner (S3.with_env env' (cs_inner s)) s)).
Proof.
  intros ([[Hg Hch Htail] Hacc Hcoh] & [[Hok Henc] Hlock] & Hused) Hok' Hu Hacc' Hc.
  set (self := S3.s_store (cs_inner s)) in *. set (ob := objs (S3.s_env (cs_inner s))) in *.
  assert (Hv : view_same self ob (objs env')) by (intros k _; by apply under_view).
  assert (Hb : ∀ a, byte_view self (objs env') a = byte_view self ob a) by (intros a; by apply under_bytes).
  constructor; [|done..|intros a _; apply Hb]. split; [|split; [by split|]].
  - constructor; [|done|].
    + constructor; [done|by eapply view_same_ok|]. intros a Ha. rewrite <- (Htail a Ha). apply Hb.
    + intros idx d Hd. destruct (Hcoh idx d (Hc _ _ Hd)) as [Hi [Hl Hs]]. split; [done|]. split; [done|].
      intros w Hw. rewrite (Hs w Hw). symmetry. apply Hb.
  - change (Stack.well_used self (objs env')). eapply Stack.view_same_used; [exact Hv| |exact Hused].
    intros h x _ Hh. rewrite <- Hh. symmetry. exact (Hu ("objects/" +:+ Snap.object_relpath h)).
Qed.

Definition self_of v : S3ChunkStore := S3.s_store (cs_inner (wc_inner v)).
Definition name_of v : string := cs_volume (wc_inner v).

(** Every volume of the daemon is usable, and any two have different names and
    different places in the bucket. *)
Record coexist st : Prop := {
  cx_usable i v : volume_at i st v → usable v;
  cx_apart i j v v' : volume_at i st v → volume_at j st v' → i ≠ j →
    name_of v ≠ name_of v' ∧ beside (self_of v) (self_of v')
}.

(** The neighbour [v'] after another volume became [w]. *)
Definition moved (w v' : Stack.volume_store B) : Stack.volume_store B :=
  WC.with_inner (Cached.with_cache (cs_cache (wc_inner w))
    (Cached.with_inner (S3.with_env (S3.s_env (cs_inner (wc_inner w))) (cs_inner (wc_inner v'))) (wc_inner v'))) v'.

Lemma moved_alike v w v' :
  usable v' → usable w → akin v w → name_of v ≠ name_of v' → beside (self_of v) (self_of v') →
  cs_cache (wc_inner v) = cs_cache (wc_inner v') →
  S3.s_env (cs_inner (wc_inner v)) = S3.s_env (cs_inner (wc_inner v')) → alike v' (moved w v').
Proof.
  intros Hu' Hw [[_ Hd] _ Hot] Hn Hb Hca Hen.
  pose proof (WCFlush.usable_inner _ Hw) as ([_ Hacc _] & [[Hok _] _] & _).
  assert (Hal : alike (wc_inner v') (wc_inner (moved w v'))).
  { apply neighbour_alike; [by apply WCFlush.usable_inner|done| |done|].
    - rewrite <- Hen. by eapply data_only_under.
    - intros idx d Hc. rewrite <- Hca. apply (Hot _ _ _ (not_eq_sym Hn) Hc). }
  destruct (swap_inner v' _ Hu' Hal) as [Hus Hsh]. by constructor.
Qed.

(** ** One step on one volume *)
Lemma volume_at_inj i st v w : volume_at i st v → volume_at i st w → v = w.
Proof. intros (h & Hh & ->) (h' & Hh' & ->). congruence. Qed.
Lemma shared_parts i j st v w : volume_at i st v → volume_at j st w →
  cs_cache (wc_inner v) = cs_cache (wc_inner w) ∧
  S3.s_env (cs_inner (wc_inner v)) = S3.s_env (cs_inner (wc_inner w)).
Proof. by intros (h & _ & ->) (h' & _ & ->). Qed.

(** What [focus] does to the volume itself and to the others. *)
Lemma focus_moves {A} i (m : M (Stack.volume_store B) StoreError A) st v r v' :
  volume_at i st v → m v = (r, v') →
  (focus i m st).1 = r ∧ volume_at i (focus i m st).2 v' ∧
  length (ad_volume_stores (focus i m st).2) = length (ad_volume_stores st) ∧
  ∀ j, j ≠ i → ∀ u, volume_at j (focus i m st).2 u ↔ ∃ w, volume_at j st w ∧ u = moved v' w.
Proof.
  intros (h & Hh & ->) Hm. unfold focus. rewrite Hh, Hm. cbn [fst snd]. split; [done|]. split_and!.
  - eexists. split; [apply list_lookup_insert_eq; by eapply lookup_lt_Some|].
    by destruct v' as [[[] ? ? ?] ? ? ? ? ? ? ? ? ?].
  - apply length_insert.
  - intros j Hj u. unfold volume_at. cbn [with_cache with_env with_stores ad_volume_stores].
    rewrite list_lookup_insert_ne by done. split.
    + intros (g & Hg & ->). exists (refresh st (ah_store g)). split; [by exists g|done].
    + intros (w & (g & Hg & ->) & ->). by exists g.
Qed.

Lemma step_isolated {A} i (m : M (Stack.volume_store B) StoreError A) st v r v' :
  coexist st → volume_at i st v → m v = (r, v') → usable v' → akin v v' →
  coexist (focus i m st).2 ∧
  ∀ j w, j ≠ i → volume_at j st w → ∃ w', volume_at j (focus i m st).2 w' ∧ alike w w'.
Proof.
  intros [Hus Hap] Hv Hm Hu Hak. destruct (focus_moves i m st v r v' Hv Hm) as (_ & Hv' & _ & Hoth).
  assert (Hal : ∀ j w, j ≠ i → volume_at j st w → alike w (moved v' w)).
  { intros j w Hj Hw. destruct (Hap _ _ _ _ Hv Hw (not_eq_sym Hj)) as [Hn Hb].
    destruct (shared_parts _ _ _ _ _ Hv Hw) as [Hc He]. eapply moved_alike; eauto. }
  assert (Hback : ∀ j u, volume_at j (focus i m st).2 u →
    usable u ∧ ∃ w, volume_at j st w ∧ name_of u = name_of w ∧ self_of u = self_of w).
  { intros j u Hj. destruct (decide (j = i)) as [->|Hne].
    - rewrite (volume_at_inj _ _ _ _ Hj Hv'). split; [done|]. exists v. split; [done|].
      destruct Hak as [[Hst _] Hvol _]. by split.
    - apply Hoth in Hj as (w & Hw & ->); [|done]. split; [by apply (Hal j)|]. by exists w. }
  split.
  - constructor.
    + intros j u Hj. by apply (Hback j).
    + intros j k u u' (_ & w & Hw & -> & ->)%Hback (_ & w' & Hw' & -> & ->)%Hback Hne. by eapply Hap.
  - intros j w Hj Hw. exists (moved v' w). split; [apply Hoth; [done|]; by exists w|by eapply Hal].
Qed.
End neighbours.

(** ** Independent disks *)

(** A request of an initiator to one volume. *)
Inductive Request : Type :=
  | RqRead (off len : Z)
  | RqWrite (off : Z) (data : bytes)
  | RqFlush.

(** What an initiator expects of a volume: a fixed number of bytes, each with the
    value last written to it. *)
Record Disk : Type := { dk_capacity : Z; dk_chunk : Z; dk_bytes : Z → byte }.
Definition disk_range (f : Z → byte) (off len : Z) : bytes :=
  (λ w : nat, f (off + Z.of_nat w)) <$> seq 0 (Z.to_nat len).
Definition disk_step (d : Disk) (rq : Request) : outcome StoreError bytes * Disk :=
  match rq with
  | RqRead off len =>
      (if decide (off + len ≤ dk_capacity d) then Ok (disk_range (dk_bytes d) off len)
       else Err (OutOfRange off len (dk_capacity d)), d)
  | RqWrite off data =>
      if decide (off + Zlen data ≤ dk_capacity d)
      then (Ok [], {| dk_capacity := dk_capacity d; dk_chunk := dk_chunk d;
                      dk_bytes := overwritten (dk_bytes d) off data |})
      else (Err (OutOfRange off (Zlen data) (dk_capacity d)), d)
  | RqFlush => (Ok [], d)
  end.
(** The requests go to the disks by number, each answered in turn. *)
Fixpoint disks_each (ops : list (nat * Request)) (ds : list Disk) : list (outcome StoreError bytes) * list Disk :=
  match ops with
  | [] => ([], ds)
  | (i, rq) :: ops =>
      match ds !! i with
      | None => (Panic :: (disks_each ops ds).1, (disks_each ops ds).2)
      | Some d =>
          let '(r, d') := disk_step d rq in
          let '(rs, ds') := disks_each ops (<[i := d']> ds) in (r :: rs, ds')
      end
  end.

Section serving.
Context {S : Type} `{ReadyLaws S}.
Implicit Types (s : S) (d : Disk).

(** The request as a call of the store. *)
Definition request (rq : Request) : M S StoreError bytes :=
  match rq with
  | RqRead off len => read_at off (zeros len)
  | RqWrite off data => _ ← write_at off data; mret []
  | RqFlush => _ ← flush; mret []
  end.
(** Offsets and lengths are not negative, and a write leaves every chunk in [P]. *)
Definition sane (P : bytes → Prop) d (rq : Request) : Prop :=
  match rq with
  | RqRead off len => 0 ≤ off ∧ 0 ≤ len
  | RqWrite off data => 0 ≤ off ∧
      ∀ idx, is_u64 idx → P (chunk_at (dk_chunk d) (overwritten (dk_bytes d) off data) idx)
  | RqFlush => True
  end.
Record looks_like s d : Prop := {
  lk_capacity : capacity s = dk_capacity d;
  lk_chunk : chunk_size s = dk_chunk d;
  lk_bytes : ∀ a, 0 ≤ a → shown s a = dk_bytes d a
}.

Lemma kept_looks s s' d : kept s s' → looks_like s d → looks_like s' d.
Proof.
  intros [_ [_ Hc Hp _] Hs] [Hcap Hch Hb]. constructor; [congruence..|]. intros a Ha. rewrite Hs by done. by apply Hb.
Qed.

Lemma request_serves s d rq :
  usable s → looks_like s d → sane (allowed S) d rq →
  ∃ s', request rq s = ((disk_step d rq).1, s') ∧ usable s' ∧ same_sizes s s' ∧ looks_like s' (disk_step d rq).2.
Proof.
  intros Hu Hl Hsane. pose proof Hl as [Hcap Hch Hb]. destruct (rs_geometry s Hu) as (_ & Hcs & _).
  destruct rq as [off len|off data|]; simpl in *.
  - destruct Hsane as [Hoff Hlen]. pose proof (rs_read s off (zeros len) Hu Hoff) as Hw. unfold wp in Hw.
    rewrite Zlen_zeros in Hw by done. destruct (read_at off (zeros len) s) as [[buf|e| |] s']; try done.
    + destruct Hw as (Hk & Hin & Hlb & Hr). exists s'. rewrite decide_True by lia. split; [|split_and!].
      * do 2 f_equal. apply bytes_ext; unfold disk_range.
        { rewrite Hlb. unfold Zlen. rewrite length_fmap, length_seq. lia. }
        rewrite Hlb. intros k Hk'. rewrite Hr by done. rewrite Hb by lia. symmetry. apply nthb_lookup; [lia|].
        rewrite list_lookup_fmap, (lookup_seq_lt 0 _ (Z.to_nat k)) by lia. simpl. by rewrite Z2Nat.id by lia.
      * apply Hk.
      * apply Hk.
      * by eapply kept_looks.
    + destruct Hw as (Hk & Hbad & ->). exists s'. rewrite decide_False by lia. rewrite Hcap.
      split; [done|]. split; [apply Hk|]. split; [apply Hk|]. by eapply kept_looks.
  - destruct Hsane as [Hoff Hall].
    assert (Hp : permitted s off data).
    { intros idx Hidx. rewrite Hch in Hcs |- *. rewrite (chunk_at_ext _ _ (overwritten (dk_bytes d) off data)); [by apply Hall|].
      intros a Ha. unfold is_u64 in Hidx. unfold overwritten. case_decide; [done|]. apply Hb. nia. }
    pose proof (rs_write s off data Hu Hoff Hp) as Hw. unfold wp in Hw. unfold mbind, M_bind.
    destruct (write_at off data s) as [[[]|e| |] s']; try done.
    + destruct Hw as (Hu' & Hs & Hin & Hsh). exists s'. rewrite decide_True by lia. split; [done|]. split; [done|].
      split; [done|]. constructor; simpl; [rewrite <- Hcap; apply Hs|rewrite <- Hch; apply Hs|].
      intros a Ha. rewrite Hsh by done. unfold overwritten. case_decide; [done|]. by apply Hb.
    + destruct Hw as (Hk & Hbad & ->). exists s'. rewrite decide_False by lia. rewrite Hcap.
      split; [done|]. split; [apply Hk|]. split; [apply Hk|]. by eapply kept_looks.
  - pose proof (rs_flush s Hu) as Hw. unfold wp in Hw. unfold mbind, M_bind.
    destruct (flush s) as [[[]|e| |] s']; try done. exists s'. split; [done|]. split; [apply Hw|]. split; [apply Hw|].
    by eapply kept_looks.
Qed.
End serving.

Section daemon.
Context {B : Type} `{S3Laws B} `{CodecLaws} `{Blake3Laws} `{JsonLaws} `{StampJson} `{Contents} `{Prometheus}.
Implicit Types (v : Stack.volume_store B) (st : AdminState B) (ds : list Disk).
Import Admin Transfer.

(** The daemon answers the requests for its volumes one after the other. *)
Fixpoint serve_each (ops : list (nat * Request)) st : list (outcome StoreError bytes) * AdminState B :=
  match ops with
  | [] => ([], st)
  | (i, rq) :: ops =>
      let '(r, st') := focus i (request rq) st in
      let '(rs, st'') := serve_each ops st' in (r :: rs, st'')
  end.
(** Every request is sane for its disk as it then is. *)
Fixpoint sane_each (P : bytes → Prop) (ops : list (nat * Request)) ds : Prop :=
  match ops with
  | [] => True
  | (i, rq) :: ops => ∃ d, ds !! i = Some d ∧ sane P d rq ∧ sane_each P ops (<[i := (disk_step d rq).2]> ds)
  end.
(** The volumes of the daemon look like the disks. *)
Definition presents st ds : Prop :=
  ∀ i d, ds !! i = Some d → ∃ v, volume_at i st v ∧ looks_like v d.

Lemma alike_looks v v' d : alike v v' → looks_like v d → looks_like v' d.
Proof.
  intros [_ _ Hc Hp Hs] [Hcap Hch Hb]. constructor; [congruence..|]. intros a Ha. rewrite Hs by done. by apply Hb.
Qed.

Lemma volumes_isolated ops st ds :
  coexist st → presents st ds → sane_each (allowed (Stack.volume_store B)) ops ds →
  (serve_each ops st).1 = (disks_each ops ds).1 ∧
  coexist (serve_each ops st).2 ∧ presents (serve_each ops st).2 (disks_each ops ds).2.
Proof.
  revert st ds. induction ops as [|[i rq] ops IH]; intros st ds Hco Hpr Hs; simpl; [done|].
  destruct Hs as (d & Hd & Hsane & Hs). rewrite Hd. destruct (Hpr _ _ Hd) as (v & Hv & Hl).
  destruct (request_serves v d rq (cx_usable _ Hco _ _ Hv) Hl Hsane) as (v' & Hrun & Hu & Hsz & Hl').
  destruct (focus_moves i (request rq) st v _ v' Hv Hrun) as (Hr & Hv' & _ & _).
  destruct (step_isolated i (request rq) st v _ v' Hco Hv Hrun Hu (ss_akin _ _ Hsz)) as [Hco' Hoth].
  assert (Hpr' : presents (focus i (request rq) st).2 (<[i := (disk_step d rq).2]> ds)).
  { intros j e. destruct (decide (j = i)) as [->|Hne].
    - rewrite list_lookup_insert_eq by (by eapply lookup_lt_Some). intros [= <-]. by exists v'.
    - rewrite list_lookup_insert_ne by done. intros He. destruct (Hpr _ _ He) as (w & Hw & Hlw).
      destruct (Hoth _ _ Hne Hw) as (w' & Hw' & Hal). exists w'. split; [done|]. by eapply alike_looks. }
  destruct (IH _ _ Hco' Hpr' Hs) as (Ha & Hb & Hc).
  destruct (focus i (request rq) st) as [r st'], (disk_step d rq) as [r' d']. cbn [fst snd] in *. subst r.
  destruct (serve_each ops st') as [rs st''], (disks_each ops _) as [rs' ds']. cbn [fst snd] in *. by subst rs.
Qed.
End daemon.
End Isolation.
