(* ===== verification/Main.v ===== *)
(** * The daemon's start (src/src/main.rs)

    From the command line to the point where the iSCSI server starts to serve:
    the configuration is loaded, the volumes are opened one after the other over
    the shared bucket and cache, every volume becomes a target, and the metrics
    endpoint, the analyser and the admin socket are started. The builder of the
    server is the vendored target library's (src/vendor/iscsi-target/src/target.rs);
    the S3 connection, file system, threads and sockets are the interface
    [Platform]. *)
From S2P Require Import Prelude Tables Text Store Compression Snapshot S3Api S3Keys S3Store S3Snap.
From S2P Require Import Cache CachedStore WriteBuffer WriteCache WriteBack Ready Stack Device Config Volume.
From S2P Require Import Images Value Load Portals Float Metrics Sessions Admin.
#[local] Open Scope string_scope.
#[local] Open Scope list_scope.
#[local] Open Scope Z_scope.
Import Text.

(** What [build_s3_client] gives the SDK; without credentials the SDK looks for
    them itself. *)
Record S3ClientConf : Type := {
  scf_region : string;
  scf_credentials : option (string * string);
  scf_endpoint_url : option string;
  scf_force_path_style : bool
}.

(** The machine at the time of the start; [None] is success, [Some] an error. *)
Class Platform (B : Type) : Type := {
  pf_runtime : option string;
  pf_connect : S3ClientConf → Env B;
  pf_directory : string → Fs;
  pf_instant : Z;
  pf_unix_time : Z;
  (** The steps of each volume's worker thread. *)
  pf_schedule : nat → list (list Event);
  pf_server_http : string → option string;
  pf_thread : string → option string;
  (** The error names the directory. *)
  pf_create_parent : string → option string;
  pf_unix_bind : string → option string
}.

(** A target: its device, on the volume store of this number, which the admin
    state shares. *)
Record TargetInfo : Type := {
  ti_device : S3BlockDevice nat;
  ti_alias : string;
  ti_auth_config : AuthConfig;
  ti_allowed_initiators : option (list string)
}.
(** The limits on connections and sessions keep the library's defaults, and the
    sink for session events is the daemon's [dm_sink]; both are left out. *)
Record IscsiServerBuilder : Type := {
  sb_bind_addr : option string;
  sb_portal_addrs : list string;
  sb_targets : gmap string TargetInfo
}.
Record IscsiServer : Type := {
  is_bind_addr : string;
  is_portal_addrs : list string;
  is_targets : gmap string TargetInfo
}.

(** The running daemon. [dm_state] is what it shares with the admin socket, which
    is served at [dm_admin_socket], if at all. *)
Record Daemon (B : Type) `{Prometheus} : Type := {
  dm_server : IscsiServer;
  dm_sink : SessionMetricsSink;
  dm_state : AdminState B;
  dm_metrics_server : option string;
  dm_analyser : bool;
  dm_admin_socket : option string
}.
Arguments dm_server {B _} _.
Arguments dm_sink {B _} _.
Arguments dm_state {B _} _.
Arguments dm_metrics_server {B _} _.
Arguments dm_analyser {B _} _.
Arguments dm_admin_socket {B _} _.

Module Main.
(** Prefer [RUST_LOG] over [--log]; what is empty or invalid falls back. *)
Definition resolve_env_filter {F} (try_new : string → option F) (new : string → F)
    (rust_log : option string) (cli_log : string) : F :=
  match Conf.non_empty rust_log with
  | Some val => default (new "warn") (try_new val)
  | None => default (new "warn") (try_new cli_log)
  end.

(** [e.to_string()] of the errors that [?] boxes *)
Definition config_display (e : ConfigError) : string :=
  match e with FigmentError msg => "config error: " +:+ msg | Invalid msg => msg end.
Definition said {E A} (show : E → string) (r : outcome E A) : outcome string A :=
  match r with
  | Ok a => Ok a
  | Err e => Err (show e)
  | Panic => Panic
  | OutOfFuel => OutOfFuel
  end.
Definition io (what : string) (e : option string) : outcome string unit :=
  match e with None => Ok tt | Some e => Err (what +:+ e) end.

Definition build_s3_client (cfg : Config) : S3ClientConf :=
  let s3 := cfg_s3 cfg in
  {| scf_region := s3_region s3;
     scf_credentials := match s3_access_key_id s3, s3_secret_access_key s3 with
                        | Some ak, Some sk => Some (ak, sk)
                        | _, _ => None
                        end;
     scf_endpoint_url := s3_endpoint s3;
     scf_force_path_style := s3_force_path_style s3 |}.

(** ** The server's builder *)
Definition ISCSI_PORT : Z := 3260.
Definition builder : IscsiServerBuilder :=
  {| sb_bind_addr := None; sb_portal_addrs := []; sb_targets := ∅ |}.
Definition bind_addr (addr : string) (b : IscsiServerBuilder) : IscsiServerBuilder :=
  {| sb_bind_addr := Some addr; sb_portal_addrs := sb_portal_addrs b; sb_targets := sb_targets b |}.
Definition portal_addrs (addrs : list string) (b : IscsiServerBuilder) : IscsiServerBuilder :=
  {| sb_bind_addr := sb_bind_addr b; sb_portal_addrs := addrs; sb_targets := sb_targets b |}.
Definition add_target_with_auth (iqn : string) (device : S3BlockDevice nat) (alias : option string)
    (auth_config : AuthConfig) (allowed : option (list string)) (b : IscsiServerBuilder) : IscsiServerBuilder :=
  {| sb_bind_addr := sb_bind_addr b; sb_portal_addrs := sb_portal_addrs b;
     sb_targets := <[iqn := {| ti_device := device; ti_alias := default iqn alias;
                               ti_auth_config := auth_config; ti_allowed_initiators := allowed |}]>
                     (sb_targets b) |}.
Definition iqn_format (iqn : string) : bool :=
  starts_with "iqn." iqn || starts_with "eui." iqn || starts_with "naa." iqn.
Definition build (b : IscsiServerBuilder) : outcome string IscsiServer :=
  if bool_decide (sb_targets b = ∅) then Err "Configuration error: At least one target must be configured"
  else
    match find (λ p, negb (iqn_format p.1)) (map_to_list (sb_targets b)) with
    | Some (iqn, _) => Err ("Configuration error: Invalid IQN format: " +:+ iqn)
    | None => Ok {| is_bind_addr := default ("0.0.0.0:" +:+ Text.dec ISCSI_PORT) (sb_bind_addr b);
                    is_portal_addrs := sb_portal_addrs b; is_targets := sb_targets b |}
    end.

Section start.
Context {B : Type} `{S3Client B} `{Codecs} `{Blake3} `{Json} `{StampJson} `{Conf.ByteSize} `{ByteSizeText}.
Context `{Figment} `{Prometheus} `{Platform B}.

(** ** Opening the volumes *)

(** The variables of the loop over the volumes; bucket and cache are shared. *)
Record Opening : Type := {
  og_builder : IscsiServerBuilder;
  og_labels : list VolumeLabels;
  og_summaries : list VolumeSummary;
  og_stores : list (AdminVolumeHandle B);
  og_env : Env B;
  og_cache : CacheInner;
  og_metrics : Metrics
}.

Definition summary_of (vol : VolumeConfig) (store : Stack.volume_store B) (auth : ResolvedAuth) : VolumeSummary :=
  {| vs_name := vc_name vol; vs_iqn := vc_iqn vol; vs_capacity := capacity store;
     vs_auth := Conf.auth_mode_str (ra_mode auth); vs_prefix := trim_matches slash (vc_prefix vol);
     vs_chunk_size := vc_chunk_size vol; vs_compression := Comp.as_str (vc_compression vol);
     vs_storage := Snap.mode_str (st_storage (S3.s_store (cs_inner (wc_inner store))));
     vs_write_cache := Conf.write_cache_mode_str (wcc_mode (vc_write_cache vol));
     vs_write_cache_max_bytes := wcc_max_bytes (vc_write_cache vol);
     vs_write_buffer_max_bytes := wbc_max_bytes (vc_write_buffer vol) |}.

Definition open_one (cfg : Config) (index : nat) (vol : VolumeConfig) (o : Opening) : outcome string Opening :=
  opened ← said display (Volume.open_volume cfg vol (og_env o) (og_cache o) pf_directory pf_instant (pf_schedule index));
  let store := ov_store opened in
  let labels := {| vl_volume := vc_name vol; vl_iqn := vc_iqn vol |} in
  let '(r, metrics) := Met.set_volume_capacity labels (capacity store) (og_metrics o) in
  _ ← r;
  device ← said (λ e, match e with Scsi msg => msg end) (Device.new index (vl_volume labels) (vl_iqn labels));
  auth ← said config_display (Conf.resolve_auth (cfg_auth cfg) (vc_auth vol));
  Ok {| og_builder := add_target_with_auth (ov_iqn opened) device (Some (ov_name opened)) (ra_config auth)
                        (ra_allowed_initiators auth) (og_builder o);
        og_labels := og_labels o ++ [labels];
        og_summaries := og_summaries o ++ [summary_of vol store auth];
        og_stores := og_stores o ++ [{| ah_name := ov_name opened; ah_iqn := ov_iqn opened; ah_store := store |}];
        og_env := S3.s_env (cs_inner (wc_inner store));
        og_cache := cs_cache (wc_inner store);
        og_metrics := metrics |}.
Fixpoint open_all (cfg : Config) (index : nat) (vols : list VolumeConfig) (o : Opening) : outcome string Opening :=
  match vols with
  | [] => Ok o
  | vol :: vols => o ← open_one cfg index vol o; open_all cfg (S index) vols o
  end.

(** ** Starting *)
Definition spawn_metrics_server (bind : string) : outcome string unit :=
  _ ← io ("metrics bind " +:+ bind +:+ ": ") (pf_server_http bind);
  io "spawn metrics thread: " (pf_thread "iscsi-s3-metrics").
Definition spawn_perf_analyser : outcome string unit :=
  io "spawn performance optimiser: " (pf_thread "iscsi-s3-perf").
Definition spawn_admin_server (socket : string) : outcome string unit :=
  _ ← io "create admin socket dir " (pf_create_parent socket);
  _ ← io ("admin bind " +:+ socket +:+ ": ") (pf_unix_bind socket);
  io "spawn admin thread: " (pf_thread "iscsi-s3-admin").

Definition snapshot_of (cfg : Config) (portals : list string) (volumes : list VolumeSummary) : AdminSnapshot :=
  {| as_bind := cfg_bind cfg; as_portals := portals; as_instance := cfg_instance cfg; as_volumes := volumes;
     as_cache_max_bytes := cac_max_bytes (cfg_cache cfg); as_s3_bucket := s3_bucket (cfg_s3 cfg);
     as_s3_endpoint := s3_endpoint (cfg_s3 cfg); as_s3_region := s3_region (cfg_s3 cfg);
     as_s3_force_path_style := s3_force_path_style (cfg_s3 cfg);
     as_performance_optimiser := cfg_performance_optimiser cfg |}.

(** [run] up to [server.run()]. *)
Definition run (cli : Cli) : outcome string (Daemon B) :=
  cfg ← said config_display (Load.load cli);
  _ ← io "" pf_runtime;
  let env := pf_connect (build_s3_client cfg) in
  let cache := Cache.new (cac_max_bytes (cfg_cache cfg)) in
  metrics ← Met.new;
  portals ← Portals.resolve_portals cfg;
  let b := bind_addr (cfg_bind cfg) builder in
  let b := match portals with [] => b | _ => portal_addrs portals b end in
  o ← open_all cfg 0 (cfg_volumes cfg)
        {| og_builder := b; og_labels := []; og_summaries := []; og_stores := []; og_env := env;
           og_cache := cache; og_metrics := metrics |};
  sink ← Sessions.new (og_metrics o) (og_labels o);
  server ← build (og_builder o);
  _ ← (if mc_enabled (cfg_metrics cfg) then spawn_metrics_server (mc_bind (cfg_metrics cfg)) else Ok tt);
  _ ← (if cfg_performance_optimiser cfg then spawn_perf_analyser else Ok tt);
  _ ← (if adc_enabled (cfg_admin cfg) then spawn_admin_server (adc_socket (cfg_admin cfg)) else Ok tt);
  Ok {| dm_server := server; dm_sink := sink;
        dm_state := {| ad_config_path := cli_config cli; ad_started := pf_instant; ad_cache := og_cache o;
          ad_env := og_env o; ad_sessions := (map_to_list (sk_live sink)).*2;
          ad_snapshot := snapshot_of cfg portals (og_summaries o);
          ad_volume_stores := og_stores o; ad_metrics := sk_metrics sink; ad_connection_count := 0;
          ad_session_count := 0; ad_unix_time := pf_unix_time; ad_instant := pf_instant |};
        dm_metrics_server := if mc_enabled (cfg_metrics cfg) then Some (mc_bind (cfg_metrics cfg)) else None;
        dm_analyser := cfg_performance_optimiser cfg;
        dm_admin_socket := if adc_enabled (cfg_admin cfg) then Some (adc_socket (cfg_admin cfg)) else None |}.
End start.
Arguments Opening B {_}.
End Main.
