(* ===== verification/MainTheorems.v ===== *)
(** * Properties of the daemon's start

    From the command line to the served volumes: every configured volume becomes
    a target with its CHAP settings, on a store that shows what the bucket holds;
    reloading the unchanged file afterwards changes nothing. *)
From S2P Require Import Prelude Tables Text Store Compression Snapshot S3Api S3Keys S3Store S3Spec S3Block.
From S2P Require Import S3Snap S3SnapSpec S3Open Concrete Cache CachedStore Ready WriteBuffer WriteCache WriteBack.
From S2P Require Import WriteBackSpec WriteBackWorker WriteBackOps WriteBackFlush WriteBackRecover.
From S2P Require Import Stack Device Config ConfigSpec Volume Restart Images Value Load LoadTheorems Portals.
From S2P Require Import Float Metrics MetricsSpec Sessions MetricsTheorems Admin AdminOps Transfer Startup Main WriteBackTheorems.
#[local] Open Scope string_scope.
#[local] Open Scope list_scope.
#[local] Open Scope Z_scope.
Import Text.

Module MainTheorems.
Import Main Volume Restart Startup MetSpec.

Section start.
Context {B : Type} `{S3Laws B} `{CodecLaws} `{Blake3Laws} `{JsonLaws} `{StampJson} `{ByteSizeLaws} `{ByteSizeText}.
Context `{FigmentLaws} `{PrometheusLaws} `{Platform B} `{Contents}.
Implicit Types (env : Env B) (vol : VolumeConfig) (o : Opening B).

(** ** One volume *)
Lemma open_volume_is cfg vol env cache now s :
  deployment cfg vol → wcc_mode (vc_write_cache vol) ≠ WcDisk →
  S3Snap.open (store_config vol) env = (Ok tt, s) → S3.s_store s = place vol →
  open_volume cfg vol env cache pf_directory now [] =
    Ok {| ov_name := vc_name vol; ov_iqn := vc_iqn vol; ov_store := store_in vol (S3.s_env s) cache now |}.
Proof.
  intros Hd Hmode Hopen Hst. destruct (deployment_geometry _ _ Hd) as (_ & [b Hb] & _).
  unfold open_volume. rewrite Hb, Hopen. cbv beta iota delta [mbind outcome_bind]. cbv zeta.
  rewrite wrap_new by (done || apply (dp_budget _ _ Hd)). unfold store_in. rewrite <- Hst. by destruct s.
Qed.

(** What the start asks of a volume besides validation: an identifier the target
    library takes, a product name that is cut between characters, no directory to
    recover from, and its place in the bucket. *)
Record startable vol env : Prop := {
  sa_iqn : iqn_format (vc_iqn vol) = true;
  sa_product : ∃ p, Device.truncate 16 ("S3-" +:+ vc_name vol) = Ok p;
  sa_mode : wcc_mode (vc_write_cache vol) ≠ WcDisk;
  sa_codec : vc_compression vol = CompNone ∨ vc_chunk_size vol < 2 ^ 32;
  sa_stands : stands vol env
}.

(** The target of volume number [i]. *)
Record target_of (cfg : Config) (i : nat) vol (t : TargetInfo) : Prop := {
  tg_store : dv_store (ti_device t) = i;
  tg_serial : dv_serial (ti_device t) = Identity.serial_from_iqn (vc_iqn vol);
  tg_alias : ti_alias t = vc_name vol;
  tg_auth : ∃ auth, Conf.resolve_auth (cfg_auth cfg) (vc_auth vol) = Ok auth ∧
    ti_auth_config t = ra_config auth ∧ ti_allowed_initiators t = ra_allowed_initiators auth
}.
Definition labels_of vol : VolumeLabels := {| vl_volume := vc_name vol; vl_iqn := vc_iqn vol |}.
(** The summary the admin socket shows. *)
Definition summarises (cfg : Config) vol (s : VolumeSummary) : Prop :=
  ∃ auth, Conf.resolve_auth (cfg_auth cfg) (vc_auth vol) = Ok auth ∧
    s = {| vs_name := vc_name vol; vs_iqn := vc_iqn vol; vs_capacity := vc_capacity vol;
           vs_auth := Conf.auth_mode_str (ra_mode auth); vs_prefix := trim_matches slash (vc_prefix vol);
           vs_chunk_size := vc_chunk_size vol; vs_compression := Comp.as_str (vc_compression vol);
           vs_storage := Snap.mode_str (vc_storage vol);
           vs_write_cache := Conf.write_cache_mode_str (wcc_mode (vc_write_cache vol));
           vs_write_cache_max_bytes := wcc_max_bytes (vc_write_cache vol);
           vs_write_buffer_max_bytes := wbc_max_bytes (vc_write_buffer vol) |}.
Definition handle_for (cache : CacheInner) vol (h : AdminVolumeHandle B) : Prop :=
  ah_name h = vc_name vol ∧ ah_iqn h = vc_iqn vol ∧ ∃ env, ah_store h = store_in vol env cache pf_instant.

(** The metadata of no volume is among the objects of another. *)
Definition separate (vols : list VolumeConfig) : Prop :=
  ∀ i j vol vol', vols !! i = Some vol → vols !! j = Some vol' → i ≠ j → apart vol vol'.
(** The volumes [vols] show what they showed in [env0], and can be opened. *)
Definition intact (vols : list VolumeConfig) env0 env : Prop :=
  ∀ i vol, vols !! i = Some vol → stands vol env ∧
    ∀ a, S3Spec.byte_view (place vol) (S3Spec.objs env) a = S3Spec.byte_view (place vol) (S3Spec.objs env0) a.

Lemma opening_intact vols env0 env i vol s :
  separate vols → vols !! i = Some vol → intact vols env0 env →
  opened (store_config vol) env s → stands vol (S3.s_env s) → S3Spec.ok (S3.s_env s) →
  Open.only_meta (place vol) (S3Spec.objs env) (S3Spec.objs (S3.s_env s)) → intact vols env0 (S3.s_env s).
Proof.
  intros Hap Hi Hin Hop Hst Hok Hom j vol' Hj. destruct (Hin _ _ Hj) as [Hs Hb].
  destruct (decide (i = j)) as [<-|Hne].
  - simplify_eq. split; [done|]. intros a. rewrite <- Hb. pose proof (op_bytes _ _ _ Hop a) as Ha.
    by rewrite (op_store _ _ _ Hop) in Ha.
  - pose proof (only_meta_under vol vol' _ _ (Hap _ _ _ _ Hi Hj Hne) Hom) as Hu.
    split; [by eapply stands_under|]. intros a. rewrite <- Hb. by apply under_bytes.
Qed.

(** ** All volumes *)
Record progress (cfg : Config) (cache : CacheInner) (portals : list string) env0 (n : nat) o : Prop := {
  pg_bind : sb_bind_addr (og_builder o) = Some (cfg_bind cfg);
  pg_portals : sb_portal_addrs (og_builder o) = portals;
  pg_iqns : dom (sb_targets (og_builder o)) = list_to_set (vc_iqn <$> take n (cfg_volumes cfg));
  pg_targets i vol : (i < n)%nat → cfg_volumes cfg !! i = Some vol →
    ∃ t, sb_targets (og_builder o) !! vc_iqn vol = Some t ∧ target_of cfg i vol t;
  pg_labels : og_labels o = labels_of <$> take n (cfg_volumes cfg);
  pg_summaries : Forall2 (summarises cfg) (take n (cfg_volumes cfg)) (og_summaries o);
  pg_stores : Forall2 (handle_for cache) (take n (cfg_volumes cfg)) (og_stores o);
  pg_cache : og_cache o = cache;
  pg_metrics : typed (og_metrics o);
  pg_intact : intact (cfg_volumes cfg) env0 (og_env o)
}.

Lemma capacity_gauge labels cap m :
  typed m → ∃ m', Met.set_volume_capacity labels cap m = (Ok tt, m') ∧ typed m'.
Proof.
  intros Hm. assert (Hwp : wp (Met.set_volume_capacity labels cap) (λ _, typed) (λ _ _, False) m).
  { apply update_spec; [done|done|]. apply typed_with; [intros; apply vec_set_labels|done]. }
  destruct (wp_ok _ _ _ Hwp) as ([] & m' & Hr & Ht). by exists m'.
Qed.

Lemma open_one_ok cfg cache portals env0 n vol o :
  Conf.validate cfg = Ok tt → separate (cfg_volumes cfg) → cfg_volumes cfg !! n = Some vol →
  deployment cfg vol → (∃ p, Device.truncate 16 ("S3-" +:+ vc_name vol) = Ok p) →
  wcc_mode (vc_write_cache vol) ≠ WcDisk → pf_schedule n = [] → cold cache vol →
  progress cfg cache portals env0 n o →
  ∃ o', open_one cfg n vol o = Ok o' ∧ progress cfg cache portals env0 (S n) o'.
Proof.
  intros Hval Hsep Hn Hd [prod Hprod] Hmode Hsched Hcold [Hbind Hport Hiqns Htg Hlab Hsum Hsto Hca Hmet Hint].
  destruct (deployment_geometry _ _ Hd) as (Hg & _). destruct (Hint _ _ Hn) as [Hst _].
  destruct (opening vol (og_env o) Hg Hst) as (s & Hopen & Hop & Hom & Hok & Hst').
  destruct (capacity_gauge (labels_of vol) (vc_capacity vol) (og_metrics o) Hmet) as (m' & Hgauge & Hmet').
  pose proof (proj1 (ConfSpec.validate_ok cfg) Hval) as Hvalid.
  destruct (ConfSpec.vv_auth _ _ (proj1 (Forall_lookup _ _) (ConfSpec.cv_volumes _ Hvalid) _ _ Hn)) as [auth Hauth].
  eexists. split.
  { unfold open_one.
    rewrite Hsched, (open_volume_is cfg vol (og_env o) (og_cache o) pf_instant s Hd Hmode Hopen (op_store _ _ _ Hop)).
    cbn [said mbind outcome_bind ov_store ov_name ov_iqn].
    change (capacity (store_in vol (S3.s_env s) (og_cache o) pf_instant)) with (vc_capacity vol).
    fold (labels_of vol). rewrite Hgauge. unfold Device.new. cbn [labels_of vl_volume vl_iqn].
    rewrite Hprod, Hauth. reflexivity. }
  rewrite Hca in *. constructor; cbn [og_builder og_labels og_summaries og_stores og_env og_cache og_metrics]; try done.
  - cbn [add_target_with_auth sb_targets]. rewrite dom_insert_L, Hiqns, (take_S_r _ _ _ Hn), fmap_app, list_to_set_app_L.
    simpl. set_solver.
  - intros i vol' Hi Hvol'. cbn [add_target_with_auth sb_targets].
    destruct (decide (i = n)) as [->|Hne].
    + simplify_eq. rewrite lookup_insert_eq. eexists. split; [done|]. constructor; [done|done|done|by exists auth].
    + rewrite lookup_insert_ne; [apply Htg; [lia|done]|]. intros Heq. apply Hne.
      eapply (NoDup_lookup _ _ _ (vc_iqn vol) (ConfSpec.cv_iqns _ Hvalid)); rewrite list_lookup_fmap.
      * by rewrite Hvol', Heq.
      * by rewrite Hn.
  - by rewrite Hlab, (take_S_r _ _ _ Hn), fmap_app.
  - rewrite (take_S_r _ _ _ Hn). apply Forall2_app; [done|]. constructor; [|done]. by exists auth.
  - rewrite (take_S_r _ _ _ Hn). apply Forall2_app; [done|]. constructor; [|done].
    split; [done|]. split; [done|]. by eexists.
  - change (intact (cfg_volumes cfg) env0 (S3.s_env s)). by eapply opening_intact.
Qed.

Lemma open_all_ok cfg cache portals env0 :
  Conf.validate cfg = Ok tt → separate (cfg_volumes cfg) →
  (∀ i vol, cfg_volumes cfg !! i = Some vol →
     deployment cfg vol ∧ (∃ p, Device.truncate 16 ("S3-" +:+ vc_name vol) = Ok p) ∧
     wcc_mode (vc_write_cache vol) ≠ WcDisk ∧ pf_schedule i = [] ∧ cold cache vol) →
  ∀ rest n o, drop n (cfg_volumes cfg) = rest → progress cfg cache portals env0 n o →
  ∃ o', open_all cfg n rest o = Ok o' ∧ progress cfg cache portals env0 (n + length rest) o'.
Proof.
  intros Hval Hsep Hall. induction rest as [|vol rest IH]; intros n o Hdrop Hpg; simpl.
  { exists o. by rewrite Nat.add_0_r. }
  assert (Hn : cfg_volumes cfg !! n = Some vol).
  { rewrite <- (Nat.add_0_r n), <- lookup_drop, Hdrop. done. }
  destruct (Hall _ _ Hn) as (Hd & Hp & Hmode & Hs & Hc).
  destruct (open_one_ok cfg cache portals env0 n vol o) as (o1 & Ho1 & Hpg1); [done..|].
  rewrite Ho1. cbn [mbind outcome_bind]. rewrite <- Nat.add_succ_comm. apply IH; [|done].
  rewrite <- Nat.add_1_r, <- drop_drop, Hdrop. done.
Qed.

(** ** The rest of the start *)
Lemma build_ok b bind :
  sb_bind_addr b = Some bind → sb_targets b ≠ ∅ → (∀ iqn, iqn ∈ dom (sb_targets b) → iqn_format iqn = true) →
  build b = Ok {| is_bind_addr := bind; is_portal_addrs := sb_portal_addrs b; is_targets := sb_targets b |}.
Proof.
  intros Hb Hne Hf. unfold build. rewrite bool_decide_false by done.
  destruct (find _ (map_to_list (sb_targets b))) as [[iqn t]|] eqn:Hfind; [|by rewrite Hb].
  apply find_some in Hfind as [Hin Hneg]. apply list_elem_of_In, elem_of_map_to_list in Hin. simpl in Hneg.
  by rewrite Hf in Hneg by (by eapply elem_of_dom_2).
Qed.
Lemma sink_ok m ls : typed m → ∃ k, Sessions.new m ls = Ok k ∧ sk_live k = ∅.
Proof.
  intros Ht. unfold Sessions.new. cbv zeta.
  destruct (wp_ok _ _ _ (MetricsTheorems.zero_active_spec (map_to_list (Sessions.index ls)).*2 m [] Ht ltac:(set_solver)))
    as ([] & m' & Hrun & _).
  rewrite Hrun. by eexists.
Qed.

(** The machine does what the start asks of it. *)
Record works : Prop := {
  wk_runtime : pf_runtime = None;
  wk_http addr : pf_server_http addr = None;
  wk_thread name : pf_thread name = None;
  wk_parent path : pf_create_parent path = None;
  wk_unix path : pf_unix_bind path = None;
  wk_schedule i : pf_schedule i = []
}.

(** The bucket the daemon is configured for, at the start. *)
Definition bucket_at_start (cfg : Config) : Env B := pf_connect (build_s3_client cfg).

Lemma cold_new n vol : 0 ≤ n → cold (Cache.new n) vol.
Proof. intros Hn. split; [by apply Cache.new_accounted|done]. Qed.

Lemma started_deployment cli cfg i vol :
  Load.load cli = Ok cfg → Forall (λ vol, startable vol (bucket_at_start cfg)) (cfg_volumes cfg) →
  cfg_volumes cfg !! i = Some vol → deployment cfg vol.
Proof.
  intros Hload Hall Hi. destruct (LoadTheorems.loaded _ _ Hload) as (Hval & Hrg & _).
  destruct (proj1 (Forall_lookup _ _) Hall _ _ Hi) as [_ _ _ Hcodec _].
  destruct (proj1 (Forall_lookup _ _) Hrg _ _ Hi) as [Hr1 Hr2 Hr3 Hr4 _].
  constructor; try done; [by eapply list_elem_of_lookup_2|apply Hr4].
Qed.

(** The daemon that comes out, with the loop's result. *)
Lemma started cli cfg portals :
  works → Load.load cli = Ok cfg → Portals.resolve_portals cfg = Ok portals →
  Forall (λ vol, startable vol (bucket_at_start cfg)) (cfg_volumes cfg) → separate (cfg_volumes cfg) →
  ∃ d o, run cli = Ok d ∧
    progress cfg (Cache.new (cac_max_bytes (cfg_cache cfg))) portals (bucket_at_start cfg)
      (length (cfg_volumes cfg)) o ∧
    dm_server d = {| is_bind_addr := cfg_bind cfg; is_portal_addrs := portals;
                     is_targets := sb_targets (og_builder o) |} ∧
    ad_config_path (dm_state d) = cli_config cli ∧
    ad_snapshot (dm_state d) = snapshot_of cfg portals (og_summaries o) ∧
    ad_volume_stores (dm_state d) = og_stores o ∧ ad_env (dm_state d) = og_env o ∧
    ad_cache (dm_state d) = og_cache o.
Proof.
  intros Hw Hload Hport Hall Hsep. destruct (LoadTheorems.loaded _ _ Hload) as (Hval & _ & Hcm).
  pose proof (proj1 (ConfSpec.validate_ok cfg) Hval) as Hvalid.
  destruct new_ok as (m & Hm & [Htm _]).
  set (cache := Cache.new (cac_max_bytes (cfg_cache cfg))).
  assert (Hd : ∀ i vol, cfg_volumes cfg !! i = Some vol →
    deployment cfg vol ∧ (∃ p, Device.truncate 16 ("S3-" +:+ vc_name vol) = Ok p) ∧
    wcc_mode (vc_write_cache vol) ≠ WcDisk ∧ pf_schedule i = [] ∧ cold cache vol).
  { intros i vol Hi. split; [by eapply started_deployment|].
    destruct (proj1 (Forall_lookup _ _) Hall _ _ Hi) as [_ Hp Hmode _ _].
    split; [done|]. split; [done|]. split; [apply (wk_schedule Hw)|apply cold_new, Hcm]. }
  set (b := match portals with [] => bind_addr (cfg_bind cfg) builder
            | _ => portal_addrs portals (bind_addr (cfg_bind cfg) builder) end).
  set (o0 := {| og_builder := b; og_labels := []; og_summaries := []; og_stores := [];
                og_env := bucket_at_start cfg; og_cache := cache; og_metrics := m |}).
  assert (Hpg0 : progress cfg cache portals (bucket_at_start cfg) 0 o0).
  { constructor; try done; try (by destruct portals); [lia|]. intros i vol Hi.
    split; [|done]. apply (sa_stands _ _ (proj1 (Forall_lookup _ _) Hall _ _ Hi)). }
  destruct (open_all_ok cfg cache portals (bucket_at_start cfg) Hval Hsep Hd (cfg_volumes cfg) 0 o0 eq_refl Hpg0)
    as (o & Ho & Hpg). simpl in Hpg.
  destruct (sink_ok (og_metrics o) (og_labels o) (pg_metrics _ _ _ _ _ _ Hpg)) as (k & Hk & Hlive).
  pose proof Hpg as [Hpb Hpp Hpi Hpt _ _ _ _ _ _]. rewrite firstn_all in Hpi.
  assert (Hb : build (og_builder o) = Ok {| is_bind_addr := cfg_bind cfg; is_portal_addrs := portals;
                                            is_targets := sb_targets (og_builder o) |}).
  { rewrite (build_ok _ _ Hpb); [by rewrite Hpp|..].
    - intros He. rewrite He, dom_empty_L in Hpi. destruct (cfg_volumes cfg) as [|v vs] eqn:Hv; [by apply (ConfSpec.cv_some _ Hvalid)|].
      simpl in Hpi. set_solver.
    - intros iqn Hin. rewrite Hpi in Hin. apply elem_of_list_to_set, list_elem_of_fmap in Hin as (vol & -> & Hv).
      rewrite Forall_forall in Hall. apply (Hall _ Hv). }
  assert (Hs : ∀ A (x : bool) (r : outcome string unit) (k : unit → outcome string A), r = Ok tt →
    ((if x then r else Ok tt) ≫= k) = k tt) by (by intros A [] r k' ->).
  eexists _, o. split.
  { unfold run. rewrite Hload. cbn [said mbind outcome_bind]. rewrite (wk_runtime Hw). cbn [io mbind outcome_bind].
    rewrite Hm. cbn [mbind outcome_bind]. rewrite Hport. cbn [mbind outcome_bind]. cbv zeta.
    fold cache. fold b. fold (bucket_at_start cfg). fold o0. rewrite Ho. cbn [mbind outcome_bind].
    rewrite Hk. cbn [mbind outcome_bind]. rewrite Hb. cbn [mbind outcome_bind].
    rewrite Hs by (unfold spawn_metrics_server; by rewrite (wk_http Hw), (wk_thread Hw)).
    rewrite Hs by (unfold spawn_perf_analyser; by rewrite (wk_thread Hw)).
    rewrite Hs by (unfold spawn_admin_server; by rewrite (wk_parent Hw), (wk_unix Hw), (wk_thread Hw)). reflexivity. }
  by split.
Qed.

(** The store of a handle, over the bucket and the cache of the daemon. *)
Lemma refreshed st cache vol (h : AdminVolumeHandle B) :
  handle_for cache vol h → Admin.refresh st (ah_store h) = store_in vol (ad_env st) (ad_cache st) pf_instant.
Proof. intros (_ & _ & env & ->). done. Qed.

(** C16: The daemon serves what it is configured for. Suppose that the
    configuration loads and its portals resolve; that the machine gives the daemon
    its runtime, threads and sockets, and the workers rest meanwhile ([works]);
    that for every volume the target library takes the IQN, the product name is
    cut between characters, the write-back cache is off or in memory, a compressed
    chunk fits the codec, and its part of the healthy bucket is sound
    ([startable]); and that the volumes have different places in the bucket
    ([separate]). Then the start succeeds; the server listens at the configured
    address with the resolved portals; its targets are exactly the configured
    IQNs, each with the resolved CHAP settings and initiator list and a device on
    the volume's own store; and every one of these stores, over the bucket and
    cache they share, is ready, has the configured capacity, and shows the bytes
    the bucket held before the start. *)
Theorem daemon_serves cli cfg portals :
  works → Load.load cli = Ok cfg → Portals.resolve_portals cfg = Ok portals →
  Forall (λ vol, startable vol (bucket_at_start cfg)) (cfg_volumes cfg) → separate (cfg_volumes cfg) →
  ∃ d, run cli = Ok d ∧
    is_bind_addr (dm_server d) = cfg_bind cfg ∧ is_portal_addrs (dm_server d) = portals ∧
    dom (is_targets (dm_server d)) = list_to_set (vc_iqn <$> cfg_volumes cfg) ∧
    ∀ i vol, cfg_volumes cfg !! i = Some vol → ∃ t v,
      is_targets (dm_server d) !! vc_iqn vol = Some t ∧ target_of cfg i vol t ∧
      Transfer.volume_at i (dm_state d) v ∧ usable v ∧ capacity v = vc_capacity vol ∧
      ∀ a, shown v a = S3Spec.byte_view (place vol) (S3Spec.objs (bucket_at_start cfg)) a.
Proof.
  intros Hw Hload Hport Hall Hsep.
  destruct (started cli cfg portals Hw Hload Hport Hall Hsep) as (d & o & Hrun & Hpg & Hsrv & _ & _ & Hst & Henv & Hca).
  exists d. split; [done|]. rewrite Hsrv. destruct Hpg as [_ _ Hiqn Htg _ _ Hsto Hcache _ Hint].
  rewrite firstn_all in *. split; [done|]. split; [done|]. split; [done|]. intros i vol Hi.
  destruct (Htg i vol (lookup_lt_Some _ _ _ Hi) Hi) as (t & Ht & Htarget).
  destruct (Forall2_lookup_l _ _ _ _ _ Hsto Hi) as (h & Hh & Hfor).
  destruct (Hint _ _ Hi) as [Hstands Hbytes].
  exists t, (store_in vol (og_env o) (og_cache o) pf_instant). split; [done|]. split; [done|]. split.
  { exists h. split; [by rewrite Hst|]. by rewrite (refreshed _ _ _ _ Hfor), Henv, Hca. }
  destruct (LoadTheorems.loaded _ _ Hload) as (_ & _ & Hcm).
  destruct (store_in_serves cfg vol (og_env o) (og_cache o) pf_instant) as (Hu & Hc & Hsh); [|done| |].
  - by eapply started_deployment.
  - rewrite Hcache. apply cold_new, Hcm.
  - split; [done|]. split; [done|]. intros a. by rewrite Hsh.
Qed.

(** ** Reloading *)

(** CHAP or an initiator list is configured somewhere. *)
Definition auth_given (cfg : Config) : bool :=
  match cfg_auth cfg with Some _ => true | None => false end
  || existsb (λ v, match vc_auth v with Some _ => true | None => false end) (cfg_volumes cfg).

Lemma summaries_unchanged cfg vols sums :
  Forall2 (summarises cfg) vols sums → existsb (λ p, Admin.volume_changed p.1 p.2) (zip sums vols) = false.
Proof.
  induction 1 as [|vol s vols sums (auth & _ & ->) _ IH]; [done|]. cbn [zip_with existsb fst snd]. rewrite IH.
  unfold Admin.volume_changed. cbn. rewrite !bool_decide_true, !Z.eqb_refl by done. done.
Qed.
Lemma summaries_open cfg vols sums :
  cfg_auth cfg = None → existsb (λ v, match vc_auth v with Some _ => true | None => false end) vols = false →
  Forall2 (summarises cfg) vols sums → existsb (λ v, negb (bool_decide (vs_auth v = "none"))) sums = false.
Proof.
  intros Hc Hv. induction 1 as [|vol s vols sums (auth & Ha & ->) _ IH]; [done|]. simpl in Hv.
  apply orb_false_elim in Hv as [Hvol Hv]. destruct (vc_auth vol) eqn:Hva; [done|].
  rewrite Hc in Ha. injection Ha as <-. simpl. by apply IH.
Qed.

(** The unchanged configuration differs from the snapshot in nothing but the
    CHAP settings, which a snapshot does not hold. *)
Lemma nothing_rejected cfg portals sums :
  Forall2 (summarises cfg) (cfg_volumes cfg) sums →
  Admin.rejected_changes (snapshot_of cfg portals sums) cfg =
    if auth_given cfg then [{| rj_field := "auth"; rj_reason := "CHAP / ACL changes require restart" |}] else [].
Proof.
  intros Hs. unfold Admin.rejected_changes, Admin.volumes_structurally_changed. cbn [snapshot_of as_volumes as_bind
    as_s3_bucket as_s3_endpoint as_s3_region as_s3_force_path_style as_performance_optimiser].
  rewrite (summaries_unchanged cfg _ _ Hs), (Forall2_length _ _ _ Hs), Nat.eqb_refl, !bool_decide_true, !Bool.eqb_reflx by done.
  cbn [negb orb Admin.push_if]. unfold auth_given. destruct (cfg_auth cfg) eqn:Hc; [done|]. cbn [orb].
  destruct (existsb _ (cfg_volumes cfg)) eqn:Hv; [done|].
  by rewrite (summaries_open cfg _ _ Hc Hv Hs).
Qed.

Lemma safe_reload_same cfg portals sums c :
  Forall2 (summarises cfg) (cfg_volumes cfg) sums →
  ∃ r, Admin.apply_safe_reload (snapshot_of cfg portals sums) cfg c = (Ok r, c) ∧
    rl_rejected r = if auth_given cfg
      then [{| rj_field := "auth"; rj_reason := "CHAP / ACL changes require restart" |}] else [].
Proof.
  intros Hs. unfold Admin.apply_safe_reload. cbn [snapshot_of as_cache_max_bytes]. rewrite Z.eqb_refl.
  eexists. split; [reflexivity|]. by apply nothing_rejected.
Qed.

(** C30: Reloading the unchanged file. When a daemon started with a configuration
    file and no other options reloads the file unchanged, the cache and the
    volumes stay as they are, and nothing is rejected, except that configured
    CHAP settings are always reported as needing a restart. *)
Theorem reload_after_start path log cfg portals :
  works → (∀ f, toml_file path = inl f → LoadTheorems.sections f) → LoadTheorems.sections LoadTheorems.env_layer →
  Load.load (LoadTheorems.bare path log) = Ok cfg → Portals.resolve_portals cfg = Ok portals →
  Forall (λ vol, startable vol (bucket_at_start cfg)) (cfg_volumes cfg) → separate (cfg_volumes cfg) →
  ∃ d v st, run (LoadTheorems.bare path log) = Ok d ∧
    AdminOps.reload (λ p, said config_display (Load.load_for_reload p)) (dm_state d) = (Ok v, st) ∧
    ad_cache st = ad_cache (dm_state d) ∧ ad_volume_stores st = ad_volume_stores (dm_state d) ∧
    Js.get "rejected" v = Some (to_json (if auth_given cfg
      then [{| rj_field := "auth"; rj_reason := "CHAP / ACL changes require restart" |}] else [])).
Proof.
  intros Hw Hf He Hload Hport Hall Hsep.
  destruct (started _ cfg portals Hw Hload Hport Hall Hsep) as (d & o & Hrun & Hpg & _ & Hpath & Hsnap & _).
  destruct Hpg as [_ _ _ _ _ Hsum _ _ _ _]. rewrite firstn_all in Hsum.
  assert (Hre : Load.load_for_reload path = Ok cfg) by (by rewrite <- (LoadTheorems.reload_reads path log)).
  destruct (safe_reload_same cfg portals (og_summaries o) (ad_cache (dm_state d)) Hsum) as (r & Hr & Hrej).
  eexists d, _, _. split; [done|]. split.
  { unfold AdminOps.reload, mbind, M_bind, get, lift, zoom, modify, gets. rewrite Hpath. cbn [LoadTheorems.bare cli_config].
    rewrite Hre. cbn [said]. rewrite Hsnap, Hr. reflexivity. }
  split; [done|]. split; [done|]. unfold AdminOps.cache_json. autorewrite with js. by rewrite Hrej.
Qed.
End start.

(** ** Witnesses *)
Section witnesses.
Import Concrete MetricsTheorems.MemProm.
#[local] Existing Instance WriteBackTheorems.stamp_json.
#[local] Existing Instance LoadTheorems.Example.decimal_sizes.
#[local] Existing Instance LoadTheorems.Example.decimal_laws.
#[local] Existing Instance LoadTheorems.Example.decimal_text.
#[local] Instance everything : Contents := Stack.any_contents.

(** Two volumes, one with CHAP, in an empty bucket. *)
Definition volume_table (name iqn prefix : string) (rest : list (string * Value)) : Value :=
  Js.obj ([("name", JString name); ("iqn", JString iqn); ("prefix", JString prefix);
    ("capacity", JNumber 16); ("block_size", JNumber 2); ("chunk_size", JNumber 4);
    ("write_cache", Js.obj [("mode", JString "memory")])] ++ rest).
Definition two_volumes : Dict := list_to_map [
  ("advertise", JString "10.0.0.1"); ("s3", Js.obj [("bucket", JString "b")]);
  ("volumes", JArray [volume_table "one" "iqn.x:one" "/a/" [];
    volume_table "two" "iqn.x:two" "b" [("auth", Js.obj [("username", JString "u"); ("secret", JString "s")])]])].
#[local] Instance figment : Figment := {|
  figment_merge := LoadTheorems.Example.deep_merge; toml_file := λ _, inl two_volumes; env_split := λ _ _, ∅ |}.
#[local] Instance figment_laws : FigmentLaws.
Proof. split; [done|]. by intros [] []. Qed.
#[local] Instance platform : Platform MemS3.bucket := {|
  pf_runtime := None; pf_connect := λ _, fresh_env;
  pf_directory := λ _, {| fs_dir := ""; fs_files := ∅; fs_faults := [] |};
  pf_instant := 0; pf_unix_time := 0; pf_schedule := λ _, []; pf_server_http := λ _, None;
  pf_thread := λ _, None; pf_create_parent := λ _, None; pf_unix_bind := λ _, None |}.

Definition two_cli : Cli := LoadTheorems.bare "a.toml" "warn".
Definition two_cfg : Config := Eval vm_compute in
  match Load.load two_cli with Ok cfg => cfg | _ => Load.defaults end.
Lemma two_loaded : Load.load two_cli = Ok two_cfg.
Proof. vm_compute. reflexivity. Qed.
Lemma works_here : works.
Proof. by constructor. Qed.

Lemma empty_stands vol :
  vc_storage vol = Legacy → vc_compression vol = CompNone → stands vol fresh_env.
Proof.
  intros Hm Hc. assert (Hv : ∀ j, S3Spec.chunk_view (place vol) ∅ j = Ok (zeros (vc_chunk_size vol))).
  { intros j. unfold S3Spec.chunk_view. cbn [place S3Snap.handle_of store_config st_storage sc_storage]. rewrite Hm.
    by rewrite !lookup_empty. }
  constructor.
  - constructor; [by constructor|apply lookup_empty|intros j _; eexists; apply Hv| |].
    + intros a _. unfold S3Spec.byte_view. case_decide; [|done].
      change (S3Spec.objs fresh_env) with (∅ : object_map). rewrite Hv. apply nthb_zeros.
    + intros p _. exists p. cbn [place S3Snap.handle_of store_config st_compression sc_compression]. by rewrite Hc.
  - apply Stack.legacy_used. exact Hm.
  - exists None, None. split; [done|]. split; [done|]. cbn [store_config sc_storage]. by rewrite Hm.
Qed.
Lemma two_startable : Forall (λ vol, startable vol (bucket_at_start two_cfg)) (cfg_volumes two_cfg).
Proof.
  unfold two_cfg. cbn [cfg_volumes]. repeat (apply Forall_cons; split); [..|by apply Forall_nil];
    (constructor; [reflexivity|eexists; reflexivity|discriminate|by left|by apply empty_stands]).
Qed.
Lemma two_separate : separate (cfg_volumes two_cfg).
Proof. intros [|[|i]] [|[|j]] vol vol' Hi Hj Hne rest; simplify_eq/=; done. Qed.

Lemma daemon_serves_witness :
  ∃ d, run two_cli = Ok d ∧
    is_bind_addr (dm_server d) = "0.0.0.0:3260" ∧ is_portal_addrs (dm_server d) = ["10.0.0.1:3260"] ∧
    dom (is_targets (dm_server d)) = list_to_set (vc_iqn <$> cfg_volumes two_cfg) ∧
    ∀ i vol, cfg_volumes two_cfg !! i = Some vol → ∃ t v,
      is_targets (dm_server d) !! vc_iqn vol = Some t ∧ target_of two_cfg i vol t ∧
      Transfer.volume_at i (dm_state d) v ∧ usable v ∧ capacity v = vc_capacity vol ∧
      ∀ a, shown v a = S3Spec.byte_view (place vol) (S3Spec.objs (bucket_at_start two_cfg)) a.
Proof.
  pose proof (daemon_serves two_cli two_cfg ["10.0.0.1:3260"] works_here two_loaded ltac:(vm_compute; reflexivity)
    two_startable two_separate) as Hd. exact Hd.
Defined.

Lemma reload_after_start_witness :
  ∃ d v st, run two_cli = Ok d ∧
    AdminOps.reload (λ p, said config_display (Load.load_for_reload p)) (dm_state d) = (Ok v, st) ∧
    ad_cache st = ad_cache (dm_state d) ∧ ad_volume_stores st = ad_volume_stores (dm_state d) ∧
    Js.get "rejected" v = Some (to_json [{| rj_field := "auth"; rj_reason := "CHAP / ACL changes require restart" |}]).
Proof.
  pose proof (reload_after_start "a.toml" "warn" two_cfg ["10.0.0.1:3260"] works_here) as Hd.
  apply Hd; [intros f [= <-]; by repeat constructor|by repeat constructor|exact two_loaded|vm_compute; reflexivity
    |exact two_startable|exact two_separate].
Defined.
End witnesses.
End MainTheorems.
