(* ===== verification/DaemonTheorems.v ===== *)
(** * The daemon's volumes are independent disks

    From the command line to the answers of the volumes: a daemon that starts on
    volumes with different places in the bucket answers any sequence of reads,
    writes and flushes, spread over its volumes in any order, as separate disks
    would, although the volumes share one bucket and one chunk cache. *)
From S2P Require Import Prelude Tables Text Store Compression Snapshot S3Api S3Keys S3Store S3Spec S3Block.
From S2P Require Import S3Snap S3SnapSpec S3Open Concrete Cache CachedStore Ready WriteBuffer WriteCache WriteBack.
From S2P Require Import WriteBackSpec WriteBackWorker WriteBackOps WriteBackFlush WriteBackRecover.
From S2P Require Import Stack Device Config ConfigSpec Volume Restart Images Value Load LoadTheorems Portals.
From S2P Require Import Float Metrics MetricsSpec Sessions MetricsTheorems Admin AdminOps Transfer Startup Isolation.
From S2P Require Import Main WriteBackTheorems MainTheorems.
#[local] Open Scope string_scope.
#[local] Open Scope list_scope.
#[local] Open Scope Z_scope.

Module DaemonTheorems.
Import Main Volume Restart Startup Isolation MainTheorems.

Section start.
Context {B : Type} `{S3Laws B} `{CodecLaws} `{Blake3Laws} `{JsonLaws} `{StampJson} `{ByteSizeLaws} `{ByteSizeText}.
Context `{FigmentLaws} `{PrometheusLaws} `{Platform B} `{Contents}.
Implicit Types (env : Env B) (vol : VolumeConfig) (o : Opening B).

(** The volumes have different places in the bucket. *)
Definition side_by_side (vols : list VolumeConfig) : Prop :=
  ∀ i j vol vol', vols !! i = Some vol → vols !! j = Some vol' → i ≠ j → beside (place vol) (place vol').
Lemma side_by_side_separate vols : side_by_side vols → separate vols.
Proof.
  intros Hb i j vol vol' Hi Hj Hne rest. pose proof (Hb _ _ _ _ Hi Hj Hne) as Hbe.
  unfold Keys.meta_key. destruct (st_storage (place vol)); [apply (Hbe "meta.json")|apply (Hbe "live/meta.json")].
Qed.

(** The disk a volume is to be: its configured size, with the bytes in the bucket. *)
Definition disk_of env vol : Disk :=
  {| dk_capacity := vc_capacity vol; dk_chunk := vc_chunk_size vol;
     dk_bytes := S3Spec.byte_view (place vol) (S3Spec.objs env) |}.

(** The volumes after the start. *)
Lemma volumes_started cfg portals cache env0 o (st : AdminState B) :
  (∀ i vol, cfg_volumes cfg !! i = Some vol → deployment cfg vol) → (∀ vol, cold cache vol) →
  side_by_side (cfg_volumes cfg) → progress cfg cache portals env0 (length (cfg_volumes cfg)) o →
  ad_volume_stores st = og_stores o → ad_env st = og_env o → ad_cache st = og_cache o →
  coexist st ∧ presents st (disk_of env0 <$> cfg_volumes cfg).
Proof.
  intros Hdep Hcold Hside [_ _ _ _ _ _ Hsto Hcache _ Hint] Hst Henv Hca. rewrite firstn_all in Hsto.
  assert (Hat : ∀ i vol, cfg_volumes cfg !! i = Some vol →
    Transfer.volume_at i st (store_in vol (og_env o) cache pf_instant)).
  { intros i vol Hi. destruct (Forall2_lookup_l _ _ _ _ _ Hsto Hi) as (h & Hh & Hfor).
    exists h. split; [by rewrite Hst|]. by rewrite (refreshed _ _ _ _ Hfor), Henv, Hca, Hcache. }
  assert (Hon : ∀ i v, Transfer.volume_at i st v →
    ∃ vol, cfg_volumes cfg !! i = Some vol ∧ v = store_in vol (og_env o) cache pf_instant).
  { intros i v Hv. pose proof Hv as (h & Hh & _). rewrite Hst in Hh.
    destruct (Forall2_lookup_r _ _ _ _ _ Hsto Hh) as (vol & Hi & _). exists vol. split; [done|].
    by eapply volume_at_inj, Hat. }
  assert (Hsv : ∀ i vol, cfg_volumes cfg !! i = Some vol → let v := store_in vol (og_env o) cache pf_instant in
    usable v ∧ capacity v = vc_capacity vol ∧ ∀ a, shown v a = S3Spec.byte_view (place vol) (S3Spec.objs (og_env o)) a).
  { intros i vol Hi. by apply (store_in_serves cfg); [eapply Hdep|eapply Hint|]. }
  split; [constructor|].
  - intros i v (vol & Hi & ->)%Hon. by eapply Hsv.
  - intros i j v w (vol & Hi & ->)%Hon (vol' & Hj & ->)%Hon Hne. split; [|by eapply Hside].
    change (vc_name vol ≠ vc_name vol'). intros Heq. apply Hne.
    destruct (Hdep _ _ Hi) as [Hval _ _ _ _ _ _]. apply ConfSpec.validate_ok, ConfSpec.cv_names in Hval.
    eapply (NoDup_lookup _ _ _ (vc_name vol) Hval); rewrite list_lookup_fmap; [by rewrite Hi|by rewrite Hj, Heq].
  - intros i d. rewrite list_lookup_fmap. destruct (cfg_volumes cfg !! i) as [vol|] eqn:Hi; [|done]. intros [= <-].
    destruct (Hsv _ _ Hi) as (_ & Hcap & Hsh). eexists. split; [by apply Hat|]. constructor; [exact Hcap|done|].
    intros a _. rewrite Hsh. by apply (Hint i).
Qed.

(** C15: The volumes of a daemon are independent disks. When the daemon starts on
    volumes whose places in the bucket do not overlap, then any sequence of reads,
    writes and flushes to them, in any order and through one shared bucket and one
    shared chunk cache, gets exactly the answers that separate disks of the
    configured sizes give, which first hold what the bucket held: every read
    returns the bytes last written to that volume, requests beyond the end are
    refused, and no request of one volume shows in another. Afterwards every
    volume still looks like its disk. *)
Theorem daemon_is_disks cli cfg portals ops :
  works → Load.load cli = Ok cfg → Portals.resolve_portals cfg = Ok portals →
  Forall (λ vol, startable vol (bucket_at_start cfg)) (cfg_volumes cfg) → side_by_side (cfg_volumes cfg) →
  sane_each (allowed (Stack.volume_store B)) ops (disk_of (bucket_at_start cfg) <$> cfg_volumes cfg) →
  ∃ d, run cli = Ok d ∧
    (serve_each ops (dm_state d)).1 = (disks_each ops (disk_of (bucket_at_start cfg) <$> cfg_volumes cfg)).1 ∧
    presents (serve_each ops (dm_state d)).2 (disks_each ops (disk_of (bucket_at_start cfg) <$> cfg_volumes cfg)).2.
Proof.
  intros Hw Hload Hport Hall Hside Hsane.
  destruct (started cli cfg portals Hw Hload Hport Hall (side_by_side_separate _ Hside))
    as (d & o & Hrun & Hpg & _ & _ & _ & Hst & Henv & Hca).
  destruct (LoadTheorems.loaded _ _ Hload) as (_ & _ & Hcm).
  destruct (volumes_started cfg portals (Cache.new (cac_max_bytes (cfg_cache cfg))) (bucket_at_start cfg) o (dm_state d))
    as [Hco Hpr]; try done.
  { intros i vol Hi. by eapply started_deployment. }
  { intros vol. apply cold_new, Hcm. }
  exists d. split; [done|]. destruct (volumes_isolated ops _ _ Hco Hpr Hsane) as (Ha & _ & Hp). by split.
Qed.
End start.

(** ** Witness *)
Section witnesses.
Import Concrete MetricsTheorems.MemProm.
#[local] Existing Instance WriteBackTheorems.stamp_json.
#[local] Existing Instance LoadTheorems.Example.decimal_sizes.
#[local] Existing Instance LoadTheorems.Example.decimal_laws.
#[local] Existing Instance LoadTheorems.Example.decimal_text.
#[local] Existing Instance MainTheorems.everything.
#[local] Existing Instance MainTheorems.figment.
#[local] Existing Instance MainTheorems.figment_laws.
#[local] Existing Instance MainTheorems.platform.

(** Both volumes written at the same place, read back, one flushed, and a read
    past the end. *)
Definition mixed : list (nat * Request) := [
  (0%nat, RqWrite 2 [Byte.x01; Byte.x02; Byte.x03]); (1%nat, RqWrite 2 [Byte.x09]);
  (0%nat, RqRead 0 6); (1%nat, RqFlush); (1%nat, RqRead 1 3); (0%nat, RqRead 10 8)].

Lemma two_side_by_side : side_by_side (cfg_volumes two_cfg).
Proof. intros [|[|i]] [|[|j]] vol vol' Hi Hj Hne r r'; simplify_eq/=; done. Qed.

Lemma daemon_is_disks_witness :
  ∃ d, run two_cli = Ok d ∧
    (serve_each mixed (dm_state d)).1 = [Ok []; Ok [];
      Ok [Byte.x00; Byte.x00; Byte.x01; Byte.x02; Byte.x03; Byte.x00]; Ok [];
      Ok [Byte.x00; Byte.x09; Byte.x00]; Err (OutOfRange 10 8 16)].
Proof.
  destruct (daemon_is_disks two_cli two_cfg ["10.0.0.1:3260"] mixed works_here two_loaded ltac:(vm_compute; reflexivity)
    two_startable two_side_by_side) as (d & Hrun & Hans & _).
  - repeat (eexists; split; [reflexivity|]; split; [repeat split; lia|]). done.
  - exists d. split; [exact Hrun|]. rewrite Hans. vm_compute. reflexivity.
Defined.
End witnesses.
End DaemonTheorems.
