(* ===== verification/Commands.v ===== *)
(** * The control client's command line (src/src/bin/iscsi-s3-ctl.rs)

    The commands as clap's derived parser produces them, and the JSON request of
    each. *)
From S2P Require Import Prelude Text Config Value.
#[local] Open Scope string_scope.
#[local] Open Scope list_scope.
#[local] Open Scope Z_scope.

Inductive CacheCmd : Type :=
| CacheStatus
| CacheDisable
| CacheEnable (max_bytes : option string)
| CacheSet (max_bytes : string).
Inductive SnapshotCmd : Type :=
| SnapshotCreate (volume : string) (name : option string) (force : bool)
| SnapshotList (volume : string)
| SnapshotDelete (volume id : string) (force : bool)
| SnapshotRestore (volume id : string) (force : bool)
| SnapshotClone (volume id to : string).
Inductive VolumeCmd : Type :=
| VolumeList
| S3Stats (volume : string)
| WriteImage (volume file : string)
| Copy (from to : string) (force : bool) (resume_from : option Z)
| Wipe (volume : string) (force : bool)
| Gc (volume : string) (force : bool)
| Grow (volume capacity : string)
| VolumeSessions (volume : option string)
| Export (volume file : string) (size : option string)
| Connect (volume : string) (portal username password mutual_username mutual_password : option string)
| Disconnect (volume : string) (portal : option string)
| VolumeDevice (volume : string) (wait : Z)
| Snapshot (action : SnapshotCmd)
| MigrateCow (volume : string) (force : bool).
Inductive Commands : Type :=
| Stats
| Health
| CacheCommand (action : CacheCmd)
| VolumeCommand (action : VolumeCmd)
| Reload.
Inductive OutputFormat : Type := FormatText | FormatJson.

Module Request.
Section requests.
Context `{Conf.ByteSize}.

Definition op (name : string) (fields : list (string * Value)) : Value :=
  Js.obj (("op", to_json name) :: fields).

Definition build_request (cmd : Commands) : outcome string Value :=
  match cmd with
  | Stats => Ok (op "stats" [])
  | Health => Ok (op "health" [])
  | Reload => Ok (op "reload" [])
  | CacheCommand CacheStatus => Ok (op "cache.status" [])
  | CacheCommand CacheDisable => Ok (op "cache.disable" [])
  | CacheCommand (CacheEnable max_bytes) =>
      match max_bytes with
      | Some s => n ← Conf.parse_byte_size s; Ok (Js.put_some "max_bytes" (Some n) (op "cache.enable" []))
      | None => Ok (op "cache.enable" [])
      end
  | CacheCommand (CacheSet max_bytes) =>
      n ← Conf.parse_byte_size max_bytes; Ok (op "cache.set" [("max_bytes", to_json n)])
  | VolumeCommand VolumeList => Ok (op "volume.list" [])
  | VolumeCommand (S3Stats volume) => Ok (op "volume.s3_stats" [("volume", to_json volume)])
  | VolumeCommand (WriteImage _ _) | VolumeCommand (Export _ _ _) => Panic
  | VolumeCommand (Copy from to _ resume_from) =>
      Ok (Js.put_some "resume_from" resume_from (op "volume.copy" [("volume", to_json from); ("to", to_json to)]))
  | VolumeCommand (Wipe volume _) => Ok (op "volume.wipe" [("volume", to_json volume)])
  | VolumeCommand (Gc volume _) => Ok (op "volume.gc" [("volume", to_json volume)])
  | VolumeCommand (Grow volume capacity) =>
      n ← Conf.parse_byte_size capacity;
      Ok (op "volume.grow" [("volume", to_json volume); ("capacity", to_json n)])
  | VolumeCommand (VolumeSessions volume) => Ok (Js.put_some "volume" volume (op "volume.sessions" []))
  | VolumeCommand (Snapshot (SnapshotCreate volume name force)) =>
      Ok (Js.put_some "id" name
            (op "volume.snapshot.create" [("volume", to_json volume); ("force", to_json force)]))
  | VolumeCommand (Snapshot (SnapshotList volume)) => Ok (op "volume.snapshot.list" [("volume", to_json volume)])
  | VolumeCommand (Snapshot (SnapshotDelete volume id _)) =>
      Ok (op "volume.snapshot.delete" [("volume", to_json volume); ("id", to_json id)])
  | VolumeCommand (Snapshot (SnapshotRestore volume id force)) =>
      Ok (op "volume.snapshot.restore"
            [("volume", to_json volume); ("id", to_json id); ("force", to_json force)])
  | VolumeCommand (Snapshot (SnapshotClone volume id to)) =>
      Ok (op "volume.snapshot.clone" [("volume", to_json volume); ("id", to_json id); ("to", to_json to)])
  | VolumeCommand (MigrateCow volume _) => Ok (op "volume.migrate_cow" [("volume", to_json volume)])
  | VolumeCommand (Connect _ _ _ _ _ _) | VolumeCommand (Disconnect _ _) | VolumeCommand (VolumeDevice _ _) => Panic
  end.
End requests.
End Request.
