(* ===== verification/Print.v ===== *)
(** * The control client's text output (src/src/bin/iscsi-s3-ctl.rs)

    What the client prints for each response, line by line. *)
From S2P Require Import Prelude Text Value Commands.
#[local] Open Scope string_scope.
#[local] Open Scope list_scope.
#[local] Open Scope Z_scope.
Import Text.

Module Print.
(** [v.get(key).and_then(|v| v.as_str()).unwrap_or(d)] and the like; [{}] of a
    boolean *)
Definition str_or (d key : string) (v : Value) : string := default d (Js.get_str key v).
Definition num (key : string) (v : Value) : string := dec (default 0 (v ← Js.get key v; Js.as_u64 v)).
Definition boolean (key : string) (v : Value) : string :=
  if default false (v ← Js.get key v; Js.as_bool v) then "true" else "false".
Definition array (key : string) (v : Value) : option (list Value) := v ← Js.get key v; Js.as_array v.
(** [if let Some(x) = o { .. }] *)
Definition with_some {A} (o : option A) (f : A → list string) : list string :=
  match o with Some x => f x | None => [] end.
(** A field of an optional object, and the trailing note. *)
Definition sub_str (d key : string) (v : option Value) : string := default d (v ← v; Js.get_str key v).
Definition note (v : Value) : list string := with_some (Js.get_str "note" v) (λ n, ["note: " +:+ n]).

Definition print_cache (c : Value) : list string :=
  ["cache: enabled=" +:+ boolean "enabled" c +:+ " max_bytes=" +:+ num "max_bytes" c
   +:+ " used_bytes=" +:+ num "used_bytes" c +:+ " entries=" +:+ num "entries" c].

Definition write_cache_fields (v : Value) : string :=
  " write_cache=" +:+ str_or "none" "write_cache" v
  +:+ " write_cache_max_bytes=" +:+ num "write_cache_max_bytes" v
  +:+ " write_buffer_max_bytes=" +:+ num "write_buffer_max_bytes" v.
Definition print_stats (data : Value) : list string :=
  ["uptime: " +:+ str_or "-" "uptime" data; "bind: " +:+ str_or "-" "bind" data;
   "instance: " +:+ str_or "-" "instance" data; "config: " +:+ str_or "(none)" "config_path" data]
  ++ with_some (array "portals" data) (λ p, ["portals: " +:+ String.concat ", " (omap Js.as_str p)])
  ++ with_some (Js.get "iscsi" data) (λ iscsi,
       ["iscsi connections: " +:+ num "connections" iscsi; "iscsi sessions: " +:+ num "sessions" iscsi])
  ++ with_some (array "volumes" data) (λ vols,
       "volumes:" :: map (λ v, "  - " +:+ str_or "?" "name" v +:+ " (" +:+ str_or "?" "iqn" v +:+ ") capacity="
         +:+ num "capacity" v +:+ " auth=" +:+ str_or "?" "auth" v +:+ " prefix=" +:+ str_or "?" "prefix" v
         +:+ " compression=" +:+ str_or "none" "compression" v +:+ write_cache_fields v) vols)
  ++ with_some (Js.get "cache" data) print_cache.

Definition print_volume_list (data : Value) : list string :=
  ("volumes: " +:+ num "count" data) ::
  with_some (array "volumes" data) (map (λ v,
    "  - " +:+ str_or "?" "name" v +:+ "  iqn=" +:+ str_or "?" "iqn" v +:+ "  capacity=" +:+ num "capacity" v
    +:+ "  prefix=" +:+ str_or "?" "prefix" v +:+ "  storage=" +:+ str_or "legacy" "storage" v
    +:+ "  compression=" +:+ str_or "none" "compression" v +:+ " " +:+ write_cache_fields v
    +:+ "  auth=" +:+ str_or "?" "auth" v)).

Definition volume_line (what : string) (data : Value) : string :=
  what +:+ " " +:+ str_or "?" "volume" data +:+ " (" +:+ str_or "?" "iqn" data +:+ ")".
Definition totals (what : string) (v : Value) : string :=
  what +:+ ": total=" +:+ num "total" v +:+ " chunks=" +:+ num "chunks" v +:+ " meta=" +:+ num "meta" v
  +:+ " other=" +:+ num "other" v.
Definition print_volume_s3_stats (data : Value) : list string :=
  [volume_line "volume:" data;
   "s3: s3://" +:+ str_or "?" "bucket" data +:+ "/" +:+ str_or "?" "prefix" data;
   "logical_capacity_bytes: " +:+ num "logical_capacity_bytes" data +:+ "  chunk_size: " +:+ num "chunk_size" data
   +:+ "  compression: " +:+ str_or "none" "compression" data]
  ++ with_some (Js.get "objects" data) (λ o, [totals "objects" o])
  ++ with_some (Js.get "bytes" data) (λ b, [totals "bytes" b]) ++ note data.

Definition print_write_image (data : Value) : list string :=
  if Js.is_true (Js.get "ready" data) then
    ["ready to receive " +:+ num "size" data +:+ " bytes for volume " +:+ str_or "?" "volume" data]
  else
    [volume_line "seeded volume" data;
     "bytes_read=" +:+ num "bytes_read" data +:+ "  bytes_stored=" +:+ num "bytes_stored" data
     +:+ "  chunks_written=" +:+ num "chunks_written" data
     +:+ "  zero_chunks_skipped=" +:+ num "zero_chunks_skipped" data] ++ note data.
Definition print_volume_export (data : Value) : list string :=
  if Js.is_true (Js.get "ready" data) then
    ["ready to send " +:+ num "size" data +:+ " bytes for volume " +:+ str_or "?" "volume" data]
  else
    [volume_line "exported volume" data;
     "bytes_sent=" +:+ num "bytes_sent" data +:+ "  chunks_read=" +:+ num "chunks_read" data].

Definition print_volume_copy (data : Value) : list string :=
  ["copied " +:+ sub_str "?" "volume" (Js.get "from" data) +:+ " → " +:+ sub_str "?" "volume" (Js.get "to" data);
   "chunks_copied=" +:+ num "chunks_copied" data +:+ "  chunks_deleted=" +:+ num "chunks_deleted" data
   +:+ "  bytes_copied=" +:+ num "bytes_copied" data]
  ++ with_some (v ← Js.get "resume_from" data; Js.as_u64 v) (λ idx,
       ["resume_from=" +:+ dec idx +:+ "  chunks_skipped=" +:+ num "chunks_skipped" data])
  ++ note data.
Definition print_volume_wipe (data : Value) : list string :=
  [volume_line "wiped volume" data;
   "chunks_deleted=" +:+ num "chunks_deleted" data +:+ "  objects_deleted=" +:+ num "objects_deleted" data
   +:+ "  snapshots_deleted=" +:+ num "snapshots_deleted" data] ++ note data.
Definition print_volume_gc (data : Value) : list string :=
  [volume_line "gc volume" data;
   "objects_deleted=" +:+ num "objects_deleted" data +:+ "  objects_referenced=" +:+ num "objects_referenced" data].
Definition print_volume_grow (data : Value) : list string :=
  [volume_line "grew volume" data;
   "capacity: " +:+ num "old_capacity" data +:+ " → " +:+ num "new_capacity" data
   +:+ "  changed=" +:+ boolean "changed" data] ++ note data.

Definition print_snapshot_create (data : Value) : list string :=
  let snap := Js.get "snapshot" data in
  ["created snapshot " +:+ sub_str "?" "id" snap +:+ " on volume " +:+ str_or "?" "volume" data;
   "chunk_count=" +:+ dec (default 0 (s ← snap; v ← Js.get "chunk_count" s; Js.as_u64 v))
   +:+ "  state=" +:+ sub_str "?" "state" snap].
Definition print_snapshot_list (data : Value) : list string :=
  ("volume " +:+ str_or "?" "volume" data +:+ " (storage=" +:+ str_or "?" "storage" data +:+ "): "
   +:+ num "count" data +:+ " snapshot(s)") ::
  with_some (array "snapshots" data) (map (λ s,
    "  - " +:+ str_or "?" "id" s +:+ "  created_at=" +:+ num "created_at_unix" s
    +:+ "  chunks=" +:+ num "chunk_count" s +:+ "  state=" +:+ str_or "?" "state" s)).
Definition print_snapshot_delete (data : Value) : list string :=
  ("deleted snapshot " +:+ str_or "?" "id" data +:+ " on volume " +:+ str_or "?" "volume" data) ::
  with_some (Js.get "gc" data) (λ gc,
    ["gc: objects_deleted=" +:+ num "objects_deleted" gc +:+ "  objects_referenced=" +:+ num "objects_referenced" gc]).
Definition print_snapshot_restore (data : Value) : list string :=
  ("restored volume " +:+ str_or "?" "volume" data +:+ " from snapshot " +:+ str_or "?" "id" data) ::
  with_some (Js.get "restore" data) (λ r,
    ["pointers_written=" +:+ num "pointers_written" r +:+ "  pointers_deleted=" +:+ num "pointers_deleted" r
     +:+ "  capacity=" +:+ num "capacity" r]).
Definition print_snapshot_clone (data : Value) : list string :=
  ("cloned snapshot " +:+ str_or "?" "id" data +:+ " from " +:+ str_or "?" "from" data +:+ " → "
   +:+ str_or "?" "to" data) ::
  with_some (Js.get "clone" data) (λ c,
    ["pointers_written=" +:+ num "pointers_written" c +:+ "  objects_copied=" +:+ num "objects_copied" c]).
Definition print_migrate_cow (data : Value) : list string :=
  ("migrated volume " +:+ str_or "?" "volume" data +:+ " to storage=cow") ::
  with_some (Js.get "migrate" data) (λ m,
    ("chunks_migrated=" +:+ num "chunks_migrated" m +:+ "  legacy_chunks_deleted=" +:+ num "chunks_deleted" m)
    :: note m).

Definition iscsi_line (iscsi : Value) : list string :=
  ["iscsi connections=" +:+ num "connections" iscsi +:+ " sessions=" +:+ num "sessions" iscsi].
Definition print_volume_sessions (data : Value) : list string :=
  with_some (Js.get "iscsi" data) iscsi_line ++
  ("sessions: " +:+ num "count" data) ::
  with_some (array "sessions" data) (map (λ s,
    "  - volume=" +:+ str_or "?" "volume" s +:+ " target=" +:+ str_or "?" "target_iqn" s
    +:+ " initiator=" +:+ str_or "?" "initiator_iqn" s +:+ " peer=" +:+ str_or "?" "peer" s
    +:+ " age=" +:+ num "started_secs_ago" s +:+ "s")).

Definition print_health (data : Value) : list string :=
  ["status: " +:+ str_or "?" "status" data; "uptime: " +:+ str_or "-" "uptime" data;
   "bind: " +:+ str_or "-" "bind" data; "volumes: " +:+ num "volumes" data]
  ++ with_some (Js.get "iscsi" data) iscsi_line
  ++ with_some (Js.get "cache" data) print_cache
  ++ with_some (Js.get "s3" data) (λ s3,
       if Js.is_true (Js.get "ok" s3) then
         ["s3: ok bucket=" +:+ str_or "?" "bucket" s3 +:+ " latency_ms=" +:+ num "latency_ms" s3]
       else ["s3: FAIL bucket=" +:+ str_or "?" "bucket" s3 +:+ " error=" +:+ str_or "?" "error" s3]).

Definition print_reload (data : Value) : list string :=
  "reload complete" ::
  with_some (array "applied" data) (λ arr,
    "applied:" :: map (λ a, "  - " +:+ default "?" (Js.as_str a)) arr)
  ++ with_some (array "rejected" data) (λ arr,
       match arr with
       | [] => []
       | _ => "rejected:" :: map (λ r, "  - " +:+ str_or "?" "field" r +:+ ": " +:+ str_or "?" "reason" r) arr
       end)
  ++ with_some (array "warnings" data) (map (λ w, "warning: " +:+ default "?" (Js.as_str w)))
  ++ with_some (Js.get "cache" data) print_cache.

(** The text for a successful response. *)
Definition print_data (cmd : Commands) (data : Value) : list string :=
  match cmd with
  | Stats => print_stats data
  | CacheCommand CacheStatus => print_cache data
  | Health => print_health data
  | CacheCommand _ => "cache updated" :: print_cache data
  | VolumeCommand VolumeList => print_volume_list data
  | VolumeCommand (S3Stats _) => print_volume_s3_stats data
  | VolumeCommand (WriteImage _ _) => print_write_image data
  | VolumeCommand (Export _ _ _) => print_volume_export data
  | VolumeCommand (Copy _ _ _ _) => print_volume_copy data
  | VolumeCommand (Wipe _ _) => print_volume_wipe data
  | VolumeCommand (Gc _ _) => print_volume_gc data
  | VolumeCommand (Grow _ _) => print_volume_grow data
  | VolumeCommand (VolumeSessions _) => print_volume_sessions data
  | VolumeCommand (Snapshot (SnapshotCreate _ _ _)) => print_snapshot_create data
  | VolumeCommand (Snapshot (SnapshotList _)) => print_snapshot_list data
  | VolumeCommand (Snapshot (SnapshotDelete _ _ _)) => print_snapshot_delete data
  | VolumeCommand (Snapshot (SnapshotRestore _ _ _)) => print_snapshot_restore data
  | VolumeCommand (Snapshot (SnapshotClone _ _ _)) => print_snapshot_clone data
  | VolumeCommand (MigrateCow _ _) => print_migrate_cow data
  | VolumeCommand (Connect _ _ _ _ _ _) | VolumeCommand (Disconnect _ _) | VolumeCommand (VolumeDevice _ _) => []
  | Reload => print_reload data
  end.
Definition print_text (cmd : Commands) (resp : Value) : outcome string (list string) :=
  if Js.is_true (Js.get "ok" resp) then Ok (print_data cmd (default (Js.obj []) (Js.get "data" resp)))
  else Err (default "request failed" (Js.get_str "error" resp)).
End Print.
