(* ===== verification/Client.v ===== *)
(** * The control client and its host (src/src/bin/iscsi-s3-ctl.rs)

    The client's view of the machine it runs on, one exchange with the daemon,
    and the commands that drive [iscsiadm] or look a volume's local device up:
    [volume connect], [volume disconnect] and [volume device]. *)
From S2P Require Import Prelude Text Store Images Value Wire Portals Device.
#[local] Open Scope string_scope.
#[local] Open Scope list_scope.
#[local] Open Scope Z_scope.
Import Text.

Record VolumeAttachInfo : Type := {
  va_name : string;
  va_iqn : string;
  va_auth : string;
  va_portals : list string
}.
Record ChapCredentials : Type := {
  cc_username : option string;
  cc_password : option string;
  cc_mutual_username : option string;
  cc_mutual_password : option string
}.
Record LocalDevice : Type := { ld_by_path : string; ld_block : string; ld_mapper : option string }.

(** ** The host

    A world [W] with the [iscsiadm] program (its exit status and how it prints,
    or the error of not being able to start it), the daemon's socket, a terminal,
    the environment, files and a clock. [connect] gives what the daemon will send
    and how much it takes; [hang_up] is the effect of what was sent. [open_file]
    gives a file's contents, [create_file] the room for it. *)
Class Host (W : Type) : Type := {
  iscsiadm : list string → W → (bool * string + string) * W;
  connect : string → W → bytes * option Z + string;
  hang_up : string → bytes → W → W;
  stdin_is_terminal : W → bool;
  read_stdin_line : W → (string + string) * W;
  env_var : string → W → option string;
  file_len : string → W → Z + string;
  open_file : string → W → bytes + string;
  create_file : string → W → (option Z + string) * W;
  close_file : string → bytes → W → W;
  is_dir : string → W → bool;
  read_dir : string → W → list string + string;
  canonicalize : string → W → string + string;
  read_to_string : string → W → string + string;
  instant_now : W → Z;
  sleep : Z → W → W
}.
(** Time passes while sleeping. *)
Class HostLaws (W : Type) `{Host W} : Prop :=
  sleep_advances n w : 0 ≤ n → instant_now w + n ≤ instant_now (sleep n w).

(** The client's state: the world, the [iscsiadm] commands it has announced on
    stderr, what it has sent on each connection, and its standard output. *)
Record Ctl (W : Type) : Type := {
  ct_world : W;
  ct_printed : list (list string);
  ct_sent : list bytes;
  ct_stdout : list string
}.
Arguments ct_world {W} _.
Arguments ct_printed {W} _.
Arguments ct_sent {W} _.
Arguments ct_stdout {W} _.

Module Client.
(** ** Which volume, which portals *)
Definition is_volume (volume : string) (v : Value) : Prop :=
  Js.get_str "name" v = Some volume ∨ Js.get_str "iqn" v = Some volume.
#[global] Instance is_volume_dec volume v : Decision (is_volume volume v).
Proof. unfold is_volume. apply _. Defined.
Definition portals_from_stats (data : Value) : list string :=
  match (v ← Js.get "portals" data; Js.as_array v) with
  | Some arr => filter (λ s, is_empty s = false) (omap Js.as_str arr)
  | None => []
  end.
Definition lookup_volume_attach_from_stats (data : Value) (volume : string)
    : outcome string VolumeAttachInfo :=
  match (v ← Js.get "volumes" data; Js.as_array v) with
  | None => Err "stats response missing volumes"
  | Some vols =>
      match list_find (is_volume volume) vols with
      | None => Err ("unknown volume " +:+ quoted volume)
      | Some (_, vol) =>
          match Js.get_str "iqn" vol with
          | None => Err "volume missing iqn"
          | Some iqn =>
              Ok {| va_name := default volume (Js.get_str "name" vol); va_iqn := iqn;
                    va_auth := default "none" (Js.get_str "auth" vol);
                    va_portals := portals_from_stats data |}
          end
      end
  end.

Definition normalize_portal (portal : string) : string :=
  let p := trim portal in
  if contains ":" p then p else p +:+ ":3260".

(** [s.trim_matches(|c| c == '[' || c == ']')] *)
Definition is_bracket (c : Ascii.ascii) : bool :=
  Ascii.eqb c (Ascii.ascii_of_nat 91) || Ascii.eqb c (Ascii.ascii_of_nat 93).
Fixpoint trim_start_brackets (s : string) : string :=
  match s with
  | "" => ""
  | String d s' => if is_bracket d then trim_start_brackets s' else s
  end.
Fixpoint trim_end_brackets (s : string) : string :=
  match s with
  | "" => ""
  | String d s' =>
      match trim_end_brackets s' with
      | "" => if is_bracket d then "" else String d ""
      | t => String d t
      end
  end.

Definition is_wildcard_bind (bind : string) : bool :=
  let host := match Portals.rsplit_once Portals.colon bind with Some (h, _) => h | None => bind end in
  let host := trim_end_brackets (trim_start_brackets host) in
  bool_decide (host = "0.0.0.0") || bool_decide (host = "::") || bool_decide (host = "*").

Definition resolve_portals (info : VolumeAttachInfo) (portal_override bind : option string)
    : outcome string (list string) :=
  let no_portal :=
    Err "no usable portal: set portals/advertise on the daemon, or pass --portal HOST:PORT" in
  match portal_override with
  | Some p => Ok [normalize_portal p]
  | None =>
      match va_portals info with
      | [] =>
          match bind with
          | Some bind => if negb (is_wildcard_bind bind) then Ok [normalize_portal bind] else no_portal
          | None => no_portal
          end
      | ps => Ok (map normalize_portal ps)
      end
  end.

(** ** Credentials *)

(** [env_or]: the command-line value, else the first non-empty variable. *)
Definition non_blank (o : option string) : option string :=
  match trim <$> o with
  | Some v => if is_empty v then None else Some v
  | None => None
  end.
Fixpoint first_var (var : string → option string) (keys : list string) : option string :=
  match keys with
  | [] => None
  | k :: keys => match non_blank (var k) with Some v => Some v | None => first_var var keys end
  end.
Definition env_or (var : string → option string) (cli : option string) (keys : list string)
    : option string :=
  match non_blank cli with Some v => Some v | None => first_var var keys end.

Definition resolve (var : string → option string)
    (username password mutual_username mutual_password : option string) : ChapCredentials :=
  {| cc_username := env_or var username ["ISCSI_S3_CHAP_USERNAME"];
     cc_password := env_or var password ["ISCSI_S3_CHAP_PASSWORD"; "ISCSI_S3_CHAP_SECRET"];
     cc_mutual_username := env_or var mutual_username ["ISCSI_S3_CHAP_MUTUAL_USERNAME"];
     cc_mutual_password := env_or var mutual_password
       ["ISCSI_S3_CHAP_MUTUAL_PASSWORD"; "ISCSI_S3_CHAP_MUTUAL_SECRET"] |}.

Definition is_some {A} (o : option A) : bool := match o with Some _ => true | None => false end.
Definition has_one_way (c : ChapCredentials) : bool := is_some (cc_username c) && is_some (cc_password c).
Definition has_mutual (c : ChapCredentials) : bool :=
  is_some (cc_mutual_username c) && is_some (cc_mutual_password c).

Definition validate_for_volume_auth (c : ChapCredentials) (auth : string) : outcome string unit :=
  if decide (auth = "none") then Ok tt
  else if decide (auth = "chap") then
    if has_one_way c then Ok tt
    else Err "volume requires CHAP: pass --username/--password or set ISCSI_S3_CHAP_USERNAME and ISCSI_S3_CHAP_PASSWORD"
  else if decide (auth = "mutual-chap") then
    if has_one_way c && has_mutual c then Ok tt
    else Err "volume requires mutual CHAP: pass --username/--password and --mutual-username/--mutual-password (or matching ISCSI_S3_CHAP_* env vars)"
  else if negb (has_one_way c) then
    Err ("volume auth=" +:+ auth +:+ ": pass --username/--password or ISCSI_S3_CHAP_* env")
  else Ok tt.

(** ** Driving iscsiadm *)
Section commands.
Context {W : Type} `{Host W} `{Value.Wire}.
Notation MC := (M (Ctl W) string).
Implicit Types st : Ctl W.

Definition set_world (w : W) st : Ctl W :=
  {| ct_world := w; ct_printed := ct_printed st; ct_sent := ct_sent st; ct_stdout := ct_stdout st |}.
Definition on_world {A} (f : W → A * W) : MC A := λ st,
  let '(a, w) := f (ct_world st) in (Ok a, set_world w st).
Definition ask {A} (f : W → A) : MC A := gets (λ st, f (ct_world st)).
Definition println (s : string) : MC unit := modify (λ st,
  {| ct_world := ct_world st; ct_printed := ct_printed st; ct_sent := ct_sent st;
     ct_stdout := ct_stdout st ++ [s] |}).

Definition run_iscsiadm (args : list string) : MC unit := λ st,
  let '(res, w) := iscsiadm args (ct_world st) in
  let st' := {| ct_world := w; ct_printed := ct_printed st ++ [args]; ct_sent := ct_sent st;
                ct_stdout := ct_stdout st |} in
  match res with
  | inr e => (Err ("failed to run iscsiadm (" +:+ e +:+ "); is open-iscsi installed and in PATH?"), st')
  | inl (true, _) => (Ok tt, st')
  | inl (false, status) =>
      (Err ("iscsiadm " +:+ String.concat " " args +:+ " failed with " +:+ status), st')
  end.

(** ** An exchange with the daemon

    [UnixStream::connect], then [m] on the connection. *)
Definition exchange {A} (sock : string) (m : M Socket string A) : MC A := λ st,
  match connect sock (ct_world st) with
  | inr e => (Err ("connect " +:+ sock +:+ ": " +:+ e), st)
  | inl (incoming, room) =>
      let '(r, c) := m {| so_in := incoming; so_out := []; so_room := room; so_open := false |} in
      (r, {| ct_world := hang_up sock (so_out c) (ct_world st); ct_printed := ct_printed st;
             ct_sent := ct_sent st ++ [so_out c]; ct_stdout := ct_stdout st |})
  end.

(** What a response says: its data, or the error it carries. *)
Definition response_data (otherwise : string) (resp : Value) : outcome string Value :=
  if Js.is_true (Js.get "ok" resp) then Ok (default (Js.obj []) (Js.get "data" resp))
  else Err (default otherwise (Js.get_str "error" resp)).

Definition stats_request : Value := Js.obj [("op", to_json "stats")].
Definition fetch_volume_attach (sock volume : string) : MC (Value * VolumeAttachInfo) :=
  resp ← exchange sock (Wire.call_admin stats_request);
  data ← lift (response_data "stats failed" resp);
  info ← lift (lookup_volume_attach_from_stats data volume);
  mret (data, info).

(** The argument lists. *)
Definition discovery_args (portal : string) : list string :=
  ["-m"; "discovery"; "-t"; "sendtargets"; "-p"; portal].
Definition node_args (iqn portal : string) (rest : list string) : list string :=
  ["-m"; "node"; "-T"; iqn; "-p"; portal] ++ rest.
Definition update_args (iqn portal name value : string) : list string :=
  node_args iqn portal ["--op"; "update"; "-n"; name; "-v"; value].
Definition login_args (iqn portal : string) : list string := node_args iqn portal ["--login"].

(** [o.as_deref().unwrap()] *)
Definition unwrap {A : Type} (o : option A) : MC A := match o with Some a => mret a | None => panic end.

Definition configure_node_chap (iqn portal : string) (chap : ChapCredentials) : MC unit :=
  if negb (has_one_way chap) then mret tt
  else
    user ← unwrap (cc_username chap);
    pass ← unwrap (cc_password chap);
    _ ← run_iscsiadm (update_args iqn portal "node.session.auth.authmethod" "CHAP");
    _ ← run_iscsiadm (update_args iqn portal "node.session.auth.username" user);
    _ ← run_iscsiadm (update_args iqn portal "node.session.auth.password" pass);
    if has_mutual chap then
      mu ← unwrap (cc_mutual_username chap);
      mp ← unwrap (cc_mutual_password chap);
      _ ← run_iscsiadm (update_args iqn portal "node.session.auth.username_in" mu);
      run_iscsiadm (update_args iqn portal "node.session.auth.password_in" mp)
    else mret tt.

(** What [volume connect] does once it knows the volume. *)
Definition attach (data : Value) (info : VolumeAttachInfo) (portal_override : option string)
    (chap : ChapCredentials) : MC (list string) :=
  portals ← lift (resolve_portals info portal_override (Js.get_str "bind" data));
  _ ← lift (validate_for_volume_auth chap (va_auth info));
  first ← match portals with p :: _ => mret p | [] => panic end;
  _ ← run_iscsiadm (discovery_args first);
  _ ← for_each portals (λ portal _,
        _ ← configure_node_chap (va_iqn info) portal chap;
        run_iscsiadm (login_args (va_iqn info) portal)) tt;
  mret portals.

Definition run_volume_connect (sock volume : string) (portal_override : option string)
    (chap : ChapCredentials) : MC unit :=
  '(data, info) ← fetch_volume_attach sock volume;
  portals ← attach data info portal_override chap;
  println ("connected " +:+ va_name info +:+ " (" +:+ va_iqn info +:+ ") via " +:+ String.concat ", " portals).

Definition run_volume_disconnect (sock volume : string) (portal_override : option string) : MC unit :=
  '(_, info) ← fetch_volume_attach sock volume;
  let who := "disconnected " +:+ va_name info +:+ " (" +:+ va_iqn info +:+ ")" in
  match portal_override with
  | Some portal =>
      let portal := normalize_portal portal in
      _ ← run_iscsiadm (node_args (va_iqn info) portal ["--logout"]);
      println (who +:+ " from " +:+ portal)
  | None =>
      _ ← run_iscsiadm ["-m"; "node"; "-T"; va_iqn info; "-u"];
      println (who +:+ " (all portals)")
  end.

(** ** The local device *)
Definition BY_PATH : string := "/dev/disk/by-path".

(** [path.file_name()] *)
Definition file_name (path : string) : option string :=
  let name := match Portals.rsplit_once slash path with Some (_, n) => n | None => path end in
  if is_empty name || String.eqb name ".." then None else Some name.

(** The holders of a block device, in directory order; [None] also stands for
    the early return when a holder's uuid cannot be read. *)
Fixpoint first_mapper (w : W) (holders : list string) : option string :=
  match holders with
  | [] => None
  | dm :: holders =>
      if negb (starts_with "dm-" dm) then first_mapper w holders
      else match read_to_string ("/sys/block/" +:+ dm +:+ "/dm/uuid") w with
      | inr _ => None
      | inl uuid =>
          if negb (starts_with "mpath-" uuid) then first_mapper w holders
          else match read_to_string ("/sys/block/" +:+ dm +:+ "/dm/name") w with
          | inl map_name =>
              if is_empty (trim map_name) then Some ("/dev/" +:+ dm)
              else Some ("/dev/mapper/" +:+ trim map_name)
          | inr _ => Some ("/dev/" +:+ dm)
          end
      end
  end.
Definition multipath_mapper_for_block (w : W) (block : string) : option string :=
  name ← file_name block;
  match read_dir ("/sys/block/" +:+ name +:+ "/holders") w with
  | inr _ => None
  | inl entries => first_mapper w entries
  end.

Fixpoint devices_in (w : W) (iqn : string) (names : list string) : outcome string (list LocalDevice) :=
  match names with
  | [] => Ok []
  | name :: names =>
      if negb (contains "-iscsi-" name) || negb (contains iqn name) || negb (contains "-lun-" name)
      then devices_in w iqn names
      else
        let by_path := BY_PATH +:+ "/" +:+ name in
        match canonicalize by_path w with
        | inr e => Err ("resolve " +:+ by_path +:+ ": " +:+ e)
        | inl block =>
            rest ← devices_in w iqn names;
            Ok ({| ld_by_path := by_path; ld_block := block;
                   ld_mapper := multipath_mapper_for_block w block |} :: rest)
        end
  end.
Definition by_path_le (a b : LocalDevice) : Prop := String.le (ld_by_path a) (ld_by_path b).
#[global] Instance by_path_le_dec : RelDecision by_path_le.
Proof. intros a b. unfold by_path_le. apply _. Defined.
(** [dedup_by(|a, b| a.block == b.block)]: a device goes when the one kept
    before it has the same block. *)
Fixpoint dedup_after (last : string) (l : list LocalDevice) : list LocalDevice :=
  match l with
  | [] => []
  | d :: l => if String.eqb (ld_block d) last then dedup_after last l else d :: dedup_after (ld_block d) l
  end.
Definition dedup (l : list LocalDevice) : list LocalDevice :=
  match l with [] => [] | d :: l => d :: dedup_after (ld_block d) l end.
Definition find_local_devices (iqn : string) (w : W) : outcome string (list LocalDevice) :=
  if negb (is_dir BY_PATH w) then Ok []
  else match read_dir BY_PATH w with
  | inr e => Err ("read " +:+ BY_PATH +:+ ": " +:+ e)
  | inl names => out ← devices_in w iqn names; Ok (dedup (merge_sort by_path_le out))
  end.

(** The loop that waits for devices; [inr] ends it. Waiting is by 200 ms. *)
Definition SECOND : Z := 1000000000.
Definition PAUSE : Z := 200000000.
Definition poll_devices (iqn : string) (deadline : Z) (_ : unit + list LocalDevice)
    : MC (unit + list LocalDevice) :=
  found ← (r ← ask (find_local_devices iqn); lift r);
  now ← ask instant_now;
  match found with
  | [] =>
      if deadline <=? now then mret (inr [])
      else _ ← on_world (λ w, (tt, sleep PAUSE w)); mret (inl tt)
  | _ => mret (inr found)
  end.
Definition polling (r : unit + list LocalDevice) : bool := match r with inl _ => true | inr _ => false end.

(** The device to use: a multipath map if there is one, else the first block device. *)
Definition preferred (devices : list LocalDevice) : option string :=
  match omap ld_mapper devices with
  | m :: _ => Some m
  | [] => match devices with d :: _ => Some (ld_block d) | [] => None end
  end.
Definition device_lines (i : nat) (d : LocalDevice) : list string :=
  ["path[" +:+ dec (Z.of_nat i) +:+ "]: " +:+ ld_by_path d; "  block: " +:+ ld_block d] ++
  match ld_mapper d with Some m => ["  multipath: " +:+ m] | None => [] end.

(** The last instant, in seconds; past it [Instant + Duration] panics. *)
Definition LAST : Z := 2 ^ 63 - 1.
(** At most [wait * 5] pauses, and one look more. *)
Definition run_volume_device (sock volume : string) (wait_secs : Z) : MC unit :=
  '(_, info) ← fetch_volume_attach sock volume;
  now ← ask instant_now;
  let wait := Z.max wait_secs 1 in
  deadline ← (if (now + wait * SECOND) / SECOND <=? LAST then mret (now + wait * SECOND) else panic);
  found ← while (Z.to_nat (wait * 5 + 1)) polling (poll_devices (va_iqn info) deadline) (inl tt);
  match found with
  | inl _ | inr [] =>
      throw ("no local device for " +:+ va_name info +:+ " (" +:+ va_iqn info
        +:+ "); is the volume connected? looked under /dev/disk/by-path/*-iscsi-*-lun-*")
  | inr ((d :: _) as devices) =>
      for_each (["volume: " +:+ va_name info +:+ " (" +:+ va_iqn info +:+ ")";
                 "serial: " +:+ Identity.serial_from_iqn (va_iqn info);
                 "naa: 0x" +:+ String.concat "" (map (hex_fixed false 2) (Identity.naa_from_iqn (va_iqn info)))]
                ++ concat (imap device_lines devices)
                ++ ["device: " +:+ default (ld_block d) (preferred devices)])
        (λ line _, println line) tt
  end.

(** ** The plan of a connection

    What [volume connect] is to do, as a list of commands, and running a list of
    commands up to the first one that fails. *)
Definition chap_plan (iqn portal : string) (chap : ChapCredentials) : list (list string) :=
  match cc_username chap, cc_password chap with
  | Some user, Some pass =>
      [update_args iqn portal "node.session.auth.authmethod" "CHAP";
       update_args iqn portal "node.session.auth.username" user;
       update_args iqn portal "node.session.auth.password" pass] ++
      match cc_mutual_username chap, cc_mutual_password chap with
      | Some mu, Some mp =>
          [update_args iqn portal "node.session.auth.username_in" mu;
           update_args iqn portal "node.session.auth.password_in" mp]
      | _, _ => []
      end
  | _, _ => []
  end.
Definition portal_plan (iqn : string) (chap : ChapCredentials) (portal : string) : list (list string) :=
  chap_plan iqn portal chap ++ [login_args iqn portal].
Definition plan (iqn : string) (chap : ChapCredentials) (portals : list string) : list (list string) :=
  map discovery_args (take 1 portals) ++ portals ≫= portal_plan iqn chap.

Fixpoint run_all (cmds : list (list string)) : MC unit :=
  match cmds with
  | [] => mret tt
  | c :: cmds => _ ← run_iscsiadm c; run_all cmds
  end.

(** What is decided before the first command. *)
Definition preflight (data : Value) (info : VolumeAttachInfo) (portal_override : option string)
    (chap : ChapCredentials) : outcome string (list string) :=
  portals ← resolve_portals info portal_override (Js.get_str "bind" data);
  _ ← validate_for_volume_auth chap (va_auth info);
  Ok portals.

(** ** Connecting runs the plan *)
Implicit Types m : MC unit.

Lemma unit_bind_r m st : (_ ← m; mret tt) st = m st.
Proof. unfold mbind, M_bind. by destruct (m st) as [[[]| | |] ?]. Qed.

Lemma bind_cong {A} m m' (k k' : unit → MC A) st :
  (∀ st, m st = m' st) → (∀ u st, k u st = k' u st) → (m ≫= k) st = (m' ≫= k') st.
Proof. intros Hm Hk. unfold mbind, M_bind. rewrite Hm. by destruct (m' st) as [[[]| | |] ?]. Qed.

Lemma run_all_app a b st : run_all (a ++ b) st = (_ ← run_all a; run_all b) st.
Proof.
  revert st. induction a as [|c a IH]; intros st; [done|]. simpl. unfold mbind, M_bind in *.
  destruct (run_iscsiadm c st) as [[[]| | |] st']; [|done..]. apply IH.
Qed.

Lemma configure_plan iqn portal chap st :
  configure_node_chap iqn portal chap st = run_all (chap_plan iqn portal chap) st.
Proof.
  unfold configure_node_chap, chap_plan, has_one_way, has_mutual.
  destruct (cc_username chap), (cc_password chap); try done.
  destruct (cc_mutual_username chap), (cc_mutual_password chap); try done.
  simpl. unfold mbind, M_bind, mret, M_ret.
  repeat (destruct (run_iscsiadm _ _) as [[[]| | |] ?]; try done).
Qed.

Lemma portals_plan iqn chap portals st :
  for_each portals (λ portal _, _ ← configure_node_chap iqn portal chap;
    run_iscsiadm (login_args iqn portal)) tt st = run_all (portals ≫= portal_plan iqn chap) st.
Proof.
  revert st. induction portals as [|p portals IH]; intros st; [done|].
  change ((p :: portals) ≫= portal_plan iqn chap)
    with (portal_plan iqn chap p ++ (portals ≫= portal_plan iqn chap)).
  rewrite run_all_app. cbn [for_each]. apply bind_cong; [|intros []; exact IH].
  clear. intros st. unfold portal_plan. rewrite run_all_app.
  apply bind_cong; [apply configure_plan|]. intros _ st'. symmetry. apply unit_bind_r.
Qed.

Lemma resolve_portals_some info ov bind ps : resolve_portals info ov bind = Ok ps → ps ≠ [].
Proof.
  unfold resolve_portals. destruct ov; [by intros [= <-]|].
  destruct (va_portals info); [|by intros [= <-]].
  destruct bind; [|done]. by destruct (negb _); [intros [= <-]|].
Qed.

Lemma attach_runs_plan data info ov chap st :
  attach data info ov chap st =
  match preflight data info ov chap with
  | Ok portals => (_ ← run_all (plan (va_iqn info) chap portals); mret portals) st
  | Err e => (Err e, st)
  | Panic => (Panic, st)
  | OutOfFuel => (OutOfFuel, st)
  end.
Proof.
  unfold attach, preflight, lift, mbind, outcome_bind.
  unfold M_bind at 1. destruct (resolve_portals info ov _) as [ps| | |] eqn:Hps; [|done..].
  unfold M_bind at 1. destruct (validate_for_volume_auth _ _) as [[]| | |]; [|done..].
  apply resolve_portals_some in Hps. destruct ps as [|p ps]; [done|].
  unfold plan. cbn [take map app]. cbn [run_all]. unfold mbind, M_bind. cbn [mret M_ret].
  destruct (run_iscsiadm (discovery_args p) st) as [[[]| | |] st']; [|done..]. cbv beta iota.
  pose proof (portals_plan (va_iqn info) chap (p :: ps) st') as Hp. unfold mbind, M_bind in Hp. rewrite Hp. done.
Qed.

(** What running a list of commands announces: all of it, or a part that ends
    with the command that failed. *)
Lemma run_all_prefix cmds st :
  ∃ n, ct_printed (run_all cmds st).2 = ct_printed st ++ take n cmds ∧ (n ≤ length cmds)%nat ∧
  match (run_all cmds st).1 with
  | Ok _ => n = length cmds
  | Err _ => (0 < n)%nat
  | _ => False
  end.
Proof.
  revert st. induction cmds as [|c cmds IH]; intros st; [exists O; simpl; by rewrite app_nil_r|].
  simpl. unfold mbind, M_bind.
  assert (Hp : ct_printed (run_iscsiadm c st).2 = ct_printed st ++ [c]).
  { unfold run_iscsiadm. by destruct (iscsiadm _ _) as [[[[] ?]|?] ?]. }
  assert (Hr : (run_iscsiadm c st).1 = Ok tt ∨ ∃ e, (run_iscsiadm c st).1 = Err e).
  { unfold run_iscsiadm. destruct (iscsiadm _ _) as [[[[] ?]|?] ?]; simpl; eauto. }
  destruct (run_iscsiadm c st) as [r st']. simpl in *. destruct Hr as [->|[e ->]].
  - destruct (IH st') as (n & Hn & Hl & Hres). exists (S n). split; [|split; [lia|]].
    + rewrite Hn, Hp, <- app_assoc. done.
    + destruct (run_all cmds st').1; [lia|lia|done..].
  - exists 1%nat. simpl. rewrite take_0. split; [done|]. split; lia.
Qed.
End commands.
End Client.
