(* ===== verification/ClientTheorems.v ===== *)
(** * Theorems about attaching a volume

    The commands [iscsi-s3-ctl volume connect] runs, that CHAP is configured
    before every login that needs it, and that client and daemon agree on the
    portals. *)
From S2P Require Import Prelude Text Store Config Portals S3Api S3Keys Value Wire Metrics MetricsTheorems.
From S2P Require Import Images Admin AdminOps Concrete AdminTheorems ConcreteWire WireSpec Client.
#[local] Open Scope string_scope.
#[local] Open Scope list_scope.
#[local] Open Scope Z_scope.
Import Text.

Module ClientTheorems.
Import Client.

(** ** Text without white space *)
Definition no_space (s : string) : Prop := all_chars (λ c, negb (is_space c)) s = true.

Lemma trim_no_space s : no_space s → trim s = s.
Proof.
  intros Hs. unfold trim. assert (Hst : trim_start s = s).
  { destruct s as [|c s]; [done|]. unfold no_space in Hs. simpl in *. by destruct (is_space c). }
  rewrite Hst. clear Hst. unfold no_space in Hs. induction s as [|c s IH]; [done|]. simpl in *.
  apply andb_true_iff in Hs as [Hc Hs]. rewrite (IH Hs). destruct s; [|done]. by destruct (is_space c).
Qed.

Lemma dec_no_space n : 0 ≤ n → no_space (dec n).
Proof.
  intros Hn. unfold no_space. eapply all_chars_impl; [|by apply Portals.dec_digits].
  intros c. destruct c as [[] [] [] [] [] [] [] []]; vm_compute; done.
Qed.

Lemma resolved_no_space adv bind r :
  no_space adv → Portals.resolve_advertise adv bind = Ok r → no_space r.
Proof.
  intros Ha. unfold Portals.resolve_advertise. destruct (Portals.looks_like_host_port adv);
    [by intros [= <-]|].
  unfold mbind, outcome_bind. destruct (Portals.split_host_port bind) as [[h p]| | |] eqn:Hs; try done.
  intros [= <-]. apply Portals.split_port_bounds in Hs. pose proof (dec_no_space p ltac:(lia)) as Hp.
  unfold no_space, Portals.format_host_port in *. destruct (_ && _);
    rewrite !all_chars_app, Ha, Hp; done.
Qed.

Lemma resolve_all_Forall (P : string → Prop) ps bind rs :
  (∀ p r, p ∈ ps → Portals.resolve_advertise p bind = Ok r → P r) →
  Portals.resolve_all ps bind = Ok rs → Forall P rs.
Proof.
  revert rs. induction ps as [|p ps IH]; intros rs HP; simpl; [by intros [= <-]|].
  unfold mbind, outcome_bind in *. destruct (Portals.resolve_advertise p bind) as [r| | |] eqn:Hr; try done.
  destruct (Portals.resolve_all ps bind) as [rs'| | |]; try done. intros [= <-].
  constructor; [by apply (HP p); [left|]|]. apply IH; [|done]. intros p' r' Hin. apply HP. by right.
Qed.

(** Addresses the client takes as they are. *)
Definition taken_as_is (r : string) : Prop := normalize_portal r = r ∧ is_empty r = false.

Lemma resolved_taken adv bind r :
  no_space adv → Portals.resolve_advertise adv bind = Ok r → taken_as_is r.
Proof.
  intros Ha Hr. pose proof (Portals.resolved_has_colon _ _ _ Hr) as Hc.
  split; [|by destruct r].
  unfold normalize_portal. by rewrite (trim_no_space r), Hc by (by eapply resolved_no_space).
Qed.

Lemma taken_portals ps :
  Forall taken_as_is ps → filter (λ s, is_empty s = false) ps = ps ∧ map normalize_portal ps = ps.
Proof.
  induction 1 as [|p ps [Hn He] _ [IHf IHm]]; [done|].
  rewrite filter_cons_True, IHf by done. simpl. by rewrite Hn, IHm.
Qed.

Lemma daemon_portals_taken cfg ps :
  Forall no_space (cfg_portals cfg) → from_option no_space True (cfg_advertise cfg) →
  Portals.resolve_portals cfg = Ok ps → Forall taken_as_is ps.
Proof.
  unfold Portals.resolve_portals. intros Hp Ha. destruct (cfg_portals cfg) as [|p0 rest] eqn:Hcp.
  - destruct (cfg_advertise cfg) as [a|]; [|by intros [= <-]].
    unfold mbind, outcome_bind. destruct (Portals.resolve_advertise a _) as [r| | |] eqn:Hr; try done.
    intros [= <-]. constructor; [|done]. by eapply resolved_taken.
  - apply resolve_all_Forall. intros p r Hin. rewrite Forall_forall in Hp.
    apply resolved_taken. by apply Hp.
Qed.

(** ** The client reads the daemon's stats *)
Section stats.
Context {B : Type} `{Prometheus}.
Implicit Types st : AdminState B.

Lemma find_summary volume (vs : list VolumeSummary) :
  list_find (is_volume volume) (map to_json vs) =
  prod_map id to_json <$> list_find (λ v, vs_name v = volume ∨ vs_iqn v = volume) vs.
Proof.
  induction vs as [|v vs IH]; [done|]. cbn [map list_find].
  assert (Hv : is_volume volume (to_json v) ↔ vs_name v = volume ∨ vs_iqn v = volume).
  { unfold is_volume, Js.get_str. unfold to_json at 1 2, summary_serialize. autorewrite with js. simpl.
    unfold to_json, string_serialize. naive_solver. }
  repeat case_decide; try done; try tauto.
  rewrite IH. by destruct (list_find (λ v, vs_name v = volume ∨ vs_iqn v = volume) vs) as [[]|].
Qed.

Lemma strings_back (l : list string) : omap Js.as_str (map to_json l) = l.
Proof. induction l as [|s l IH]; [done|]. exact (f_equal (cons s) IH). Qed.

(** What the client finds is what the daemon's snapshot says. *)
Lemma lookup_stats st volume :
  lookup_volume_attach_from_stats (AdminOps.stats_json st) volume =
  match list_find (λ v, vs_name v = volume ∨ vs_iqn v = volume) (as_volumes (ad_snapshot st)) with
  | None => Err ("unknown volume " +:+ quoted volume)
  | Some (_, v) =>
      Ok {| va_name := vs_name v; va_iqn := vs_iqn v; va_auth := vs_auth v;
            va_portals := filter (λ s, is_empty s = false) (as_portals (ad_snapshot st)) |}
  end.
Proof.
  unfold lookup_volume_attach_from_stats, portals_from_stats, AdminOps.stats_json. autorewrite with js.
  change (to_json (as_volumes (ad_snapshot st))) with (JArray (map to_json (as_volumes (ad_snapshot st)))).
  change (to_json (as_portals (ad_snapshot st))) with (JArray (map to_json (as_portals (ad_snapshot st)))).
  cbn [mbind option_bind Js.as_array].
  rewrite find_summary. destruct (list_find _ _) as [[i v]|]; [|done]. simpl.
  unfold to_json at 1 2 3, summary_serialize, Js.get_str. autorewrite with js. simpl. by rewrite strings_back.
Qed.
Lemma bind_stats st : Js.get_str "bind" (AdminOps.stats_json st) = Some (as_bind (ad_snapshot st)).
Proof. unfold AdminOps.stats_json, Js.get_str. by autorewrite with js. Qed.

(** C37: Client and daemon agree on the portals. When the daemon has resolved
    at least one portal from its configuration and shows it in its stats, the
    client that reads these stats connects to exactly the addresses the daemon
    announces, in that order. *)
Theorem client_uses_daemon_portals cfg st volume info ps :
  Forall no_space (cfg_portals cfg) → from_option no_space True (cfg_advertise cfg) →
  Portals.resolve_portals cfg = Ok ps → ps ≠ [] → as_portals (ad_snapshot st) = ps →
  lookup_volume_attach_from_stats (AdminOps.stats_json st) volume = Ok info →
  resolve_portals info None (Js.get_str "bind" (AdminOps.stats_json st)) = Ok ps.
Proof.
  intros Hp Ha Hps Hne Hd. rewrite lookup_stats, bind_stats.
  destruct (taken_portals ps (daemon_portals_taken cfg ps Hp Ha Hps)) as [Hf Hm].
  unfold resolve_portals.
  destruct (list_find _ _) as [[i v]|]; [|done]. intros [= <-]. cbn [va_portals].
  rewrite Hd, Hf. destruct ps as [|p ps]; [done|by rewrite Hm].
Qed.
End stats.

Section connect.
Context {W : Type} `{Host W} `{Value.Wire}.
Implicit Types (st : Ctl W).

Lemma preflight_total data info ov chap :
  match preflight data info ov chap with
  | Ok ps => ps ≠ [] ∧ validate_for_volume_auth chap (va_auth info) = Ok tt
  | Err _ => True
  | _ => False
  end.
Proof.
  unfold preflight, mbind, outcome_bind.
  assert (Hv : ∀ auth, match validate_for_volume_auth chap auth with Ok _ | Err _ => True | _ => False end).
  { intros auth. unfold validate_for_volume_auth. by repeat case_match. }
  assert (Hr : ∀ info b, match resolve_portals info ov b with Ok ps => ps ≠ [] | Err _ => True | _ => False end).
  { intros info' b. destruct (resolve_portals info' ov b) eqn:Hp;
      [by eapply resolve_portals_some|done|..]; revert Hp; unfold resolve_portals; by repeat case_match. }
  specialize (Hr info (Js.get_str "bind" data)). specialize (Hv (va_auth info)).
  destruct (resolve_portals _ _ _); [|done..].
  destruct (validate_for_volume_auth _ _) as [[]| | |] eqn:?; done.
Qed.

(** Talking to the daemon runs no command. *)
Lemma exchange_printed {A} sock (m : M Socket string A) st : ct_printed (exchange sock m st).2 = ct_printed st.
Proof. unfold exchange. destruct (connect sock (ct_world st)) as [[]|]; [|done]. by destruct (m _). Qed.
Lemma fetch_printed sock volume st : ct_printed (fetch_volume_attach sock volume st).2 = ct_printed st.
Proof.
  unfold fetch_volume_attach, mbind, M_bind.
  pose proof (exchange_printed sock (Wire.call_admin stats_request) st) as Hp.
  destruct (exchange sock _ st) as [[resp| | |] st1]; try done. unfold lift.
  destruct (response_data _ _); try done. by destruct (lookup_volume_attach_from_stats _ _).
Qed.
Lemma connect_printed sock volume ov chap st data info st1 :
  fetch_volume_attach sock volume st = (Ok (data, info), st1) →
  ct_printed (run_volume_connect sock volume ov chap st).2 = ct_printed (attach data info ov chap st1).2.
Proof.
  intros Hf. unfold run_volume_connect, mbind, M_bind. rewrite Hf.
  by destruct (attach data info ov chap st1) as [[]].
Qed.

(** What [volume connect] does. The volume, the portals and the
    credentials are checked before anything is run, and a refusal runs nothing.
    Otherwise the commands announced are the plan: one discovery through the
    first portal, then for every portal the CHAP settings and the login; all of
    it on success, and on an error a non-empty part of it, up to the command
    that failed. *)
Theorem connect_follows_plan data info ov chap st :
  match preflight data info ov chap with
  | Ok portals =>
      portals ≠ [] ∧
      ∃ n, let r := attach data info ov chap st in
        ct_printed r.2 = ct_printed st ++ take n (plan (va_iqn info) chap portals) ∧
        (n ≤ length (plan (va_iqn info) chap portals))%nat ∧
        match r.1 with
        | Ok _ => n = length (plan (va_iqn info) chap portals)
        | Err _ => (0 < n)%nat
        | _ => False
        end
  | Err e => attach data info ov chap st = (Err e, st)
  | _ => False
  end.
Proof.
  pose proof (preflight_total data info ov chap) as Hp. rewrite attach_runs_plan.
  destruct (preflight data info ov chap) as [ps| | |]; [|done..].
  split; [by destruct Hp|]. destruct (run_all_prefix (plan (va_iqn info) chap ps) st) as (n & Hn & Hl & Hr).
  exists n. unfold mbind, M_bind. by destruct (run_all _ st) as [[]].
Qed.

(** ** CHAP before login *)
Lemma login_not_update iqn p portal name value : login_args iqn p ≠ update_args iqn portal name value.
Proof. unfold login_args, update_args, node_args. simpl. congruence. Qed.

Lemma chap_plan_no_login iqn portal chap p : login_args iqn p ∉ chap_plan iqn portal chap.
Proof.
  unfold chap_plan. destruct (cc_username chap), (cc_password chap); [|apply not_elem_of_nil..].
  rewrite elem_of_app, !elem_of_cons. pose proof (login_not_update iqn p portal) as Hn.
  destruct (cc_mutual_username chap), (cc_mutual_password chap); rewrite ?elem_of_cons, ?elem_of_nil; naive_solver.
Qed.

Lemma login_after_chap iqn chap ps i p :
  (ps ≫= portal_plan iqn chap) !! i = Some (login_args iqn p) →
  chap_plan iqn p chap ⊆ take i (ps ≫= portal_plan iqn chap).
Proof.
  revert i. induction ps as [|q ps IH]; intros i; [done|].
  change ((q :: ps) ≫= portal_plan iqn chap)
    with (portal_plan iqn chap q ++ (ps ≫= portal_plan iqn chap)).
  intros [Hi|[Hle Hi]]%lookup_app_Some.
  - unfold portal_plan in Hi. apply lookup_app_Some in Hi as [Hi|[Hle Hi]].
    { apply list_elem_of_lookup_2 in Hi. by apply chap_plan_no_login in Hi. }
    apply list_lookup_singleton_Some in Hi as [Hz Hq].
    assert (i = length (chap_plan iqn q chap)) as -> by lia. injection Hq as ->.
    unfold portal_plan at 1. rewrite <- app_assoc, take_app_length. done.
  - etrans; [by apply IH|]. rewrite take_app_ge by done. intros x Hx. apply elem_of_app. by right.
Qed.

Lemma plan_login_after_chap iqn chap ps i p :
  plan iqn chap ps !! i = Some (login_args iqn p) →
  chap_plan iqn p chap ⊆ take i (plan iqn chap ps).
Proof.
  unfold plan. destruct ps as [|q ps]; [done|]. cbn [take map]. destruct i as [|i]; [done|].
  intros Hi. etrans; [exact (login_after_chap iqn chap (q :: ps) i p Hi)|]. intros x Hx. by right.
Qed.

(** C36: CHAP before every login. On a volume whose stats say it authenticates
    its initiators, whenever the client has logged in to a portal it had
    before that set the CHAP method, user and password of that portal; for
    mutual CHAP also those of the target. *)
Theorem connect_chap_first sock volume ov chap st data info st1 i p :
  fetch_volume_attach sock volume st = (Ok (data, info), st1) → va_auth info ≠ "none" →
  let cmds := drop (length (ct_printed st)) (ct_printed (run_volume_connect sock volume ov chap st).2) in
  let update := update_args (va_iqn info) p in
  cmds !! i = Some (login_args (va_iqn info) p) →
  ∃ user pass, cc_username chap = Some user ∧ cc_password chap = Some pass ∧
    [update "node.session.auth.authmethod" "CHAP"; update "node.session.auth.username" user;
     update "node.session.auth.password" pass] ⊆ take i cmds ∧
    (va_auth info = "mutual-chap" → ∃ mu mp,
      cc_mutual_username chap = Some mu ∧ cc_mutual_password chap = Some mp ∧
      [update "node.session.auth.username_in" mu; update "node.session.auth.password_in" mp] ⊆ take i cmds).
Proof.
  intros Hf Ha cmds update. subst cmds. rewrite (connect_printed _ _ _ _ _ _ _ _ Hf), attach_runs_plan.
  pose proof (fetch_printed sock volume st) as Hst. rewrite Hf in Hst. cbn [snd] in Hst.
  pose proof (preflight_total data info ov chap) as Hp.
  destruct (preflight data info ov chap) as [ps| | |]; try done;
    [|cbn [snd]; rewrite Hst; by rewrite drop_all].
  destruct Hp as [_ Hv].
  destruct (run_all_prefix (plan (va_iqn info) chap ps) st1) as (n & Hn & _ & _).
  assert (Hpr : ct_printed ((_ ← run_all (plan (va_iqn info) chap ps); mret ps) st1).2 =
    ct_printed st ++ take n (plan (va_iqn info) chap ps)).
  { rewrite <- Hst, <- Hn. unfold mbind, M_bind. by destruct (run_all _ st1) as [[]]. }
  rewrite Hpr, drop_app_length. intros [Hi Hin]%lookup_take_Some.
  rewrite take_take, Nat.min_l by lia. apply plan_login_after_chap in Hi.
  revert Hi Hv. unfold chap_plan, validate_for_volume_auth, has_one_way, has_mutual.
  destruct (cc_username chap) as [user|], (cc_password chap) as [pass|]; cbn [is_some andb negb];
    try (by repeat case_decide).
  intros Hsub Hv. exists user, pass. split_and!; [done..|set_solver|].
  intros Hm. rewrite Hm in Hv. destruct (cc_mutual_username chap) as [mu|], (cc_mutual_password chap) as [mp|];
    try done. exists mu, mp. set_solver.
Qed.

(** ** Waiting for a device *)
Lemma devices_in_ends w iqn names :
  match devices_in w iqn names with Ok _ | Err _ => True | _ => False end.
Proof.
  induction names as [|name names IH]; [done|]. cbn [devices_in]. destruct (_ || _); [done|].
  destruct (canonicalize _ _); [|done]. by destruct (devices_in w iqn names).
Qed.
Lemma find_ends iqn w : match find_local_devices iqn w with Ok _ | Err _ => True | _ => False end.
Proof.
  unfold find_local_devices. destruct (negb _); [done|]. destruct (read_dir BY_PATH w) as [l|]; [|done].
  pose proof (devices_in_ends w iqn l) as Hd. by destruct (devices_in w iqn l).
Qed.

Lemma poll_eq iqn deadline x st :
  poll_devices iqn deadline x st =
  match find_local_devices iqn (ct_world st) with
  | Ok [] => if deadline <=? instant_now (ct_world st) then (Ok (inr []), st)
             else (Ok (inl tt), set_world (sleep PAUSE (ct_world st)) st)
  | Ok l => (Ok (inr l), st)
  | Err e => (Err e, st)
  | Panic => (Panic, st)
  | OutOfFuel => (OutOfFuel, st)
  end.
Proof.
  unfold poll_devices, mbind, M_bind, ask, gets, lift.
  destruct (find_local_devices iqn (ct_world st)) as [[|d l]| | |]; try done.
  simpl. by destruct (deadline <=? instant_now (ct_world st)).
Qed.

(** Nothing said, sent or run. *)
Definition quiet st st' : Prop :=
  ct_stdout st' = ct_stdout st ∧ ct_printed st' = ct_printed st ∧ ct_sent st' = ct_sent st.

(** Enough looks for the time that is left. *)
Lemma poll_ends `{!HostLaws W} iqn deadline n st :
  deadline - instant_now (ct_world st) ≤ PAUSE * Z.of_nat n →
  wp (while (S n) polling (poll_devices iqn deadline) (inl tt))
    (λ r st', quiet st st' ∧ ∃ l, r = inr l ∧ find_local_devices iqn (ct_world st') = Ok l)
    (λ _ st', quiet st st') st.
Proof.
  revert st. induction n as [|n IH]; intros st Hn; cbn [while polling];
    unfold wp, mbind, M_bind; rewrite poll_eq; pose proof (find_ends iqn (ct_world st)) as He;
    destruct (find_local_devices iqn (ct_world st)) as [[|d l]|e| |] eqn:Hf; try done;
    try (split; [done|]; by eauto).
  - destruct (Z.leb_spec deadline (instant_now (ct_world st))); [|lia]. split; [done|by exists []].
  - destruct (Z.leb_spec deadline (instant_now (ct_world st))) as [|Hlt]; [split; [done|by exists []]|].
    apply (IH (set_world (sleep PAUSE (ct_world st)) st)). simpl.
    pose proof (sleep_advances PAUSE (ct_world st) ltac:(done)). unfold PAUSE in *. lia.
Qed.

Lemma println_all lines st :
  for_each lines (λ line _, println line) tt st =
  (Ok tt, {| ct_world := ct_world st; ct_printed := ct_printed st; ct_sent := ct_sent st;
             ct_stdout := ct_stdout st ++ lines |}).
Proof.
  revert st. induction lines as [|line lines IH]; intros st; cbn [for_each].
  - rewrite app_nil_r. by destruct st.
  - unfold mbind, M_bind, println at 1, modify. rewrite IH. simpl. by rewrite <- app_assoc.
Qed.

Lemma exchange_ends {A} sock (m : M Socket string A) st :
  (∀ so, so_open so = false → match (m so).1 with Ok _ | Err _ => True | _ => False end) →
  match exchange sock m st with
  | (Ok _, st') | (Err _, st') => ct_stdout st' = ct_stdout st ∧ ct_printed st' = ct_printed st
  | _ => False
  end.
Proof.
  intros Hm. unfold exchange. destruct (connect sock (ct_world st)) as [[inc room]|]; [|done].
  specialize (Hm {| so_in := inc; so_out := []; so_room := room; so_open := false |} eq_refl).
  by destruct (m _) as [[] ?].
Qed.
Lemma write_all_ends data so : match (Image.write_all data so).1 with Ok _ | Err _ => True | _ => False end.
Proof. unfold Image.write_all. destruct (so_room so); [|done]. by destruct (_ <=? _). Qed.
Lemma write_all_open data so : so_open (Image.write_all data so).2 = so_open so.
Proof. unfold Image.write_all. destruct (so_room so); [|done]. by destruct (_ <=? _). Qed.
Lemma call_admin_ends req so :
  so_open so = false → match (Wire.call_admin req so).1 with Ok _ | Err _ => True | _ => False end.
Proof.
  intros Ho.
  unfold Wire.call_admin, Wire.write_json_line, Wire.saying, mbind, M_bind, map_err.
  pose proof (write_all_ends (as_bytes (json_to_string req)) so) as H1.
  pose proof (write_all_open (as_bytes (json_to_string req)) so) as Ho1.
  destruct (Image.write_all (as_bytes (json_to_string req)) so) as [[[]| | |] so1]; try done.
  pose proof (write_all_ends (as_bytes newline) so1) as H2. pose proof (write_all_open (as_bytes newline) so1) as Ho2.
  destruct (Image.write_all (as_bytes newline) so1) as [[[]| | |] so2]; try done.
  simpl in Ho1, Ho2. unfold Wire.read_line. destruct (Wire.split_line _). unfold Wire.parse_line.
  rewrite Ho2, Ho1, Ho. simpl. by destruct (json_from_str _).
Qed.
Lemma fetch_ends sock volume st :
  match fetch_volume_attach sock volume st with
  | (Ok _, st') | (Err _, st') => ct_stdout st' = ct_stdout st ∧ ct_printed st' = ct_printed st
  | _ => False
  end.
Proof.
  unfold fetch_volume_attach, mbind, M_bind.
  pose proof (exchange_ends sock (Wire.call_admin stats_request) st (call_admin_ends _)) as He.
  destruct (exchange sock _ st) as [[resp| | |] st1]; try done. unfold lift.
  assert (Hr : ∀ o r, match response_data o r with Ok _ | Err _ => True | _ => False end)
    by (intros o r; unfold response_data; by destruct (Js.is_true _)).
  specialize (Hr "stats failed" resp). destruct (response_data _ _) as [data| | |]; try done.
  assert (Hl : match lookup_volume_attach_from_stats data volume with Ok _ | Err _ => True | _ => False end)
    by (unfold lookup_volume_attach_from_stats; by repeat case_match).
  by destruct (lookup_volume_attach_from_stats data volume).
Qed.

(** C38: Looking a device up ends. Unless the end of the wait is past the last
    instant, [volume device] returns; it runs no command, an error prints nothing,
    and on success the last line names a device that is there: the first multipath
    map over the devices found, or else the first of them. *)
Theorem volume_device_ends `{!HostLaws W} sock volume wait st :
  (∀ st1 r, fetch_volume_attach sock volume st = (r, st1) →
     (instant_now (ct_world st1) + Z.max wait 1 * SECOND) / SECOND ≤ LAST) →
  match run_volume_device sock volume wait st with
  | (Ok _, st') => ct_printed st' = ct_printed st ∧ ∃ iqn l d lines,
      find_local_devices iqn (ct_world st') = Ok l ∧ preferred l = Some d ∧
      ct_stdout st' = ct_stdout st ++ lines ++ ["device: " +:+ d]
  | (Err _, st') => ct_printed st' = ct_printed st ∧ ct_stdout st' = ct_stdout st
  | _ => False
  end.
Proof.
  intros Hlast. pose proof (fetch_ends sock volume st) as Hf. unfold run_volume_device, mbind, M_bind.
  destruct (fetch_volume_attach sock volume st) as [[[data info]| | |] st1] eqn:Hft; try done; [|naive_solver].
  destruct Hf as [Hout Hpr]. unfold ask, gets. cbv beta iota zeta.
  rewrite (proj2 (Z.leb_le _ _) (Hlast _ _ eq_refl)). unfold mret at 1, M_ret at 1. cbv beta iota.
  set (deadline := instant_now (ct_world st1) + Z.max wait 1 * SECOND).
  assert (Hn : Z.to_nat (Z.max wait 1 * 5 + 1) = S (Z.to_nat (Z.max wait 1 * 5))) by lia. rewrite Hn.
  pose proof (poll_ends (va_iqn info) deadline (Z.to_nat (Z.max wait 1 * 5)) st1) as Hp. unfold wp in Hp.
  destruct (while _ _ _ _ st1) as [[r|e| |] st2]; [..|destruct Hp|destruct Hp];
    try (unfold deadline, SECOND, PAUSE; lia).
  - destruct Hp as [(Ho2 & Hp2 & _) (l & -> & Hl)]; [unfold deadline, SECOND, PAUSE; lia|].
    destruct l as [|d l]; [split; congruence|]. rewrite println_all. cbn [ct_printed ct_stdout ct_world].
    split; [congruence|].
    destruct (preferred (d :: l)) as [m|] eqn:Hm; [|by revert Hm; unfold preferred; destruct (omap _ _)].
    exists (va_iqn info), (d :: l), m. eexists. split; [done|]. split; [done|].
    rewrite Ho2, Hout. f_equal. etrans; [apply app_assoc|reflexivity].
  - destruct Hp as (Ho2 & Hp2 & _); [unfold deadline, SECOND, PAUSE; lia|]. split; congruence.
Qed.
End connect.

(** ** A small set-up *)
Section witnesses.
Import MetricsTheorems.MemProm ConcreteWire.

Definition disk1 : VolumeSummary :=
  {| vs_name := "disk1"; vs_iqn := "iqn.2024-01.com.example:disk1"; vs_capacity := 4096;
     vs_auth := "chap"; vs_prefix := "disk1"; vs_chunk_size := 4096; vs_compression := "none";
     vs_storage := "cow"; vs_write_cache := "none"; vs_write_cache_max_bytes := 0;
     vs_write_buffer_max_bytes := 0 |}.
Definition snapshot (portals : list string) : AdminSnapshot :=
  {| as_bind := "0.0.0.0:4000"; as_portals := portals; as_instance := None; as_volumes := [disk1];
     as_cache_max_bytes := 0; as_s3_bucket := Some "b"; as_s3_endpoint := None; as_s3_region := "r";
     as_s3_force_path_style := false; as_performance_optimiser := false |}.
Definition daemon_with (portals : list string) : AdminState MemS3.bucket :=
  Admin.with_snapshot (snapshot portals) AdminTheorems.daemon.
Definition two_portals : Config :=
  {| cfg_bind := "0.0.0.0:4000"; cfg_advertise := None; cfg_portals := ["10.0.0.1"; "10.0.0.2:3260"];
     cfg_instance := None; cfg_auth := None;
     cfg_s3 := {| s3_bucket := Some "b"; s3_region := "r"; s3_endpoint := None;
                  s3_force_path_style := false; s3_access_key_id := None;
                  s3_secret_access_key := None |};
     cfg_cache := {| cac_max_bytes := 0 |};
     cfg_metrics := {| mc_enabled := true; mc_bind := "0.0.0.0:9090" |};
     cfg_admin := {| adc_enabled := true; adc_socket := Conf.DEFAULT_ADMIN_SOCKET |};
     cfg_performance_optimiser := false; cfg_volumes := [] |}.
Definition announced : list string := ["10.0.0.1:4000"; "10.0.0.2:3260"].
Definition attach_info : VolumeAttachInfo :=
  {| va_name := "disk1"; va_iqn := "iqn.2024-01.com.example:disk1"; va_auth := "chap";
     va_portals := announced |}.
Definition creds : ChapCredentials :=
  {| cc_username := Some "user"; cc_password := Some "pass"; cc_mutual_username := None;
     cc_mutual_password := None |}.

(** A host whose [iscsiadm] succeeds a number of times, whose daemon has two
    portals, and whose clock is the second number. *)
Definition by_path_name : string := "ip-10.0.0.1:4000-iscsi-iqn.2024-01.com.example:disk1-lun-0".
#[local] Instance host : Host (nat * Z) := {
  iscsiadm _ w :=
    match w with
    | (O, t) => (inl (false, "exit status: 21"), (O, t))
    | (S n, t) => (inl (true, "exit status: 0"), (n, t))
    end;
  connect _ _ := inl (as_bytes (json_to_string (AdminOps.ok (AdminOps.stats_json (daemon_with announced))) +:+ newline), None);
  hang_up _ _ w := w;
  stdin_is_terminal _ := false; read_stdin_line w := (inr "closed", w); env_var _ _ := None;
  file_len _ _ := inr "no file"; open_file _ _ := inr "no file"; create_file _ w := (inr "read only", w);
  close_file _ _ w := w;
  is_dir _ _ := true;
  read_dir p w := if String.eqb p BY_PATH && (2 * SECOND <=? w.2) then inl [by_path_name] else inl [];
  canonicalize _ _ := inl "/dev/sdb"; read_to_string _ _ := inr "no file";
  instant_now := snd; sleep n w := (w.1, w.2 + Z.max 0 n)
}.
#[local] Instance host_laws : HostLaws (nat * Z).
Proof. intros n w Hn. simpl. lia. Qed.
Definition start : Ctl (nat * Z) := {| ct_world := (6%nat, 0); ct_printed := []; ct_sent := []; ct_stdout := [] |}.

Lemma client_uses_daemon_portals_witness :
  Portals.resolve_portals two_portals = Ok announced ∧
  resolve_portals attach_info None (Js.get_str "bind" (AdminOps.stats_json (daemon_with announced))) = Ok announced.
Proof.
  split; [reflexivity|].
  refine (client_uses_daemon_portals two_portals (daemon_with announced) "disk1" attach_info announced _ _ _ _ _ _).
  - repeat constructor.
  - exact I.
  - reflexivity.
  - discriminate.
  - reflexivity.
  - rewrite lookup_stats. reflexivity.
Defined.
(** The client reads the stats of the host's daemon. *)
Definition told (st : Ctl (nat * Z)) : Ctl (nat * Z) :=
  {| ct_world := ct_world st; ct_printed := ct_printed st; ct_sent := ct_sent st ++ [WireSpec.line stats_request];
     ct_stdout := ct_stdout st |}.
Lemma fetched sock st :
  fetch_volume_attach sock "disk1" st = (Ok (AdminOps.stats_json (daemon_with announced), attach_info), told st).
Proof.
  unfold fetch_volume_attach, exchange, connect, host, mbind at 1, M_bind at 1.
  rewrite <- (app_nil_r (as_bytes _)).
  change (as_bytes (json_to_string ?v +:+ newline)) with (WireSpec.line v). rewrite WireSpec.call_admin_json.
  unfold mbind, M_bind, lift, response_data, AdminOps.ok. autorewrite with js. simpl. by rewrite lookup_stats.
Qed.

(** The fifth command is the login through the first portal. *)
Lemma connect_chap_first_witness :
  let cmds := drop 0 (ct_printed (run_volume_connect "sock" "disk1" None creds start).2) in
  let update := update_args "iqn.2024-01.com.example:disk1" "10.0.0.1:4000" in
  cmds !! 4%nat = Some (login_args "iqn.2024-01.com.example:disk1" "10.0.0.1:4000") ∧
  ∃ user pass, cc_username creds = Some user ∧ cc_password creds = Some pass ∧
    [update "node.session.auth.authmethod" "CHAP"; update "node.session.auth.username" user;
     update "node.session.auth.password" pass] ⊆ take 4 cmds ∧
    (va_auth attach_info = "mutual-chap" → ∃ mu mp,
      cc_mutual_username creds = Some mu ∧ cc_mutual_password creds = Some mp ∧
      [update "node.session.auth.username_in" mu; update "node.session.auth.password_in" mp] ⊆ take 4 cmds).
Proof.
  intros cmds update.
  assert (Hi : cmds !! 4%nat = Some (login_args (va_iqn attach_info) "10.0.0.1:4000")).
  { pose proof (connect_printed "sock" "disk1" None creds start _ attach_info _ (fetched "sock" start)) as Hp.
    rewrite attach_runs_plan in Hp. unfold preflight in Hp. rewrite bind_stats in Hp.
    unfold cmds. rewrite Hp. reflexivity. }
  split; [exact Hi|].
  exact (connect_chap_first "sock" "disk1" None creds start _ attach_info _ 4 "10.0.0.1:4000"
    (fetched "sock" start) ltac:(discriminate) Hi).
Defined.

(** The device shows up after two seconds. *)
Lemma volume_device_ends_witness :
  match run_volume_device "sock" "disk1" 3 start with
  | (Ok _, st') => ct_printed st' = ct_printed start ∧ ∃ iqn l d lines,
      find_local_devices iqn (ct_world st') = Ok l ∧ preferred l = Some d ∧
      ct_stdout st' = ct_stdout start ++ lines ++ ["device: " +:+ d]
  | (Err _, st') => ct_printed st' = ct_printed start ∧ ct_stdout st' = ct_stdout start
  | _ => False
  end.
Proof.
  assert (Hlast : ∀ st1 r, fetch_volume_attach "sock" "disk1" start = (r, st1) →
    (instant_now (ct_world st1) + Z.max 3 1 * SECOND) / SECOND ≤ LAST).
  { intros st1 r Hf. rewrite fetched in Hf. injection Hf as <- <-.
    change (instant_now (ct_world (told start))) with 0. vm_compute. congruence. }
  pose proof (volume_device_ends "sock" "disk1" 3 start Hlast) as Hd. exact Hd.
Defined.
Example device_appears :
  (while 20 polling (poll_devices "iqn.2024-01.com.example:disk1" (3 * SECOND)) (inl tt) start).1 =
  Ok (inr [{| ld_by_path := BY_PATH +:+ "/" +:+ by_path_name; ld_block := "/dev/sdb"; ld_mapper := None |}]).
Proof. vm_compute. reflexivity. Qed.

(** A reload puts the configured portals into the stats without resolving them:
    the daemon still announces port 4000, and the client now goes to 3260. *)
Example reload_hides_port :
  Portals.resolve_portals two_portals = Ok announced ∧
  Admin.reloaded_portals (snapshot announced) two_portals = ["10.0.0.1"; "10.0.0.2:3260"] ∧
  (info ← lookup_volume_attach_from_stats (AdminOps.stats_json
            (daemon_with (Admin.reloaded_portals (snapshot announced) two_portals))) "disk1";
   resolve_portals info None (Some "0.0.0.0:4000")) = Ok ["10.0.0.1:3260"; "10.0.0.2:3260"].
Proof. split_and!; [reflexivity..|]. rewrite lookup_stats. reflexivity. Qed.
End witnesses.
End ClientTheorems.
