(* ===== verification/Ctl.v ===== *)
(** * The control client (src/src/bin/iscsi-s3-ctl.rs)

    The main function: the commands that stream images or work locally, the
    confirmation of destructive ones, the request, the output and the exit code. *)
From S2P Require Import Prelude Text Store Config Images Value Wire Commands Print Client.
#[local] Open Scope string_scope.
#[local] Open Scope list_scope.
#[local] Open Scope Z_scope.
Import Text.

Module Ctl.
Import Client Request Print.

Section main.
Context {W : Type} `{Host W} `{Value.Wire} `{Conf.ByteSize}.
Abbreviation MC := (M (Ctl W) string).

Definition socket_path (socket : option string) (w : W) : string :=
  match socket with
  | Some p => p
  | None => default Conf.DEFAULT_ADMIN_SOCKET (env_var "ISCSI_S3_ADMIN_SOCKET" w)
  end.

Definition confirm_yes (force : bool) (action : string) : MC unit :=
  if force then mret tt
  else
    tty ← ask stdin_is_terminal;
    if negb tty then
      throw ("refusing destructive " +:+ action +:+ " without --force when stdin is not a TTY")
    else
      r ← on_world read_stdin_line;
      match r with
      | inr e => throw ("read confirmation: " +:+ e)
      | inl line =>
          if String.eqb (trim line) "yes" then mret tt
          else throw "aborted (confirmation was not 'yes')"
      end.

(** The commands that ask first: whether forced, and what to call them. *)
Definition confirmation (cmd : Commands) : option (bool * string) :=
  match cmd with
  | VolumeCommand (Copy _ _ force _) => Some (force, "volume copy")
  | VolumeCommand (Wipe _ force) => Some (force, "volume wipe")
  | VolumeCommand (Gc _ force) => Some (force, "volume gc")
  | VolumeCommand (Snapshot (SnapshotDelete _ _ force)) => Some (force, "snapshot delete")
  | VolumeCommand (Snapshot (SnapshotRestore _ _ force)) => Some (force, "snapshot restore")
  | VolumeCommand (MigrateCow _ force) => Some (force, "migrate-cow")
  | _ => None
  end.

(** ** Exit codes: 0 for success, 1 for a failure reported by or on the way to
    the daemon, 2 when it was not even asked. *)
Definition finish_response (format : OutputFormat) (cmd : Commands) (resp : Value) : MC Z :=
  let ok := default false (v ← Js.get "ok" resp; Js.as_bool v) in
  let health_degraded := match cmd with
    | Health => negb (bool_decide ((v ← Js.pointer ["data"; "status"] resp; Js.as_str v) = Some "ok"))
    | _ => false
    end in
  let code := if ok && negb health_degraded then 0 else 1 in
  match format with
  | FormatJson => _ ← println (json_to_string_pretty resp); mret code
  | FormatText =>
      match print_text cmd resp with
      | Ok lines => _ ← for_each lines (λ line _, println line) tt; mret code
      | _ => mret 1
      end
  end.
(** A call's result; an error is printed to stderr. *)
Definition finish (format : OutputFormat) (cmd : Commands) (r : Value + string) : MC Z :=
  match r with inl resp => finish_response format cmd resp | inr _ => mret 1 end.

(** ** Images

    A connection beside a local file, which [close] puts back. *)
Definition exchange_file {A} (sock : string) (file : Socket) (close : bytes → W → W)
    (m : M (Socket * Socket) string A) : MC A := λ st,
  match connect sock (ct_world st) with
  | inr e => (Err ("connect " +:+ sock +:+ ": " +:+ e), set_world (close (so_out file) (ct_world st)) st)
  | inl (incoming, room) =>
      let '(r, (c, f)) := m ({| so_in := incoming; so_out := []; so_room := room; so_open := false |}, file) in
      (r, {| ct_world := close (so_out f) (hang_up sock (so_out c) (ct_world st));
             ct_printed := ct_printed st; ct_sent := ct_sent st ++ [so_out c]; ct_stdout := ct_stdout st |})
  end.

Definition run_write_image (format : OutputFormat) (sock volume file : string) : MC Z :=
  meta ← ask (file_len file);
  contents ← ask (open_file file);
  match meta, contents with
  | inl size, inl contents =>
      r ← attempt (exchange_file sock {| so_in := contents; so_out := []; so_room := None; so_open := false |} (λ _ w, w)
            (Wire.call_admin_write_image volume size));
      finish format (VolumeCommand (WriteImage volume file)) r
  | _, _ => mret 2
  end.

Definition run_export (format : OutputFormat) (sock volume file : string) (size : option string) : MC Z :=
  match (match size with Some s => n ← Conf.parse_byte_size s; Ok (Some n) | None => Ok None end) with
  | Ok n =>
      f ← on_world (create_file file);
      match f with
      | inr _ => mret 2
      | inl room =>
          r ← attempt (exchange_file sock {| so_in := []; so_out := []; so_room := room; so_open := false |} (close_file file)
                (Wire.call_admin_export volume n));
          finish format (VolumeCommand (Export volume file size)) r
      end
  | Err _ => mret 2
  | Panic => panic
  | OutOfFuel => λ c, (OutOfFuel, c)
  end.

(** ** The main function *)
Definition locally (m : MC unit) : MC Z :=
  r ← attempt m; mret (match r with inl _ => 0 | inr _ => 1 end).

Definition main (socket : option string) (format : OutputFormat) (cmd : Commands) : MC Z :=
  sock ← ask (socket_path socket);
  match cmd with
  | VolumeCommand (WriteImage volume file) => run_write_image format sock volume file
  | VolumeCommand (Export volume file size) => run_export format sock volume file size
  | VolumeCommand (Connect volume portal username password mutual_username mutual_password) =>
      chap ← ask (λ w, resolve (λ k, env_var k w) username password mutual_username mutual_password);
      locally (run_volume_connect sock volume portal chap)
  | VolumeCommand (Disconnect volume portal) => locally (run_volume_disconnect sock volume portal)
  | VolumeCommand (VolumeDevice volume wait) => locally (run_volume_device sock volume wait)
  | _ =>
      confirmed ← match confirmation cmd with
                  | Some (force, action) => attempt (confirm_yes force action)
                  | None => mret (inl tt)
                  end;
      match (confirmed : unit + string) with
      | inr _ => mret 2
      | inl _ =>
          match build_request cmd with
          | Ok req => r ← attempt (exchange sock (Wire.call_admin req)); finish format cmd r
          | Err _ => mret 2
          | Panic => panic
          | OutOfFuel => λ c, (OutOfFuel, c)
          end
      end
  end.
End main.
End Ctl.
