(* ===== verification/CtlTheorems.v ===== *)
(** * Properties of the control client

    The daemon understands every request the client can make, the client sends
    nothing destructive without consent, and its exit code is the daemon's
    answer. *)
From S2P Require Import Prelude Tables Text Store Compression Snapshot S3Api S3Keys S3Store S3Snap.
From S2P Require Import Concrete Cache CachedStore WriteBuffer WriteCache WriteBack Ready Stack Config Images.
From S2P Require Import Value Wire WireSpec ConcreteWire Float Metrics Sessions MetricsTheorems Portals Admin AdminOps.
From S2P Require Import Load AdminTheorems Transfer Commands Print Client Ctl ClientTheorems.
#[local] Open Scope string_scope.
#[local] Open Scope list_scope.
#[local] Open Scope Z_scope.
Import Text.

Module CtlTheorems.
Import Client Request Print Ctl WireSpec Transfer.

Lemma parse_byte_size_u64 `{ByteSizeLaws} s n : Conf.parse_byte_size s = Ok n → is_u64 n.
Proof.
  unfold Conf.parse_byte_size. destruct (Conf.parse_uint _ _) as [r|] eqn:Hr.
  - intros [= <-]. by eapply Portals.parse_uint_bounds.
  - destruct (Conf.bytesize_parse _) as [r|] eqn:Hb; [|done]. intros [= <-]. by eapply bytesize_u64.
Qed.

(** ** The daemon does what the command says *)
Section requests.
Context {B : Type} `{S3Client B} `{Codecs} `{Blake3} `{Json} `{StampJson} `{ByteSizeLaws} `{WireLaws} `{Prometheus}.
Context (load : string → outcome string Config) (head_bucket : M (Env B * Z) StoreError unit).
Abbreviation MA := (M (AdminState B) string).
Implicit Types st : AdminState B.

(** A request about a volume. *)
Definition about (name volume : string) (id to : option string) (force : bool) : AdminRequest :=
  {| rq_op := name; rq_max_bytes := None; rq_volume := Some volume; rq_to := to; rq_size := None;
     rq_capacity := None; rq_id := id; rq_name := None; rq_force := force; rq_resume_from := None |}.

(** The handler a command asks for, with its arguments. *)
Definition intended (cmd : Commands) : MA Value :=
  match cmd with
  | Stats | CacheCommand CacheStatus => gets AdminOps.stats_json
  | Health => AdminOps.health_json head_bucket
  | Reload => AdminOps.reload load
  | CacheCommand CacheDisable => AdminOps.on_cache Cache.disable
  | CacheCommand (CacheEnable None) => AdminOps.on_cache (Cache.enable None)
  | CacheCommand (CacheEnable (Some s)) =>
      n ← lift (Conf.parse_byte_size s); AdminOps.on_cache (Cache.enable (Some n))
  | CacheCommand (CacheSet s) =>
      n ← lift (Conf.parse_byte_size s);
      AdminOps.on_cache (if n =? 0 then Cache.disable else Cache.enable (Some n))
  | VolumeCommand VolumeList => gets AdminOps.volume_list_json
  | VolumeCommand (S3Stats volume) => AdminOps.volume_s3_stats (Some volume)
  | VolumeCommand (Copy from to _ resume_from) => AdminOps.volume_copy (Some from) (Some to) resume_from
  | VolumeCommand (Wipe volume _) => AdminOps.volume_wipe (Some volume)
  | VolumeCommand (Gc volume _) => AdminOps.volume_gc (Some volume)
  | VolumeCommand (Grow volume capacity) => AdminOps.volume_grow (Some volume) (Some (JString capacity))
  | VolumeCommand (VolumeSessions volume) => gets (AdminOps.volume_sessions_json volume)
  | VolumeCommand (Snapshot (SnapshotCreate volume name force)) =>
      AdminOps.volume_snapshot_create (about "volume.snapshot.create" volume name None force)
  | VolumeCommand (Snapshot (SnapshotList volume)) => AdminOps.volume_snapshot_list (Some volume)
  | VolumeCommand (Snapshot (SnapshotDelete volume id _)) =>
      AdminOps.volume_snapshot_delete (about "volume.snapshot.delete" volume (Some id) None false)
  | VolumeCommand (Snapshot (SnapshotRestore volume id force)) =>
      AdminOps.volume_snapshot_restore (about "volume.snapshot.restore" volume (Some id) None force)
  | VolumeCommand (Snapshot (SnapshotClone volume id to)) =>
      AdminOps.volume_snapshot_clone (about "volume.snapshot.clone" volume (Some id) (Some to) false)
  | VolumeCommand (MigrateCow volume _) => AdminOps.volume_migrate_cow (Some volume)
  | VolumeCommand _ => throw "not a request"
  end.

(** The numbers on the command line are 64-bit. *)
Definition well_typed (cmd : Commands) : Prop :=
  match cmd with VolumeCommand (Copy _ _ _ (Some n)) => is_u64 n | _ => True end.

(** Looking fields up in an object that is built field by field. *)
#[local] Ltac fields :=
  unfold AdminOps.decode_request, Js.put_some, Js.put, op, Js.obj; cbn [list_to_map foldr fst snd];
  unfold AdminOps.decode_fields, AdminOps.opt_str, AdminOps.opt_u64, AdminOps.flag, AdminOps.opt_value;
  repeat first [rewrite lookup_insert_eq | rewrite lookup_insert_ne by discriminate | rewrite lookup_empty];
  unfold to_json, string_serialize, bool_serialize, Z_serialize; cbn [mbind outcome_bind].
(** A request whose fields are plain strings and flags. *)
#[local] Ltac plain := eexists; split; [fields; reflexivity|]; split; [discriminate|]; split; [discriminate|]; reflexivity.

Definition understood (cmd : Commands) (o : Value) : Prop :=
  ∃ req, AdminOps.decode_request o = Ok req ∧ rq_op req ≠ "volume.write_image" ∧ rq_op req ≠ "volume.export" ∧
    ∀ st, AdminOps.dispatch load head_bucket req st = AdminOps.reply (intended cmd) st.

Lemma parse_required_number n : is_u64 n → Admin.parse_required_max_bytes (Some (JNumber n)) = Ok n.
Proof. intros Hn. unfold Admin.parse_required_max_bytes, Admin.parse_max_bytes_value. by rewrite Js.as_u64_in. Qed.
Lemma parse_optional_number n : is_u64 n → Admin.parse_optional_max_bytes (Some (JNumber n)) = Ok (Some n).
Proof. intros Hn. unfold Admin.parse_optional_max_bytes, Admin.parse_max_bytes_value. by rewrite Js.as_u64_in. Qed.

Lemma cache_understood action o :
  build_request (CacheCommand action) = Ok o → understood (CacheCommand action) o.
Proof.
  destruct action as [| |[s|]|s]; simpl; [intros [= <-]; plain|intros [= <-]; plain| |intros [= <-]; plain|].
  - destruct (Conf.parse_byte_size s) as [n| | |] eqn:Hn; try done. intros [= <-].
    eexists. split; [fields; reflexivity|]. split; [done|]. split; [done|]. intros st. unfold intended. rewrite Hn.
    unfold AdminOps.dispatch. cbn [rq_op rq_max_bytes].
    by rewrite ?parse_optional_number, ?parse_required_number by (by eapply parse_byte_size_u64).
  - destruct (Conf.parse_byte_size s) as [n| | |] eqn:Hn; try done. intros [= <-].
    eexists. split; [fields; reflexivity|]. split; [done|]. split; [done|]. intros st. unfold intended. rewrite Hn.
    unfold AdminOps.dispatch. cbn [rq_op rq_max_bytes].
    by rewrite ?parse_optional_number, ?parse_required_number by (by eapply parse_byte_size_u64).
Qed.

Lemma volume_understood action o :
  well_typed (VolumeCommand action) → build_request (VolumeCommand action) = Ok o →
  understood (VolumeCommand action) o.
Proof.
  destruct action as [|v| |from to f [n|]|v f|v f|v cap|[v|]| | | | |[v [name|] f|v|v id f|v id f|v id to]|v f];
    intros Ht; try (intros [= <-]; plain); try done.
  - intros [= <-]. simpl in Ht. eexists. split; [fields; rewrite Js.as_u64_in by done; reflexivity|].
    split; [done|]. split; [done|]. reflexivity.
  - simpl. destruct (Conf.parse_byte_size cap) as [n| | |] eqn:Hn; try done. intros [= <-].
    eexists. split; [fields; reflexivity|]. split; [done|]. split; [done|]. intros st.
    unfold intended, AdminOps.dispatch, AdminOps.volume_grow. cbn [rq_op rq_capacity rq_volume].
    rewrite parse_required_number by (by eapply parse_byte_size_u64).
    change (Admin.parse_required_max_bytes (Some (JString cap))) with (Conf.parse_byte_size cap). by rewrite Hn.
Qed.

Lemma build_understood cmd o : well_typed cmd → build_request cmd = Ok o → understood cmd o.
Proof.
  intros Ht. destruct cmd as [| |action|action|]; try (intros [= <-]; plain);
    [apply cache_understood|by apply volume_understood].
Qed.

(** C25: The daemon does what the command line says. For every command that is a
    request, the line the client writes is read by the daemon as a request for
    exactly the operation the command names, with exactly its arguments; and the
    client that reads the daemon's line returns that operation's reply or error. *)
Theorem requests_understood cmd req st v st' :
  well_typed cmd → build_request cmd = Ok req → AdminOps.reply (intended cmd) st = (Ok v, st') →
  AdminOps.handle_client load head_bucket (st, {| so_in := line req; so_out := []; so_room := None; so_open := false |}) =
    (Ok tt, (st', {| so_in := []; so_out := line v; so_room := None; so_open := false |})) ∧
  Wire.call_admin req {| so_in := line v; so_out := []; so_room := None; so_open := false |} =
    (Ok v, {| so_in := []; so_out := line req; so_room := None; so_open := false |}).
Proof.
  intros Ht Hb Hv. destruct (build_understood cmd req Ht Hb) as (rq & Hd & Hw & He & Hdis). split.
  - rewrite <- (app_nil_r (line req)). rewrite (handle_client_line load head_bucket req [] rq st [] Hd).
    rewrite (proj2 (String.eqb_neq _ _) Hw), (proj2 (String.eqb_neq _ _) He).
    rewrite <- Hdis in Hv. rewrite (run_bind _ _ _ _ _ (run_admin _ _ _ _ _ Hv)).
    apply run_stream. exact (write_json_line_json v [] []).
  - pose proof (call_admin_json (op := false) req v [] []) as Hc. by rewrite app_nil_r in Hc.
Qed.
End requests.

(** ** Asking first, and exit codes *)
Section main.
Context {W : Type} `{Host W} `{Value.Wire} `{Conf.ByteSize}.
Implicit Types (st : Ctl W) (w : W).

(** The user agreed: by [--force], or by typing yes at a terminal. *)
Definition said_yes (force : bool) w : Prop :=
  force = true ∨ stdin_is_terminal w = true ∧ ∃ line, (read_stdin_line w).1 = inl line ∧ trim line = "yes".
Definition consent w (cmd : Commands) : Prop :=
  match confirmation cmd with None => True | Some (force, _) => said_yes force w end.
(** The daemon's answer is a success; for health, it is also healthy. *)
Definition succeeded (cmd : Commands) (resp : Value) : Prop :=
  Js.get "ok" resp = Some (JBool true) ∧
  (cmd = Health → (v ← Js.pointer ["data"; "status"] resp; Js.as_str v) = Some "ok").

(** Only the world and the output may differ. *)
Definition calm st st' : Prop := ct_sent st' = ct_sent st ∧ ct_printed st' = ct_printed st.

Lemma confirm_spec force action st :
  ∃ r st', attempt (confirm_yes force action) st = (Ok r, st') ∧ calm st st' ∧
  match r with inl _ => said_yes force (ct_world st) | inr _ => ¬ said_yes force (ct_world st) end.
Proof.
  unfold attempt, confirm_yes, said_yes. destruct force; [exists (inl tt), st; split; [done|]; split; [done|by left]|].
  unfold mbind, M_bind, ask, gets, on_world. destruct (stdin_is_terminal (ct_world st)) eqn:Ht; simpl.
  - destruct (read_stdin_line (ct_world st)) as [[line|e] w']; simpl.
    + destruct (String.eqb_spec (trim line) "yes"); simpl; (eexists _, _; split; [done|]; split; [done|]); naive_solver.
    + eexists _, _; split; [done|]; split; [done|]. naive_solver.
  - eexists _, _; split; [done|]; split; [done|]. naive_solver.
Qed.

Lemma finish_code format cmd resp st :
  ∃ code st', finish_response format cmd resp st = (Ok code, st') ∧ calm st st' ∧
    code ≠ 2 ∧ (code = 0 ↔ succeeded cmd resp).
Proof.
  set (ok := default false (v ← Js.get "ok" resp; Js.as_bool v)).
  set (st_ok := bool_decide ((v ← Js.pointer ["data"; "status"] resp; Js.as_str v) = Some "ok")).
  set (code := if ok && negb (match cmd with Health => negb st_ok | _ => false end) then 0 else 1).
  assert (Hok : ok = true ↔ Js.get "ok" resp = Some (JBool true)).
  { unfold ok. destruct (Js.get "ok" resp) as [[|[]| | | |]|]; simpl; naive_solver. }
  assert (Hcode : code ≠ 2 ∧ (code = 0 ↔ succeeded cmd resp)).
  { unfold code, succeeded. split; [by destruct (_ && _)|]. rewrite <- Hok.
    assert (Hst : st_ok = true ↔ (v ← Js.pointer ["data"; "status"] resp; Js.as_str v) = Some "ok")
      by apply bool_decide_eq_true. rewrite <- Hst. destruct ok, st_ok, cmd; simpl; naive_solver. }
  unfold finish_response. fold ok st_ok. fold code. destruct format.
  - destruct (print_text cmd resp) as [lines|e| |] eqn:Hp;
      try (eexists 1, st; split; [done|]; split; [done|]; split; [done|]; rewrite <- (proj2 Hcode));
      try (revert Hp; unfold print_text; by destruct (Js.is_true _)).
    + exists code. erewrite run_bind by apply ClientTheorems.println_all. eexists. split; [done|]. by split.
    + revert Hp. unfold print_text, code. destruct (Js.is_true (Js.get "ok" resp)) eqn:Ht; [done|].
      assert (ok ≠ true) as ->%not_true_is_false; [|done].
      rewrite Hok, <- Js.is_true_spec. congruence.
  - exists code. eexists. split; [done|]. by split.
Qed.

(** What a daemon that reads [room] bytes, or everything, gets of [data]. *)
Definition accepted (room : option Z) (data : bytes) : bytes :=
  match room with Some r => take (Z.to_nat r) data | None => data end.

Lemma write_all_accepted data so :
  let '(r, so') := Image.write_all data so in
  so_out so' = so_out so ++ accepted (so_room so) data ∧
  match r with
  | Ok _ => accepted (so_room so) data = data ∧ so_room so' = (λ room, room - Zlen data) <$> so_room so ∧
      so_in so' = so_in so ∧ so_open so' = so_open so ∧ (∀ room, so_room so = Some room → Zlen data ≤ room)
  | Err _ => ∃ room, so_room so = Some room ∧ room < Zlen data
  | _ => False
  end.
Proof.
  unfold Image.write_all, accepted. destruct (so_room so) as [room|]; [|done].
  destruct (Z.leb_spec (Zlen data) room) as [Hle|Hgt]; simpl.
  - rewrite take_ge by (unfold Zlen in Hle; lia). split; [done|]. repeat split; try done. by intros ? [= <-].
  - unfold sub. rewrite drop_0. split; [done|]. by exists room.
Qed.
Lemma accepted_app room x y :
  (∀ r, room = Some r → Zlen x ≤ r) →
  accepted room (x ++ y) = x ++ accepted ((λ r, r - Zlen x) <$> room) y.
Proof.
  intros Hr. destruct room as [r|]; [|done]. specialize (Hr r eq_refl). unfold Zlen in *. simpl.
  rewrite take_app, take_ge by lia. do 2 f_equal. lia.
Qed.
Lemma accepted_short r x y : r < Zlen x → accepted (Some r) (x ++ y) = accepted (Some r) x.
Proof. intros Hr. simpl. unfold Zlen in Hr. by rewrite take_app_le by lia. Qed.

Lemma call_admin_sent req so :
  so_out so = [] → so_out (Wire.call_admin req so).2 = accepted (so_room so) (line req).
Proof.
  intros Hso. unfold Wire.call_admin, Wire.write_json_line, Wire.saying, mbind, M_bind, map_err. rewrite line_eq.
  pose proof (write_all_accepted (as_bytes (json_to_string req)) so) as Hw.
  destruct (Image.write_all (as_bytes (json_to_string req)) so) as [[[]|e| |] so1]; destruct Hw as [Hl Hr]; try done.
  2: { destruct Hr as (room & Hroom & Hlt). simpl. rewrite Hl, Hso, Hroom. by rewrite accepted_short. }
  destruct Hr as (Hall & Hroom & _ & _ & Hfit). rewrite accepted_app by done. rewrite Hall, Hso in Hl.
  pose proof (write_all_accepted (as_bytes newline) so1) as Hw. rewrite Hroom in Hw.
  destruct (Image.write_all (as_bytes newline) so1) as [[[]|e| |] so2]; destruct Hw as [Hl2 _]; try done;
    rewrite Hl in Hl2; simpl in Hl2; try exact Hl2.
  unfold Wire.read_line. destruct (Wire.split_line (so_in so2)) as [x rest]. unfold Wire.parse_line.
  destruct (_ && _); [exact Hl2|]. by destruct (json_from_str _).
Qed.

Lemma build_total cmd : build_request cmd ≠ OutOfFuel.
Proof.
  assert (Hp : ∀ s, (∃ n, Conf.parse_byte_size s = Ok n) ∨ ∃ e, Conf.parse_byte_size s = Err e).
  { intros s. unfold Conf.parse_byte_size. repeat case_match; eauto. }
  destruct cmd as [| |[| |[s|]|s]|[|v| |from to f [n|]|v f|v f|v cap|[v|]| | | | |[v [name|] f|v|v id f|v id f|v id to]|v f]|];
    simpl; try done; match goal with |- context [Conf.parse_byte_size ?s] =>
      destruct (Hp s) as [[n ->]|[e ->]]; done end.
Qed.

(** One exchange and its exit code. *)
Lemma call_code format cmd sock req st :
  ∃ code st', (r ← attempt (exchange sock (Wire.call_admin req)); finish format cmd r) st = (Ok code, st') ∧
    ct_printed st' = ct_printed st ∧ code ≠ 2 ∧
    match connect sock (ct_world st) with
    | inr _ => code = 1 ∧ ct_sent st' = ct_sent st
    | inl (incoming, room) =>
        let '(r, c) := Wire.call_admin req {| so_in := incoming; so_out := []; so_room := room; so_open := false |} in
        ct_sent st' = ct_sent st ++ [so_out c] ∧ so_out c = accepted room (line req) ∧
        (code = 0 ↔ ∃ resp, r = Ok resp ∧ succeeded cmd resp)
    end.
Proof.
  unfold mbind, M_bind, attempt, exchange. destruct (connect sock (ct_world st)) as [[incoming room]|e].
  2: { exists 1, st. done. }
  set (so := {| so_in := incoming; so_out := []; so_room := room; so_open := false |}).
  pose proof (ClientTheorems.call_admin_ends req so eq_refl) as He. pose proof (call_admin_sent req so eq_refl) as Hs.
  destruct (Wire.call_admin req so) as [[resp|e| |] c]; try done; cbn [fst snd] in *.
  - unfold finish. destruct (finish_code format cmd resp {| ct_world := hang_up sock (so_out c) (ct_world st);
      ct_printed := ct_printed st; ct_sent := ct_sent st ++ [so_out c]; ct_stdout := ct_stdout st |})
      as (code & st' & -> & [Hsent Hpr] & Hne & Hz).
    exists code, st'. split; [done|]. split; [done|]. split; [done|]. split; [done|]. split; [done|].
    rewrite Hz. naive_solver.
  - eexists 1, _. split; [done|]. split; [done|]. split; [done|]. split; [done|]. split; [done|]. naive_solver.
Qed.

(** C28: One request, and only with consent. For every command that is a request
    the client ends; it sends nothing and exits with 2 when a destructive command
    was neither forced nor confirmed with yes at a terminal, or its arguments are
    invalid. Otherwise it connects, sends exactly the line of the command's
    request (as many bytes of it as the daemon reads, which is all of them unless
    the daemon stops reading), and exits with 0 exactly when the daemon's answer
    is a success, which for health means healthy. *)
Theorem client_asks_first socket format cmd st :
  build_request cmd ≠ Panic →
  let sock := socket_path socket (ct_world st) in
  ∃ code st', main socket format cmd st = (Ok code, st') ∧ ct_printed st' = ct_printed st ∧
    ((code = 2 ∧ ct_sent st' = ct_sent st ∧ (¬ consent (ct_world st) cmd ∨ ∃ e, build_request cmd = Err e)) ∨
     ∃ req w, build_request cmd = Ok req ∧ consent (ct_world st) cmd ∧ code ≠ 2 ∧
       match connect sock w with
       | inr _ => code = 1 ∧ ct_sent st' = ct_sent st
       | inl (incoming, room) =>
           let '(r, c) := Wire.call_admin req {| so_in := incoming; so_out := []; so_room := room; so_open := false |} in
           ct_sent st' = ct_sent st ++ [so_out c] ∧ so_out c = accepted room (line req) ∧
           (code = 0 ↔ ∃ resp, r = Ok resp ∧ succeeded cmd resp)
       end).
Proof.
  intros Hnp sock. pose proof (build_total cmd) as Hnf.
  set (confirmed := match confirmation cmd with
              | Some (force, action) => attempt (confirm_yes force action)
              | None => mret (inl tt)
              end : M (Ctl W) string (unit + string)).
  assert (Hask : ∃ a st1, confirmed st = (Ok a, st1) ∧ calm st st1 ∧
    match a with inl _ => consent (ct_world st) cmd | inr _ => ¬ consent (ct_world st) cmd end).
  { unfold confirmed, consent. destruct (confirmation cmd) as [[force action]|]; [|by exists (inl tt), st].
    destruct (confirm_spec force action st) as (r & st1 & Hr & Hc & Hy). eauto. }
  destruct Hask as (a & st1 & Hask & [Hsent Hpr] & Hcons).
  assert (Hmain : main socket format cmd st = (confirmed ← confirmed;
    match (confirmed : unit + string) with
    | inr _ => mret 2
    | inl _ =>
        match build_request cmd with
        | Ok req => r ← attempt (exchange sock (Wire.call_admin req)); finish format cmd r
        | Err _ => mret 2 | Panic => panic | OutOfFuel => λ c, (OutOfFuel, c)
        end
    end) st).
  { unfold main, mbind at 1, M_bind at 1, ask, gets. destruct cmd as [| | |[]|]; done. }
  rewrite Hmain, (run_bind _ _ _ _ _ Hask). destruct a as [[]|e].
  2: { exists 2, st1. split; [done|]. split; [done|]. left. auto. }
  destruct (build_request cmd) as [req|e| |] eqn:Hb; try done.
  - destruct (call_code format cmd sock req st1) as (code & st' & -> & Hp & Hne & Hm). exists code, st'.
    split; [done|]. split; [congruence|]. right. exists req, (ct_world st1).
    split; [done|]. split; [done|]. split; [done|]. by rewrite Hsent in Hm.
  - exists 2, st1. split; [done|]. split; [done|]. left. eauto.
Qed.
End main.

(** ** Observed flaw *)

(** [cache status] shows nothing of the cache. The daemon answers it with the
    whole statistics, in which the cache is one field; the client prints it like
    the reply of [cache enable], which is the cache itself. So in every state of
    the daemon the client prints a disabled, empty cache. *)
Theorem cache_status_blank {B : Type} `{Prometheus} (st : AdminState B) :
  print_text (CacheCommand CacheStatus) (AdminOps.ok (AdminOps.stats_json st)) =
    Ok ["cache: enabled=false max_bytes=0 used_bytes=0 entries=0"].
Proof.
  unfold print_text, AdminOps.ok. autorewrite with js. cbn [Js.is_true to_json bool_serialize default print_data].
  unfold print_cache, boolean, num, AdminOps.stats_json. by autorewrite with js.
Qed.
(** The same print of the cache itself. *)
Theorem cache_updated_shown {B : Type} `{Prometheus} (st : AdminState B) :
  is_u64 (ci_max_bytes (ad_cache st)) → is_u64 (Cache.stats (ad_cache st)).1 →
  is_u64 (Cache.stats (ad_cache st)).2 →
  print_text (CacheCommand CacheDisable) (AdminOps.ok (AdminOps.cache_json st)) =
    Ok ["cache updated";
        "cache: enabled=" +:+ (if Cache.is_enabled (ad_cache st) then "true" else "false")
        +:+ " max_bytes=" +:+ dec (ci_max_bytes (ad_cache st))
        +:+ " used_bytes=" +:+ dec (Cache.stats (ad_cache st)).1
        +:+ " entries=" +:+ dec (Cache.stats (ad_cache st)).2].
Proof.
  intros Hm Hu He. unfold print_text, AdminOps.ok. autorewrite with js.
  cbn [Js.is_true to_json bool_serialize default print_data].
  unfold print_cache, boolean, num, AdminOps.cache_json, from_option, id. autorewrite with js.
  unfold to_json, Z_serialize, bool_serialize. cbn [mbind option_bind Js.as_bool default].
  by rewrite !Js.as_u64_in.
Qed.

(** ** Witnesses *)
Section witnesses.
Import Concrete ConcreteWire MetricsTheorems.MemProm.
#[local] Instance stamps : StampJson := { stamp_to_json _ := inr ""; stamp_from_json _ := inr "" }.
#[local] Instance sizes : Conf.ByteSize := λ _, inr "unit".
#[local] Instance sizes_laws : ByteSizeLaws.
Proof. by intros s n. Qed.

Definition copy_cmd : Commands := VolumeCommand (Copy "vol" "vol2" false (Some 3)).
Definition copy_request : Value := Js.put_some "resume_from" (Some 3)
  (op "volume.copy" [("volume", to_json "vol"); ("to", to_json "vol2")]).
Definition no_load : string → outcome string Config := λ _, Err "no file".

(** There is no second volume: the reply is the error of the copy. *)
Lemma requests_understood_witness :
  let v := AdminOps.err ("unknown volume " +:+ quoted "vol2") in
  AdminOps.handle_client no_load (mret tt)
    (AdminTheorems.daemon, {| so_in := line copy_request; so_out := []; so_room := None; so_open := false |}) =
    (Ok tt, (AdminTheorems.daemon, {| so_in := []; so_out := line v; so_room := None; so_open := false |})) ∧
  Wire.call_admin copy_request {| so_in := line v; so_out := []; so_room := None; so_open := false |} =
    (Ok v, {| so_in := []; so_out := line copy_request; so_room := None; so_open := false |}).
Proof.
  exact (requests_understood no_load (mret tt) copy_cmd copy_request AdminTheorems.daemon
    (AdminOps.err ("unknown volume " +:+ quoted "vol2")) AdminTheorems.daemon
    (conj (proj1 (Z.leb_le 0 3) eq_refl) (proj1 (Z.leb_le 3 u64_max) eq_refl)) eq_refl eq_refl).
Defined.

(** A terminal on which the world is typed; no daemon. *)
#[local] Instance desk : Host string := {
  iscsiadm _ w := (inr "not found", w);
  connect _ _ := inr "no daemon"; hang_up _ _ w := w;
  stdin_is_terminal _ := true; read_stdin_line w := (inl w, ""); env_var _ _ := None;
  file_len _ _ := inr "no file"; open_file _ _ := inr "no file"; create_file _ w := (inr "read only", w);
  close_file _ _ w := w; is_dir _ _ := false; read_dir _ _ := inl []; canonicalize _ _ := inr "no file";
  read_to_string _ _ := inr "no file"; instant_now _ := 0; sleep _ w := w
}.
Definition typed (s : string) : Ctl string := {| ct_world := s; ct_printed := []; ct_sent := []; ct_stdout := [] |}.

Lemma client_asks_first_witness :
  let sock := socket_path None (ct_world (typed "no")) in
  ∃ code st', main None FormatText copy_cmd (typed "no") = (Ok code, st') ∧ ct_printed st' = ct_printed (typed "no") ∧
    ((code = 2 ∧ ct_sent st' = ct_sent (typed "no") ∧
        (¬ consent (ct_world (typed "no")) copy_cmd ∨ ∃ e, build_request copy_cmd = Err e)) ∨
     ∃ req w, build_request copy_cmd = Ok req ∧ consent (ct_world (typed "no")) copy_cmd ∧ code ≠ 2 ∧
       match connect sock w with
       | inr _ => code = 1 ∧ ct_sent st' = ct_sent (typed "no")
       | inl (incoming, room) =>
           let '(r, c) := Wire.call_admin req {| so_in := incoming; so_out := []; so_room := room; so_open := false |} in
           ct_sent st' = ct_sent (typed "no") ++ [so_out c] ∧ so_out c = accepted room (line req) ∧
           (code = 0 ↔ ∃ resp, r = Ok resp ∧ succeeded copy_cmd resp)
       end).
Proof. exact (client_asks_first None FormatText copy_cmd (typed "no") ltac:(discriminate)). Defined.

Example answers :
  (main None FormatText copy_cmd (typed "no")).1 = Ok 2 ∧ (main None FormatText copy_cmd (typed " yes ")).1 = Ok 1.
Proof. vm_compute. done. Qed.
End witnesses.
End CtlTheorems.
