(* ===== verification/Perf.v ===== *)
(** * The bottleneck analyser (src/src/perf.rs)

    Every window the analyser takes the difference of the latency counters, adds
    how full the caches are, decides which component, if any, limits the window,
    and exports a component once it has won two windows in a row. The decision is
    IEEE double arithmetic, [F64]. *)
From S2P Require Import Prelude Tables Text Store Cache CachedStore WriteBuffer WriteCache WriteBack.
From S2P Require Import S3Keys Float Metrics MetricsSpec MetricsTheorems.
#[local] Open Scope string_scope.
#[local] Open Scope list_scope.
#[local] Open Scope Z_scope.

Inductive Component : Type := S3Read | S3Write | ReadCache | WriteCacheFull | WriteBufferFull | Iscsi.
#[global] Instance Component_eq_dec : EqDecision Component.
Proof. solve_decision. Defined.

Record BottleneckTracker : Type := {
  bt_pending : option Component;
  bt_streak : Z;
  bt_lit : option Component
}.

Record WindowSample : Type := {
  ws_scsi_read : LatencyAccum;
  ws_scsi_write : LatencyAccum;
  ws_scsi_flush : LatencyAccum;
  ws_s3_get : LatencyAccum;
  ws_s3_put : LatencyAccum;
  ws_cache_hits : Z;
  ws_cache_misses : Z;
  ws_read_cache_used : Z;
  ws_read_cache_max : Z;
  ws_write_cache_dirty : Z;
  ws_write_cache_max : Z;
  ws_write_cache_dirty_prev : Z;
  ws_write_buffer_bytes : Z;
  ws_write_buffer_max : Z;
  ws_write_buffer_bytes_prev : Z
}.

Module Perf.
Definition MIN_OPS : Z := 8.
Definition WRITE_CACHE_FILL : f64 := F64.lit 85 100.
Definition WRITE_CACHE_MIN_DRAIN : f64 := F64.lit 10 100.
Definition READ_CACHE_FILL : f64 := F64.lit 90 100.
Definition READ_CACHE_MISS : f64 := F64.lit 25 100.
Definition S3_AVG_SECS : f64 := F64.lit 50 1000.
Definition ISCSI_AVG_SECS : f64 := F64.lit 20 1000.
Definition S3_SHARE_OF_SCSI : f64 := F64.lit 40 100.
Definition MAJORITY : f64 := F64.lit 50 100.
Definition HYSTERESIS_WINDOWS : Z := 2.

Definition as_str (c : Component) : string :=
  match c with
  | S3Read => "s3_read"
  | S3Write => "s3_write"
  | ReadCache => "read_cache"
  | WriteCacheFull => "write_cache"
  | WriteBufferFull => "write_buffer"
  | Iscsi => "iscsi"
  end.

Definition from_counters (counters : PerfCounters) (read_cache_used read_cache_max write_cache_dirty write_cache_max
    write_cache_dirty_prev write_buffer_bytes write_buffer_max write_buffer_bytes_prev : Z) : WindowSample :=
  {| ws_scsi_read := pc_scsi_read counters; ws_scsi_write := pc_scsi_write counters;
     ws_scsi_flush := pc_scsi_flush counters; ws_s3_get := pc_s3_get counters; ws_s3_put := pc_s3_put counters;
     ws_cache_hits := pc_cache_hits counters; ws_cache_misses := pc_cache_misses counters;
     ws_read_cache_used := read_cache_used; ws_read_cache_max := read_cache_max;
     ws_write_cache_dirty := write_cache_dirty; ws_write_cache_max := write_cache_max;
     ws_write_cache_dirty_prev := write_cache_dirty_prev; ws_write_buffer_bytes := write_buffer_bytes;
     ws_write_buffer_max := write_buffer_max; ws_write_buffer_bytes_prev := write_buffer_bytes_prev |}.

(** ** The decision of one window *)

(** [a + b], which panics on overflow. *)
Definition add64 (a b : Z) : outcome string Z := if a + b <=? u64_max then Ok (a + b) else Panic.

Definition consider (best : option (Component * f64)) (component : Component) (score : f64)
    : option (Component * f64) :=
  match best with
  | Some (_, prev) => if F64.leb score prev then best else Some (component, score)
  | None => Some (component, score)
  end.

Definition write_buffer_pinned (s : WindowSample) : bool :=
  if (ws_write_buffer_max s =? 0) || (la_count (ws_scsi_write s) =? 0) then false
  else
    let fill := F64.div (F64.of_u64 (ws_write_buffer_bytes s)) (F64.of_u64 (ws_write_buffer_max s)) in
    if F64.ltb fill WRITE_CACHE_FILL then false
    else
      let prev := ws_write_buffer_bytes_prev s in
      if (prev =? 0) || (prev <=? ws_write_buffer_bytes s) then true
      else
        let dropped := F64.div (F64.of_u64 (prev - ws_write_buffer_bytes s)) (F64.of_u64 prev) in
        F64.ltb dropped WRITE_CACHE_MIN_DRAIN.

Definition write_cache_pinned (s : WindowSample) : bool :=
  if (ws_write_cache_max s =? 0) || (la_count (ws_scsi_write s) =? 0) then false
  else
    let fill := F64.div (F64.of_u64 (ws_write_cache_dirty s)) (F64.of_u64 (ws_write_cache_max s)) in
    if F64.ltb fill WRITE_CACHE_FILL then false
    else
      let prev := ws_write_cache_dirty_prev s in
      if (prev =? 0) || (prev <=? ws_write_cache_dirty s) then true
      else
        let dropped := F64.div (F64.of_u64 (prev - ws_write_cache_dirty s)) (F64.of_u64 prev) in
        F64.ltb dropped WRITE_CACHE_MIN_DRAIN.

Definition read_cache_thrashing (s : WindowSample) : bool :=
  if ws_read_cache_max s =? 0 then false
  else
    let lookups := saturating_add64 (ws_cache_hits s) (ws_cache_misses s) in
    if lookups <? MIN_OPS then false
    else
      let fill := F64.div (F64.of_u64 (ws_read_cache_used s)) (F64.of_u64 (ws_read_cache_max s)) in
      let miss := F64.div (F64.of_u64 (ws_cache_misses s)) (F64.of_u64 lookups) in
      F64.leb READ_CACHE_FILL fill && F64.leb READ_CACHE_MISS miss.

Definition s3_read_score (s : WindowSample) : outcome string (option f64) :=
  if (la_count (ws_s3_get s) <? MIN_OPS) || (la_count (ws_scsi_read s) <? MIN_OPS) then Ok None
  else if F64.ltb (Latency.avg_secs (ws_s3_get s)) S3_AVG_SECS then Ok None
  else
    let get := Latency.total_secs (ws_s3_get s) in
    let scsi := Latency.total_secs (ws_scsi_read s) in
    if F64.leb scsi F64.zero || F64.ltb get (F64.mul scsi MAJORITY) then Ok None
    else Ok (Some get).

Definition s3_write_score (s : WindowSample) : outcome string (option f64) :=
  scsi_ops ← add64 (la_count (ws_scsi_write s)) (la_count (ws_scsi_flush s));
  if (la_count (ws_s3_put s) <? MIN_OPS) || (scsi_ops <? MIN_OPS) then Ok None
  else if F64.ltb (Latency.avg_secs (ws_s3_put s)) S3_AVG_SECS then Ok None
  else
    let put := Latency.total_secs (ws_s3_put s) in
    let scsi := F64.add (Latency.total_secs (ws_scsi_write s)) (Latency.total_secs (ws_scsi_flush s)) in
    if F64.leb scsi F64.zero || F64.ltb put (F64.mul scsi MAJORITY) then Ok None
    else Ok (Some put).

Definition iscsi_score (s : WindowSample) : outcome string (option f64) :=
  rw ← add64 (la_count (ws_scsi_read s)) (la_count (ws_scsi_write s));
  count ← add64 rw (la_count (ws_scsi_flush s));
  if count <? MIN_OPS then Ok None
  else
    let scsi := F64.add (F64.add (Latency.total_secs (ws_scsi_read s)) (Latency.total_secs (ws_scsi_write s)))
                  (Latency.total_secs (ws_scsi_flush s)) in
    if F64.leb scsi F64.zero || F64.ltb (F64.div scsi (F64.of_u64 count)) ISCSI_AVG_SECS then Ok None
    else
      let s3 := F64.add (Latency.total_secs (ws_s3_get s)) (Latency.total_secs (ws_s3_put s)) in
      if F64.leb (F64.mul scsi S3_SHARE_OF_SCSI) s3 then Ok None
      else Ok (Some (F64.sub scsi s3)).

Definition decide (s : WindowSample) : outcome string (option Component) :=
  rw ← add64 (la_count (ws_scsi_read s)) (la_count (ws_scsi_write s));
  scsi_ops ← add64 rw (la_count (ws_scsi_flush s));
  s3_ops ← add64 (la_count (ws_s3_get s)) (la_count (ws_s3_put s));
  if (scsi_ops <? MIN_OPS) && (s3_ops <? MIN_OPS) then Ok None
  else if write_buffer_pinned s then Ok (Some WriteBufferFull)
  else if write_cache_pinned s then Ok (Some WriteCacheFull)
  else if read_cache_thrashing s then Ok (Some ReadCache)
  else
    w ← s3_write_score s;
    let best := match w with Some score => consider None S3Write score | None => None end in
    r ← s3_read_score s;
    let best := match r with Some score => consider best S3Read score | None => best end in
    i ← iscsi_score s;
    let best := match i with Some score => consider best Iscsi score | None => best end in
    Ok (fst <$> best).

(** ** Hysteresis *)
Definition new : BottleneckTracker := {| bt_pending := None; bt_streak := 0; bt_lit := None |}.

(** [u8::saturating_add] *)
Definition saturating_add8 (a b : Z) : Z := Z.min 255 (a + b).

Definition observe (winner : option Component) (t : BottleneckTracker)
    : option Component * BottleneckTracker :=
  if base.decide (winner = bt_lit t) then
    (bt_lit t, {| bt_pending := None; bt_streak := 0; bt_lit := bt_lit t |})
  else
    let streak := if base.decide (bt_pending t = winner) then saturating_add8 (bt_streak t) 1 else 1 in
    if streak >=? HYSTERESIS_WINDOWS then
      (winner, {| bt_pending := None; bt_streak := 0; bt_lit := winner |})
    else (bt_lit t, {| bt_pending := winner; bt_streak := streak; bt_lit := bt_lit t |}).

(** ** The sampling loop *)
Section loop.
Context {S : Type}.
Implicit Types st : Core S.

(** [WriteCachedStore]'s accessors *)
Definition max_bytes st : Z := wc_cache_max st.
Definition dirty_bytes st : Z :=
  if bool_decide (wc_mode st = WcNone) then 0 else ds_used_bytes (wc_dirty st).
Definition buffer_bytes st : Z := default 0 ((λ b, bs_used_bytes (rt_state b)) <$> wc_buffer st).
Definition buffer_max_bytes st : Z := default 0 (rt_max_bytes <$> wc_buffer st).

Definition write_buffer_fill (stores : list (Core S)) : Z * Z :=
  foldl (λ '(bytes, max) store,
    let budget := buffer_max_bytes store in
    if budget =? 0 then (bytes, max)
    else (saturating_add64 bytes (buffer_bytes store), saturating_add64 max budget)) (0, 0) stores.
Definition write_cache_fill (stores : list (Core S)) : Z * Z :=
  foldl (λ '(dirty, max) store,
    let budget := max_bytes store in
    if (budget =? 0) || bool_decide (wc_mode store = WcNone) then (dirty, max)
    else (saturating_add64 dirty (dirty_bytes store), saturating_add64 max budget)) (0, 0) stores.

Record Analyser : Type := {
  an_prev : PerfCounters;
  an_prev_dirty : Z;
  an_prev_buffer : Z;
  an_tracker : BottleneckTracker;
  an_shown : option Component
}.

Section metrics.
Context `{Prometheus}.

(** Before the loop. *)
Definition start (stores : list (Core S)) (m : Metrics) : Analyser :=
  {| an_prev := Met.perf_counters m; an_prev_dirty := (write_cache_fill stores).1;
     an_prev_buffer := (write_buffer_fill stores).1; an_tracker := new; an_shown := bt_lit new |}.

(** One turn of the loop, after the sleep. *)
Definition turn (cache : CacheInner) (stores : list (Core S)) (a : Analyser) : M Metrics string Analyser :=
  now ← gets Met.perf_counters;
  let counters := Counters.delta now (an_prev a) in
  let '(dirty, write_max) := write_cache_fill stores in
  let '(buffer_bytes, buffer_max) := write_buffer_fill stores in
  let '(used, _) := Cache.stats cache in
  let sample := from_counters counters used (ci_max_bytes cache) dirty write_max (an_prev_dirty a)
                  buffer_bytes buffer_max (an_prev_buffer a) in
  winner ← lift (decide sample);
  let '(next, tracker) := observe winner (an_tracker a) in
  _ ← Met.set_bottleneck (as_str <$> next);
  mret {| an_prev := now; an_prev_dirty := dirty; an_prev_buffer := buffer_bytes; an_tracker := tracker;
          an_shown := if base.decide (next = an_shown a) then an_shown a else next |}.
End metrics.
End loop.

(** What the tracker exports after the windows [h], newest first: the last
    component that won two windows in a row. *)
Fixpoint reference (h : list (option Component)) : option Component :=
  match h with
  | [] => None
  | w :: h' =>
      match h' with
      | [] => None
      | p :: _ => if base.decide (w = p) then w else reference h'
      end
  end.

(** The tracker's fields after the windows [h]. *)
Definition follows (h : list (option Component)) (t : BottleneckTracker) : Prop :=
  bt_lit t = reference h ∧
  match h with
  | [] => bt_pending t = None ∧ bt_streak t = 0
  | w :: _ => if base.decide (w = bt_lit t) then bt_pending t = None ∧ bt_streak t = 0
              else bt_pending t = w ∧ bt_streak t = 1
  end.

Lemma observe_follows h t w :
  follows h t → (observe w t).1 = reference (w :: h) ∧ follows (w :: h) (observe w t).2.
Proof.
  destruct t as [pending streak lit]. unfold follows, observe. cbn [bt_lit bt_pending bt_streak].
  intros [Hl Hf]. destruct h as [|p h].
  - simpl in Hl. destruct Hf as [-> ->]. subst lit. simpl. repeat case_decide; simpl; naive_solver.
  - change (reference (w :: p :: h)) with (if base.decide (w = p) then w else reference (p :: h)).
    rewrite <- Hl. destruct (base.decide (p = lit)) as [->|Hp]; destruct Hf as [-> ->];
      repeat (case_decide; simplify_eq/=; try done).
Qed.

Lemma observe_all ws h t :
  follows h t → follows (rev ws ++ h) (foldl (λ t w, (observe w t).2) t ws).
Proof.
  revert h t. induction ws as [|w ws IH]; intros h t Ht; [done|]. simpl. rewrite <- app_assoc.
  apply IH. by apply observe_follows.
Qed.

End Perf.
