(* ===== verification/PerfTheorems.v ===== *)
(** * Properties of the bottleneck analyser *)
From S2P Require Import Prelude Tables Text Store Cache CachedStore WriteBuffer WriteCache WriteBack Memory.
From S2P Require Import S3Keys Float Metrics MetricsSpec MetricsTheorems Perf.
#[local] Open Scope string_scope.
#[local] Open Scope list_scope.
#[local] Open Scope Z_scope.

Module PerfTheorems.
Import Perf MetSpec MetricsTheorems.

(** ** The decision of one window *)

(** The score of a component; the caches have none. *)
Definition score (s : WindowSample) (c : Component) : outcome string (option f64) :=
  match c with
  | S3Write => s3_write_score s
  | S3Read => s3_read_score s
  | Iscsi => iscsi_score s
  | _ => Ok None
  end.

(** Fewer than eight SCSI operations and fewer than eight S3 requests. *)
Definition idle (s : WindowSample) : Prop :=
  la_count (ws_scsi_read s) + la_count (ws_scsi_write s) + la_count (ws_scsi_flush s) < MIN_OPS ∧
  la_count (ws_s3_get s) + la_count (ws_s3_put s) < MIN_OPS.

Lemma add64_ok a b : a + b ≤ u64_max → add64 a b = Ok (a + b).
Proof. intros Hs. unfold add64. by rewrite (proj2 (Z.leb_le _ _)). Qed.
Lemma add64_inv a b n : add64 a b = Ok n → n = a + b.
Proof. unfold add64. case_match; [by intros [= <-]|done]. Qed.

Lemma total_number l : F64.number (Latency.total_secs l).
Proof. unfold Latency.total_secs. apply F64.div_number, F64.of_u64_number. Qed.
Lemma read_score_number s v : s3_read_score s = Ok (Some v) → F64.number v.
Proof. unfold s3_read_score. repeat case_match; try done. intros [= <-]. apply total_number. Qed.
Lemma write_score_number s v : s3_write_score s = Ok (Some v) → F64.number v.
Proof.
  unfold s3_write_score. destruct (add64 _ _); simpl; try done. repeat case_match; try done.
  intros [= <-]. apply total_number.
Qed.

(** [best] is the component of the list with no higher score. *)
Definition best_of (cs : list (Component * option f64)) (best : option (Component * f64)) : Prop :=
  match best with
  | None => ∀ c v, (c, v) ∈ cs → v = None
  | Some (c, v) => (c, Some v) ∈ cs ∧ ∀ c' v', (c', Some v') ∈ cs → F64.ltb v v' = false
  end.

Lemma consider_best cs best c v :
  best_of cs best → (∀ c' v', (c', Some v') ∈ cs → F64.number v') →
  best_of (cs ++ [(c, v)]) (match v with Some x => consider best c x | None => best end).
Proof.
  intros Hb Hn. destruct v as [x|].
  2: { destruct best as [[c0 v0]|]; simpl in *; [|set_solver].
       destruct Hb as [Hin Hall]. split; [set_solver|]. intros c' v' Hi.
       apply elem_of_app in Hi as [Hi|Hi]; [by eapply Hall|set_solver]. }
  destruct best as [[c0 v0]|]; simpl in *.
  - destruct Hb as [Hin Hall]. pose proof (Hn _ _ Hin) as Hn0. destruct (F64.leb x v0) eqn:Hle; simpl.
    + split; [set_solver|]. intros c' v' Hi. apply elem_of_app in Hi as [Hi|Hi]; [by eapply Hall|].
      assert (v' = x) as -> by set_solver. by apply F64.leb_not_ltb.
    + split; [set_solver|]. intros c' v' Hi. apply elem_of_app in Hi as [Hi|Hi].
      2: { assert (v' = x) as -> by set_solver. destruct (F64.number_or_nan x) as [->|Hx]; [done|].
           by apply F64.leb_not_ltb, F64.leb_refl. }
      destruct (F64.number_or_nan x) as [->|Hx]; [done|]. pose proof (Hn _ _ Hi) as Hn'.
      apply F64.leb_not_ltb, (F64.leb_trans _ v0); [done..| |by apply F64.leb_total].
      apply F64.not_ltb_leb; [done..|]. by eapply Hall.
  - split; [set_solver|]. intros c' v' Hi. apply elem_of_app in Hi as [Hi|Hi].
    + by apply Hb in Hi.
    + assert (v' = x) as -> by set_solver. destruct (F64.number_or_nan x) as [->|Hx]; [done|].
      by apply F64.leb_not_ltb, F64.leb_refl.
Qed.

(** The comparison of the three scores. *)
Definition best3 (w rd i : option f64) : option (Component * f64) :=
  let b1 := match w with Some score => consider None S3Write score | None => None end in
  let b2 := match rd with Some score => consider b1 S3Read score | None => b1 end in
  match i with Some score => consider b2 Iscsi score | None => b2 end.

Lemma best3_spec s w rd i :
  s3_write_score s = Ok w → s3_read_score s = Ok rd → iscsi_score s = Ok i →
  match best3 w rd i with
  | None => ∀ c, score s c = Ok None
  | Some (c, v) => score s c = Ok (Some v) ∧ ∀ c' v', score s c' = Ok (Some v') → F64.ltb v v' = false
  end.
Proof.
  intros Hw Hr His. set (cs := [(S3Write, w); (S3Read, rd); (Iscsi, i)]).
  assert (Hb : best_of cs (best3 w rd i)).
  { apply (consider_best [(S3Write, w); (S3Read, rd)]).
    - apply (consider_best [(S3Write, w)]).
      + apply (consider_best [] None); [by intros ?? ?%not_elem_of_nil|by intros ?? ?%not_elem_of_nil].
      + intros c' v' Hin. apply list_elem_of_singleton in Hin. simplify_eq. by eapply write_score_number.
    - intros c' v' Hin. rewrite elem_of_cons, list_elem_of_singleton in Hin.
      destruct Hin; simplify_eq; [by eapply write_score_number|by eapply read_score_number]. }
  assert (Hsc : ∀ c v, (c, v) ∈ cs → score s c = Ok v).
  { intros c v. unfold cs. rewrite !elem_of_cons, elem_of_nil. naive_solver. }
  assert (Hcs : ∀ c v, score s c = Ok (Some v) → (c, Some v) ∈ cs).
  { intros [] v; simpl; try done; rewrite ?Hw, ?Hr, ?His; intros [= ->]; set_solver. }
  destruct (best3 w rd i) as [[c v]|]; simpl in Hb.
  - destruct Hb as [Hin Hall]. split; [by apply Hsc|]. intros c' v' Hc'. eapply Hall, Hcs, Hc'.
  - assert (w = None ∧ rd = None ∧ i = None) as (Hn1 & Hn2 & Hn3)
      by (split_and!; [apply (Hb S3Write)|apply (Hb S3Read)|apply (Hb Iscsi)]; set_solver).
    subst. by intros [].
Qed.

(** The order in which components with equal scores win: writes, reads, iSCSI. *)
Definition rank (c : Component) : Z :=
  match c with S3Write => 0 | S3Read => 1 | _ => 2 end.
(** The winner beats every component before it strictly. *)
Lemma best3_ties s w rd i c v :
  s3_write_score s = Ok w → s3_read_score s = Ok rd → iscsi_score s = Ok i → best3 w rd i = Some (c, v) →
  ∀ c' v', rank c' < rank c → score s c' = Ok (Some v') → F64.leb v v' = false.
Proof.
  intros Hw Hr His Hb c' v' Hlt Hc'.
  assert (Htr : ∀ x y z, F64.number y → F64.number z → F64.leb y z = false → F64.leb x y = false → F64.leb x z = false).
  { intros x y z Hy Hz Hyz Hxy. destruct (F64.number_or_nan x) as [->|Hx]; [done|].
    destruct (F64.leb x z) eqn:Hxz; [|done]. rewrite (F64.leb_trans x z y) in Hxy; [done..|by apply F64.leb_total]. }
  assert (Hnr : ∀ x, rd = Some x → F64.number x) by (intros x ->; by eapply read_score_number).
  assert (Hnw : ∀ x, w = Some x → F64.number x) by (intros x ->; by eapply write_score_number).
  destruct c'; simpl in Hc'; try done; rewrite ?Hw, ?Hr, ?His in Hc'; injection Hc' as Hc'; subst;
    revert Hb Hlt; unfold best3, consider; repeat case_match; intros Hb Hlt; simplify_eq; simpl in Hlt; try lia; eauto.
  destruct (F64.leb v v') eqn:Hle; [|done]. destruct (F64.number_or_nan v) as [->|Hv]; [done|].
  match goal with Hf : F64.leb v ?w = false |- _ => rewrite (F64.leb_trans v v' w) in Hf; [done| |..]; eauto end.
Qed.

Lemma idle_dec ops3 s3 s :
  ops3 = la_count (ws_scsi_read s) + la_count (ws_scsi_write s) + la_count (ws_scsi_flush s) →
  s3 = la_count (ws_s3_get s) + la_count (ws_s3_put s) →
  (ops3 <? MIN_OPS) && (s3 <? MIN_OPS) = true ↔ idle s.
Proof. intros -> ->. unfold idle. by rewrite andb_true_iff, !Z.ltb_lt. Qed.

(** C33: The decision. A window names no bottleneck if it is idle. Otherwise a
    stuck write buffer, then a stuck write cache, then a thrashing read cache
    take precedence; and else the winner is the component with the highest score
    among S3 writes, S3 reads and iSCSI, in this order when scores are equal, and
    there is none exactly when none of them has a score. *)
Theorem decide_correct s r :
  decide s = Ok r →
  match r with
  | Some WriteBufferFull => ¬ idle s ∧ write_buffer_pinned s = true
  | Some WriteCacheFull => ¬ idle s ∧ write_buffer_pinned s = false ∧ write_cache_pinned s = true
  | Some ReadCache =>
      ¬ idle s ∧ write_buffer_pinned s = false ∧ write_cache_pinned s = false ∧ read_cache_thrashing s = true
  | Some c => ¬ idle s ∧ write_buffer_pinned s = false ∧ write_cache_pinned s = false ∧
      read_cache_thrashing s = false ∧
      ∃ v, score s c = Ok (Some v) ∧ ∀ c' v', score s c' = Ok (Some v') →
        F64.ltb v v' = false ∧ (rank c' < rank c → F64.leb v v' = false)
  | None => idle s ∨ write_buffer_pinned s = false ∧ write_cache_pinned s = false ∧
      read_cache_thrashing s = false ∧ ∀ c, score s c = Ok None
  end.
Proof.
  unfold decide. destruct (add64 (la_count (ws_scsi_read s)) _) as [rw| | |] eqn:Hrw; try done.
  cbn [mbind outcome_bind]. destruct (add64 rw _) as [ops| | |] eqn:Hops; try done.
  cbn [mbind outcome_bind]. destruct (add64 (la_count (ws_s3_get s)) _) as [s3| | |] eqn:Hs3; try done.
  apply add64_inv in Hrw, Hops, Hs3. cbn [mbind outcome_bind].
  pose proof (idle_dec ops s3 s ltac:(by subst) Hs3) as Hidle.
  destruct ((ops <? MIN_OPS) && (s3 <? MIN_OPS)) eqn:Hi; [intros [= <-]; left; by apply Hidle|].
  assert (Hbusy : ¬ idle s) by (intros Hx; by apply Hidle in Hx). clear Hidle Hi.
  destruct (write_buffer_pinned s) eqn:Hwb; [by intros [= <-]|].
  destruct (write_cache_pinned s) eqn:Hwc; [by intros [= <-]|].
  destruct (read_cache_thrashing s) eqn:Hrc; [by intros [= <-]|].
  destruct (s3_write_score s) as [w| | |] eqn:Hw; try done. cbn [mbind outcome_bind].
  destruct (s3_read_score s) as [rd| | |] eqn:Hr; try done. cbn [mbind outcome_bind].
  destruct (iscsi_score s) as [i| | |] eqn:His; try done. cbn [mbind outcome_bind]. cbv zeta.
  fold (best3 w rd i). pose proof (best3_spec s w rd i Hw Hr His) as Hb.
  destruct (best3 w rd i) as [[c v]|] eqn:Hbest; intros [= <-]; [|by right].
  destruct Hb as [Hs Hall]. pose proof (best3_ties s w rd i c v Hw Hr His Hbest) as Htie.
  destruct c; first [by simpl in Hs|split_and!; eauto 10].
Qed.

(** ** The whole loop *)

(** What happens in one window, and what the analyser then sees of the caches. *)
Record Window (S : Type) : Type := { wi_events : list Event; wi_cache : CacheInner; wi_stores : list (Core S) }.
Arguments wi_events {S} _.
Arguments wi_cache {S} _.
Arguments wi_stores {S} _.

Section analyser.
Context {S : Type} `{PrometheusLaws}.
Implicit Types (ws : list (Window S)) (a : Analyser).

Fixpoint analyse ws a : M Metrics string Analyser :=
  match ws with
  | [] => mret a
  | w :: ws =>
      _ ← apply_events (wi_events w);
      a' ← turn (wi_cache w) (wi_stores w) a;
      analyse ws a'
  end.

(** The samples the windows amount to. *)
Fixpoint samples (prev_dirty prev_buffer : Z) ws : list WindowSample :=
  match ws with
  | [] => []
  | w :: ws =>
      let '(dirty, write_max) := write_cache_fill (wi_stores w) in
      let '(buffer, buffer_max) := write_buffer_fill (wi_stores w) in
      from_counters (tally (wi_events w)) (Cache.stats (wi_cache w)).1 (ci_max_bytes (wi_cache w))
        dirty write_max prev_dirty buffer buffer_max prev_buffer :: samples dirty buffer ws
  end.

(** The gauge shows exactly [lit]. *)
Definition gauge_shows (lit : option Component) (m : Metrics) : Prop :=
  ∀ c, vec_value (me_series m Bottleneck) [as_str c] = if base.decide (Some c = lit) then 1 else 0.

Lemma as_str_inj c c' : as_str c = as_str c' → c = c'.
Proof. by destruct c, c'. Qed.
Lemma as_str_component c : as_str c ∈ Met.BOTTLENECK_COMPONENTS.
Proof. destruct c; vm_compute; repeat constructor. Qed.

Lemma set_components_values cs value m dn :
  typed m → (∀ c, c ∈ dn → vec_value (me_series m Bottleneck) [c] = value c) →
  wp (Met.set_components cs value) (λ _ m', typed m' ∧ me_perf m' = me_perf m ∧
    ∀ c, c ∈ dn ++ cs → vec_value (me_series m' Bottleneck) [c] = value c) (λ _ _, False) m.
Proof.
  revert m dn. induction cs as [|c cs IH]; intros m dn Ht Hd; simpl.
  { wp_step. by rewrite app_nil_r. }
  wp_step. apply update_spec; [done|done|].
  eapply wp_mono; [apply (IH _ (dn ++ [c]))| |done].
  - apply typed_with; [intros; apply vec_set_labels|done].
  - intros c' Hc'. rewrite with_series_same. destruct (base.decide (c = c')) as [<-|Hne]; [apply vec_set_value|].
    rewrite vec_set_other by congruence. apply Hd. set_solver.
  - intros [] m' (Ht' & Hp & Hall). split; [done|]. split; [done|]. by rewrite <- app_assoc in Hall.
Qed.

Lemma set_bottleneck_shows lit m :
  typed m → wp (Met.set_bottleneck (as_str <$> lit))
    (λ _ m', typed m' ∧ me_perf m' = me_perf m ∧ gauge_shows lit m') (λ _ _, False) m.
Proof.
  intros Ht. eapply wp_mono; [by apply (set_components_values _ _ _ []); [|set_solver]| |done].
  intros [] m' (Ht' & Hp & Hall). split; [done|]. split; [done|]. intros c.
  rewrite Hall by apply as_str_component. destruct lit as [c'|]; simpl; repeat case_decide; try done; exfalso.
  - simplify_eq. match goal with Heq : as_str _ = as_str _ |- _ => apply as_str_inj in Heq end. by subst.
  - by simplify_eq.
Qed.

(** ** Windows as sums of events *)
Lemma sum_micros_app ts ts' : sum_micros (ts ++ ts') = sum_micros ts + sum_micros ts'.
Proof. induction ts as [|t ts IH]; simpl; [done|]. rewrite IH. lia. Qed.
Lemma accum_app ts ts' : accum (ts ++ ts') = plus_lat (accum ts) (accum ts').
Proof. unfold accum, plus_lat. simpl. by rewrite Zlen_app, sum_micros_app. Qed.
Lemma tally_app es es' : tally (es ++ es') = plus (tally es) (tally es').
Proof.
  unfold tally, plus, scsi_times, s3_times, lookups. simpl. by rewrite !omap_app, !accum_app, !Zlen_app.
Qed.
Lemma plus_lat_assoc x y z : plus_lat (plus_lat x y) z = plus_lat x (plus_lat y z).
Proof. unfold plus_lat. simpl. f_equal; lia. Qed.
Lemma plus_assoc x y z : plus (plus x y) z = plus x (plus y z).
Proof. unfold plus. simpl. rewrite !plus_lat_assoc. f_equal; lia. Qed.

Lemma accum_nonneg ts : 0 ≤ la_count (accum ts) ∧ 0 ≤ la_sum_us (accum ts).
Proof. split; [apply Zlen_nonneg|apply sum_micros_nonneg]. Qed.

Lemma wide_lat_prefix x ts ts' : wide_lat x → wide_lat (plus_lat x (plus_lat (accum ts) (accum ts'))) →
  wide_lat (plus_lat x (accum ts)).
Proof.
  pose proof (accum_nonneg ts). pose proof (accum_nonneg ts').
  unfold wide_lat, plus_lat, is_u64. simpl in *. lia.
Qed.
Lemma wide_prefix c es es' : wide c → wide (plus c (tally (es ++ es'))) → wide (plus c (tally es)).
Proof.
  rewrite tally_app. intros [] []. pose proof (Zlen_nonneg (lookups true es)). pose proof (Zlen_nonneg (lookups false es)).
  pose proof (Zlen_nonneg (lookups true es')). pose proof (Zlen_nonneg (lookups false es')).
  constructor; simpl in *; first [by eapply wide_lat_prefix|unfold is_u64 in *; lia].
Qed.

(** The operations of a window cannot be more than its events. *)
Lemma tally_counts es :
  Zlen (scsi_times "read" es) + Zlen (scsi_times "write" es) + Zlen (scsi_times "flush" es) ≤ Zlen es ∧
  Zlen (s3_times "get" es) + Zlen (s3_times "put" es) ≤ Zlen es.
Proof.
  induction es as [|e es [IH1 IH2]]; [done|]. rewrite Zlen_cons.
  destruct e as [l op by_ d ok|l op by_ d ok| | | | | |]; simpl; try lia.
  - split; [|lia]. destruct (String.eqb_spec op "read") as [->|]; simpl; rewrite ?Zlen_cons; [lia|].
    destruct (String.eqb_spec op "write") as [->|]; simpl; rewrite ?Zlen_cons; [lia|].
    destruct (String.eqb_spec op "flush") as [->|]; simpl; rewrite ?Zlen_cons; lia.
  - split; [lia|]. destruct (String.eqb_spec op "get") as [->|]; simpl; rewrite ?Zlen_cons; [lia|].
    destruct (String.eqb_spec op "put") as [->|]; simpl; rewrite ?Zlen_cons; lia.
Qed.

Lemma decide_total s :
  0 ≤ la_count (ws_scsi_read s) → 0 ≤ la_count (ws_scsi_write s) → 0 ≤ la_count (ws_scsi_flush s) →
  la_count (ws_scsi_read s) + la_count (ws_scsi_write s) + la_count (ws_scsi_flush s) ≤ u64_max →
  la_count (ws_s3_get s) + la_count (ws_s3_put s) ≤ u64_max → ∃ r, decide s = Ok r.
Proof.
  intros H1 H2 H3 H4 H5. unfold decide, s3_write_score, iscsi_score, s3_read_score.
  rewrite !add64_ok by lia. cbn [mbind outcome_bind]. rewrite !add64_ok by lia. cbn [mbind outcome_bind].
  repeat (case_match; cbn [mbind outcome_bind]); eauto.
Qed.

Lemma analyse_spec ws a m h :
  typed m → an_prev a = me_perf m → wide (me_perf m) →
  wide (plus (me_perf m) (tally (concat (wi_events <$> ws)))) → Zlen (concat (wi_events <$> ws)) ≤ u64_max →
  follows h (an_tracker a) → gauge_shows (reference h) m →
  wp (analyse ws a) (λ a' m', ∃ winners,
    Forall2 (λ s w, decide s = Ok w) (samples (an_prev_dirty a) (an_prev_buffer a) ws) winners ∧
    gauge_shows (reference (rev winners ++ h)) m') (λ _ _, False) m.
Proof.
  revert a m h. induction ws as [|w ws IH]; intros a m h Ht Hp Hw Hws Hlen Hf Hg; simpl.
  { wp_step. by exists []. }
  rewrite fmap_cons in Hws, Hlen. cbn [concat] in Hws, Hlen. rewrite Zlen_app in Hlen. pose proof (Zlen_nonneg (wi_events w)).
  pose proof (Zlen_nonneg (concat (wi_events <$> ws))).
  pose proof (wide_prefix _ _ _ Hw Hws) as Hw1.
  wp_step. eapply wp_mono; [apply (apply_events_after (me_perf m)); by split| |done].
  intros [] m1 [Ht1 Hp1]. rewrite perf_events_plus in Hp1 by done.
  wp_step. unfold turn. wp_steps. unfold Met.perf_counters. rewrite Hp, Hp1, delta_tally.
  destruct (write_cache_fill (wi_stores w)) as [dirty wmax]. destruct (write_buffer_fill (wi_stores w)) as [buf bmax].
  unfold Cache.stats. cbv beta iota.
  set (sample := from_counters _ _ _ _ _ _ _ _ _).
  destruct (tally_counts (wi_events w)) as [Hc1 Hc2].
  destruct (decide_total sample) as [winner Hdec];
    [apply Zlen_nonneg|apply Zlen_nonneg|apply Zlen_nonneg|etrans; [exact Hc1|lia]|etrans; [exact Hc2|lia]|].
  rewrite Hdec. wp_step. wp_step. destruct (observe_follows h (an_tracker a) winner Hf) as [Ho Hf'].
  destruct (observe winner (an_tracker a)) as [next tracker]. simpl in Ho, Hf'. subst next. wp_step.
  eapply wp_mono; [by apply set_bottleneck_shows| |done]. intros [] m2 (Ht2 & Hp2 & Hg2). wp_step.
  eapply wp_mono; [apply (IH _ _ (winner :: h)); cbn [an_prev an_tracker]; try done| |done].
  - by rewrite Hp2, Hp1.
  - by rewrite Hp2, Hp1.
  - by rewrite Hp2, Hp1, plus_assoc, <- tally_app.
  - lia.
  - intros a' m' (winners & Hall & Hg'). exists (winner :: winners). split; [constructor; [exact Hdec|exact Hall]|].
    simpl. by rewrite <- app_assoc.
Qed.

(** C32: What is exported. Started on idle metrics and fed any sequence of
    windows, whatever the program reports in them, the analyser never fails; its
    window samples are exactly the counts and latencies reported in each window
    and the fill of the caches at its end; and afterwards the gauge of exactly the
    last component that won two windows in a row is 1, and of all others 0. *)
Theorem analyser_exports ws (stores0 : list (Core S)) m :
  typed m → gauge_shows None m → wide (Met.perf_counters m) →
  wide (plus (Met.perf_counters m) (tally (concat (wi_events <$> ws)))) →
  Zlen (concat (wi_events <$> ws)) ≤ u64_max →
  ∃ a' m' winners, analyse ws (start stores0 m) m = (Ok a', m') ∧
    Forall2 (λ s w, decide s = Ok w)
      (samples (write_cache_fill stores0).1 (write_buffer_fill stores0).1 ws) winners ∧
    gauge_shows (reference (rev winners)) m'.
Proof.
  intros Ht Hg Hw Hws Hlen.
  destruct (wp_ok _ _ _ (analyse_spec ws (start stores0 m) m [] Ht eq_refl Hw Hws Hlen ltac:(by split) Hg))
    as (a' & m' & Hrun & winners & Hall & Hg').
  exists a', m', winners. split; [done|]. split; [done|]. by rewrite app_nil_r in Hg'.
Qed.
End analyser.

(** ** Witnesses *)
Section witnesses.
Import MemProm.

Definition slow (n : nat) : list Event :=
  replicate n (EScsi vol_a "read" 4096 (ms 120) true) ++ replicate n (ES3 vol_a "get" 4096 (ms 100) true).
(** A window of ten slow reads that spend most of their time in S3. *)
Definition slow_sample : WindowSample :=
  from_counters (tally (slow 10)) 0 64 0 0 0 0 0 0.

Lemma decide_correct_witness :
  ∃ v, score slow_sample S3Read = Ok (Some v) ∧
    ∀ c' v', score slow_sample c' = Ok (Some v') →
      F64.ltb v v' = false ∧ (rank c' < rank S3Read → F64.leb v v' = false).
Proof. apply (decide_correct slow_sample (Some S3Read)). vm_compute. reflexivity. Defined.

Definition slow_window : Window MemoryStore :=
  {| wi_events := slow 10; wi_cache := Cache.new 64; wi_stores := [] |}.

Lemma analyser_exports_witness :
  ∃ a' m' winners, analyse [slow_window; slow_window] (start (S := MemoryStore) [] first_metrics) first_metrics = (Ok a', m') ∧
    Forall2 (λ s w, decide s = Ok w) (samples 0 0 [slow_window; slow_window]) winners ∧
    gauge_shows (reference (rev winners)) m'.
Proof.
  apply (analyser_exports [slow_window; slow_window] [] first_metrics).
  - apply first_typed.
  - intros []; vm_compute; reflexivity.
  - constructor; repeat split; vm_compute; congruence.
  - constructor; repeat split; vm_compute; congruence.
  - vm_compute. congruence.
Defined.

Example slow_reads_light_up :
  (analyse [slow_window; slow_window] (start (S := MemoryStore) [] first_metrics) first_metrics).1 =
  Ok {| an_prev := tally (slow 20); an_prev_dirty := 0; an_prev_buffer := 0;
        an_tracker := {| bt_pending := None; bt_streak := 0; bt_lit := Some S3Read |}; an_shown := Some S3Read |}.
Proof. vm_compute. reflexivity. Qed.
End witnesses.
End PerfTheorems.
